(* ===== verification/_CoqProject ===== *)
-Q . S2P
Prelude.v
RStr.v
HashMaps.v
Json.v
Ids.v
Cmd.v
User.v
Protocol.v
IpcFrame.v
IpcPump.v
IpcSink.v
Handoff.v
Replay.v
Consumers.v
Bridge.v
BridgeInv.v
BridgeProps.v
BridgeHandoff.v
BridgeRaces.v
ProcEvents.v
Telemetry.v
StateFile.v
BridgeLife.v
WsServer.v
WsTransport.v
WsProps.v
WsDelivery.v
WsServerProps.v
Text.v
Census.v
ScanNames.v
SortedIndex.v
Bundle.v
BundleProps.v
Vdf.v
Steam.v
AppIdMemo.v
Exclusions.v
Scan.v
ScanProps.v
ScanSound.v
Runtime.v
RuntimeProps.v
Watch.v
Workers.v
Db.v
Refresh.v
Io.v
Update.v
OtaDemo.v
UpdateProps.v
UpdateRuns.v
StdPath.v
OtaEnv.v
SteamFs.v
SteamCache.v
SteamFsProps.v
SteamSync.v
SteamCacheProps.v
Daemon.v
DaemonProps.v
Teardown.v
Overrides.v
IpcListen.v
IpcAccept.v
IpcPipe.v
Ports.v
Boot.v
BootProps.v
