(* ===== verification/Prelude.v ===== *)
(** * rsRPC: a verified model of a Discord rich-presence daemon

    rsRPC is a daemon that plays the role of the Discord client on the
    machine where games run.  Games talk to it over the Discord IPC socket
    (or a WebSocket); a process scanner reports games that do not talk at
    all; the *bridge* merges the two into one card per socket id and fans
    the cards out to connected consumers (clients that render them), over
    JSON or MessagePack.  The sources are a Rust workspace; paths below are
    under src/.

    ** The program's parts and how they interact

    - crates/rsrpc-types: commands and activities ([cmd.rs]), the identity
      presented to games ([user.rs]), ids ([app_id.rs],
      [detect_source.rs]).
    - crates/rsrpc-protocol: the payload the bridge sends for a command,
      replies to games and the flood guard ([commands.rs]), query strings
      ([query.rs]).
    - crates/rsrpc-transport-ipc: one pump per IPC connection
      ([frame.rs], [unix.rs], [windows.rs]) decodes packets, answers them and puts
      commands in a bounded sink ([sink.rs]).
    - crates/rsrpc-bridge: three pumps (commands from the sinks, process
      events from the scanner, consumer connections) and two timers
      (refresh, persist) share one [Shared] ([bridge.rs], [router.rs],
      [consumer.rs]); inside it, the handoff between SDK and generic cards
      ([handoff.rs]), the replay cache ([replay.rs]), the origin policy and
      control messages ([origin.rs], [control.rs]), and snapshots of the
      cards for other tools ([state.rs], [snapshot.rs]).
    - crates/rsrpc-ws: the WebSocket server both the bridge and the game
      transport run on ([server.rs], [config.rs]), and the outboxes a
      client is reached by ([hub.rs], [message.rs]).
    - crates/rsrpc-transport-ws: games that speak over a WebSocket: one
      pump, its handlers and a staged queue in front of the bridge's sink
      ([transport.rs], [handlers.rs]).
    - crates/rsrpc-detect: the process scanner: the game database and its
      hourly refresh ([db.rs], [bundle.rs], [database.rs], [refresh.rs]),
      the matchers ([scan.rs], [scanner.rs], [cache.rs], [steam.rs]), the
      scan, dispatch, refresh and watcher threads ([runtime.rs]).
    - crates/rsrpc-steam: which Steam game an install directory belongs to,
      kept up to date with the disk and cached across starts.
    - crates/rsrpc-telemetry: depth gauges on the unbounded queues between
      the parts, and the resource census.
    - crates/rsrpc-proc-events: the kernel's process events over netlink.
    - crates/rsrpc-core: configuration, overrides, and the run of the whole
      ([daemon.rs]); cli: the command line ([main.rs]) and the self-updater
      ([update.rs]).

    ** Which file models which part

    - Prelude.v: machine integers, list and option helpers (this file).
    - RStr.v: Rust [str] operations on UTF-8 bytes.  HashMaps.v: hash maps
      with an unspecified iteration order, and the "purge, insert, evict"
      discipline of the bounded tables.  Json.v: [serde_json::Value] and the
      serializer interface.
    - Ids.v, Cmd.v, User.v: rsrpc-types.  [ActivityCmd::fix] is [Cmd.fix_cmd];
      [From<u64> for SocketId] is [Ids.SocketId_from_u64];
      [RpcUser::patch] is [User.user_patch].
    - Protocol.v: rsrpc-protocol; [RecentActivities::should_drop] is
      [Protocol.should_drop].
    - IpcFrame.v: framing, pid history, packet handlers and the read loop
      [handle_stream] of frame.rs, as a function from the peer's bytes and
      the way the stream ends to the final connection state and the trace
      of effects.  IpcPump.v holds its theorems.  IpcSink.v: sink.rs.
    - Handoff.v: handoff.rs.  Replay.v: replay.rs.  Consumers.v:
      consumer.rs, origin.rs, control.rs and the outboxes of rsrpc-ws.
    - Bridge.v: [Shared] and every handler of bridge.rs and router.rs.
      BridgeInv.v: the critical sections as a step relation, and the
      invariant.  BridgeProps.v: what each handler does.  BridgeHandoff.v:
      the life of an SDK card end to end.  BridgeRaces.v: two schedules in
      which a clear is overtaken.
    - StateFile.v: state.rs and snapshot.rs.  BridgeLife.v: the tasks of a
      bridge from [Bridge::bind] to the end of [Bridge::shutdown], with the
      snapshot writes, over one state directory.
    - Telemetry.v: the gauges of rsrpc-telemetry as a concurrent machine.
      Census.v: its memory readings and the census of bridge.rs.
    - ProcEvents.v: the netlink parser and the loss counter.  Watch.v: the
      life of the netlink socket ([watch]) and the thread that retries it.
    - WsServer.v: rsrpc-ws (configuration, accept loop, connection tasks as
      state machines).  WsTransport.v: the pump, handlers and staged queue of
      rsrpc-transport-ws.  WsProps.v, WsDelivery.v and WsServerProps.v:
      their theorems, the last one for the two together.
    - Text.v: Unicode lower-casing by a table, lines, words, joins.
      ScanNames.v: the name rules of scan.rs.  SortedIndex.v, Bundle.v and
      BundleProps.v: the lookup tables and automata of bundle.rs and the
      generations of database.rs.  Vdf.v and Steam.v: the VDF parser and the
      path rules of rsrpc-steam.  AppIdMemo.v: cache.rs with its two
      threads.  Exclusions.v, Scan.v (the matcher tiers), ScanProps.v and
      ScanSound.v.  Runtime.v and RuntimeProps.v: the scan tick and the
      dispatch of events.  Workers.v: the shutdown of the threads that park.
      Db.v and Refresh.v: database formats, caps, hashes and the conditional
      refresh.
    - Io.v: programs over a file system in which any call can fail and any
      run can be cut, with a weakest precondition and an executable
      semantics.  Update.v: update.rs as such programs; OtaDemo.v,
      UpdateProps.v and UpdateRuns.v: demonstrations and theorems.
    - StdPath.v: the [Path] operations used.  OtaEnv.v: the updater's
      directory.  SteamFs.v: scanning,
      discovery and refresh of rsrpc-steam over a disk; SteamCache.v: its
      cache file; SteamFsProps.v, SteamSync.v, SteamCacheProps.v: theorems.
    - Daemon.v: start times (proc_start.rs), configuration, the pump from
      scanner to bridge and the order of a run; DaemonProps.v.  Teardown.v:
      the threads of the scanner, its pump thread, [teardown_scanner] and
      [CancelGuard] as interleaved steps.  Overrides.v:
      overrides.rs and the daemon's staging.  IpcListen.v: paths.rs, probe.rs
      and the bind and clean-up of unix.rs over a file system of sockets and
      links; IpcAccept.v: its accept loop, pump tasks, shutdown and drop as
      interleaved steps; IpcPipe.v: the named-pipe listener of windows.rs in
      the same manner.  Ports.v: the port walks of the bridge and the game
      transport and the configurations they read.  Boot.v and BootProps.v:
      main.rs from the arguments to a running daemon or a printed list.

    A definition has the name of the Rust function it translates; a struct
    is a record whose field names carry a prefix for the struct ([sh_] for
    [Shared], [cmd_] for [ActivityCmd]).  Two names differ because they
    occur twice: the bridge's [handle_set_activity] is
    [Bridge.bridge_set_activity], the pump's is
    [IpcFrame.handle_set_activity].  Logging has no counterpart.

    ** What the theorems show

    - Connections (IpcPump.v, IpcFrame.v, IpcSink.v).  The pump stops on
      every byte stream without panicking; on the bytes of a packet
      sequence it behaves as the packet-level protocol; every request frame
      is answered exactly once; when a connection is lost, every presence
      it forwarded is cleared, whatever pids it multiplexed, except after a
      refused second handshake, which is proved to leave the cards.  The
      sink's waiting send returns, and succeeds if room appears in time.
    - Handoff and bridge (Handoff.v to BridgeRaces.v).  The owner table
      refines "a slot belongs to its last publisher until that pid lets go";
      publishing takes a slot, a clear by the owner frees it and brings the
      generic card back, a lost connection frees all of its slots, a
      detected game yields to an SDK owner; a broadcast reaches every
      consumer with room and prunes the others; an emptied process table
      removes the ghosts and only those; late joiners get every card.  The
      bounds and well-formedness of all tables hold in every state
      reachable by any interleaving of critical sections, and every handler
      is proved to be a sequence of these sections.  Two interleavings in
      which a consumer ends on a stale card are proved reachable.
    - Payloads (Protocol.v, Cmd.v, User.v, Ids.v).  Timestamp units,
      buttons, the echo of a reply, the fingerprint carried by the cached
      envelope, the flood guard's rate limit, the identity's
      well-formedness through patches, pid rendering and parsing.
    - Snapshots (StateFile.v, BridgeLife.v).  A snapshot write is atomic at
      every crash point; slot selection is first fit; with the default
      intervals an idle daemon's slot reads as reusable.  Under any
      interleaving of the tasks the slot converges to the replay cache: no
      change stays behind a cleared dirty flag.  A shutdown drains however
      the tasks are scheduled and however much is still queued, each loop
      ending only where its wait does, and releases the slot, unless a write
      outlasts its deadline, which is proved to bring the slot back.
    - Queues and kernel events (Telemetry.v, ProcEvents.v).  The gauge's
      accounting and its cap under any interleaving of threads; the netlink
      walk never reads out of bounds, and reads back what the kernel wrote;
      the loss counter is exact across 32-bit wraps.  The watcher closes its
      socket on every way out, offers exactly the events of the messages
      delivered, in order, to a queue that sheds and counts them past 1024,
      and stops at the next event or deadline once it is told to (Watch.v).  The census counts every consumer once and prints
      memory to a tenth of a megabyte (Census.v).
    - WebSockets (WsServer.v to WsServerProps.v).  The server admits no more
      connections than its bound and announces each session once, opened
      before closed; the transport's state is well formed through any
      events and any schedule of its retry tasks; commands are answered
      once and reach the sink in their order (with one proved exception),
      the oldest staged ones are shed at the cap, none is lost at shutdown;
      a cancelled connection ends.  A publish can be left staged without a
      retry task until further traffic, which is proved.
    - Detection (ScanNames.v to Refresh.v, Workers.v).  Every hit carries the
      evidence its source claims and a declared executable is found; the
      lookup tables and automata agree with the entries they were built
      from in every generation; the AppId memo is never stale for long under
      any schedule; after a tick that was not cut short the consumers show
      the scan's table, with two proved exceptions; trimming agrees with the
      DOM projection; the tag and hashes of the refresh are those of a body
      that was served and describe the installed database; no thread sleeps
      through a shutdown and every one ends.
    - Steam (Vdf.v, Steam.v, SteamFs.v to SteamCacheProps.v).  VDF documents
      and mount points read back as written; through any refreshes the
      incremental map is the complete scan of the disk, and a start from the
      cache equals a start without it, both as far as an unmoved marker
      means an unchanged library; the cache file is replaced atomically.
    - Updates (UpdateProps.v, UpdateRuns.v).  Whatever commands ran, failed
      and were cut, an installed image is the original or one that a signed
      manifest lists; staging is atomic; without faults a staged update is
      applied at the next start and a rollback is its own inverse; a failed
      cross-device fallback is proved to leave no image.
    - The whole (Daemon.v to BootProps.v).  Scan ticks reach the bridge's
      cards end to end; a run leaves nothing running; binding takes the
      first index or port that can be had, spares what belongs to others and
      leaves no trace; the IPC pumps are capped and a graceful shutdown
      drains them, while a bare drop is proved to miss one; on Windows both
      loops stop within seven steps of a cancellation and a shutdown holds
      every pump, while the cap is proved not to keep the blocking pool from
      starving; once the scanner is signalled, by the teardown of a run or by
      the guard of an abandoned one, every thread ends; boot does not
      depend on the network and seeds the refresh with the truth; the
      one-shot scan lists what running would publish.

    ** Modelling choices

    - Integers are [Z] kept at their width: wrapping, saturating and checked
      arithmetic are written out; an out-of-bounds index or an underflow is
      an explicit panic ([None] or a [Panicked] outcome), which the totality
      theorems exclude.
    - Interfaces to code outside the repository are class parameters:
      [HashOrder] (the hasher's iteration order, any permutation of the
      entries), [Serde] and [SerdeTotal] (serde_json and rmp_serde: what
      they print, and that they do not fail on the shapes given to them),
      [IpcParse] (serde's parser of a frame body into a command),
      [AhoCorasick] and [Regex] (the two matching crates), [CaseTables] (the
      lower-casing of non-ASCII characters), [SipHash], [Semver], [Sha256],
      [Minisign] and [OtaSerde] (the updater's crates).  Each comes with an
      instance on which the witnesses compute.  Clocks, the process-liveness
      probe and environment variables are arguments; so are a disk
      ([SteamFs.Disk]), what a socket path answers ([IpcListen.Sys]), which
      ports the system grants ([Ports]) and what the network serves
      ([Boot], [Io]).
    - The updater is sequential: two of its commands do not run at once.  A
      rename across devices is one of the faults a call can have, so runs
      without faults stay on one filesystem; a cut is the end of the
      process, not a loss of what was written before.  A
      refresh of the Steam map sees one disk throughout, as does a bind of
      the IPC listener; between calls disks change freely.
    - Threads and tasks are steps between the points where another one can
      see or interrupt them: critical sections of the bridge, the two
      threads of the AppId memo, the gauge's atomics, the accept loops and
      their pumps, the tasks of the bridge, park and unpark.  In the game
      transport the retry tasks run any number of their lock sections before
      every lock section of the pump and every send outside the lock
      ([WsTransport.interleave]), and the bridge takes from the sink at
      every access; the drain of its shutdown is modelled without retry
      tasks beside it.
    - One run of a bridge handler sees one [Env] (clock readings and
      liveness): the probe's answer does not change within a handler.  The
      invariant does not depend on this, since every critical section there
      takes arguments of its own.
    - [Bridge.resume_generic] also serves as the publishing branch of
      [Bridge.on_detected]: bridge.rs repeats the steps of router.rs there.
    - [Vdf.print_doc] translates nothing: it is the reference writer of the
      format the parser's round trip is stated against.
    - Outboxes live in a store of their own, because clones of a responder
      share one queue.
    - Fuel.  The pump takes [length input + 1]: each packet consumes at
      least its header, and [handle_stream_total] shows the fuel is never
      exhausted.  The netlink walk takes the datagram's length plus one, for
      the same reason ([walk_proc_messages_total]).  Eviction and pruning
      take the map's size, and their lemmas give the resulting size exactly.
      The pid renderer takes the buffer's 20 digits
      ([socket_id_of_pid_roundtrip]).  The sink's retry loop takes 251
      attempts: 250 ms at one sleep of at least 1 ms each
      ([emit_clear_returns]); the transport's drain takes 1001 for the same
      reason.  Binary search, the pattern budget of the exclusions and the
      AppId token loop take the length of what they search.  The watcher,
      the IPC machine and the retry loop take a number of rounds, and their
      theorems quantify over it.

    ** What is not modelled

    Log lines (the census line apart), [Debug] and [Display] texts; the
    WebSocket handshake and the HTTP client (third-party crates, arguments
    here); clap, the Tokio runtime and the panic hook of main.rs; the
    allocator calls of rsrpc-detect and the allocator statistics of the
    census (what the C library answers is an argument); builds for other
    systems than Linux, except the named-pipe listener, in particular the
    [sysinfo] process list; the callback a library caller can register on
    scan ticks; the capacity of read buffers, which is not observable; the
    fuzz targets and the updater tool under tools. *)

From stdpp Require Import base gmap strings list list_numbers fin_maps sets.
From Stdlib Require Import Ascii.

Declare Scope rsrpc_scope.
Delimit Scope rsrpc_scope with rsrpc.

(** ** Machine integers

    A Rust [u64], [u32] or [i64] is a [Z] in its range.  Wrapping
    arithmetic ([wrapping_add], atomics' [fetch_add]) reduces modulo the
    width; [saturating_*] clamps; [checked_*] returns [None] on overflow. *)

Definition U32_MAX : Z := 4294967295.
Definition U64_MAX : Z := 18446744073709551615.
Definition I64_MAX : Z := 9223372036854775807.
Definition I64_MIN : Z := -9223372036854775808.

Definition is_u32 (z : Z) : Prop := (0 ≤ z ≤ U32_MAX)%Z.
Definition is_u64 (z : Z) : Prop := (0 ≤ z ≤ U64_MAX)%Z.
Definition is_i64 (z : Z) : Prop := (I64_MIN ≤ z ≤ I64_MAX)%Z.

Definition wrap_u32 (z : Z) : Z := (z mod 4294967296)%Z.
Definition wrap_u64 (z : Z) : Z := (z mod 18446744073709551616)%Z.
Definition wrap_i64 (z : Z) : Z := ((z - I64_MIN) mod 18446744073709551616 + I64_MIN)%Z.

Definition sat_i64 (z : Z) : Z := Z.max I64_MIN (Z.min I64_MAX z).
Definition sat_u64_add (a b : Z) : Z := Z.min U64_MAX (a + b).
Definition sat_u64_mul (a b : Z) : Z := Z.min U64_MAX (a * b).
Definition sat_u64_sub (a b : Z) : Z := Z.max 0 (a - b).
Definition checked_u64 (z : Z) : option Z :=
  if (z <=? U64_MAX)%Z then Some z else None.

(** Unfold the integer vocabulary and call [lia]. *)
Ltac int_lia :=
  unfold is_u32, is_u64, is_i64, wrap_u32, wrap_u64, wrap_i64, sat_i64,
    sat_u64_add, sat_u64_mul, sat_u64_sub, U32_MAX, U64_MAX, I64_MAX, I64_MIN in *;
  lia.

Lemma wrap_u64_range z : is_u64 (wrap_u64 z).
Proof.
  pose proof (Z.mod_pos_bound z 18446744073709551616 ltac:(lia)). int_lia.
Qed.

Lemma wrap_u64_id z : is_u64 z → wrap_u64 z = z.
Proof. intros ?. unfold wrap_u64. apply Z.mod_small. int_lia. Qed.

Lemma wrap_u32_range z : is_u32 (wrap_u32 z).
Proof.
  pose proof (Z.mod_pos_bound z 4294967296 ltac:(lia)). int_lia.
Qed.

Lemma wrap_u32_id z : is_u32 z → wrap_u32 z = z.
Proof. intros ?. unfold wrap_u32. apply Z.mod_small. int_lia. Qed.

Lemma wrap_i64_id z : is_i64 z → wrap_i64 z = z.
Proof. intros ?. unfold wrap_i64. rewrite Z.mod_small; int_lia. Qed.

(** ** Options and lists *)

Definition is_some {A} (o : option A) : bool :=
  match o with Some _ => true | None => false end.

Definition or_else {A} (a b : option A) : option A :=
  match a with Some _ => a | None => b end.

Definition opt_any {A} (f : A → bool) (o : option A) : bool :=
  match o with Some a => f a | None => false end.

(** First [Some] of a mapped list ([Iterator::find_map]). *)
Fixpoint find_map {A B} (f : A → option B) (l : list A) : option B :=
  match l with
  | [] => None
  | a :: l => match f a with Some b => Some b | None => find_map f l end
  end.

Definition find_first {A} (f : A → bool) (l : list A) : option A :=
  find_map (λ a, if f a then Some a else None) l.

(** Position of the first match ([Iterator::position]). *)
Fixpoint position {A} (f : A → bool) (l : list A) : option nat :=
  match l with
  | [] => None
  | a :: l => if f a then Some 0 else S <$> position f l
  end.

(** [Vec::remove]: drop index [i], shifting the tail left. *)
Definition vec_remove {A} (i : nat) (l : list A) : list A :=
  take i l ++ drop (S i) l.

Lemma position_Some {A} (f : A → bool) l i :
  position f l = Some i →
  ∃ a, l !! i = Some a ∧ f a = true.
Proof.
  revert i; induction l as [|a l IH]; intros i; simpl; [done|].
  destruct (f a) eqn:Hf; [naive_solver|].
  destruct (position f l) as [j|]; intros; simplify_eq/=. by apply IH.
Qed.

Lemma position_None {A} (f : A → bool) l a :
  position f l = None → a ∈ l → f a = false.
Proof.
  induction l as [|b l IH]; simpl; [intros _ H; by apply not_elem_of_nil in H|].
  destruct (f b) eqn:Hf; [done|].
  destruct (position f l); [done|]. rewrite elem_of_cons. naive_solver.
Qed.

Lemma vec_remove_perm {A} (l : list A) i a :
  l !! i = Some a → l ≡ₚ a :: vec_remove i l.
Proof.
  intros Hi. unfold vec_remove.
  rewrite <-(take_drop_middle l i a Hi) at 1.
  by rewrite Permutation_middle.
Qed.

Lemma find_map_Some {A B} (f : A → option B) l b :
  find_map f l = Some b → ∃ a, a ∈ l ∧ f a = Some b.
Proof.
  induction l as [|a l IH]; simpl; [done|].
  destruct (f a) eqn:Hf; intros; simplify_eq.
  - exists a. split; [by left|done].
  - destruct IH as (x & ? & ?); [done|]. exists x. split; [by right|done].
Qed.

Lemma find_map_None {A B} (f : A → option B) l a :
  find_map f l = None → a ∈ l → f a = None.
Proof.
  induction l as [|x l IH]; simpl; [intros _ H; by apply not_elem_of_nil in H|].
  destruct (f x) eqn:Hf; [done|]. rewrite elem_of_cons. naive_solver.
Qed.

(** Keys of a filtered association list stay distinct. *)
Lemma filter_fst_NoDup {A B} (P : A * B → Prop) `{∀ x, Decision (P x)} (l : list (A * B)) :
  NoDup l.*1 → NoDup (base.filter P l).*1.
Proof.
  induction l as [|[a b] l IH]; [done|]. rewrite fmap_cons, NoDup_cons. intros [Hni Hnd].
  rewrite filter_cons. case_decide; [|by apply IH].
  rewrite fmap_cons, NoDup_cons. split; [|by apply IH]. simpl in *.
  intros ([? y] & -> & [_ Hin]%list_elem_of_filter)%list_elem_of_fmap.
  apply Hni. by apply (list_elem_of_fmap_2 fst l (_, y)).
Qed.

(** Bind for code that returns early on [None]. *)
Notation "x <-? e ; k" := (match e with Some x => k | None => None end)
  (at level 20, e at level 100, k at level 200, right associativity) : rsrpc_scope.
