(* ===== verification/RStr.v ===== *)
(** * Rust [str] operations

    A Rust [str] is a sequence of UTF-8 bytes; here it is a [string] whose
    [ascii] characters are those bytes.  The file defines, executably, the
    standard-library operations the source uses on strings: prefix and
    suffix tests, [split_once], [split], [trim] (Unicode [White_Space],
    byte-encoded), ASCII case folding, UTF-8 validation, and the decimal
    rendering and parsing of [u64]. *)

From stdpp Require Import base strings list list_numbers.
From Stdlib Require Import Ascii.
From Stdlib Require String.
From S2P Require Import Prelude.

Create Rewrite HintDb rstr.
Local Open Scope string_scope.
Local Open Scope nat_scope.
Local Open Scope list_scope.

(** ** Characters and conversions *)

Definition code (c : ascii) : Z := Z.of_N (N_of_ascii c).
Definition chr (z : Z) : ascii := ascii_of_N (Z.to_N z).

Definition chars (s : string) : list ascii := String.list_ascii_of_string s.
Definition of_chars (l : list ascii) : string := String.string_of_list_ascii l.

Definition str_of_codes (l : list Z) : string := of_chars (map chr l).

Lemma string_app_nil_r (s : string) : s +:+ "" = s.
Proof. induction s as [|c s IH]; [done|]. change (String c (s +:+ "") = String c s). congruence. Qed.

Lemma string_app_assoc (a b c : string) : (a +:+ b) +:+ c = a +:+ (b +:+ c).
Proof.
  induction a as [|x a IH]; [done|].
  change (String x ((a +:+ b) +:+ c) = String x (a +:+ (b +:+ c))). congruence.
Qed.

Definition str_empty (s : string) : bool :=
  match s with EmptyString => true | _ => false end.

Definition str_len (s : string) : Z := Z.of_nat (String.length s).

Lemma chars_of_chars l : chars (of_chars l) = l.
Proof. apply String.list_ascii_of_string_of_list_ascii. Qed.

Lemma of_chars_chars s : of_chars (chars s) = s.
Proof. apply String.string_of_list_ascii_of_string. Qed.

#[export] Hint Rewrite chars_of_chars of_chars_chars : rstr.

Lemma chars_app a b : chars (a +:+ b) = chars a ++ chars b.
Proof.
  induction a as [|c a IH]; [done|].
  change (c :: chars (a +:+ b) = c :: (chars a ++ chars b)). by rewrite IH.
Qed.

Lemma of_chars_inj l1 l2 : of_chars l1 = of_chars l2 → l1 = l2.
Proof. intros H. by rewrite <-(chars_of_chars l1), H, chars_of_chars. Qed.

Lemma code_chr z : (0 ≤ z < 256)%Z → code (chr z) = z.
Proof.
  intros. unfold code, chr. rewrite N_ascii_embedding by lia. lia.
Qed.

(** ** Prefixes, suffixes, splitting *)

Fixpoint strip_prefix_l (p l : list ascii) : option (list ascii) :=
  match p, l with
  | [], _ => Some l
  | a :: p, b :: l => if Ascii.eqb a b then strip_prefix_l p l else None
  | _ :: _, [] => None
  end.

Definition strip_prefix (p s : string) : option string :=
  of_chars <$> strip_prefix_l (chars p) (chars s).

Definition strip_suffix (p s : string) : option string :=
  (λ l, of_chars (rev l)) <$> strip_prefix_l (rev (chars p)) (rev (chars s)).

Definition starts_with (p s : string) : bool := is_some (strip_prefix p s).
Definition ends_with (p s : string) : bool := is_some (strip_suffix p s).

Lemma strip_prefix_l_Some p l r : strip_prefix_l p l = Some r ↔ l = p ++ r.
Proof.
  revert l r; induction p as [|a p IH]; intros l r; simpl.
  { naive_solver. }
  destruct l as [|b l]; [naive_solver|].
  destruct (Ascii.eqb_spec a b) as [->|]; [rewrite IH|]; naive_solver.
Qed.

Lemma strip_prefix_l_app p r : strip_prefix_l p (p ++ r) = Some r.
Proof. by apply strip_prefix_l_Some. Qed.

(** [str::split_once] on a character: the parts around its first occurrence. *)
Fixpoint split_once_l (c : ascii) (l : list ascii) : option (list ascii * list ascii) :=
  match l with
  | [] => None
  | a :: l =>
      if Ascii.eqb a c then Some ([], l)
      else match split_once_l c l with
           | Some (x, y) => Some (a :: x, y)
           | None => None
           end
  end.

Definition split_once (c : ascii) (s : string) : option (string * string) :=
  match split_once_l c (chars s) with
  | Some (x, y) => Some (of_chars x, of_chars y)
  | None => None
  end.

(** [str::split] on a character: always at least one piece. *)
Fixpoint split_l (c : ascii) (l : list ascii) : list (list ascii) :=
  match l with
  | [] => [[]]
  | a :: l =>
      if Ascii.eqb a c then [] :: split_l c l
      else match split_l c l with
           | x :: xs => (a :: x) :: xs
           | [] => [[a]]
           end
  end.

Definition split (c : ascii) (s : string) : list string :=
  map of_chars (split_l c (chars s)).

Lemma split_l_nonempty c l : split_l c l ≠ [].
Proof. destruct l as [|x l]; simpl; [done|]. destruct (Ascii.eqb x c); [done|]. by destruct (split_l c l). Qed.

Lemma split_l_sep c a b : split_l c (a ++ c :: b) = split_l c a ++ split_l c b.
Proof.
  induction a as [|x a IH]; simpl; [by rewrite Ascii.eqb_refl|].
  rewrite IH. destruct (Ascii.eqb x c); [done|]. pose proof (split_l_nonempty c a).
  by destruct (split_l c a).
Qed.

Lemma split_l_none c a : c ∉ a → split_l c a = [a].
Proof.
  induction a as [|x a IH]; intros Hc; [done|]. apply not_elem_of_cons in Hc as [Hx Hc]. simpl.
  destruct (Ascii.eqb_spec x c); [congruence|]. by rewrite IH.
Qed.

(** [str::trim_end_matches] on one character. *)
Fixpoint drop_while_eq (c : ascii) (l : list ascii) : list ascii :=
  match l with
  | [] => []
  | a :: l' => if Ascii.eqb a c then drop_while_eq c l' else l
  end.

Definition trim_end_matches (c : ascii) (s : string) : string :=
  of_chars (rev (drop_while_eq c (rev (chars s)))).

(** ** [str::trim]

    The UTF-8 encodings of the [White_Space] characters: U+0009-000D,
    U+0020, U+0085, U+00A0, U+1680, U+2000-200A, U+2028, U+2029, U+202F,
    U+205F and U+3000. *)
Definition white_space : list (list ascii) :=
  map (map chr)
    ( [[9]; [10]; [11]; [12]; [13]; [32];
       [194; 133]; [194; 160]; [225; 154; 128];
       [226; 128; 128]; [226; 128; 129]; [226; 128; 130]; [226; 128; 131];
       [226; 128; 132]; [226; 128; 133]; [226; 128; 134]; [226; 128; 135];
       [226; 128; 136]; [226; 128; 137]; [226; 128; 138];
       [226; 128; 168]; [226; 128; 169]; [226; 128; 175];
       [226; 129; 159]; [227; 128; 128]]%Z ).

Fixpoint trim_front (fuel : nat) (ws : list (list ascii)) (l : list ascii) : list ascii :=
  match fuel with
  | 0 => l
  | S fuel =>
      match find_map (λ w, strip_prefix_l w l) ws with
      | Some l' => trim_front fuel ws l'
      | None => l
      end
  end.

(** Fuel: every step removes at least one byte, so the length is enough. *)
Definition trim (s : string) : string :=
  let l := trim_front (length (chars s)) white_space (chars s) in
  of_chars (rev (trim_front (length l) (map (@rev ascii) white_space) (rev l))).

Definition to_ascii_lower (c : ascii) : ascii :=
  if ((65 <=? code c) && (code c <=? 90))%Z then chr (code c + 32) else c.

Definition to_ascii_lowercase (s : string) : string :=
  of_chars (map to_ascii_lower (chars s)).

(** ** UTF-8 validation ([String::from_utf8], [Read::read_to_string]) *)

Definition cont (b : Z) : bool := ((128 <=? b) && (b <=? 191))%Z.

Definition utf8_second3 (a b : Z) : bool :=
  ((a =? 224) && (160 <=? b) && (b <=? 191)
   || (225 <=? a) && (a <=? 236) && cont b
   || (a =? 237) && (128 <=? b) && (b <=? 159)
   || (238 <=? a) && (a <=? 239) && cont b)%Z.

Definition utf8_second4 (a b : Z) : bool :=
  ((a =? 240) && (144 <=? b) && (b <=? 191)
   || (241 <=? a) && (a <=? 243) && cont b
   || (a =? 244) && (128 <=? b) && (b <=? 143))%Z.

Fixpoint utf8_valid (l : list Z) : bool :=
  match l with
  | [] => true
  | a :: l1 =>
      if (a <? 128)%Z then utf8_valid l1
      else match l1 with
           | [] => false
           | b :: l2 =>
               if ((194 <=? a) && (a <=? 223) && cont b)%Z then utf8_valid l2
               else match l2 with
                    | [] => false
                    | c :: l3 =>
                        if utf8_second3 a b && cont c then utf8_valid l3
                        else match l3 with
                             | [] => false
                             | d :: l4 =>
                                 if utf8_second4 a b && cont c && cont d
                                 then utf8_valid l4 else false
                             end
                    end
           end
  end.

(** ** Decimal [u64] *)

Definition digit (d : Z) : ascii := chr (48 + d).
Definition is_digit (c : ascii) : bool := ((48 <=? code c) && (code c <=? 57))%Z.
Definition digit_val (c : ascii) : Z := (code c - 48)%Z.

(** Digits of [z], most significant first, in front of [acc]; [fuel]
    digits at most (20 cover every [u64]). *)
Fixpoint dec_digits (fuel : nat) (z : Z) (acc : list ascii) : list ascii :=
  match fuel with
  | 0 => acc
  | S fuel =>
      let acc := digit (z mod 10) :: acc in
      if (z / 10 =? 0)%Z then acc else dec_digits fuel (z / 10) acc
  end.

(** [u64::to_string]. *)
Definition u64_to_string (z : Z) : string := of_chars (dec_digits 20 z []).

Fixpoint parse_digits (acc : Z) (l : list ascii) : option Z :=
  match l with
  | [] => Some acc
  | c :: l =>
      if is_digit c then
        match checked_u64 (acc * 10) with
        | Some m => match checked_u64 (m + digit_val c) with
                    | Some n => parse_digits n l
                    | None => None
                    end
        | None => None
        end
      else None
  end.

(** [str::parse::<u64>]: one optional leading [+], then digits only. *)
Definition parse_u64 (s : string) : option Z :=
  match chars s with
  | [] => None
  | c :: l =>
      if Ascii.eqb c "+"%char then
        match l with [] => None | _ => parse_digits 0 l end
      else parse_digits 0 (c :: l)
  end.

Lemma digit_props d :
  (0 ≤ d < 10)%Z → is_digit (digit d) = true ∧ digit_val (digit d) = d.
Proof.
  intros. unfold is_digit, digit_val, digit. rewrite code_chr by lia. lia.
Qed.

(** The number a digit list denotes after the prefix [acc]. *)
Definition dec_value (acc : Z) (l : list ascii) : Z :=
  foldl (λ a c, a * 10 + digit_val c)%Z acc l.

Lemma dec_value_mono acc l :
  (0 ≤ acc)%Z → Forall (λ c, is_digit c = true) l → (acc ≤ dec_value acc l)%Z.
Proof.
  intros Hacc Hl. revert acc Hacc.
  induction Hl as [|c l Hc Hl IH]; intros acc Hacc; simpl; [lia|].
  unfold is_digit in Hc. unfold digit_val.
  specialize (IH (acc * 10 + (code c - 48))%Z ltac:(lia)).
  unfold dec_value, digit_val in *. lia.
Qed.

Lemma parse_digits_value acc l :
  (0 ≤ acc)%Z → Forall (λ c, is_digit c = true) l →
  (dec_value acc l ≤ U64_MAX)%Z → parse_digits acc l = Some (dec_value acc l).
Proof.
  intros Hacc Hl. revert acc Hacc.
  induction Hl as [|c l Hc Hl IH]; intros acc Hacc Hmax; simpl; [done|].
  rewrite Hc. unfold is_digit in Hc.
  pose proof (dec_value_mono (acc * 10 + digit_val c) l) as Hm.
  unfold dec_value in Hmax, Hm; simpl in Hmax. unfold digit_val in *.
  specialize (Hm ltac:(lia) Hl). unfold checked_u64.
  destruct (Z.leb_spec (acc * 10) U64_MAX); [|lia].
  destruct (Z.leb_spec (acc * 10 + (code c - 48)) U64_MAX); [|lia].
  apply IH; [lia|]. unfold dec_value, digit_val. lia.
Qed.

Lemma dec_digits_spec fuel z acc :
  (0 ≤ z < 10 ^ Z.of_nat fuel)%Z → (0 < fuel)%nat →
  Forall (λ c, is_digit c = true) acc →
  Forall (λ c, is_digit c = true) (dec_digits fuel z acc) ∧
  dec_value 0 (dec_digits fuel z acc) = dec_value z acc ∧
  length acc < length (dec_digits fuel z acc).
Proof.
  revert z acc; induction fuel as [|fuel IH]; intros z acc Hz Hf Hacc; [lia|].
  pose proof (Z.mod_pos_bound z 10 ltac:(lia)) as Hm.
  pose proof (Z.div_mod z 10 ltac:(lia)) as Hdm.
  destruct (digit_props (z mod 10) Hm) as [Hd Hv]. simpl.
  destruct (Z.eqb_spec (z / 10) 0) as [H0|H0].
  - split_and!; [by constructor| |simpl; lia].
    unfold dec_value; simpl. rewrite Hv. by replace (0 * 10 + z mod 10)%Z with z by lia.
  - destruct fuel as [|fuel]; [simpl in Hz; rewrite Z.pow_1_r in Hz;
      by rewrite Z.div_small in H0 by lia|].
    destruct (IH (z / 10)%Z (digit (z mod 10) :: acc)) as (IH1 & IH2 & IH3);
      [|lia|by constructor|].
    { rewrite Nat2Z.inj_succ, Z.pow_succ_r in Hz by lia.
      split; [apply Z.div_pos; lia|apply Z.div_lt_upper_bound; lia]. }
    split_and!; [done| |simpl in *; lia].
    rewrite IH2. unfold dec_value at 1; simpl. rewrite Hv.
    by replace (z / 10 * 10 + z mod 10)%Z with z by lia.
Qed.

Lemma digit_not_plus c : is_digit c = true → Ascii.eqb c "+"%char = false.
Proof.
  intros Hc. destruct (Ascii.eqb_spec c "+"%char) as [->|]; [|done]. by vm_compute in Hc.
Qed.

(** Parsing what [to_string] prints gives the number back. *)
Lemma parse_u64_to_string z : is_u64 z → parse_u64 (u64_to_string z) = Some z.
Proof.
  intros Hz. unfold parse_u64, u64_to_string. rewrite chars_of_chars.
  destruct (dec_digits_spec 20 z []) as (Hd & Hv & Hlen); [|lia|constructor|].
  { change (10 ^ Z.of_nat 20)%Z with 100000000000000000000%Z. int_lia. }
  change (dec_value z []) with z in Hv.
  destruct (dec_digits 20 z []) as [|c l] eqn:E; [simpl in Hlen; lia|].
  rewrite digit_not_plus by (by inversion Hd).
  rewrite parse_digits_value; [by rewrite Hv|lia|done|rewrite Hv; int_lia].
Qed.

Lemma u64_to_string_inj a b :
  is_u64 a → is_u64 b → u64_to_string a = u64_to_string b → a = b.
Proof.
  intros Ha Hb E. apply (f_equal parse_u64) in E.
  rewrite !parse_u64_to_string in E by done. congruence.
Qed.
