(* ===== verification/HashMaps.v ===== *)
(** * [HashMap] iteration and bounded tables

    A Rust [HashMap] is a finite map with an unspecified iteration order.
    The order is a class parameter, so every theorem downstream holds
    whatever order the hasher produces.  The bounded tables of the program
    (handoff owners, remembered scans, process publications) share one
    discipline: purge dead entries when full, insert, then evict arbitrary
    entries while over the cap. *)

From stdpp Require Import base gmap list fin_maps.
From S2P Require Import Prelude.

(** The order in which [HashMap::iter] visits the entries. *)
Class HashOrder := {
  hm_iter : ∀ {K V : Type} `{Countable K}, gmap K V → list (K * V);
  hm_iter_perm : ∀ {K V : Type} `{Countable K} (m : gmap K V),
    hm_iter m ≡ₚ map_to_list m
}.

(** An order that exists, used by the witnesses. *)
Definition default_order : HashOrder := {|
  hm_iter := λ K V _ _ m, map_to_list m;
  hm_iter_perm := λ K V _ _ m, Permutation_refl (map_to_list m)
|}.

Section HashMaps.
Context `{HashOrder}.
Context {K V : Type} `{Countable K}.
Implicit Types (m : gmap K V).

Lemma hm_iter_elem m k v : (k, v) ∈ hm_iter m ↔ m !! k = Some v.
Proof. by rewrite (hm_iter_perm m), elem_of_map_to_list. Qed.

Lemma hm_iter_keys_NoDup m : NoDup (hm_iter m).*1.
Proof. rewrite (hm_iter_perm m). apply NoDup_fst_map_to_list. Qed.

Lemma hm_iter_length m : length (hm_iter m) = size m.
Proof. rewrite (hm_iter_perm m). apply length_map_to_list. Qed.

Lemma hm_iter_nil m : hm_iter m = [] → m = ∅.
Proof. intros E. apply map_size_empty_inv. by rewrite <-hm_iter_length, E. Qed.

(** [while map.len() > cap { let Some(victim) = map.keys().next() else
    { break }; map.remove(&victim) }].  Fuel: every round removes one
    entry, so [size m] rounds are enough (see [evict_while_size]). *)
Fixpoint evict_loop (fuel cap : nat) (m : gmap K V) : gmap K V :=
  match fuel with
  | 0 => m
  | S fuel =>
      if decide (cap < size m) then
        match hm_iter m with
        | [] => m
        | (victim, _) :: _ => evict_loop fuel cap (delete victim m)
        end
      else m
  end.

Definition evict_while (cap : nat) m : gmap K V := evict_loop (size m) cap m.

Lemma evict_loop_small fuel cap m : size m ≤ cap → evict_loop fuel cap m = m.
Proof. destruct fuel; simpl; [done|]. case_decide; [lia|done]. Qed.

Lemma evict_loop_sub fuel cap m : evict_loop fuel cap m ⊆ m.
Proof.
  revert m; induction fuel as [|fuel IH]; intros m; simpl; [done|].
  case_decide; [|done]. destruct (hm_iter m) as [|[k v] l]; [done|].
  etrans; [apply IH|apply delete_subseteq].
Qed.

Lemma map_size_delete_lt m k : is_Some (m !! k) → size (delete k m) < size m.
Proof.
  intros Hk. rewrite map_size_delete_Some by done.
  assert (size m ≠ 0); [|lia]. intros E. apply map_size_empty_inv in E as ->.
  rewrite lookup_empty in Hk. by destruct Hk.
Qed.

Lemma evict_loop_size fuel cap m :
  size m ≤ fuel → size (evict_loop fuel cap m) = size m `min` cap.
Proof.
  revert m; induction fuel as [|fuel IH]; intros m Hf; simpl; [lia|].
  case_decide; [|lia].
  destruct (hm_iter m) as [|[k v] l] eqn:E.
  { apply hm_iter_nil in E as ->. rewrite map_size_empty in *. lia. }
  assert (m !! k = Some v) as Hk by (apply hm_iter_elem; rewrite E; by left).
  rewrite IH; rewrite (map_size_delete_Some k m ltac:(eauto)); lia.
Qed.

Lemma evict_while_size cap m : size (evict_while cap m) = size m `min` cap.
Proof. by apply evict_loop_size. Qed.

Lemma evict_while_small cap m : size m ≤ cap → evict_while cap m = m.
Proof. apply evict_loop_small. Qed.

Lemma evict_while_sub cap m : evict_while cap m ⊆ m.
Proof. apply evict_loop_sub. Qed.

(** The bounded insert shared by the handoff tables and the process
    publications: [retain] the live entries once full, insert, evict. *)
Definition bounded_insert (cap : nat) (live : V → bool) (k : K) (v : V) m : gmap K V :=
  let m := if decide (cap ≤ size m) then filter (λ kv, live kv.2 = true) m else m in
  evict_while cap (<[k := v]> m).

Lemma bounded_insert_size cap live k v m : size (bounded_insert cap live k v m) ≤ cap.
Proof. unfold bounded_insert. rewrite evict_while_size. lia. Qed.

(** Below the cap nothing is lost: the bounded insert is an insert. *)
Lemma bounded_insert_room cap live k v m :
  size m < cap → bounded_insert cap live k v m = <[k := v]> m.
Proof.
  intros. unfold bounded_insert. rewrite decide_False by lia.
  apply evict_while_small. rewrite map_size_insert. destruct (m !! k); simpl; lia.
Qed.

(** A full table that holds a dead entry still keeps every live one. *)
Lemma bounded_insert_dead cap live k v m j w :
  size m ≤ cap → m !! j = Some w → live w = false →
  bounded_insert cap live k v m = <[k := v]> (if decide (cap ≤ size m)
    then filter (λ kv, live kv.2 = true) m else m).
Proof.
  intros Hc Hj Hw. unfold bounded_insert. apply evict_while_small.
  case_decide.
  - assert (size (filter (λ kv, live kv.2 = true) m) < size m) as Hlt.
    { eapply Nat.le_lt_trans; [|apply (map_size_delete_lt m j); eauto].
      apply map_subseteq_size, map_subseteq_spec. intros i x.
      rewrite map_lookup_filter_Some, lookup_delete_Some.
      intros [Hi Hx]. split; [|done]. intros ->. simplify_eq/=. congruence. }
    rewrite map_size_insert. case_match; simpl; lia.
  - rewrite map_size_insert. case_match; simpl; lia.
Qed.

(** Whatever the order, every surviving entry was there or is the new one. *)
Lemma bounded_insert_lookup cap live k v m j w :
  bounded_insert cap live k v m !! j = Some w →
  (j = k ∧ w = v) ∨ (j ≠ k ∧ m !! j = Some w).
Proof.
  intros Hl. eapply lookup_weaken in Hl; [|apply evict_while_sub].
  destruct (decide (k = j)) as [->|Hne].
  { rewrite lookup_insert_eq in Hl. left. by simplify_eq. }
  rewrite lookup_insert_ne in Hl by done. right. split; [done|].
  case_decide; [|done]. by apply map_lookup_filter_Some in Hl as [? _].
Qed.
End HashMaps.
