(* ===== verification/Json.v ===== *)
(** * JSON values and the serializers

    [serde_json::Value] as the source matches on it, its accessors, and
    the serializers as a class parameter: [serde_json] and [rmp_serde] are
    third-party crates, so what they print is not modelled; the *shape*
    each [#[derive(Serialize)]] type hands to them is. *)

From stdpp Require Import base strings list.
From S2P Require Import Prelude RStr.

Local Open Scope string_scope.
Local Open Scope nat_scope.
Local Open Scope list_scope.

(** [serde_json::Number]: a [u64], a negative [i64], or a finite float
    (its IEEE bits). *)
Inductive Number := PosInt (n : Z) | NegInt (n : Z) | Float (bits : Z).

#[local] Set Warnings "-register-all".

(** [serde_json::Value]; an object keeps its entries in emission order. *)
Inductive Value :=
  | VNull
  | VBool (b : bool)
  | VNumber (n : Number)
  | VString (s : string)
  | VArray (l : list Value)
  | VObject (m : list (string * Value)).

#[export] Instance number_eq_dec : EqDecision Number.
Proof. solve_decision. Defined.

(** Structural equality of values, deciding [Leibniz] equality. *)
Fixpoint value_eqb (v w : Value) {struct v} : bool :=
  match v, w with
  | VNull, VNull => true
  | VBool a, VBool b => Bool.eqb a b
  | VNumber a, VNumber b => bool_decide (a = b)
  | VString a, VString b => String.eqb a b
  | VArray l, VArray k =>
      (fix go l k := match l, k with
         | [], [] => true
         | a :: l, b :: k => value_eqb a b && go l k
         | _, _ => false
         end) l k
  | VObject m, VObject n =>
      (fix go m n := match m, n with
         | [], [] => true
         | (a, x) :: m, (b, y) :: n => String.eqb a b && value_eqb x y && go m n
         | _, _ => false
         end) m n
  | _, _ => false
  end.

(** Induction on values with the hypothesis for every nested element. *)
Lemma value_ind' (P : Value → Prop) :
  P VNull → (∀ b, P (VBool b)) → (∀ n, P (VNumber n)) → (∀ s, P (VString s)) →
  (∀ l, Forall P l → P (VArray l)) →
  (∀ m, Forall (λ kv, P kv.2) m → P (VObject m)) →
  ∀ v, P v.
Proof.
  intros Hn Hb Hnum Hs Ha Ho. fix IH 1. intros [| | | |l|m];
    [exact Hn|apply Hb|apply Hnum|apply Hs| |].
  - apply Ha. induction l as [|v l IHl]; constructor; [apply IH|exact IHl].
  - apply Ho. induction m as [|[k v] m IHm]; constructor; [apply IH|exact IHm].
Qed.

Lemma value_eqb_eq v w : value_eqb v w = true ↔ v = w.
Proof.
  split; [|intros <-].
  - revert w. induction v as [|b0|n0|s0|l IH|m IH] using value_ind';
      intros [|b1|n1|s1|k|n]; simpl; try done.
    + by intros ->%Bool.eqb_prop.
    + by intros ->%bool_decide_eq_true_1.
    + by intros ->%String.eqb_eq.
    + intros E. f_equal. revert k E. induction IH as [|v l Hv _ IHl]; intros [|w k]; try done.
      intros [E1 E2]%andb_true_iff. f_equal; auto.
    + intros E. f_equal. revert n E. induction IH as [|[a x] m Hx _ IHm];
        intros [|[b y] n]; try done.
      intros [[E1 E2]%andb_true_iff E3]%andb_true_iff.
      apply String.eqb_eq in E1 as ->. f_equal; [|by auto]. f_equal. by apply Hx.
  - induction v as [|b0|n0|s0|l IH|m IH] using value_ind'; simpl; try done.
    + by destruct b0.
    + by apply bool_decide_eq_true_2.
    + apply String.eqb_refl.
    + induction IH as [|v l Hv _ IHl]; [done|]. by rewrite Hv, IHl.
    + induction IH as [|[a x] m Hx _ IHm]; [done|]. simpl in Hx.
      by rewrite String.eqb_refl, Hx, IHm.
Qed.

#[export] Instance value_eq_dec : EqDecision Value.
Proof.
  intros v w. destruct (value_eqb v w) eqn:E.
  - left. by apply value_eqb_eq.
  - right. intros H%value_eqb_eq. congruence.
Defined.

(** ** Accessors *)

(** [Map::get]. *)
Fixpoint obj_get (k : string) (m : list (string * Value)) : option Value :=
  match m with
  | [] => None
  | (a, v) :: m => if String.eqb a k then Some v else obj_get k m
  end.

(** [Map::remove] (the removed value is what [obj_get] returns). *)
Definition obj_remove (k : string) (m : list (string * Value)) : list (string * Value) :=
  base.filter (λ kv, kv.1 ≠ k) m.

Definition as_object (v : Value) : option (list (string * Value)) :=
  match v with VObject m => Some m | _ => None end.

(** [Value::get] with a string key. *)
Definition value_get (k : string) (v : Value) : option Value :=
  match v with VObject m => obj_get k m | _ => None end.

Definition as_str (v : Value) : option string :=
  match v with VString s => Some s | _ => None end.

Definition as_bool (v : Value) : option bool :=
  match v with VBool b => Some b | _ => None end.

Definition as_array (v : Value) : option (list Value) :=
  match v with VArray l => Some l | _ => None end.

Definition as_u64 (v : Value) : option Z :=
  match v with VNumber (PosInt n) => Some n | _ => None end.

Definition as_i64 (v : Value) : option Z :=
  match v with
  | VNumber (PosInt n) => if (n <=? I64_MAX)%Z then Some n else None
  | VNumber (NegInt n) => Some n
  | _ => None
  end.

(** ** Emission helpers for derived serializers *)

Definition vnum (z : Z) : Value :=
  VNumber (if (0 <=? z)%Z then PosInt z else NegInt z).

(** A field printed as [null] when absent (no [skip_serializing_none]). *)
Definition opt_value {A} (f : A → Value) (o : option A) : Value :=
  match o with Some a => f a | None => VNull end.

(** A field omitted when absent ([skip_serializing_none]). *)
Definition opt_field {A} (k : string) (f : A → Value) (o : option A) : list (string * Value) :=
  match o with Some a => [(k, f a)] | None => [] end.

(** Keys an object prints, in order. *)
Definition keys_of (v : Value) : list string :=
  match v with VObject m => m.*1 | _ => [] end.

(** ** The serializers *)

Class Serde := {
  (** [serde_json::to_string] / [to_vec] of a serialized shape. *)
  json_to_string : Value → option string;
  (** [serde_json::from_str::<Value>]. *)
  json_from_str : string → option Value;
  (** [rmp_serde::to_vec_named] of a serialized shape. *)
  msgpack_to_vec : Value → option string
}.

(** Documented behaviour the program relies on: the shapes it builds
    (string keys, finite numbers) always encode. *)
Class SerdeTotal `{Serde} := {
  json_to_string_total : ∀ v, is_Some (json_to_string v);
  msgpack_to_vec_total : ∀ v, is_Some (msgpack_to_vec v)
}.

(** ** A concrete serializer for the witnesses

    A compact printer without string escapes, a reader that accepts
    nothing: enough to evaluate the definitions on closed inputs. *)

Definition dquote : string := str_of_codes [34%Z].

Fixpoint demo_print (v : Value) : string :=
  match v with
  | VNull => "null"
  | VBool true => "true"
  | VBool false => "false"
  | VNumber (PosInt n) => u64_to_string n
  | VNumber (NegInt n) => "-" +:+ u64_to_string (- n)
  | VNumber (Float b) => "f" +:+ u64_to_string b
  | VString s => dquote +:+ s +:+ dquote
  | VArray l => "[" +:+ String.concat "," (map demo_print l) +:+ "]"
  | VObject m =>
      "{" +:+ String.concat ","
        (map (λ kv, dquote +:+ kv.1 +:+ dquote +:+ ":" +:+ demo_print kv.2) m) +:+ "}"
  end.

Definition demo_serde : Serde := {|
  json_to_string := λ v, Some (demo_print v);
  json_from_str := λ _, None;
  msgpack_to_vec := λ v, Some ("m" +:+ demo_print v)
|}.

Lemma demo_serde_total : @SerdeTotal demo_serde.
Proof. constructor; intros v; by eexists. Defined.
