(* ===== verification/Ids.v ===== *)
(** * Ids and detection sources (crates/rsrpc-types)

    [AppId] and [SocketId] are transparent wrappers over a string
    (app_id.rs); the one computation is [SocketId::from(u64)], which
    renders a pid into a fixed 20-byte buffer from the right.
    [DetectSource] (detect_source.rs) names the matcher that classified a
    process. *)

From stdpp Require Import base strings list.
From Stdlib Require Import Ascii.
From S2P Require Import Prelude RStr.

Local Open Scope string_scope.
Local Open Scope nat_scope.
Local Open Scope list_scope.

Abbreviation AppId := string (only parsing).
Abbreviation SocketId := string (only parsing).

(** [impl From<&AppId> for SocketId]: the same string. *)
Definition SocketId_from_AppId (id : AppId) : SocketId := id.

(** ** [impl From<u64> for SocketId] *)

Definition DECIMAL_CAP : nat := 20.

(** The [loop]: step the cursor left, store a digit, stop at a zero rest.
    [None] is a panic (cursor underflow or an out-of-bounds store).  Fuel:
    the buffer has 20 cells and each round takes one, so 20 rounds are all
    there can be. *)
Fixpoint render_loop (fuel : nat) (buf : list ascii) (cursor : nat) (rest : Z)
    : option (list ascii * nat) :=
  match fuel with
  | 0 => None
  | S fuel =>
      match cursor with
      | 0 => None
      | S cursor =>
          if decide (cursor < length buf) then
            let buf := <[cursor := digit (rest mod 10)]> buf in
            let rest := (rest / 10)%Z in
            if (rest =? 0)%Z then Some (buf, cursor)
            else render_loop fuel buf cursor rest
          else None
      end
  end.

Definition SocketId_from_u64 (pid : Z) : option SocketId :=
  let buf := replicate DECIMAL_CAP (chr 0) in
  match render_loop DECIMAL_CAP buf (length buf) pid with
  | Some (buf, cursor) => Some (of_chars (drop cursor buf))
  | None => None
  end.

Lemma render_loop_spec fuel buf cursor rest :
  cursor ≤ length buf → fuel ≤ cursor → (0 < fuel)%nat →
  (0 ≤ rest < 10 ^ Z.of_nat fuel)%Z →
  ∃ buf' cursor',
    render_loop fuel buf cursor rest = Some (buf', cursor') ∧
    drop cursor' buf' = dec_digits fuel rest (drop cursor buf).
Proof.
  revert buf cursor rest.
  induction fuel as [|fuel IH]; intros buf cursor rest Hc Hf H0 Hr; [lia|].
  destruct cursor as [|cursor]; [lia|]. simpl.
  rewrite decide_True by lia.
  assert (drop cursor (<[cursor := digit (rest mod 10)]> buf)
          = digit (rest mod 10) :: drop (S cursor) buf) as Hdrop.
  { rewrite (drop_S _ (digit (rest mod 10)) cursor).
    - f_equal. by rewrite drop_insert_lt by lia.
    - apply list_lookup_insert_eq. lia. }
  destruct (Z.eqb_spec (rest / 10) 0) as [Hz|Hz]; [by eexists _, _|].
  destruct fuel as [|fuel].
  { rewrite Z.pow_1_r in Hr. by rewrite Z.div_small in Hz by lia. }
  destruct (IH (<[cursor := digit (rest mod 10)]> buf) cursor (rest / 10)%Z)
    as (buf' & cur' & -> & E).
  - rewrite length_insert. lia.
  - lia.
  - lia.
  - rewrite Nat2Z.inj_succ, Z.pow_succ_r in Hr by lia.
    split; [apply Z.div_pos; lia|apply Z.div_lt_upper_bound; lia].
  - exists buf', cur'. split; [done|]. by rewrite E, Hdrop.
Qed.

Lemma SocketId_from_u64_to_string pid :
  is_u64 pid → SocketId_from_u64 pid = Some (u64_to_string pid).
Proof.
  intros Hp. unfold SocketId_from_u64. cbv zeta. rewrite length_replicate.
  destruct (render_loop_spec DECIMAL_CAP (replicate DECIMAL_CAP (chr 0)) DECIMAL_CAP pid)
    as (buf & cur & -> & E).
  - by rewrite length_replicate.
  - done.
  - unfold DECIMAL_CAP; lia.
  - change (10 ^ Z.of_nat DECIMAL_CAP)%Z with 100000000000000000000%Z. int_lia.
  - by rewrite E, drop_replicate, Nat.sub_diag.
Qed.

(** Rendering a pid into a socket id never panics (the cursor cannot
    leave the 20-byte buffer), gives exactly the decimal [u64::to_string]
    prints, and parsing that socket id back gives the same pid. *)
Theorem socket_id_of_pid_roundtrip pid :
  is_u64 pid →
  SocketId_from_u64 pid = Some (u64_to_string pid) ∧
  (SocketId_from_u64 pid ≫= parse_u64) = Some pid.
Proof.
  intros Hp. rewrite SocketId_from_u64_to_string by done.
  split; [done|]. by apply parse_u64_to_string.
Qed.

Lemma socket_id_of_pid_roundtrip_witness :
  SocketId_from_u64 U64_MAX = Some (u64_to_string U64_MAX) ∧
  (SocketId_from_u64 U64_MAX ≫= parse_u64) = Some U64_MAX.
Proof. apply (socket_id_of_pid_roundtrip U64_MAX). int_lia. Defined.

(** ** [DetectSource] *)

Inductive DetectSource :=
  | Automaton | CwdJoined | ProtonAutomaton | SteamAppId | SteamLibrary
  | ExeStem | Folder.

#[export] Instance detect_source_eq_dec : EqDecision DetectSource.
Proof. solve_decision. Defined.

Definition DetectSource_as_str (s : DetectSource) : string :=
  match s with
  | Automaton => "automaton"
  | CwdJoined => "cwd-joined"
  | ProtonAutomaton => "proton-automaton"
  | SteamAppId => "steam-app-id"
  | SteamLibrary => "steam-library"
  | ExeStem => "exe-stem"
  | Folder => "folder"
  end.

#[export] Instance DetectSource_as_str_inj : Inj (=) (=) DetectSource_as_str.
Proof. by intros [] []. Qed.
