(* ===== verification/Cmd.v ===== *)
(** * Game commands and activities (crates/rsrpc-types/src/cmd.rs)

    The command a game sends, its activity, and [ActivityCmd::fix], which
    every transport and the bridge run on a command: timestamps to
    milliseconds, button objects to labels plus urls, the instance flag.
    The shapes the derived serializers print are given as [Value]s. *)

From stdpp Require Import base strings list.
From S2P Require Import Prelude RStr Json Ids.

Local Open Scope string_scope.
Local Open Scope nat_scope.
Local Open Scope list_scope.

(** ** Data *)

(** [TimeoutValue]: a raw [i64]. *)
Definition TimeoutValue := Z.

Record Timestamps := { ts_start : option TimeoutValue; ts_end : option TimeoutValue }.

Record Party := {
  party_id : option string; party_size : option (list Z); party_privacy : option Z
}.

Record Assets := {
  large_image : option string; large_text : option string;
  small_image : option string; small_text : option string;
  large_url : option string; small_url : option string
}.

Record Secrets := {
  secret_join : option string; secret_spectate : option string;
  match_secret : option string
}.

Record Emoji := {
  emoji_name : option string; emoji_id : option string; emoji_animated : option bool
}.

Record Metadata := {
  button_urls : option (list string); artist_ids : option (list string);
  album_id : option string; context_uri : option string
}.

(** [Metadata::default]. *)
Definition Metadata_default : Metadata := {|
  button_urls := None; artist_ids := None; album_id := None; context_uri := None
|}.

Record Activity := {
  act_id : option string;
  act_name : option string;
  act_buttons : option (list Value);
  act_type : Z;
  act_url : option string;
  act_created_at : option Z;
  act_session_id : option string;
  act_platform : option string;
  act_supported_platforms : option (list string);
  act_timestamps : option Timestamps;
  act_application_id : option AppId;
  act_details : option string;
  act_details_url : option string;
  act_state : option string;
  act_state_url : option string;
  act_sync_id : option string;
  act_instance : option bool;
  act_status_display_type : option Z;
  act_flags : option Z;
  act_emoji : option Emoji;
  act_party : option Party;
  act_assets : option Assets;
  act_secrets : option Secrets;
  act_metadata : option Metadata;
  act_extra : list (string * Value)
}.

Record ActivityCmdArgs := {
  arg_pid : option Z; arg_activity : option Activity;
  arg_code : option string; arg_user_id : option string
}.

Record ActivityCmd := {
  cmd_application_id : option AppId;
  cmd_cmd : string;
  cmd_args : option ActivityCmdArgs;
  cmd_data : option (list (string * Value));
  cmd_evt : option string;
  cmd_nonce : Value
}.

Record ActivityPayload := {
  pl_activity : option Activity; pl_pid : option Z; pl_socket_id : option string
}.

(** ** Field updates *)

(** Replace the five activity fields that [fix] and the bridge assign. *)
Definition act_update (a : Activity) (buttons : option (list Value))
    (timestamps : option Timestamps) (app : option AppId) (flags : option Z)
    (metadata : option Metadata) : Activity := {|
  act_id := act_id a; act_name := act_name a; act_buttons := buttons;
  act_type := act_type a; act_url := act_url a; act_created_at := act_created_at a;
  act_session_id := act_session_id a; act_platform := act_platform a;
  act_supported_platforms := act_supported_platforms a;
  act_timestamps := timestamps; act_application_id := app;
  act_details := act_details a; act_details_url := act_details_url a;
  act_state := act_state a; act_state_url := act_state_url a;
  act_sync_id := act_sync_id a; act_instance := act_instance a;
  act_status_display_type := act_status_display_type a; act_flags := flags;
  act_emoji := act_emoji a; act_party := act_party a; act_assets := act_assets a;
  act_secrets := act_secrets a; act_metadata := metadata; act_extra := act_extra a
|}.

Definition set_buttons (b : option (list Value)) (md : option Metadata) (a : Activity) :=
  act_update a b (act_timestamps a) (act_application_id a) (act_flags a) md.
Definition set_timestamps (t : option Timestamps) (a : Activity) :=
  act_update a (act_buttons a) t (act_application_id a) (act_flags a) (act_metadata a).
Definition set_application_id (i : option AppId) (a : Activity) :=
  act_update a (act_buttons a) (act_timestamps a) i (act_flags a) (act_metadata a).
Definition set_flags (f : option Z) (a : Activity) :=
  act_update a (act_buttons a) (act_timestamps a) (act_application_id a) f (act_metadata a).

Definition args_with_activity (act : option Activity) (a : ActivityCmdArgs) : ActivityCmdArgs :=
  {| arg_pid := arg_pid a; arg_activity := act; arg_code := arg_code a;
     arg_user_id := arg_user_id a |}.

Definition cmd_with_args (args : option ActivityCmdArgs) (c : ActivityCmd) : ActivityCmd := {|
  cmd_application_id := cmd_application_id c; cmd_cmd := cmd_cmd c; cmd_args := args;
  cmd_data := cmd_data c; cmd_evt := cmd_evt c; cmd_nonce := cmd_nonce c
|}.

Definition cmd_with_application_id (i : option AppId) (c : ActivityCmd) : ActivityCmd := {|
  cmd_application_id := i; cmd_cmd := cmd_cmd c; cmd_args := cmd_args c;
  cmd_data := cmd_data c; cmd_evt := cmd_evt c; cmd_nonce := cmd_nonce c
|}.

(** [self.args.as_mut().and_then(|args| args.activity.as_mut())] then a
    change of that activity. *)
Definition map_activity (f : Activity → Activity) (c : ActivityCmd) : ActivityCmd :=
  cmd_with_args
    ((λ args, args_with_activity (f <$> arg_activity args) args) <$> cmd_args c) c.

Definition cmd_activity (c : ActivityCmd) : option Activity :=
  cmd_args c ≫= arg_activity.

(** The pid a command is about ([args.pid.unwrap_or_default()]). *)
Definition cmd_pid (cmd : ActivityCmd) : Z := default 0%Z (cmd_args cmd ≫= arg_pid).

Lemma map_activity_fields f cmd :
  cmd_cmd (map_activity f cmd) = cmd_cmd cmd ∧
  cmd_application_id (map_activity f cmd) = cmd_application_id cmd ∧
  cmd_nonce (map_activity f cmd) = cmd_nonce cmd ∧
  cmd_pid (map_activity f cmd) = cmd_pid cmd ∧
  is_some (cmd_args (map_activity f cmd)) = is_some (cmd_args cmd).
Proof.
  unfold map_activity, cmd_pid, cmd_with_args; simpl.
  by destruct (cmd_args cmd) as [[]|].
Qed.

Lemma map_activity_activity f cmd :
  cmd_activity (map_activity f cmd) = f <$> cmd_activity cmd.
Proof.
  unfold map_activity, cmd_activity; simpl. by destruct (cmd_args cmd) as [[]|].
Qed.

(** [ActivityCmd::empty]. *)
Definition ActivityCmd_empty : ActivityCmd := {|
  cmd_application_id := None; cmd_cmd := ""; cmd_args := None; cmd_data := None;
  cmd_evt := None; cmd_nonce := VString ""
|}.

(** ** [normalize_timestamp] *)

Definition MICROS_THRESHOLD : Z := 100000000000000.
Definition NANOS_THRESHOLD : Z := 100000000000000000.

Definition normalize_timestamp (value millis_threshold : Z) : Z :=
  if (NANOS_THRESHOLD <=? value)%Z then Z.quot value 1000000
  else if (MICROS_THRESHOLD <=? value)%Z then Z.quot value 1000
  else if (millis_threshold <? value)%Z then value
  else sat_i64 (value * 1000).

(** ** [fix] *)

(** The threshold [fix_timestamps] computes from the clock's epoch
    seconds: a century from now. *)
Definition millis_threshold (now_secs : Z) : Z :=
  wrap_i64 (wrap_i64 now_secs + 100 * 365 * 24 * 3600).

Definition fix_timestamps_act (now_secs : Z) (a : Activity) : Activity :=
  match act_timestamps a with
  | None => a
  | Some ts =>
      let cur := millis_threshold now_secs in
      set_timestamps (Some {|
        ts_start := (λ v, normalize_timestamp v cur) <$> ts_start ts;
        ts_end := (λ v, normalize_timestamp v cur) <$> ts_end ts
      |}) a
  end.

(** One round of the button loop: the labels and the urls so far. *)
Definition button_step (acc : list Value * list string) (b : Value)
    : list Value * list string :=
  let '(labels, urls) := acc in
  match b with
  | VString _ => (labels ++ [b], urls)
  | VObject m =>
      let labels := match obj_get "label" m with
                    | Some label => labels ++ [label]
                    | None => labels
                    end in
      let m := obj_remove "label" m in
      let urls := match obj_get "url" m ≫= as_str with
                  | Some url => urls ++ [url]
                  | None => urls
                  end in
      (labels, urls)
  | other => (labels ++ [other], urls)
  end.

Definition fix_buttons_act (a : Activity) : Activity :=
  match act_buttons a with
  | None => a
  | Some buttons =>
      let '(labels, urls) := foldl button_step ([], []) buttons in
      let metadata :=
        match urls with
        | [] => act_metadata a
        | _ =>
            let md := default Metadata_default (act_metadata a) in
            Some {| button_urls := Some urls; artist_ids := artist_ids md;
                    album_id := album_id md; context_uri := context_uri md |}
        end in
      set_buttons (Some labels) metadata a
  end.

Definition fix_flags_act (a : Activity) : Activity :=
  if default false (act_instance a) && negb (is_some (act_flags a))
  then set_flags (Some 1%Z) a else a.

Definition fix_activity (now_secs : Z) (a : Activity) : Activity :=
  fix_flags_act (fix_buttons_act (fix_timestamps_act now_secs a)).

(** [ActivityCmd::fix]. *)
Definition fix_cmd (now_secs : Z) (c : ActivityCmd) : ActivityCmd :=
  map_activity (fix_activity now_secs) c.

(** [Activity::display_name]: the first non-blank of name, details, state. *)
Definition display_name (a : Activity) : string :=
  let texts := omap id [act_name a; act_details a; act_state a] in
  match find_first (λ t, negb (str_empty t)) (map trim texts) with
  | Some t => t
  | None => "?"
  end.

(** ** Serialized shapes

    [#[skip_serializing_none]] structs omit absent fields; field order is
    declaration order; [extra] is flattened last. *)

Definition vstrs (l : list string) : Value := VArray (map VString l).

Definition emoji_value (e : Emoji) : Value := VObject
  (opt_field "name" VString (emoji_name e) ++ opt_field "id" VString (emoji_id e)
   ++ opt_field "animated" VBool (emoji_animated e)).

Definition party_value (p : Party) : Value := VObject
  (opt_field "id" VString (party_id p)
   ++ opt_field "size" (λ l, VArray (map vnum l)) (party_size p)
   ++ opt_field "privacy" vnum (party_privacy p)).

Definition assets_value (a : Assets) : Value := VObject
  (opt_field "large_image" VString (large_image a)
   ++ opt_field "large_text" VString (large_text a)
   ++ opt_field "small_image" VString (small_image a)
   ++ opt_field "small_text" VString (small_text a)
   ++ opt_field "large_url" VString (large_url a)
   ++ opt_field "small_url" VString (small_url a)).

Definition secrets_value (s : Secrets) : Value := VObject
  (opt_field "join" VString (secret_join s)
   ++ opt_field "spectate" VString (secret_spectate s)
   ++ opt_field "match" VString (match_secret s)).

Definition metadata_value (m : Metadata) : Value := VObject
  (opt_field "button_urls" vstrs (button_urls m)
   ++ opt_field "artist_ids" vstrs (artist_ids m)
   ++ opt_field "album_id" VString (album_id m)
   ++ opt_field "context_uri" VString (context_uri m)).

Definition timestamps_value (t : Timestamps) : Value := VObject
  (opt_field "start" vnum (ts_start t) ++ opt_field "end" vnum (ts_end t)).

(** The declared fields of [Activity]. *)
Definition activity_fields (a : Activity) : list (string * Value) :=
  opt_field "id" VString (act_id a)
  ++ opt_field "name" VString (act_name a)
  ++ opt_field "buttons" VArray (act_buttons a)
  ++ [("type", vnum (act_type a))]
  ++ opt_field "url" VString (act_url a)
  ++ opt_field "created_at" vnum (act_created_at a)
  ++ opt_field "session_id" VString (act_session_id a)
  ++ opt_field "platform" VString (act_platform a)
  ++ opt_field "supported_platforms" vstrs (act_supported_platforms a)
  ++ opt_field "timestamps" timestamps_value (act_timestamps a)
  ++ opt_field "application_id" VString (act_application_id a)
  ++ opt_field "details" VString (act_details a)
  ++ opt_field "details_url" VString (act_details_url a)
  ++ opt_field "state" VString (act_state a)
  ++ opt_field "state_url" VString (act_state_url a)
  ++ opt_field "sync_id" VString (act_sync_id a)
  ++ opt_field "instance" VBool (act_instance a)
  ++ opt_field "status_display_type" vnum (act_status_display_type a)
  ++ opt_field "flags" vnum (act_flags a)
  ++ opt_field "emoji" emoji_value (act_emoji a)
  ++ opt_field "party" party_value (act_party a)
  ++ opt_field "assets" assets_value (act_assets a)
  ++ opt_field "secrets" secrets_value (act_secrets a)
  ++ opt_field "metadata" metadata_value (act_metadata a).

Definition activity_entries (a : Activity) : list (string * Value) :=
  activity_fields a ++ act_extra a.

Definition activity_value (a : Activity) : Value := VObject (activity_entries a).

Definition args_value (a : ActivityCmdArgs) : Value := VObject
  (opt_field "pid" vnum (arg_pid a)
   ++ opt_field "activity" activity_value (arg_activity a)
   ++ opt_field "code" VString (arg_code a)
   ++ opt_field "user_id" VString (arg_user_id a)).

Definition cmd_value (c : ActivityCmd) : Value := VObject
  (opt_field "application_id" VString (cmd_application_id c)
   ++ [("cmd", VString (cmd_cmd c))]
   ++ opt_field "args" args_value (cmd_args c)
   ++ opt_field "data" VObject (cmd_data c)
   ++ opt_field "evt" VString (cmd_evt c)
   ++ [("nonce", cmd_nonce c)]).

(** [ActivityPayload] has no skip attribute: absent fields print [null]. *)
Definition payload_value (p : ActivityPayload) : Value := VObject
  [("activity", opt_value activity_value (pl_activity p));
   ("pid", opt_value vnum (pl_pid p));
   ("socketId", opt_value VString (pl_socket_id p))].

(** ** Properties of [normalize_timestamp] *)

Lemma millis_threshold_value now :
  (0 ≤ now ≤ 1000000000000)%Z → millis_threshold now = (now + 3153600000)%Z.
Proof.
  intros. unfold millis_threshold. rewrite (wrap_i64_id now) by int_lia.
  rewrite wrap_i64_id; int_lia.
Qed.

Ltac case_thresholds :=
  repeat match goal with
  | |- context [(?a <=? ?b)%Z] => destruct (Z.leb_spec a b)
  | |- context [(?a <? ?b)%Z] => destruct (Z.ltb_spec a b)
  end.

(** What the second run does to the result of the first. *)
Lemma normalize_timestamp_twice v t :
  is_i64 v → (0 ≤ t < 100000000000)%Z →
  (v = 0 ∨ t < 1000 * v ∨ 1000 * v ≤ I64_MIN)%Z →
  normalize_timestamp (normalize_timestamp v t) t = normalize_timestamp v t.
Proof.
  intros Hv Ht Hc. unfold normalize_timestamp at 2 3.
  destruct (Z.leb_spec NANOS_THRESHOLD v); [|destruct (Z.leb_spec MICROS_THRESHOLD v);
    [|destruct (Z.ltb_spec t v)]];
    unfold NANOS_THRESHOLD, MICROS_THRESHOLD in *.
  1: assert (100000000000 ≤ Z.quot v 1000000 < 100000000000000)%Z
       by (rewrite Z.quot_div_nonneg by lia; split;
           [apply Z.div_le_lower_bound|apply Z.div_lt_upper_bound]; int_lia).
  2: assert (100000000000 ≤ Z.quot v 1000 < 100000000000000)%Z
       by (rewrite Z.quot_div_nonneg by lia; split;
           [apply Z.div_le_lower_bound|apply Z.div_lt_upper_bound]; int_lia).
  all: unfold normalize_timestamp, NANOS_THRESHOLD, MICROS_THRESHOLD;
    case_thresholds; int_lia.
Qed.

(** The precision sniffing is unit-independent: an instant between 1973
    and 2099 gives the same milliseconds whether the game sent seconds,
    milliseconds, microseconds or nanoseconds. *)
Theorem normalize_timestamp_units s now :
  (0 ≤ now ≤ 90000000000)%Z →
  (100000000 ≤ s ≤ 4100000000)%Z → (s ≤ now + 3153600000 < 1000 * s)%Z →
  let t := millis_threshold now in
  normalize_timestamp s t = (s * 1000)%Z ∧
  normalize_timestamp (s * 1000) t = (s * 1000)%Z ∧
  normalize_timestamp (s * 1000000) t = (s * 1000)%Z ∧
  normalize_timestamp (s * 1000000000) t = (s * 1000)%Z.
Proof.
  intros Hn Hs Hb. cbv zeta. rewrite millis_threshold_value by lia.
  assert (Z.quot (s * 1000000000) 1000000 = s * 1000)%Z as Q1
    by (replace (s * 1000000000)%Z with (s * 1000 * 1000000)%Z by lia; apply Z.quot_mul; lia).
  assert (Z.quot (s * 1000000) 1000 = s * 1000)%Z as Q2
    by (replace (s * 1000000)%Z with (s * 1000 * 1000)%Z by lia; apply Z.quot_mul; lia).
  unfold normalize_timestamp, NANOS_THRESHOLD, MICROS_THRESHOLD.
  split_and!; case_thresholds; int_lia.
Qed.

Lemma normalize_timestamp_units_witness :
  normalize_timestamp 1700000000 (millis_threshold 1750000000) = 1700000000000%Z ∧
  normalize_timestamp (1700000000 * 1000) (millis_threshold 1750000000) = 1700000000000%Z ∧
  normalize_timestamp (1700000000 * 1000000) (millis_threshold 1750000000) = 1700000000000%Z ∧
  normalize_timestamp (1700000000 * 1000000000) (millis_threshold 1750000000)
    = 1700000000000%Z.
Proof. apply (normalize_timestamp_units 1700000000 1750000000); lia. Defined.

(** Running the normalization twice is the same as once exactly for
    zero, for values above a thousandth of the threshold, and for values
    that saturate: a small relative timestamp is multiplied again by every
    further run. *)
Theorem normalize_timestamp_idempotent_iff v now :
  is_i64 v → (0 ≤ now ≤ 90000000000)%Z →
  let t := millis_threshold now in
  normalize_timestamp (normalize_timestamp v t) t = normalize_timestamp v t ↔
  (v = 0 ∨ now + 3153600000 < 1000 * v ∨ 1000 * v ≤ I64_MIN)%Z.
Proof.
  intros Hv Hn. cbv zeta. rewrite millis_threshold_value by lia. split.
  - intros E. destruct (decide (v = 0 ∨ now + 3153600000 < 1000 * v ∨ 1000 * v ≤ I64_MIN)%Z)
      as [|Hneg]; [done|exfalso].
    revert E. unfold normalize_timestamp at 2 3.
    destruct (Z.leb_spec NANOS_THRESHOLD v); [|destruct (Z.leb_spec MICROS_THRESHOLD v);
      [|destruct (Z.ltb_spec (now + 3153600000) v)]];
      unfold NANOS_THRESHOLD, MICROS_THRESHOLD in *; try lia.
    unfold normalize_timestamp, NANOS_THRESHOLD, MICROS_THRESHOLD.
    case_thresholds; int_lia.
  - intros. apply normalize_timestamp_twice; [done|lia|lia].
Qed.

Lemma normalize_timestamp_idempotent_iff_witness :
  normalize_timestamp (normalize_timestamp 1700000000 (millis_threshold 1750000000))
    (millis_threshold 1750000000)
  = normalize_timestamp 1700000000 (millis_threshold 1750000000).
Proof.
  apply (normalize_timestamp_idempotent_iff 1700000000 1750000000); int_lia.
Defined.

(** ** Properties of [fix] *)

(** What a button contributes: its label, and its url. *)
Definition button_label (b : Value) : option Value :=
  match b with VObject m => obj_get "label" m | other => Some other end.
Definition button_url (b : Value) : option string :=
  match b with VObject m => obj_get "url" m ≫= as_str | _ => None end.

Lemma obj_get_remove_ne k k' m : k ≠ k' → obj_get k' (obj_remove k m) = obj_get k' m.
Proof.
  intros Hne. unfold obj_remove. induction m as [|[a v] m IH]; [done|].
  rewrite filter_cons; simpl. case_decide as Ha; simpl.
  - by rewrite IH.
  - destruct (String.eqb_spec a k'); [congruence|done].
Qed.

Lemma button_step_app acc b :
  button_step acc b
  = (acc.1 ++ option_list (button_label b), acc.2 ++ option_list (button_url b)).
Proof.
  destruct acc as [ls us], b as [| | | | |m]; simpl; rewrite ?app_nil_r; try done.
  rewrite obj_get_remove_ne by done.
  destruct (obj_get "label" m), (obj_get "url" m ≫= as_str); simpl;
    by rewrite ?app_nil_r.
Qed.

Lemma button_loop_omap bs ls us :
  foldl button_step (ls, us) bs = (ls ++ omap button_label bs, us ++ omap button_url bs).
Proof.
  revert ls us; induction bs as [|b bs IH]; intros ls us; [by rewrite !app_nil_r|].
  change (foldl button_step (ls, us) (b :: bs))
    with (foldl button_step (button_step (ls, us) b) bs).
  rewrite button_step_app, IH. simpl.
  destruct (button_label b), (button_url b); simpl; rewrite ?app_nil_r, <- ?app_assoc; done.
Qed.

(** The button pass in closed form. *)
Lemma fix_buttons_act_eq a bs :
  act_buttons a = Some bs →
  fix_buttons_act a = set_buttons (Some (omap button_label bs))
    (match omap button_url bs with
     | [] => act_metadata a
     | urls => let md := default Metadata_default (act_metadata a) in
               Some {| button_urls := Some urls; artist_ids := artist_ids md;
                       album_id := album_id md; context_uri := context_uri md |}
     end) a.
Proof.
  intros E. unfold fix_buttons_act. rewrite E, button_loop_omap. by destruct (omap button_url bs).
Qed.

(** The button pass keeps every plain label, replaces each button
    object by its label and collects the string urls, both in order; the
    metadata changes only when there is a url, and then only in
    [button_urls]. *)
Theorem fix_buttons_spec a bs :
  act_buttons a = Some bs →
  let a' := fix_buttons_act a in
  act_buttons a' = Some (omap button_label bs) ∧
  (omap button_url bs = [] → act_metadata a' = act_metadata a) ∧
  (omap button_url bs ≠ [] → ∃ md, act_metadata a' = Some md ∧
     button_urls md = Some (omap button_url bs) ∧
     artist_ids md = (act_metadata a ≫= artist_ids) ∧
     album_id md = (act_metadata a ≫= album_id) ∧
     context_uri md = (act_metadata a ≫= context_uri)) ∧
  set_buttons None None a' = set_buttons None None a.
Proof.
  intros E. cbv zeta. rewrite (fix_buttons_act_eq a bs E).
  split_and!; [done|by intros ->| |done].
  intros Hne. destruct (omap button_url bs) as [|u us]; [done|].
  eexists. split; [done|]. by destruct (act_metadata a).
Qed.

Definition demo_activity : Activity := {|
  act_id := None; act_name := Some "Game";
  act_buttons := Some [VString "plain"; VObject [("label", VString "go"); ("url", VString "https://x")]];
  act_type := 0; act_url := None; act_created_at := None; act_session_id := None;
  act_platform := None; act_supported_platforms := None;
  act_timestamps := Some {| ts_start := Some 1700000000%Z; ts_end := None |};
  act_application_id := None; act_details := None; act_details_url := None;
  act_state := None; act_state_url := None; act_sync_id := None;
  act_instance := Some true; act_status_display_type := None; act_flags := None;
  act_emoji := None; act_party := None; act_assets := None; act_secrets := None;
  act_metadata := None; act_extra := [("new_key", VNull)]
|}.

Lemma fix_buttons_spec_witness :
  act_buttons (fix_buttons_act demo_activity) = Some [VString "plain"; VString "go"].
Proof.
  destruct (fix_buttons_spec demo_activity
    [VString "plain"; VObject [("label", VString "go"); ("url", VString "https://x")]])
    as [E _]; [reflexivity|]. exact E.
Defined.

(** A timestamp a second normalization leaves alone. *)
Definition stable_ts (now : Z) (o : option TimeoutValue) : Prop :=
  ∀ v, o = Some v → is_i64 v ∧
    (v = 0 ∨ now + 3153600000 < 1000 * v ∨ 1000 * v ≤ I64_MIN)%Z.

(** A button whose label is not itself a button object. *)
Definition flat_button (b : Value) : Prop :=
  ∀ v, button_label b = Some v → ∀ m, v ≠ VObject m.

Lemma flat_labels_stable bs :
  Forall flat_button bs →
  omap button_label (omap button_label bs) = omap button_label bs ∧
  omap button_url (omap button_label bs) = [].
Proof.
  induction 1 as [|b bs Hb _ [IH1 IH2]]; [done|]. csimpl.
  destruct (button_label b) as [v|] eqn:E; [|done]. csimpl.
  specialize (Hb v E).
  destruct v as [| | | | |m]; [..|by destruct (Hb m)]; csimpl; rewrite IH1; auto.
Qed.

Lemma fix_timestamps_stable now a :
  (0 ≤ now ≤ 90000000000)%Z →
  (∀ ts, act_timestamps a = Some ts → stable_ts now (ts_start ts) ∧ stable_ts now (ts_end ts)) →
  act_timestamps (fix_timestamps_act now (fix_timestamps_act now a))
  = act_timestamps (fix_timestamps_act now a).
Proof.
  intros Hn Hs. unfold fix_timestamps_act at 2 3.
  destruct (act_timestamps a) as [ts|] eqn:E; [|by unfold fix_timestamps_act; rewrite E].
  destruct (Hs ts eq_refl) as [H1 H2]. unfold fix_timestamps_act; simpl.
  assert (∀ o, stable_ts now o →
    (λ v, normalize_timestamp v (millis_threshold now)) <$>
      ((λ v, normalize_timestamp v (millis_threshold now)) <$> o)
    = (λ v, normalize_timestamp v (millis_threshold now)) <$> o) as Hfix.
  { intros [v|] Ho; [|done]. simpl. f_equal. destruct (Ho v eq_refl).
    rewrite millis_threshold_value by lia. apply normalize_timestamp_twice; [done|lia|lia]. }
  by rewrite !Hfix by done.
Qed.

(** The three passes touch disjoint fields. *)
Lemma fix_activity_fields now a :
  act_timestamps (fix_activity now a) = act_timestamps (fix_timestamps_act now a) ∧
  act_buttons (fix_activity now a) = act_buttons (fix_buttons_act a) ∧
  act_metadata (fix_activity now a) = act_metadata (fix_buttons_act a) ∧
  act_flags (fix_activity now a) = act_flags (fix_flags_act a) ∧
  act_instance (fix_activity now a) = act_instance a ∧
  act_application_id (fix_activity now a) = act_application_id a.
Proof.
  unfold fix_activity, fix_timestamps_act, fix_flags_act, fix_buttons_act.
  destruct (act_timestamps a) eqn:?, (act_buttons a) eqn:?, (act_instance a) as [[]|] eqn:?,
    (act_flags a) eqn:?; simpl;
    repeat (match goal with H : _ = _ |- _ => rewrite H end; simpl); rewrite ?button_loop_omap;
    simpl; repeat (match goal with H : _ = _ |- _ => rewrite H end; simpl); done.
Qed.

Lemma activity_ext a b :
  act_update a None None None None None = act_update b None None None None None →
  act_buttons a = act_buttons b → act_timestamps a = act_timestamps b →
  act_application_id a = act_application_id b → act_flags a = act_flags b →
  act_metadata a = act_metadata b → a = b.
Proof. destruct a, b; simpl; intros E; injection E as E; intros; by subst. Qed.

Lemma fix_activity_rest now a :
  act_update (fix_activity now a) None None None None None
  = act_update a None None None None None.
Proof.
  unfold fix_activity, fix_timestamps_act, fix_flags_act, fix_buttons_act.
  repeat (case_match; simplify_eq/=); done.
Qed.

(** Stamping the application id commutes with [fix]. *)
Lemma fix_activity_app_id now i a :
  fix_activity now (set_application_id i a) = set_application_id i (fix_activity now a).
Proof.
  assert (∀ b, fix_timestamps_act now (set_application_id i b)
    = set_application_id i (fix_timestamps_act now b)) as H1
    by (intros b; unfold fix_timestamps_act; simpl; by destruct (act_timestamps b)).
  assert (∀ b, fix_buttons_act (set_application_id i b)
    = set_application_id i (fix_buttons_act b)) as H2.
  { intros b. unfold fix_buttons_act. simpl. destruct (act_buttons b) as [bs|]; [|done].
    by destruct (foldl button_step ([], []) bs). }
  unfold fix_activity. rewrite H1, H2. generalize (fix_buttons_act (fix_timestamps_act now a)).
  intros b. unfold fix_flags_act. simpl.
  by destruct (default false (act_instance b) && negb (is_some (act_flags b))).
Qed.

(** Each pass as a function of the fields it reads. *)
Lemma fix_timestamps_dep now a b :
  act_timestamps a = act_timestamps b →
  act_timestamps (fix_timestamps_act now a) = act_timestamps (fix_timestamps_act now b).
Proof.
  unfold fix_timestamps_act. intros E. rewrite E.
  destruct (act_timestamps b) eqn:Eb; [done|congruence].
Qed.

Lemma fix_flags_idem a b :
  act_flags b = act_flags (fix_flags_act a) → act_instance b = act_instance a →
  act_flags (fix_flags_act b) = act_flags (fix_flags_act a).
Proof.
  unfold fix_flags_act. intros E1 E2. rewrite E2.
  destruct (act_instance a) as [[]|]; simpl in *; [|congruence|congruence].
  destruct (act_flags a) eqn:Ef; simpl in *; rewrite E1, ?Ef; simpl; congruence.
Qed.

Lemma fix_buttons_idem a b :
  (∀ bs, act_buttons a = Some bs → Forall flat_button bs) →
  act_buttons b = act_buttons (fix_buttons_act a) →
  act_metadata b = act_metadata (fix_buttons_act a) →
  act_buttons (fix_buttons_act b) = act_buttons (fix_buttons_act a) ∧
  act_metadata (fix_buttons_act b) = act_metadata (fix_buttons_act a).
Proof.
  intros Hf E1 E2. destruct (act_buttons a) as [bs|] eqn:Eb.
  - destruct (flat_labels_stable bs (Hf bs eq_refl)) as [S1 S2].
    rewrite (fix_buttons_act_eq a bs Eb) in *. simpl in *.
    rewrite (fix_buttons_act_eq b _ E1), S1, S2. simpl. by rewrite E2.
  - assert (∀ c, act_buttons c = None → fix_buttons_act c = c) as Hid
      by (intros c Hc; unfold fix_buttons_act; by rewrite Hc).
    rewrite (Hid a Eb) in *. rewrite (Hid b) by congruence. done.
Qed.

(** [fix] is idempotent on every activity whose timestamps the
    normalization recognises and whose button labels are not objects: the
    runs at the transport, at the fingerprint and at the payload build
    agree. *)
Theorem fix_activity_idempotent now a :
  (0 ≤ now ≤ 90000000000)%Z →
  (∀ ts, act_timestamps a = Some ts → stable_ts now (ts_start ts) ∧ stable_ts now (ts_end ts)) →
  (∀ bs, act_buttons a = Some bs → Forall flat_button bs) →
  fix_activity now (fix_activity now a) = fix_activity now a.
Proof.
  intros Hn Hts Hbs.
  destruct (fix_activity_fields now a) as (T1 & B1 & M1 & F1 & I1 & A1).
  destruct (fix_activity_fields now (fix_activity now a)) as (T2 & B2 & M2 & F2 & I2 & A2).
  destruct (fix_buttons_idem a (fix_activity now a) Hbs B1 M1) as [B M].
  apply activity_ext.
  - by rewrite fix_activity_rest.
  - congruence.
  - rewrite T2, T1. rewrite (fix_timestamps_dep now _ (fix_timestamps_act now a)) by done.
    by apply fix_timestamps_stable.
  - congruence.
  - rewrite F2, F1. by apply fix_flags_idem.
  - congruence.
Qed.

Lemma fix_activity_idempotent_witness :
  fix_activity 1750000000 (fix_activity 1750000000 demo_activity)
  = fix_activity 1750000000 demo_activity.
Proof.
  apply fix_activity_idempotent; [lia| |].
  - intros ts [= <-]; split; [intros v [= <-]; int_lia|intros v [=]].
  - intros bs [= <-]. repeat constructor; intros v [= <-] m; discriminate.
Defined.

(** A small timestamp is not stable under repeated [fix]: every
    positive start below a thousandth of the threshold is multiplied by
    1000 once per run, so three runs (transport, fingerprint, payload
    build) publish it a million times too late. *)
Theorem fix_activity_drifts now a v :
  (0 ≤ now ≤ 90000000000)%Z →
  (0 < v)%Z → (1000000 * v ≤ now + 3153600000)%Z →
  act_timestamps a = Some {| ts_start := Some v; ts_end := None |} →
  act_timestamps (fix_activity now (fix_activity now (fix_activity now a)))
  = Some {| ts_start := Some (1000000000 * v)%Z; ts_end := None |} ∧
  fix_activity now (fix_activity now a) ≠ fix_activity now a.
Proof.
  intros Hn Hv Hb E.
  assert (∀ b w, (0 < w)%Z → (w ≤ now + 3153600000)%Z →
    act_timestamps b = Some {| ts_start := Some w; ts_end := None |} →
    act_timestamps (fix_activity now b)
    = Some {| ts_start := Some (1000 * w)%Z; ts_end := None |}) as Hstep.
  { intros b w Hw Hw' Eb. destruct (fix_activity_fields now b) as [-> _].
    unfold fix_timestamps_act. rewrite Eb. simpl.
    rewrite millis_threshold_value by lia.
    unfold normalize_timestamp, NANOS_THRESHOLD, MICROS_THRESHOLD.
    case_thresholds; try lia. do 3 f_equal. int_lia. }
  pose proof (Hstep _ v Hv ltac:(lia) E) as E1.
  pose proof (Hstep _ (1000 * v)%Z ltac:(lia) ltac:(lia) E1) as E2.
  pose proof (Hstep _ (1000 * (1000 * v))%Z ltac:(lia) ltac:(lia) E2) as E3.
  split; [rewrite E3; do 3 f_equal; lia|].
  intros Heq. rewrite Heq in E2. rewrite E1 in E2. injection E2. lia.
Qed.

Lemma fix_activity_drifts_witness :
  act_timestamps (fix_activity 1750000000 (fix_activity 1750000000
    (fix_activity 1750000000 (set_timestamps (Some {| ts_start := Some 100%Z; ts_end := None |})
      demo_activity))))
  = Some {| ts_start := Some 100000000000%Z; ts_end := None |}.
Proof.
  apply (fix_activity_drifts 1750000000 (set_timestamps
    (Some {| ts_start := Some 100%Z; ts_end := None |}) demo_activity) 100); [lia..|reflexivity].
Defined.

(** The log label of an activity is never blank: the first of name,
    details and state with text in it, trimmed, or a question mark. *)
Theorem display_name_not_blank a :
  display_name a ≠ "" ∧
  (display_name a = "?" ∨
   ∃ t, t ∈ omap id [act_name a; act_details a; act_state a] ∧ display_name a = trim t).
Proof.
  unfold display_name, find_first.
  destruct (find_map _ _) as [t|] eqn:E; [|split; [done|by left]].
  apply find_map_Some in E as (t' & Hin & E). destruct (str_empty t') eqn:Ht; [done|].
  simplify_eq/=. apply list_elem_of_fmap in Hin as (x & -> & Hx).
  split; [intros E0; by rewrite E0 in Ht|right; eauto].
Qed.
