(* ===== verification/User.v ===== *)
(** * The presented identity (crates/rsrpc-types/src/user.rs)

    [RpcUser], its defaults and environment overrides, the [SET_USER]
    patch a bridge client may send, and the READY frame. *)

From stdpp Require Import base gmap strings list.
From S2P Require Import Prelude RStr Json.

Local Open Scope string_scope.
Local Open Scope nat_scope.
Local Open Scope list_scope.

Record RpcUser := {
  user_id : string;
  user_username : string;
  user_discriminator : string;
  user_global_name : option string;
  user_avatar : option string;
  user_avatar_decoration_data : option Value;
  user_bot : bool;
  user_flags : Z;
  user_premium_type : Z
}.

#[export] Instance rpc_user_eq_dec : EqDecision RpcUser.
Proof. solve_decision. Defined.

Definition RpcUser_default : RpcUser := {|
  user_id := "1045800378228281345"; user_username := "arRPC";
  user_discriminator := "0000"; user_global_name := Some "arRPC";
  user_avatar := Some "cfefa4d9839fb4bdf030f91c2a13e95c";
  user_avatar_decoration_data := None; user_bot := false;
  user_flags := 0; user_premium_type := 0
|}.

(** [non_blank]: the trimmed text, unless blank. *)
Definition non_blank (value : option string) : option string :=
  match trim <$> value with
  | Some t => if str_empty t then None else Some t
  | None => None
  end.

(** [apply_env_map]. *)
Definition apply_env_map (env : gmap string string) (u : RpcUser) : RpcUser := {|
  user_id := default (user_id u) (non_blank (env !! "RSRPC_USER_ID"));
  user_username := default (user_username u) (non_blank (env !! "RSRPC_USER_USERNAME"));
  user_discriminator :=
    default (user_discriminator u) (non_blank (env !! "RSRPC_USER_DISCRIMINATOR"));
  user_global_name :=
    or_else (non_blank (env !! "RSRPC_USER_GLOBAL_NAME")) (user_global_name u);
  user_avatar := or_else (non_blank (env !! "RSRPC_USER_AVATAR")) (user_avatar u);
  user_avatar_decoration_data := user_avatar_decoration_data u;
  user_bot := user_bot u; user_flags := user_flags u;
  user_premium_type := user_premium_type u
|}.

(** [RpcUser::from_env], over the process environment. *)
Definition from_env (env : gmap string string) : RpcUser :=
  apply_env_map env RpcUser_default.

(** The [text] closure of [patch]. *)
Definition patch_text (obj : list (string * Value)) (key : string) : option string :=
  non_blank (obj_get key obj ≫= as_str).

(** [u32::try_from(value).unwrap_or(u32::MAX)]. *)
Definition clamp_u32 (n : Z) : Z := if (n <=? U32_MAX)%Z then n else U32_MAX.

(** [RpcUser::patch]. *)
Definition user_patch (patch : Value) (u : RpcUser) : RpcUser :=
  match as_object patch with
  | None => u
  | Some obj => {|
      user_id := default (user_id u) (patch_text obj "id");
      user_username := default (user_username u) (patch_text obj "username");
      user_discriminator := default (user_discriminator u) (patch_text obj "discriminator");
      user_global_name := or_else (patch_text obj "global_name") (user_global_name u);
      user_avatar :=
        match obj_get "avatar" obj with
        | Some (VString value) => Some value
        | Some VNull => None
        | _ => user_avatar u
        end;
      user_avatar_decoration_data := user_avatar_decoration_data u;
      user_bot := default (user_bot u) (obj_get "bot" obj ≫= as_bool);
      user_flags :=
        match obj_get "flags" obj ≫= as_u64 with
        | Some value => clamp_u32 value
        | None => user_flags u
        end;
      user_premium_type :=
        match obj_get "premium_type" obj ≫= as_u64 with
        | Some value => clamp_u32 value
        | None => user_premium_type u
        end
    |}
  end.

(** The derived serialization: no field is skipped. *)
Definition user_value (u : RpcUser) : Value := VObject
  [("id", VString (user_id u)); ("username", VString (user_username u));
   ("discriminator", VString (user_discriminator u));
   ("global_name", opt_value VString (user_global_name u));
   ("avatar", opt_value VString (user_avatar u));
   ("avatar_decoration_data", opt_value id (user_avatar_decoration_data u));
   ("bot", VBool (user_bot u)); ("flags", vnum (user_flags u));
   ("premium_type", vnum (user_premium_type u))].

(** [serde_json::to_value]: the same entries in a [Map], whose keys are
    sorted. *)
Definition user_to_value (u : RpcUser) : Value := VObject
  [("avatar", opt_value VString (user_avatar u));
   ("avatar_decoration_data", opt_value id (user_avatar_decoration_data u));
   ("bot", VBool (user_bot u)); ("discriminator", VString (user_discriminator u));
   ("flags", vnum (user_flags u)); ("global_name", opt_value VString (user_global_name u));
   ("id", VString (user_id u)); ("premium_type", vnum (user_premium_type u));
   ("username", VString (user_username u))].

(** The [json!] object of [ready_payload] (keys sorted by its [Map]). *)
Definition ready_value (u : RpcUser) : Value := VObject
  [("cmd", VString "DISPATCH");
   ("data", VObject
      [("config", VObject
          [("api_endpoint", VString "//discord.com/api");
           ("cdn_host", VString "cdn.discordapp.com");
           ("environment", VString "production")]);
       ("user", user_to_value u); ("v", vnum 1)]);
   ("evt", VString "READY"); ("nonce", VNull)].

Section Ready.
Context `{Serde}.

(** [ready_payload]; printing a [Value] has no failure path. *)
Definition ready_payload (u : RpcUser) : string :=
  default "" (json_to_string (ready_value u)).
End Ready.

(** ** Properties *)

(** An identity fit for the READY frame: no blank text, [u32] numbers. *)
Record user_wf (u : RpcUser) : Prop := {
  wf_id : user_id u ≠ "";
  wf_username : user_username u ≠ "";
  wf_discriminator : user_discriminator u ≠ "";
  wf_global_name : user_global_name u ≠ Some "";
  wf_flags : is_u32 (user_flags u);
  wf_premium : is_u32 (user_premium_type u)
}.

Lemma non_blank_not_empty o t : non_blank o = Some t → t ≠ "".
Proof.
  unfold non_blank. destruct (trim <$> o) as [x|]; [|done].
  destruct (str_empty x) eqn:E; intros [= <-]; by destruct x.
Qed.

Lemma default_non_blank u o : u ≠ "" → default u (non_blank o) ≠ "".
Proof. destruct (non_blank o) eqn:E; [|done]. intros _. by eapply non_blank_not_empty. Qed.

Lemma or_else_non_blank u o : u ≠ Some "" → or_else (non_blank o) u ≠ Some "".
Proof.
  destruct (non_blank o) eqn:E; [|done]. intros _ [= ->]. by apply non_blank_not_empty in E.
Qed.

Lemma clamp_u32_range n : (0 ≤ n)%Z → is_u32 (clamp_u32 n).
Proof. intros. unfold clamp_u32. destruct (Z.leb_spec n U32_MAX); int_lia. Qed.

Create HintDb user.
#[export] Hint Resolve default_non_blank or_else_non_blank clamp_u32_range : user.

Lemma from_env_wf env : user_wf (from_env env).
Proof. constructor; simpl; try (by auto with user); int_lia. Qed.

(** The numbers of a JSON value fit their Rust type. *)
Definition nums_nonneg (v : Value) : Prop :=
  ∀ k n, value_get k v ≫= as_u64 = Some n → (0 ≤ n)%Z.

(** C39: no [SET_USER] patch, whatever it holds, can blank the identity,
    push a number past [u32::MAX] or smuggle an avatar decoration: the
    startup identity is well formed and every patch keeps it so. *)
Theorem user_patch_preserves_wf env patches :
  Forall nums_nonneg patches →
  let u := foldl (λ u p, user_patch p u) (from_env env) patches in
  user_wf u ∧ user_avatar_decoration_data u = None.
Proof.
  cbv zeta. intros Hp.
  assert (∀ u, user_wf u → user_avatar_decoration_data u = None →
    user_wf (foldl (λ u p, user_patch p u) u patches) ∧
    user_avatar_decoration_data (foldl (λ u p, user_patch p u) u patches) = None) as Hgen.
  { induction Hp as [|p ps Hnn _ IH]; intros u Hu Hd; simpl; [done|].
    apply IH; unfold user_patch; destruct p as [| | | | |m]; try done.
    destruct Hu. constructor; simpl; unfold patch_text; try (by auto with user).
    - specialize (Hnn "flags"). simpl in Hnn.
      destruct (obj_get "flags" m ≫= as_u64); [|done]. auto with user.
    - specialize (Hnn "premium_type"). simpl in Hnn.
      destruct (obj_get "premium_type" m ≫= as_u64); [|done]. auto with user. }
  apply Hgen; [apply from_env_wf|done].
Qed.

Lemma user_patch_preserves_wf_witness :
  user_wf (foldl (λ u p, user_patch p u) (from_env ∅)
    [VObject [("username", VString "  "); ("flags", VNumber (PosInt 99999999999));
              ("avatar_decoration_data", VBool true)]]).
Proof.
  apply (user_patch_preserves_wf ∅). repeat constructor.
  intros k n. cbn -[String.eqb].
  repeat (match goal with |- context [String.eqb ?a k] => destruct (String.eqb a k) end;
    cbn -[String.eqb]; [intros [=]; lia|]).
  intros [=].
Defined.

(** The patch whitelist: a patch that names none of the eight
    whitelisted keys (in particular one that is not an object) changes
    nothing, whatever else it carries. *)
Theorem user_patch_frame u patch :
  (∀ k, k ∈ ["id"; "username"; "discriminator"; "global_name"; "avatar"; "bot"; "flags";
             "premium_type"] → value_get k patch = None) →
  user_patch patch u = u.
Proof.
  intros H. unfold user_patch. destruct patch as [| | | | |m]; try done. simpl in *.
  unfold patch_text.
  repeat match goal with |- context [obj_get ?k m] =>
    rewrite (H k) by (repeat first [left; fail | constructor]) end.
  by destruct u.
Qed.

Lemma user_patch_frame_witness :
  user_patch (VObject [("premium", VNumber (PosInt 2))]) RpcUser_default = RpcUser_default.
Proof.
  apply user_patch_frame. intros k Hk.
  repeat (apply elem_of_cons in Hk as [->|Hk]; [reflexivity|]). by apply not_elem_of_nil in Hk.
Defined.
