(* ===== verification/Protocol.v ===== *)
(** * Payloads, replies and the flood guard (crates/rsrpc-protocol)

    commands.rs: the bridge payload built from a command, the replies the
    transports send, the table of unsupported commands and the
    [RecentActivities] flood guard; query.rs: the query-string lookup. *)

From stdpp Require Import base gmap strings list.
From Stdlib Require Import Ascii Sorting.Sorted.
From S2P Require Import Prelude RStr HashMaps Json Ids Cmd User.

Local Open Scope string_scope.
Local Open Scope nat_scope.
Local Open Scope list_scope.

(** ** Payloads *)

Record ActivityProvenance := {
  prov_source : string;
  prov_latency_ms : option Z
}.

Record CachedActivity := {
  ca_json : string;
  ca_msgpack : string;
  ca_is_clear : bool;
  ca_activity_json : string;
  ca_provenance : option ActivityProvenance;
  ca_pid : Z
}.

(** [ProcessPayload] with its [ProcessActivity] and [ProcessTimestamps]:
    the shape of a generic card ([metadata] is always empty). *)
Record ProcessPayload := {
  pp_application_id : AppId; pp_name : string; pp_start : Z;
  pp_type : Z; pp_flags : Z; pp_pid : Z; pp_socket_id : SocketId
}.

Definition process_activity_value (p : ProcessPayload) : Value := VObject
  [("application_id", VString (pp_application_id p)); ("name", VString (pp_name p));
   ("timestamps", VObject [("start", vnum (pp_start p))]);
   ("type", vnum (pp_type p)); ("metadata", VObject []); ("flags", vnum (pp_flags p))].

Definition process_payload_value (p : ProcessPayload) : Value := VObject
  [("activity", process_activity_value p); ("pid", vnum (pp_pid p));
   ("socketId", VString (pp_socket_id p))].

Section Payloads.
Context `{Serde}.

(** [empty_cached]: the clear payload. *)
Definition empty_cached (pid : Z) (socket_id : SocketId) : option CachedActivity :=
  let payload := {| pl_activity := None; pl_pid := Some pid;
                    pl_socket_id := Some socket_id |} in
  match json_to_string (payload_value payload), msgpack_to_vec (payload_value payload) with
  | Some json, Some msgpack => Some {|
      ca_json := json; ca_msgpack := msgpack; ca_is_clear := true;
      ca_activity_json := ""; ca_provenance := None; ca_pid := pid |}
  | _, _ => None
  end.

(** [activity_fingerprint]: fixes the command in place, stamps the outer
    id on the activity and serializes the activity alone. *)
Definition activity_fingerprint (now_secs : Z) (cmd : ActivityCmd)
    : ActivityCmd * option string :=
  let cmd := fix_cmd now_secs cmd in
  let cmd := map_activity (set_application_id (cmd_application_id cmd)) cmd in
  (cmd, cmd_activity cmd ≫= λ a, json_to_string (activity_value a)).

(** [cached_activity]. *)
Definition cached_activity (now_secs : Z) (cmd : ActivityCmd) (fingerprint : option string)
    : option CachedActivity :=
  let cmd := fix_cmd now_secs cmd in
  match cmd_args cmd with
  | None => None
  | Some args =>
      match arg_activity args with
      | None =>
          let pid := default 0%Z (arg_pid args) in
          empty_cached pid (u64_to_string pid)
      | Some activity =>
          let activity := set_application_id (cmd_application_id cmd) activity in
          let payload := {| pl_activity := Some activity; pl_pid := arg_pid args;
            pl_socket_id := Some (u64_to_string (default 0%Z (arg_pid args))) |} in
          match json_to_string (payload_value payload),
                msgpack_to_vec (payload_value payload) with
          | Some json, Some msgpack => Some {|
              ca_json := json; ca_msgpack := msgpack; ca_is_clear := false;
              ca_activity_json := default "" fingerprint; ca_provenance := None;
              ca_pid := default 0%Z (arg_pid args) |}
          | _, _ => None
          end
      end
  end.

(** ** Replies *)

(** [Reply]: the envelope every reply shares. *)
Definition reply_value (cmd : string) (data : Value) (evt : option string) (nonce : Value)
    : Value := VObject
  [("cmd", VString cmd); ("data", data); ("evt", opt_value VString evt); ("nonce", nonce)].

(** [error_fallback_json]; [q] quotes a bare word. *)
Definition error_fallback_json (cmd : string) (evt : option string) : string :=
  let q s := str_of_codes [34%Z] +:+ s +:+ str_of_codes [34%Z] in
  let safe s := default (q "?") (json_to_string (VString s)) in
  match evt with
  | Some evt => "{" +:+ q "cmd" +:+ ":" +:+ safe cmd +:+ "," +:+ q "evt" +:+ ":"
                +:+ safe evt +:+ "}"
  | None => "{" +:+ q "cmd" +:+ ":" +:+ safe cmd +:+ "," +:+ q "evt" +:+ ":null}"
  end.

Definition subscribe_ack (cmd : ActivityCmd) : string :=
  default (error_fallback_json (cmd_cmd cmd) (Some "ERROR"))
    (json_to_string (reply_value (cmd_cmd cmd)
       (VObject [("evt", opt_value VString (cmd_evt cmd))]) None (cmd_nonce cmd))).

Definition user_response (cmd : ActivityCmd) (user : option RpcUser) : string :=
  default (error_fallback_json (cmd_cmd cmd) (Some "ERROR"))
    (json_to_string (reply_value (cmd_cmd cmd) (opt_value user_to_value user) None
       (cmd_nonce cmd))).

Definition current_user_update (user : RpcUser) : string :=
  default "{}" (json_to_string (reply_value "DISPATCH" (user_value user)
    (Some "CURRENT_USER_UPDATE") VNull)).

Definition rpc_error (cmd : string) (nonce : Value) (code : Z) (message : string) : string :=
  default (error_fallback_json cmd (Some "ERROR"))
    (json_to_string (reply_value cmd
       (VObject [("code", vnum code); ("message", VString message)]) (Some "ERROR") nonce)).

Definition generic_ack (cmd : ActivityCmd) : string :=
  default (error_fallback_json (cmd_cmd cmd) None)
    (json_to_string (reply_value (cmd_cmd cmd) VNull None (cmd_nonce cmd))).

(** [ActivityEcho]: the activity flattened, then the command's id. *)
Definition activity_echo_value (a : Activity) (application_id : option AppId) : Value :=
  VObject (activity_entries a
           ++ [("application_id", opt_value VString application_id)]).

(** The [data] of the echo: the activity's own id is dropped first. *)
Definition set_activity_data (cmd : ActivityCmd) : Value :=
  opt_value (λ a, activity_echo_value a (cmd_application_id cmd)) (cmd_activity cmd).

(** [set_activity_response]: the command it leaves behind and the reply. *)
Definition set_activity_response (cmd : ActivityCmd) : ActivityCmd * option string :=
  let cmd := map_activity (set_application_id None) cmd in
  (cmd, match cmd_args cmd with
        | None => None
        | Some _ => json_to_string
            (reply_value (cmd_cmd cmd) (set_activity_data cmd) None (cmd_nonce cmd))
        end).
End Payloads.

(** ** [unsupported_command] *)

Definition NEEDS_CLIENT : string := "requires the real Discord client".

Definition oauth_commands : list string := ["AUTHORIZE"; "AUTHENTICATE"].
Definition invite_commands : list string :=
  ["SEND_ACTIVITY_JOIN_INVITE"; "CLOSE_ACTIVITY_REQUEST"; "ACCEPT_ACTIVITY_INVITE";
   "ACTIVITY_INVITE_USER"].
Definition client_commands : list string :=
  ["GET_GUILD"; "GET_GUILDS"; "GET_CHANNEL"; "GET_CHANNELS"; "CREATE_CHANNEL_INVITE";
   "GET_RELATIONSHIPS"; "SET_USER_VOICE_SETTINGS"; "SET_USER_VOICE_SETTINGS_2";
   "PUSH_TO_TALK"; "SELECT_VOICE_CHANNEL"; "GET_SELECTED_VOICE_CHANNEL";
   "SELECT_TEXT_CHANNEL"; "GET_VOICE_SETTINGS"; "SET_VOICE_SETTINGS";
   "SET_VOICE_SETTINGS_2"; "SET_CERTIFIED_DEVICES"; "CAPTURE_SHORTCUT"; "GET_IMAGE";
   "OVERLAY"; "SET_OVERLAY_LOCKED"; "OPEN_OVERLAY_ACTIVITY_INVITE";
   "OPEN_OVERLAY_GUILD_INVITE"; "OPEN_OVERLAY_VOICE_SETTINGS"; "GET_SKUS";
   "GET_ENTITLEMENTS"; "START_PURCHASE"; "VALIDATE_APPLICATION"].

Definition unsupported_command (cmd : string) : option (Z * string) :=
  if decide (cmd ∈ oauth_commands) then
    Some (5000%Z, "Authorization requires the real Discord client")
  else if decide (cmd ∈ invite_commands) then
    Some (5006%Z, "No eligible activity: invites require the real Discord client")
  else if decide (cmd ∈ client_commands) then Some (1000%Z, NEEDS_CLIENT)
  else None.

(** ** [query_param] (query.rs) *)

Definition query_step (key : string) (found : option string) (pair : string)
    : option string :=
  match split_once "="%char pair with
  | Some (k, value) => if String.eqb k key then Some value else found
  | None => found
  end.

Definition query_param (uri key : string) : option string :=
  match split_once "?"%char uri with
  | None => None
  | Some (_, query) => foldl (query_step key) None (split "&"%char query)
  end.

(** ** [RecentActivities] *)

(** Instants are nanoseconds of the monotonic clock. *)
Record RecentActivities := {
  ra_window : Z;
  ra_cap : nat;
  ra_entries : gmap (option AppId * Z) (string * Z)
}.

Definition DEFAULT_WINDOW : Z := 5000000000.
Definition DEFAULT_CAP : nat := 128.

Definition RecentActivities_new (window : Z) (cap : nat) : RecentActivities :=
  {| ra_window := window; ra_cap := cap; ra_entries := ∅ |}.

Definition RecentActivities_default : RecentActivities :=
  RecentActivities_new DEFAULT_WINDOW DEFAULT_CAP.

(** [Instant::duration_since] saturates at zero. *)
Definition duration_since (now at_ : Z) : Z := Z.max 0 (now - at_).

Section FloodGuard.
Context `{HashOrder}.

(** [recorded]. *)
Definition recorded (g : RecentActivities) (app_id : option AppId) (pid : Z)
    : option string := fst <$> ra_entries g !! (app_id, pid).

Definition with_entries (g : RecentActivities) (e : gmap (option AppId * Z) (string * Z))
    : RecentActivities :=
  {| ra_window := ra_window g; ra_cap := ra_cap g; ra_entries := e |}.

(** The eviction in front of an insert of a new key: expired slots first,
    then one arbitrary victim. *)
Definition make_room (g : RecentActivities) (key : option AppId * Z) (now : Z)
    : gmap (option AppId * Z) (string * Z) :=
  let e := ra_entries g in
  if decide (ra_cap g ≤ size e ∧ e !! key = None) then
    let e := filter (λ kv, (duration_since now kv.2.2 < ra_window g)%Z) e in
    if decide (ra_cap g ≤ size e) then
      match hm_iter e with
      | [] => e
      | (victim, _) :: _ => delete victim e
      end
    else e
  else e.

(** [should_drop]: the verdict and the table after it. *)
Definition should_drop (g : RecentActivities) (app_id : option AppId) (pid : Z)
    (payload : option string) (now : Z) : bool * RecentActivities :=
  let key := (app_id, pid) in
  match payload with
  | None => (false, with_entries g (delete key (ra_entries g)))
  | Some bytes =>
      let dup := match ra_entries g !! key with
                 | Some (last, at_) =>
                     String.eqb last bytes && (duration_since now at_ <? ra_window g)%Z
                 | None => false
                 end in
      if dup then (true, g)
      else (false, with_entries g (<[key := (bytes, now)]> (make_room g key now)))
  end.

(** *** Lemmas *)

Lemma make_room_sub g key now : make_room g key now ⊆ ra_entries g.
Proof.
  unfold make_room. case_decide; [|done].
  case_decide; [|apply map_filter_subseteq].
  destruct (hm_iter _) as [|[v w] l]; [apply map_filter_subseteq|].
  etrans; [apply delete_subseteq|apply map_filter_subseteq].
Qed.

Lemma make_room_size g key now :
  (0 < ra_cap g)%nat → size (ra_entries g) ≤ ra_cap g → ra_entries g !! key = None →
  (size (make_room g key now) < ra_cap g)%nat.
Proof.
  intros Hc Hs Hk. unfold make_room. case_decide as E1; [|apply not_and_l in E1; naive_solver lia].
  case_decide as E2; [|lia].
  set (e := filter _ _) in *.
  destruct (hm_iter e) as [|[v w] l] eqn:Ei.
  { apply hm_iter_nil in Ei. rewrite Ei, map_size_empty in *. lia. }
  assert (is_Some (e !! v)) as Hv.
  { exists w. apply hm_iter_elem. rewrite Ei. by left. }
  pose proof (map_size_delete_lt e v Hv).
  assert (size e ≤ size (ra_entries g)); [|lia].
  apply map_subseteq_size, map_filter_subseteq.
Qed.

Lemma should_drop_bounded g app pid payload now :
  (0 < ra_cap g)%nat → size (ra_entries g) ≤ ra_cap g →
  size (ra_entries (should_drop g app pid payload now).2) ≤ ra_cap g.
Proof.
  intros Hc Hs. unfold should_drop. destruct payload as [bytes|]; simpl.
  2: { etrans; [|exact Hs]. apply map_subseteq_size, delete_subseteq. }
  destruct (match _ with Some _ => _ | None => _ end); [done|]. simpl.
  rewrite map_size_insert. destruct (make_room g (app, pid) now !! (app, pid)) eqn:E.
  - etrans; [apply map_subseteq_size, make_room_sub|done].
  - destruct (ra_entries g !! (app, pid)) eqn:E2.
    + unfold make_room in E. rewrite decide_False in E by naive_solver. congruence.
    + pose proof (make_room_size g _ now Hc Hs E2). lia.
Qed.

Lemma should_drop_cap g app pid payload now :
  ra_cap (should_drop g app pid payload now).2 = ra_cap g.
Proof.
  unfold should_drop. destruct payload; [|done].
  by destruct (match _ with Some _ => _ | None => _ end).
Qed.

(** The flood guard drops a publish exactly when the last recorded
    payload of that (app, pid) is byte-identical and younger than the
    window; whatever it lets through is recorded at its arrival time,
    and a clear is never dropped and forgets the slot. *)
Theorem should_drop_spec g app pid payload now :
  let '(dropped, g') := should_drop g app pid payload now in
  (dropped = true ↔ ∃ bytes at_, payload = Some bytes ∧
     ra_entries g !! (app, pid) = Some (bytes, at_) ∧
     (duration_since now at_ < ra_window g)%Z) ∧
  (dropped = true → g' = g) ∧
  (dropped = false → ra_entries g' !! (app, pid) = (λ b, (b, now)) <$> payload).
Proof.
  unfold should_drop. destruct payload as [bytes|].
  2: { split_and!; [naive_solver|done|]. intros _. simpl. apply lookup_delete_eq. }
  destruct (ra_entries g !! (app, pid)) as [[last at_]|] eqn:E.
  2: { split_and!; [naive_solver|done|]. intros _. simpl. apply lookup_insert_eq. }
  destruct (String.eqb_spec last bytes) as [->|Hne]; simpl;
    [destruct (Z.ltb_spec (duration_since now at_) (ra_window g))|].
  - split_and!; [naive_solver|done|done].
  - split_and!; [split; [done|intros (b & t & ? & ? & ?); simplify_eq; lia]|done|].
    intros _. simpl. apply lookup_insert_eq.
  - split_and!; [naive_solver|done|]. intros _. simpl. apply lookup_insert_eq.
Qed.

(** The guard over a sequence of calls. *)
Definition guard_call : Type := option AppId * Z * option string * Z.

Definition guard_run (g : RecentActivities) (calls : list guard_call) : RecentActivities :=
  foldl (λ g '(app, pid, payload, now), (should_drop g app pid payload now).2) g calls.

(** Whatever hostile clients send, the guard's table never exceeds
    its cap. *)
Theorem guard_run_bounded window cap calls :
  (0 < cap)%nat →
  size (ra_entries (guard_run (RecentActivities_new window cap) calls)) ≤ cap.
Proof.
  intros Hc.
  assert (∀ g, ra_cap g = cap → size (ra_entries g) ≤ cap →
    size (ra_entries (guard_run g calls)) ≤ cap) as Hgen.
  { induction calls as [|[[[app pid] payload] now] calls IH]; intros g Hg Hs; [done|].
    simpl. apply IH; [by rewrite should_drop_cap|].
    rewrite <-Hg. apply should_drop_bounded; lia. }
  apply Hgen; [done|]. simpl. rewrite map_size_empty. lia.
Qed.
End FloodGuard.

Lemma guard_run_bounded_witness :
  size (ra_entries (guard_run (H := default_order) (RecentActivities_new 5 2)
    [(None, 1%Z, Some "a", 0%Z); (None, 2%Z, Some "a", 0%Z); (None, 3%Z, Some "a", 1%Z)])) ≤ 2.
Proof. apply (guard_run_bounded (H := default_order) 5 2). lia. Defined.

(** ** Rate of a flood *)

Section FloodRate.
Context `{HashOrder}.

(** How many of the arrivals [ts] of one unchanged payload pass. *)
Fixpoint passes (g : RecentActivities) (app : option AppId) (pid : Z) (b : string)
    (ts : list Z) : nat :=
  match ts with
  | [] => 0
  | t :: ts =>
      let '(dropped, g) := should_drop g app pid (Some b) t in
      (if dropped then 0 else 1) + passes g app pid b ts
  end.

Lemma should_drop_window g app pid payload now :
  ra_window (should_drop g app pid payload now).2 = ra_window g.
Proof.
  unfold should_drop. destruct payload; [|done].
  by destruct (match _ with Some _ => _ | None => _ end).
Qed.

Lemma passes_recorded g app pid b ts t0 t1 :
  ra_entries g !! (app, pid) = Some (b, t0) →
  Forall (λ t, t0 ≤ t ≤ t1)%Z ts → (t0 ≤ t1)%Z → Sorted Z.le ts →
  (Z.of_nat (passes g app pid b ts) * ra_window g ≤ t1 - t0)%Z ∨ (ra_window g ≤ 0)%Z.
Proof.
  revert g t0. induction ts as [|t ts IH]; intros g t0 Hg Hts Ht Hs; cbn [passes]; [lia|].
  apply Forall_cons in Hts as [Hb Hts]. apply Sorted_inv in Hs as [Hs Hhd].
  pose proof (should_drop_spec g app pid (Some b) t) as Hspec.
  pose proof (should_drop_window g app pid (Some b) t) as Hw.
  destruct (should_drop g app pid (Some b) t) as [[] g'] eqn:E; simpl in Hw.
  - destruct Hspec as (_ & Hg' & _). rewrite (Hg' eq_refl). simpl. by apply (IH g t0).
  - destruct Hspec as (Hno & _ & Hrec). specialize (Hrec eq_refl). simpl in Hrec.
    assert (ra_window g ≤ t - t0)%Z as Hgap.
    { destruct (decide (t - t0 < ra_window g)%Z) as [Hlt|]; [|lia].
      assert (false = true); [|done]. apply Hno. exists b, t0. unfold duration_since.
      split_and!; [done..|lia]. }
    assert (Forall (λ u, t ≤ u ≤ t1)%Z ts) as Hts'.
    { apply Sorted_StronglySorted in Hs; [|intros ???; lia].
      apply Forall_forall. intros u Hu.
      assert (t ≤ u)%Z; [|eapply Forall_forall in Hts; [|exact Hu]; lia].
      destruct ts as [|x ts]; [by apply not_elem_of_nil in Hu|].
      apply HdRel_inv in Hhd. apply elem_of_cons in Hu as [->|Hu]; [done|].
      apply StronglySorted_inv in Hs as [_ Hx]. eapply Forall_forall in Hx; [|exact Hu]. lia. }
    destruct (IH g' t Hrec Hts' ltac:(lia) Hs) as [IH'|]; [left|right; lia].
    rewrite Hw in IH'. lia.
Qed.

(** A client resending one payload at any rate gets at most one
    publish per window through: [n] passed copies span at least
    [n - 1] windows. *)
Theorem flood_rate_limited g app pid b t ts t1 :
  (0 < ra_window g)%Z →
  Sorted Z.le (t :: ts) → Forall (λ u, u ≤ t1)%Z (t :: ts) →
  ra_entries g !! (app, pid) = None →
  (1 ≤ passes g app pid b (t :: ts))%nat ∧
  ((Z.of_nat (passes g app pid b (t :: ts)) - 1) * ra_window g ≤ t1 - t)%Z.
Proof.
  intros Hw Hs Hb Hnone. cbn [passes].
  pose proof (should_drop_spec g app pid (Some b) t) as Hspec.
  pose proof (should_drop_window g app pid (Some b) t) as Hwin.
  destruct (should_drop g app pid (Some b) t) as [[] g'] eqn:E; simpl in Hwin.
  { destruct Hspec as (Hdrop & _). destruct Hdrop as (Hdrop & _).
    destruct (Hdrop eq_refl) as (? & ? & ? & ? & ?). congruence. }
  destruct Hspec as (_ & _ & Hrec). specialize (Hrec eq_refl). simpl in Hrec.
  apply Sorted_StronglySorted in Hs; [|intros ???; lia].
  apply StronglySorted_inv in Hs as [Hs Hge].
  apply Forall_cons in Hb as [Ht Hb]. split; [lia|].
  destruct (passes_recorded g' app pid b ts t t1) as [Hp|Hp]; [done| |done| | |lia].
  - apply Forall_forall. intros u Hu. eapply Forall_forall in Hge, Hb; eauto.
  - by apply StronglySorted_Sorted.
  - rewrite Hwin in Hp. lia.
Qed.
End FloodRate.

Lemma flood_rate_limited_witness :
  ((Z.of_nat (passes (H := default_order) RecentActivities_default (Some "app"%string) 7 "x"
     [0; 1000000000; 4999999999; 5000000000; 9000000000]%Z) - 1) * 5000000000
    ≤ 9000000000 - 0)%Z.
Proof.
  apply (flood_rate_limited (H := default_order) RecentActivities_default (Some "app") 7 "x" 0
    [1000000000; 4999999999; 5000000000; 9000000000]%Z 9000000000).
  - vm_compute; reflexivity.
  - repeat constructor; lia.
  - repeat constructor; lia.
  - reflexivity.
Defined.

(** ** Properties of [query_param] *)

(** The reference the doc comment names: every pair inserted in a map. *)
Definition query_map (query : string) : gmap string string :=
  foldl (λ m '(k, v), <[k := v]> m) ∅ (omap (split_once "="%char) (split "&"%char query)).

Lemma query_fold_map key pairs (m : gmap string string) found :
  m !! key = found →
  foldl (λ m '(k, v), <[k := v]> m) m (omap (split_once "="%char) pairs) !! key
  = foldl (query_step key) found pairs.
Proof.
  revert m found; induction pairs as [|p ps IH]; intros m found Hm; [done|].
  csimpl. unfold query_step at 2. destruct (split_once "="%char p) as [[k v]|]; csimpl; [|by apply IH].
  apply IH. destruct (String.eqb_spec k key) as [->|Hne].
  - apply lookup_insert_eq.
  - by rewrite lookup_insert_ne.
Qed.

(** Reading one parameter off the query is the same as building the
    whole parameter map and looking the key up: the last of repeated keys
    wins, pairs without an equals sign are ignored, and a uri without a
    question mark has no parameters. *)
Theorem query_param_map uri key :
  query_param uri key =
  match split_once "?"%char uri with
  | Some (_, query) => query_map query !! key
  | None => None
  end.
Proof.
  unfold query_param, query_map. destruct (split_once "?"%char uri) as [[p q]|]; [|done].
  symmetry. apply query_fold_map, lookup_empty.
Qed.

(** ** Properties of the payload and the echo *)

Section Payload_props.
Context `{SerdeTotal}.

(** The stored fingerprint is the serialization of exactly the
    activity inside the payload, for every activity on which [fix] is
    stable: byte-comparing fingerprints compares published activities. *)
Theorem cached_activity_fingerprint now cmd args a :
  (0 ≤ now ≤ 90000000000)%Z →
  cmd_args cmd = Some args → arg_activity args = Some a →
  (∀ ts, act_timestamps a = Some ts → stable_ts now (ts_start ts) ∧ stable_ts now (ts_end ts)) →
  (∀ bs, act_buttons a = Some bs → Forall flat_button bs) →
  let '(cmd', fp) := activity_fingerprint now cmd in
  ∃ ca act, cached_activity now cmd' fp = Some ca ∧
    json_to_string (payload_value {| pl_activity := Some act; pl_pid := arg_pid args;
      pl_socket_id := Some (u64_to_string (default 0%Z (arg_pid args))) |})
      = Some (ca_json ca) ∧
    json_to_string (activity_value act) = Some (ca_activity_json ca) ∧
    act_application_id act = cmd_application_id cmd ∧
    ca_is_clear ca = false ∧ ca_pid ca = default 0%Z (arg_pid args).
Proof.
  intros Hn Hargs Ha Hts Hbs. unfold activity_fingerprint, cached_activity, fix_cmd,
    map_activity, cmd_activity. rewrite Hargs. simpl. rewrite Ha. simpl.
  set (b := set_application_id (cmd_application_id cmd) (fix_activity now a)).
  assert (set_application_id (cmd_application_id cmd) (fix_activity now b) = b) as Hb.
  { unfold b. rewrite fix_activity_app_id.
    rewrite fix_activity_idempotent by done. done. }
  rewrite Hb.
  destruct (json_to_string_total (activity_value b)) as [fp Hfp].
  destruct (json_to_string_total (payload_value {| pl_activity := Some b; pl_pid := arg_pid args;
      pl_socket_id := Some (u64_to_string (default 0%Z (arg_pid args))) |})) as [js Hjs].
  destruct (msgpack_to_vec_total (payload_value {| pl_activity := Some b; pl_pid := arg_pid args;
      pl_socket_id := Some (u64_to_string (default 0%Z (arg_pid args))) |})) as [mp Hmp].
  rewrite Hjs, Hmp. eexists _, b. split; [done|]. simpl. by rewrite Hfp.
Qed.

Lemma opt_field_ne {A} k k' (f : A → Value) o : k' ≠ k → k' ∉ (opt_field k f o).*1.
Proof. destruct o; simpl; [by rewrite list_elem_of_singleton|intros _; apply not_elem_of_nil]. Qed.

Lemma activity_fields_no_app_id a :
  act_application_id a = None → "application_id" ∉ (activity_fields a).*1.
Proof.
  intros E. unfold activity_fields. rewrite E. rewrite !fmap_app, !not_elem_of_app.
  split_and!; first [by apply opt_field_ne | by apply not_elem_of_nil
                    | simpl; by rewrite list_elem_of_singleton].
Qed.

(** The echo of a publish names the application exactly once (the
    command's id, [null] without one), and otherwise carries the
    activity's own fields unchanged and in order. *)
Theorem set_activity_echo cmd a :
  cmd_activity cmd = Some a → "application_id" ∉ (act_extra a).*1 →
  ∃ fields, set_activity_data (set_activity_response cmd).1
    = VObject (fields ++ [("application_id", opt_value VString (cmd_application_id cmd))]) ∧
  ("application_id" ∉ fields.*1) ∧
  fields = activity_fields (set_application_id None a) ++ act_extra a ∧
  is_Some (set_activity_response cmd).2.
Proof.
  unfold cmd_activity. intros E Hx.
  destruct (cmd_args cmd) as [args|] eqn:Eargs; [|done]. simpl in E.
  exists (activity_fields (set_application_id None a) ++ act_extra a).
  unfold set_activity_data, set_activity_response, cmd_activity, map_activity.
  rewrite Eargs. simpl. rewrite E. simpl. split_and!; [done| |done|apply json_to_string_total].
  rewrite fmap_app, not_elem_of_app. split; [|done]. by apply activity_fields_no_app_id.
Qed.
End Payload_props.

Definition demo_cmd : ActivityCmd := {|
  cmd_application_id := Some "1111"; cmd_cmd := "SET_ACTIVITY";
  cmd_args := Some {| arg_pid := Some 77%Z; arg_activity := Some demo_activity;
                      arg_code := None; arg_user_id := None |};
  cmd_data := None; cmd_evt := None; cmd_nonce := VString "n1"
|}.

Lemma cached_activity_fingerprint_witness :
  let '(cmd', fp) := activity_fingerprint (H := demo_serde) 1750000000 demo_cmd in
  ∃ ca, cached_activity (H := demo_serde) 1750000000 cmd' fp = Some ca ∧ ca_pid ca = 77%Z.
Proof.
  pose proof (cached_activity_fingerprint (H := demo_serde) (H0 := demo_serde_total)
    1750000000 demo_cmd {| arg_pid := Some 77%Z; arg_activity := Some demo_activity;
      arg_code := None; arg_user_id := None |} demo_activity ltac:(lia) eq_refl eq_refl) as W.
  destruct (activity_fingerprint _ _) as [cmd' fp].
  destruct W as (ca & act & E & _ & _ & _ & _ & Ep).
  - intros ts [= <-]; split; [intros v [= <-]; int_lia|intros v [=]].
  - intros bs [= <-]. repeat constructor; intros v [= <-] m; discriminate.
  - exists ca. split; [exact E|exact Ep].
Defined.

Lemma set_activity_echo_witness :
  is_Some (set_activity_response (H := demo_serde) demo_cmd).2.
Proof.
  destruct (set_activity_echo (H := demo_serde) (H0 := demo_serde_total) demo_cmd demo_activity)
    as (fields & _ & _ & _ & W).
  - reflexivity.
  - simpl. by rewrite list_elem_of_singleton.
  - exact W.
Defined.
