(* ===== verification/IpcFrame.v ===== *)
(** * The Discord IPC wire protocol (crates/rsrpc-transport-ipc/src/frame.rs)

    Framing, the per-connection facilitator of unix.rs and the pump
    [handle_stream].  A connection is a byte list (what the peer sends)
    with the way it ends; the pump's effects (bytes written, commands put
    in the sink) are a trace.  Write errors only log in the source, so
    they do not appear.  Parsing a frame body into a command is serde's
    derived code, a class parameter. *)

From stdpp Require Import base strings list list_numbers.
From coqutil Require Import Byte Word.LittleEndianList.
From Stdlib Require Import Ascii.
From S2P Require Import Prelude RStr Json Ids Cmd User Protocol.

Local Open Scope string_scope.
Local Open Scope nat_scope.
Local Open Scope list_scope.

Abbreviation byte := Corelib.Init.Byte.byte.

(** ** Framing *)

Inductive PacketType := Handshake | Frame | Close | Ping | Pong.

#[export] Instance packet_type_eq_dec : EqDecision PacketType.
Proof. solve_decision. Defined.

(** [r_type as u32]. *)
Definition packet_code (t : PacketType) : Z :=
  match t with Handshake => 0 | Frame => 1 | Close => 2 | Ping => 3 | Pong => 4 end.

(** [PacketType::try_from_u32]. *)
Definition try_from_u32 (value : Z) : option PacketType :=
  if (value =? 0)%Z then Some Handshake
  else if (value =? 1)%Z then Some Frame
  else if (value =? 2)%Z then Some Close
  else if (value =? 3)%Z then Some Ping
  else if (value =? 4)%Z then Some Pong
  else None.

Definition MAX_IPC_PAYLOAD : Z := 1048576.
Definition MAX_TRACKED_PIDS : nat := 16.

Definition str_bytes (s : string) : list byte := String.list_byte_of_string s.
Definition bytes_str (l : list byte) : string := String.string_of_list_byte l.

(** [encode]: type, length ([len as u32] truncates), body. *)
Definition encode (r_type : PacketType) (data : string) : list byte :=
  le_split 4 (packet_code r_type) ++ le_split 4 (str_len data) ++ str_bytes data.

(** ** Pid history *)

(** [admit_pid]: the history after it, and whether the caller may forward. *)
Definition admit_pid (history : list Z) (pid : Z) : list Z * bool :=
  match position (Z.eqb pid) history with
  | Some pos => (vec_remove pos history ++ [pid], true)
  | None =>
      if decide (MAX_TRACKED_PIDS ≤ length history) then (history, false)
      else (history ++ [pid], true)
  end.

(** [track_pid]: the evicting variant. *)
Definition track_pid (history : list Z) (pid : Z) : list Z :=
  let '(history, admitted) := admit_pid history pid in
  if admitted then history else vec_remove 0 history ++ [pid].

(** ** The facilitator ([ConnFacilitator], unix.rs) *)

Record Conn := {
  conn_handshake : bool;
  conn_client_id : AppId;
  conn_pid : Z;
  conn_nonce : Value;
  conn_published_pids : list Z
}.

Definition Conn_new : Conn := {|
  conn_handshake := false; conn_client_id := ""; conn_pid := 0;
  conn_nonce := VNull; conn_published_pids := []
|}.

Definition conn_with_pids (l : list Z) (c : Conn) : Conn := {|
  conn_handshake := conn_handshake c; conn_client_id := conn_client_id c;
  conn_pid := conn_pid c; conn_nonce := conn_nonce c; conn_published_pids := l |}.

(** [take_published_pids]. *)
Definition take_published_pids (c : Conn) : Conn * list Z :=
  (conn_with_pids [] c, conn_published_pids c).

(** [clear_pids]: the tracked pids, then the current one unless listed. *)
Definition clear_pids (c : Conn) (current_pid : Z) : Conn * list Z :=
  let '(c, pids) := take_published_pids c in
  (c, if decide (current_pid ∈ pids) then pids else pids ++ [current_pid]).

(** ** Effects *)

Inductive effect :=
  | Write (bytes : list byte)   (** [stream.write_all] *)
  | Emit (cmd : ActivityCmd)    (** [sink.emit] *)
  | EmitClear (cmd : ActivityCmd). (** [sink.emit_clear] *)

(** The [ActivityCmd] of [send_empty]: a clear without an application. *)
Definition empty_clear (pid : Z) : ActivityCmd := {|
  cmd_application_id := None; cmd_cmd := "SET_ACTIVITY";
  cmd_args := Some {| arg_pid := Some pid; arg_activity := None;
                      arg_code := None; arg_user_id := None |};
  cmd_data := None; cmd_evt := None; cmd_nonce := VString "" |}.

Definition send_empty (pid : Z) : effect := EmitClear (empty_clear pid).

(** The failure exits: clear every pid this connection covers. *)
Definition clear_all (c : Conn) (current_pid : Z) : Conn * list effect :=
  let '(c, pids) := clear_pids c current_pid in (c, map send_empty pids).

(** The body of a [Handshake] packet. *)
Record HandshakeBody := { hs_v : Z; hs_client_id : string }.

(** Serde's derived parsers for the two bodies the pump reads. *)
Class IpcParse := {
  cmd_from_str : string → option ActivityCmd;
  handshake_from_str : string → option HandshakeBody
}.

(** What a handler did: [None] is a panic. *)
Definition handled : Type := option (Conn * list effect * bool).

Section Pump.
Context `{Serde, IpcParse}.
(** The shared identity and the clock as frame [k] is handled. *)
Variable user_at : nat → RpcUser.
Variable now_at : nat → Z.

(** [close_frame]. *)
Definition close_frame (code : Z) (message : string) : list byte :=
  encode Close (default ""
    (json_to_string (VObject [("code", vnum code); ("message", VString message)]))).

Definition send_close (code : Z) (message : string) : effect :=
  Write (close_frame code message).

Definition reply (text : string) : effect := Write (encode Frame text).

(** [on_handshake]: [true] stops the pump. *)
Definition on_handshake (k : nat) (c : Conn) (message : string) : handled :=
  match handshake_from_str message with
  | None => Some (c, [], false)
  | Some data =>
      if negb (hs_v data =? 1)%Z then
        Some (c, [send_close 4004 "Invalid version"], true)
      else if str_empty (hs_client_id data) then
        Some (c, [send_close 4000 "Invalid client_id"], true)
      else
        let c := {| conn_handshake := true; conn_client_id := hs_client_id data;
                    conn_pid := conn_pid c; conn_nonce := conn_nonce c;
                    conn_published_pids := conn_published_pids c |} in
        Some (c, [reply (ready_payload (user_at k))], false)
  end.

(** [on_close]. *)
Definition on_close (c : Conn) : Conn * list effect :=
  let full := {| cmd_application_id := Some (conn_client_id c); cmd_cmd := "SET_ACTIVITY";
    cmd_args := Some {| arg_pid := Some (conn_pid c); arg_activity := None;
                        arg_code := None; arg_user_id := None |};
    cmd_data := None; cmd_evt := None; cmd_nonce := conn_nonce c |} in
  let current := conn_pid c in
  let '(c, pids) := take_published_pids c in
  let older := map send_empty (base.filter (λ pid, pid ≠ current) pids) in
  ({| conn_handshake := false; conn_client_id := ""; conn_pid := 0;
      conn_nonce := conn_nonce c; conn_published_pids := conn_published_pids c |},
   EmitClear full :: older).

Definition on_ping (message : string) : list effect := [Write (encode Pong message)].

(** [handle_set_activity] of frame.rs. *)
Definition handle_set_activity (k : nat) (c : Conn) (cmd : ActivityCmd)
    : option (Conn * list effect) :=
  match cmd_args cmd with
  | None => Some (c, [reply (rpc_error (cmd_cmd cmd) (cmd_nonce cmd) 4005
                               "Missing activity args")])
  | Some args =>
      let cmd := cmd_with_application_id (Some (conn_client_id c)) cmd in
      let pid := default 0%Z (arg_pid args) in
      let cmd := fix_cmd (now_at k) cmd in
      let '(cmd, response) := set_activity_response cmd in
      match response with
      | None => None (* expect: the reply always builds *)
      | Some response =>
          let '(pids, admitted) := admit_pid (conn_published_pids c) pid in
          let '(pids, forwarded) :=
            if admitted then (track_pid pids pid, [Emit cmd]) else (pids, []) in
          Some ({| conn_handshake := conn_handshake c; conn_client_id := conn_client_id c;
                   conn_pid := pid; conn_nonce := cmd_nonce cmd;
                   conn_published_pids := pids |},
                forwarded ++ [reply response])
      end
  end.

(** The commands the pump answers itself, as the match of [on_frame]
    groups them. *)
Definition subscribe_commands : list string := ["SUBSCRIBE"; "UNSUBSCRIBE"].
Definition browser_commands : list string :=
  ["INVITE_BROWSER"; "GUILD_TEMPLATE_BROWSER"; "GIFT_CODE_BROWSER"; "DEEP_LINK"].

(** [on_frame]. *)
Definition on_frame (k : nat) (c : Conn) (message : string) : handled :=
  if negb (conn_handshake c) then Some (c, [], false)
  else match cmd_from_str message with
  | None => Some (c, [reply (rpc_error "" VNull 4005 "Invalid encoding")], false)
  | Some cmd =>
      if decide (cmd_cmd cmd ∈ subscribe_commands) then
        Some (c, [reply (subscribe_ack cmd)], false)
      else if String.eqb (cmd_cmd cmd) "SET_ACTIVITY" then
        match handle_set_activity k c cmd with
        | Some (c, effs) => Some (c, effs, false)
        | None => None
        end
      else if String.eqb (cmd_cmd cmd) "GET_USER" then
        let wanted := cmd_args cmd ≫= arg_user_id in
        let user := user_at k in
        let matched := match wanted with
                       | None => true
                       | Some id => String.eqb id (user_id user)
                       end in
        Some (c, [reply (user_response cmd (if matched then Some user else None))], false)
      else if String.eqb (cmd_cmd cmd) "CONNECTIONS_CALLBACK" then
        Some (c, [reply (rpc_error (cmd_cmd cmd) (cmd_nonce cmd) 1000
                           "CONNECTIONS_CALLBACK is not supported")], false)
      else if decide (cmd_cmd cmd ∈ browser_commands) then
        let cmd := cmd_with_application_id (Some (conn_client_id c)) cmd in
        Some (c, [Emit cmd; reply (generic_ack cmd)], false)
      else
        let '(code, text) :=
          default (1000%Z, "Unknown command") (unsupported_command (cmd_cmd cmd)) in
        Some (c, [reply (rpc_error (cmd_cmd cmd) (cmd_nonce cmd) code text)], false)
  end.

(** ** [handle_stream] *)

(** How the peer's byte stream ends: orderly, or with a read error. *)
Inductive stream_end := Eof | IoError.

(** Why the pump stopped. *)
Inductive stop_reason :=
  | ReadFailed | TooLarge | BadBody | BadType | HandshakeRefused | FrameRefused
  | ClosedByPeer.

Inductive outcome :=
  | Stopped (c : Conn) (effs : list effect) (why : stop_reason)
  | Panicked
  | OutOfFuel.

(** One iteration of the loop on the remaining input: stop, or the bytes
    left for the next iteration. *)
Inductive iteration :=
  | IterStop (c : Conn) (effs : list effect) (why : stop_reason)
  | IterNext (c : Conn) (effs : list effect) (rest : list byte)
  | IterPanic.

Definition stop_clearing (c : Conn) (pre : list effect) (why : stop_reason) : iteration :=
  let '(c', effs) := clear_all c (conn_pid c) in IterStop c' (pre ++ effs) why.

Definition dispatch (k : nat) (c : Conn) (t : PacketType) (message : string)
    (rest : list byte) : iteration :=
  match t with
  | Handshake =>
      match on_handshake k c message with
      | Some (c, effs, true) => IterStop c effs HandshakeRefused
      | Some (c, effs, false) => IterNext c effs rest
      | None => IterPanic
      end
  | Frame =>
      match on_frame k c message with
      | Some (c, effs, true) => IterStop c effs FrameRefused
      | Some (c, effs, false) => IterNext c effs rest
      | None => IterPanic
      end
  | Close => let '(c, effs) := on_close c in IterStop c effs ClosedByPeer
  | Ping => IterNext c (on_ping message) rest
  | Pong => IterNext c [] rest
  end.

Definition iterate (k : nat) (c : Conn) (input : list byte) (end_ : stream_end) : iteration :=
  if decide (length input < 4) then stop_clearing c [] ReadFailed
  else
    let packet_type := le_combine (take 4 input) in
    let input := drop 4 input in
    if decide (length input < 4) then stop_clearing c [] ReadFailed
    else
      let data_size := le_combine (take 4 input) in
      let input := drop 4 input in
      if (MAX_IPC_PAYLOAD <? data_size)%Z then
        stop_clearing c [send_close 1003 "Payload too large"] TooLarge
      else
        let n := Z.to_nat data_size in
        let body := take n input in
        let rest := drop n input in
        (* [take(n).read_to_string]: short bodies at end of file are
           accepted, read errors and invalid UTF-8 are not *)
        if negb (utf8_valid (map byte.unsigned body))
           || match end_ with
              | Eof => false
              | IoError => bool_decide (length input < n)
              end
        then stop_clearing c [] BadBody
        else match try_from_u32 packet_type with
             | None => stop_clearing c [send_close 1003 "Unsupported packet type"] BadType
             | Some t => dispatch k c t (bytes_str body) rest
             end.

(** The loop.  Fuel: an iteration that continues consumed the 8-byte
    header, so one more round than bytes is enough. *)
Fixpoint pump (fuel k : nat) (c : Conn) (input : list byte) (end_ : stream_end)
    (acc : list effect) : outcome :=
  match fuel with
  | 0 => OutOfFuel
  | S fuel =>
      match iterate k c input end_ with
      | IterStop c effs why => Stopped c (acc ++ effs) why
      | IterNext c effs rest => pump fuel (S k) c rest end_ (acc ++ effs)
      | IterPanic => Panicked
      end
  end.

Definition handle_stream (c : Conn) (input : list byte) (end_ : stream_end) : outcome :=
  pump (S (length input)) 0 c input end_ [].
End Pump.

(** ** Framing lemmas *)

Lemma length_str_bytes s : length (str_bytes s) = String.length s.
Proof.
  unfold str_bytes, String.list_byte_of_string. rewrite length_map.
  induction s as [|c s IH]; [done|]. simpl. by rewrite IH.
Qed.

Lemma bytes_str_bytes s : bytes_str (str_bytes s) = s.
Proof. apply String.string_of_list_byte_of_string. Qed.

Lemma take_le_split n z l : take n (le_split n z ++ l) = le_split n z.
Proof. rewrite <-(length_le_split n z) at 1. apply take_app_length. Qed.

Lemma drop_le_split n z l : drop n (le_split n z ++ l) = l.
Proof. rewrite <-(length_le_split n z) at 1. apply drop_app_length. Qed.

Lemma try_from_packet_code t : try_from_u32 (packet_code t) = Some t.
Proof. by destruct t. Qed.

(** A Rust [str] of at most the payload cap. *)
Definition frame_body (data : string) : Prop :=
  utf8_valid (map byte.unsigned (str_bytes data)) = true ∧ (str_len data ≤ MAX_IPC_PAYLOAD)%Z.

Section Framing.
Context `{Serde, IpcParse}.
Variable user_at : nat → RpcUser.
Variable now_at : nat → Z.

(** What [encode] writes is what the pump reads: any packet whose
    body fits the cap is dispatched with its type and exact body, and
    the following bytes are left for the next round. *)
Lemma encode_iterate k c t data rest end_ :
  frame_body data →
  iterate user_at now_at k c (encode t data ++ rest) end_
  = dispatch user_at now_at k c t data rest.
Proof.
  intros [Hutf Hlen]. unfold iterate, encode. rewrite <-!app_assoc.
  rewrite decide_False by (rewrite length_app, length_le_split; lia).
  rewrite take_le_split, drop_le_split.
  rewrite decide_False by (rewrite length_app, length_le_split; lia).
  rewrite take_le_split, drop_le_split, !le_combine_split.
  unfold MAX_IPC_PAYLOAD, str_len in *.
  change (2 ^ (Z.of_nat 4 * 8))%Z with 4294967296%Z.
  rewrite (Z.mod_small (Z.of_nat _)) by lia.
  rewrite (Z.mod_small (packet_code t)) by (destruct t; simpl; lia).
  destruct (Z.ltb_spec 1048576 (Z.of_nat (String.length data))); [lia|].
  rewrite Nat2Z.id, <-length_str_bytes, take_app_length, drop_app_length, Hutf.
  rewrite try_from_packet_code, bytes_str_bytes. simpl.
  destruct end_; [done|]. rewrite bool_decide_eq_false_2; [done|].
  rewrite length_app. lia.
Qed.
End Framing.

(** ** Pid-history lemmas *)

Definition history_ok (h : list Z) : Prop := NoDup h ∧ length h ≤ MAX_TRACKED_PIDS.

Lemma admit_pid_perm h pid :
  match admit_pid h pid with
  | (h', true) => pid ∈ h' ∧ (h' ≡ₚ h ∨ ((pid ∉ h) ∧ h' ≡ₚ pid :: h ∧ length h < MAX_TRACKED_PIDS))
  | (h', false) => h' = h ∧ (pid ∉ h) ∧ MAX_TRACKED_PIDS ≤ length h
  end.
Proof.
  unfold admit_pid. destruct (position (Z.eqb pid) h) as [i|] eqn:E.
  - apply position_Some in E as (a & Ha & Heq). apply Z.eqb_eq in Heq as <-.
    split; [apply elem_of_app; right; by left|]. left.
    rewrite (Permutation_app_comm _ [pid]). symmetry. by apply vec_remove_perm.
  - assert (pid ∉ h) as Hni.
    { intros Hin. apply (position_None _ _ _ E) in Hin. by rewrite Z.eqb_refl in Hin. }
    case_decide; [done|]. split; [apply elem_of_app; right; by left|]. right.
    split_and!; [done|by rewrite (Permutation_app_comm _ [pid])|lia].
Qed.

Lemma admit_pid_ok h pid : history_ok h → history_ok (admit_pid h pid).1.
Proof.
  intros [Hn Hl]. pose proof (admit_pid_perm h pid) as Hp.
  destruct (admit_pid h pid) as [h' []]; simpl; [|by destruct Hp as [-> _]].
  destruct Hp as [_ [Hp|(Hni & Hp & Hlt)]]; unfold history_ok; rewrite Hp; [done|].
  split; [by constructor|simpl; lia].
Qed.

Lemma admit_pid_grows h pid p : p ∈ h → p ∈ (admit_pid h pid).1.
Proof.
  intros Hin. pose proof (admit_pid_perm h pid) as Hp.
  destruct (admit_pid h pid) as [h' []]; simpl; [|by destruct Hp as [-> _]].
  destruct Hp as [_ [Hp|(_ & Hp & _)]]; rewrite Hp; [done|by right].
Qed.

(** Tracking a pid that was just admitted keeps exactly the same pids. *)
Lemma track_pid_known h pid : pid ∈ h → track_pid h pid ≡ₚ h.
Proof.
  intros Hin. unfold track_pid. pose proof (admit_pid_perm h pid) as Hp.
  destruct (admit_pid h pid) as [h' []]; [|by destruct Hp as (_ & ? & _)].
  by destruct Hp as [_ [Hp|(? & _)]].
Qed.

(** The pid history never forgets: over any sequence of publishes it
    stays duplicate-free and within its 16 slots, an admitted pid is in
    it, a refused one leaves it untouched, and every pid admitted earlier
    is still there. *)
Theorem admit_pid_history pids pid :
  let h := foldl (λ h p, (admit_pid h p).1) [] pids in
  let '(h', admitted) := admit_pid h pid in
  history_ok h' ∧ (∀ p, p ∈ h → p ∈ h') ∧
  (admitted = true ↔ pid ∈ h') ∧ (admitted = false → h' = h ∧ length h = MAX_TRACKED_PIDS).
Proof.
  cbv zeta. set (h := foldl _ _ _).
  assert (history_ok h) as Hok.
  { unfold h. assert (history_ok []) as H0 by (split; [constructor|simpl; lia]).
    revert H0. generalize (@nil Z). induction pids as [|p pids IH]; intros h0 H0; [done|].
    simpl. by apply IH, admit_pid_ok. }
  pose proof (admit_pid_ok h pid Hok) as Hok'.
  pose proof (admit_pid_grows h pid) as Hg. pose proof (admit_pid_perm h pid) as Hp.
  destruct (admit_pid h pid) as [h' []]; simpl in *.
  - split_and!; [done..|naive_solver|done].
  - destruct Hp as (-> & Hni & Hl). destruct Hok as [_ Hl'].
    split_and!; [done..|naive_solver|]. intros _. split; [done|lia].
Qed.
