(* ===== verification/IpcPump.v ===== *)
(** * What the IPC pump guarantees

    Theorems about [handle_stream]: it always stops, byte streams refine
    packet sequences, every request frame is answered exactly once, and
    every way a connection can be lost clears every card it published,
    one way excepted. *)

From stdpp Require Import base strings list list_numbers sets.
From coqutil Require Import Byte Word.LittleEndianList.
From S2P Require Import Prelude RStr Json Ids Cmd User Protocol IpcFrame.

Local Open Scope string_scope.
Local Open Scope nat_scope.
Local Open Scope list_scope.

Definition is_write (e : effect) : bool := match e with Write _ => true | _ => false end.
Definition is_clear (e : effect) : bool := match e with EmitClear _ => true | _ => false end.

(** A command the bridge reads as a genuine clear of [pid]. *)
Definition clears_pid (pid : Z) (cmd : ActivityCmd) : Prop :=
  cmd_cmd cmd = "SET_ACTIVITY" ∧ is_Some (cmd_args cmd) ∧ cmd_activity cmd = None ∧
  cmd_args cmd ≫= arg_pid = Some pid.

(** ** The pump's invariant *)

Definition effect_ok (c : Conn) (e : effect) : Prop :=
  match e with
  | Write _ => True
  | Emit cmd =>
      (∃ id, cmd_application_id cmd = Some id ∧ id ≠ "") ∧
      (cmd_cmd cmd = "SET_ACTIVITY" → cmd_pid cmd ∈ conn_published_pids c)
  | EmitClear _ => False
  end.

Record conn_ok (c : Conn) : Prop := {
  ok_history : history_ok (conn_published_pids c);
  ok_client : conn_handshake c = true → conn_client_id c ≠ ""
}.

(** A handler that keeps the connection: it keeps [conn_ok], forgets no
    pid, and its own effects are covered by the new state. *)
Definition keeps (c c' : Conn) (effs : list effect) : Prop :=
  conn_ok c →
  conn_ok c' ∧ conn_published_pids c ⊆ conn_published_pids c' ∧ Forall (effect_ok c') effs.

Lemma keeps_same c effs : Forall (effect_ok c) effs → keeps c c effs.
Proof. by intros ? ?. Qed.

Lemma effect_ok_mono c c' e :
  conn_published_pids c ⊆ conn_published_pids c' → effect_ok c e → effect_ok c' e.
Proof. destruct e; simpl; [done| |done]. intros Hs [? ?]. split; [done|]. set_solver. Qed.

Lemma covered_no_clear c l : Forall (effect_ok c) l → existsb is_clear l = false.
Proof. induction 1 as [|e l He _ IH]; [done|]. simpl. rewrite IH. by destruct e. Qed.

Lemma writes_no_clear l : forallb is_write l = true → existsb is_clear l = false.
Proof. induction l as [|[] l IH]; simpl; intros; auto; done. Qed.

Lemma not_all_writes l cmd : forallb is_write l = true → Emit cmd ∉ l.
Proof.
  intros Hw Hin. apply list_elem_of_In in Hin. rewrite forallb_forall in Hw.
  by apply Hw in Hin.
Qed.

Section Handlers.
Context `{Serde, IpcParse}.
Variable user_at : nat → RpcUser.
Variable now_at : nat → Z.

Abbreviation on_handshake := (on_handshake user_at).
Abbreviation on_frame := (on_frame user_at now_at).
Abbreviation dispatch := (dispatch user_at now_at).
Abbreviation iterate := (iterate user_at now_at).
Abbreviation pump := (pump user_at now_at).
Abbreviation handle_stream := (handle_stream user_at now_at).

Lemma on_handshake_keeps k c m c' effs b :
  on_handshake k c m = Some (c', effs, b) →
  keeps c c' effs ∧ forallb is_write effs = true.
Proof.
  unfold on_handshake. intros Hm. repeat case_match; simplify_eq/=;
    (split; [|done]); try (apply keeps_same; repeat constructor).
  intros [Hh _]. split; [|by repeat constructor].
  split; [done|]. simpl. intros _ He. by rewrite He in *.
Qed.

(** The history after a [SET_ACTIVITY], in one step. *)
Lemma admit_track_ok h pid h' :
  admit_pid h pid = (h', true) → history_ok h →
  history_ok (track_pid h' pid) ∧ h ⊆ track_pid h' pid ∧ pid ∈ track_pid h' pid.
Proof.
  intros E Hok. pose proof (admit_pid_ok h pid Hok) as Hok'.
  pose proof (admit_pid_grows h pid) as Hg. pose proof (admit_pid_perm h pid) as Hp.
  rewrite E in *; simpl in *. destruct Hp as [Hin _].
  pose proof (track_pid_known h' pid Hin) as Ht.
  unfold history_ok. split_and!.
  - rewrite Ht. apply Hok'.
  - rewrite Ht. apply Hok'.
  - intros p Hp. rewrite Ht. by apply Hg.
  - by rewrite Ht.
Qed.

Lemma handle_set_activity_keeps k c cmd c' effs :
  conn_handshake c = true →
  handle_set_activity now_at k c cmd = Some (c', effs) →
  keeps c c' effs ∧ length (base.filter is_write effs) = 1.
Proof.
  intros Hhs. unfold handle_set_activity.
  destruct (cmd_args cmd) as [args|] eqn:Hargs.
  2:{ intros; simplify_eq. split; [apply keeps_same; by repeat constructor|done]. }
  set (cmd1 := cmd_with_application_id _ cmd). set (pid := default 0%Z (arg_pid args)).
  destruct (set_activity_response (fix_cmd (now_at k) cmd1)) as [cmd2 [response|]] eqn:Er;
    [|done].
  assert (cmd_application_id cmd2 = Some (conn_client_id c) ∧ cmd_pid cmd2 = pid)
    as [Happ Hpid].
  { unfold set_activity_response in Er. apply (f_equal fst) in Er; simpl in Er. subst cmd2.
    unfold fix_cmd. repeat rewrite !(proj1 (proj2 (map_activity_fields _ _))).
    split; [done|].
    rewrite !(proj1 (proj2 (proj2 (proj2 (map_activity_fields _ _))))).
    unfold cmd_pid, cmd1; simpl. by rewrite Hargs. }
  destruct (admit_pid (conn_published_pids c) pid) as [h' [|]] eqn:Ea;
    intros [= <- <-]; (split; [|done]).
  - intros [Hh Hc]. destruct (admit_track_ok _ _ _ Ea Hh) as (H1 & H2 & H3).
    split_and!; [by split; simpl; auto|done|]. repeat constructor; simpl.
    + exists (conn_client_id c). auto.
    + intros _. by rewrite Hpid.
  - intros [Hh Hc]. pose proof (admit_pid_perm (conn_published_pids c) pid) as Hp.
    rewrite Ea in Hp. destruct Hp as (-> & _).
    split_and!; [by split; simpl; auto|done|by repeat constructor].
Qed.

(** Every other branch of [on_frame]: nothing published, one reply. *)
Lemma reply_keeps c t : keeps c c [reply t].
Proof. apply keeps_same. by repeat constructor. Qed.

Lemma on_frame_keeps k c m c' effs b :
  on_frame k c m = Some (c', effs, b) →
  b = false ∧ keeps c c' effs ∧
  length (base.filter is_write effs) = (if conn_handshake c then 1 else 0) ∧
  (conn_handshake c = false → c' = c ∧ effs = []).
Proof.
  unfold on_frame. destruct (conn_handshake c) eqn:Hhs; simpl.
  2:{ intros; simplify_eq. split_and!; [done|by apply keeps_same|done|done]. }
  destruct (cmd_from_str m) as [cmd|].
  2:{ intros; simplify_eq. split_and!; [done|apply reply_keeps|done|done]. }
  case_decide as Hsub.
  { intros; simplify_eq. split_and!; [done|apply reply_keeps|done|done]. }
  destruct (String.eqb_spec (cmd_cmd cmd) "SET_ACTIVITY") as [|Hset].
  { destruct (handle_set_activity now_at k c cmd) as [[c1 effs1]|] eqn:E; [|done].
    intros; simplify_eq. destruct (handle_set_activity_keeps _ _ _ _ _ Hhs E). done. }
  destruct (String.eqb (cmd_cmd cmd) "GET_USER").
  { intros; simplify_eq. split_and!; [done|apply reply_keeps|done|done]. }
  destruct (String.eqb (cmd_cmd cmd) "CONNECTIONS_CALLBACK").
  { intros; simplify_eq. split_and!; [done|apply reply_keeps|done|done]. }
  case_decide as Hb.
  { intros; simplify_eq. split_and!; [done| |done|done]. intros [Hh Hc].
    split_and!; [done|done|]. repeat constructor; simpl; [|done]. eauto. }
  destruct (default _ _) as [code text].
  intros; simplify_eq. split_and!; [done|apply reply_keeps|done|done].
Qed.

(** ** One iteration *)

(** A stop that loses the connection and clears everything it covered. *)
Definition covering_stop (c c' : Conn) (effs : list effect) : Prop :=
  conn_published_pids c' = [] ∧
  ∃ pre clears, effs = pre ++ clears ∧ forallb is_write pre = true ∧
    forallb is_clear clears = true ∧ length clears ≤ S (length (conn_published_pids c)) ∧
    ∀ p, p ∈ conn_published_pids c → ∃ q, EmitClear q ∈ clears ∧ clears_pid p q.

Lemma forallb_clear_map l : forallb is_clear (map send_empty l) = true.
Proof. by induction l. Qed.

Lemma send_empty_clears p l : p ∈ l → ∃ q, EmitClear q ∈ map send_empty l ∧ clears_pid p q.
Proof.
  intros Hp. exists (empty_clear p). split; [|by repeat split; eexists].
  change (map send_empty l) with (send_empty <$> l). by apply (list_elem_of_fmap_2 send_empty).
Qed.

Lemma stop_clearing_covers c pre why c' effs why' :
  forallb is_write pre = true →
  stop_clearing c pre why = IterStop c' effs why' → why' = why ∧ covering_stop c c' effs.
Proof.
  intros Hpre. unfold stop_clearing, clear_all, clear_pids, take_published_pids.
  intros [= <- <- <-]. split; [done|]. split; [done|].
  eexists pre, _. split_and!; [done|done|apply forallb_clear_map| |].
  - rewrite length_map. case_decide; [|rewrite length_app; simpl]; lia.
  - intros p Hp. apply send_empty_clears. case_decide; [done|set_solver].
Qed.

Lemma on_close_covers c c' effs : on_close c = (c', effs) → covering_stop c c' effs.
Proof.
  unfold on_close, take_published_pids. intros [= <- <-]. split; [done|].
  eexists [], _. split_and!; [done|done|apply forallb_clear_map| |].
  - simpl. rewrite length_map. pose proof (length_filter (λ pid, pid ≠ conn_pid c)
      (conn_published_pids c)). lia.
  - intros p Hp. destruct (decide (p = conn_pid c)) as [->|Hne].
    { eexists. split; [by left|]. by repeat split; eexists. }
    destruct (send_empty_clears p (base.filter (λ pid, pid ≠ conn_pid c)
      (conn_published_pids c))) as (q & Hq & Hc); [by apply list_elem_of_filter|].
    exists q. split; [by right|done].
Qed.

Lemma iterate_cases k c input end_ :
  (∃ pre why, why ≠ HandshakeRefused ∧ why ≠ FrameRefused ∧ forallb is_write pre = true ∧
     iterate k c input end_ = stop_clearing c pre why) ∨
  (∃ t m rest, length rest < length input ∧
     iterate k c input end_ = dispatch k c t m rest).
Proof.
  unfold iterate. case_decide as H4; [left; by eexists [], ReadFailed|].
  case_decide as H8; [left; by eexists [], ReadFailed|].
  case_match; [left; by eexists [send_close _ _], TooLarge|].
  destruct (negb _ || _); [left; by eexists [], BadBody|].
  destruct (try_from_u32 _); [|left; by eexists [send_close _ _], BadType].
  right. do 3 eexists. split; [|done]. rewrite !length_drop in *. lia.
Qed.

Lemma iterate_next k c input end_ c' effs rest :
  iterate k c input end_ = IterNext c' effs rest →
  keeps c c' effs ∧ length rest < length input.
Proof.
  destruct (iterate_cases k c input end_) as
    [(pre & why & _ & _ & _ & ->)|(t & m & rest' & Hl & ->)].
  { unfold stop_clearing. by destruct (clear_all _ _). }
  destruct t; simpl.
  - destruct (on_handshake k c m) as [[[? ?] []]|] eqn:E; intros; simplify_eq.
    apply on_handshake_keeps in E as [? _]. done.
  - destruct (on_frame k c m) as [[[? ?] []]|] eqn:E; intros; simplify_eq.
    apply on_frame_keeps in E as (_ & ? & _). done.
  - by destruct (on_close c).
  - intros; simplify_eq. split; [|done]. apply keeps_same. by repeat constructor.
  - intros; simplify_eq. split; [|done]. by apply keeps_same.
Qed.

Lemma iterate_stop k c input end_ c' effs why :
  iterate k c input end_ = IterStop c' effs why →
  (why = HandshakeRefused ∧ forallb is_write effs = true) ∨
  (why ≠ HandshakeRefused ∧ why ≠ FrameRefused ∧ covering_stop c c' effs).
Proof.
  destruct (iterate_cases k c input end_) as
    [(pre & why0 & ? & ? & ? & ->)|(t & m & rest' & Hl & ->)].
  { intros [-> ?]%stop_clearing_covers; [|done]. by right. }
  destruct t; simpl; try done.
  - destruct (on_handshake k c m) as [[[? ?] []]|] eqn:E; intros; simplify_eq.
    apply on_handshake_keeps in E as [_ ?]. by left.
  - destruct (on_frame k c m) as [[[? ?] []]|] eqn:E; intros; simplify_eq.
    by apply on_frame_keeps in E as [? _].
  - destruct (on_close c) eqn:E. intros; simplify_eq.
    right. split_and!; [done..|by apply on_close_covers].
Qed.

(** The [expect] of [handle_set_activity] cannot fail. *)
Lemma handle_set_activity_total k c cmd :
  SerdeTotal → is_Some (handle_set_activity now_at k c cmd).
Proof.
  intros HT. unfold handle_set_activity.
  destruct (cmd_args cmd) as [args|] eqn:Ha; [|by eexists].
  unfold set_activity_response.
  set (cmd2 := map_activity _ (fix_cmd _ _)). cbn zeta.
  assert (is_some (cmd_args cmd2) = true) as Hs.
  { unfold cmd2, fix_cmd. rewrite !(proj2 (proj2 (proj2 (proj2 (map_activity_fields _ _))))).
    simpl. by rewrite Ha. }
  destruct (cmd_args cmd2); [|done].
  destruct (json_to_string_total (reply_value (cmd_cmd cmd2) (set_activity_data cmd2) None
    (cmd_nonce cmd2))) as [r ->].
  destruct (admit_pid _ _) as [h []]; by eexists.
Qed.

Lemma on_frame_total k c m : SerdeTotal → is_Some (on_frame k c m).
Proof.
  intros HT. unfold on_frame. destruct (conn_handshake c); [|by eexists]. simpl.
  destruct (cmd_from_str m) as [cmd|]; [|by eexists]. case_decide; [by eexists|].
  destruct (String.eqb (cmd_cmd cmd) "SET_ACTIVITY").
  { destruct (handle_set_activity_total k c cmd HT) as [[] ->]. by eexists. }
  repeat (case_match || case_decide); by eexists.
Qed.

Lemma iterate_no_panic k c input end_ :
  SerdeTotal → iterate k c input end_ ≠ IterPanic.
Proof.
  intros HT. destruct (iterate_cases k c input end_) as
    [(pre & why & _ & _ & _ & ->)|(t & m & rest' & Hl & ->)].
  { unfold stop_clearing. by destruct (clear_all _ _). }
  destruct t; simpl; try done.
  - unfold on_handshake. repeat case_match; by simplify_eq.
  - by destruct (on_frame_total k c m HT) as [[[? ?] []] ->].
Qed.

(** ** The whole connection *)

(** What holds of a stopped pump that started from a sound connection
    whose trace so far is covered. *)
Lemma pump_stop fuel k c input end_ acc c' effs why :
  conn_ok c → Forall (effect_ok c) acc →
  pump fuel k c input end_ acc = Stopped c' effs why →
  ∃ c1 pre last, conn_ok c1 ∧ Forall (effect_ok c1) pre ∧ effs = pre ++ last ∧
    ((why = HandshakeRefused ∧ forallb is_write last = true) ∨
     (why ≠ HandshakeRefused ∧ why ≠ FrameRefused ∧ covering_stop c1 c' last)).
Proof.
  revert k c input acc. induction fuel as [|fuel IH]; intros k c input acc Hc Hacc;
    simpl; [done|].
  destruct (iterate k c input end_) as [c2 effs2 why2|c2 effs2 rest|] eqn:E; [| |done].
  - intros; simplify_eq. exists c, acc, effs2. split_and!; [done..|].
    by apply iterate_stop in E.
  - apply iterate_next in E as [Hk _]. destruct (Hk Hc) as (Hc2 & Hs & He).
    apply IH; [done|]. apply Forall_app. split; [|done].
    eapply Forall_impl; [done|]. intros e. by apply effect_ok_mono.
Qed.

Lemma Conn_new_ok : conn_ok Conn_new.
Proof. split; [|done]. split; [constructor|simpl; lia]. Qed.

Lemma pump_total fuel k c input end_ acc :
  SerdeTotal → length input < fuel →
  ∃ c' effs why, pump fuel k c input end_ acc = Stopped c' effs why.
Proof.
  intros HT. revert k c input acc. induction fuel as [|fuel IH]; intros k c input acc Hl;
    [lia|]. simpl.
  destruct (iterate k c input end_) as [c2 effs2 why2|c2 effs2 rest|] eqn:E.
  - eauto.
  - apply iterate_next in E as [_ ?]. apply IH. lia.
  - by apply iterate_no_panic in E.
Qed.

(** C27: whatever bytes a peer sends and however its stream ends, the
    pump terminates: it never panics and never loops. *)
Theorem handle_stream_total c input end_ :
  SerdeTotal → ∃ c' effs why, handle_stream c input end_ = Stopped c' effs why.
Proof. intros HT. apply pump_total; [done|lia]. Qed.

(** C1: a lost connection leaves no card behind.  Unless the pump
    stopped on a refused handshake, its trace ends in clears only, at
    most 17 of them, and every presence command it forwarded, whatever
    pid it named, is covered by one of those clears. *)
Theorem disconnect_clears_every_card input end_ c effs why :
  handle_stream Conn_new input end_ = Stopped c effs why → why ≠ HandshakeRefused →
  ∃ pre clears, effs = pre ++ clears ∧
    forallb is_clear clears = true ∧ length clears ≤ 17 ∧
    existsb is_clear pre = false ∧ conn_published_pids c = [] ∧
    ∀ cmd, Emit cmd ∈ pre → cmd_cmd cmd = "SET_ACTIVITY" →
      ∃ q, EmitClear q ∈ clears ∧ clears_pid (cmd_pid cmd) q.
Proof.
  intros Hs Hwhy. apply pump_stop in Hs
    as (c1 & pre & last & Hc1 & Hpre & -> & [[-> _]|(_ & _ & Hcov)]);
    [done| |apply Conn_new_ok|done].
  destruct Hcov as (Hemp & w & clears & -> & Hw & Hcl & Hlen & Hcover).
  exists (pre ++ w), clears. rewrite app_assoc. split_and!; [done|done| | |done|].
  - destruct Hc1 as [[_ Hl] _]. unfold MAX_TRACKED_PIDS in Hl. lia.
  - by rewrite existsb_app, (covered_no_clear c1), writes_no_clear.
  - intros cmd [Hin|Hin]%elem_of_app Hset.
    + rewrite Forall_forall in Hpre. apply Hpre in Hin as [_ Hp]. by apply Hcover, Hp.
    + by apply (not_all_writes _ _ Hw) in Hin.
Qed.

(** The exception: a connection that ends because a handshake was
    refused clears nothing, even when an earlier handshake on the same
    connection already published cards. *)
Theorem refused_handshake_clears_nothing input end_ c effs :
  handle_stream Conn_new input end_ = Stopped c effs HandshakeRefused →
  existsb is_clear effs = false.
Proof.
  intros Hs. apply pump_stop in Hs
    as (c1 & pre & last & Hc1 & Hpre & -> & [[_ Hw]|(? & _)]);
    [|done|apply Conn_new_ok|done].
  by rewrite existsb_app, (covered_no_clear c1), writes_no_clear.
Qed.

(** What reaches the bridge from a connection always carries the
    non-empty application id of an accepted handshake. *)
Theorem emitted_commands_identified input end_ c effs why cmd :
  handle_stream Conn_new input end_ = Stopped c effs why →
  Emit cmd ∈ effs → ∃ id, cmd_application_id cmd = Some id ∧ id ≠ "".
Proof.
  intros Hs Hin. apply pump_stop in Hs
    as (c1 & pre & last & Hc1 & Hpre & -> & Hlast); [|apply Conn_new_ok|done].
  apply elem_of_app in Hin as [Hin|Hin].
  { rewrite Forall_forall in Hpre. by apply Hpre in Hin as [? _]. }
  exfalso. destruct Hlast as [[_ Hw]|(_ & _ & _ & w & cl & -> & Hw & Hcl & _)].
  - by apply (not_all_writes _ _ Hw) in Hin.
  - apply elem_of_app in Hin as [Hin|Hin]; [by apply (not_all_writes _ _ Hw) in Hin|].
    apply list_elem_of_In in Hin. rewrite forallb_forall in Hcl. by apply Hcl in Hin.
Qed.

(** ** Packets *)

(** The protocol at packet level: no bytes, no lengths. *)
Fixpoint packet_run (k : nat) (c : Conn) (ps : list (PacketType * string))
    (acc : list effect) : outcome :=
  match ps with
  | [] =>
      let '(c', effs) := clear_all c (conn_pid c) in Stopped c' (acc ++ effs) ReadFailed
  | (t, m) :: ps =>
      match dispatch k c t m [] with
      | IterStop c effs why => Stopped c (acc ++ effs) why
      | IterNext c effs _ => packet_run (S k) c ps (acc ++ effs)
      | IterPanic => Panicked
      end
  end.

Definition packet_bytes (p : PacketType * string) : list byte := encode p.1 p.2.

Lemma packet_bytes_length p : 8 ≤ length (packet_bytes p).
Proof.
  unfold packet_bytes, encode. rewrite !length_app, !length_le_split. lia.
Qed.

Lemma dispatch_rest k c t m rest :
  dispatch k c t m rest =
  match dispatch k c t m [] with IterNext c effs _ => IterNext c effs rest | i => i end.
Proof.
  destruct t; simpl; [| | | |done].
  - by destruct (on_handshake k c m) as [[[? ?] []]|].
  - by destruct (on_frame k c m) as [[[? ?] []]|].
  - by destruct (on_close c).
  - done.
Qed.

Lemma pump_packets ps : ∀ fuel k c acc,
  Forall (λ p, frame_body p.2) ps → length (concat (map packet_bytes ps)) < fuel →
  pump fuel k c (concat (map packet_bytes ps)) Eof acc = packet_run k c ps acc.
Proof.
  induction ps as [|[t m] ps IH]; intros [|fuel] k c acc Hb Hf; [lia|done|lia|].
  apply Forall_cons in Hb as [Hm Hb]. simpl in Hm.
  pose proof (packet_bytes_length (t, m)).
  cbn [map concat] in *. rewrite length_app in Hf.
  cbn [IpcFrame.pump]. unfold packet_bytes at 1; cbn [fst snd].
  rewrite encode_iterate by done. cbn [packet_run].
  rewrite dispatch_rest. destruct (dispatch k c t m []); [done| |done].
  apply IH; [done|lia].
Qed.

(** C13: framing is transparent: on the bytes of any packet sequence
    whose bodies are valid text within the 1 MiB cap, [handle_stream]
    does exactly what the packet-level protocol does. *)
Theorem stream_refines_packets c ps :
  Forall (λ p, frame_body p.2) ps →
  handle_stream c (concat (map packet_bytes ps)) Eof = packet_run 0 c ps [].
Proof. intros Hb. apply pump_packets; [done|lia]. Qed.

Lemma on_frame_handshake k c m c' effs b :
  on_frame k c m = Some (c', effs, b) → conn_handshake c' = conn_handshake c.
Proof.
  unfold on_frame, handle_set_activity. intros Hf.
  repeat first [done | discriminate Hf | progress simplify_eq/= | case_match].
Qed.

Lemma filter_writes_clears l : base.filter is_write (map send_empty l) = [].
Proof. induction l as [|p l IH]; [done|]. exact IH. Qed.

Lemma packet_run_frames ms : ∀ k c acc, SerdeTotal → conn_handshake c = true →
  ∃ c' effs, packet_run k c (map (pair Frame) ms) acc = Stopped c' effs ReadFailed ∧
    length (base.filter is_write effs) = length (base.filter is_write acc) + length ms.
Proof.
  induction ms as [|m ms IH]; intros k c acc HT Hhs; simpl.
  - unfold clear_all. destruct (clear_pids c (conn_pid c)) as [c' pids].
    do 2 eexists. split; [done|]. rewrite filter_app, filter_writes_clears, app_nil_r. lia.
  - destruct (on_frame_total k c m HT) as [[[c' effs] b] E]. rewrite E.
    destruct (on_frame_keeps _ _ _ _ _ _ E) as (-> & _ & Hn & _). rewrite Hhs in Hn.
    pose proof (on_frame_handshake _ _ _ _ _ _ E) as Hhs'.
    destruct (IH (S k) c' (acc ++ effs) HT ltac:(congruence)) as (c2 & effs2 & -> & Hl).
    do 2 eexists. split; [done|]. rewrite Hl, filter_app, length_app. lia.
Qed.

(** Lock-step: after a handshake, however the frames read (known,
    unknown, malformed, refused), each gets exactly one reply and the
    connection survives to the end of the stream. *)
Theorem frames_answered_once c ms :
  SerdeTotal → conn_handshake c = true → Forall frame_body ms →
  ∃ c' effs,
    handle_stream c (concat (map (encode Frame) ms)) Eof = Stopped c' effs ReadFailed ∧
    length (base.filter is_write effs) = length ms.
Proof.
  intros HT Hhs Hb. destruct (packet_run_frames ms 0 c [] HT Hhs) as (c' & effs & E & Hl).
  exists c', effs. split; [|done]. rewrite <-E, <-(pump_packets _ (S (length
    (concat (map packet_bytes (map (pair Frame) ms)))))); [| |lia].
  - unfold handle_stream. by rewrite map_map.
  - apply Forall_map. eapply Forall_impl; [done|]. done.
Qed.
End Handlers.

(** ** Concrete runs *)

Module IpcDemo.
(** A parser that reads four fixed bodies. *)
Definition parse : IpcParse := {|
  cmd_from_str := λ s, if String.eqb s "set" then Some demo_cmd else None;
  handshake_from_str := λ s,
    if String.eqb s "hello" then Some {| hs_v := 1; hs_client_id := "42" |}
    else if String.eqb s "v9" then Some {| hs_v := 9; hs_client_id := "42" |}
    else None
|}.

Definition run (ps : list (PacketType * string)) (c : Conn) : outcome :=
  @handle_stream demo_serde parse (λ _, RpcUser_default) (λ _, 1700000000%Z) c
    (concat (map packet_bytes ps)) Eof.

Definition outcome_effects (o : outcome) : list effect :=
  match o with Stopped _ effs _ => effs | _ => [] end.
Definition outcome_conn (o : outcome) : Conn :=
  match o with Stopped c _ _ => c | _ => Conn_new end.
Definition outcome_why (o : outcome) : stop_reason :=
  match o with Stopped _ _ why => why | _ => FrameRefused end.
Definition the_emit (effs : list effect) : ActivityCmd :=
  default ActivityCmd_empty
    (find_map (λ e, match e with Emit c => Some c | _ => None end) effs).

(** Handshake, one presence, then the stream ends. *)
Definition session := [(Handshake, "hello"); (Frame, "set")].
(** Handshake, one presence, then a second handshake that is refused. *)
Definition refused := [(Handshake, "hello"); (Frame, "set"); (Handshake, "v9")].
Definition connected : Conn := {|
  conn_handshake := true; conn_client_id := "42"; conn_pid := 0;
  conn_nonce := VNull; conn_published_pids := [] |}.
End IpcDemo.

Lemma handle_stream_total_witness :
  ∃ c' effs why, IpcDemo.run IpcDemo.session Conn_new = Stopped c' effs why.
Proof. apply handle_stream_total. exact demo_serde_total. Defined.

Lemma disconnect_clears_every_card_witness :
  ∃ pre clears, IpcDemo.outcome_effects (IpcDemo.run IpcDemo.session Conn_new) = pre ++ clears ∧
    forallb is_clear clears = true ∧ length clears ≤ 17 ∧ existsb is_clear pre = false ∧
    conn_published_pids (IpcDemo.outcome_conn (IpcDemo.run IpcDemo.session Conn_new)) = [] ∧
    ∀ cmd, Emit cmd ∈ pre → cmd_cmd cmd = "SET_ACTIVITY" →
      ∃ q, EmitClear q ∈ clears ∧ clears_pid (cmd_pid cmd) q.
Proof.
  apply (@disconnect_clears_every_card demo_serde IpcDemo.parse (λ _, RpcUser_default)
    (λ _, 1700000000%Z) (concat (map packet_bytes IpcDemo.session)) Eof _ _ ReadFailed).
  - vm_compute. reflexivity.
  - discriminate.
Defined.

(** The finding: a presence is forwarded and no clear follows. *)
Lemma refused_handshake_clears_nothing_witness :
  let effs := IpcDemo.outcome_effects (IpcDemo.run IpcDemo.refused Conn_new) in
  existsb is_clear effs = false ∧
  cmd_cmd (IpcDemo.the_emit effs) = "SET_ACTIVITY" ∧ cmd_pid (IpcDemo.the_emit effs) = 77%Z.
Proof.
  split; [|vm_compute; split; reflexivity].
  apply (@refused_handshake_clears_nothing demo_serde IpcDemo.parse (λ _, RpcUser_default)
    (λ _, 1700000000%Z) (concat (map packet_bytes IpcDemo.refused)) Eof
    (IpcDemo.outcome_conn (IpcDemo.run IpcDemo.refused Conn_new))).
  vm_compute. reflexivity.
Defined.

Lemma emitted_commands_identified_witness :
  let effs := IpcDemo.outcome_effects (IpcDemo.run IpcDemo.session Conn_new) in
  ∃ id, cmd_application_id (IpcDemo.the_emit effs) = Some id ∧ id ≠ "".
Proof.
  apply (@emitted_commands_identified demo_serde IpcDemo.parse (λ _, RpcUser_default)
    (λ _, 1700000000%Z) (concat (map packet_bytes IpcDemo.session)) Eof
    (IpcDemo.outcome_conn (IpcDemo.run IpcDemo.session Conn_new))
    (IpcDemo.outcome_effects (IpcDemo.run IpcDemo.session Conn_new)) ReadFailed).
  - vm_compute. reflexivity.
  - vm_compute. right. left.
Defined.

Lemma stream_refines_packets_witness :
  IpcDemo.run IpcDemo.session Conn_new
  = @packet_run demo_serde IpcDemo.parse (λ _, RpcUser_default) (λ _, 1700000000%Z)
      0 Conn_new IpcDemo.session [].
Proof.
  apply stream_refines_packets.
  repeat constructor; vm_compute; discriminate.
Defined.

Lemma frames_answered_once_witness :
  ∃ c' effs,
    @handle_stream demo_serde IpcDemo.parse (λ _, RpcUser_default) (λ _, 1700000000%Z)
      IpcDemo.connected (concat (map (encode Frame) ["set"; "garbage"])) Eof
    = Stopped c' effs ReadFailed ∧
    length (base.filter is_write effs) = 2.
Proof.
  apply (@frames_answered_once demo_serde IpcDemo.parse (λ _, RpcUser_default)
    (λ _, 1700000000%Z) IpcDemo.connected ["set"; "garbage"]).
  - exact demo_serde_total.
  - reflexivity.
  - repeat constructor; vm_compute; discriminate.
Defined.
