(* ===== verification/IpcSink.v ===== *)
(** * The IPC event sink (crates/rsrpc-transport-ipc/src/sink.rs)

    The bounded queue between the connections and the bridge.  [emit]
    sheds at once; [emit_clear] retries for up to 250 ms.  What the bridge
    does to the queue between two attempts, and the clock at each
    deadline check, are parameters of the run. *)

From stdpp Require Import base list numbers.
From S2P Require Import Prelude Cmd.

Local Open Scope nat_scope.
Local Open Scope list_scope.

Definition DEFAULT_IPC_QUEUE : nat := 64.
(** 250 ms and 1 ms, in nanoseconds. *)
Definition CLEAR_SEND_TIMEOUT : Z := 250000000.
Definition RETRY_SLEEP : Z := 1000000.

(** [EventSink] with the queue behind it. *)
Record EventSink := {
  sink_queue : list ActivityCmd;
  sink_capacity : nat;
  sink_closed : bool;
  sink_dropped : Z
}.

(** [EventSink::bounded]; a zero capacity panics. *)
Definition bounded (capacity : nat) : option EventSink :=
  if decide (capacity = 0) then None
  else Some {| sink_queue := []; sink_capacity := capacity; sink_closed := false;
               sink_dropped := 0 |}.

(** [mpsc::Sender::try_send]. *)
Inductive sent := SendOk (s : EventSink) | SendFull | SendClosed.

Definition sink_try_send (s : EventSink) (cmd : ActivityCmd) : sent :=
  if sink_closed s then SendClosed
  else if decide (sink_capacity s ≤ length (sink_queue s)) then SendFull
  else SendOk {| sink_queue := sink_queue s ++ [cmd]; sink_capacity := sink_capacity s;
                 sink_closed := sink_closed s; sink_dropped := sink_dropped s |}.

(** [dropped.fetch_add(1)]. *)
Definition sink_drop (s : EventSink) : EventSink := {|
  sink_queue := sink_queue s; sink_capacity := sink_capacity s; sink_closed := sink_closed s;
  sink_dropped := wrap_u64 (sink_dropped s + 1) |}.

(** [emit]. *)
Definition emit (s : EventSink) (cmd : ActivityCmd) : EventSink :=
  match sink_try_send s cmd with SendOk s => s | _ => sink_drop s end.

Section EmitClear.
(** What the rest of the program does to the sink before attempt [k]. *)
Variable others : nat → EventSink → EventSink.
(** The monotonic clock at the deadline check of attempt [k]. *)
Variable clock : nat → Z.

(** The loop of [emit_clear] from attempt [k]; [None] is out of fuel. *)
Fixpoint emit_clear_loop (fuel k : nat) (deadline : Z) (s : EventSink) (cmd : ActivityCmd)
    : option EventSink :=
  match fuel with
  | 0 => None
  | S fuel =>
      let s := others k s in
      match sink_try_send s cmd with
      | SendOk s => Some s
      | SendClosed => Some (sink_drop s)
      | SendFull =>
          if (deadline <=? clock k)%Z then Some (sink_drop s)
          else emit_clear_loop fuel (S k) deadline s cmd
      end
  end.

(** Attempts are at least a millisecond apart, so the 251st is past the
    deadline. *)
Definition CLEAR_ATTEMPTS : nat := 251.

Definition emit_clear (start : Z) (s : EventSink) (cmd : ActivityCmd) : option EventSink :=
  emit_clear_loop CLEAR_ATTEMPTS 0 (start + CLEAR_SEND_TIMEOUT) s cmd.

(** The sink just before attempt [k], while every earlier one found it
    full. *)
Fixpoint before_attempt (k : nat) (s : EventSink) : EventSink :=
  match k with
  | 0 => others 0 s
  | S k => others (S k) (before_attempt k s)
  end.

Definition full (s : EventSink) : Prop :=
  sink_closed s = false ∧ sink_capacity s ≤ length (sink_queue s).

Lemma try_send_full s cmd : full s → sink_try_send s cmd = SendFull.
Proof. intros [Hc Hl]. unfold sink_try_send. rewrite Hc. by rewrite decide_True. Qed.

(** Skipping attempts that found the queue full before the deadline. *)
Lemma emit_clear_skip cmd deadline s k : ∀ fuel,
  (∀ j, j < k → full (before_attempt j s) ∧ (clock j < deadline)%Z) →
  emit_clear_loop (k + S fuel) 0 deadline s cmd
  = match sink_try_send (before_attempt k s) cmd with
    | SendOk s' => Some s'
    | SendClosed => Some (sink_drop (before_attempt k s))
    | SendFull =>
        if (deadline <=? clock k)%Z then Some (sink_drop (before_attempt k s))
        else emit_clear_loop fuel (S k) deadline (before_attempt k s) cmd
    end.
Proof.
  induction k as [|k IH]; intros fuel Hk; [done|].
  replace (S k + S fuel) with (k + S (S fuel)) by lia.
  rewrite IH by (intros; apply Hk; lia).
  destruct (Hk k) as [Hf Ht]; [lia|]. rewrite (try_send_full _ _ Hf).
  destruct (Z.leb_spec deadline (clock k)); [lia|]. done.
Qed.

(** A clear waits for room: if the queue is full at first and the
    bridge makes room before attempt [k], within the 250 ms, the clear
    is queued and nothing is counted as dropped. *)
Theorem emit_clear_waits start s cmd k :
  k < CLEAR_ATTEMPTS →
  (∀ j, j < k → full (before_attempt j s) ∧ (clock j < start + CLEAR_SEND_TIMEOUT)%Z) →
  sink_closed (before_attempt k s) = false →
  length (sink_queue (before_attempt k s)) < sink_capacity (before_attempt k s) →
  ∃ s', emit_clear start s cmd = Some s' ∧
    sink_queue s' = sink_queue (before_attempt k s) ++ [cmd] ∧
    sink_dropped s' = sink_dropped (before_attempt k s).
Proof.
  intros Hk Hfull Hc Hl. unfold emit_clear.
  replace CLEAR_ATTEMPTS with (k + S (CLEAR_ATTEMPTS - S k)) by lia.
  rewrite emit_clear_skip by done. unfold sink_try_send. rewrite Hc.
  rewrite decide_False by lia. by eexists.
Qed.

(** The loop returns once some deadline check within the fuel is late;
    then the command is at the end of the queue or was dropped. *)
Lemma emit_clear_loop_returns fuel deadline s cmd :
  (∃ j, j < fuel ∧ (deadline ≤ clock j)%Z) →
  ∃ k s', k < fuel ∧ emit_clear_loop fuel 0 deadline s cmd = Some s' ∧
    (let b := before_attempt k s in
     (sink_queue s' = sink_queue b ++ [cmd] ∧ sink_dropped s' = sink_dropped b) ∨
     s' = sink_drop b).
Proof.
  intros (j & Hj & Hlate).
  (* the first attempt that does not just find the queue full *)
  assert (∀ n, n ≤ fuel → (∃ k, k < n ∧
      (∀ j, j < k → full (before_attempt j s) ∧ (clock j < deadline)%Z) ∧
      ¬ (full (before_attempt k s) ∧ (clock k < deadline)%Z)) ∨
    (∀ j, j < n → full (before_attempt j s) ∧ (clock j < deadline)%Z)) as Hsearch.
  { intros n. induction n as [|n IH]; intros Hn; [right; lia|].
    destruct (IH ltac:(lia)) as [(k & ? & ?)|Hall]; [left; exists k; split; [lia|done]|].
    destruct (decide (sink_closed (before_attempt n s) = false ∧
      sink_capacity (before_attempt n s) ≤ length (sink_queue (before_attempt n s)) ∧
      (clock n < deadline)%Z)) as [Hd|Hd].
    - right. intros i Hi. destruct (decide (i = n)) as [->|]; [|apply Hall; lia].
      unfold full. tauto.
    - left. exists n. split; [lia|]. split; [done|]. unfold full. tauto. }
  destruct (Hsearch fuel ltac:(lia)) as [(k & Hk & Hpre & Hstop)|Hall].
  - exists k. pose proof (emit_clear_skip cmd _ s k (fuel - S k) Hpre) as E.
    replace (k + S (fuel - S k)) with fuel in E by lia.
    rewrite E. unfold sink_try_send.
    destruct (sink_closed (before_attempt k s)) eqn:Ec; [eexists; split_and!; [done..|by right]|].
    case_decide as Hl; [|eexists; split_and!; [done..|by left]].
    destruct (Z.leb_spec deadline (clock k)); [eexists; split_and!; [done..|by right]|].
    exfalso. apply Hstop. unfold full. tauto.
  - exfalso. destruct (Hall j Hj) as [_ Hlt]. lia.
Qed.

(** A clear never parks its connection: with attempts at least a
    millisecond apart it returns within 251 of them, and then either the
    clear is at the end of the queue or exactly one drop was counted. *)
Theorem emit_clear_returns start s cmd :
  (∀ k, start + Z.of_nat k * RETRY_SLEEP ≤ clock k)%Z →
  ∃ k s', k < CLEAR_ATTEMPTS ∧ emit_clear start s cmd = Some s' ∧
    (let b := before_attempt k s in
     (sink_queue s' = sink_queue b ++ [cmd] ∧ sink_dropped s' = sink_dropped b) ∨
     s' = sink_drop b).
Proof.
  intros Hclk. unfold emit_clear. apply emit_clear_loop_returns. exists 250.
  specialize (Hclk 250). unfold CLEAR_ATTEMPTS, RETRY_SLEEP, CLEAR_SEND_TIMEOUT in *. lia.
Qed.
End EmitClear.

(** ** Witnesses *)

(** Another task takes one command before the second attempt. *)
Definition drain_once (k : nat) (s : EventSink) : EventSink :=
  match k with
  | 1 => {| sink_queue := tail (sink_queue s); sink_capacity := sink_capacity s;
            sink_closed := sink_closed s; sink_dropped := sink_dropped s |}
  | _ => s
  end.

Definition full_sink : EventSink := {|
  sink_queue := [ActivityCmd_empty]; sink_capacity := 1; sink_closed := false;
  sink_dropped := 0 |}.

Lemma emit_clear_waits_witness :
  ∃ s', emit_clear drain_once (λ k, Z.of_nat k * RETRY_SLEEP)%Z 0 full_sink ActivityCmd_empty
        = Some s' ∧ sink_queue s' = [ActivityCmd_empty] ∧ sink_dropped s' = 0%Z.
Proof.
  apply (emit_clear_waits drain_once (λ k, Z.of_nat k * RETRY_SLEEP)%Z 0 full_sink
    ActivityCmd_empty 1).
  - unfold CLEAR_ATTEMPTS. lia.
  - intros [|j] Hj; [|lia]. split; [split; simpl; [reflexivity|lia]|reflexivity].
  - reflexivity.
  - simpl. lia.
Defined.

Lemma emit_clear_returns_witness :
  ∃ k s', k < CLEAR_ATTEMPTS ∧
    emit_clear (λ _ s, s) (λ k, Z.of_nat k * RETRY_SLEEP)%Z 0 full_sink ActivityCmd_empty
    = Some s' ∧
    (let b := before_attempt (λ _ s, s) k full_sink in
     (sink_queue s' = sink_queue b ++ [ActivityCmd_empty] ∧ sink_dropped s' = sink_dropped b) ∨
     s' = sink_drop b).
Proof.
  apply (emit_clear_returns (λ _ s, s) (λ k, Z.of_nat k * RETRY_SLEEP)%Z 0 full_sink
    ActivityCmd_empty).
  intros k. lia.
Defined.
