(* ===== verification/Handoff.v ===== *)
(** * IPC-wins handoff (crates/rsrpc-bridge/src/handoff.rs)

    Which side owns an application's slot: a live SDK connection
    ([live_ipc], application id to owner pid) or generic process
    detection ([last_scans], what the scanner last reported).  The
    operating system's liveness probe is a parameter; the [HashMap] order
    comes from [HashOrder]. *)

From stdpp Require Import base gmap strings list fin_maps sets.
From S2P Require Import Prelude RStr HashMaps Ids.

Local Open Scope string_scope.
Local Open Scope nat_scope.
Local Open Scope list_scope.

(** ** Data *)

Record ScannedGame := {
  sg_id : AppId;
  sg_name : string;
  sg_pid : Z;
  sg_start : Z;
  sg_source : DetectSource;
  sg_process_start_ms : option Z
}.

Inductive ProcInput :=
  | Detected (game : ScannedGame)
  | Removed (app_id : AppId) (pid : Z)
  | Cleared.

Definition MAX_HANDOFF_ENTRIES : nat := 64.

(** [ClearReason], log attribution only. *)
Inductive ClearReason := SdkClear | AbruptClose | ProcessVanished | ScanAbsent | Yielded.

Definition ClearReason_as_str (r : ClearReason) : string :=
  match r with
  | SdkClear => "sdk-clear"
  | AbruptClose => "abrupt-close"
  | ProcessVanished => "process-vanished"
  | ScanAbsent => "scan-absent"
  | Yielded => "yielded"
  end.

Record HandoffState := {
  live_ipc : gmap AppId Z;
  last_scans : gmap AppId ScannedGame
}.

Definition HandoffState_default : HandoffState :=
  {| live_ipc := ∅; last_scans := ∅ |}.

Section Operations.
Context `{HashOrder}.
(** [/proc/<pid>] exists ([kill(pid, 0)], [OpenProcess] elsewhere). *)
Variable probe : Z → bool.

(** [is_process_alive]: pid 0 is never alive. *)
Definition is_process_alive (pid : Z) : bool :=
  if (pid =? 0)%Z then false else probe pid.

Definition note_publish (h : HandoffState) (app_id : AppId) (pid : Z) : HandoffState :=
  {| live_ipc := bounded_insert MAX_HANDOFF_ENTRIES is_process_alive app_id pid (live_ipc h);
     last_scans := last_scans h |}.

Definition note_clear (h : HandoffState) (app_id : AppId) (pid : Z) : HandoffState * bool :=
  if opt_any (Z.eqb pid) (live_ipc h !! app_id) then
    ({| live_ipc := delete app_id (live_ipc h); last_scans := last_scans h |}, true)
  else (h, false).

Definition note_remove (h : HandoffState) (app_id : AppId) (pid : Z)
    : HandoffState * option ScannedGame :=
  if opt_any (λ known, (sg_pid known =? pid)%Z) (last_scans h !! app_id) then
    ({| live_ipc := live_ipc h; last_scans := delete app_id (last_scans h) |},
     last_scans h !! app_id)
  else (h, None).

Definition note_scan (h : HandoffState) (game : option ScannedGame) : HandoffState :=
  match game with
  | Some game =>
      {| live_ipc := live_ipc h;
         last_scans := bounded_insert MAX_HANDOFF_ENTRIES
           (λ known, is_process_alive (sg_pid known)) (sg_id game) game (last_scans h) |}
  | None => {| live_ipc := live_ipc h; last_scans := ∅ |}
  end.

(** [note_clear_pid]: [extract_if] visits the map in its own order. *)
Definition note_clear_pid (h : HandoffState) (pid : Z) : HandoffState * list AppId :=
  let released := base.filter (λ kv, kv.2 = pid) (hm_iter (live_ipc h)) in
  ({| live_ipc := filter (λ kv, kv.2 ≠ pid) (live_ipc h); last_scans := last_scans h |},
   released.*1).

Definition is_suppressed (h : HandoffState) (app_id : AppId) : bool :=
  is_some (live_ipc h !! app_id).

Definition owner_of (h : HandoffState) (app_id : AppId) : option Z := live_ipc h !! app_id.

Definition resume_for (h : HandoffState) (app_id : AppId) : option ScannedGame :=
  last_scans h !! app_id.

(** [track_process_publication]. *)
Definition track_process_publication (map : gmap AppId Z) (app_id : AppId) (pid : Z)
    : gmap AppId Z :=
  bounded_insert MAX_HANDOFF_ENTRIES is_process_alive app_id pid map.

(** ** Bounds and well-formedness *)

(** Every remembered scan sits under its own application id, and both
    tables respect the cap. *)
Record handoff_ok (h : HandoffState) : Prop := {
  ho_live : size (live_ipc h) ≤ MAX_HANDOFF_ENTRIES;
  ho_scans : size (last_scans h) ≤ MAX_HANDOFF_ENTRIES;
  ho_key : ∀ app game, last_scans h !! app = Some game → sg_id game = app
}.

Lemma handoff_default_ok : handoff_ok HandoffState_default.
Proof. split; simpl; [rewrite map_size_empty; lia..|done]. Qed.

Lemma note_publish_ok h app pid : handoff_ok h → handoff_ok (note_publish h app pid).
Proof. intros []. split; simpl; [apply bounded_insert_size|done|done]. Qed.

Lemma note_clear_ok h app pid : handoff_ok h → handoff_ok (note_clear h app pid).1.
Proof.
  intros [Hl Hs Hk]. unfold note_clear. case_match; [|done]. split; simpl; [|done|done].
  etrans; [apply map_subseteq_size, delete_subseteq|done].
Qed.

Lemma note_remove_ok h app pid : handoff_ok h → handoff_ok (note_remove h app pid).1.
Proof.
  intros [Hl Hs Hk]. unfold note_remove. case_match; [|done]. split; simpl; [done| |].
  - etrans; [apply map_subseteq_size, delete_subseteq|done].
  - intros a g [_ ?]%lookup_delete_Some. by apply Hk.
Qed.

Lemma note_scan_ok h game : handoff_ok h → handoff_ok (note_scan h game).
Proof.
  intros [Hl Hs Hk]. destruct game as [game|]; split; simpl; try done.
  - apply bounded_insert_size.
  - intros a g [[-> ->]|[_ Hg]]%bounded_insert_lookup; [done|by apply Hk].
  - rewrite map_size_empty. lia.
Qed.

Lemma note_clear_pid_ok h pid : handoff_ok h → handoff_ok (note_clear_pid h pid).1.
Proof.
  intros [Hl Hs Hk]. split; simpl; [|done|done].
  etrans; [apply map_subseteq_size, map_filter_subseteq|done].
Qed.

(** [note_clear_pid] releases exactly the slots of [pid]. *)
Lemma note_clear_pid_spec h pid app :
  app ∈ (note_clear_pid h pid).2 ↔ live_ipc h !! app = Some pid.
Proof.
  unfold note_clear_pid; simpl. rewrite list_elem_of_fmap. split.
  - intros ([a p] & -> & [? Hin]%list_elem_of_filter). simpl in *. subst.
    by apply hm_iter_elem.
  - intros Hl. exists (app, pid). split; [done|]. apply list_elem_of_filter.
    split; [done|]. by apply hm_iter_elem.
Qed.

(** ** Refinement: last publisher wins *)

(** What the module promises, without caps, probes or orders: a slot
    belongs to its last publisher until that pid lets go of it. *)
Inductive slot_event :=
  | Publish (app : AppId) (pid : Z)
  | Clear (app : AppId) (pid : Z)
  | AbruptlyClosed (pid : Z).

Definition spec_owner (app : AppId) (owner : option Z) (e : slot_event) : option Z :=
  match e with
  | Publish a pid => if String.eqb a app then Some pid else owner
  | Clear a pid => if String.eqb a app && opt_any (Z.eqb pid) owner then None else owner
  | AbruptlyClosed pid => if opt_any (Z.eqb pid) owner then None else owner
  end.

Definition slot_step (h : HandoffState) (e : slot_event) : HandoffState :=
  match e with
  | Publish app pid => note_publish h app pid
  | Clear app pid => (note_clear h app pid).1
  | AbruptlyClosed pid => (note_clear_pid h pid).1
  end.

(** Applications a history publishes. *)
Definition published_apps (es : list slot_event) : gset AppId :=
  list_to_set (omap (λ e, match e with Publish a _ => Some a | _ => None end) es).

Lemma slot_step_owner h e app :
  size (live_ipc h) < MAX_HANDOFF_ENTRIES →
  live_ipc (slot_step h e) !! app = spec_owner app (live_ipc h !! app) e.
Proof.
  intros Hs. destruct e as [a pid|a pid|pid]; simpl.
  - rewrite bounded_insert_room by done.
    destruct (String.eqb_spec a app) as [->|]; [by rewrite lookup_insert_eq|].
    by rewrite lookup_insert_ne.
  - unfold note_clear. destruct (String.eqb_spec a app) as [->|Hne]; simpl.
    + destruct (opt_any _ _); simpl; [by rewrite lookup_delete_eq|done].
    + destruct (opt_any _ _); simpl; [by rewrite lookup_delete_ne|done].
  - rewrite map_lookup_filter. destruct (live_ipc h !! app) as [p|]; simpl; [|done].
    destruct (Z.eqb_spec pid p) as [->|]; [by rewrite option_guard_False by naive_solver|].
    by rewrite option_guard_True by (simpl; congruence).
Qed.

Lemma slot_step_dom h e (apps : gset AppId) :
  dom (live_ipc h) ⊆ apps → published_apps [e] ⊆ apps →
  dom (live_ipc (slot_step h e)) ⊆ apps.
Proof.
  intros Hd He a [p Hp]%elem_of_dom. destruct e as [b pid|b pid|pid]; simpl in *.
  - apply bounded_insert_lookup in Hp as [[-> _]|[_ Hp]]; [set_solver|].
    apply Hd, elem_of_dom. eauto.
  - unfold note_clear in Hp. destruct (opt_any _ _); simpl in Hp.
    + apply lookup_delete_Some in Hp as [_ Hp]. apply Hd, elem_of_dom. eauto.
    + apply Hd, elem_of_dom. eauto.
  - apply map_lookup_filter_Some in Hp as [Hp _]. apply Hd, elem_of_dom. eauto.
Qed.

Lemma handoff_refines es : ∀ h (apps : gset AppId),
  dom (live_ipc h) ⊆ apps → published_apps es ⊆ apps → size apps < MAX_HANDOFF_ENTRIES →
  ∀ app, live_ipc (foldl slot_step h es) !! app
         = foldl (spec_owner app) (live_ipc h !! app) es.
Proof.
  induction es as [|e es IH]; intros h apps Hd He Hs app; [done|]. simpl.
  assert (published_apps [e] ⊆ apps ∧ published_apps es ⊆ apps) as [He1 He2].
  { unfold published_apps in *. csimpl in *. destruct e; set_solver. }
  rewrite (IH _ apps); [|by apply slot_step_dom|done|done].
  rewrite slot_step_owner; [done|]. eapply Nat.le_lt_trans; [|exact Hs].
  rewrite <-size_dom. by apply subseteq_size.
Qed.

(** C12: last publisher wins: while fewer than 64 applications publish,
    whatever the interleaving of publishes, clears and abrupt closes of
    any number of connections, the owner the table reports for each
    application is the one the contract names, dead owners included. *)
Theorem handoff_last_publisher_wins es app :
  size (published_apps es) < MAX_HANDOFF_ENTRIES →
  owner_of (foldl slot_step HandoffState_default es) app = foldl (spec_owner app) None es.
Proof.
  intros Hs. unfold owner_of. rewrite (handoff_refines es _ (published_apps es)); simpl;
    [by rewrite lookup_empty|set_solver|done|done].
Qed.
End Operations.

Lemma handoff_last_publisher_wins_witness :
  let es := [Publish "game" 10; Publish "game" 20; Clear "game" 10; AbruptlyClosed 30] in
  size (published_apps es) < MAX_HANDOFF_ENTRIES ∧
  @owner_of (foldl (@slot_step default_order (λ _, false)) HandoffState_default es) "game"
  = Some 20%Z.
Proof.
  cbv zeta. split; [vm_compute; lia|].
  apply (@handoff_last_publisher_wins default_order (λ _, false)
    [Publish "game" 10; Publish "game" 20; Clear "game" 10; AbruptlyClosed 30] "game").
  vm_compute. lia.
Defined.
