(* ===== verification/Replay.v ===== *)
(** * The replay cache (crates/rsrpc-bridge/src/replay.rs)

    Last payload per socket id, stamped with a sequence number; eviction
    drops the oldest stamp first. *)

From stdpp Require Import base gmap strings list fin_maps sets.
From S2P Require Import Prelude RStr HashMaps Json Ids Protocol.

Local Open Scope string_scope.
Local Open Scope nat_scope.
Local Open Scope list_scope.

Definition MAX_CACHED_ACTIVITIES : nat := 50.

(** [ReplayCache]: socket id to (payload, sequence). *)
Abbreviation ReplayCache := (gmap string (CachedActivity * Z)) (only parsing).

(** [Iterator::min_by_key]: the first of the smallest. *)
Fixpoint min_by_key {A} (f : A → Z) (l : list A) : option A :=
  match l with
  | [] => None
  | a :: l =>
      match min_by_key f l with
      | Some b => Some (if (f a <=? f b)%Z then a else b)
      | None => Some a
      end
  end.

Lemma min_by_key_Some {A} (f : A → Z) l a :
  min_by_key f l = Some a → a ∈ l ∧ ∀ b, b ∈ l → (f a ≤ f b)%Z.
Proof.
  revert a. induction l as [|x l IH]; intros a; simpl; [done|].
  destruct (min_by_key f l) as [m|] eqn:E.
  - destruct (IH m eq_refl) as [Hm Hle]. intros; simplify_eq.
    destruct (Z.leb_spec (f x) (f m)).
    + split; [by left|]. intros b [->|Hb]%elem_of_cons; [done|]. specialize (Hle b Hb). lia.
    + split; [by right|]. intros b [->|Hb]%elem_of_cons; [lia|]. auto.
  - intros; simplify_eq. split; [by left|]. intros b [->|Hb]%elem_of_cons; [done|].
    destruct l; [by apply not_elem_of_nil in Hb|]. simpl in E. by case_match.
Qed.

Lemma min_by_key_None {A} (f : A → Z) l : min_by_key f l = None → l = [].
Proof. destruct l; [done|]. simpl. by case_match. Qed.

(** [payload.pid], else a numeric non-zero socket id. *)
Definition cache_entry_pid (socket_id : SocketId) (payload : CachedActivity) : option Z :=
  if negb (ca_pid payload =? 0)%Z then Some (ca_pid payload)
  else match parse_u64 socket_id with
       | Some pid => if negb (pid =? 0)%Z then Some pid else None
       | None => None
       end.

Section Prune.
Context `{HashOrder}.

Definition oldest (cache : ReplayCache) : option SocketId :=
  fst <$> min_by_key (λ kv, kv.2.2) (hm_iter cache).

(** The [while] of [prune_cache].  Fuel: every round removes an entry. *)
Fixpoint prune_loop (fuel : nat) (cache : ReplayCache) : ReplayCache :=
  match fuel with
  | 0 => cache
  | S fuel =>
      if decide (MAX_CACHED_ACTIVITIES < size cache) then
        match oldest cache with
        | Some key => prune_loop fuel (delete key cache)
        | None => cache
        end
      else cache
  end.

Definition prune_cache (cache : ReplayCache) : ReplayCache := prune_loop (size cache) cache.

Lemma oldest_spec cache :
  match oldest cache with
  | Some key => ∃ v, cache !! key = Some v ∧
      ∀ k w, cache !! k = Some w → (v.2 ≤ w.2)%Z
  | None => cache = ∅
  end.
Proof.
  unfold oldest. destruct (min_by_key _ _) as [[k v]|] eqn:E; simpl.
  - apply min_by_key_Some in E as [Hin Hle]. exists v. split; [by apply hm_iter_elem|].
    intros k' w Hw. by apply (Hle (k', w)), hm_iter_elem.
  - by apply min_by_key_None, hm_iter_nil in E.
Qed.

(** Evicted entries are never newer than surviving ones. *)
Definition keeps_newest (cache cache' : ReplayCache) : Prop :=
  cache' ⊆ cache ∧
  ∀ k v j w, cache !! k = Some v → cache' !! k = None → cache' !! j = Some w →
    (v.2 ≤ w.2)%Z.

Lemma prune_loop_newest fuel cache : keeps_newest cache (prune_loop fuel cache).
Proof.
  revert cache. induction fuel as [|fuel IH]; intros cache; simpl;
    [split; [done|congruence]|].
  case_decide; [|split; [done|congruence]].
  pose proof (oldest_spec cache) as Ho. destruct (oldest cache) as [key|];
    [|split; [done|congruence]].
  destruct Ho as (v0 & Hv0 & Hmin), (IH (delete key cache)) as [Hsub Hnew].
  split; [etrans; [done|apply delete_subseteq]|].
  intros k v j w Hk Hk' Hj. destruct (decide (k = key)) as [->|Hne].
  - simplify_eq. eapply Hmin, lookup_weaken; [exact Hj|].
    etrans; [done|apply delete_subseteq].
  - apply (Hnew k v j w); [|done|done]. rewrite lookup_delete_ne; done.
Qed.

Lemma prune_loop_size fuel cache :
  size cache ≤ fuel → size (prune_loop fuel cache) = size cache `min` MAX_CACHED_ACTIVITIES.
Proof.
  revert cache. induction fuel as [|fuel IH]; intros cache Hf; simpl; [lia|].
  case_decide; [|lia]. pose proof (oldest_spec cache) as Ho.
  destruct (oldest cache) as [key|].
  2:{ subst. rewrite map_size_empty in *. lia. }
  destruct Ho as (v & Hv & _).
  rewrite IH; rewrite (map_size_delete_Some key cache ltac:(eauto)); lia.
Qed.

Lemma prune_cache_size cache :
  size (prune_cache cache) = size cache `min` MAX_CACHED_ACTIVITIES.
Proof. by apply prune_loop_size. Qed.

Lemma prune_cache_newest cache : keeps_newest cache (prune_cache cache).
Proof. apply prune_loop_newest. Qed.

Lemma prune_cache_small cache : size cache ≤ MAX_CACHED_ACTIVITIES → prune_cache cache = cache.
Proof.
  intros Hs. unfold prune_cache. destruct (size cache) eqn:E; [done|].
  simpl. case_decide; [lia|done].
Qed.

(** Inserting under a fresh stamp never evicts the entry just inserted. *)
Lemma prune_insert_lookup cache socket_id payload seq :
  (∀ k v, cache !! k = Some v → (v.2 < seq)%Z) →
  prune_cache (<[socket_id := (payload, seq)]> cache) !! socket_id = Some (payload, seq).
Proof.
  intros Hseq. set (c1 := <[socket_id := _]> cache).
  pose proof (prune_cache_size c1) as Hsz. destruct (prune_cache_newest c1) as [Hsub Hnew].
  destruct (prune_cache c1 !! socket_id) as [v|] eqn:E.
  { pose proof (lookup_weaken _ _ _ _ E Hsub) as Hv. unfold c1 in Hv.
    by rewrite lookup_insert_eq in Hv. }
  exfalso. assert (size (prune_cache c1) ≠ 0) as Hne.
  { assert (size c1 ≠ 0); [|unfold MAX_CACHED_ACTIVITIES in *; lia].
    intros E0%map_size_empty_inv. apply (f_equal (lookup socket_id)) in E0.
    unfold c1 in E0. by rewrite lookup_insert_eq, lookup_empty in E0. }
  destruct (map_choose (prune_cache c1)) as (j & w & Hj).
  { intros E0. rewrite E0, map_size_empty in Hne. done. }
  assert ((seq ≤ w.2)%Z).
  { apply (Hnew socket_id (payload, seq) j w); [|done|done]. apply lookup_insert_eq. }
  destruct (decide (j = socket_id)) as [->|Hjne]; [congruence|].
  pose proof (lookup_weaken _ _ _ _ Hj Hsub) as Hw. unfold c1 in Hw.
  rewrite lookup_insert_ne in Hw by done. specialize (Hseq j w Hw). lia.
Qed.

(** The replay cache keeps the newest: whatever the hasher's order,
    inserting under a fresh stamp into a cache within its cap leaves it
    within the cap, holds the new payload, and loses at most one other
    entry, which is no newer than any survivor. *)
Theorem cache_insert_evicts_oldest cache socket_id payload seq :
  size cache ≤ MAX_CACHED_ACTIVITIES →
  (∀ k v, cache !! k = Some v → (v.2 < seq)%Z) →
  let cache' := prune_cache (<[socket_id := (payload, seq)]> cache) in
  size cache' ≤ MAX_CACHED_ACTIVITIES ∧
  cache' !! socket_id = Some (payload, seq) ∧
  size (<[socket_id := (payload, seq)]> cache) ≤ S (size cache') ∧
  keeps_newest (<[socket_id := (payload, seq)]> cache) cache'.
Proof.
  intros Hs Hseq. cbv zeta. pose proof (prune_cache_size (<[socket_id := (payload, seq)]> cache)).
  assert (size (<[socket_id := (payload, seq)]> cache) ≤ S (size cache))
    by (rewrite map_size_insert; case_match; simpl; lia).
  split_and!; [lia|by apply prune_insert_lookup|unfold MAX_CACHED_ACTIVITIES in *; lia|
    apply prune_cache_newest].
Qed.
End Prune.

Definition demo_card (pid : Z) : CachedActivity := {|
  ca_json := "json"; ca_msgpack := "mp"; ca_is_clear := false; ca_activity_json := "a";
  ca_provenance := None; ca_pid := pid |}.

Lemma cache_insert_evicts_oldest_witness :
  size (@prune_cache default_order (<["9" := (demo_card 9, 2%Z)]> {["7" := (demo_card 7, 1%Z)]}))
    ≤ MAX_CACHED_ACTIVITIES.
Proof.
  apply (@cache_insert_evicts_oldest default_order {["7" := (demo_card 7, 1%Z)]} "9"
    (demo_card 9) 2%Z).
  - vm_compute. lia.
  - intros k v [_ <-]%lookup_singleton_Some. simpl. lia.
Defined.
