(* ===== verification/Consumers.v ===== *)
(** * Bridge consumers (consumer.rs, origin.rs, control.rs of rsrpc-bridge;
      hub.rs and message.rs of rsrpc-ws)

    A [Responder] is a handle to a bounded outbox shared by every clone of
    it, so outboxes live in a store of their own ([Net]) and a consumer
    only holds the id of its outbox.  A fan-out walks the consumer map in
    the hasher's order, threading the store. *)

From stdpp Require Import base gmap strings list fin_maps sets.
From Stdlib Require Import Ascii.
From S2P Require Import Prelude RStr HashMaps Json Ids Cmd User Protocol.

Local Open Scope string_scope.
Local Open Scope nat_scope.
Local Open Scope list_scope.

Abbreviation ClientId := Z (only parsing).

(** ** Messages and outboxes *)

Inductive Message := Text (s : string) | Binary (b : string).

Inductive CloseCode := CloseNormal | TryAgainLater | InternalError.

(** What travels to a connection task. *)
Inductive WsCmd := CmdMessage (m : Message) | CmdClose (c : CloseCode).

Inductive TrySendError := Full | Closed.

(** One connection's bounded queue; [ob_closed] once its task has gone. *)
Record Outbox := {
  ob_queue : list WsCmd;
  ob_cap : nat;
  ob_closed : bool
}.

Abbreviation Net := (gmap Z Outbox) (only parsing).

Definition push (ob : Outbox) (c : WsCmd) : Outbox :=
  {| ob_queue := ob_queue ob ++ [c]; ob_cap := ob_cap ob; ob_closed := ob_closed ob |}.

(** [Responder::try_send]: never blocks; the store after it. *)
Definition try_send (net : Net) (id : ClientId) (m : Message) : Net * option TrySendError :=
  match net !! id with
  | None => (net, Some Closed)
  | Some ob =>
      if ob_closed ob then (net, Some Closed)
      else if decide (ob_cap ob ≤ length (ob_queue ob)) then (net, Some Full)
      else (<[id := push ob (CmdMessage m)]> net, None)
  end.

(** [Responder::close] waits for room, so it lands once there is some;
    dead clients make it a no-op. *)
Definition close (net : Net) (id : ClientId) (code : CloseCode) : Net :=
  match net !! id with
  | Some ob => if ob_closed ob then net else <[id := push ob (CmdClose code)]> net
  | None => net
  end.

(** ** Encodings *)

Inductive BridgeProtocol := PJson | PMsgPack.

#[export] Instance bridge_protocol_eq_dec : EqDecision BridgeProtocol.
Proof. solve_decision. Defined.

(** [BridgeProtocol::from_query]. *)
Definition from_query (uri : string) (dflt : BridgeProtocol) : BridgeProtocol :=
  match query_param uri "format" with
  | Some f =>
      if String.eqb f "msgpack" || String.eqb f "messagepack" then PMsgPack
      else if String.eqb f "json" then PJson
      else dflt
  | None => dflt
  end.

(** A responder with the upgrade details the bridge reads: the origin
    header (when present and printable) and the request target. *)
Record Responder := {
  resp_id : ClientId;
  resp_origin : option string;
  resp_uri : string
}.

Record Consumer := {
  con_responder : Responder;
  con_protocol : BridgeProtocol
}.

(** ** Origins *)

Definition ALLOWED_ORIGINS : list string :=
  ["https://discord.com"; "https://canary.discord.com"; "https://ptb.discord.com"].

Definition origin_allowed (origin : option string) (extra : list string) : bool :=
  match origin with
  | None => true
  | Some value =>
      bool_decide (value ∈ ALLOWED_ORIGINS) || existsb (λ allowed, String.eqb allowed value) extra
  end.

Definition default_ports : list (string * string) :=
  [("http://", ":80"); ("https://", ":443")].

Definition normalize_origin (origin : string) : string :=
  let canonical := to_ascii_lowercase (trim_end_matches "/"%char (trim origin)) in
  default canonical (find_map (λ sp,
    match strip_prefix sp.1 canonical with
    | Some host => (λ bare, sp.1 +:+ bare) <$> strip_suffix sp.2 host
    | None => None
    end) default_ports).

Section Frames.
Context `{Serde}.

(** [encode_msgpack]; [Frame] caches its result, a pure function of the
    JSON text, so the cache is not observable. *)
Definition encode_msgpack (json : string) : option string :=
  json_from_str json ≫= msgpack_to_vec.

(** [send_frame]: whether the frame was queued. *)
Definition send_frame (net : Net) (r : Responder) (json : string) (p : BridgeProtocol)
    : Net * bool :=
  match p with
  | PJson =>
      let '(net, e) := try_send net (resp_id r) (Text json) in (net, negb (is_some e))
  | PMsgPack =>
      match encode_msgpack json with
      | Some bytes =>
          let '(net, e) := try_send net (resp_id r) (Binary bytes) in (net, negb (is_some e))
      | None => (net, false)
      end
  end.

(** The message a payload becomes for one encoding. *)
Definition payload_message (payload : CachedActivity) (p : BridgeProtocol) : Message :=
  match p with PJson => Text (ca_json payload) | PMsgPack => Binary (ca_msgpack payload) end.

(** [send_cached]: best effort. *)
Definition send_cached (net : Net) (r : Responder) (payload : CachedActivity)
    (p : BridgeProtocol) : Net :=
  (try_send net (resp_id r) (payload_message payload p)).1.

(** ** Fan-out *)

(** [filter_map] over the consumers with a send: the store, and the ids
    whose send failed. *)
Fixpoint fan_out (send : Net → Consumer → Net * bool) (net : Net)
    (l : list (ClientId * Consumer)) : Net * list ClientId :=
  match l with
  | [] => (net, [])
  | (id, c) :: l =>
      let '(net, queued) := send net c in
      let '(net, dead) := fan_out send net l in
      (net, if queued then dead else id :: dead)
  end.

Definition remove_all (ids : list ClientId) (m : gmap ClientId Consumer)
    : gmap ClientId Consumer := foldl (λ m id, delete id m) m ids.
End Frames.

Section Fanout.
Context `{Serde, HashOrder}.

(** A send of at most one message to one consumer. *)
Definition send_message (msg : Consumer → option Message) (net : Net) (c : Consumer)
    : Net * bool :=
  match msg c with
  | Some m =>
      let '(net, e) := try_send net (resp_id (con_responder c)) m in (net, negb (is_some e))
  | None => (net, false)
  end.

(** One pass over the consumers: the map without the dead, the store,
    and how many died. *)
Definition fan_out_prune (send : Net → Consumer → Net * bool)
    (wanted : Consumer → bool) (consumers : gmap ClientId Consumer) (net : Net)
    : gmap ClientId Consumer * Net * nat :=
  let '(net, dead) :=
    fan_out send net (base.filter (λ kv, wanted kv.2 = true) (hm_iter consumers)) in
  (remove_all dead consumers, net, length dead).

(** [handle_bridge_control], with the ACK and the identity it hands back. *)
Definition user_ack_value (ack_type : string) (nonce : Value) (u : RpcUser) : Value := VObject
  [("type", VString ack_type); ("nonce", nonce);
   ("data", VObject [("success", VBool true); ("user", user_value u)])].

(** [env] is the process environment [RESET_USER] reads again.  [None]
    (the message is not control) leaves the identity untouched, except
    that a failed ACK serialization returns after the patch. *)
Definition handle_bridge_control (env : gmap string string) (user : RpcUser) (text : string)
    : RpcUser * option (string * option RpcUser) :=
  match json_from_str text with
  | None => (user, None)
  | Some body =>
      match value_get "type" body ≫= as_str with
      | None => (user, None)
      | Some msg_type =>
          if negb (String.eqb msg_type "SET_USER" || String.eqb msg_type "RESET_USER")
          then (user, None)
          else
            let nonce := default VNull (value_get "nonce" body) in
            let set := String.eqb msg_type "SET_USER" in
            let user' :=
              if set then
                match or_else (value_get "patch" body) (value_get "data" body) with
                | Some patch => user_patch patch user
                | None => user
                end
              else from_env env in
            let ack_type := if set then "SET_USER_ACK" else "RESET_USER_ACK" in
            match json_to_string (user_ack_value ack_type nonce user') with
            | None => (user', None)
            | Some ack =>
                (user', Some (ack, if decide (user' = user) then None else Some user'))
            end
      end
  end.
End Fanout.

(** ** Fan-out, whatever the order *)

(** Registered consumers sit under the id of their own responder. *)
Definition consumers_ok (consumers : gmap ClientId Consumer) : Prop :=
  ∀ id c, consumers !! id = Some c → resp_id (con_responder c) = id.

(** The outbox after a delivery, [None] when it could not be queued. *)
Definition deliver (ob : option Outbox) (m : option Message) : option Outbox :=
  match ob, m with
  | Some ob, Some m =>
      if ob_closed ob then None
      else if decide (ob_cap ob ≤ length (ob_queue ob)) then None
      else Some (push ob (CmdMessage m))
  | _, _ => None
  end.

Section FanoutSpec.
Context `{Serde, HashOrder}.

Lemma send_message_deliver msg net c :
  send_message msg net c =
  match deliver (net !! resp_id (con_responder c)) (msg c) with
  | Some ob => (<[resp_id (con_responder c) := ob]> net, true)
  | None => (net, false)
  end.
Proof.
  unfold send_message, try_send, deliver.
  destruct (msg c), (net !! _) as [ob|]; simpl; try done.
  destruct (ob_closed ob); simpl; [done|]. by case_decide.
Qed.

(** [send_frame] is such a send. *)
Definition frame_message (json : string) (c : Consumer) : option Message :=
  match con_protocol c with
  | PJson => Some (Text json)
  | PMsgPack => Binary <$> encode_msgpack json
  end.

Lemma send_frame_message net c json :
  send_frame net (con_responder c) json (con_protocol c)
  = send_message (frame_message json) net c.
Proof.
  unfold send_frame, send_message, frame_message.
  destruct (con_protocol c); [done|]. by destruct (encode_msgpack json).
Qed.

Lemma fan_out_ext f g net l :
  (∀ net c, f net c = g net c) → fan_out f net l = fan_out g net l.
Proof.
  intros E. revert net. induction l as [|[id c] l IH]; intros net; simpl; [done|].
  rewrite E. destruct (g net c). by rewrite IH.
Qed.

Lemma fan_out_spec msg l : ∀ net net' dead,
  NoDup l.*1 → (∀ id c, (id, c) ∈ l → resp_id (con_responder c) = id) →
  fan_out (send_message msg) net l = (net', dead) →
  (∀ id, id ∉ l.*1 → net' !! id = net !! id ∧ id ∉ dead) ∧
  (∀ id c, (id, c) ∈ l →
     match deliver (net !! id) (msg c) with
     | Some ob => net' !! id = Some ob ∧ id ∉ dead
     | None => net' !! id = net !! id ∧ id ∈ dead
     end) ∧
  NoDup dead.
Proof.
  induction l as [|[id c] l IH]; intros net net' dead Hnd Hid; simpl.
  { intros [= <- <-]. split_and!; [set_solver| |constructor].
    by intros ?? ?%not_elem_of_nil. }
  apply NoDup_cons in Hnd as [Hni Hnd]. rewrite send_message_deliver.
  rewrite (Hid id c) by by left.
  assert (∀ i k, (i, k) ∈ l → i ≠ id) as Hne.
  { intros i k Hin ->. apply Hni. by apply (list_elem_of_fmap_2 fst l (id, k)). }
  destruct (deliver (net !! id) (msg c)) as [ob|] eqn:Ed;
    destruct (fan_out _ _ l) as [net1 dead1] eqn:E; intros [= <- <-];
    (eapply IH in E as (Ho & Hi & Hdn); [|done|intros; apply Hid; by right]).
  - split_and!; [| |done].
    + intros i Hi'. rewrite not_elem_of_cons in Hi'. destruct Hi' as [? Hi'].
      destruct (Ho i Hi') as [-> ?]. by rewrite lookup_insert_ne.
    + intros i k [[= -> ->]|Hin]%elem_of_cons.
      * rewrite Ed. destruct (Ho id Hni) as [-> ?]. by rewrite lookup_insert_eq.
      * specialize (Hi i k Hin). rewrite lookup_insert_ne in Hi; [done|].
        symmetry. eauto.
  - split_and!.
    + intros i Hi'. rewrite not_elem_of_cons in Hi'. destruct Hi' as [? Hi'].
      destruct (Ho i Hi') as [-> ?]. split; [done|]. by rewrite not_elem_of_cons.
    + intros i k [[= -> ->]|Hin]%elem_of_cons.
      * rewrite Ed. destruct (Ho id Hni) as [-> ?]. split; [done|by left].
      * specialize (Hi i k Hin). pose proof (Hne i k Hin).
        destruct (deliver (net !! i) (msg k)); destruct Hi; (split; [done|]);
          [by rewrite not_elem_of_cons|by right].
    + apply NoDup_cons. split; [|done]. by apply Ho.
Qed.

Lemma remove_all_lookup ids m id :
  remove_all ids m !! id = if decide (id ∈ ids) then None else m !! id.
Proof.
  unfold remove_all. revert m. induction ids as [|i ids IH]; intros m; simpl; [done|].
  rewrite IH. repeat case_decide; try done; [set_solver..| |].
  - assert (id = i) as -> by set_solver. by rewrite lookup_delete_eq.
  - rewrite lookup_delete_ne; [done|set_solver].
Qed.

Lemma remove_all_size ids m :
  NoDup ids → (∀ i, i ∈ ids → is_Some (m !! i)) →
  size (remove_all ids m) + length ids = size m.
Proof.
  unfold remove_all. revert m. induction ids as [|i ids IH]; intros m Hnd Hin; simpl; [lia|].
  apply NoDup_cons in Hnd as [Hni Hnd]. rewrite <-Nat.add_succ_comm in *.
  rewrite Nat.add_succ_l, IH; [|done|].
  - assert (is_Some (m !! i)) as Hi by (apply Hin; by left).
    pose proof (map_size_delete_lt m i Hi). rewrite map_size_delete_Some in * by done. lia.
  - intros j Hj. rewrite lookup_delete_ne by (intros ->; done). apply Hin. by right.
Qed.

(** Whether a pass drops this consumer. *)
Definition pruned (msg : Consumer → option Message) (wanted : Consumer → bool)
    (net : Net) (id : ClientId) (c : Consumer) : bool :=
  wanted c && negb (is_some (deliver (net !! id) (msg c))).

Definition wanted_list (wanted : Consumer → bool) (consumers : gmap ClientId Consumer) :=
  base.filter (λ kv, wanted kv.2 = true) (hm_iter consumers).

Lemma wanted_list_elem wanted consumers id c :
  (id, c) ∈ wanted_list wanted consumers ↔ consumers !! id = Some c ∧ wanted c = true.
Proof. unfold wanted_list. rewrite list_elem_of_filter, hm_iter_elem. simpl. naive_solver. Qed.

Lemma wanted_list_keys wanted consumers id :
  id ∈ (wanted_list wanted consumers).*1 ↔
  ∃ c, consumers !! id = Some c ∧ wanted c = true.
Proof.
  rewrite list_elem_of_fmap. split.
  - intros ([? c] & -> & Hin%wanted_list_elem). eauto.
  - intros (c & Hc). exists (id, c). split; [done|]. by apply wanted_list_elem.
Qed.

Lemma wanted_list_NoDup wanted consumers : NoDup (wanted_list wanted consumers).*1.
Proof.
  apply filter_fst_NoDup, hm_iter_keys_NoDup.
Qed.

(** The ids a pass reports dead are the pruned ones. *)
Lemma fan_out_dead msg wanted consumers net net' dead :
  consumers_ok consumers →
  fan_out (send_message msg) net (wanted_list wanted consumers) = (net', dead) →
  ∀ id, id ∈ dead ↔ ∃ c, consumers !! id = Some c ∧ pruned msg wanted net id c = true.
Proof.
  intros Hok E id. apply fan_out_spec in E as (Ho & Hi & _);
    [|apply wanted_list_NoDup|intros i c [? _]%wanted_list_elem; by apply Hok].
  unfold pruned. destruct (consumers !! id) as [c|] eqn:Hc.
  2:{ split; [|naive_solver]. intros Hd. exfalso. revert Hd. apply Ho.
      rewrite wanted_list_keys. intros (c' & ? & ?). congruence. }
  destruct (wanted c) eqn:Hw.
  - specialize (Hi id c ltac:(by apply wanted_list_elem)).
    destruct (deliver (net !! id) (msg c)) eqn:Ed; destruct Hi as [_ Hd];
      (split; intros Hx); [done| |exists c; by rewrite Hw, Ed|done].
    destruct Hx as (c' & ? & Hx). simplify_eq. by rewrite Hw, Ed in Hx.
  - split; [|intros (c' & ? & Hx); simplify_eq; by rewrite Hw in Hx].
    intros Hd. exfalso. revert Hd. apply Ho. rewrite wanted_list_keys. intros (c' & ? & ?). congruence.
Qed.

Lemma fan_out_prune_spec msg wanted consumers net consumers' net' n :
  consumers_ok consumers →
  fan_out_prune (send_message msg) wanted consumers net = (consumers', net', n) →
  (∀ id, consumers' !! id =
     match consumers !! id with
     | Some c => if pruned msg wanted net id c then None else Some c
     | None => None
     end) ∧
  (∀ id, net' !! id =
     match consumers !! id with
     | Some c => if wanted c then or_else (deliver (net !! id) (msg c)) (net !! id)
                 else net !! id
     | None => net !! id
     end) ∧
  size consumers' + n = size consumers.
Proof.
  intros Hok. unfold fan_out_prune. fold (wanted_list wanted consumers).
  destruct (fan_out _ net _) as [net1 dead] eqn:E. intros [= <- <- <-].
  pose proof (fan_out_dead _ _ _ _ _ _ Hok E) as Hdead.
  apply fan_out_spec in E as (Ho & Hi & Hnd);
    [|apply wanted_list_NoDup|intros i c [? _]%wanted_list_elem; by apply Hok].
  split_and!.
  - intros id. rewrite remove_all_lookup. destruct (consumers !! id) as [c|] eqn:Hc.
    + destruct (pruned msg wanted net id c) eqn:Hp; case_decide as Hd; try done.
      * exfalso. apply Hd, Hdead. eauto.
      * apply Hdead in Hd as (c' & ? & ?). congruence.
    + by case_decide.
  - intros id. destruct (consumers !! id) as [c|] eqn:Hc; [destruct (wanted c) eqn:Hw|].
    + specialize (Hi id c). destruct (deliver (net !! id) (msg c)); simpl;
        apply Hi, wanted_list_elem; done.
    + apply Ho. rewrite wanted_list_keys. intros (c' & ? & ?). congruence.
    + apply Ho. rewrite wanted_list_keys. intros (c' & ? & ?). congruence.
  - apply remove_all_size; [done|]. intros i (c & ? & _)%Hdead. eauto.
Qed.
End FanoutSpec.
