(* ===== verification/Bridge.v ===== *)
(** * The activity bridge (bridge.rs, router.rs and the [Shared] methods of
      consumer.rs in crates/rsrpc-bridge/src)

    [Shared] is the state every pump works on, with the outboxes its
    responders point at.  Each handler is a function on it; handlers that
    release a lock half way (a new connection's replay, the refresh) are
    also given in the two halves they consist of, so that interleavings
    can be written down.  What a handler asks the outside world (clocks,
    liveness, environment) is one [Env]. *)

From stdpp Require Import base gmap strings list fin_maps sets sorting.
From S2P Require Import Prelude RStr HashMaps Json Ids Cmd User Protocol Handoff Replay.
From S2P Require Import Consumers.

Local Open Scope string_scope.
Local Open Scope nat_scope.
Local Open Scope list_scope.

(** What one handler run observes of its environment. *)
Record Env := {
  env_probe : Z → bool;           (** liveness of a pid *)
  env_now_secs : Z;               (** wall clock, seconds *)
  env_now_ms : Z;                 (** wall clock, milliseconds *)
  env_instant : Z;                (** monotonic clock, nanoseconds *)
  env_vars : gmap string string   (** process environment *)
}.

(** ** State *)

Record Shared := {
  sh_consumers : gmap ClientId Consumer;
  sh_net : gmap ClientId Outbox;
  sh_cache : gmap SocketId (CachedActivity * Z);
  sh_activity_seq : Z;
  sh_last_process : gmap AppId Z;
  sh_handoff : HandoffState;
  sh_recent : RecentActivities;
  sh_user : RpcUser;
  sh_dirty : bool;
  sh_dropped_broadcasts : Z;
  sh_allowed_origins : list string
}.

(** The [Shared] [Bridge::bind] builds. *)
Definition Shared_new (user : RpcUser) (allowed_origins : list string) : Shared := {|
  sh_consumers := ∅; sh_net := ∅; sh_cache := ∅; sh_activity_seq := 0;
  sh_last_process := ∅; sh_handoff := HandoffState_default;
  sh_recent := RecentActivities_default; sh_user := user; sh_dirty := true;
  sh_dropped_broadcasts := 0; sh_allowed_origins := allowed_origins |}.

(** Field updates. *)
Definition set_consumers (cs : gmap ClientId Consumer) (net : gmap ClientId Outbox) (s : Shared)
    : Shared := {|
  sh_consumers := cs; sh_net := net; sh_cache := sh_cache s;
  sh_activity_seq := sh_activity_seq s; sh_last_process := sh_last_process s;
  sh_handoff := sh_handoff s; sh_recent := sh_recent s; sh_user := sh_user s;
  sh_dirty := sh_dirty s; sh_dropped_broadcasts := sh_dropped_broadcasts s;
  sh_allowed_origins := sh_allowed_origins s |}.

Definition set_cache (c : gmap SocketId (CachedActivity * Z)) (seq : Z) (s : Shared) : Shared := {|
  sh_consumers := sh_consumers s; sh_net := sh_net s; sh_cache := c;
  sh_activity_seq := seq; sh_last_process := sh_last_process s;
  sh_handoff := sh_handoff s; sh_recent := sh_recent s; sh_user := sh_user s;
  sh_dirty := sh_dirty s; sh_dropped_broadcasts := sh_dropped_broadcasts s;
  sh_allowed_origins := sh_allowed_origins s |}.

Definition set_tables (lp : gmap AppId Z) (h : HandoffState) (r : RecentActivities) (s : Shared)
    : Shared := {|
  sh_consumers := sh_consumers s; sh_net := sh_net s; sh_cache := sh_cache s;
  sh_activity_seq := sh_activity_seq s; sh_last_process := lp;
  sh_handoff := h; sh_recent := r; sh_user := sh_user s;
  sh_dirty := sh_dirty s; sh_dropped_broadcasts := sh_dropped_broadcasts s;
  sh_allowed_origins := sh_allowed_origins s |}.

Definition set_last_process lp s := set_tables lp (sh_handoff s) (sh_recent s) s.
Definition set_handoff h s := set_tables (sh_last_process s) h (sh_recent s) s.
Definition set_recent r s := set_tables (sh_last_process s) (sh_handoff s) r s.

Definition set_misc (u : RpcUser) (dirty : bool) (dropped : Z) (s : Shared) : Shared := {|
  sh_consumers := sh_consumers s; sh_net := sh_net s; sh_cache := sh_cache s;
  sh_activity_seq := sh_activity_seq s; sh_last_process := sh_last_process s;
  sh_handoff := sh_handoff s; sh_recent := sh_recent s; sh_user := u;
  sh_dirty := dirty; sh_dropped_broadcasts := dropped;
  sh_allowed_origins := sh_allowed_origins s |}.

Definition set_user u s := set_misc u (sh_dirty s) (sh_dropped_broadcasts s) s.
Definition set_dirty d s := set_misc (sh_user s) d (sh_dropped_broadcasts s) s.
(** [dropped_broadcasts.fetch_add(n)]. *)
Definition add_dropped (n : nat) s :=
  set_misc (sh_user s) (sh_dirty s) (wrap_u64 (sh_dropped_broadcasts s + Z.of_nat n)) s.

(** ** Routing decisions *)

(** [table_transition]. *)
Definition table_transition (had_games : bool) (input : ProcInput) : option string :=
  match input with
  | Detected _ => if negb had_games then Some "game-start" else None
  | Cleared => if had_games then Some "game-end" else None
  | Removed _ _ => None
  end.

(** [is_genuine_clear]. *)
Definition is_genuine_clear (cmd : ActivityCmd) : bool :=
  match cmd_args cmd ≫= arg_pid with
  | Some pid =>
      if negb (pid =? 0)%Z
      then opt_any (λ args, negb (is_some (arg_activity args))) (cmd_args cmd)
      else false
  | None => false
  end.

(** [args.pid.unwrap_or_default()]. *)
Definition publish_pid (cmd : ActivityCmd) : Z := default 0%Z (cmd_args cmd ≫= arg_pid).

(** [take_matching_process]. *)
Definition take_matching_process (lp : gmap AppId Z) (app_id : AppId) (pid : Z)
    : gmap AppId Z * option Z :=
  if opt_any (λ known, (known =? pid)%Z) (lp !! app_id)
  then (delete app_id lp, lp !! app_id) else (lp, None).

(** The order [outstanding.sort()] uses on [(pid, app_id)] pairs. *)
Definition clear_le (a b : Z * AppId) : Prop :=
  ((a.1 <? b.1)%Z || (a.1 =? b.1)%Z && String.leb a.2 b.2) = true.

#[export] Instance clear_le_dec a b : Decision (clear_le a b).
Proof. unfold clear_le. apply _. Defined.

Section Bridge.
Context `{Serde, HashOrder}.

(** [generic_payload]. *)
Definition generic_payload (now_ms : Z) (game : ScannedGame) : option CachedActivity :=
  let payload := {| pp_application_id := sg_id game; pp_name := sg_name game;
    pp_start := sg_start game; pp_type := 0; pp_flags := 0; pp_pid := sg_pid game;
    pp_socket_id := SocketId_from_AppId (sg_id game) |} in
  match json_to_string (process_activity_value payload),
        json_to_string (process_payload_value payload),
        msgpack_to_vec (process_payload_value payload) with
  | Some activity_json, Some json, Some msgpack => Some {|
      ca_json := json; ca_msgpack := msgpack; ca_is_clear := false;
      ca_activity_json := activity_json;
      ca_provenance := Some {| prov_source := DetectSource_as_str (sg_source game);
        prov_latency_ms := sat_u64_sub now_ms <$> sg_process_start_ms game |};
      ca_pid := sg_pid game |}
  | _, _, _ => None
  end.

(** [take_process_clear]: drain and sort. *)
Definition take_process_clear (s : Shared) : Shared * list (Z * AppId) :=
  let outstanding := map (λ kv, (kv.2, kv.1)) (hm_iter (sh_last_process s)) in
  (set_last_process ∅ s, merge_sort clear_le outstanding).

(** ** Fan-out *)

Definition always (_ : Consumer) : bool := true.

(** [send_to_all]. *)
Definition send_to_all (payload : CachedActivity) (s : Shared) : Shared :=
  if decide (sh_consumers s = ∅) then s
  else
    let '(consumers, net, dead) :=
      fan_out_prune (send_message (λ c, Some (payload_message payload (con_protocol c))))
        always (sh_consumers s) (sh_net s) in
    add_dropped dead (set_consumers consumers net s).

(** One encoding of [broadcast_raw]. *)
Definition raw_pass (s : Shared) (pass : BridgeProtocol * option Message) : Shared :=
  match pass.2 with
  | None => s
  | Some message =>
      let '(consumers, net, dead) :=
        fan_out_prune (send_message (λ _, Some message))
          (λ c, bool_decide (con_protocol c = pass.1)) (sh_consumers s) (sh_net s) in
      add_dropped dead (set_consumers consumers net s)
  end.

(** [broadcast_raw]. *)
Definition broadcast_raw (cmd : ActivityCmd) (s : Shared) : Shared :=
  if decide (sh_consumers s = ∅) then s
  else
    let wants p := existsb (λ kv, bool_decide (con_protocol kv.2 = p))
                     (hm_iter (sh_consumers s)) in
    let json := if wants PJson then Text <$> json_to_string (cmd_value cmd) else None in
    let msgpack := if wants PMsgPack then Binary <$> msgpack_to_vec (cmd_value cmd) else None in
    foldl raw_pass s [(PJson, json); (PMsgPack, msgpack)].

(** The cache half of [broadcast_activity]. *)
Definition cache_activity (payload : CachedActivity) (socket_id : SocketId) (s : Shared)
    : Shared :=
  if ca_is_clear payload then
    set_cache (delete socket_id (sh_cache s)) (sh_activity_seq s) s
  else
    let seq := wrap_u64 (sh_activity_seq s + 1) in
    set_cache (prune_cache (<[socket_id := (payload, seq)]> (sh_cache s))) seq s.

(** [broadcast_activity]. *)
Definition broadcast_activity (payload : CachedActivity) (socket_id : SocketId) (s : Shared)
    : Shared :=
  set_dirty true (send_to_all payload (cache_activity payload socket_id s)).

(** The clear broadcasts of the process pump. *)
Definition broadcast_clear (pid : Z) (socket_id : SocketId) (s : Shared) : Shared :=
  match empty_cached pid socket_id with
  | Some payload => broadcast_activity payload socket_id s
  | None => add_dropped 1 s
  end.

(** ** Commands *)

(** [flood_dropped]. *)
Definition flood_dropped (env : Env) (cmd : ActivityCmd) (fingerprint : option string)
    (s : Shared) : Shared * bool :=
  let '(dropped, recent) :=
    should_drop (sh_recent s) (cmd_application_id cmd) (publish_pid cmd) fingerprint
      (env_instant env) in
  (set_recent recent s, dropped).

(** [note_sdk_publish] (its logging aside). *)
Definition note_sdk_publish (env : Env) (cmd : ActivityCmd) (s : Shared) : Shared :=
  match cmd_activity cmd ≫= act_application_id with
  | Some app =>
      set_handoff (note_publish (env_probe env) (sh_handoff s) app (publish_pid cmd)) s
  | None => s
  end.

(** [activity_changed]. *)
Definition activity_changed (socket_id : SocketId) (fingerprint : option string) (s : Shared)
    : bool :=
  match sh_cache s !! socket_id, fingerprint with
  | None, None => false
  | None, Some _ => true
  | Some (entry, _), None => negb (ca_is_clear entry)
  | Some (entry, _), Some fp =>
      ca_is_clear entry || negb (String.eqb (ca_activity_json entry) fp)
  end.

(** [resume_generic]. *)
Definition resume_generic (env : Env) (s : Shared) (game : ScannedGame) : Shared :=
  let s := set_last_process
    (track_process_publication (env_probe env) (sh_last_process s) (sg_id game) (sg_pid game))
    s in
  match generic_payload (env_now_ms env) game with
  | Some payload => broadcast_activity payload (SocketId_from_AppId (sg_id game)) s
  | None => add_dropped 1 s
  end.

(** What [resume_after_clear] releases, and the games to bring back. *)
Definition release_slots (cmd : ActivityCmd) (h : HandoffState)
    : HandoffState * list ScannedGame :=
  let pid := publish_pid cmd in
  match cmd_application_id cmd with
  | Some app =>
      let '(h, released) := note_clear h app pid in
      (h, if released then option_list (resume_for h app) else [])
  | None =>
      let '(h, apps) := note_clear_pid h pid in
      (h, omap (resume_for h) apps)
  end.

(** [resume_after_clear] ([changed] only picks its log line). *)
Definition resume_after_clear (env : Env) (cmd : ActivityCmd) (s : Shared) : Shared :=
  if negb (is_genuine_clear cmd) then s
  else
    let '(h, resume) := release_slots cmd (sh_handoff s) in
    foldl (resume_generic env) (set_handoff h s)
      (base.filter (λ game, is_process_alive (env_probe env) (sg_pid game) = true) resume).

Definition sdk_provenance : ActivityProvenance :=
  {| prov_source := "sdk"; prov_latency_ms := None |}.

Definition with_provenance (p : ActivityProvenance) (c : CachedActivity) : CachedActivity := {|
  ca_json := ca_json c; ca_msgpack := ca_msgpack c; ca_is_clear := ca_is_clear c;
  ca_activity_json := ca_activity_json c; ca_provenance := Some p; ca_pid := ca_pid c |}.

(** [Shared::handle_set_activity]. *)
Definition bridge_set_activity (env : Env) (cmd : ActivityCmd) (s : Shared) : Shared :=
  let '(cmd, fingerprint) := activity_fingerprint (env_now_secs env) cmd in
  let pid := publish_pid cmd in
  let '(s, dropped) := flood_dropped env cmd fingerprint s in
  if dropped then s
  else if negb (is_some (cmd_args cmd)) then s
  else
    let socket_id := u64_to_string pid in
    let changed := activity_changed socket_id fingerprint s in
    let s := note_sdk_publish env cmd s in
    let s := resume_after_clear env cmd s in
    if changed then
      match cached_activity (env_now_secs env) cmd fingerprint with
      | Some payload => broadcast_activity (with_provenance sdk_provenance payload) socket_id s
      | None => s
      end
    else s.

(** The body of [command_pump]. *)
Definition command_step (env : Env) (cmd : ActivityCmd) (s : Shared) : Shared :=
  if negb (String.eqb (cmd_cmd cmd) "SET_ACTIVITY") then broadcast_raw cmd s
  else bridge_set_activity env cmd s.

(** ** The process pump *)

(** Replay-cache cards whose pid is provably dead. *)
Definition ghosts (env : Env) (cache : gmap SocketId (CachedActivity * Z))
    : list (SocketId * Z) :=
  omap (λ kv : SocketId * (CachedActivity * Z),
    match cache_entry_pid kv.1 kv.2.1 with
    | Some pid => if is_process_alive (env_probe env) pid then None else Some (kv.1, pid)
    | None => None
    end) (hm_iter cache).

Definition on_cleared (env : Env) (s : Shared) : Shared :=
  let s := set_handoff (note_scan (env_probe env) (sh_handoff s) None) s in
  let '(s, outstanding) := take_process_clear s in
  let s := foldl (λ s pa, broadcast_clear pa.1 (SocketId_from_AppId pa.2) s) s outstanding in
  foldl (λ s g, broadcast_clear g.2 g.1 s) s (ghosts env (sh_cache s)).

Definition on_detected (env : Env) (game : ScannedGame) (s : Shared) : Shared :=
  let s := set_handoff (note_scan (env_probe env) (sh_handoff s) (Some game)) s in
  match owner_of (sh_handoff s) (sg_id game) with
  | Some _ =>
      let withdrawn := sh_last_process s !! sg_id game in
      let s := set_last_process (delete (sg_id game) (sh_last_process s)) s in
      match withdrawn with
      | Some pid => broadcast_clear pid (SocketId_from_AppId (sg_id game)) s
      | None => s
      end
  | None =>
      if is_some (sh_last_process s !! sg_id game) then s
      else resume_generic env s game
  end.

Definition on_removed (env : Env) (app_id : AppId) (pid : Z) (s : Shared) : Shared :=
  let s := set_handoff (note_remove (sh_handoff s) app_id pid).1 s in
  let '(lp, outstanding) := take_matching_process (sh_last_process s) app_id pid in
  let s := set_last_process lp s in
  match outstanding with
  | Some pid => broadcast_clear pid (SocketId_from_AppId app_id) s
  | None => s
  end.

(** The body of [proc_pump], with its [had_games] and the census line it
    may log. *)
Definition proc_step (env : Env) (input : ProcInput) (had_games : bool) (s : Shared)
    : bool * option string * Shared :=
  let reason := table_transition had_games input in
  match input with
  | Cleared => (false, reason, on_cleared env s)
  | Detected game => (true, reason, on_detected env game s)
  | Removed app_id pid => (had_games, reason, on_removed env app_id pid s)
  end.

(** ** The consumer pump *)

(** READY and the replay: everything of a [Connect] before the consumer
    map is locked. *)
Definition connect_replay (r : Responder) (protocol : BridgeProtocol) (s : Shared) : Shared :=
  let '(net, _) := send_frame (sh_net s) r (ready_payload (sh_user s)) protocol in
  let net := foldl (λ net kv, send_cached net r kv.2.1 protocol) net (hm_iter (sh_cache s)) in
  set_consumers (sh_consumers s) net s.

Definition connect_register (id : ClientId) (r : Responder) (protocol : BridgeProtocol)
    (s : Shared) : Shared :=
  set_consumers
    (<[id := {| con_responder := r; con_protocol := protocol |}]> (sh_consumers s))
    (sh_net s) s.

Definition on_connect (default_protocol : BridgeProtocol) (id : ClientId) (r : Responder)
    (s : Shared) : Shared :=
  if negb (origin_allowed (resp_origin r) (sh_allowed_origins s)) then
    set_consumers (sh_consumers s) (close (sh_net s) (resp_id r) CloseNormal) s
  else
    let protocol := from_query (resp_uri r) default_protocol in
    connect_register id r protocol (connect_replay r protocol s).

Definition on_disconnect (id : ClientId) (s : Shared) : Shared :=
  set_consumers (delete id (sh_consumers s)) (sh_net s) s.

(** [is_registered] and [protocol_for]. *)
Definition is_registered (id : ClientId) (s : Shared) : bool := is_some (sh_consumers s !! id).

Definition protocol_for (id : ClientId) (dflt : BridgeProtocol) (s : Shared) : BridgeProtocol :=
  match sh_consumers s !! id with Some c => con_protocol c | None => dflt end.

(** Echo to the sender. *)
Definition echo (id : ClientId) (m : Message) (s : Shared) : Shared :=
  match sh_consumers s !! id with
  | Some c =>
      set_consumers (sh_consumers s) (try_send (sh_net s) (resp_id (con_responder c)) m).1 s
  | None => s
  end.

(** The [CURRENT_USER_UPDATE] fan-out: prunes, but does not count. *)
Definition announce_user (user : RpcUser) (s : Shared) : Shared :=
  let frame := current_user_update user in
  let '(consumers, net, _) :=
    fan_out_prune (λ net c, send_frame net (con_responder c) frame (con_protocol c))
      always (sh_consumers s) (sh_net s) in
  set_consumers consumers net s.

Definition on_message (env : Env) (default_protocol : BridgeProtocol) (id : ClientId)
    (m : Message) (s : Shared) : Shared :=
  if negb (is_registered id s) then s
  else match m with
  | Text text =>
      let '(user, control) := handle_bridge_control (env_vars env) (sh_user s) text in
      let s := set_user user s in
      match control with
      | Some (ack, changed) =>
          let protocol := protocol_for id default_protocol s in
          let s :=
            match sh_consumers s !! id with
            | Some c => set_consumers (sh_consumers s)
                (send_frame (sh_net s) (con_responder c) ack protocol).1 s
            | None => s
            end in
          match changed with
          | Some user => announce_user user s
          | None => s
          end
      | None => echo id (Text text) s
      end
  | Binary _ => echo id m s
  end.

(** ** Refresh and persistence *)

Definition refresh_collect (s : Shared) : list CachedActivity :=
  (λ kv, kv.2.1) <$> hm_iter (sh_cache s).

Definition refresh_send (payloads : list CachedActivity) (s : Shared) : Shared :=
  set_dirty true (foldl (λ s p, send_to_all p s) s payloads).

(** [refresh_once]. *)
Definition refresh_once (s : Shared) : Shared :=
  if decide (sh_consumers s = ∅) then set_dirty true s
  else refresh_send (refresh_collect s) s.

(** One tick of [persist_task]: whether a snapshot is written. *)
Definition persist_tick (s : Shared) : bool * Shared := (sh_dirty s, set_dirty false s).
End Bridge.

(** ** A concrete bridge, for evaluation *)

Module BridgeDemo.
Definition env : Env := {|
  env_probe := λ pid, negb (pid =? 99)%Z; env_now_secs := 1750000000;
  env_now_ms := 1750000000000; env_instant := 0; env_vars := ∅ |}.

Definition responder : Responder :=
  {| resp_id := 1; resp_origin := None; resp_uri := "/" |}.
Definition consumer : Consumer := {| con_responder := responder; con_protocol := PJson |}.
Definition outbox : Outbox := {| ob_queue := []; ob_cap := 8; ob_closed := false |}.

(** Nothing connected yet. *)
Definition start : Shared := Shared_new RpcUser_default [].
(** A connection that has not been announced yet. *)
Definition dialing : Shared := set_consumers ∅ {[1%Z := outbox]} start.
(** One JSON consumer with room. *)
Definition online : Shared := set_consumers {[1%Z := consumer]} {[1%Z := outbox]} start.

Definition game : ScannedGame := {|
  sg_id := "1111"; sg_name := "Game"; sg_pid := 88; sg_start := 1750000000;
  sg_source := Automaton; sg_process_start_ms := None |}.

Definition clear_cmd : ActivityCmd := {|
  cmd_application_id := Some "1111"; cmd_cmd := "SET_ACTIVITY";
  cmd_args := Some {| arg_pid := Some 77%Z; arg_activity := None;
                      arg_code := None; arg_user_id := None |};
  cmd_data := None; cmd_evt := None; cmd_nonce := VNull |}.

Definition with_card (s : Shared) : Shared := set_cache {["1111" := (demo_card 88, 1%Z)]} 1 s.
End BridgeDemo.
