(* ===== verification/BridgeInv.v ===== *)
(** * Invariants of the bridge under any interleaving

    The pumps run as tasks on several threads and share [Shared] through
    short critical sections.  [section_step] is one such section, with
    whatever arguments; every handler of Bridge.v is a sequence of them,
    so what holds of every state reachable by sections holds under any
    interleaving of the handlers. *)

From stdpp Require Import base gmap strings list fin_maps sets relations sorting.
From S2P Require Import Prelude RStr HashMaps Json Ids Cmd User Protocol Handoff Replay.
From S2P Require Import Consumers Bridge.

Local Open Scope string_scope.
Local Open Scope nat_scope.
Local Open Scope list_scope.

Section Sections.
Context `{Serde, HashOrder}.

Inductive section_step : Shared → Shared → Prop :=
  | sec_outboxes net s :
      section_step s (set_consumers (sh_consumers s) net s)
  | sec_fan_out msg wanted consumers net n s :
      fan_out_prune (send_message msg) wanted (sh_consumers s) (sh_net s)
        = (consumers, net, n) →
      section_step s (set_consumers consumers net s)
  | sec_register id r protocol s :
      resp_id r = id → origin_allowed (resp_origin r) (sh_allowed_origins s) = true →
      section_step s (connect_register id r protocol s)
  | sec_disconnect id s : section_step s (on_disconnect id s)
  | sec_cache payload socket_id s : section_step s (cache_activity payload socket_id s)
  | sec_track probe app pid s :
      section_step s
        (set_last_process (track_process_publication probe (sh_last_process s) app pid) s)
  | sec_untrack lp s :
      lp ⊆ sh_last_process s → section_step s (set_last_process lp s)
  | sec_publish probe app pid s :
      section_step s (set_handoff (note_publish probe (sh_handoff s) app pid) s)
  | sec_release cmd s :
      section_step s (set_handoff (release_slots cmd (sh_handoff s)).1 s)
  | sec_unscan app pid s :
      section_step s (set_handoff (note_remove (sh_handoff s) app pid).1 s)
  | sec_scan probe game s :
      section_step s (set_handoff (note_scan probe (sh_handoff s) game) s)
  | sec_flood env cmd fingerprint s :
      section_step s (flood_dropped env cmd fingerprint s).1
  | sec_user user s : section_step s (set_user user s)
  | sec_dirty b s : section_step s (set_dirty b s)
  | sec_dropped n s : section_step s (add_dropped n s).

(** ** The invariant *)

Record shared_ok (s : Shared) : Prop := {
  so_consumers : consumers_ok (sh_consumers s);
  so_origins : ∀ id c, sh_consumers s !! id = Some c →
    origin_allowed (resp_origin (con_responder c)) (sh_allowed_origins s) = true;
  so_cache_size : size (sh_cache s) ≤ MAX_CACHED_ACTIVITIES;
  so_cache_cards : ∀ k v, sh_cache s !! k = Some v → ca_is_clear v.1 = false;
  so_last_process : size (sh_last_process s) ≤ MAX_HANDOFF_ENTRIES;
  so_handoff : handoff_ok (sh_handoff s);
  so_recent : ra_cap (sh_recent s) = DEFAULT_CAP ∧
    size (ra_entries (sh_recent s)) ≤ DEFAULT_CAP
}.

Lemma shared_new_ok user origins : shared_ok (Shared_new user origins).
Proof.
  split; simpl; try done; try (rewrite map_size_empty; lia);
    try (intros ??; by rewrite lookup_empty).
  - apply handoff_default_ok.
Qed.

Lemma release_slots_ok cmd h : handoff_ok h → handoff_ok (release_slots cmd h).1.
Proof.
  intros Hh. unfold release_slots. destruct (cmd_application_id cmd) as [app|].
  - pose proof (note_clear_ok h app (publish_pid cmd) Hh).
    by destruct (note_clear h app (publish_pid cmd)).
  - pose proof (note_clear_pid_ok h (publish_pid cmd) Hh).
    by destruct (note_clear_pid h (publish_pid cmd)).
Qed.

Lemma cache_activity_ok payload socket_id s :
  shared_ok s → shared_ok (cache_activity payload socket_id s).
Proof.
  intros [Hc Ho Hs Hk Hl Hh Hr]. unfold cache_activity.
  destruct (ca_is_clear payload) eqn:E; split; simpl; try done.
  - etrans; [apply map_subseteq_size, delete_subseteq|done].
  - intros k v [_ ?]%lookup_delete_Some. by eapply Hk.
  - rewrite prune_cache_size. lia.
  - intros k v Hv. eapply lookup_weaken in Hv; [|apply prune_cache_newest].
    apply lookup_insert_Some in Hv as [[_ <-]|[_ ?]]; [done|by eapply Hk].
Qed.

(** A fan-out only removes consumers. *)
Lemma fan_out_prune_sub msg wanted consumers net consumers' net' n :
  consumers_ok consumers →
  fan_out_prune (send_message msg) wanted consumers net = (consumers', net', n) →
  consumers' ⊆ consumers.
Proof.
  intros Hok E. apply fan_out_prune_spec in E as (Hc & _ & _); [|done].
  apply map_subseteq_spec. intros id c. rewrite Hc.
  destruct (consumers !! id); [|done]. by case_match.
Qed.

Lemma shared_ok_consumers_sub consumers net s :
  consumers ⊆ sh_consumers s → shared_ok s → shared_ok (set_consumers consumers net s).
Proof.
  intros Hsub [Hc Ho Hs Hk Hl Hh Hr]. split; simpl; try done; intros id c Hid;
    (eapply lookup_weaken in Hid; [|done]); eauto.
Qed.

Lemma section_step_ok s s' : section_step s s' → shared_ok s → shared_ok s'.
Proof.
  intros Hst Hok. pose proof Hok as [Hc Ho Hs Hk Hl Hh Hr].
  destruct Hst as [net s|msg wanted cs net n s E|id r p s Hid Hor|id s|payload sid s
    |probe app pid s|lp s Hlp|probe app pid s|cmd s|app pid s|probe game s
    |env cmd fp s|u s|b s|n s].
  - by apply shared_ok_consumers_sub.
  - apply shared_ok_consumers_sub; [by eapply fan_out_prune_sub|done].
  - split; simpl; try done; intros i c [[<- <-]|[_ ?]]%lookup_insert_Some; eauto.
  - apply shared_ok_consumers_sub; [apply delete_subseteq|done].
  - by apply cache_activity_ok.
  - split; simpl; try done. apply bounded_insert_size.
  - split; simpl; try done. etrans; [by apply map_subseteq_size|done].
  - split; simpl; try done. by apply note_publish_ok.
  - split; simpl; try done. by apply release_slots_ok.
  - split; simpl; try done. by apply note_remove_ok.
  - split; simpl; try done. by apply note_scan_ok.
  - destruct Hr as [Hr1 Hr2]. unfold flood_dropped.
    pose proof (should_drop_cap (sh_recent s) (cmd_application_id cmd) (publish_pid cmd) fp
      (env_instant env)) as Hcap.
    pose proof (should_drop_bounded (sh_recent s) (cmd_application_id cmd) (publish_pid cmd) fp
      (env_instant env) ltac:(rewrite Hr1; unfold DEFAULT_CAP; lia) ltac:(lia)) as Hbd.
    destruct (should_drop _ _ _ _ _) as [d recent]. split; simpl in *; try done.
    split; [congruence|lia].
  - by split.
  - by split.
  - by split.
Qed.

Lemma sections_ok s s' : rtc section_step s s' → shared_ok s → shared_ok s'.
Proof. induction 1 as [|s1 s2 s3 Hst _ IH]; [done|]. intros. by eapply IH, section_step_ok. Qed.

Lemma section_origins s s' :
  section_step s s' → sh_allowed_origins s' = sh_allowed_origins s.
Proof.
  intros Hst. destruct Hst; try done.
  - unfold cache_activity. by case_match.
  - unfold flood_dropped. by case_match.
Qed.

Lemma sections_origins s s' :
  rtc section_step s s' → sh_allowed_origins s' = sh_allowed_origins s.
Proof. induction 1 as [|s1 s2 s3 Hst _ IH]; [done|]. by rewrite IH, (section_origins s1 s2). Qed.

(** C2: under any interleaving of the pumps' critical sections the
    bridge stays within its bounds (50 cached cards, 64 slots per
    handoff table, 128 flood-guard entries), never caches a clear, and
    never holds a consumer whose origin was refused. *)
Theorem bridge_invariant user origins s :
  rtc section_step (Shared_new user origins) s →
  shared_ok s ∧ sh_allowed_origins s = origins.
Proof.
  intros Hr. split; [by eapply sections_ok, shared_new_ok|].
  by rewrite (sections_origins _ _ Hr).
Qed.

(** ** Handlers are sequences of sections *)

Inductive bridge_step (s : Shared) : Shared → Prop :=
  | bs_command env cmd : bridge_step s (command_step env cmd s)
  | bs_proc env input had_games : bridge_step s (proc_step env input had_games s).2
  | bs_connect dflt id r : resp_id r = id → bridge_step s (on_connect dflt id r s)
  | bs_disconnect id : bridge_step s (on_disconnect id s)
  | bs_message env dflt id m : bridge_step s (on_message env dflt id m s)
  | bs_refresh : bridge_step s (refresh_once s)
  | bs_persist : bridge_step s (persist_tick s).2
  | bs_connections net : bridge_step s (set_consumers (sh_consumers s) net s).

Notation "s ⟶* t" := (rtc section_step s t) (at level 70).

Lemma one s t : section_step s t → s ⟶* t.
Proof. apply rtc_once. Qed.

Lemma foldl_sections {A} (f : Shared → A → Shared) l s :
  (∀ s a, s ⟶* f s a) → s ⟶* foldl f s l.
Proof.
  intros Hf. revert s. induction l as [|a l IH]; intros s; simpl; [done|].
  etrans; [apply Hf|apply IH].
Qed.

Lemma pass_sections msg wanted s :
  s ⟶* (let '(consumers, net, dead) :=
          fan_out_prune (send_message msg) wanted (sh_consumers s) (sh_net s) in
        add_dropped dead (set_consumers consumers net s)).
Proof.
  destruct (fan_out_prune _ _ _ _) as [[cs net] n] eqn:E.
  eapply rtc_l; [by eapply sec_fan_out|]. apply one, sec_dropped.
Qed.

Lemma send_to_all_sections p s : s ⟶* send_to_all p s.
Proof. unfold send_to_all. case_decide; [done|]. apply pass_sections. Qed.

Lemma broadcast_raw_sections cmd s : s ⟶* broadcast_raw cmd s.
Proof.
  unfold broadcast_raw. case_decide; [done|]. apply foldl_sections. intros s1 [p [m|]].
  - apply pass_sections.
  - done.
Qed.

Lemma broadcast_activity_sections p sid s : s ⟶* broadcast_activity p sid s.
Proof.
  eapply rtc_l; [apply (sec_cache p sid)|].
  eapply rtc_r; [apply (send_to_all_sections p)|apply sec_dirty].
Qed.

Lemma broadcast_clear_sections pid sid s : s ⟶* broadcast_clear pid sid s.
Proof.
  unfold broadcast_clear. destruct (empty_cached pid sid);
    [apply broadcast_activity_sections|apply one, sec_dropped].
Qed.

Lemma resume_generic_sections env s game : s ⟶* resume_generic env s game.
Proof.
  unfold resume_generic. eapply rtc_l; [apply sec_track|].
  destruct (generic_payload (env_now_ms env) game);
    [apply broadcast_activity_sections|apply one, sec_dropped].
Qed.

Lemma resume_after_clear_sections env cmd s : s ⟶* resume_after_clear env cmd s.
Proof.
  unfold resume_after_clear. destruct (is_genuine_clear cmd); simpl; [|done].
  pose proof (sec_release cmd s) as Hrel.
  destruct (release_slots cmd (sh_handoff s)) as [h resume].
  eapply rtc_l; [exact Hrel|]. apply foldl_sections. intros. apply resume_generic_sections.
Qed.

Lemma bridge_set_activity_sections env cmd s : s ⟶* bridge_set_activity env cmd s.
Proof.
  unfold bridge_set_activity. destruct (activity_fingerprint _ cmd) as [cmd1 fp].
  pose proof (sec_flood env cmd1 fp s) as Hfl.
  destruct (flood_dropped env cmd1 fp s) as [s1 dropped]. simpl in Hfl.
  eapply rtc_l; [exact Hfl|]. destruct dropped; [done|].
  destruct (negb _); [done|].
  transitivity (note_sdk_publish env cmd1 s1).
  { unfold note_sdk_publish. destruct (cmd_activity cmd1 ≫= act_application_id);
      [apply one, sec_publish|done]. }
  etrans; [apply (resume_after_clear_sections env cmd1)|].
  destruct (activity_changed _ _ _); [|done].
  destruct (cached_activity _ _ _); [apply broadcast_activity_sections|done].
Qed.

Lemma on_cleared_sections env s : s ⟶* on_cleared env s.
Proof.
  unfold on_cleared, take_process_clear.
  eapply rtc_l; [apply (sec_scan (env_probe env) None)|].
  eapply rtc_l; [apply (sec_untrack ∅); apply map_empty_subseteq|].
  set (s1 := set_last_process _ _). set (l := merge_sort _ _). cbv zeta.
  transitivity (foldl (λ s pa, broadcast_clear pa.1 (SocketId_from_AppId pa.2) s) s1 l);
    apply foldl_sections; intros; apply broadcast_clear_sections.
Qed.

Lemma on_detected_sections env game s : s ⟶* on_detected env game s.
Proof.
  unfold on_detected. eapply rtc_l; [apply (sec_scan (env_probe env) (Some game))|].
  set (s1 := set_handoff _ s). clearbody s1. destruct (owner_of _ _).
  - eapply rtc_l; [apply sec_untrack, (delete_subseteq _ (sg_id game))|].
    destruct (sh_last_process s1 !! _); [apply broadcast_clear_sections|done].
  - case_match; [done|]. apply resume_generic_sections.
Qed.

Lemma on_removed_sections env app pid s : s ⟶* on_removed env app pid s.
Proof.
  unfold on_removed, take_matching_process.
  eapply rtc_l; [apply (sec_unscan app pid)|].
  set (s1 := set_handoff _ s). clearbody s1. destruct (opt_any _ _).
  - eapply rtc_l; [apply sec_untrack, (delete_subseteq _ app)|].
    destruct (sh_last_process s1 !! _); [apply broadcast_clear_sections|done].
  - apply one. by apply sec_untrack.
Qed.

Lemma on_connect_sections dflt id r s : resp_id r = id → s ⟶* on_connect dflt id r s.
Proof.
  intros Hid. unfold on_connect. destruct (origin_allowed _ _) eqn:Ho; simpl.
  - unfold connect_replay. destruct (send_frame _ _ _ _) as [net b].
    eapply rtc_l; [apply sec_outboxes|]. apply one. by apply sec_register.
  - apply one, sec_outboxes.
Qed.

Lemma announce_user_sections u s : s ⟶* announce_user u s.
Proof.
  unfold announce_user, fan_out_prune.
  rewrite (fan_out_ext _ (send_message (frame_message (current_user_update u))))
    by (intros; apply send_frame_message).
  destruct (fan_out _ _ _) as [net dead] eqn:E.
  apply one. eapply (sec_fan_out _ always). unfold fan_out_prune. by rewrite E.
Qed.

Lemma echo_sections id m s : s ⟶* echo id m s.
Proof. unfold echo. case_match; [apply one, sec_outboxes|done]. Qed.

Lemma on_message_sections env dflt id m s : s ⟶* on_message env dflt id m s.
Proof.
  unfold on_message. destruct (is_registered id s); cbn [negb]; [|done].
  destruct m as [text|]; [|apply echo_sections].
  destruct (handle_bridge_control _ _ _) as [user [[ack changed]|]];
    (eapply rtc_l; [apply (sec_user user)|]); [|apply echo_sections].
  set (s1 := set_user user s). clearbody s1.
  transitivity (match sh_consumers s1 !! id with
    | Some c => set_consumers (sh_consumers s1)
        (send_frame (sh_net s1) (con_responder c) ack (protocol_for id dflt s1)).1 s1
    | None => s1 end).
  { case_match; [apply one, sec_outboxes|done]. }
  destruct changed; [apply announce_user_sections|done].
Qed.

Lemma refresh_once_sections s : s ⟶* refresh_once s.
Proof.
  unfold refresh_once, refresh_send. case_decide; [apply one, sec_dirty|].
  eapply rtc_r; [|apply sec_dirty]. apply foldl_sections. intros. apply send_to_all_sections.
Qed.

(** Every handler of every pump, run alone, is a sequence of these
    critical sections, so the invariant covers all their interleavings. *)
Theorem handlers_are_sections s s' : bridge_step s s' → rtc section_step s s'.
Proof.
  intros [env cmd|env input hg|dflt id r Hid|id|env dflt id m| | |net].
  - unfold command_step. destruct (negb _);
      [apply broadcast_raw_sections|apply bridge_set_activity_sections].
  - destruct input; simpl; [apply on_detected_sections|apply on_removed_sections
      |apply on_cleared_sections].
  - by apply on_connect_sections.
  - apply one, sec_disconnect.
  - apply on_message_sections.
  - apply refresh_once_sections.
  - apply one, sec_dirty.
  - apply one, sec_outboxes.
Qed.
End Sections.

(** ** Witnesses *)

Lemma bridge_invariant_witness :
  shared_ok (@on_detected demo_serde default_order BridgeDemo.env BridgeDemo.game
    BridgeDemo.start) ∧
  sh_allowed_origins (@on_detected demo_serde default_order BridgeDemo.env BridgeDemo.game
    BridgeDemo.start) = [].
Proof.
  apply (@bridge_invariant default_order RpcUser_default []).
  apply on_detected_sections.
Defined.

Lemma handlers_are_sections_witness :
  rtc (@section_step default_order) BridgeDemo.online
    (@command_step demo_serde default_order BridgeDemo.env demo_cmd BridgeDemo.online).
Proof. apply (@handlers_are_sections demo_serde default_order). apply bs_command. Defined.
