(* ===== verification/BridgeProps.v ===== *)
(** * What the bridge does

    Functional theorems about the handlers of Bridge.v: fan-out, detection
    against SDK ownership, removals, ghosts and the replay for late
    joiners. *)

From stdpp Require Import base gmap strings list fin_maps sets sorting.
From S2P Require Import Prelude RStr HashMaps Json Ids Cmd User Protocol Handoff Replay.
From S2P Require Import Consumers Bridge.

Local Open Scope string_scope.
Local Open Scope nat_scope.
Local Open Scope list_scope.

Section Effects.
Context `{Serde, HashOrder}.

(** Everything of the state a fan-out leaves alone. *)
Definition core (s : Shared) :=
  (sh_cache s, sh_activity_seq s, sh_last_process s, sh_handoff s, sh_recent s, sh_user s,
   sh_allowed_origins s).

Lemma send_to_all_core p s : core (send_to_all p s) = core s.
Proof.
  unfold send_to_all. case_decide; [done|]. by destruct (fan_out_prune _ _ _ _) as [[? ?] ?].
Qed.

Lemma broadcast_activity_core p sid s :
  core (broadcast_activity p sid s) = core (cache_activity p sid s).
Proof. exact (send_to_all_core p (cache_activity p sid s)). Qed.

(** ** Payloads that always build *)

Lemma empty_cached_total pid sid : SerdeTotal →
  ∃ p, empty_cached pid sid = Some p ∧ ca_is_clear p = true.
Proof.
  intros HT. unfold empty_cached.
  set (v := payload_value _). destruct (json_to_string_total v) as [j ->].
  destruct (msgpack_to_vec_total v) as [m ->]. by eexists.
Qed.

Lemma generic_payload_total now game : SerdeTotal →
  ∃ p, generic_payload now game = Some p ∧ ca_is_clear p = false ∧ ca_pid p = sg_pid game.
Proof.
  intros HT. unfold generic_payload. set (pp := Build_ProcessPayload _ _ _ _ _ _ _).
  destruct (json_to_string_total (process_activity_value pp)) as [a ->].
  destruct (json_to_string_total (process_payload_value pp)) as [j ->].
  destruct (msgpack_to_vec_total (process_payload_value pp)) as [m ->]. by eexists.
Qed.

Lemma broadcast_clear_core pid sid s : SerdeTotal →
  core (broadcast_clear pid sid s)
  = core (set_cache (delete sid (sh_cache s)) (sh_activity_seq s) s).
Proof.
  intros HT. unfold broadcast_clear. destruct (empty_cached_total pid sid HT) as (p & -> & Hp).
  rewrite broadcast_activity_core. unfold cache_activity. by rewrite Hp.
Qed.

(** ** Fan-out *)

Lemma send_to_all_spec p s :
  consumers_ok (sh_consumers s) →
  let s' := send_to_all p s in
  (∀ id c, sh_consumers s !! id = Some c →
     match deliver (sh_net s !! id) (Some (payload_message p (con_protocol c))) with
     | Some ob => sh_consumers s' !! id = Some c ∧ sh_net s' !! id = Some ob
     | None => sh_consumers s' !! id = None ∧ sh_net s' !! id = sh_net s !! id
     end) ∧
  (∀ id, sh_consumers s !! id = None →
     sh_consumers s' !! id = None ∧ sh_net s' !! id = sh_net s !! id) ∧
  (is_u64 (sh_dropped_broadcasts s) → sh_dropped_broadcasts s'
    = wrap_u64 (sh_dropped_broadcasts s
                + Z.of_nat (size (sh_consumers s) - size (sh_consumers s')))).
Proof.
  intros Hok. cbv zeta. unfold send_to_all. case_decide as He.
  { rewrite He. split_and!; [intros id; by rewrite lookup_empty|
      intros id; by rewrite lookup_empty|].
    intros. by rewrite Nat.sub_diag, Z.add_0_r, wrap_u64_id. }
  destruct (fan_out_prune _ _ _ _) as [[cs net] n] eqn:E.
  apply fan_out_prune_spec in E as (Hcs & Hnet & Hn); [|done]. simpl.
  split_and!; [| |intros; f_equal; lia].
  - intros id c Hid. rewrite Hcs, Hnet, Hid. unfold pruned. simpl.
    destruct (deliver _ _); done.
  - intros id Hid. by rewrite Hcs, Hnet, Hid.
Qed.

Lemma cache_activity_net p sid s :
  sh_consumers (cache_activity p sid s) = sh_consumers s ∧
  sh_net (cache_activity p sid s) = sh_net s ∧
  sh_dropped_broadcasts (cache_activity p sid s) = sh_dropped_broadcasts s.
Proof. unfold cache_activity. by case_match. Qed.

(** A broadcast reaches everyone: each consumer with room gets the
    payload in its own encoding appended to its queue and stays; each
    one without (full or gone) is pruned with its queue untouched, and
    counted; nobody else's queue changes. *)
Theorem broadcast_reaches_everyone p sid s :
  consumers_ok (sh_consumers s) → is_u64 (sh_dropped_broadcasts s) →
  let s' := broadcast_activity p sid s in
  (∀ id c, sh_consumers s !! id = Some c →
     match deliver (sh_net s !! id) (Some (payload_message p (con_protocol c))) with
     | Some ob => sh_consumers s' !! id = Some c ∧ sh_net s' !! id = Some ob
     | None => sh_consumers s' !! id = None ∧ sh_net s' !! id = sh_net s !! id
     end) ∧
  (∀ id, sh_consumers s !! id = None →
     sh_consumers s' !! id = None ∧ sh_net s' !! id = sh_net s !! id) ∧
  sh_dropped_broadcasts s'
    = wrap_u64 (sh_dropped_broadcasts s
                + Z.of_nat (size (sh_consumers s) - size (sh_consumers s'))) ∧
  sh_dirty s' = true.
Proof.
  intros Hok Hd. destruct (cache_activity_net p sid s) as (Hc & Hn & Hdr).
  pose proof (send_to_all_spec p (cache_activity p sid s)) as Hs.
  rewrite Hc, Hn, Hdr in Hs. destruct (Hs Hok) as (H1 & H2 & H3).
  split_and!; [exact H1|exact H2|by apply H3|done].
Qed.

(** ** Late joiners *)

Lemma try_send_room net id ob m :
  net !! id = Some ob → ob_closed ob = false → length (ob_queue ob) < ob_cap ob →
  try_send net id m = (<[id := push ob (CmdMessage m)]> net, None).
Proof.
  intros E Hc Hl. unfold try_send. rewrite E, Hc. by rewrite decide_False by lia.
Qed.

Lemma replay_queue (r : Responder) protocol (l : list (SocketId * (CachedActivity * Z))) :
  ∀ net ob,
  net !! resp_id r = Some ob → ob_closed ob = false →
  length (ob_queue ob) + length l ≤ ob_cap ob →
  foldl (λ net kv, send_cached net r kv.2.1 protocol) net l !! resp_id r
  = Some {| ob_queue := ob_queue ob
              ++ map (λ kv, CmdMessage (payload_message kv.2.1 protocol)) l;
            ob_cap := ob_cap ob; ob_closed := false |}.
Proof.
  induction l as [|kv l IH]; intros net ob E Hc Hl; simpl in *.
  { rewrite E, app_nil_r. destruct ob; simpl in *; by subst. }
  unfold send_cached at 2. rewrite (try_send_room _ _ ob) by (done || lia). simpl.
  rewrite (IH _ (push ob (CmdMessage (payload_message kv.2.1 protocol))));
    [|by rewrite lookup_insert_eq|done|simpl; rewrite length_app; simpl; lia].
  simpl. by rewrite <-app_assoc.
Qed.

(** A late joiner converges: a new consumer of an allowed origin
    whose outbox has room is sent READY and then every cached card, once
    each, in its own encoding, and is registered for what follows. *)
Theorem late_joiner_replay dflt id r s ob :
  resp_id r = id → origin_allowed (resp_origin r) (sh_allowed_origins s) = true →
  from_query (resp_uri r) dflt = PJson →
  sh_net s !! id = Some ob → ob_closed ob = false →
  length (ob_queue ob) + S (size (sh_cache s)) ≤ ob_cap ob →
  let s' := on_connect dflt id r s in
  ob_queue <$> sh_net s' !! id
  = Some (ob_queue ob ++ CmdMessage (Text (ready_payload (sh_user s)))
            :: map (λ p, CmdMessage (Text (ca_json p))) (refresh_collect s)) ∧
  sh_consumers s' !! id = Some {| con_responder := r; con_protocol := PJson |} ∧
  core s' = core s.
Proof.
  intros <- Ho Hq Hob Hc Hl. cbv zeta. unfold on_connect. rewrite Ho, Hq. simpl.
  unfold connect_replay, send_frame.
  rewrite (try_send_room _ _ ob) by (done || lia). simpl.
  split_and!; [|by rewrite lookup_insert_eq|done].
  rewrite (replay_queue r PJson _ _ (push ob (CmdMessage (Text (ready_payload (sh_user s))))));
    [|by rewrite lookup_insert_eq|done|simpl; rewrite length_app, hm_iter_length; simpl; lia].
  simpl. rewrite <-app_assoc. unfold refresh_collect.
  by rewrite <-(map_map (λ kv : string * (CachedActivity * Z), kv.2.1)
    (λ p, CmdMessage (Text (ca_json p)))).
Qed.

(** ** Stamps *)

(** The next stamp is newer than every cached one (true until the 64-bit
    counter wraps). *)
Definition fresh_stamps (s : Shared) : Prop :=
  ∀ k v, sh_cache s !! k = Some v → (v.2 < wrap_u64 (sh_activity_seq s + 1))%Z.

Lemma cache_activity_card p sid s :
  ca_is_clear p = false → fresh_stamps s →
  sh_cache (cache_activity p sid s) !! sid = Some (p, wrap_u64 (sh_activity_seq s + 1)).
Proof.
  intros Hp Hf. unfold cache_activity. rewrite Hp. simpl. by apply prune_insert_lookup.
Qed.

(** The rest of [resume_generic] after the table update. *)
Lemma resume_generic_core env s game p :
  generic_payload (env_now_ms env) game = Some p →
  core (resume_generic env s game)
  = core (cache_activity p (sg_id game) (set_last_process
      (track_process_publication (env_probe env) (sh_last_process s) (sg_id game)
         (sg_pid game)) s)).
Proof. intros E. unfold resume_generic. rewrite E. apply broadcast_activity_core. Qed.

Lemma track_room probe lp app pid :
  size lp < MAX_HANDOFF_ENTRIES →
  track_process_publication probe lp app pid !! app = Some pid.
Proof.
  intros Hs. unfold track_process_publication. rewrite bounded_insert_room by done.
  apply lookup_insert_eq.
Qed.

Lemma core_fields s t : core s = core t →
  sh_cache s = sh_cache t ∧ sh_last_process s = sh_last_process t ∧
  sh_handoff s = sh_handoff t ∧ sh_activity_seq s = sh_activity_seq t ∧
  sh_recent s = sh_recent t ∧ sh_user s = sh_user t.
Proof. unfold core. intros [= ]. done. Qed.

Lemma cache_activity_tables p sid s :
  sh_last_process (cache_activity p sid s) = sh_last_process s ∧
  sh_handoff (cache_activity p sid s) = sh_handoff s.
Proof. unfold cache_activity. by case_match. Qed.

(** ** Detection *)

(** Detection of an unowned game shows it: a game no SDK connection
    owns and no card shows yet is published under its application id,
    remembered for its later clear and for a later hand-back. *)
Theorem detected_publishes env game s :
  SerdeTotal → fresh_stamps s →
  size (sh_last_process s) < MAX_HANDOFF_ENTRIES →
  size (last_scans (sh_handoff s)) < MAX_HANDOFF_ENTRIES →
  owner_of (sh_handoff s) (sg_id game) = None →
  sh_last_process s !! sg_id game = None →
  let s' := on_detected env game s in
  (∃ p seq, sh_cache s' !! sg_id game = Some (p, seq) ∧
     generic_payload (env_now_ms env) game = Some p) ∧
  sh_last_process s' !! sg_id game = Some (sg_pid game) ∧
  resume_for (sh_handoff s') (sg_id game) = Some game.
Proof.
  intros HT Hf Hlp Hsc Ho Hn. cbv zeta. unfold on_detected.
  set (s1 := set_handoff _ s).
  assert (owner_of (sh_handoff s1) (sg_id game) = None) as -> by done.
  assert (sh_last_process s1 !! sg_id game = None) as -> by done. simpl.
  destruct (generic_payload_total (env_now_ms env) game HT) as (p & Hp & Hcl & _).
  pose proof (resume_generic_core env s1 game p Hp) as Hc.
  apply core_fields in Hc as (-> & -> & -> & _).
  destruct (cache_activity_tables p (sg_id game) (set_last_process
    (track_process_publication (env_probe env) (sh_last_process s1) (sg_id game)
       (sg_pid game)) s1)) as [-> ->].
  split_and!.
  - do 2 eexists. split; [by apply cache_activity_card|done].
  - by apply track_room.
  - unfold resume_for. simpl. rewrite bounded_insert_room by done. apply lookup_insert_eq.
Qed.

(** IPC wins: detecting a game whose slot a live SDK connection owns
    publishes nothing; a generic card shown so far is withdrawn, the
    scan is remembered, and every other card stays. *)
Theorem detected_yields env game s owner :
  SerdeTotal → owner_of (sh_handoff s) (sg_id game) = Some owner →
  let s' := on_detected env game s in
  sh_last_process s' = delete (sg_id game) (sh_last_process s) ∧
  owner_of (sh_handoff s') (sg_id game) = Some owner ∧
  sh_cache s' = (if is_some (sh_last_process s !! sg_id game)
                 then delete (sg_id game) (sh_cache s) else sh_cache s) ∧
  sh_activity_seq s' = sh_activity_seq s.
Proof.
  intros HT Ho. cbv zeta. unfold on_detected. set (s1 := set_handoff _ s).
  assert (owner_of (sh_handoff s1) (sg_id game) = Some owner) as -> by done.
  change (sh_last_process s1) with (sh_last_process s).
  destruct (sh_last_process s !! sg_id game) as [pid|]; [|done].
  pose proof (broadcast_clear_core pid (SocketId_from_AppId (sg_id game))
    (set_last_process (delete (sg_id game) (sh_last_process s)) s1) HT) as Hc.
  by apply core_fields in Hc as (-> & -> & -> & -> & _).
Qed.

(** A stale removal is harmless: when the slot was re-armed under
    another pid since, [Removed] changes no card, no publication and no
    remembered scan, and sends nothing. *)
Theorem stale_removal_ignored env app pid s :
  sh_last_process s !! app ≠ Some pid →
  (∀ g, last_scans (sh_handoff s) !! app = Some g → sg_pid g ≠ pid) →
  on_removed env app pid s = s.
Proof.
  intros Hlp Hsc. unfold on_removed, note_remove, take_matching_process.
  destruct (last_scans (sh_handoff s) !! app) as [g|] eqn:Eg; simpl.
  - specialize (Hsc g eq_refl). destruct (Z.eqb_spec (sg_pid g) pid); [done|]. simpl.
    destruct (sh_last_process s !! app) as [q|] eqn:El; simpl; [|by destruct s].
    destruct (Z.eqb_spec q pid) as [->|]; [done|]. by destruct s.
  - destruct (sh_last_process s !! app) as [q|] eqn:El; simpl; [|by destruct s].
    destruct (Z.eqb_spec q pid) as [->|]; [done|]. by destruct s.
Qed.

(** ** An emptied process table *)

Lemma foldl_clear_core {A} (pid : A → Z) (sid : A → SocketId) l s : SerdeTotal →
  core (foldl (λ s a, broadcast_clear (pid a) (sid a) s) s l)
  = core (set_cache (foldl (λ c a, delete (sid a) c) (sh_cache s) l) (sh_activity_seq s) s).
Proof.
  intros HT. revert s. induction l as [|a l IH]; intros s; simpl; [by destruct s|].
  rewrite IH. pose proof (broadcast_clear_core (pid a) (sid a) s HT) as Hc.
  unfold core in *. simpl in *. injection Hc as -> -> -> -> -> -> ->. done.
Qed.

Lemma foldl_delete_lookup {A V} (sid : A → SocketId) (l : list A) (c : gmap SocketId V) k :
  foldl (λ c a, delete (sid a) c) c l !! k
  = if decide (k ∈ map sid l) then None else c !! k.
Proof.
  revert c. induction l as [|a l IH]; intros c; [done|].
  cbn [foldl map]. rewrite IH. destruct (decide (k = sid a)) as [->|Hne].
  - rewrite lookup_delete_eq. rewrite (decide_True (P := sid a ∈ sid a :: _)) by by left.
    by case_decide.
  - rewrite lookup_delete_ne by done. apply decide_ext. rewrite elem_of_cons. naive_solver.
Qed.

Lemma take_process_clear_keys s app :
  app ∈ map snd (take_process_clear s).2 ↔ is_Some (sh_last_process s !! app).
Proof.
  unfold take_process_clear; simpl. set (l := map _ (hm_iter _)).
  change (app ∈ snd <$> merge_sort clear_le l ↔ is_Some (sh_last_process s !! app)).
  rewrite (merge_sort_Permutation clear_le l). unfold l.
  rewrite list_elem_of_fmap. split.
  - intros ([p a] & -> & Hin). apply list_elem_of_In, in_map_iff in Hin
      as ([a' p'] & [= -> ->] & Hin%list_elem_of_In). apply hm_iter_elem in Hin. eauto.
  - intros [p Hp]. exists (p, app). split; [done|]. apply list_elem_of_In, in_map_iff.
    exists (app, p). split; [done|]. by apply list_elem_of_In, hm_iter_elem.
Qed.

(** What survives the ghost sweep. *)
Definition lives (env : Env) (k : SocketId) (v : CachedActivity * Z) : Prop :=
  ∀ pid, cache_entry_pid k v.1 = Some pid → is_process_alive (env_probe env) pid = true.

#[local] Instance lives_dec env k v : Decision (lives env k v).
Proof.
  destruct (cache_entry_pid k v.1) as [q|] eqn:E;
    [destruct (is_process_alive (env_probe env) q) eqn:Ea|].
  - left. intros pid ?. congruence.
  - right. intros Hl. specialize (Hl q E). congruence.
  - left. intros pid ?. congruence.
Defined.

Lemma ghosts_spec env cache k :
  k ∈ map fst (ghosts env cache) ↔ ∃ v, cache !! k = Some v ∧ ¬ lives env k v.
Proof.
  change (k ∈ fst <$> ghosts env cache ↔ ∃ v, cache !! k = Some v ∧ ¬ lives env k v).
  unfold ghosts, lives. rewrite list_elem_of_fmap. split.
  - intros ([k' pid] & -> & ([k2 v] & Hin & Hg)%list_elem_of_omap). simpl in *.
    apply hm_iter_elem in Hin. destruct (cache_entry_pid k2 v.1) as [q|] eqn:Eq; [|done].
    destruct (is_process_alive _ q) eqn:Ea; [done|]. simplify_eq.
    exists v. split; [done|]. intros Hl. rewrite (Hl pid Eq) in Ea. done.
  - intros (v & Hv & Hn). destruct (cache_entry_pid k v.1) as [q|] eqn:Eq;
      [|exfalso; apply Hn; intros ? [=]].
    destruct (is_process_alive (env_probe env) q) eqn:Ea.
    { exfalso. apply Hn. intros ? [= <-]. done. }
    exists (k, q). split; [done|]. apply list_elem_of_omap. exists (k, v).
    split; [by apply hm_iter_elem|]. simpl. by rewrite Eq, Ea.
Qed.

(** C11: an emptied process table clears exactly what it must: no
    generic publication or remembered scan survives, SDK owners are
    untouched, and a card survives in the replay cache exactly when it
    was no generic publication and its pid, if it has one, is alive. *)
Theorem cleared_reaps_ghosts env s : SerdeTotal →
  let s' := on_cleared env s in
  sh_last_process s' = ∅ ∧ last_scans (sh_handoff s') = ∅ ∧
  live_ipc (sh_handoff s') = live_ipc (sh_handoff s) ∧
  ∀ k v, sh_cache s' !! k = Some v ↔
    sh_cache s !! k = Some v ∧ sh_last_process s !! k = None ∧ lives env k v.
Proof.
  intros HT. cbv zeta. unfold on_cleared.
  set (s0 := set_handoff _ s). destruct (take_process_clear s0) as [s1 out] eqn:Et.
  assert (∀ app, app ∈ map snd out ↔ is_Some (sh_last_process s !! app)) as Hout.
  { intros app. pose proof (take_process_clear_keys s0 app) as Hk. by rewrite Et in Hk. }
  assert (s1 = set_last_process ∅ s0) as ->
    by (unfold take_process_clear in Et; by simplify_eq).
  set (s2 := foldl _ (set_last_process ∅ s0) out).
  assert (core s2 = core (set_cache
    (foldl (λ c (pa : Z * AppId), delete (SocketId_from_AppId pa.2) c) (sh_cache s) out)
    (sh_activity_seq s) (set_last_process ∅ s0))) as H2
    by exact (foldl_clear_core (λ pa : Z * AppId, pa.1) (λ pa, SocketId_from_AppId pa.2) out
      (set_last_process ∅ s0) HT).
  apply core_fields in H2 as (Hc2 & Hl2 & Hh2 & _).
  pose proof (foldl_clear_core (λ g : SocketId * Z, g.2) (λ g, g.1) (ghosts env (sh_cache s2))
    s2 HT) as H3. apply core_fields in H3 as (Hc3 & Hl3 & Hh3 & _).
  rewrite Hc3, Hl3, Hh3. simpl. rewrite Hl2, Hh2. simpl. split_and!; [done..|].
  intros k v. rewrite foldl_delete_lookup.
  assert (sh_cache s2 !! k = Some v ↔ sh_cache s !! k = Some v ∧ sh_last_process s !! k = None)
    as Hs2.
  { rewrite Hc2. simpl. rewrite foldl_delete_lookup.
    change (map (λ pa, SocketId_from_AppId pa.2) out) with (map snd out).
    case_decide as Hd; rewrite Hout in Hd; [|rewrite <-eq_None_not_Some in Hd; naive_solver].
    destruct Hd as [? Hd]. rewrite Hd. naive_solver. }
  case_decide as Hg; rewrite ghosts_spec in Hg.
  - destruct Hg as (w & Hw & Hnl). split; [done|]. intros (? & ? & Hl).
    assert (sh_cache s2 !! k = Some v) by by apply Hs2. naive_solver.
  - rewrite Hs2. split; [|naive_solver]. intros [Hk Hn]. split_and!; [done|done|].
    destruct (decide (lives env k v)); [done|]. exfalso. apply Hg. exists v.
    split; [by apply Hs2|done].
Qed.
End Effects.

(** ** Witnesses *)

Lemma online_consumers_ok : consumers_ok (sh_consumers BridgeDemo.online).
Proof.
  intros id c Hc. change (({[1%Z := BridgeDemo.consumer]} : gmap Z Consumer) !! id = Some c) in Hc.
  apply lookup_singleton_Some in Hc as [<- <-]. reflexivity.
Qed.

Lemma broadcast_reaches_everyone_witness :
  ob_queue <$> sh_net (@broadcast_activity default_order (demo_card 7) "7" BridgeDemo.online)
                 !! 1%Z
  = Some [CmdMessage (Text "json")].
Proof.
  destruct (@broadcast_reaches_everyone default_order (demo_card 7) "7" BridgeDemo.online)
    as (W & _ & _ & _).
  - exact online_consumers_ok.
  - vm_compute. split; discriminate.
  - destruct (W 1%Z BridgeDemo.consumer) as [_ Hn]; [reflexivity|]. rewrite Hn. reflexivity.
Defined.

Lemma late_joiner_replay_witness :
  is_Some (sh_consumers (@on_connect demo_serde default_order PJson 1%Z BridgeDemo.responder
    (BridgeDemo.with_card BridgeDemo.dialing)) !! 1%Z).
Proof.
  destruct (@late_joiner_replay demo_serde default_order PJson 1%Z BridgeDemo.responder
    (BridgeDemo.with_card BridgeDemo.dialing) BridgeDemo.outbox) as (_ & W & _);
    try reflexivity.
  - vm_compute. lia.
  - rewrite W. eexists. reflexivity.
Defined.

Lemma no_cards_fresh s : sh_cache s = ∅ → fresh_stamps s.
Proof. intros E k v. by rewrite E, lookup_empty. Qed.

Lemma detected_publishes_witness :
  sh_last_process (@on_detected demo_serde default_order BridgeDemo.env BridgeDemo.game
    BridgeDemo.online) !! "1111" = Some 88%Z.
Proof.
  apply (@detected_publishes demo_serde default_order BridgeDemo.env BridgeDemo.game
    BridgeDemo.online); try reflexivity.
  - exact demo_serde_total.
  - by apply no_cards_fresh.
  - vm_compute. lia.
  - vm_compute. lia.
Defined.

(** SDK pid 5 owns the slot whose generic card is shown. *)
Definition contested : Shared :=
  set_last_process {["1111" := 88%Z]}
    (set_handoff {| live_ipc := {["1111" := 5%Z]}; last_scans := ∅ |}
       (BridgeDemo.with_card BridgeDemo.online)).

Lemma detected_yields_witness :
  sh_cache (@on_detected demo_serde default_order BridgeDemo.env BridgeDemo.game contested) = ∅.
Proof.
  destruct (@detected_yields demo_serde default_order BridgeDemo.env BridgeDemo.game contested
    5%Z demo_serde_total eq_refl) as (_ & _ & W & _).
  rewrite W. reflexivity.
Defined.

Lemma stale_removal_ignored_witness :
  @on_removed demo_serde default_order BridgeDemo.env "1111" 66 contested = contested.
Proof.
  apply stale_removal_ignored.
  - vm_compute. discriminate.
  - intros g. vm_compute. discriminate.
Defined.

(** A generic card and the card of a dead pid. *)
Definition haunted : Shared :=
  set_cache {["1111" := (demo_card 88, 1%Z); "99" := (demo_card 99, 2%Z)]} 2 contested.

Lemma cleared_reaps_ghosts_witness :
  sh_cache (@on_cleared demo_serde default_order BridgeDemo.env haunted) !! "99" = None.
Proof.
  destruct (@cleared_reaps_ghosts demo_serde default_order BridgeDemo.env haunted
    demo_serde_total) as (_ & _ & _ & W).
  destruct (sh_cache _ !! "99") as [v|] eqn:E; [|reflexivity]. exfalso.
  apply W in E as (Hv & _ & Hl). vm_compute in Hv. injection Hv as <-.
  specialize (Hl 99%Z eq_refl). vm_compute in Hl. discriminate.
Defined.
