(* ===== verification/BridgeHandoff.v ===== *)
(** * The handoff end to end

    What a [SET_ACTIVITY] from an SDK connection does to the bridge: a
    publish takes the application's slot, a clear by its owner hands the
    slot back to generic detection, a lost connection releases every slot
    it owned, and a republish inside the flood window is a no-op. *)

From stdpp Require Import base gmap strings list fin_maps sets.
From S2P Require Import Prelude RStr HashMaps Json Ids Cmd User Protocol IpcFrame Handoff.
From S2P Require Import Replay Consumers Bridge BridgeInv BridgeProps.

Local Open Scope string_scope.
Local Open Scope nat_scope.
Local Open Scope list_scope.

Section EndToEnd.
Context `{Serde, HashOrder}.

(** ** The command after fingerprinting *)

Lemma map_activity_pid f cmd : publish_pid (map_activity f cmd) = publish_pid cmd.
Proof.
  unfold map_activity, publish_pid; simpl. by destruct (cmd_args cmd) as [[]|].
Qed.

Lemma map_activity_is_some f cmd :
  is_some (cmd_args (map_activity f cmd)) = is_some (cmd_args cmd).
Proof. unfold map_activity; simpl. by destruct (cmd_args cmd). Qed.

Lemma fingerprint_cmd now cmd cmd' fp :
  activity_fingerprint now cmd = (cmd', fp) →
  publish_pid cmd' = publish_pid cmd ∧ cmd_application_id cmd' = cmd_application_id cmd ∧
  is_some (cmd_args cmd') = is_some (cmd_args cmd) ∧
  cmd_activity cmd' = (λ a, set_application_id (cmd_application_id cmd) (fix_activity now a))
                        <$> cmd_activity cmd ∧
  fp = cmd_activity cmd' ≫= λ a, json_to_string (activity_value a).
Proof.
  unfold activity_fingerprint. intros [= <- <-]. unfold fix_cmd.
  rewrite !map_activity_pid, !map_activity_is_some, !map_activity_activity.
  split_and!; [done..| |done]. by destruct (cmd_activity cmd).
Qed.

Lemma genuine_clear_iff cmd :
  is_genuine_clear cmd = true ↔
  publish_pid cmd ≠ 0%Z ∧ is_some (cmd_args cmd) = true ∧ cmd_activity cmd = None.
Proof.
  unfold is_genuine_clear, publish_pid, cmd_activity.
  destruct (cmd_args cmd) as [[[pid|] act c u]|]; simpl; [|naive_solver..].
  destruct (Z.eqb_spec pid 0); simpl; [naive_solver|]. by destruct act; naive_solver.
Qed.

Lemma flood_clear env cmd s :
  flood_dropped env cmd None s
  = (set_recent (with_entries (sh_recent s)
       (delete (cmd_application_id cmd, publish_pid cmd) (ra_entries (sh_recent s)))) s, false).
Proof. done. Qed.

(** ** Resuming generics *)

Lemma resume_generic_handoff env s game :
  sh_handoff (resume_generic env s game) = sh_handoff s.
Proof.
  unfold resume_generic. destruct (generic_payload _ _) as [p|]; [|done].
  match goal with |- sh_handoff (broadcast_activity ?p ?i ?t) = _ =>
    pose proof (broadcast_activity_core p i t) as Hc;
    destruct (cache_activity_tables p i t) as [_ Hh] end.
  apply core_fields in Hc as (_ & _ & -> & _). by rewrite Hh.
Qed.

Lemma resume_generic_cache_None env s game k :
  k ≠ sg_id game → sh_cache s !! k = None → sh_cache (resume_generic env s game) !! k = None.
Proof.
  intros Hk Hn. unfold resume_generic. destruct (generic_payload _ _) as [p|]; [|done].
  match goal with |- sh_cache (broadcast_activity ?p ?i ?t) !! _ = _ =>
    pose proof (broadcast_activity_core p i t) as Hc end.
  apply core_fields in Hc as (-> & _). unfold cache_activity, SocketId_from_AppId.
  case_match; simpl; [by rewrite lookup_delete_ne|].
  apply eq_None_not_Some. intros [v Hv].
  eapply lookup_weaken in Hv; [|apply prune_cache_newest].
  rewrite lookup_insert_ne in Hv by done. congruence.
Qed.

Lemma resume_all_handoff env l : ∀ s,
  sh_handoff (foldl (resume_generic env) s l) = sh_handoff s.
Proof.
  induction l as [|g l IH]; intros s; simpl; [done|].
  by rewrite IH, resume_generic_handoff.
Qed.

Lemma resume_all_cache_None env l k : ∀ s,
  (∀ g, g ∈ l → sg_id g ≠ k) → sh_cache s !! k = None →
  sh_cache (foldl (resume_generic env) s l) !! k = None.
Proof.
  induction l as [|g l IH]; intros s Hl Hn; simpl; [done|].
  apply IH; [intros; apply Hl; by right|]. apply resume_generic_cache_None; [|done].
  intros ->. by apply (Hl g); [left|].
Qed.

(** ** Clears *)

(** The clear a [SET_ACTIVITY] without activity broadcasts. *)
Lemma cached_clear now cmd : SerdeTotal →
  is_some (cmd_args cmd) = true → cmd_activity cmd = None →
  ∃ p, cached_activity now cmd None = Some p ∧ ca_is_clear p = true.
Proof.
  intros HT Ha Hn. unfold cached_activity, fix_cmd.
  destruct (cmd_args cmd) as [args|] eqn:E; [|done].
  unfold cmd_activity in Hn. rewrite E in Hn. simpl in Hn.
  unfold map_activity. simpl. rewrite E. simpl. rewrite Hn. simpl.
  destruct (empty_cached_total (default 0%Z (arg_pid args))
    (u64_to_string (default 0%Z (arg_pid args))) HT) as (p & ? & ?). eauto.
Qed.

(** The slots a command without activity releases and the generics it may
    resume: none when its pid is 0. *)
Definition released (cmd : ActivityCmd) (h : HandoffState) : HandoffState * list ScannedGame :=
  if is_genuine_clear cmd then release_slots cmd h else (h, []).

(** A clear, in the states between its steps: the slots it releases, the
    generics it resumes, then its own card removed. *)
Lemma clear_result env cmd s : SerdeTotal →
  (∀ k v, sh_cache s !! k = Some v → ca_is_clear v.1 = false) →
  is_some (cmd_args cmd) = true → cmd_activity cmd = None →
  let '(h, resume) := released cmd (sh_handoff s) in
  let resumed := base.filter
    (λ game, is_process_alive (env_probe env) (sg_pid game) = true) resume in
  ∃ r, let s1 := foldl (resume_generic env) (set_handoff h (set_recent r s)) resumed in
    let sid := u64_to_string (publish_pid cmd) in
    let s' := bridge_set_activity env cmd s in
    sh_handoff s' = h ∧ sh_last_process s' = sh_last_process s1 ∧
    sh_cache s' = if is_some (sh_cache s !! sid) then delete sid (sh_cache s1)
                  else sh_cache s1.
Proof.
  intros HT Hcards Ha Hn.
  unfold bridge_set_activity.
  destruct (activity_fingerprint (env_now_secs env) cmd) as [cmd' fp] eqn:Ef.
  apply fingerprint_cmd in Ef as (Epid & Eapp & Eargs & Eact & Efp).
  rewrite Hn in Eact. simpl in Eact. rewrite Eact in Efp. simpl in Efp. subst fp.
  assert (is_genuine_clear cmd' = is_genuine_clear cmd) as Hg1.
  { apply eq_bool_prop_intro. rewrite !Is_true_true, !genuine_clear_iff, Epid, Eargs, Eact, Hn.
    done. }
  assert (release_slots cmd' (sh_handoff s) = release_slots cmd (sh_handoff s)) as Er.
  { unfold release_slots. by rewrite Epid, Eapp. }
  destruct (released cmd (sh_handoff s)) as [h resume] eqn:Erel. unfold released in Erel.
  rewrite flood_clear. rewrite Eargs, Ha. cbn [negb].
  set (r := with_entries _ _). exists r. cbv zeta.
  assert (note_sdk_publish env cmd' (set_recent r s) = set_recent r s) as ->.
  { unfold note_sdk_publish. by rewrite Eact. }
  assert (resume_after_clear env cmd' (set_recent r s)
    = foldl (resume_generic env) (set_handoff h (set_recent r s)) (base.filter
        (λ game, is_process_alive (env_probe env) (sg_pid game) = true) resume)) as ->.
  { unfold resume_after_clear. rewrite Hg1.
    change (sh_handoff (set_recent r s)) with (sh_handoff s). rewrite Er.
    destruct (is_genuine_clear cmd); [by rewrite Erel|]. injection Erel as <- <-. by destruct s. }
  rewrite Epid. set (s1 := foldl _ _ _).
  assert (sh_handoff s1 = h) as Hs1 by (unfold s1; by rewrite resume_all_handoff).
  unfold activity_changed. change (sh_cache (set_recent r s)) with (sh_cache s).
  destruct (sh_cache s !! _) as [[entry seq]|] eqn:Ec; [|done].
  apply Hcards in Ec. simpl in Ec. rewrite Ec. simpl.
  destruct (cached_clear (env_now_secs env) cmd' HT) as (p & -> & Hclear);
    [by rewrite Eargs|done|].
  pose proof (broadcast_activity_core (with_provenance sdk_provenance p)
    (u64_to_string (publish_pid cmd)) s1) as Hc.
  apply core_fields in Hc as (-> & -> & -> & _).
  unfold cache_activity. simpl. by rewrite Hclear.
Qed.

(** C7: the owner's clear hands the slot back: when the connection that
    owns an application clears, its card leaves the replay cache, the
    slot is free again, and the generic card of the still-running game
    the scanner remembers is published in its place. *)
Theorem owner_clear_resumes_generic env cmd s app pid game :
  SerdeTotal → shared_ok s → fresh_stamps s →
  is_genuine_clear cmd = true → publish_pid cmd = pid →
  cmd_application_id cmd = Some app → owner_of (sh_handoff s) app = Some pid →
  resume_for (sh_handoff s) app = Some game →
  is_process_alive (env_probe env) (sg_pid game) = true →
  size (sh_last_process s) < MAX_HANDOFF_ENTRIES → u64_to_string pid ≠ app →
  let s' := bridge_set_activity env cmd s in
  owner_of (sh_handoff s') app = None ∧
  sh_cache s' !! u64_to_string pid = None ∧
  (∃ p seq, sh_cache s' !! app = Some (p, seq) ∧
     generic_payload (env_now_ms env) game = Some p) ∧
  sh_last_process s' !! app = Some (sg_pid game).
Proof.
  intros HT Hok Hf Hg Hpid Happ Hown Hres Hal Hlp Hne. cbv zeta.
  assert (sg_id game = app) as Hid by by apply (ho_key _ (so_handoff s Hok)).
  pose proof (proj1 (genuine_clear_iff cmd) Hg) as (_ & Ha & Hn).
  pose proof (clear_result env cmd s HT (so_cache_cards s Hok) Ha Hn) as Hr.
  clear Ha Hn. unfold released in Hr. rewrite Hg in Hr. unfold release_slots, note_clear in Hr. rewrite Happ, Hpid in Hr.
  unfold owner_of in Hown. unfold resume_for in *. rewrite Hown in Hr. simpl in Hr.
  rewrite Z.eqb_refl in Hr. cbn [last_scans] in Hr. rewrite Hres in Hr.
  change (option_list (Some game)) with [game] in Hr.
  assert (base.filter (λ g, is_process_alive (env_probe env) (sg_pid g) = true) [game] = [game])
    as Hfil by (by rewrite filter_cons_True).
  rewrite Hfil in Hr. destruct Hr as (r & -> & -> & ->). cbn [foldl].
  destruct (generic_payload_total (env_now_ms env) game HT) as (p & Hp & Hcl & _).
  set (s0 := set_handoff _ _).
  pose proof (resume_generic_core env s0 game p Hp) as Hc.
  apply core_fields in Hc as (Hcache & -> & _).
  destruct (cache_activity_tables p (sg_id game) (set_last_process
    (track_process_publication (env_probe env) (sh_last_process s0) (sg_id game)
       (sg_pid game)) s0)) as [-> _].
  assert (sh_cache (resume_generic env s0 game) !! app
          = Some (p, wrap_u64 (sh_activity_seq s + 1))) as Hcard.
  { rewrite Hcache, Hid, cache_activity_card; done. }
  split_and!.
  - unfold owner_of. simpl. apply lookup_delete_eq.
  - destruct (sh_cache s !! u64_to_string pid) eqn:E; simpl; [by rewrite lookup_delete_eq|].
    apply resume_generic_cache_None; [by rewrite Hid|done].
  - do 2 eexists. split; [|done]. destruct (is_some _); [|exact Hcard].
    rewrite lookup_delete_ne by done. exact Hcard.
  - rewrite Hid. by apply track_room.
Qed.

(** What the clear of a lost connection releases. *)
Lemma released_empty pid h h' resume :
  released (empty_clear pid) h = (h', resume) →
  (∀ app, owner_of h' app = if decide (pid ≠ 0%Z ∧ owner_of h app = Some pid)
     then None else owner_of h app) ∧
  ∀ g, g ∈ resume → ∃ a, resume_for h a = Some g.
Proof.
  unfold released. destruct (is_genuine_clear (empty_clear pid)) eqn:Hg.
  - apply genuine_clear_iff in Hg as (Hp & _). change (publish_pid (empty_clear pid)) with pid in Hp.
    unfold release_slots. simpl. change (publish_pid (empty_clear pid)) with pid.
    intros [= <- <-]. split.
    + intros app. unfold owner_of. simpl. rewrite map_lookup_filter.
      destruct (live_ipc h !! app) as [q|] eqn:E; cbn [mbind option_bind]; [|by case_decide].
      destruct (decide (pid ≠ 0%Z ∧ Some q = Some pid)) as [[_ Hd]|Hd].
      * rewrite option_guard_False; [done|]. simpl. congruence.
      * rewrite option_guard_True; [done|]. simpl. naive_solver.
    + intros g (a & Ha & Hga)%list_elem_of_omap. by exists a.
  - intros [= <- <-]. split; [|by intros g Hin%not_elem_of_nil].
    intros app. case_decide as Hd; [|done]. destruct Hd as [Hp _].
    assert (is_genuine_clear (empty_clear pid) = true) by (by apply genuine_clear_iff). congruence.
Qed.

(** C31: a lost connection lets go of its slots: the clear without
    application that the IPC pump emits for a pid releases every slot that
    pid owned and no other, unless the pid is 0, where no slot changes
    hands; and the card under the pid leaves the replay cache. (Only where
    no such card was cached and the scanner remembers a game whose
    application id is spelled like the pid may the generic card of that
    game stand there afterwards.) *)
Theorem disconnect_releases_slots env pid s :
  SerdeTotal → shared_ok s →
  let s' := command_step env (empty_clear pid) s in
  let sid := u64_to_string pid in
  (∀ app, owner_of (sh_handoff s') app
     = if decide (pid ≠ 0%Z ∧ owner_of (sh_handoff s) app = Some pid) then None
       else owner_of (sh_handoff s) app) ∧
  (is_some (sh_cache s !! sid) = true ∨ resume_for (sh_handoff s) sid = None →
   sh_cache s' !! sid = None).
Proof.
  intros HT Hok. cbv zeta.
  change (command_step env (empty_clear pid) s)
    with (bridge_set_activity env (empty_clear pid) s).
  pose proof (clear_result env (empty_clear pid) s HT (so_cache_cards s Hok) eq_refl eq_refl) as Hr.
  destruct (released _ _) as [h resume] eqn:Er. destruct Hr as (r & -> & _ & ->).
  change (publish_pid (empty_clear pid)) with pid in *.
  assert ((∀ app, owner_of h app = if decide (pid ≠ 0%Z ∧ owner_of (sh_handoff s) app = Some pid)
      then None else owner_of (sh_handoff s) app) ∧
    ∀ g, g ∈ resume → ∃ a, resume_for (sh_handoff s) a = Some g) as [Hown Hres].
  { by apply released_empty. }
  split; [exact Hown|]. intros Hsid.
  destruct (sh_cache s !! u64_to_string pid) eqn:E; simpl; [apply lookup_delete_eq|].
  destruct Hsid as [Hsid|Hsid]; [done|]. apply resume_all_cache_None; [|done].
  intros g [_ (a & Hga)%Hres]%list_elem_of_filter Heq.
  pose proof (ho_key _ (so_handoff s Hok) _ _ Hga). unfold resume_for in *. congruence.
Qed.

(** ** Publishes *)

Lemma cached_card now cmd fp : SerdeTotal →
  is_some (cmd_activity cmd) = true →
  ∃ p, cached_activity now cmd fp = Some p ∧ ca_is_clear p = false ∧
    ca_activity_json p = default "" fp ∧ ca_pid p = publish_pid cmd.
Proof.
  intros HT Ha. unfold cached_activity, fix_cmd, map_activity, cmd_activity, publish_pid in *.
  simpl. destruct (cmd_args cmd) as [args|]; [|done]. simpl in *.
  destruct (arg_activity args) as [a|]; [|done]. simpl.
  match goal with |- context [payload_value ?q] => set (v := payload_value q) end.
  destruct (json_to_string_total v) as [j ->]. destruct (msgpack_to_vec_total v) as [m ->].
  eexists. split_and!; done.
Qed.

(** A publish that passes the flood guard takes the slot: its pid
    owns the application (whoever owned it before), and the replay cache
    holds a card with exactly its fingerprint under its pid. *)
Theorem publish_takes_slot env cmd s app a cmd' fp :
  SerdeTotal → shared_ok s → fresh_stamps s →
  size (live_ipc (sh_handoff s)) < MAX_HANDOFF_ENTRIES →
  cmd_application_id cmd = Some app → cmd_activity cmd = Some a →
  activity_fingerprint (env_now_secs env) cmd = (cmd', fp) →
  (flood_dropped env cmd' fp s).2 = false →
  let s' := bridge_set_activity env cmd s in
  owner_of (sh_handoff s') app = Some (publish_pid cmd) ∧
  ∃ p seq bytes, fp = Some bytes ∧
    sh_cache s' !! u64_to_string (publish_pid cmd) = Some (p, seq) ∧
    ca_is_clear p = false ∧ ca_activity_json p = bytes.
Proof.
  intros HT Hok Hf Hsz Happ Hact Ef Hfl. cbv zeta. unfold bridge_set_activity. rewrite Ef.
  pose proof (fingerprint_cmd _ _ _ _ Ef) as (Epid & Eapp & Eargs & Eact & Efp).
  rewrite Hact in Eact. simpl in Eact.
  destruct (flood_dropped env cmd' fp s) as [s0 d] eqn:Es0. simpl in Hfl. subst d.
  assert (∃ r, s0 = set_recent r s) as [r ->].
  { unfold flood_dropped in Es0. destruct (should_drop _ _ _ _ _). simplify_eq. eauto. }
  assert (is_some (cmd_args cmd') = true) as Hargs.
  { rewrite Eargs. unfold cmd_activity in Hact. by destruct (cmd_args cmd). }
  rewrite Hargs. cbn [negb].
  set (a' := set_application_id _ _) in Eact.
  assert (∃ bytes, fp = Some bytes) as [bytes ->].
  { rewrite Efp, Eact. simpl. destruct (json_to_string_total (activity_value a')). eauto. }
  assert (is_genuine_clear cmd' = false) as Hg.
  { apply not_true_is_false. rewrite genuine_clear_iff, Eact. naive_solver. }
  unfold resume_after_clear. rewrite Hg. cbn [negb].
  assert (note_sdk_publish env cmd' (set_recent r s) = set_handoff
    (note_publish (env_probe env) (sh_handoff s) app (publish_pid cmd)) (set_recent r s)) as ->.
  { unfold note_sdk_publish. rewrite Eact. simpl. by rewrite Happ, Epid. }
  set (s1 := set_handoff _ _).
  assert (owner_of (sh_handoff s1) app = Some (publish_pid cmd)) as Hown.
  { unfold owner_of. simpl. rewrite bounded_insert_room by done. apply lookup_insert_eq. }
  rewrite Epid. destruct (activity_changed _ _ _) eqn:Ech.
  - destruct (cached_card (env_now_secs env) cmd' (Some bytes) HT) as (p & -> & Hcl & Hj & _);
      [by rewrite Eact|].
    pose proof (broadcast_activity_core (with_provenance sdk_provenance p)
      (u64_to_string (publish_pid cmd)) s1) as Hc.
    apply core_fields in Hc as (-> & _ & -> & _).
    destruct (cache_activity_tables (with_provenance sdk_provenance p)
      (u64_to_string (publish_pid cmd)) s1) as [_ ->].
    split; [done|]. do 3 eexists. split; [done|]. split; [by apply cache_activity_card|]. done.
  - split; [done|]. unfold activity_changed in Ech.
    change (sh_cache (set_recent r s)) with (sh_cache s) in Ech.
    change (sh_cache s1) with (sh_cache s).
    destruct (sh_cache s !! _) as [[p seq]|]; [|done].
    apply orb_false_iff in Ech as [Ecl Ej%negb_false_iff]. apply String.eqb_eq in Ej.
    exists p, seq, bytes. done.
Qed.

(** Flooding is free: a publish byte-identical to the last one of
    the same application and pid inside the window changes nothing at
    all: no broadcast, no cache write, no counter. *)
Theorem flood_changes_nothing env cmd s cmd' bytes at_ :
  activity_fingerprint (env_now_secs env) cmd = (cmd', Some bytes) →
  ra_entries (sh_recent s) !! (cmd_application_id cmd', publish_pid cmd') = Some (bytes, at_) →
  (duration_since (env_instant env) at_ < ra_window (sh_recent s))%Z →
  bridge_set_activity env cmd s = s.
Proof.
  intros Ef Hr Hd. unfold bridge_set_activity. rewrite Ef.
  unfold flood_dropped, should_drop. rewrite Hr, String.eqb_refl.
  apply Z.ltb_lt in Hd. rewrite Hd. simpl. by destruct s.
Qed.
End EndToEnd.

(** ** Witnesses *)

(** Pid 77 owns application 1111 and shows a card; the scanner remembers
    the game. *)
Definition owned : Shared :=
  set_cache {["77" := (demo_card 77, 1%Z)]} 1
    (set_handoff {| live_ipc := {["1111" := 77%Z]};
                    last_scans := {["1111" := BridgeDemo.game]} |} BridgeDemo.online).

Lemma owned_ok : shared_ok owned.
Proof.
  split.
  - exact online_consumers_ok.
  - intros id c Hc. change (({[1%Z := BridgeDemo.consumer]} : gmap Z Consumer) !! id = Some c) in Hc.
    apply lookup_singleton_Some in Hc as [<- <-]. reflexivity.
  - vm_compute. lia.
  - intros k v Hv. change (({["77" := (demo_card 77, 1%Z)]} : gmap string _) !! k = Some v) in Hv.
    apply lookup_singleton_Some in Hv as [<- <-]. reflexivity.
  - vm_compute. lia.
  - split; [vm_compute; lia..|]. intros app g Hg.
    change (({["1111" := BridgeDemo.game]} : gmap string _) !! app = Some g) in Hg.
    apply lookup_singleton_Some in Hg as [<- <-]. reflexivity.
  - split; [reflexivity|vm_compute; lia].
Qed.

Lemma owned_fresh : fresh_stamps owned.
Proof.
  intros k v Hv. change (({["77" := (demo_card 77, 1%Z)]} : gmap string _) !! k = Some v) in Hv.
  apply lookup_singleton_Some in Hv as [<- <-]. reflexivity.
Qed.

Lemma owner_clear_resumes_generic_witness :
  sh_last_process (@bridge_set_activity demo_serde default_order BridgeDemo.env
    BridgeDemo.clear_cmd owned) !! "1111" = Some 88%Z.
Proof.
  apply (@owner_clear_resumes_generic demo_serde default_order BridgeDemo.env
    BridgeDemo.clear_cmd owned "1111" 77%Z BridgeDemo.game); try reflexivity.
  - exact demo_serde_total.
  - exact owned_ok.
  - exact owned_fresh.
  - vm_compute. lia.
  - vm_compute. discriminate.
Defined.

Lemma disconnect_releases_slots_witness :
  owner_of (sh_handoff (@command_step demo_serde default_order BridgeDemo.env (empty_clear 77)
    owned)) "1111" = None ∧
  sh_cache (@command_step demo_serde default_order BridgeDemo.env (empty_clear 77) owned) !! "77"
    = None.
Proof.
  destruct (@disconnect_releases_slots demo_serde default_order BridgeDemo.env 77 owned)
    as [Hown Hcard].
  - exact demo_serde_total.
  - exact owned_ok.
  - split; [rewrite (Hown "1111"); vm_compute; reflexivity|]. apply Hcard. left. reflexivity.
Defined.

Lemma publish_takes_slot_witness :
  owner_of (sh_handoff (@bridge_set_activity demo_serde default_order BridgeDemo.env demo_cmd
    owned)) "1111" = Some 77%Z.
Proof.
  destruct (@activity_fingerprint demo_serde (env_now_secs BridgeDemo.env) demo_cmd)
    as [cmd' fp] eqn:E.
  apply (@publish_takes_slot demo_serde default_order BridgeDemo.env demo_cmd owned "1111"
    demo_activity cmd' fp); try reflexivity.
  - exact demo_serde_total.
  - exact owned_ok.
  - exact owned_fresh.
  - vm_compute. lia.
  - exact E.
  - vm_compute in E. injection E as <- <-. vm_compute. reflexivity.
Defined.

(** The state right after [demo_cmd] was published. *)
Definition just_published : Shared :=
  @bridge_set_activity demo_serde default_order BridgeDemo.env demo_cmd BridgeDemo.online.

Definition demo_bytes : string :=
  default "" (@activity_fingerprint demo_serde (env_now_secs BridgeDemo.env) demo_cmd).2.

Lemma flood_changes_nothing_witness :
  @bridge_set_activity demo_serde default_order BridgeDemo.env demo_cmd just_published
  = just_published.
Proof.
  apply (@flood_changes_nothing demo_serde default_order BridgeDemo.env demo_cmd just_published
    (@activity_fingerprint demo_serde (env_now_secs BridgeDemo.env) demo_cmd).1 demo_bytes 0%Z).
  - vm_compute. reflexivity.
  - vm_compute. reflexivity.
  - vm_compute. reflexivity.
Defined.
