(* ===== verification/BridgeRaces.v ===== *)
(** * Where a cache snapshot races a clear

    [refresh_once] and the replay of a new connection both copy the
    cached payloads under the cache lock and send them after releasing
    it.  A clear broadcast in between is overtaken: consumers end on a card
    that is no longer cached, and refreshes alone never take it back. *)

From stdpp Require Import base gmap strings list fin_maps sets relations.
From S2P Require Import Prelude RStr HashMaps Json Ids Cmd User Protocol Handoff Replay.
From S2P Require Import Consumers Bridge BridgeInv BridgeProps.

Local Open Scope string_scope.
Local Open Scope nat_scope.
Local Open Scope list_scope.

Section Races.
Context `{Serde, HashOrder}.

Lemma hm_iter_singleton {V} (k : SocketId) (v : V) : hm_iter {[k := v]} = [(k, v)].
Proof.
  apply Permutation_singleton_r. rewrite hm_iter_perm. by rewrite map_to_list_singleton.
Qed.

(** A consumer with room for one more message. *)
Definition ready_consumer (s : Shared) (id : ClientId) (c : Consumer) (ob : Outbox) : Prop :=
  sh_consumers s !! id = Some c ∧ con_protocol c = PJson ∧ sh_net s !! id = Some ob ∧
  ob_closed ob = false.

Lemma send_to_all_ready p s id c ob :
  consumers_ok (sh_consumers s) → ready_consumer s id c ob →
  length (ob_queue ob) < ob_cap ob →
  consumers_ok (sh_consumers (send_to_all p s)) ∧
  ready_consumer (send_to_all p s) id c (push ob (CmdMessage (Text (ca_json p)))).
Proof.
  intros Hok (Hc & Hp & Hn & Ho) Hl.
  destruct (send_to_all_spec p s Hok) as (H1 & H2 & _). split.
  - intros i k Hk. destruct (sh_consumers s !! i) as [k'|] eqn:E.
    + specialize (H1 i k' E). destruct (deliver _ _); destruct H1; [|congruence].
      assert (k = k') as -> by congruence. by apply Hok.
    + destruct (H2 i E). congruence.
  - specialize (H1 id c Hc). rewrite Hn, Hp in H1. simpl in H1.
    rewrite Ho, decide_False in H1 by lia. destruct H1. by split_and!.
Qed.

(** What a clear broadcast does to such a consumer and to the cache. *)
Lemma broadcast_clear_ready pid sid q s id c ob :
  consumers_ok (sh_consumers s) → empty_cached pid sid = Some q →
  ready_consumer s id c ob → length (ob_queue ob) < ob_cap ob →
  consumers_ok (sh_consumers (broadcast_clear pid sid s)) ∧
  ready_consumer (broadcast_clear pid sid s) id c (push ob (CmdMessage (Text (ca_json q)))).
Proof.
  intros Hok Hq Hr Hl. unfold broadcast_clear. rewrite Hq. unfold broadcast_activity.
  destruct (cache_activity_net q sid s) as (Hc & Hn & _).
  apply (send_to_all_ready q (cache_activity q sid s)); [by rewrite Hc| |done].
  unfold ready_consumer in *. by rewrite Hc, Hn.
Qed.

(** A batch of payloads reaches such a consumer in order. *)
Lemma send_batch_ready l : ∀ s id c ob,
  consumers_ok (sh_consumers s) → ready_consumer s id c ob →
  length (ob_queue ob) + length l ≤ ob_cap ob →
  ob_queue <$> sh_net (foldl (λ s p, send_to_all p s) s l) !! id
  = Some (ob_queue ob ++ ((λ p, CmdMessage (Text (ca_json p))) <$> l)).
Proof.
  induction l as [|p l IH]; intros s id c ob Hok Hr Hl; simpl in Hl |- *.
  { destruct Hr as (_ & _ & -> & _). simpl. by rewrite app_nil_r. }
  destruct (send_to_all_ready p s id c ob Hok Hr) as [Hok' Hr']; [lia|].
  rewrite (IH _ id c _ Hok' Hr'); simpl; [by rewrite <-app_assoc|].
  rewrite length_app. simpl. lia.
Qed.

Lemma send_batch_cache l : ∀ s, sh_cache (foldl (λ s p, send_to_all p s) s l) = sh_cache s.
Proof.
  induction l as [|p l IH]; intros s; simpl; [done|]. rewrite IH.
  by pose proof (core_fields _ _ (send_to_all_core p s)) as (-> & _).
Qed.

Lemma refreshes_cache n s : sh_cache (Nat.iter n refresh_once s) = sh_cache s.
Proof.
  induction n as [|n IH]; simpl; [done|]. rewrite <-IH. unfold refresh_once, refresh_send.
  case_decide; [done|]. apply send_batch_cache.
Qed.

Lemma refresh_collect_elem s r :
  r ∈ refresh_collect s ↔ ∃ sid seq, sh_cache s !! sid = Some (r, seq).
Proof.
  unfold refresh_collect. rewrite list_elem_of_fmap. split.
  - intros ([sid [r' seq]] & -> & Hin). rewrite hm_iter_perm in Hin.
    apply elem_of_map_to_list in Hin. simpl. by exists sid, seq.
  - intros (sid & seq & Hs). exists (sid, (r, seq)). split; [done|]. rewrite hm_iter_perm.
    by apply elem_of_map_to_list.
Qed.

(** C40: the refresh race: a refresh collects the cached cards, the clear
    of one of them is broadcast, then the refresh sends what it collected.
    A registered JSON consumer with room in its outbox receives the clear
    first and then every card, the dead one among them; the cache no
    longer holds that card, and however many refreshes follow, they
    collect only cards cached under other sockets: as long as nothing but
    refreshes happens, the dead presence stays on the consumer's screen.
    (A later process clear of the same socket would still take it off.) *)
Theorem refresh_overtakes_clear s id c ob sid pid p q seq :
  SerdeTotal → consumers_ok (sh_consumers s) → ready_consumer s id c ob →
  length (ob_queue ob) + S (size (sh_cache s)) ≤ ob_cap ob →
  sh_cache s !! sid = Some (p, seq) → empty_cached pid sid = Some q →
  let text p := CmdMessage (Text (ca_json p)) in
  let s' := refresh_send (refresh_collect s) (broadcast_clear pid sid s) in
  rtc section_step s s' ∧
  (∃ cards, p ∈ cards ∧
     ob_queue <$> sh_net s' !! id = Some (ob_queue ob ++ text q :: (text <$> cards))) ∧
  sh_cache s' = delete sid (sh_cache s) ∧
  (∀ n r, r ∈ refresh_collect (Nat.iter n refresh_once s') →
     ∃ sid' seq', sid' ≠ sid ∧ sh_cache s !! sid' = Some (r, seq')).
Proof.
  intros HT Hok Hr Hl Hcache Hq. cbv zeta. set (s' := refresh_send _ _).
  set (s1 := broadcast_clear pid sid s).
  assert (sh_cache s' = delete sid (sh_cache s)) as Hdel.
  { unfold s', refresh_send. simpl. rewrite send_batch_cache.
    by pose proof (core_fields _ _ (broadcast_clear_core pid sid s HT)) as (-> & _). }
  destruct (broadcast_clear_ready pid sid q s id c ob Hok Hq Hr ltac:(lia)) as [Hok1 Hr1].
  split_and!; [| |exact Hdel|].
  - etrans; [apply broadcast_clear_sections|]. eapply rtc_r; [|apply sec_dirty].
    apply foldl_sections. intros. apply send_to_all_sections.
  - exists (refresh_collect s). split; [apply refresh_collect_elem; eauto|].
    unfold s', refresh_send. simpl. fold s1.
    rewrite (send_batch_ready _ s1 id c _ Hok1 Hr1); [simpl; by rewrite <-app_assoc|].
    simpl. rewrite length_app. unfold refresh_collect.
    rewrite length_fmap, (Permutation_length (hm_iter_perm _)), length_map_to_list. simpl. lia.
  - intros n r (sid' & seq' & Hs)%refresh_collect_elem.
    rewrite refreshes_cache, Hdel in Hs. apply lookup_delete_Some in Hs as [? ?].
    by exists sid', seq'.
Qed.

(** The replay race: a clear broadcast between a new connection's
    replay and its registration never reaches it. The newcomer's queue
    ends on the card, and neither the cache nor any refresh mentions it
    again. *)
Theorem replay_misses_clear s id r ob sid pid p seq :
  SerdeTotal → consumers_ok (sh_consumers s) → sh_consumers s !! id = None →
  resp_id r = id → origin_allowed (resp_origin r) (sh_allowed_origins s) = true →
  sh_net s !! id = Some ob → ob_closed ob = false → length (ob_queue ob) + 2 ≤ ob_cap ob →
  sh_cache s = {[sid := (p, seq)]} →
  let s' := connect_register id r PJson (broadcast_clear pid sid (connect_replay r PJson s)) in
  rtc section_step s s' ∧ sh_cache s' = ∅ ∧
  is_registered id s' = true ∧
  ob_queue <$> sh_net s' !! id
    = Some (ob_queue ob ++ [CmdMessage (Text (ready_payload (sh_user s)));
                            CmdMessage (Text (ca_json p))]).
Proof.
  intros HT Hok Hnone <- Ho Hob Hc Hl Hcache. cbv zeta.
  set (s0 := connect_replay r PJson s).
  assert (sh_consumers s0 = sh_consumers s ∧ core s0 = core s ∧
    ob_queue <$> sh_net s0 !! resp_id r = Some (ob_queue ob ++
      [CmdMessage (Text (ready_payload (sh_user s))); CmdMessage (Text (ca_json p))]))
    as (Hcs & Hcore & Hq).
  { unfold s0, connect_replay, send_frame. rewrite (try_send_room _ _ ob) by (done || lia).
    simpl. split_and!; [done..|]. rewrite Hcache, hm_iter_singleton.
    rewrite (replay_queue r PJson _ _ (push ob (CmdMessage (Text (ready_payload (sh_user s))))));
      [|by rewrite lookup_insert_eq|done|simpl; rewrite length_app; simpl; lia].
    simpl. by rewrite <-app_assoc. }
  destruct (empty_cached_total pid sid HT) as (q & Hemp & Hclear).
  assert (sh_net (broadcast_clear pid sid s0) !! resp_id r = sh_net s0 !! resp_id r) as Hnet.
  { unfold broadcast_clear. rewrite Hemp. unfold broadcast_activity.
    destruct (cache_activity_net q sid s0) as (Hc0 & Hn0 & _).
    destruct (send_to_all_spec q (cache_activity q sid s0)) as (_ & H2 & _);
      [by rewrite Hc0, Hcs|].
    rewrite Hc0, Hn0 in H2. apply (H2 (resp_id r)). by rewrite Hcs. }
  split_and!.
  - eapply rtc_l; [apply (sec_outboxes (sh_net s0))|].
    assert (set_consumers (sh_consumers s) (sh_net s0) s = s0) as ->.
    { unfold s0, connect_replay. by destruct (send_frame _ _ _ _). }
    eapply rtc_r; [apply (broadcast_clear_sections pid sid)|]. apply sec_register; [done|].
    rewrite (sections_origins s0); [|apply broadcast_clear_sections].
    unfold core in Hcore. by injection Hcore as _ _ _ _ _ _ ->.
  - simpl. pose proof (core_fields _ _ (broadcast_clear_core pid sid s0 HT)) as (-> & _).
    pose proof (core_fields _ _ Hcore) as (-> & _). rewrite Hcache. apply delete_singleton_eq.
  - unfold is_registered. simpl. by rewrite lookup_insert_eq.
  - simpl. by rewrite Hnet.
Qed.
End Races.

(** ** Witnesses *)

Definition the_clear : CachedActivity :=
  default (demo_card 0) (@empty_cached demo_serde 88 "1111").

Lemma refresh_overtakes_clear_witness :
  let s := BridgeDemo.with_card BridgeDemo.online in
  sh_cache (refresh_send (H0 := default_order) (refresh_collect (H0 := default_order) s)
    (broadcast_clear (H := demo_serde) (H0 := default_order) 88 "1111" s))
  = delete "1111" (sh_cache s).
Proof.
  apply (@refresh_overtakes_clear demo_serde default_order
    (BridgeDemo.with_card BridgeDemo.online) 1%Z BridgeDemo.consumer BridgeDemo.outbox "1111" 88
    (demo_card 88) the_clear 1%Z).
  - exact demo_serde_total.
  - exact online_consumers_ok.
  - repeat split.
  - vm_compute. lia.
  - reflexivity.
  - reflexivity.
Defined.

Lemma replay_misses_clear_witness :
  is_registered 1%Z (connect_register 1%Z BridgeDemo.responder PJson
    (broadcast_clear (H := demo_serde) (H0 := default_order) 88 "1111"
       (connect_replay (H := demo_serde) (H0 := default_order) BridgeDemo.responder PJson
          (BridgeDemo.with_card BridgeDemo.dialing)))) = true.
Proof.
  apply (@replay_misses_clear demo_serde default_order
    (BridgeDemo.with_card BridgeDemo.dialing) 1%Z BridgeDemo.responder BridgeDemo.outbox "1111" 88
    (demo_card 88) 1%Z); try reflexivity.
  - exact demo_serde_total.
  - intros id c Hc. change ((∅ : gmap Z Consumer) !! id = Some c) in Hc.
    by rewrite lookup_empty in Hc.
  - vm_compute. lia.
Defined.
