(* ===== verification/ProcEvents.v ===== *)
(** * Process events (crates/rsrpc-proc-events/src/lib.rs)

    The parser of netlink [cn_proc] datagrams and the per-cpu loss
    accounting.  A datagram is a list of bytes ([Z] below 256); indexing
    past its end and unsigned underflow are explicit panics.  The socket
    around them is in [Watch]. *)

From stdpp Require Import base gmap list list_numbers fin_maps.
From coqutil Require Import Byte Word.LittleEndianList.
From S2P Require Import Prelude.

Local Open Scope nat_scope.
Local Open Scope list_scope.

Abbreviation byte := Corelib.Init.Byte.byte.

Definition SIZE_NLMSGHDR : nat := 16.
Definition SIZE_CN_MSG : nat := 20.
Definition NLMSG_NOOP : Z := 1.
Definition NLMSG_ERROR : Z := 2.
Definition NLMSG_OVERRUN : Z := 4.
Definition CN_IDX_PROC : Z := 1.
Definition CN_VAL_PROC : Z := 1.
Definition PROC_EVENT_EXEC : Z := 2.
Definition PROC_EVENT_EXIT : Z := 2147483648.

Inductive ProcEvent := Exec (pid : Z) | Exit (pid : Z).

#[export] Instance proc_event_eq_dec : EqDecision ProcEvent.
Proof. solve_decision. Defined.

(** [u32::from_le_bytes([buf[i], ..])] and the 16-bit variant; [None] when
    an index is out of bounds. *)
Definition le_at (n i : nat) (buf : list byte) : option Z :=
  if decide (i + n ≤ length buf) then Some (le_combine (take n (drop i buf))) else None.

(** [i32::from_le_bytes(..) != 0] only asks whether the bits are zero. *)

(** [parse_proc_event]. *)
Definition parse_proc_event (body : list byte) : option ProcEvent :=
  if decide (length body < SIZE_CN_MSG + 20) then None
  else
    match le_at 4 0 body, le_at 4 4 body with
    | Some idx, Some val =>
        if negb (idx =? CN_IDX_PROC)%Z || negb (val =? CN_VAL_PROC)%Z then None
        else
          let event := drop SIZE_CN_MSG body in
          match le_at 4 0 event, le_at 4 16 event with
          | Some what, Some pid =>
              if (what =? PROC_EVENT_EXEC)%Z then Some (Exec pid)
              else if (what =? PROC_EVENT_EXIT)%Z then Some (Exit pid)
              else None
          | _, _ => None
          end
    | _, _ => None
    end.

(** ** The walk *)

Section Walk.
Context {A : Type}.
(** The visitor, on its captured state; [false] stops the walk. *)
Variable visit : A → Z → Z → option ProcEvent → A * bool.

Inductive walk_result := WalkDone (s : A) | WalkPanic | WalkOutOfFuel.

(** One message: the state after it, and whether the walk goes on. *)
Definition visit_body (s : A) (msg_type : Z) (body : list byte) : option (A * bool) :=
  if (msg_type =? NLMSG_NOOP)%Z || (msg_type =? NLMSG_OVERRUN)%Z then Some (s, true)
  else if (msg_type =? NLMSG_ERROR)%Z then
    if decide (4 ≤ length body) then
      match le_at 4 0 body with
      | Some code => Some (s, (code =? 0)%Z)
      | None => None
      end
    else Some (s, true)
  else if decide (SIZE_CN_MSG + 8 ≤ length body) then
    match le_at 4 0 body, le_at 4 4 body with
    | Some idx, Some val =>
        if (idx =? CN_IDX_PROC)%Z && (val =? CN_VAL_PROC)%Z then
          match le_at 4 8 body, le_at 4 24 body with
          | Some seq, Some cpu => Some (visit s cpu seq (parse_proc_event body))
          | _, _ => None
          end
        else Some (s, true)
    | _, _ => None
    end
  else Some (s, true).

(** [walk_proc_messages].  Fuel: every round that continues advances the
    offset by at least a header, and stops at the end of the buffer, so
    one more round than bytes is enough. *)
Fixpoint walk_loop (fuel offset : nat) (buf : list byte) (s : A) : walk_result :=
  match fuel with
  | 0 => WalkOutOfFuel
  | S fuel =>
      if decide (length buf < offset) then WalkPanic (* [buf.len() - offset] underflows *)
      else if decide (length buf - offset < SIZE_NLMSGHDR) then WalkDone s
      else
        match le_at 4 offset buf, le_at 2 (offset + 4) buf with
        | Some len, Some msg_type =>
            let len := Z.to_nat len in
            if decide (len < SIZE_NLMSGHDR ∨ length buf - offset < len) then WalkDone s
            else
              let body := take (len - SIZE_NLMSGHDR) (drop (offset + SIZE_NLMSGHDR) buf) in
              match visit_body s msg_type body with
              | None => WalkPanic
              | Some (s, false) => WalkDone s
              | Some (s, true) =>
                  let offset := offset + Nat.max len SIZE_NLMSGHDR in
                  if decide (length buf ≤ offset) then WalkDone s
                  else walk_loop fuel offset buf s
              end
        | _, _ => WalkPanic
        end
  end.

Definition walk_proc_messages (buf : list byte) (s : A) : walk_result :=
  walk_loop (S (length buf)) 0 buf s.
End Walk.
Arguments walk_result : clear implicits.

(** [parse_event]: the first event of a datagram. *)
Definition parse_event (buf : list byte) : walk_result (option ProcEvent) :=
  walk_proc_messages (λ found _ _ event, (or_else found event, true)) buf None.

(** ** [SeqTracker] *)

Record SeqTracker := { st_last : gmap Z Z; st_missed : Z }.

Definition SeqTracker_default : SeqTracker := {| st_last := ∅; st_missed := 0 |}.

(** [note]: the tracker after it and the events missed since the last. *)
Definition note (t : SeqTracker) (cpu seq : Z) : SeqTracker * Z :=
  match st_last t !! cpu with
  | None => ({| st_last := <[cpu := seq]> (st_last t); st_missed := st_missed t |}, 0%Z)
  | Some last =>
      let expected := wrap_u32 (last + 1) in
      if (seq =? expected)%Z then
        ({| st_last := <[cpu := seq]> (st_last t); st_missed := st_missed t |}, 0%Z)
      else
        let missed := wrap_u32 (seq - expected) in
        if (missed <=? U32_MAX / 2)%Z then
          ({| st_last := <[cpu := seq]> (st_last t);
              st_missed := sat_u64_add (st_missed t) missed |}, missed)
        else ({| st_last := <[cpu := seq]> (st_last t); st_missed := st_missed t |}, 0%Z)
  end.

(** ** [forward_proc_events] *)

Section Forward.
(** The sink's state, and whether its receiver is still there. *)
Context {Q : Type} (emit : Q → ProcEvent → Q * bool).

Definition forward_visit (st : SeqTracker * Q * nat) (cpu seq : Z) (event : option ProcEvent)
    : SeqTracker * Q * nat * bool :=
  let '(seqs, q, forwarded) := st in
  let '(seqs, _) := note seqs cpu seq in
  match event with
  | Some event =>
      let '(q, alive) := emit q event in
      if alive then (seqs, q, S forwarded, true) else (seqs, q, forwarded, false)
  | None => (seqs, q, forwarded, true)
  end.

Definition forward_proc_events (buf : list byte) (seqs : SeqTracker) (q : Q)
    : walk_result (SeqTracker * Q * nat) :=
  walk_proc_messages forward_visit buf (seqs, q, 0).
End Forward.

(** ** The walk is safe on any bytes *)

Lemma le_at_Some n i buf : i + n ≤ length buf → is_Some (le_at n i buf).
Proof. intros. unfold le_at. rewrite decide_True by done. eauto. Qed.

Section WalkTotal.
Context {A : Type} (visit : A → Z → Z → option ProcEvent → A * bool).

Lemma visit_body_total s t body : is_Some (visit_body visit s t body).
Proof.
  unfold visit_body, SIZE_CN_MSG. destruct (_ || _); [by eexists|].
  destruct (t =? NLMSG_ERROR)%Z.
  { case_decide; [|by eexists]. destruct (le_at_Some 4 0 body ltac:(lia)) as [c ->]. by eexists. }
  case_decide; [|by eexists].
  destruct (le_at_Some 4 0 body ltac:(lia)) as [idx ->].
  destruct (le_at_Some 4 4 body ltac:(lia)) as [val ->].
  destruct (_ && _); [|by eexists].
  destruct (le_at_Some 4 8 body ltac:(lia)) as [seq ->].
  destruct (le_at_Some 4 24 body ltac:(lia)) as [cpu ->]. by eexists.
Qed.

Lemma walk_loop_total fuel buf : ∀ offset s,
  offset ≤ length buf → length buf - offset < fuel →
  ∃ s', walk_loop visit fuel offset buf s = WalkDone s'.
Proof.
  induction fuel as [|fuel IH]; intros offset s Ho Hf; [lia|]. cbn [walk_loop].
  rewrite decide_False by lia. case_decide as Hh; [eauto|]. unfold SIZE_NLMSGHDR in *.
  destruct (le_at_Some 4 offset buf ltac:(lia)) as [len ->].
  destruct (le_at_Some 2 (offset + 4) buf ltac:(lia)) as [ty ->].
  case_decide as Hlen; [eauto|]. set (body := take _ _).
  destruct (visit_body_total s ty body) as [[s1 go] ->]. destruct go; [|eauto].
  case_decide; [eauto|]. apply IH; lia.
Qed.

(** The netlink parser is safe: on any bytes whatsoever, with any
    visitor, the walk terminates without an out-of-bounds index or an
    arithmetic underflow. *)
Theorem walk_proc_messages_total buf s :
  ∃ s', walk_proc_messages visit buf s = WalkDone s'.
Proof. apply walk_loop_total; lia. Qed.
End WalkTotal.

(** ** Datagrams as the kernel writes them *)

(** A [cn_proc] message: the fields the parser reads, and the bytes it
    skips (header flags, sequence and port; ack; timestamp; union tail). *)
Record KernelMsg := {
  km_cpu : Z; km_seq : Z; km_what : Z; km_pid : Z;
  km_header : Z; km_ack : Z; km_time : Z; km_tail : Z
}.

Definition km_ok (m : KernelMsg) : Prop :=
  is_u32 (km_cpu m) ∧ is_u32 (km_seq m) ∧ is_u32 (km_what m) ∧ is_u32 (km_pid m).

Definition NLMSG_DONE : Z := 3.

Definition km_body (m : KernelMsg) : list byte :=
  le_split 4 CN_IDX_PROC ++ le_split 4 CN_VAL_PROC ++ le_split 4 (km_seq m) ++
  le_split 8 (km_ack m) ++ le_split 4 (km_what m) ++ le_split 4 (km_cpu m) ++
  le_split 8 (km_time m) ++ le_split 4 (km_pid m) ++ le_split 20 (km_tail m).

Definition km_encode (m : KernelMsg) : list byte :=
  le_split 4 76 ++ le_split 2 NLMSG_DONE ++ le_split 10 (km_header m) ++ km_body m.

Definition km_event (m : KernelMsg) : option ProcEvent :=
  if (km_what m =? PROC_EVENT_EXEC)%Z then Some (Exec (km_pid m))
  else if (km_what m =? PROC_EVENT_EXIT)%Z then Some (Exit (km_pid m))
  else None.

Lemma le_at_app n i a b : le_at n (length a + i) (a ++ b) = le_at n i b.
Proof.
  unfold le_at. rewrite length_app, drop_app_add.
  destruct (decide (length a + i + n ≤ length a + length b)) as [|];
    destruct (decide (i + n ≤ length b)); [done|lia..|done].
Qed.

Lemma le_at_skip k z n i b : le_at n (k + i) (le_split k z ++ b) = le_at n i b.
Proof. rewrite <-(length_le_split k z) at 1. apply le_at_app. Qed.

Lemma le_at_here n z b : le_at n 0 (le_split n z ++ b) = Some (z mod 2 ^ (Z.of_nat n * 8))%Z.
Proof.
  unfold le_at. rewrite decide_True by (rewrite length_app, length_le_split; lia).
  rewrite drop_0. rewrite <-(length_le_split n z) at 1.
  by rewrite take_app_length, le_combine_split.
Qed.

Lemma le_at_u32 z b : is_u32 z → le_at 4 0 (le_split 4 z ++ b) = Some z.
Proof.
  intros Hz. rewrite le_at_here. f_equal. change (2 ^ (Z.of_nat 4 * 8))%Z with 4294967296%Z.
  apply Z.mod_small. int_lia.
Qed.

Lemma km_body_length m : length (km_body m) = 60.
Proof. unfold km_body. by rewrite !length_app, !length_le_split. Qed.

Lemma km_encode_length m : length (km_encode m) = 76.
Proof. unfold km_encode. by rewrite !length_app, !length_le_split, km_body_length. Qed.

(** The fields of a body, at the parser's offsets. *)
Lemma km_body_fields m : km_ok m →
  le_at 4 0 (km_body m) = Some 1%Z ∧ le_at 4 4 (km_body m) = Some 1%Z ∧
  le_at 4 8 (km_body m) = Some (km_seq m) ∧ le_at 4 24 (km_body m) = Some (km_cpu m) ∧
  le_at 4 0 (drop SIZE_CN_MSG (km_body m)) = Some (km_what m) ∧
  le_at 4 16 (drop SIZE_CN_MSG (km_body m)) = Some (km_pid m).
Proof.
  intros (Hc & Hs & Hw & Hp).
  assert (drop SIZE_CN_MSG (km_body m) = le_split 4 (km_what m) ++ le_split 4 (km_cpu m) ++
    le_split 8 (km_time m) ++ le_split 4 (km_pid m) ++ le_split 20 (km_tail m)) as ->.
  { unfold km_body. rewrite !app_assoc. unfold SIZE_CN_MSG.
    match goal with |- drop 20 ?l = _ => rewrite <-!app_assoc end.
    rewrite !(drop_app_ge _ _ _ : length (le_split _ _) ≤ _ → _) by
      (rewrite ?length_le_split; lia). rewrite !length_le_split. done. }
  unfold km_body. split_and!.
  - by rewrite le_at_u32.
  - change 4 with (4 + 0) at 2. by rewrite le_at_skip, le_at_u32.
  - change 8 with (4 + (4 + 0)) at 1. by rewrite !le_at_skip, le_at_u32.
  - change 24 with (4 + (4 + (4 + (8 + (4 + 0))))). by rewrite !le_at_skip, le_at_u32.
  - by rewrite le_at_u32.
  - change 16 with (4 + (4 + (8 + 0))). by rewrite !le_at_skip, le_at_u32.
Qed.

Lemma km_parse m : km_ok m → parse_proc_event (km_body m) = km_event m.
Proof.
  intros Hok. destruct (km_body_fields m Hok) as (H1 & H2 & _ & _ & H5 & H6).
  unfold parse_proc_event. rewrite decide_False by (rewrite km_body_length; compute; lia).
  by rewrite H1, H2, H5, H6.
Qed.

Section RoundTrip.
Context {A : Type} (visit : A → Z → Z → option ProcEvent → A * bool).

Lemma km_visit s m : km_ok m →
  visit_body visit s NLMSG_DONE (km_body m)
  = Some (visit s (km_cpu m) (km_seq m) (km_event m)).
Proof.
  intros Hok. destruct (km_body_fields m Hok) as (H1 & H2 & H3 & H4 & _).
  unfold visit_body. cbv [NLMSG_DONE NLMSG_NOOP NLMSG_OVERRUN NLMSG_ERROR].
  cbn [Z.eqb Pos.eqb orb]. rewrite decide_True by (rewrite km_body_length; compute; lia).
  by rewrite H1, H2, H3, H4, km_parse.
Qed.

(** The visits of a message sequence, stopping when the visitor asks. *)
Fixpoint visit_all (s : A) (ms : list KernelMsg) : A :=
  match ms with
  | [] => s
  | m :: ms =>
      let '(s, go) := visit s (km_cpu m) (km_seq m) (km_event m) in
      if go then visit_all s ms else s
  end.

(** The round at the start of a message. *)
Lemma walk_message fuel pre m post s : km_ok m →
  walk_loop visit (S fuel) (length pre) (pre ++ km_encode m ++ post) s
  = let '(s, go) := visit s (km_cpu m) (km_seq m) (km_event m) in
    if go then
      if decide (length post = 0) then WalkDone s
      else walk_loop visit fuel (length (pre ++ km_encode m)) (pre ++ km_encode m ++ post) s
    else WalkDone s.
Proof.
  intros Hok. cbn [walk_loop]. unfold SIZE_NLMSGHDR.
  assert (length (pre ++ km_encode m ++ post) = length pre + 76 + length post) as Hlen
    by (rewrite !length_app, km_encode_length; lia).
  rewrite Hlen. rewrite !decide_False by lia.
  assert (le_at 4 (length pre) (pre ++ km_encode m ++ post) = Some 76%Z) as ->.
  { rewrite <-(Nat.add_0_r (length pre)) at 1. rewrite le_at_app. unfold km_encode.
    rewrite <-!app_assoc. apply le_at_u32. int_lia. }
  assert (le_at 2 (length pre + 4) (pre ++ km_encode m ++ post) = Some NLMSG_DONE) as ->.
  { rewrite le_at_app. unfold km_encode. rewrite <-!app_assoc.
    rewrite (le_at_skip 4 76 2 0). by rewrite le_at_here. }
  change (Z.to_nat 76) with 76. rewrite decide_False by lia.
  assert (take (76 - 16) (drop (length pre + 16) (pre ++ km_encode m ++ post)) = km_body m) as ->.
  { rewrite drop_app_add. unfold km_encode. rewrite <-!app_assoc.
    rewrite (app_assoc (le_split 2 _)), (app_assoc (le_split 4 _)).
    rewrite drop_app_length' by (rewrite !length_app, !length_le_split; done).
    apply take_app_length'. by rewrite km_body_length. }
  rewrite km_visit by done. destruct (visit _ _ _ _) as [s1 go]. destruct go; [|done].
  rewrite length_app, km_encode_length. change (Nat.max 76 16) with 76.
  destruct (decide (length pre + 76 + length post ≤ length pre + 76)) as [|];
    destruct (decide (length post = 0)); try lia; done.
Qed.

Lemma walk_messages ms : ∀ fuel pre s,
  Forall km_ok ms → length ms < fuel →
  walk_loop visit fuel (length pre) (pre ++ concat (map km_encode ms)) s
  = WalkDone (visit_all s ms).
Proof.
  induction ms as [|m ms IH]; intros fuel pre s Hok Hf; (destruct fuel as [|fuel]; [lia|]).
  { cbn [walk_loop concat map]. rewrite app_nil_r, decide_False by lia.
    rewrite decide_True; [done|]. rewrite Nat.sub_diag. compute. lia. }
  apply Forall_cons in Hok as [Hm Hok]. cbn [map concat length] in *.
  rewrite walk_message by done. cbn [visit_all].
  destruct (visit _ _ _ _) as [s1 go]. destruct go; [|done].
  destruct (decide (length (concat (map km_encode ms)) = 0)) as [H0|].
  - destruct ms as [|m2 ms]; [done|]. cbn [map concat] in H0.
    rewrite length_app, km_encode_length in H0. lia.
  - rewrite app_assoc. apply IH; [done|lia].
Qed.

Lemma walk_encoded ms s :
  Forall km_ok ms →
  walk_proc_messages visit (concat (map km_encode ms)) s = WalkDone (visit_all s ms).
Proof.
  intros Hok. unfold walk_proc_messages. apply (walk_messages ms _ []); [done|].
  enough (length ms ≤ length (concat (map km_encode ms))) by lia.
  clear Hok. induction ms as [|m ms IH]; [done|]. cbn [map concat length].
  rewrite length_app, km_encode_length. lia.
Qed.

(** The parser reads what the kernel writes: a datagram of any
    number of well-formed [cn_proc] messages, whatever their skipped
    fields, makes the visitor see exactly those messages, in order, with
    their cpu, sequence and decoded event, until it stops the walk. *)
Theorem walk_reads_kernel_messages ms s :
  Forall km_ok ms →
  walk_proc_messages visit (concat (map km_encode ms)) s = WalkDone (visit_all s ms).
Proof. apply walk_encoded. Qed.
End RoundTrip.

(** ** Loss accounting *)

(** Feeding the tracker the kernel positions [ps] of one cpu (the kernel's
    32-bit counter wraps). *)
Definition observe (t : SeqTracker) (cpu : Z) (ps : list Z) : SeqTracker :=
  foldl (λ t p, (note t cpu (wrap_u32 p)).1) t ps.

(** [ps] continues after [a]: strictly forward, never by more than half the
    counter's range. *)
Fixpoint forward_from (a : Z) (ps : list Z) : Prop :=
  match ps with
  | [] => True
  | b :: ps => (a < b)%Z ∧ (b - a ≤ 2147483648)%Z ∧ forward_from b ps
  end.

Lemma wrap_u32_distance a b :
  (a < b)%Z → (b - a ≤ 2147483648)%Z →
  wrap_u32 (wrap_u32 b - wrap_u32 (wrap_u32 a + 1)) = (b - a - 1)%Z.
Proof.
  intros Hab Hle. unfold wrap_u32.
  rewrite <-Zminus_mod, Zminus_mod, Zplus_mod_idemp_l, <-Zminus_mod.
  rewrite Z.mod_small; lia.
Qed.

Lemma note_forward t cpu a b :
  st_last t !! cpu = Some (wrap_u32 a) → (a < b)%Z → (b - a ≤ 2147483648)%Z →
  (0 ≤ st_missed t)%Z → (st_missed t + (b - a - 1) ≤ U64_MAX)%Z →
  note t cpu (wrap_u32 b)
  = ({| st_last := <[cpu := wrap_u32 b]> (st_last t); st_missed := st_missed t + (b - a - 1) |},
     (b - a - 1)%Z).
Proof.
  intros Hl Hab Hle H0 Hm. unfold note. rewrite Hl.
  pose proof (wrap_u32_distance a b Hab Hle) as Hd.
  destruct (Z.eqb_spec (wrap_u32 b) (wrap_u32 (wrap_u32 a + 1))) as [E|E].
  - rewrite E, Z.sub_diag in Hd. change (wrap_u32 0) with 0%Z in Hd.
    rewrite <-Hd, Z.add_0_r. done.
  - rewrite Hd. change (U32_MAX / 2)%Z with 2147483647%Z.
    destruct (Z.leb_spec (b - a - 1) 2147483647); [|lia].
    do 2 f_equal. unfold sat_u64_add. lia.
Qed.

Lemma last_from (a b : Z) ps : List.last (b :: ps) a = List.last ps b.
Proof.
  revert a b. induction ps as [|c ps IH]; intros a b; [done|].
  change (List.last (c :: ps) a = List.last (c :: ps) b). by rewrite !IH.
Qed.

Lemma forward_from_last a ps : forward_from a ps → (a ≤ List.last ps a)%Z.
Proof.
  revert a. induction ps as [|b ps IH]; intros a; [simpl; lia|].
  intros (Hab & _ & Hf). rewrite last_from. specialize (IH b Hf). lia.
Qed.

Lemma observe_forward cpu ps : ∀ t a,
  st_last t !! cpu = Some (wrap_u32 a) → forward_from a ps →
  (0 ≤ st_missed t)%Z → (st_missed t + (List.last ps a - a) ≤ U64_MAX)%Z →
  observe t cpu ps = {| st_last := <[cpu := wrap_u32 (List.last ps a)]> (st_last t);
    st_missed := st_missed t + (List.last ps a - a - Z.of_nat (length ps)) |} ∧
  (Z.of_nat (length ps) ≤ List.last ps a - a)%Z.
Proof.
  induction ps as [|b ps IH]; intros t a Hl Hf H0 Hm.
  { simpl. rewrite insert_id by done. destruct t; simpl in *. split; [f_equal; lia|lia]. }
  destruct Hf as (Hab & Hle & Hf).
  rewrite last_from in *. pose proof (forward_from_last b ps Hf) as Hmono.
  cbn [observe foldl]. unfold observe. cbn [foldl].
  rewrite (note_forward t cpu a b) by (done || lia). cbn [fst].
  destruct (IH {| st_last := <[cpu := wrap_u32 b]> (st_last t);
    st_missed := st_missed t + (b - a - 1) |} b) as [E Hlen];
    [simpl; by rewrite lookup_insert_eq|done|simpl; lia|simpl; lia|].
  unfold observe in E. rewrite E. simpl. rewrite insert_insert_eq.
  split; [f_equal; lia|lia].
Qed.

(** Loss accounting is exact: if a cpu's messages arrive at kernel
    positions [p0 < p1 < ... < pn] (the rest was lost) with no gap beyond
    half the 32-bit range, the tracker reports exactly the positions
    skipped, across any number of counter wraps, and leaves other cpus
    alone. *)
Theorem seq_tracker_exact cpu p0 ps :
  forward_from p0 ps → (List.last ps p0 - p0 ≤ U64_MAX)%Z →
  let t := observe SeqTracker_default cpu (p0 :: ps) in
  st_missed t = (List.last ps p0 - p0 - Z.of_nat (length ps))%Z ∧
  st_last t = {[cpu := wrap_u32 (List.last ps p0)]}.
Proof.
  intros Hf Hm. cbv zeta. unfold observe. cbn [foldl].
  change ((note SeqTracker_default cpu (wrap_u32 p0)).1)
    with {| st_last := <[cpu := wrap_u32 p0]> (∅ : gmap Z Z); st_missed := 0 |}.
  destruct (observe_forward cpu ps {| st_last := <[cpu := wrap_u32 p0]> ∅; st_missed := 0 |} p0)
    as [E _]; [simpl; by rewrite lookup_insert_eq|done|simpl; lia|simpl; lia|].
  unfold observe in E. rewrite E. simpl. by rewrite insert_insert_eq.
Qed.

(** ** Witnesses *)

Definition demo_exec : KernelMsg := {|
  km_cpu := 3; km_seq := 41; km_what := PROC_EVENT_EXEC; km_pid := 1234;
  km_header := 7; km_ack := 0; km_time := 99; km_tail := 5 |}.

Lemma walk_reads_kernel_messages_witness :
  parse_event (concat (map km_encode [demo_exec])) = WalkDone (Some (Exec 1234)).
Proof.
  unfold parse_event.
  rewrite (walk_reads_kernel_messages _ [demo_exec] None); [reflexivity|].
  constructor; [|constructor]. unfold km_ok. simpl. unfold PROC_EVENT_EXEC. int_lia.
Defined.

Lemma seq_tracker_exact_witness :
  st_missed (observe SeqTracker_default 0 [4294967294; 4294967295; 4294967299]%Z) = 3%Z.
Proof.
  apply (seq_tracker_exact 0 4294967294 [4294967295; 4294967299]%Z).
  - simpl. lia.
  - simpl. int_lia.
Defined.
