(* ===== verification/Telemetry.v ===== *)
(** * Queue gauges (crates/rsrpc-telemetry/src/lib.rs)

    [GaugeSender], [GaugeReceiver] and their shared [QueueGauge] as a
    small concurrent machine: every thread is at a program point of
    [send], [send_checked], [recv] or of the receiver's drop, and each
    step is one atomic operation of the source (a load, a
    compare-exchange, a channel operation, a counter update).  Any number
    of threads interleave. *)

From stdpp Require Import base list numbers relations.
From S2P Require Import Prelude.

Local Open Scope nat_scope.
Local Open Scope list_scope.

Section Gauge.
Context {A : Type}.

(** The channel with the gauge both ends share. *)
Record Chan := {
  ch_depth : Z;       (** [AtomicUsize] *)
  ch_dropped : Z;
  ch_live : bool;     (** the gauge's receiver flag *)
  ch_open : bool;     (** the channel's receiver still exists *)
  ch_queue : list A
}.

(** [QueueGauge::pair]. *)
Definition pair_new : Chan := {|
  ch_depth := 0; ch_dropped := 0; ch_live := true; ch_open := true; ch_queue := [] |}.

Inductive SendChecked := Sent | Shed | Closed.

(** Program points. *)
Inductive pc :=
  | Idle
  | Returned (r : SendChecked)
  (* [send]: count, push, undo the count when the push fails *)
  | SendInc (v : A) | SendPush (v : A) | SendUndo
  (* [send_checked]: [try_reserve]'s loop, then push or undo *)
  | CkLoad (v : A) (cap : Z) | CkCas (v : A) (cap seen : Z)
  | CkPush (v : A) | CkUndo | CkFull | CkShed
  (* [recv] / [recv_timeout]: take, then release the count *)
  | RecvPop | RecvDec
  (* the receiver's drop: the flag first, then the channel end *)
  | DropLive | DropChan.

Definition set_depth (d : Z) (c : Chan) : Chan := {|
  ch_depth := d; ch_dropped := ch_dropped c; ch_live := ch_live c; ch_open := ch_open c;
  ch_queue := ch_queue c |}.
Definition set_queue (q : list A) (c : Chan) : Chan := {|
  ch_depth := ch_depth c; ch_dropped := ch_dropped c; ch_live := ch_live c;
  ch_open := ch_open c; ch_queue := q |}.

(** [fetch_add(1)], [fetch_sub(1)] and the shed counter. *)
Definition inc (c : Chan) : Chan := set_depth (wrap_u64 (ch_depth c + 1)) c.
Definition dec (c : Chan) : Chan := set_depth (wrap_u64 (ch_depth c - 1)) c.
Definition shed (c : Chan) : Chan := {|
  ch_depth := ch_depth c; ch_dropped := wrap_u64 (ch_dropped c + 1); ch_live := ch_live c;
  ch_open := ch_open c; ch_queue := ch_queue c |}.
Definition drop_flag (c : Chan) : Chan := {|
  ch_depth := ch_depth c; ch_dropped := ch_dropped c; ch_live := false;
  ch_open := ch_open c; ch_queue := ch_queue c |}.
(** Dropping the channel end drops what is queued. *)
Definition drop_chan (c : Chan) : Chan := {|
  ch_depth := ch_depth c; ch_dropped := ch_dropped c; ch_live := ch_live c;
  ch_open := false; ch_queue := [] |}.

(** One atomic operation of one thread. *)
Inductive thread_step : Chan → pc → Chan → pc → Prop :=
  | ts_start_send c p v : (p = Idle ∨ ∃ r, p = Returned r) → thread_step c p c (SendInc v)
  | ts_start_checked c p v cap : (p = Idle ∨ ∃ r, p = Returned r) →
      thread_step c p c (CkLoad v cap)
  | ts_start_recv c : thread_step c Idle c RecvPop
  | ts_start_drop c : thread_step c Idle c DropLive
  | ts_inc c v : thread_step c (SendInc v) (inc c) (SendPush v)
  | ts_push c v : ch_open c = true →
      thread_step c (SendPush v) (set_queue (ch_queue c ++ [v]) c) (Returned Sent)
  | ts_push_fail c v : ch_open c = false → thread_step c (SendPush v) c SendUndo
  | ts_undo c : thread_step c SendUndo (dec c) (Returned Closed)
  | ts_load_full c v cap : (cap ≤ ch_depth c)%Z → thread_step c (CkLoad v cap) c CkFull
  | ts_load c v cap : (ch_depth c < cap)%Z →
      thread_step c (CkLoad v cap) c (CkCas v cap (ch_depth c))
  | ts_cas c v cap seen : ch_depth c = seen →
      thread_step c (CkCas v cap seen) (set_depth (wrap_u64 (seen + 1)) c) (CkPush v)
  | ts_cas_fail c v cap seen : thread_step c (CkCas v cap seen) c (CkLoad v cap)
  | ts_ck_push c v : ch_open c = true →
      thread_step c (CkPush v) (set_queue (ch_queue c ++ [v]) c) (Returned Sent)
  | ts_ck_push_fail c v : ch_open c = false → thread_step c (CkPush v) c CkUndo
  | ts_ck_undo c : thread_step c CkUndo (dec c) (Returned Closed)
  | ts_full_closed c : ch_live c = false → thread_step c CkFull c (Returned Closed)
  | ts_full_shed c : ch_live c = true → thread_step c CkFull c CkShed
  | ts_shed c : thread_step c CkShed (shed c) (Returned Shed)
  | ts_pop c v q : ch_open c = true → ch_queue c = v :: q →
      thread_step c RecvPop (set_queue q c) RecvDec
  | ts_recv_dec c : thread_step c RecvDec (dec c) Idle
  | ts_drop_live c : thread_step c DropLive (drop_flag c) DropChan
  | ts_drop_chan c : thread_step c DropChan (drop_chan c) Idle.

(** The threads, and (ghost) how many values were queued when the
    channel end was dropped. *)
Record Sys := { sys_chan : Chan; sys_threads : list pc; sys_stranded : nat }.

Definition stranded_by (p : pc) (c : Chan) : nat :=
  match p with DropChan => length (ch_queue c) | _ => 0 end.

Inductive sys_step (s : Sys) : Sys → Prop :=
  | sys_thread i p c' p' :
      sys_threads s !! i = Some p → thread_step (sys_chan s) p c' p' →
      sys_step s {| sys_chan := c'; sys_threads := <[i := p']> (sys_threads s);
                    sys_stranded := sys_stranded s + stranded_by p (sys_chan s) |}.

Definition sys_start (n : nat) : Sys :=
  {| sys_chan := pair_new; sys_threads := replicate n Idle; sys_stranded := 0 |}.

(** ** Accounting *)

(** Program points that hold a count no queued value stands for. *)
Definition holds (p : pc) : nat :=
  match p with SendPush _ | SendUndo | CkPush _ | CkUndo | RecvDec => 1 | _ => 0 end.

Definition backlog (s : Sys) : nat :=
  length (ch_queue (sys_chan s)) + sys_stranded s + sum_list_with holds (sys_threads s).

Lemma sum_list_with_insert (f : pc → nat) l i p q :
  l !! i = Some p → sum_list_with f (<[i := q]> l) + f p = sum_list_with f l + f q.
Proof.
  revert i. induction l as [|x l IH]; intros [|i]; simpl; intros; simplify_eq; [lia|].
  specialize (IH i ltac:(done)). lia.
Qed.

Lemma sum_list_with_lookup (f : pc → nat) l i p :
  l !! i = Some p → f p ≤ sum_list_with f l.
Proof.
  revert i. induction l as [|x l IH]; intros [|i]; simpl; intros; simplify_eq; [lia|].
  specialize (IH i ltac:(done)). lia.
Qed.

(** The backlog's own change matches the depth's, modulo the width. *)
Definition counted (s : Sys) : Prop :=
  ch_depth (sys_chan s) = wrap_u64 (Z.of_nat (backlog s)).

Lemma wrap_add a b : wrap_u64 (wrap_u64 a + b) = wrap_u64 (a + b).
Proof. unfold wrap_u64. by rewrite Zplus_mod_idemp_l. Qed.

Lemma counted_step s s' : sys_step s s' → counted s → counted s'.
Proof.
  intros [i p c' p' Hi Ht] Hc. unfold counted, backlog in *. simpl.
  pose proof (sum_list_with_insert holds _ i p p' Hi) as Hs.
  pose proof (sum_list_with_lookup holds _ i p Hi) as Hp.
  set (T := sum_list_with holds (<[i := p']> _)) in *. clearbody T.
  set (U := sum_list_with holds (sys_threads s)) in *. clearbody U.
  destruct Ht as [c p v Hp1|c p v cap Hp1| | | | | | | | |c v cap seen Hd| | | | | | | |
    c v q Ho Hq| | |]; simpl in *; try (destruct Hp1 as [->|[? ->]]; simpl in *);
    try rewrite Hq in Hc; subst; rewrite ?length_app, ?Hc, ?wrap_add; simpl in *;
    try (unfold Z.sub; rewrite wrap_add); f_equal; lia.
Qed.

Lemma start_backlog n : backlog (sys_start n) = 0.
Proof. unfold backlog; simpl. induction n as [|n IH]; [done|]. exact IH. Qed.

(** The gauge never drifts: under any interleaving of sends, checked
    sends, receives and the receiver's drop on any number of threads,
    the depth equals (modulo its width) the values queued or stranded
    plus the operations between their count and their channel step; a
    failed send leaves no phantom backlog and a receive never
    undercounts. *)
Theorem gauge_accounting n s :
  rtc sys_step (sys_start n) s → ch_depth (sys_chan s) = wrap_u64 (Z.of_nat (backlog s)).
Proof.
  intros Hr. assert (counted (sys_start n)) as H0.
  { unfold counted. by rewrite start_backlog. }
  induction Hr as [|s1 s2 s3 Hst _ IH]; [done|]. by eapply IH, counted_step.
Qed.

(** ** The bound *)

(** Only capacity-checked sends, with caps up to [C]. *)
Definition checked_use (C : Z) (p : pc) : Prop :=
  match p with
  | SendInc _ | SendPush _ | SendUndo => False
  | CkLoad _ cap | CkCas _ cap _ => (cap ≤ C)%Z
  | _ => True
  end.

Definition checked_step (C : Z) (s s' : Sys) : Prop :=
  sys_step s s' ∧ Forall (checked_use C) (sys_threads s').

(** A pending compare-exchange saw room. *)
Definition saw_room (p : pc) : Prop :=
  match p with CkCas _ cap seen => (seen < cap)%Z | _ => True end.

Record within (C : Z) (s : Sys) : Prop := {
  wi_counted : counted s;
  wi_bound : (Z.of_nat (backlog s) ≤ C)%Z;
  wi_room : Forall saw_room (sys_threads s);
  wi_use : Forall (checked_use C) (sys_threads s)
}.

Lemma within_depth C s : within C s → (C ≤ U64_MAX)%Z →
  ch_depth (sys_chan s) = Z.of_nat (backlog s).
Proof. intros [Hc Hb _ _] HC. rewrite Hc. apply wrap_u64_id. int_lia. Qed.

Lemma within_step C s s' :
  (C ≤ U64_MAX)%Z → checked_step C s s' → within C s → within C s'.
Proof.
  intros HC [Hst Huse] Hw. pose proof (within_depth C s Hw HC) as Hd.
  destruct Hw as [Hc Hb Hr Hu]. split; [by eapply counted_step| | |done].
  - destruct Hst as [i p c' p' Hi Ht]. unfold backlog in *. simpl in *.
    pose proof (Forall_lookup_1 _ _ _ _ Hr Hi) as Hroom.
    pose proof (Forall_lookup_1 _ _ _ _ Hu Hi) as Hcap.
    pose proof (sum_list_with_insert holds _ i p p' Hi) as Hs.
    set (T := sum_list_with holds (<[i := p']> _)) in *. clearbody T.
    set (U := sum_list_with holds (sys_threads s)) in *. clearbody U.
    destruct Ht as [c p v Hp1|c p v cap Hp1| | | | | | | | |c v cap seen Hdd| | | | | | | |
      c v q Ho Hq| | |]; simpl in *; try (destruct Hp1 as [->|[? ->]]; simpl in * );
      try rewrite Hq in *; rewrite ?length_app in *; simpl in *; try done; lia.
  - destruct Hst as [i p c' p' Hi Ht]. simpl in *. apply Forall_insert; [done|].
    destruct Ht; simpl; done.
Qed.

(** C33: the backlog cap holds under contention: when every producer uses
    [send_checked] with a cap of at most [C], no interleaving lets the
    backlog (queued, stranded and reserved together) pass [C], and the
    depth reads it exactly. *)
Theorem gauge_cap_holds C n s :
  (0 ≤ C ≤ U64_MAX)%Z → rtc (checked_step C) (sys_start n) s →
  (Z.of_nat (length (ch_queue (sys_chan s))) ≤ Z.of_nat (backlog s) ≤ C)%Z ∧
  ch_depth (sys_chan s) = Z.of_nat (backlog s).
Proof.
  intros HC Hr. assert (within C (sys_start n)) as H0.
  { split; [unfold counted; by rewrite start_backlog|rewrite start_backlog; lia| |];
      apply Forall_replicate; done. }
  assert (within C s) as Hw.
  { clear -Hr H0 HC. induction Hr as [|s1 s2 s3 Hst _ IH]; [done|].
    eapply IH, within_step; [|done|done]. lia. }
  pose proof (within_depth C s Hw ltac:(lia)) as Hd. destruct Hw as [_ Hb _ _].
  unfold backlog in *. split; [lia|done].
Qed.
End Gauge.

(** ** Witnesses *)

(** One producer delivers one value through [send_checked]. *)
Definition delivered : @Sys nat :=
  {| sys_chan := set_queue [7] (set_depth 1 pair_new); sys_threads := [Returned Sent];
     sys_stranded := 0 |}.

Lemma delivered_run C : (1 ≤ C)%Z → rtc (@checked_step nat C) (sys_start 1) delivered.
Proof.
  intros HC.
  eapply rtc_l. { split; [eapply (sys_thread _ 0); [reflexivity|]|].
    apply (ts_start_checked _ _ 7 1). by left. simpl; repeat constructor; simpl; lia. }
  eapply rtc_l. { split; [eapply (sys_thread _ 0); [reflexivity|]|].
    apply ts_load; simpl; lia. simpl; repeat constructor; simpl; lia. }
  eapply rtc_l. { split; [eapply (sys_thread _ 0); [reflexivity|]|].
    by apply ts_cas. simpl; repeat constructor. }
  eapply rtc_l. { split; [eapply (sys_thread _ 0); [reflexivity|]|].
    by apply ts_ck_push. simpl; repeat constructor. }
  apply rtc_refl.
Qed.

Lemma gauge_accounting_witness :
  ch_depth (sys_chan delivered) = wrap_u64 (Z.of_nat (backlog delivered)).
Proof.
  apply (gauge_accounting 1).
  apply (rtc_subrel (checked_step 1)); [by intros ?? []|]. by apply delivered_run.
Defined.

Lemma gauge_cap_holds_witness :
  ch_depth (sys_chan delivered) = Z.of_nat (backlog delivered).
Proof.
  destruct (gauge_cap_holds 1024 1 delivered) as [_ W].
  - int_lia.
  - by apply delivered_run.
  - exact W.
Defined.
