(* ===== verification/StateFile.v ===== *)
(** * Presence snapshots (state.rs and snapshot.rs of crates/rsrpc-bridge)

    Slot selection, the atomic snapshot write and the flattening of the
    replay cache.  The state directory is a finite map from names to
    nodes (regular files and symbolic links); the write is the sequence of
    file-system operations of the source, so that a crash or a reader can
    be placed between any two of them. *)

From stdpp Require Import base gmap strings list fin_maps.
From Stdlib Require Import Ascii.
From S2P Require Import Prelude RStr HashMaps Json Ids Cmd User Protocol Handoff Replay.
From S2P Require Import Consumers Bridge.

Local Open Scope string_scope.
Local Open Scope nat_scope.
Local Open Scope list_scope.

Definition STATE_FILE_PREFIX : string := "rsrpc-state-".
Definition MAX_STATE_SLOTS : nat := 10.
Definition STATE_STALE_SECS : Z := 10.
(** [DEFAULT_PERSIST_INTERVAL] and [DEFAULT_REFRESH_INTERVAL], seconds. *)
Definition DEFAULT_PERSIST_INTERVAL : Z := 5.
Definition DEFAULT_REFRESH_INTERVAL : Z := 30.

(** ** The directory *)

Inductive NodeKind := Regular (content : string) | Symlink (target : string).

(** [n_mtime]: seconds since the epoch, [None] when it cannot be told. *)
Record Node := { n_kind : NodeKind; n_mtime : option Z; n_mode : Z }.

Abbreviation Dir := (gmap string Node) (only parsing).

(** [std::fs::read_to_string]: follows one link. *)
Definition read_to_string (fs : Dir) (name : string) : option string :=
  match n_kind <$> fs !! name with
  | Some (Regular c) => Some c
  | Some (Symlink t) =>
      match n_kind <$> fs !! t with Some (Regular c) => Some c | _ => None end
  | None => None
  end.

(** [Path::extension] of a file name: what follows the last dot, unless
    the name starts with it. *)
Definition extension (name : string) : option string :=
  match split_once_l "."%char (rev (chars name)) with
  | Some (suffix, prefix) =>
      match prefix with [] => None | _ => Some (of_chars (rev suffix)) end
  | None => None
  end.

(** ** Slots *)

Definition slot_name (index : nat) : string :=
  STATE_FILE_PREFIX +:+ u64_to_string (Z.of_nat index).

(** The [is_tmp] test of the sweep. *)
Definition is_tmp (name : string) : bool :=
  starts_with STATE_FILE_PREFIX name && opt_any (starts_with "tmp-") (extension name).

Definition tmp_stale (now_secs : Z) (n : Node) : bool :=
  opt_any (λ mtime, (STATE_STALE_SECS <? sat_u64_sub now_secs mtime)%Z) (n_mtime n).

(** [sweep_stale_tmps]; every removal that is due succeeds. *)
Definition sweep_stale_tmps (fs : Dir) (now_secs : Z) : Dir :=
  filter (λ kv, (is_tmp kv.1 && tmp_stale now_secs kv.2) = false) fs.

Section Slots.
Context `{Serde}.

(** The [timestamp] a slot's content carries. *)
Definition snapshot_timestamp (v : Value) : option Z :=
  match value_get "timestamp" v with
  | Some t => or_else (as_i64 t)
      (match as_u64 t with
       | Some ms => if (ms <=? I64_MAX)%Z then Some ms else None
       | None => None
       end)
  | None => None
  end.

(** [slot_reusable]. *)
Definition slot_reusable (fs : Dir) (name : string) (now_secs : Z) : bool :=
  match read_to_string fs name with
  | None => true
  | Some content =>
      match json_from_str content with
      | None => true
      | Some snapshot =>
          match snapshot_timestamp snapshot with
          | Some timestamp_ms =>
              let age := sat_u64_sub now_secs (Z.max 0 (Z.quot timestamp_ms 1000)) in
              (STATE_STALE_SECS <? age)%Z
          | None => true
          end
      end
  end.

(** [select_slot]: the directory after the sweep, and the slot. *)
Definition select_slot (fs : Dir) (now_secs : Z) : Dir * option string :=
  let fs := sweep_stale_tmps fs now_secs in
  (fs, find_map (λ index,
         let name := slot_name index in
         if slot_reusable fs name now_secs then Some name else None)
       (seq 0 MAX_STATE_SLOTS)).
End Slots.

(** ** The write *)

Definition tmp_name (slot : string) (pid serial : Z) : string :=
  slot +:+ ".tmp-" +:+ u64_to_string pid +:+ "-" +:+ u64_to_string serial.

(** [open_exclusive_tmp]: [create_new] refuses any existing entry, a link
    included; the new file is empty and owner-only. *)
Definition open_exclusive_tmp (fs : Dir) (tmp : string) (now : Z) : option Dir :=
  match fs !! tmp with
  | Some _ => None
  | None => Some (<[tmp := {| n_kind := Regular ""; n_mtime := Some now; n_mode := 384 |}]> fs)
  end.

(** [open_snapshot_tmp]: one remove-and-retry; [removable] says whether the
    operating system lets us remove the entry in the way. *)
Definition open_snapshot_tmp (fs : Dir) (tmp : string) (now : Z) (removable : bool)
    : Dir * bool :=
  match open_exclusive_tmp fs tmp now with
  | Some fs => (fs, true)
  | None =>
      let fs := if removable then delete tmp fs else fs in
      match open_exclusive_tmp fs tmp now with
      | Some fs => (fs, true)
      | None => (fs, false)
      end
  end.

(** One [write] of the open temp file ([write_all] may take several). *)
Definition append_tmp (fs : Dir) (tmp : string) (chunk : string) : Dir :=
  match fs !! tmp with
  | Some {| n_kind := Regular c; n_mtime := m; n_mode := mode |} =>
      <[tmp := {| n_kind := Regular (c +:+ chunk); n_mtime := m; n_mode := mode |}]> fs
  | _ => fs
  end.

(** [std::fs::rename]: the destination entry is replaced in one step. *)
Definition rename (fs : Dir) (from to : string) : Dir :=
  match fs !! from with
  | Some n => <[to := n]> (delete from fs)
  | None => fs
  end.

(** [write_snapshot] with the body split as [write_all] happened to split
    it: every directory state it passes through, in order, when nothing
    fails after the open.  A crash or an error leaves it in one of them. *)
Fixpoint write_chunks (fs : Dir) (tmp : string) (chunks : list string) : list Dir :=
  match chunks with
  | [] => [fs]
  | c :: chunks => fs :: write_chunks (append_tmp fs tmp c) tmp chunks
  end.

Definition write_snapshot_states (fs : Dir) (path tmp : string) (chunks : list string) (now : Z)
    (removable : bool) : list Dir :=
  let '(fs1, opened) := open_snapshot_tmp fs tmp now removable in
  let reclaimed := if removable then [delete tmp fs] else [] in
  if opened then
    let states := write_chunks fs1 tmp chunks in
    fs :: reclaimed ++ states ++ [rename (List.last states fs1) tmp path]
  else fs :: reclaimed ++ [fs1].

(** ** Atomicity *)

Lemma open_snapshot_tmp_frame fs tmp now removable fs' b name :
  open_snapshot_tmp fs tmp now removable = (fs', b) → name ≠ tmp → fs' !! name = fs !! name.
Proof.
  unfold open_snapshot_tmp, open_exclusive_tmp. intros E Hne.
  repeat case_match; simplify_eq; by rewrite ?lookup_insert_ne, ?lookup_delete_ne.
Qed.

Lemma open_snapshot_tmp_fresh fs tmp now removable fs' :
  open_snapshot_tmp fs tmp now removable = (fs', true) →
  fs' !! tmp = Some {| n_kind := Regular ""; n_mtime := Some now; n_mode := 384 |}.
Proof.
  unfold open_snapshot_tmp, open_exclusive_tmp. intros E.
  repeat case_match; simplify_eq; by rewrite lookup_insert_eq.
Qed.

Lemma append_tmp_frame fs tmp c name : name ≠ tmp → append_tmp fs tmp c !! name = fs !! name.
Proof.
  intros Hne. unfold append_tmp. destruct (fs !! tmp) as [[[] ? ?]|]; try done.
  by rewrite lookup_insert_ne.
Qed.

Lemma write_chunks_frame chunks tmp name : ∀ fs fs',
  name ≠ tmp → fs' ∈ write_chunks fs tmp chunks → fs' !! name = fs !! name.
Proof.
  induction chunks as [|c chunks IH]; intros fs fs' Hne; simpl.
  - by intros ->%list_elem_of_singleton.
  - intros [->|Hin]%elem_of_cons; [done|].
    rewrite (IH _ _ Hne Hin). by apply append_tmp_frame.
Qed.

Lemma write_chunks_last chunks tmp : ∀ fs d c m mode,
  fs !! tmp = Some {| n_kind := Regular c; n_mtime := m; n_mode := mode |} →
  List.last (write_chunks fs tmp chunks) d !! tmp
  = Some {| n_kind := Regular (foldl (λ a b, a +:+ b) c chunks); n_mtime := m; n_mode := mode |}.
Proof.
  induction chunks as [|x chunks IH]; intros fs d c m mode Hf; [done|].
  cbn [write_chunks foldl].
  assert (List.last (fs :: write_chunks (append_tmp fs tmp x) tmp chunks) d
          = List.last (write_chunks (append_tmp fs tmp x) tmp chunks) d) as ->.
  { by destruct chunks. }
  apply IH. unfold append_tmp. rewrite Hf. apply lookup_insert_eq.
Qed.

Lemma last_elem {A} (l : list A) d : l ≠ [] → List.last l d ∈ l.
Proof.
  induction l as [|a [|b l] IH]; intros Hne; [done|by left|]. right. by apply IH.
Qed.

Lemma write_snapshot_states_nonempty fs path tmp chunks now removable :
  write_snapshot_states fs path tmp chunks now removable ≠ [].
Proof. unfold write_snapshot_states. by destruct (open_snapshot_tmp _ _ _ _) as [? []]. Qed.

(** What a reader of [path] may find. *)
Definition old_or_new (fs : Dir) (path body : string) (fs' : Dir) : Prop :=
  fs' !! path = fs !! path ∨
  (∃ m, fs' !! path = Some {| n_kind := Regular body; n_mtime := m; n_mode := 384 |}).

(** Snapshots are never torn: however [write_all] splits the body and
    wherever the writer stops, a reader finds at the slot either exactly
    what was there before or the complete new snapshot, owner-only; no
    other name changes, and in particular the target of a link planted at
    the temp path is untouched. *)
Theorem write_snapshot_atomic fs path tmp chunks now removable fs' :
  path ≠ tmp → fs' ∈ write_snapshot_states fs path tmp chunks now removable →
  old_or_new fs path (foldl (λ a b, a +:+ b) "" chunks) fs' ∧
  ∀ name, name ≠ path → name ≠ tmp → fs' !! name = fs !! name.
Proof.
  intros Hne. unfold write_snapshot_states.
  destruct (open_snapshot_tmp fs tmp now removable) as [fs1 opened] eqn:Eo.
  pose proof (λ name, open_snapshot_tmp_frame _ _ _ _ _ _ name Eo) as Hopen.
  assert (∀ fs', fs' ∈ (if removable then [delete tmp fs] else []) →
    old_or_new fs path (foldl (λ a b, a +:+ b) "" chunks) fs' ∧
    ∀ name, name ≠ path → name ≠ tmp → fs' !! name = fs !! name) as Hrec.
  { intros fs2 Hin. destruct removable; [|by apply not_elem_of_nil in Hin].
    apply list_elem_of_singleton in Hin as ->.
    split; [left|intros name Hp Ht]; by rewrite lookup_delete_ne. }
  destruct opened.
  - intros [->|[Hin|[Hin|Hin]%elem_of_app]%elem_of_app]%elem_of_cons;
      [split; [by left|done]|by apply Hrec| |].
    + split; [left|intros name Hp Ht];
        rewrite (write_chunks_frame chunks tmp _ fs1 fs') by done; by apply Hopen.
    + apply list_elem_of_singleton in Hin as ->.
      pose proof (open_snapshot_tmp_fresh _ _ _ _ _ Eo) as Hfresh.
      pose proof (write_chunks_last chunks tmp fs1 fs1 _ _ _ Hfresh) as Hlast.
      unfold rename. rewrite Hlast. split.
      * right. eexists. apply lookup_insert_eq.
      * intros name Hp Ht. rewrite lookup_insert_ne, lookup_delete_ne by done.
        rewrite (write_chunks_frame chunks tmp name fs1); [by apply Hopen|done|].
        apply last_elem. by destruct chunks.
  - intros [->|[Hin| ->%list_elem_of_singleton]%elem_of_app]%elem_of_cons;
      [split; [by left|done]|by apply Hrec|].
    split; [left|intros name Hp Ht]; by apply Hopen.
Qed.

(** ** What a snapshot holds *)

Record StateServer := { ss_host : string; ss_port : Z }.

Record StateServers := {
  srv_bridge : option StateServer; srv_msgpack : option StateServer;
  srv_websocket : option StateServer; srv_ipc : option string
}.

Definition LOOPBACK_HOST : string := "127.0.0.1".

(** [state_servers]. *)
Definition state_servers (json_port msgpack_port : Z) (ws_port : option Z) : StateServers := {|
  srv_bridge := Some {| ss_host := LOOPBACK_HOST; ss_port := json_port |};
  srv_msgpack := Some {| ss_host := LOOPBACK_HOST; ss_port := msgpack_port |};
  srv_websocket := (λ port, {| ss_host := LOOPBACK_HOST; ss_port := port |}) <$> ws_port;
  srv_ipc := None |}.

Record StateActivity := {
  sa_socket_id : string; sa_name : option string; sa_application_id : option string;
  sa_pid : option Z; sa_start_time : option string;
  sa_detection_source : option string; sa_detect_latency_ms : option Z
}.

Record StateSnapshot := {
  snap_app_version : string; snap_timestamp : Z;
  snap_servers : StateServers; snap_activities : list StateActivity
}.

Section Snapshot.
Context `{Serde, HashOrder}.

(** One card of [state_activities]. *)
Definition state_activity (socket_id : SocketId) (payload : CachedActivity) : StateActivity :=
  let body := default VNull (json_from_str (ca_json payload)) in
  let activity := value_get "activity" body in
  {| sa_socket_id := socket_id;
     sa_name := (activity ≫= value_get "name") ≫= as_str;
     sa_application_id := (activity ≫= value_get "application_id") ≫= as_str;
     sa_pid := if negb (ca_pid payload =? 0)%Z then Some (ca_pid payload) else None;
     sa_start_time :=
       (λ v, match v with VString t => t | other => default "" (json_to_string other) end)
         <$> ((activity ≫= value_get "timestamps") ≫= value_get "start");
     sa_detection_source := prov_source <$> ca_provenance payload;
     sa_detect_latency_ms := ca_provenance payload ≫= prov_latency_ms |}.

(** [state_activities]. *)
Definition state_activities (cache : gmap SocketId (CachedActivity * Z)) : list StateActivity :=
  map (λ kv, state_activity kv.1 kv.2.1) (hm_iter cache).

(** [StateSnapshot::new] with the wall clock in milliseconds. *)
Definition StateSnapshot_new (app_version : string) (now_ms : Z) (servers : StateServers)
    (activities : list StateActivity) : StateSnapshot := {|
  snap_app_version := app_version;
  snap_timestamp := if (now_ms <=? I64_MAX)%Z then now_ms else 0;
  snap_servers := servers; snap_activities := activities |}.

(** The derived serializations: absent options are skipped, the
    [Option]s of [StateServers] too. *)
Definition server_value (v : StateServer) : Value := VObject
  [("host", VString (ss_host v)); ("port", vnum (ss_port v))].

Definition servers_value (v : StateServers) : Value := VObject
  (opt_field "bridge" server_value (srv_bridge v)
   ++ opt_field "msgpack" server_value (srv_msgpack v)
   ++ opt_field "websocket" server_value (srv_websocket v)
   ++ opt_field "ipc" VString (srv_ipc v)).

Definition state_activity_value (a : StateActivity) : Value := VObject
  ([("socketId", VString (sa_socket_id a))]
   ++ opt_field "name" VString (sa_name a)
   ++ opt_field "application_id" VString (sa_application_id a)
   ++ opt_field "pid" vnum (sa_pid a)
   ++ opt_field "startTime" VString (sa_start_time a)
   ++ opt_field "detectionSource" VString (sa_detection_source a)
   ++ opt_field "detectLatencyMs" vnum (sa_detect_latency_ms a)).

Definition snapshot_value (v : StateSnapshot) : Value := VObject
  [("appVersion", VString (snap_app_version v)); ("timestamp", vnum (snap_timestamp v));
   ("servers", servers_value (snap_servers v));
   ("activities", VArray (map state_activity_value (snap_activities v)))].

(** ** Slot ages *)

(** A slot that holds a snapshot taken at [ms] is reusable exactly when it
    is more than ten seconds old: its own timestamp decides, not the
    file's modification time. *)
Lemma slot_reusable_age fs name now content snap :
  read_to_string fs name = Some content →
  json_from_str content = Some (snapshot_value snap) →
  (0 ≤ snap_timestamp snap ≤ I64_MAX)%Z → (0 ≤ now)%Z →
  slot_reusable fs name now = (STATE_STALE_SECS <? now - snap_timestamp snap / 1000)%Z.
Proof.
  intros Hr Hj Ht Hn. unfold slot_reusable, snapshot_timestamp. rewrite Hr, Hj.
  cbn [value_get snapshot_value]. change (obj_get "timestamp" _)
    with (Some (vnum (snap_timestamp snap))).
  unfold vnum. destruct (Z.leb_spec 0 (snap_timestamp snap)); [|lia]. simpl.
  destruct (Z.leb_spec (snap_timestamp snap) I64_MAX); [|lia]. simpl.
  rewrite Z.quot_div_nonneg by lia.
  pose proof (Z.div_pos (snap_timestamp snap) 1000 ltac:(lia) ltac:(lia)).
  rewrite (Z.max_r 0) by lia. unfold sat_u64_sub, STATE_STALE_SECS.
  destruct (Z.ltb_spec 10 (Z.max 0 (now - snap_timestamp snap / 1000)));
    destruct (Z.ltb_spec 10 (now - snap_timestamp snap / 1000)); lia.
Qed.

Lemma slot_not_tmp i : i < MAX_STATE_SLOTS → is_tmp (slot_name i) = false.
Proof.
  intros Hi. unfold MAX_STATE_SLOTS in Hi.
  do 10 (destruct i as [|i]; [vm_compute; reflexivity|]). lia.
Qed.

Lemma sweep_keeps fs now name :
  is_tmp name = false → sweep_stale_tmps fs now !! name = fs !! name.
Proof.
  intros Hn. unfold sweep_stale_tmps. rewrite map_lookup_filter.
  destruct (fs !! name); simpl; [|done].
  rewrite option_guard_True; [done|]. simpl. by rewrite Hn.
Qed.

Lemma find_map_seq (f : nat → bool) (g : nat → string) k n :
  match find_map (λ i, if f i then Some (g i) else None) (seq k n) with
  | Some name => ∃ i, k ≤ i < k + n ∧ name = g i ∧ f i = true ∧
      ∀ j, k ≤ j < i → f j = false
  | None => ∀ j, k ≤ j < k + n → f j = false
  end.
Proof.
  revert k. induction n as [|n IH]; intros k; simpl; [intros; lia|].
  destruct (f k) eqn:Ek.
  - exists k. split_and!; [lia|lia|done|done|]. intros; lia.
  - specialize (IH (S k)). destruct (find_map _ _).
    + destruct IH as (i & Hi & -> & Hf & Hlow). exists i. split_and!; [lia|lia|done|done|].
      intros j Hj. destruct (decide (j = k)) as [->|]; [done|]. apply Hlow. lia.
    + intros j Hj. destruct (decide (j = k)) as [->|]; [done|]. apply IH. lia.
Qed.

(** Slot selection is first-fit over fresh owners: the sweep removes
    only stale temporaries of ours and never a slot; the chosen slot is
    the lowest reusable one, and none is chosen exactly when all ten
    hold fresh snapshots. *)
Theorem select_slot_first_fit fs now :
  let '(fs', slot) := select_slot fs now in
  (∀ i, i < MAX_STATE_SLOTS → fs' !! slot_name i = fs !! slot_name i) ∧
  (∀ name n, fs !! name = Some n → fs' !! name = None →
     is_tmp name = true ∧ tmp_stale now n = true) ∧
  match slot with
  | Some name => ∃ i, i < MAX_STATE_SLOTS ∧ name = slot_name i ∧
      slot_reusable fs' name now = true ∧
      ∀ j, j < i → slot_reusable fs' (slot_name j) now = false
  | None => ∀ j, j < MAX_STATE_SLOTS → slot_reusable fs' (slot_name j) now = false
  end.
Proof.
  unfold select_slot. split_and!.
  - intros i Hi. by apply sweep_keeps, slot_not_tmp.
  - intros name n Hn Hg. unfold sweep_stale_tmps in Hg.
    rewrite map_lookup_filter, Hn in Hg. simpl in Hg. case_guard as Hc; [done|].
    simpl in Hc. apply not_false_is_true, andb_true_iff in Hc. done.
  - pose proof (find_map_seq (λ i, slot_reusable (sweep_stale_tmps fs now) (slot_name i) now)
      slot_name 0 MAX_STATE_SLOTS) as Hf.
    destruct (find_map _ _).
    + destruct Hf as (i & Hi & -> & Hr & Hlow). exists i. split_and!; [lia|done|done|].
      intros j Hj. apply Hlow. lia.
    + intros j Hj. apply Hf. lia.
Qed.

(** ** Idle daemons *)

(** [n] ticks of [persist_task] with nothing else happening: how many
    snapshots they write. *)
Fixpoint persist_ticks (n : nat) (s : Shared) : nat * Shared :=
  match n with
  | 0 => (0, s)
  | S n =>
      let '(written, s) := persist_tick s in
      let '(k, s) := persist_ticks n s in ((if written then S k else k), s)
  end.

Lemma persist_ticks_clean n s : sh_dirty s = false → (persist_ticks n s).1 = 0.
Proof.
  revert s. induction n as [|n IH]; intros s Hd; [done|]. simpl. rewrite Hd.
  specialize (IH (set_dirty false s) eq_refl). by destruct (persist_ticks n _).
Qed.

(** An idle daemon loses its slot: once its snapshot is written and
    nothing publishes, no persist tick writes again before the next
    refresh, thirty seconds later; from the eleventh second on its slot
    reads as reusable, so a second daemon takes it over. *)
Theorem idle_daemon_looks_stale fs name content snap t age n s :
  read_to_string fs name = Some content →
  json_from_str content = Some (snapshot_value snap) →
  snap_timestamp snap = (t * 1000)%Z → (0 ≤ t * 1000 ≤ I64_MAX)%Z →
  sh_dirty s = false → (STATE_STALE_SECS < age < DEFAULT_REFRESH_INTERVAL)%Z →
  (persist_ticks n s).1 = 0 ∧ slot_reusable fs name (t + age) = true.
Proof.
  intros Hr Hj Ht Hr64 Hd Hage. split; [by apply persist_ticks_clean|].
  unfold STATE_STALE_SECS, DEFAULT_REFRESH_INTERVAL in *.
  rewrite (slot_reusable_age _ _ _ _ _ Hr Hj) by lia.
  rewrite Ht, Z.div_mul by lia. apply Z.ltb_lt. unfold STATE_STALE_SECS. lia.
Qed.
End Snapshot.

(** ** Witnesses *)

Module StateDemo.
Definition snap : StateSnapshot := {|
  snap_app_version := "1.0"; snap_timestamp := 1750000000000;
  snap_servers := state_servers 1337 1338 None; snap_activities := [] |}.
(** A reader that knows this one snapshot. *)
Definition serde : Serde := {|
  json_to_string := λ v, Some (demo_print v);
  json_from_str := λ s, if String.eqb s "snap" then Some (snapshot_value snap) else None;
  msgpack_to_vec := λ v, Some (demo_print v) |}.
Definition dir : gmap string Node := {["rsrpc-state-0" :=
  {| n_kind := Regular "snap"; n_mtime := Some 1750000000%Z; n_mode := 384 |}]}.
End StateDemo.

Lemma write_snapshot_atomic_witness :
  old_or_new StateDemo.dir "rsrpc-state-0" "new"
    (List.last (write_snapshot_states StateDemo.dir "rsrpc-state-0" "rsrpc-state-0.tmp-1-0"
       ["ne"; "w"] 5 true) ∅).
Proof.
  apply (write_snapshot_atomic StateDemo.dir "rsrpc-state-0" "rsrpc-state-0.tmp-1-0" ["ne"; "w"]
    5 true).
  - discriminate.
  - apply last_elem, write_snapshot_states_nonempty.
Defined.

Lemma idle_daemon_looks_stale_witness :
  slot_reusable (H := StateDemo.serde) StateDemo.dir "rsrpc-state-0" (1750000000 + 15) = true.
Proof.
  apply (idle_daemon_looks_stale (H := StateDemo.serde) StateDemo.dir "rsrpc-state-0" "snap"
    StateDemo.snap 1750000000 15 0 (set_dirty false BridgeDemo.start)); try reflexivity.
  - int_lia.
  - unfold STATE_STALE_SECS, DEFAULT_REFRESH_INTERVAL. lia.
Defined.
