(* ===== verification/BridgeLife.v ===== *)
(** * The life of a bridge (bridge.rs and snapshot.rs of crates/rsrpc-bridge)

    The eight tasks [Bridge::bind] starts, its first snapshot, the persist
    task's ticks, [Bridge::shutdown] and [Drop], over one [Shared] and one
    state directory.  Each task is a loop around a wait: the pumps take what
    is in their channel or hub, the timers tick, and each looks for the
    token or the end of its input there and nowhere else.  The pumps'
    handlers are broken into their critical sections
    ([BridgeInv.section_step]), any finite number of them for each message;
    [broadcast_activity] changes the replay cache in one section and sets
    the dirty flag in a later one.  A snapshot write
    is a blocking task: it outlives the task that awaits it.  Only the rename
    at its end touches the slot, so the write lands in one step.  [bind]'s
    own write is taken to land before the persist task's second tick, an
    interval later. *)

From stdpp Require Import base gmap strings list fin_maps sets relations.
From S2P Require Import Prelude RStr HashMaps Json Ids Cmd User Protocol Handoff Replay.
From S2P Require Import Consumers Bridge BridgeInv StateFile.

Local Open Scope string_scope.
Local Open Scope nat_scope.
Local Open Scope list_scope.

(** ** Tasks and state *)

Inductive TaskId := TJson | TMsgpack | TIpc | TGame | TProc | TRefresh | TPersist | TStats.

#[global] Instance TaskId_eq_dec : EqDecision TaskId.
Proof. solve_decision. Defined.

Definition all_tasks : list TaskId := [TJson; TMsgpack; TIpc; TGame; TProc; TRefresh; TPersist; TStats].

(** The tasks that wait for input: the two consumer pumps on their hubs, the
    two command pumps and the process pump on their channels. *)
Definition inputs : list TaskId := [TJson; TMsgpack; TIpc; TGame; TProc].
Definition on_hub (t : TaskId) : bool := match t with TJson | TMsgpack => true | _ => false end.
(** The tasks on a timer besides the persist task, which has its own phases. *)
Definition on_timer (t : TaskId) : bool := match t with TRefresh | TStats => true | _ => false end.

(** The pumps that publish. *)
Definition publishes (t : TaskId) : bool :=
  match t with TIpc | TGame | TProc => true | _ => false end.

(** What a snapshot takes from the bridge besides its cache. *)
Record LifeConfig := {
  lc_state_path : option string;
  lc_pid : Z;
  lc_app_version : string;
  lc_json_port : Z;
  lc_msgpack_port : Z;
  lc_ws_port : option Z;
  lc_ipc_path : option string
}.

Inductive BindPhase := BStarting | BWriting (snap : StateSnapshot) | BDone.

(** The persist task: in its [select!]; past the token's branch; dirty flag
    taken; awaiting its write. *)
Inductive PersistPhase := PWaiting | PPolled | PSwapped | PWriting.

(** [shutdown]: cancelled; JSON server down; both down; the drain over, all
    tasks joined or not; the slot's removal tried.  [SDropped]: the bridge,
    or the future of [shutdown], was dropped. *)
Inductive ShutPhase :=
  | SUp | SCancelled | SJson | SMsgpack | SDrained (joined : bool) | SDone (joined removed : bool) | SDropped.

Definition removed (p : ShutPhase) : bool := match p with SDone _ r => r | _ => false end.
(** The tasks still running are aborted. *)
Definition aborting (p : ShutPhase) : bool :=
  match p with SDrained false | SDone false _ | SDropped => true | _ => false end.
Definition joined (p : ShutPhase) : bool :=
  match p with SDrained true | SDone true _ => true | _ => false end.
(** Where the bridge or its [shutdown] can be dropped. *)
Definition droppable (p : ShutPhase) : bool :=
  match p with SUp | SCancelled | SJson | SMsgpack => true | _ => false end.

(** Where the loops are: [None] is the wait at the loop's head, [Some n] its
    body with at most [n] sections to go; what is in each task's channel or
    hub, and whether its senders are gone. *)
Record Loops := {
  lp_work : TaskId → option nat;
  lp_queue : TaskId → nat;
  lp_closed : TaskId → bool
}.

Definition upd {A} (t : TaskId) (a : A) (f : TaskId → A) : TaskId → A :=
  λ u, if decide (u = t) then a else f u.
Definition set_work (t : TaskId) (n : option nat) (p : Loops) : Loops :=
  {| lp_work := upd t n (lp_work p); lp_queue := lp_queue p; lp_closed := lp_closed p |}.
Definition set_queue (t : TaskId) (n : nat) (p : Loops) : Loops :=
  {| lp_work := lp_work p; lp_queue := upd t n (lp_queue p); lp_closed := lp_closed p |}.
Definition set_closed (t : TaskId) (p : Loops) : Loops :=
  {| lp_work := lp_work p; lp_queue := lp_queue p; lp_closed := upd t true (lp_closed p) |}.
Definition loops_new : Loops :=
  {| lp_work := λ _, None; lp_queue := λ _, 0; lp_closed := λ _, false |}.

Record Life := {
  lf_shared : Shared;
  lf_token : bool;
  lf_running : list TaskId;
  lf_loops : Loops;
  lf_marking : list TaskId;
  lf_bind : BindPhase;
  lf_persist : PersistPhase;
  lf_write : option StateSnapshot;
  lf_read : gmap SocketId (CachedActivity * Z);
  lf_saved : bool;
  lf_fs : gmap string Node;
  lf_serial : Z;
  lf_shut : ShutPhase
}.

Definition life_new (user : RpcUser) (origins : list string) (fs : gmap string Node) : Life := {|
  lf_shared := Shared_new user origins; lf_token := false; lf_running := all_tasks;
  lf_loops := loops_new; lf_marking := []; lf_bind := BStarting; lf_persist := PWaiting; lf_write := None; lf_read := ∅; lf_saved := false;
  lf_fs := fs; lf_serial := 0; lf_shut := SUp |}.

(** ** Updates *)

Definition on_shared (s : Shared) (marking : list TaskId) (L : Life) : Life := {|
  lf_shared := s; lf_token := lf_token L; lf_running := lf_running L; lf_loops := lf_loops L; lf_marking := marking;
  lf_bind := lf_bind L; lf_persist := lf_persist L; lf_write := lf_write L; lf_read := lf_read L;
  lf_saved := lf_saved L; lf_fs := lf_fs L; lf_serial := lf_serial L; lf_shut := lf_shut L |}.

Definition on_persist (s : Shared) (p : PersistPhase) (L : Life) : Life := {|
  lf_shared := s; lf_token := lf_token L; lf_running := lf_running L; lf_loops := lf_loops L; lf_marking := lf_marking L;
  lf_bind := lf_bind L; lf_persist := p; lf_write := lf_write L; lf_read := lf_read L;
  lf_saved := lf_saved L; lf_fs := lf_fs L; lf_serial := lf_serial L; lf_shut := lf_shut L |}.

Definition on_loops (p : Loops) (L : Life) : Life := {|
  lf_shared := lf_shared L; lf_token := lf_token L; lf_running := lf_running L; lf_loops := p;
  lf_marking := lf_marking L; lf_bind := lf_bind L; lf_persist := lf_persist L; lf_write := lf_write L;
  lf_read := lf_read L; lf_saved := lf_saved L; lf_fs := lf_fs L; lf_serial := lf_serial L;
  lf_shut := lf_shut L |}.

Definition lf_work (L : Life) (t : TaskId) : option nat := lp_work (lf_loops L) t.
Definition lf_queue (L : Life) (t : TaskId) : nat := lp_queue (lf_loops L) t.
Definition lf_closed (L : Life) (t : TaskId) : bool := lp_closed (lf_loops L) t.

(** One section of the body of [t] done, [n] to go. *)
Definition worked (t : TaskId) (n : nat) (L : Life) : Life :=
  on_loops (set_work t (Some n) (lf_loops L)) L.

(** A snapshot is read from the cache and its write started. *)
Definition on_read (b : BindPhase) (p : PersistPhase) (w : option StateSnapshot) (L : Life) : Life := {|
  lf_shared := lf_shared L; lf_token := lf_token L; lf_running := lf_running L; lf_loops := lf_loops L; lf_marking := lf_marking L;
  lf_bind := b; lf_persist := p; lf_write := w; lf_read := sh_cache (lf_shared L);
  lf_saved := false; lf_fs := lf_fs L; lf_serial := lf_serial L; lf_shut := lf_shut L |}.

(** A write lands. *)
Definition on_land (b : BindPhase) (saved : bool) (fs : gmap string Node) (L : Life) : Life := {|
  lf_shared := lf_shared L; lf_token := lf_token L; lf_running := lf_running L; lf_loops := lf_loops L; lf_marking := lf_marking L;
  lf_bind := b; lf_persist := lf_persist L; lf_write := None; lf_read := lf_read L;
  lf_saved := saved; lf_fs := fs; lf_serial := lf_serial L + 1; lf_shut := lf_shut L |}.

Definition on_end (running : list TaskId) (L : Life) : Life := {|
  lf_shared := lf_shared L; lf_token := lf_token L; lf_running := running; lf_loops := lf_loops L; lf_marking := lf_marking L;
  lf_bind := lf_bind L; lf_persist := lf_persist L; lf_write := lf_write L; lf_read := lf_read L;
  lf_saved := lf_saved L; lf_fs := lf_fs L; lf_serial := lf_serial L; lf_shut := lf_shut L |}.

Definition on_shut (p : ShutPhase) (fs : gmap string Node) (L : Life) : Life := {|
  lf_shared := lf_shared L; lf_token := true; lf_running := lf_running L; lf_loops := lf_loops L; lf_marking := lf_marking L;
  lf_bind := lf_bind L; lf_persist := lf_persist L; lf_write := lf_write L; lf_read := lf_read L;
  lf_saved := lf_saved L; lf_fs := fs; lf_serial := lf_serial L; lf_shut := p |}.

Definition drop_task (t : TaskId) (ts : list TaskId) : list TaskId := base.filter (λ u, u ≠ t) ts.

Section Life.
Context `{Serde, HashOrder}.
Variable cfg : LifeConfig.

(** The snapshot [persist_now] builds. *)
Definition persist_snapshot (now_ms : Z) (cache : gmap SocketId (CachedActivity * Z)) : StateSnapshot :=
  let servers := state_servers (lc_json_port cfg) (lc_msgpack_port cfg) (lc_ws_port cfg) in
  let servers := {| srv_bridge := srv_bridge servers; srv_msgpack := srv_msgpack servers;
                    srv_websocket := srv_websocket servers; srv_ipc := lc_ipc_path cfg |} in
  StateSnapshot_new (lc_app_version cfg) now_ms servers (state_activities cache).

(** [write_snapshot] run to its end: the directory, and whether it
    succeeded. *)
Definition write_snapshot (fs : gmap string Node) (path tmp : string) (chunks : list string) (now : Z)
    (removable : bool) : gmap string Node * bool :=
  (List.last (write_snapshot_states fs path tmp chunks now removable) fs,
   (open_snapshot_tmp fs tmp now removable).2).

(** What a write of [snap] can leave, and whether it succeeded.  A failed
    one stops anywhere before its rename. *)
Inductive lands (fs : gmap string Node) (path tmp : string) (snap : StateSnapshot)
    : gmap string Node → bool → Prop :=
  | lands_done body chunks now removable fs' :
      json_to_string (snapshot_value snap) = Some body → foldl (λ a b, a +:+ b) "" chunks = body →
      write_snapshot fs path tmp chunks now removable = (fs', true) → lands fs path tmp snap fs' true
  | lands_unserialized :
      json_to_string (snapshot_value snap) = None → lands fs path tmp snap fs false
  | lands_failed chunks now removable fs' :
      fs' ∈ write_snapshot_states fs path tmp chunks now removable → fs' !! path = fs !! path →
      lands fs path tmp snap fs' false.

(** When the wait at the head of a task's loop ends the loop: a consumer
    pump when its hub is closed and empty; a command or process pump when
    the token is cancelled, or its senders are gone and its channel is
    empty; the timers when the token is cancelled. *)
Definition may_end (L : Life) (t : TaskId) : bool :=
  let over := lf_closed L t && (lf_queue L t =? 0)%nat in
  match t with
  | TJson | TMsgpack => over
  | TIpc | TGame | TProc => lf_token L || over
  | TRefresh | TStats => lf_token L
  | TPersist => lf_token L && match lf_persist L with PWaiting => true | _ => false end
  end.

(** When the wait takes a message: the [select!] of a command or process
    pump is biased towards the token, a consumer pump has none. *)
Definition may_take (L : Life) (t : TaskId) : bool := on_hub t || negb (lf_token L).

(** Where an aborted task stops: at an await, never inside a section. *)
Definition may_stop (L : Life) (t : TaskId) : bool :=
  match t with
  | TPersist => match lf_persist L with PWaiting | PWriting => true | _ => false end
  | _ => true
  end.

(** The steps of the tasks and of the write the persist task started. *)
Inductive task_step (L : Life) : Life → Prop :=
  | ts_take t q n :
      t ∈ lf_running L → t ∈ inputs → lf_work L t = None → lf_queue L t = S q →
      may_take L t = true →
      task_step L (on_loops (set_work t (Some n) (set_queue t q (lf_loops L))) L)
  | ts_tick t n :
      t ∈ lf_running L → on_timer t = true → lf_work L t = None → lf_token L = false →
      task_step L (worked t n L)
  | ts_section t n s :
      t ∈ lf_running L → lf_work L t = Some (S n) → section_step (lf_shared L) s →
      sh_cache s = sh_cache (lf_shared L) → sh_dirty s = sh_dirty (lf_shared L) →
      task_step L (worked t n (on_shared s (lf_marking L) L))
  | ts_cache t n payload socket_id :
      t ∈ lf_running L → lf_work L t = Some (S n) → publishes t = true → t ∉ lf_marking L →
      task_step L (worked t n
        (on_shared (cache_activity payload socket_id (lf_shared L)) (t :: lf_marking L) L))
  | ts_mark t :
      t ∈ lf_marking L →
      task_step L (on_shared (set_dirty true (lf_shared L)) (drop_task t (lf_marking L)) L)
  | ts_refresh n :
      TRefresh ∈ lf_running L → lf_work L TRefresh = Some (S n) →
      task_step L (worked TRefresh n (on_shared (set_dirty true (lf_shared L)) (lf_marking L) L))
  | ts_return t n :
      t ∈ lf_running L → lf_work L t = Some n → t ∉ lf_marking L →
      task_step L (on_loops (set_work t None (lf_loops L)) L)
  | ts_poll :
      TPersist ∈ lf_running L → lf_persist L = PWaiting → lf_token L = false → lf_bind L = BDone →
      task_step L (on_persist (lf_shared L) PPolled L)
  | ts_park :
      TPersist ∈ lf_running L → lf_persist L = PPolled → task_step L (on_persist (lf_shared L) PWaiting L)
  | ts_swap :
      TPersist ∈ lf_running L → lf_persist L = PPolled →
      task_step L (on_persist (persist_tick (lf_shared L)).2
                     (if (persist_tick (lf_shared L)).1 then PSwapped else PWaiting) L)
  | ts_skip :
      lf_persist L = PSwapped → lc_state_path cfg = None →
      task_step L (on_read (lf_bind L) PWaiting None L)
  | ts_read now_ms path :
      lf_persist L = PSwapped → lc_state_path cfg = Some path →
      task_step L (on_read (lf_bind L) PWriting (Some (persist_snapshot now_ms (sh_cache (lf_shared L)))) L)
  | ts_land path snap fs ok :
      lf_write L = Some snap → lc_state_path cfg = Some path →
      lands (lf_fs L) path (tmp_name path (lc_pid cfg) (lf_serial L)) snap fs ok →
      task_step L (on_land (lf_bind L) ok fs L)
  | ts_written :
      TPersist ∈ lf_running L → lf_persist L = PWriting → lf_write L = None →
      task_step L (on_persist (lf_shared L) PWaiting L)
  | ts_end t :
      t ∈ lf_running L → t ∉ lf_marking L → lf_work L t = None → may_end L t = true →
      task_step L (on_end (drop_task t (lf_running L)) L).

(** A producer queues a message or an event. *)
Definition sent (t : TaskId) (L : Life) : Life :=
  on_loops (set_queue t (S (lf_queue L t)) (lf_loops L)) L.

(** The hub of a server closes once the server has shut down. *)
Definition hub_closes (t : TaskId) (L : Life) : Life := on_loops (set_closed t (lf_loops L)) L.

(** The tasks, their producers, [bind], [shutdown] and [Drop]. *)
Inductive life_step (L : Life) : Life → Prop :=
  | ls_task L' : task_step L L' → life_step L L'
  | ls_outboxes net :
      life_step L (on_shared (set_consumers (sh_consumers (lf_shared L)) net (lf_shared L)) (lf_marking L) L)
  | ls_send t :
      t ∈ inputs → lf_closed L t = false → life_step L (sent t L)
  | ls_close t :
      t ∈ inputs → on_hub t = false ∨ lf_shut L = SDropped →
      life_step L (on_loops (set_closed t (lf_loops L)) L)
  | ls_bind_skip :
      lf_bind L = BStarting → lc_state_path cfg = None →
      life_step L (on_read BDone (lf_persist L) None L)
  | ls_bind_read now_ms path :
      lf_bind L = BStarting → lc_state_path cfg = Some path →
      life_step L (on_read (BWriting (persist_snapshot now_ms (sh_cache (lf_shared L)))) (lf_persist L) None L)
  | ls_bind_land path snap fs ok :
      lf_bind L = BWriting snap → lc_state_path cfg = Some path →
      lands (lf_fs L) path (tmp_name path (lc_pid cfg) (lf_serial L)) snap fs ok →
      life_step L (on_land BDone ok fs L)
  | ls_cancel :
      lf_bind L = BDone → lf_shut L = SUp → life_step L (on_shut SCancelled (lf_fs L) L)
  | ls_json :
      lf_shut L = SCancelled → life_step L (on_shut SJson (lf_fs L) (hub_closes TJson L))
  | ls_msgpack :
      lf_shut L = SJson → life_step L (on_shut SMsgpack (lf_fs L) (hub_closes TMsgpack L))
  | ls_drained : lf_shut L = SMsgpack → lf_running L = [] → life_step L (on_shut (SDrained true) (lf_fs L) L)
  | ls_deadline : lf_shut L = SMsgpack → life_step L (on_shut (SDrained false) (lf_fs L) L)
  | ls_drop :
      lf_bind L = BDone → droppable (lf_shut L) = true → life_step L (on_shut SDropped (lf_fs L) L)
  | ls_abort t :
      t ∈ lf_running L → t ∉ lf_marking L → may_stop L t = true →
      aborting (lf_shut L) = true →
      life_step L (on_end (drop_task t (lf_running L)) L)
  | ls_remove joined path (removable : bool) :
      lf_shut L = SDrained joined → lc_state_path cfg = Some path →
      life_step L (on_shut (SDone joined removable)
                     (if removable then delete path (lf_fs L) else lf_fs L) L)
  | ls_keep joined :
      lf_shut L = SDrained joined → lc_state_path cfg = None →
      life_step L (on_shut (SDone joined false) (lf_fs L) L).

(** ** The invariant *)

(** The slot holds a complete snapshot of [cache]. *)
Definition slot_holds (fs : gmap string Node) (path : string) (cache : gmap SocketId (CachedActivity * Z)) : Prop :=
  ∃ now_ms body mtime,
    fs !! path = Some {| n_kind := Regular body; n_mtime := mtime; n_mode := 384 |} ∧
    json_to_string (snapshot_value (persist_snapshot now_ms cache)) = Some body.

(** The hubs a shutdown has closed so far. *)
Definition hub_down (p : ShutPhase) (t : TaskId) : bool :=
  match t, p with
  | TJson, (SJson | SMsgpack | SDrained _ | SDone _ _) => true
  | TMsgpack, (SMsgpack | SDrained _ | SDone _ _) => true
  | _, _ => false
  end.

Record life_inv (L : Life) : Prop := {
  li_hubs : ∀ t, hub_down (lf_shut L) t = true → lf_closed L t = true;
  li_bind : lf_bind L ≠ BDone → lf_persist L = PWaiting ∧ lf_write L = None ∧ lf_shut L = SUp;
  li_write : lf_write L ≠ None → lf_persist L = PWriting;
  li_idle : TPersist ∉ lf_running L →
    aborting (lf_shut L) = true ∨ lf_persist L = PWaiting ∧ lf_write L = None;
  li_joined : joined (lf_shut L) = true → lf_running L = [];
  li_path : lf_write L ≠ None → lc_state_path cfg ≠ None;
  li_token : lf_shut L ≠ SUp → lf_token L = true;
  li_removed : lf_shut L = SDone true true → ∀ path, lc_state_path cfg = Some path → lf_fs L !! path = None
}.

Record saved_inv (L : Life) : Prop := {
  si_dirty : sh_dirty (lf_shared L) = true ∨ lf_marking L ≠ [] ∨ lf_persist L = PSwapped ∨
    sh_cache (lf_shared L) = lf_read L;
  si_snapshot : ∀ snap, lf_write L = Some snap ∨ lf_bind L = BWriting snap →
    ∃ now_ms, snap = persist_snapshot now_ms (lf_read L);
  si_saved : lf_saved L = true →
    lf_write L = None ∧ lf_bind L = BDone ∧
    ∀ path, lc_state_path cfg = Some path → removed (lf_shut L) = false →
      slot_holds (lf_fs L) path (lf_read L)
}.

Lemma lands_done_content fs path tmp snap fs' :
  lands fs path tmp snap fs' true →
  ∃ body mtime, fs' !! path = Some {| n_kind := Regular body; n_mtime := mtime; n_mode := 384 |} ∧
    json_to_string (snapshot_value snap) = Some body.
Proof.
  intros Hl. inversion Hl as [body chunks now removable fs1 Hb Hc Hw| |]; subst. unfold write_snapshot in Hw.
  unfold write_snapshot_states in Hw.
  destruct (open_snapshot_tmp fs tmp now removable) as [fs1 opened] eqn:Eo. injection Hw as Hw Hopen.
  cbn in Hopen. subst opened fs'. rewrite app_comm_cons, app_assoc, List.last_last.
  pose proof (write_chunks_last chunks tmp fs1 fs1 _ _ _ (open_snapshot_tmp_fresh _ _ _ _ _ Eo)) as Hlast.
  unfold rename. rewrite Hlast, lookup_insert_eq. eauto.
Qed.

Lemma elem_of_drop_task t u ts : u ∈ drop_task t ts ↔ u ≠ t ∧ u ∈ ts.
Proof. unfold drop_task. by rewrite list_elem_of_filter. Qed.

Lemma life_new_inv user origins fs : life_inv (life_new user origins fs).
Proof.
  constructor; cbn; try done; [by intros []|]. intros Hn. destruct Hn. repeat constructor.
Qed.

Lemma life_new_saved user origins fs : saved_inv (life_new user origins fs).
Proof. constructor; cbn; [by left| |done]. intros snap [|]; done. Qed.

(** What a task's step leaves alone. *)
Lemma task_step_frame L L' :
  task_step L L' →
  lf_shut L' = lf_shut L ∧ lf_token L' = lf_token L ∧ lf_bind L' = lf_bind L ∧
  lp_closed (lf_loops L') = lp_closed (lf_loops L).
Proof. by destruct 1. Qed.

Lemma task_step_inv L L' : task_step L L' → life_inv L → life_inv L'.
Proof.
  intros Hst Hi. pose proof Hi as [Hh Hb Hw Hid Hj Hpa Htk Hr].
  assert (lf_persist L ≠ PWaiting → lf_bind L = BDone) as Hb1
    by (destruct (lf_bind L); naive_solver).
  assert (lf_persist L ≠ PWriting → lf_write L = None) as Hw2
    by (destruct (lf_write L); [intros Hne; destruct Hne; by apply Hw|done]).
  assert (lf_shut L ≠ SUp → lf_bind L = BDone) as Hb2
    by (destruct (lf_bind L); naive_solver).
  assert (lf_persist L = PWriting → TPersist ∉ lf_running L → aborting (lf_shut L) = true) as Hab
    by (intros ? Hni; destruct (Hid Hni) as [?|[? ?]]; [done|congruence]).
  destruct Hst as [| | | | | | | | | | | | | |t Hrun Hnm Hwk Hend];
    constructor; cbn; try done; auto;
    try (intros Hne; destruct Hne; first [apply Hb1; congruence|apply Hw2; congruence]);
    try (intros Hne; destruct Hb as (? & ? & ?); [congruence|by split_and!]);
    try (intros Hni; destruct (Hid Hni) as [Hd|[? ?]];
         [left; congruence|right; by split || congruence]).
  - intros Hni. destruct (Hid Hni) as [?|[? ?]]; [by left|congruence].
  - congruence.
  - intros Hsh. destruct Hid as [Hd|[? ?]]; [rewrite Hj by (by rewrite Hsh); apply not_elem_of_nil| |congruence].
    by rewrite Hsh in Hd.
  - intros Hni. destruct (decide (t = TPersist)) as [->|Hne].
    + cbn in Hend. apply andb_prop in Hend as [_ Hp]. destruct (lf_persist L) eqn:Ep; try done.
      right. split; [done|]. apply Hw2. congruence.
    + apply Hid. intros Hin. apply Hni, elem_of_drop_task. auto.
  - intros Hjo. by rewrite Hj.
Qed.

Lemma bridge_life_inv L L' : life_step L L' → life_inv L → life_inv L'.
Proof.
  intros Hst Hi. pose proof Hi as [Hh Hb Hw Hid Hj Hpa Htk Hr].
  assert (lf_shut L ≠ SUp → lf_bind L = BDone) as Hb2
    by (destruct (lf_bind L); naive_solver).
  destruct Hst as [L' Hst| | | | | | | | | | | | |t Hrun Hnm Hstop Hsh|j path r Hsh Hp|j Hsh Hp];
    [by eapply task_step_inv|..];
    constructor; cbn; try done; auto;
    try (intros Hne; destruct Hne; apply Hb2; congruence);
    try (intros Hne; destruct Hb as (? & ? & ?); [congruence|by split_and!]);
    try (intros Hni; destruct (Hid Hni) as [Hd|[? ?]];
         [left; congruence || by match goal with E : lf_shut L = _ |- _ => rewrite E in Hd end
         |right; by split || congruence]);
    try (intros u; specialize (Hh u); match goal with E : lf_shut L = _ |- _ => rewrite E in Hh end;
         destruct u; cbn in *; by auto).
  - intros u Hu. unfold upd. case_decide; [done|by apply Hh].
  - intros Hsh. rewrite Hb2 in * by congruence. done.
  - by intros [].
  - intros Hjo. by rewrite Hj.
  - destruct j; [|done]. intros _. apply Hj. by rewrite Hsh.
  - intros [= -> ->] path' Hp'. assert (path' = path) as -> by congruence. apply lookup_delete_eq.
  - destruct j; [|done]. intros _. apply Hj. by rewrite Hsh.
Qed.

Lemma lands_holds fs path tmp snap fs' now_ms cache :
  lands fs path tmp snap fs' true → snap = persist_snapshot now_ms cache → slot_holds fs' path cache.
Proof. intros (body & mtime & ? & ?)%lands_done_content ->. by exists now_ms, body, mtime. Qed.

Lemma task_step_saved L L' : task_step L L' → life_inv L → saved_inv L → saved_inv L'.
Proof.
  intros Hst [_ Hb Hw _ _ _ _ _] [Hd Hs Hv].
  assert (lf_persist L ≠ PWaiting → lf_bind L = BDone) as Hb1
    by (destruct (lf_bind L) eqn:Eb; [by destruct Hb as [? _]..|done]).
  assert (∀ snap, lf_write L = Some snap → lf_persist L = PWriting) as Hw1 by (intros ? E; apply Hw; congruence).
  assert (lf_persist L ≠ PSwapped → ∀ p, p ≠ PSwapped → sh_dirty (lf_shared L) = true ∨ lf_marking L ≠ [] ∨
    p = PSwapped ∨ sh_cache (lf_shared L) = lf_read L) as Hd1 by (intros ? p ?; destruct Hd as [?|[?|[?|?]]]; auto; done).
  destruct Hst as [| |t n s ? ? ? Hc Hdi| | | | | | |Hrun Hpe| | |path snap fs ok Hwr Hp Hl| |];
    constructor; cbn; try exact Hd; try exact Hs; try exact Hv; try done;
    try (by left); try (by right; left); try (by right; right; right); try (apply Hd1; congruence).
  - rewrite Hc, Hdi. exact Hd.
  - destruct (sh_dirty (lf_shared L)); [auto|]. destruct Hd as [?|[?|[?|?]]]; auto; congruence.
  - intros ? [?|E]; [done|]. rewrite Hb1 in E by congruence. done.
  - intros ? [[= <-]|E]; [eauto|]. rewrite Hb1 in E by congruence. done.
  - intros snap' [?|E]; [done|]. rewrite Hb1 in E by (rewrite (Hw1 snap); congruence). done.
  - intros ->. split_and!; [done|apply Hb1; rewrite (Hw1 snap); congruence|].
    intros path' Hp' _. assert (path' = path) as -> by congruence.
    destruct (Hs snap) as [now_ms ?]; [auto|]. by eapply lands_holds.
Qed.

Lemma life_step_saved L L' : life_step L L' → life_inv L → saved_inv L → saved_inv L'.
Proof.
  intros Hst Hi Hsv. pose proof Hsv as [Hd Hs Hv].
  destruct Hst as [L' Hst| | | | | |path snap fs ok Hbi Hp Hl| | | | | |Hbd Hdr| |j path r Hsh Hp|];
    [by eapply task_step_saved|..];
    constructor; cbn; try exact Hd; try exact Hs; try exact Hv; try done;
    try (by left); try (by right; left); try (by right; right; right);
    try (intros Hsa; destruct (Hv Hsa) as (? & ? & Hsl); split_and!; [done..|]; intros path' Hp' _;
         apply Hsl; [done|]; by match goal with E : lf_shut L = _ |- _ => rewrite E end).
  - intros ? [|]; done.
  - intros ? [?|[= <-]]; [done|eauto].
  - intros ? [|]; done.
  - intros ->. split_and!; [done..|]. intros path' Hp' _. assert (path' = path) as -> by congruence.
    destruct (Hs snap) as [now_ms ?]; [auto|]. by eapply lands_holds.
  - intros Hsa. destruct (Hv Hsa) as (? & ? & Hsl). split_and!; [done..|]. intros path' Hp' _.
    apply Hsl; [done|]. by destruct (lf_shut L).
  - intros Hsa. destruct (Hv Hsa) as (? & ? & Hsl). split_and!; [done..|]. intros path' Hp' ->.
    apply Hsl; [done|]. by rewrite Hsh.
Qed.

Lemma bridge_life_reachable user origins fs L :
  rtc life_step (life_new user origins fs) L → life_inv L ∧ saved_inv L.
Proof.
  intros Hr. pose proof (life_new_inv user origins fs) as Hi. pose proof (life_new_saved user origins fs) as Hs.
  revert Hi Hs. induction Hr as [|L1 L2 L3 Hst _ IH]; [done|]. intros. apply IH;
    eauto using bridge_life_inv, life_step_saved.
Qed.

(** ** What the slot holds *)

(** C34: Snapshots converge.  Under any interleaving of the pumps, the refresh
    and the persist task, once the dirty flag is down, no pump is between its
    change of the cache and its mark, and the last write landed, the slot
    holds the complete snapshot of the very cache late joiners are replayed
    from: no change is ever left behind a cleared flag. *)
Theorem snapshot_converges user origins fs (L : Life) path :
  rtc life_step (life_new user origins fs) L → lc_state_path cfg = Some path →
  sh_dirty (lf_shared L) = false → lf_marking L = [] → lf_persist L ≠ PSwapped → lf_saved L = true →
  removed (lf_shut L) = false →
  slot_holds (lf_fs L) path (sh_cache (lf_shared L)).
Proof.
  intros [_ [Hd _ Hv]]%bridge_life_reachable Hp Hdi Hm Hpe Hsa Hr. destruct (Hv Hsa) as (_ & _ & Hsl).
  destruct Hd as [?|[?|[?| ->]]]; [congruence|done..|]. by apply Hsl.
Qed.

(** A drained shutdown releases its slot: when every task was joined
    within the deadline and the slot could be removed, it is gone, and no
    snapshot write is left that could bring it back. *)
Theorem shutdown_releases_slot user origins fs (L : Life) path :
  rtc life_step (life_new user origins fs) L → lc_state_path cfg = Some path →
  lf_shut L = SDone true true →
  lf_fs L !! path = None ∧ lf_write L = None ∧ lf_running L = [] ∧
  ∀ L', rtc life_step L L' → lf_fs L' !! path = None.
Proof.
  intros Hr Hp Hsh. pose proof (bridge_life_reachable _ _ _ _ Hr) as [[_ _ _ Hid Hj _ _ Hrm] _].
  assert (lf_running L = []) as Hrun by (apply Hj; by rewrite Hsh).
  split_and!; [by apply Hrm| |done|].
  - destruct Hid as [Hd|[_ ?]]; [rewrite Hrun; apply not_elem_of_nil|by rewrite Hsh in Hd|done].
  - intros L' Hr'. assert (lf_shut L' = SDone true true) as Hsh'.
    { clear -Hr' Hsh. induction Hr' as [|L1 L2 L3 Hst _ IH]; [done|]. apply IH. destruct Hst as [L' Hst| | | | | | | | | | | | | | |]; cbn; try congruence;
        [by rewrite (proj1 (task_step_frame _ _ Hst))|by rewrite Hsh in *]. }
    destruct (bridge_life_reachable user origins fs L') as [[_ _ _ _ _ _ _ Hrm'] _]; [by etransitivity|]. by apply Hrm'.
Qed.

(** ** The drain *)

Lemma drop_task_shorter t ts : t ∈ ts → length (drop_task t ts) < length ts.
Proof.
  intros Hin. unfold drop_task. induction ts as [|u ts IH]; [by apply elem_of_nil in Hin|].
  destruct (decide (u = t)) as [->|Hne].
  - rewrite filter_cons_False by (intros Hf; by apply Hf). cbn.
    pose proof (length_filter (λ u, u ≠ t) ts). lia.
  - rewrite filter_cons_True by done. cbn. apply elem_of_cons in Hin as [->|Hin]; [done|].
    specialize (IH Hin). lia.
Qed.

(** What is left to do once the token is cancelled and the hubs are
    closed: the events still in the hubs, which only the consumer pumps
    take, and then the sections of the bodies, the marks, the persist task's
    phases with its write, and the loops themselves. *)
Definition hub_backlog (L : Life) : nat := lf_queue L TJson + lf_queue L TMsgpack.

Definition work_weight (w : option nat) : nat := match w with Some n => 2 * n + 1 | None => 0 end.

Definition persist_weight (p : PersistPhase) : nat :=
  match p with PWaiting => 0 | PWriting => 1 | PSwapped => 3 | PPolled => 4 end.

Definition work_sum (p : Loops) : nat :=
  sum_list_with (λ t, work_weight (lp_work p t)) all_tasks.
#[local] Arguments work_sum : simpl never.

Definition work_left (L : Life) : nat :=
  length (lf_running L) + length (lf_marking L) + persist_weight (lf_persist L)
  + match lf_write L with Some _ => 1 | None => 0 end
  + work_sum (lf_loops L).

Lemma work_upd t w p :
  work_sum (set_work t w p) + work_weight (lp_work p t) = work_sum p + work_weight w.
Proof.
  unfold work_sum, set_work. simpl lp_work. unfold upd.
  destruct t; cbn -[work_weight]; repeat (case_decide; try done); lia.
Qed.

(** Every step of the tasks takes an event from a hub or shortens the rest. *)
Lemma task_step_shrinks L L' :
  lf_token L = true → task_step L L' →
  hub_backlog L' < hub_backlog L ∨ hub_backlog L' = hub_backlog L ∧ work_left L' < work_left L.
Proof.
  intros Ht Hst. destruct Hst as [t q n ? Hin Hw Hq Htk|t n ? ? ? Hf|t n s ? Hw|t n pl id ? Hw|t Hm
    |n ? Hw|t n ? Hw|? ? Hf|? Hp|? Hp|Hp|now path Hp|path snap fs ok Hw|? Hp Hw|t Hr].
  - left. unfold may_take in Htk. rewrite Ht, orb_false_r in Htk. unfold hub_backlog, lf_queue in *.
    cbn. unfold upd. destruct t; try done; repeat (case_decide; try done); lia.
  - congruence.
  - right. split; [done|]. unfold work_left. cbn. pose proof (work_upd t (Some n) (lf_loops L)) as E.
    unfold lf_work in Hw. rewrite Hw in E. cbn [work_weight] in E. lia.
  - right. split; [done|]. unfold work_left. cbn. pose proof (work_upd t (Some n) (lf_loops L)) as E.
    unfold lf_work in Hw. rewrite Hw in E. cbn [work_weight] in E. lia.
  - right. split; [done|]. unfold work_left. cbn. pose proof (drop_task_shorter t _ Hm). lia.
  - right. split; [done|]. unfold work_left. cbn. pose proof (work_upd TRefresh (Some n) (lf_loops L)) as E.
    unfold lf_work in Hw. rewrite Hw in E. cbn [work_weight] in E. lia.
  - right. split; [done|]. unfold work_left. cbn. pose proof (work_upd t None (lf_loops L)) as E.
    unfold lf_work in Hw. rewrite Hw in E. cbn [work_weight] in E. lia.
  - congruence.
  - right. split; [done|]. unfold work_left. cbn. rewrite Hp. cbn. lia.
  - right. split; [done|]. unfold work_left. cbn. rewrite Hp. destruct (sh_dirty _); cbn; lia.
  - right. split; [done|]. unfold work_left. cbn. rewrite Hp. cbn. lia.
  - right. split; [done|]. unfold work_left. cbn. rewrite Hp. destruct (lf_write L); cbn; lia.
  - right. split; [done|]. unfold work_left. cbn. rewrite Hw. lia.
  - right. split; [done|]. unfold work_left. cbn. rewrite Hp, Hw. cbn. lia.
  - right. split; [done|]. unfold work_left. cbn. pose proof (drop_task_shorter t _ Hr). lia.
Qed.

(** Producers queue what they like before a task's step. *)
Definition send_step (L L' : Life) : Prop := ∃ t, t ∈ inputs ∧ lf_closed L t = false ∧ L' = sent t L.
Definition drain_step (L L' : Life) : Prop := ∃ L1, rtc send_step L L1 ∧ task_step L1 L'.

Definition hubs_closed (L : Life) : Prop := lf_closed L TJson = true ∧ lf_closed L TMsgpack = true.

Lemma send_step_frame L L' :
  hubs_closed L → rtc send_step L L' →
  hubs_closed L' ∧ hub_backlog L' = hub_backlog L ∧ work_left L' = work_left L ∧
  lf_token L' = lf_token L ∧ lf_shut L' = lf_shut L.
Proof.
  intros Hc Hr. revert Hc. induction Hr as [|L L1 L2 (t & Hin & Hcl & ->) _ IH]; [done|].
  intros [Hc1 Hc2]. destruct IH as (? & E & ? & ? & ?); [done|]. split_and!; [done| |done..].
  rewrite E. unfold hub_backlog, lf_queue, lf_closed in *. cbn. unfold upd.
  destruct t; try congruence; by repeat (case_decide; try done).
Qed.

Lemma task_step_hubs L L' : task_step L L' → hubs_closed L → hubs_closed L'.
Proof.
  intros (_ & _ & _ & E)%task_step_frame. unfold hubs_closed, lf_closed. by rewrite E.
Qed.

Lemma drain_terminates L :
  lf_token L = true → hubs_closed L → Acc (λ L2 L1, drain_step L1 L2) L.
Proof.
  remember (hub_backlog L) as a eqn:Ea. remember (work_left L) as b eqn:Eb.
  revert b L Ea Eb. induction a as [a IHa] using lt_wf_ind.
  induction b as [b IHb] using lt_wf_ind. intros L -> -> Ht Hc. constructor.
  intros L2 (L1 & Hs & Hst). destruct (send_step_frame L L1 Hc Hs) as (Hc1 & E1 & E2 & E3 & _).
  destruct (task_step_frame L1 L2 Hst) as (_ & Et & _).
  assert (lf_token L2 = true) as Ht2 by congruence.
  pose proof (task_step_hubs _ _ Hst Hc1) as Hc2.
  destruct (task_step_shrinks L1 L2) as [Hlt|[Heq Hlt]]; [congruence|done|..].
  - apply (IHa (hub_backlog L2)) with (b := work_left L2); [lia|done..].
  - apply (IHb (work_left L2)); [lia|congruence|done..].
Qed.

(** While a task is left, one of them can go on. *)
Lemma drain_progress L :
  life_inv L → lf_shut L = SMsgpack → lf_running L ≠ [] → ∃ L', task_step L L'.
Proof.
  intros Hi Hs Hne. pose proof (li_token _ Hi) as Ht. rewrite Hs in Ht. specialize (Ht ltac:(done)).
  destruct (lf_marking L) as [|u us] eqn:Em; [|eexists; apply (ts_mark L u); rewrite Em; by left].
  destruct (lf_running L) as [|t ts] eqn:Er; [done|].
  assert (t ∈ lf_running L) as Hin by (rewrite Er; by left).
  assert (t ∉ lf_marking L) as Hnm by (rewrite Em; apply not_elem_of_nil).
  destruct (lf_work L t) as [n|] eqn:Ew; [eexists; by eapply ts_return|].
  destruct (may_end L t) eqn:Ee; [eexists; by eapply ts_end|].
  unfold may_end in Ee. rewrite Ht in Ee. destruct t; try done.
  - pose proof (li_hubs _ Hi TJson) as Hc. rewrite Hs in Hc. rewrite Hc in Ee by done. cbn in Ee.
    destruct (lf_queue L TJson) as [|q] eqn:Eq; [done|]. eexists. eapply (ts_take L TJson q 0); try done. by left.
  - pose proof (li_hubs _ Hi TMsgpack) as Hc. rewrite Hs in Hc. rewrite Hc in Ee by done. cbn in Ee.
    destruct (lf_queue L TMsgpack) as [|q] eqn:Eq; [done|]. eexists.
    eapply (ts_take L TMsgpack q 0); try done. by right; left.
  - cbn in Ee. destruct (lf_persist L) eqn:Ep; [done|..].
    + eexists. by apply ts_park.
    + destruct (lc_state_path cfg) as [path|] eqn:Epath; eexists; [by apply (ts_read L 0 path)|by apply ts_skip].
    + destruct (lf_write L) as [snap|] eqn:Ewr; [|eexists; by apply ts_written].
      destruct (lc_state_path cfg) as [path|] eqn:Epath; [|by destruct (li_path _ Hi); [congruence|]].
      eexists. apply (ts_land L path snap (lf_fs L) false); [done..|].
      eapply (lands_failed _ _ _ _ [] 0 false); [|done]. unfold write_snapshot_states.
      destruct (open_snapshot_tmp _ _ _ _) as [? []]; by left.
Qed.

Lemma drain_steps_inv L L' :
  rtc drain_step L L' → life_inv L → life_inv L' ∧ lf_shut L' = lf_shut L.
Proof.
  intros Hr. induction Hr as [|L L2 L3 (L1 & Hs & Hst) _ IH]; [done|]. intros Hi.
  assert (life_inv L1 ∧ lf_shut L1 = lf_shut L) as [Hi1 E1].
  { clear Hst IH. induction Hs as [|L La Lb (t & Hin & Hcl & ->) _ IH]; [done|].
    apply IH. by apply (bridge_life_inv L); [apply ls_send|]. }
  destruct (task_step_frame _ _ Hst) as (E2 & _). destruct IH as [Hi3 E3]; [by eapply task_step_inv|].
  split; [done|congruence].
Qed.

(** C36: A bridge that is shut down drains, whatever its tasks were doing and
    however they are scheduled.  From any reachable state in which
    [shutdown] waits for the tasks, with producers still queueing commands
    and reports as they like, the tasks take no infinite number of steps;
    as long as one of the eight is left one of them has a step; and once
    none is left no snapshot write is either, so the drain joins them all
    and goes on to release the slot.  Each loop ends only where its wait
    ends it, and each message, tick and write is handled in finitely many
    critical sections. *)
Theorem bridge_drains user origins fs (L : Life) :
  rtc life_step (life_new user origins fs) L → lf_shut L = SMsgpack →
  Acc (λ L2 L1, drain_step L1 L2) L ∧
  ∀ L', rtc drain_step L L' →
    (lf_running L' ≠ [] → ∃ L'', task_step L' L'') ∧
    (lf_running L' = [] → lf_write L' = None ∧ life_step L' (on_shut (SDrained true) (lf_fs L') L')).
Proof.
  intros [Hi _]%bridge_life_reachable Hs. split.
  - apply drain_terminates; [apply (li_token _ Hi); congruence|].
    split; apply (li_hubs _ Hi); by rewrite Hs.
  - intros L' Hr. destruct (drain_steps_inv L L' Hr Hi) as [Hi' Hs']. rewrite Hs in Hs'. split.
    + by apply drain_progress.
    + intros Hrun. split; [|by apply ls_drained].
      destruct (li_idle _ Hi') as [Hd|[_ ?]]; [rewrite Hrun; apply not_elem_of_nil| |done].
      by rewrite Hs' in Hd.
Qed.

End Life.

(** ** Runs *)

Module LifeDemo.
#[local] Existing Instance StateDemo.serde.
#[local] Existing Instance default_order.

Definition slot : string := "rsrpc-state-0".

Definition cfg : LifeConfig := {|
  lc_state_path := Some slot; lc_pid := 42; lc_app_version := "1.0"; lc_json_port := 1337;
  lc_msgpack_port := 1338; lc_ws_port := None; lc_ipc_path := None |}.

Definition start : Life := life_new RpcUser_default [] ∅.

Definition snap_of (L : Life) : StateSnapshot := persist_snapshot cfg 1750000000000 (sh_cache (lf_shared L)).

(** A write of [snap] that succeeds. *)
Definition landed (snap : StateSnapshot) (L : Life) : Life :=
  on_land BDone true
    (write_snapshot (lf_fs L) slot (tmp_name slot 42 (lf_serial L)) [demo_print (snapshot_value snap)] 5 true).1 L.

Lemma lands_demo fs tmp snap :
  (write_snapshot fs slot tmp [demo_print (snapshot_value snap)] 5 true).2 = true →
  lands fs slot tmp snap (write_snapshot fs slot tmp [demo_print (snapshot_value snap)] 5 true).1 true.
Proof.
  intros E. eapply (lands_done _ _ _ _ (demo_print (snapshot_value snap)) [demo_print (snapshot_value snap)] 5 true).
  - reflexivity.
  - reflexivity.
  - destruct (write_snapshot _ _ _ _ _ _). cbn in *. congruence.
Qed.

(** [bind]'s snapshot; a card; its mark; the persist task's second tick. *)
Definition bound : Life := landed (snap_of start) (on_read (BWriting (snap_of start)) PWaiting None start).
Definition taken : Life :=
  let L := sent TIpc bound in
  on_loops (set_work TIpc (Some 1) (set_queue TIpc 0 (lf_loops L))) L.
Definition published : Life :=
  let L := worked TIpc 0
    (on_shared (cache_activity (demo_card 88) "1111" (lf_shared taken)) [TIpc] taken) in
  let L := on_shared (set_dirty true (lf_shared L)) (drop_task TIpc [TIpc]) L in
  on_loops (set_work TIpc None (lf_loops L)) L.
Definition swapped : Life :=
  let L := on_persist (lf_shared published) PPolled published in
  on_persist (persist_tick (lf_shared L)).2 PSwapped L.
Definition writing : Life := on_read BDone PWriting (Some (snap_of swapped)) swapped.
Definition written : Life :=
  let L := landed (snap_of swapped) writing in on_persist (lf_shared L) PWaiting L.

Lemma bound_reachable : rtc (life_step cfg) start bound.
Proof.
  eapply rtc_l; [by eapply (ls_bind_read cfg start 1750000000000 slot)|].
  eapply rtc_l; [eapply (ls_bind_land cfg _ slot); [done|done|apply lands_demo; vm_compute; reflexivity]|].
  fold (snap_of start). change (on_land _ _ _ _) with bound. done.
Qed.

Lemma published_reachable : rtc (life_step cfg) start published.
Proof.
  etransitivity; [exact bound_reachable|].
  eapply rtc_l; [apply (ls_send cfg bound TIpc); [by repeat constructor|done]|].
  eapply rtc_l; [apply ls_task, (ts_take cfg _ TIpc 0 1); try done|].
  1,2: apply (bool_decide_unpack _); vm_compute; exact I.
  change (on_loops (set_work TIpc (Some 1) _) _) with taken.
  eapply rtc_l; [apply ls_task; eapply (ts_cache cfg taken TIpc 0 (demo_card 88) "1111");
    [|done|done|apply not_elem_of_nil]|].
  { apply (bool_decide_unpack _). vm_compute. exact I. }
  eapply rtc_l; [apply ls_task; by eapply (ts_mark cfg _ TIpc); left|].
  eapply rtc_l; [apply ls_task; eapply (ts_return cfg _ TIpc 0); [|done|]|done].
  - apply (bool_decide_unpack _). vm_compute. exact I.
  - apply (bool_decide_unpack _). vm_compute. exact I.
Qed.

Lemma writing_reachable : rtc (life_step cfg) start writing.
Proof.
  etransitivity; [exact published_reachable|].
  eapply rtc_l; [apply ls_task, (ts_poll cfg published); try done|].
  { apply (bool_decide_unpack _). vm_compute. exact I. }
  eapply rtc_l; [apply ls_task, ts_swap; [|done]|].
  { apply (bool_decide_unpack _). vm_compute. exact I. }
  eapply rtc_l; [by apply ls_task, (ts_read cfg _ 1750000000000 slot)|]. done.
Qed.

Lemma written_reachable : rtc (life_step cfg) start written.
Proof.
  etransitivity; [exact writing_reachable|].
  eapply rtc_l; [apply ls_task; eapply (ts_land cfg writing slot);
    [done|done|apply lands_demo; vm_compute; reflexivity]|].
  eapply rtc_l; [apply ls_task, ts_written; [|done|done]|done].
  apply (bool_decide_unpack _). vm_compute. exact I.
Qed.

(** A shutdown up to its drain. *)
Definition cancelled (L : Life) : Life :=
  on_shut SMsgpack (lf_fs L) (hub_closes TMsgpack
    (on_shut SJson (lf_fs L) (hub_closes TJson (on_shut SCancelled (lf_fs L) L)))).

Lemma cancelled_steps L : lf_bind L = BDone → lf_shut L = SUp → rtc (life_step cfg) L (cancelled L).
Proof.
  intros Hb Hs. eapply rtc_l; [by apply ls_cancel|]. eapply rtc_l; [by apply ls_json|].
  eapply rtc_l; [by apply ls_msgpack|]. done.
Qed.

Lemma drop_task_head t ts : t ∉ ts → drop_task t (t :: ts) = ts.
Proof.
  intros Hni. unfold drop_task. rewrite filter_cons_False by (intros Hf; by apply Hf).
  induction ts as [|u ts IH]; [done|]. apply not_elem_of_cons in Hni as [? ?].
  rewrite filter_cons_True by done. by rewrite IH.
Qed.

(** Every task ends by itself. *)
Lemma all_end ts L :
  lf_running L = ts → NoDup ts → lf_marking L = [] → (∀ t, lf_work L t = None) →
  forallb (may_end L) ts = true →
  rtc (life_step cfg) L (on_end [] L).
Proof.
  revert L. induction ts as [|t ts IH]; intros L Hr Hnd Hm Hwk He.
  { destruct L. cbn in *. subst. done. }
  cbn in He. apply andb_prop in He as [He Hes]. apply NoDup_cons in Hnd as [Hni Hnd].
  eapply rtc_l; [apply ls_task, (ts_end cfg L t);
    [rewrite Hr; by left|rewrite Hm; apply not_elem_of_nil|apply Hwk|done]|].
  assert (drop_task t (lf_running L) = ts) as -> by (rewrite Hr; by apply drop_task_head).
  apply (IH (on_end ts L)); try done.
Qed.

Definition ended : Life := on_end [] (cancelled written).
Definition drained : Life := on_shut (SDrained true) (lf_fs ended) ended.
Definition released : Life := on_shut (SDone true true) (delete slot (lf_fs drained)) drained.

Lemma released_reachable : rtc (life_step cfg) start released.
Proof.
  etransitivity; [exact written_reachable|]. etransitivity; [by apply cancelled_steps|].
  etransitivity; [eapply (all_end all_tasks)|].
  - done.
  - apply (bool_decide_unpack _). vm_compute. exact I.
  - done.
  - by intros [].
  - vm_compute. reflexivity.
  - eapply rtc_l; [by apply ls_drained|]. eapply rtc_l; [by apply (ls_remove cfg drained true slot true)|]. done.
Qed.

(** The drain's deadline passes while the write is under way. *)
Definition late : Life := on_shut (SDrained false) (lf_fs (cancelled writing)) (cancelled writing).
Definition late_removed : Life := on_shut (SDone false true) (delete slot (lf_fs late)) late.
Definition late_landed : Life := landed (snap_of swapped) late_removed.

Lemma late_reachable : rtc (life_step cfg) start late_landed.
Proof.
  etransitivity; [exact writing_reachable|]. etransitivity; [by apply cancelled_steps|].
  eapply rtc_l; [by apply ls_deadline|]. eapply rtc_l; [by apply (ls_remove cfg late false slot true)|].
  eapply rtc_l; [|reflexivity].
  apply ls_task, (ts_land cfg late_removed slot (snap_of swapped)); [done|done|]. apply lands_demo. vm_compute. reflexivity.
Qed.
End LifeDemo.

Lemma snapshot_converges_witness :
  slot_holds (H := StateDemo.serde) (H0 := default_order) LifeDemo.cfg (lf_fs LifeDemo.written) LifeDemo.slot
    (sh_cache (lf_shared LifeDemo.written)) ∧ sh_cache (lf_shared LifeDemo.written) ≠ ∅.
Proof.
  split; [|vm_compute; discriminate].
  apply (snapshot_converges (H := StateDemo.serde) (H0 := default_order) LifeDemo.cfg RpcUser_default [] ∅).
  - exact LifeDemo.written_reachable.
  - reflexivity.
  - vm_compute. reflexivity.
  - reflexivity.
  - discriminate.
  - reflexivity.
  - reflexivity.
Defined.

Lemma shutdown_releases_slot_witness : lf_fs LifeDemo.released !! LifeDemo.slot = None.
Proof.
  destruct (shutdown_releases_slot (H := StateDemo.serde) (H0 := default_order) LifeDemo.cfg RpcUser_default [] ∅
    LifeDemo.released LifeDemo.slot LifeDemo.released_reachable) as [H _]; [reflexivity|reflexivity|exact H].
Defined.

(** Shut down in the middle of a write. *)
Lemma bridge_drains_witness :
  lf_write (LifeDemo.cancelled LifeDemo.writing) ≠ None ∧
  ∃ L', task_step (H := StateDemo.serde) (H0 := default_order) LifeDemo.cfg
          (LifeDemo.cancelled LifeDemo.writing) L'.
Proof.
  split; [discriminate|].
  destruct (bridge_drains (H := StateDemo.serde) (H0 := default_order) LifeDemo.cfg RpcUser_default [] ∅
    (LifeDemo.cancelled LifeDemo.writing)) as (_ & Hd).
  - etransitivity; [exact LifeDemo.writing_reachable|]. apply LifeDemo.cancelled_steps; reflexivity.
  - reflexivity.
  - destruct (Hd (LifeDemo.cancelled LifeDemo.writing)) as [Hp _]; [reflexivity|].
    apply Hp. discriminate.
Defined.

(** A late snapshot takes the released slot back.  A write that is under
    way when the drain's deadline passes is not stopped by the abort of its
    task: it lands after the removal, and the slot is left behind, fresh, by
    a bridge that is gone. *)
Theorem late_write_keeps_slot :
  ∃ L, rtc (life_step (H := StateDemo.serde) (H0 := default_order) LifeDemo.cfg) LifeDemo.start L ∧
    lf_shut L = SDone false true ∧ is_Some (lf_fs L !! LifeDemo.slot).
Proof.
  exists LifeDemo.late_landed. split; [exact LifeDemo.late_reachable|]. split; [reflexivity|].
  vm_compute. eauto.
Qed.
