(* ===== verification/WsServer.v ===== *)
(** * The WebSocket server (crates/rsrpc-ws/src)

    config.rs: the tuning and its validation; server.rs: the accept loop,
    the task of a connection and shutdown; hub.rs: the event queue.  Every
    task is a state of its own and one action of the run is one thing a
    task does between two points where it may wait, so that a run is any
    interleaving the scheduler can produce. *)

From stdpp Require Import base gmap strings list fin_maps sets.
From S2P Require Import Prelude RStr Consumers.

Local Open Scope string_scope.
Local Open Scope nat_scope.
Local Open Scope list_scope.

(** ** Configuration (config.rs) *)

(** The address and the size caps are handed to the listener and to
    tungstenite; durations in nanoseconds. *)
Record ServerConfig := {
  max_connections : nat;
  event_queue : nat;
  per_client_queue : nat;
  max_message_size : option Z;
  max_frame_size : option Z;
  keepalive_interval : Z;
  idle_timeout : Z
}.

Definition ServerConfig_default : ServerConfig := {|
  max_connections := 64; event_queue := 64; per_client_queue := 8;
  max_message_size := Some (1024 * 1024)%Z; max_frame_size := Some (256 * 1024)%Z;
  keepalive_interval := 30000000000; idle_timeout := 60000000000 |}.

Inductive WsError :=
  | ErrBind (kind : string)
  | ErrRuntime (kind : string)
  | ErrConfig (msg : string).

(** [ServerConfigBuilder::build]. *)
Definition build (c : ServerConfig) : WsError + ServerConfig :=
  if decide (max_connections c = 0) then inl (ErrConfig "max_connections must be non-zero")
  else if decide (event_queue c = 0) then inl (ErrConfig "event_queue must be non-zero")
  else if decide (per_client_queue c = 0) then inl (ErrConfig "per_client_queue must be non-zero")
  else if decide (keepalive_interval c = 0%Z)
  then inl (ErrConfig "keepalive_interval must be non-zero")
  else if decide (idle_timeout c = 0%Z) then inl (ErrConfig "idle_timeout must be non-zero")
  else inr c.

(** ** Events and frames *)

Inductive DisconnectReason := Clean | ConnError | IdleTimeout | SlowConsumer | ServerShutdown.

Inductive Event :=
  | EvConnect (id : ClientId) (r : Responder)
  | EvDisconnect (id : ClientId) (reason : DisconnectReason)
  | EvMessage (id : ClientId) (m : Message).

Definition event_id (e : Event) : ClientId :=
  match e with EvConnect id _ => id | EvDisconnect id _ => id | EvMessage id _ => id end.

(** What tungstenite reads from the peer. *)
Inductive WsMessage := WsText (s : string) | WsBinary (b : string) | WsPing | WsPong | WsFrame | WsClose.
Inductive Incoming := InMessage (m : WsMessage) | InError | InEnd.

(** What the task writes to the peer. *)
Inductive OutFrame := OutMessage (m : Message) | OutPing | OutClose (code : Z) (reason : string).

(** [send_close]. *)
Definition send_close (code : CloseCode) : OutFrame :=
  match code with
  | CloseNormal => OutClose 1000 ""
  | TryAgainLater => OutClose 1013 "server overloaded, retry later"
  | InternalError => OutClose 1011 "internal error"
  end.

(** ** One connection *)

(** [idle] and [outbox_open] of [ConnTask::run]. *)
Record ConnLoop := {
  cl_idle : Z;
  cl_outbox_open : bool
}.

(** Where the task waits: for the handshake, for room in the event queue
    (with what it sends), or in the [select!]. *)
Inductive ConnPhase :=
  | Handshaking
  | SendingConnect (r : Responder)
  | Serving (cl : ConnLoop)
  | SendingMessage (m : Message) (cl : ConnLoop)
  | SendingDisconnect (reason : DisconnectReason).

(** What is ready when the task is polled: the handshake (the request's
    uri and origin, or its failure), an incoming frame, a keepalive tick,
    the clock, whether every responder was dropped and whether a write
    succeeds. *)
Record Ready := {
  rd_handshake : option (option (string * option string));
  rd_incoming : option Incoming;
  rd_tick : bool;
  rd_now : Z;
  rd_responders_gone : bool;
  rd_write_ok : bool
}.

Inductive Arm :=
  | ArmCancelled
  | ArmOutbox (c : option WsCmd)
  | ArmIncoming (i : Incoming)
  | ArmTick
  | ArmIdle.

(** [resp_rx.recv()], guarded by [outbox_open]. *)
Definition outbox_ready (cl : ConnLoop) (queue : list WsCmd) (r : Ready)
    : option (option WsCmd) :=
  if cl_outbox_open cl then
    match queue with
    | c :: _ => Some (Some c)
    | [] => if rd_responders_gone r then Some None else None
    end
  else None.

(** The arm the biased [select!] takes. *)
Definition select_arm (cancelled : bool) (cl : ConnLoop) (queue : list WsCmd) (r : Ready)
    : option Arm :=
  if cancelled then Some ArmCancelled
  else match outbox_ready cl queue r with
       | Some c => Some (ArmOutbox c)
       | None =>
           match rd_incoming r with
           | Some i => Some (ArmIncoming i)
           | None =>
               if rd_tick r then Some ArmTick
               else if (cl_idle cl <=? rd_now r)%Z then Some ArmIdle
               else None
           end
       end.

Definition seen (cfg : ServerConfig) (r : Ready) (cl : ConnLoop) : ConnLoop :=
  {| cl_idle := rd_now r + idle_timeout cfg; cl_outbox_open := cl_outbox_open cl |}.

(** The body of each arm: the frames written and where the task waits next. *)
Definition run_arm (cfg : ServerConfig) (r : Ready) (arm : Arm) (cl : ConnLoop)
    : list OutFrame * ConnPhase :=
  match arm with
  | ArmCancelled => ([send_close CloseNormal], SendingDisconnect ServerShutdown)
  | ArmOutbox (Some (CmdMessage m)) =>
      if rd_write_ok r then ([OutMessage m], Serving cl) else ([], SendingDisconnect ConnError)
  | ArmOutbox (Some (CmdClose code)) => ([send_close code], SendingDisconnect Clean)
  | ArmOutbox None => ([], Serving {| cl_idle := cl_idle cl; cl_outbox_open := false |})
  | ArmIncoming (InMessage (WsText s)) => ([], SendingMessage (Text s) (seen cfg r cl))
  | ArmIncoming (InMessage (WsBinary b)) => ([], SendingMessage (Binary b) (seen cfg r cl))
  | ArmIncoming (InMessage (WsPing | WsPong)) => ([], Serving (seen cfg r cl))
  | ArmIncoming (InMessage WsFrame) => ([], Serving cl)
  | ArmIncoming (InMessage WsClose) => ([], SendingDisconnect Clean)
  | ArmIncoming InError => ([], SendingDisconnect ConnError)
  | ArmIncoming InEnd => ([], SendingDisconnect Clean)
  | ArmTick => if rd_write_ok r then ([OutPing], Serving cl) else ([], SendingDisconnect ConnError)
  | ArmIdle => ([send_close InternalError], SendingDisconnect IdleTimeout)
  end.

(** ** The server *)

Definition MAX_PENDING_REJECTS : nat := 8.

(** [srv_next_id] is the process-wide [NEXT_CLIENT_ID]; [srv_hub] the
    events queued for the hub and [srv_hub_closed] that it was dropped;
    [srv_sent] is every event sent and [srv_written] every frame written,
    in order (for the theorems only). *)
Record Server := {
  srv_cancelled : bool;
  srv_permits : nat;
  srv_reject_permits : nat;
  srv_next_id : Z;
  srv_hub : list Event;
  srv_hub_closed : bool;
  srv_conns : gmap ClientId ConnPhase;
  srv_net : Net;
  srv_sent : list Event;
  srv_written : list (ClientId * OutFrame)
}.

Definition srv_with_conns (conns : gmap ClientId ConnPhase) (permits : nat) (net : Net)
    (s : Server) : Server := {|
  srv_cancelled := srv_cancelled s; srv_permits := permits;
  srv_reject_permits := srv_reject_permits s; srv_next_id := srv_next_id s;
  srv_hub := srv_hub s; srv_hub_closed := srv_hub_closed s; srv_conns := conns;
  srv_net := net; srv_sent := srv_sent s; srv_written := srv_written s |}.

Definition srv_with_next_id (n : Z) (s : Server) : Server := {|
  srv_cancelled := srv_cancelled s; srv_permits := srv_permits s;
  srv_reject_permits := srv_reject_permits s; srv_next_id := n;
  srv_hub := srv_hub s; srv_hub_closed := srv_hub_closed s; srv_conns := srv_conns s;
  srv_net := srv_net s; srv_sent := srv_sent s; srv_written := srv_written s |}.

Definition srv_with_rejects (n : nat) (s : Server) : Server := {|
  srv_cancelled := srv_cancelled s; srv_permits := srv_permits s;
  srv_reject_permits := n; srv_next_id := srv_next_id s;
  srv_hub := srv_hub s; srv_hub_closed := srv_hub_closed s; srv_conns := srv_conns s;
  srv_net := srv_net s; srv_sent := srv_sent s; srv_written := srv_written s |}.

Definition srv_with_hub (q sent : list Event) (closed cancelled : bool) (s : Server) : Server := {|
  srv_cancelled := cancelled; srv_permits := srv_permits s;
  srv_reject_permits := srv_reject_permits s; srv_next_id := srv_next_id s;
  srv_hub := q; srv_hub_closed := closed; srv_conns := srv_conns s;
  srv_net := srv_net s; srv_sent := sent; srv_written := srv_written s |}.

Definition srv_write (id : ClientId) (frames : list OutFrame) (s : Server) : Server := {|
  srv_cancelled := srv_cancelled s; srv_permits := srv_permits s;
  srv_reject_permits := srv_reject_permits s; srv_next_id := srv_next_id s;
  srv_hub := srv_hub s; srv_hub_closed := srv_hub_closed s; srv_conns := srv_conns s;
  srv_net := srv_net s; srv_sent := srv_sent s;
  srv_written := srv_written s ++ ((λ f, (id, f)) <$> frames) |}.

Definition set_phase (id : ClientId) (p : ConnPhase) (s : Server) : Server :=
  srv_with_conns (<[id := p]> (srv_conns s)) (srv_permits s) (srv_net s) s.

(** [Server::bind]: the bounds again, then the listener. *)
Definition server_bind (c : ServerConfig) (listener : WsError + unit) (next_id : Z)
    : WsError + Server :=
  if decide (max_connections c = 0) then inl (ErrConfig "max_connections must be non-zero")
  else if decide (event_queue c = 0) then inl (ErrConfig "event_queue must be non-zero")
  else if decide (per_client_queue c = 0) then inl (ErrConfig "per_client_queue must be non-zero")
  else if decide (keepalive_interval c = 0%Z)
  then inl (ErrConfig "keepalive_interval must be non-zero")
  else if decide (idle_timeout c = 0%Z) then inl (ErrConfig "idle_timeout must be non-zero")
  else match listener with
       | inl e => inl e
       | inr _ => inr {|
           srv_cancelled := false; srv_permits := max_connections c;
           srv_reject_permits := MAX_PENDING_REJECTS; srv_next_id := next_id; srv_hub := [];
           srv_hub_closed := false; srv_conns := ∅; srv_net := ∅; srv_sent := [];
           srv_written := [] |}
       end.

(** ** Accepting *)

Inductive IoErrorKind := ConnectionAborted | Interrupted | OtherKind.

(** [accept_error_backoff], in milliseconds. *)
Definition accept_error_backoff (kind : IoErrorKind) : option Z :=
  match kind with
  | ConnectionAborted | Interrupted => None
  | OtherKind => Some 50%Z
  end.

(** One round of [AcceptCtx::run]; the loop has ended once cancelled. *)
Definition accept_round (accepted : IoErrorKind + unit) (s : Server) : Server :=
  if srv_cancelled s then s
  else match accepted with
       | inl _ => s
       | inr _ =>
           match srv_permits s with
           | S permits =>
               let id := srv_next_id s in
               srv_with_conns (<[id := Handshaking]> (srv_conns s)) permits (srv_net s)
                 (srv_with_next_id (wrap_u64 (id + 1)) s)
           | 0 =>
               match srv_reject_permits s with
               | S rejects => srv_with_rejects rejects s
               | 0 => s
               end
           end
       end.

(** The end of a [reject_overloaded] task: its frames, its permit back. *)
Definition reject_overloaded (cancelled handshake_ok : bool) : list OutFrame :=
  if cancelled then [] else if handshake_ok then [send_close TryAgainLater] else [].

Definition reject_end (s : Server) : Server :=
  if decide (srv_reject_permits s < MAX_PENDING_REJECTS)
  then srv_with_rejects (S (srv_reject_permits s)) s else s.

(** ** Running a connection *)

(** The task ends: its permit is released and its outbox closes. *)
Definition conn_end (id : ClientId) (s : Server) : Server :=
  srv_with_conns (delete id (srv_conns s)) (S (srv_permits s))
    (alter (λ ob, {| ob_queue := []; ob_cap := ob_cap ob; ob_closed := true |}) id (srv_net s)) s.

(** [event_tx.send]: waits while the queue is full ([None]); [Some false]
    when the hub is gone. *)
Definition hub_send (cfg : ServerConfig) (e : Event) (s : Server) : option (Server * bool) :=
  if srv_hub_closed s then Some (s, false)
  else if decide (event_queue cfg ≤ length (srv_hub s)) then None
  else Some (srv_with_hub (srv_hub s ++ [e]) (srv_sent s ++ [e]) false (srv_cancelled s) s, true).

(** The first command leaves the outbox when its arm was taken. *)
Definition take_outbox (arm : Arm) (id : ClientId) (s : Server) : Server :=
  match arm with
  | ArmOutbox (Some _) =>
      srv_with_conns (srv_conns s) (srv_permits s)
        (alter (λ ob, {| ob_queue := tail (ob_queue ob); ob_cap := ob_cap ob;
                         ob_closed := ob_closed ob |}) id (srv_net s)) s
  | _ => s
  end.

(** [ConnTask::run] up to its next wait. *)
Definition conn_poll (cfg : ServerConfig) (id : ClientId) (r : Ready) (s : Server) : Server :=
  match srv_conns s !! id with
  | None => s
  | Some Handshaking =>
      if srv_cancelled s then conn_end id s
      else match rd_handshake r with
           | None => s
           | Some None => conn_end id s
           | Some (Some (uri, origin)) =>
               let responder := {| resp_id := id; resp_origin := origin; resp_uri := uri |} in
               let ob := {| ob_queue := []; ob_cap := per_client_queue cfg; ob_closed := false |} in
               srv_with_conns (<[id := SendingConnect responder]> (srv_conns s)) (srv_permits s)
                 (<[id := ob]> (srv_net s)) s
           end
  | Some (SendingConnect responder) =>
      match hub_send cfg (EvConnect id responder) s with
      | None => s
      | Some (s, false) => conn_end id s
      | Some (s, true) =>
          set_phase id (Serving {| cl_idle := rd_now r + idle_timeout cfg;
                                   cl_outbox_open := true |}) s
      end
  | Some (Serving cl) =>
      let queue := default [] (ob_queue <$> srv_net s !! id) in
      match select_arm (srv_cancelled s) cl queue r with
      | None => s
      | Some arm =>
          let '(frames, phase) := run_arm cfg r arm cl in
          set_phase id phase (srv_write id frames (take_outbox arm id s))
      end
  | Some (SendingMessage m cl) =>
      match hub_send cfg (EvMessage id m) s with
      | None => s
      | Some (s, false) => set_phase id (SendingDisconnect ServerShutdown) s
      | Some (s, true) => set_phase id (Serving cl) s
      end
  | Some (SendingDisconnect reason) =>
      match hub_send cfg (EvDisconnect id reason) s with
      | None => s
      | Some (s, _) => conn_end id s
      end
  end.

(** ** Shutdown *)

(** The join loop of [Server::shutdown] over [n] tasks: one answer per
    [timeout(remaining, join_next())], [None] when nothing is left of the
    budget, [Some false] when the wait ran out.  The tasks left to abort. *)
Fixpoint join_loop (answers : nat → option bool) (k n : nat) : nat :=
  match n with
  | 0 => 0
  | S n' =>
      match answers k with
      | None => n
      | Some false => n
      | Some true => join_loop answers (S k) n'
      end
  end.

(** [owned.abort_all()] on one task. *)
Definition abort_conn (id : ClientId) (s : Server) : Server :=
  if srv_cancelled s then
    match srv_conns s !! id with Some _ => conn_end id s | None => s end
  else s.

(** ** Runs

    What the tasks and their surroundings do, in any order: the accept
    loop and the connections of this server, another server taking an id,
    the hub's reader, the holders of responders, and shutdown. *)
Inductive action :=
  | ActAccept (accepted : IoErrorKind + unit)
  | ActPoll (id : ClientId) (r : Ready)
  | ActRejectEnd
  | ActOtherServer
  | ActNextEvent
  | ActHubDropped
  | ActTrySend (id : ClientId) (m : Message)
  | ActClose (id : ClientId) (code : CloseCode)
  | ActCancel
  | ActAbort (id : ClientId).

Definition server_act (cfg : ServerConfig) (s : Server) (a : action) : Server :=
  match a with
  | ActAccept accepted => accept_round accepted s
  | ActPoll id r => conn_poll cfg id r s
  | ActRejectEnd => reject_end s
  | ActOtherServer => srv_with_next_id (wrap_u64 (srv_next_id s + 1)) s
  | ActNextEvent => srv_with_hub (tail (srv_hub s)) (srv_sent s) (srv_hub_closed s) (srv_cancelled s) s
  | ActHubDropped => srv_with_hub [] (srv_sent s) true (srv_cancelled s) s
  | ActTrySend id m => srv_with_conns (srv_conns s) (srv_permits s) (try_send (srv_net s) id m).1 s
  | ActClose id code => srv_with_conns (srv_conns s) (srv_permits s) (close (srv_net s) id code) s
  | ActCancel => srv_with_hub (srv_hub s) (srv_sent s) (srv_hub_closed s) true s
  | ActAbort id => abort_conn id s
  end.

Definition server_run (cfg : ServerConfig) (s : Server) (acts : list action) : Server :=
  foldl (server_act cfg) s acts.
