(* ===== verification/WsTransport.v ===== *)
(** * The game WebSocket transport (crates/rsrpc-transport-ws/src)

    transport.rs: the bounded sink with its staged queue, the publication
    history of a connection and the event pump; handlers.rs: one handler
    per command.  The pump is one task; around it the bridge drains the
    sink, the connection tasks drain the outboxes and the retry tasks flush
    and expire the staged queue, on other threads.  What they do up to the
    pump's [k]-th access is a parameter of the run ([bridge], [peers],
    [tasks]), so that a send that waits is an access after the wait and a
    retry task runs between any two places where the pump takes or leaves
    the lock of the staged queue. *)

From stdpp Require Import base gmap strings list fin_maps sets relations.
From S2P Require Import Prelude RStr HashMaps Json Ids Cmd User Protocol IpcFrame IpcSink.
From S2P Require Import Consumers WsServer.

Local Open Scope string_scope.
Local Open Scope nat_scope.
Local Open Scope list_scope.

(** ** Data *)

Definition MAX_TRACKED_PIDS : nat := 16.
Definition MAX_PENDING_COMMANDS : nat := 256.
(** One second and one millisecond, in nanoseconds of the monotonic clock. *)
Definition DISCONNECT_CLEAR_BUDGET : Z := 1000000000.
Definition RETRY_SLEEP_MS : Z := 1000000.

Record PublishedSlot := {
  ps_app_id : option AppId;
  ps_pid : Z;
  ps_nonce : Value
}.

Record PendingClear := {
  pc_app_id : option AppId;
  pc_pid : Z;
  pc_nonce : Value
}.

Inductive PendingPayload :=
  | Publish (cmd : ActivityCmd)
  | Clear (c : PendingClear).

Record PendingEntry := {
  pe_payload : PendingPayload;
  pe_deadline : Z
}.

Abbreviation PendingQueue := (list PendingEntry) (only parsing).

Record ClientSlot := {
  cs_responder : Responder;
  cs_published : list PublishedSlot;
  cs_query_client_id : option AppId
}.

Inductive Admission :=
  | AdmittedPid (displaced : option PublishedSlot)
  | RefusedFull.

Inductive TryEmit := Sent | EmitFull (cmd : ActivityCmd) | EmitClosed.

Inductive Forward := Direct | Staged | Refused.

(** ** Clears *)

(** [PendingClear::into_cmd]. *)
Definition clear_into_cmd (c : PendingClear) : ActivityCmd := {|
  cmd_application_id := pc_app_id c; cmd_cmd := "SET_ACTIVITY";
  cmd_args := Some {| arg_pid := Some (pc_pid c); arg_activity := None; arg_code := None;
                      arg_user_id := None |};
  cmd_data := None; cmd_evt := None; cmd_nonce := pc_nonce c |}.

(** [PendingClear::from_slot]. *)
Definition clear_from_slot (p : PublishedSlot) : PendingClear :=
  {| pc_app_id := ps_app_id p; pc_pid := ps_pid p; pc_nonce := ps_nonce p |}.

(** [PendingClear::from_cmd]. *)
Definition clear_from_cmd (cmd : ActivityCmd) : PendingClear := {|
  pc_app_id := cmd_application_id cmd;
  pc_pid := default 0%Z (cmd_args cmd ≫= arg_pid);
  pc_nonce := cmd_nonce cmd |}.

(** [PendingPayload::into_cmd]. *)
Definition payload_into_cmd (p : PendingPayload) : ActivityCmd :=
  match p with Publish cmd => cmd | Clear c => clear_into_cmd c end.

(** [handlers::clear_for_slot]. *)
Definition clear_for_slot (p : PublishedSlot) : ActivityCmd := {|
  cmd_application_id := ps_app_id p; cmd_cmd := "SET_ACTIVITY";
  cmd_args := Some {| arg_pid := Some (ps_pid p); arg_activity := None; arg_code := None;
                      arg_user_id := None |};
  cmd_data := None; cmd_evt := None; cmd_nonce := ps_nonce p |}.

(** ** The publication history *)

Definition with_published (l : list PublishedSlot) (s : ClientSlot) : ClientSlot :=
  {| cs_responder := cs_responder s; cs_published := l;
     cs_query_client_id := cs_query_client_id s |}.

Definition slot_position (pid : Z) (l : list PublishedSlot) : option nat :=
  position (λ e, (ps_pid e =? pid)%Z) l.

(** [ClientSlot::note_published]. *)
Definition note_published (app_id : option AppId) (pid : Z) (nonce : Value) (s : ClientSlot)
    : ClientSlot * Admission :=
  let rec := {| ps_app_id := app_id; ps_pid := pid; ps_nonce := nonce |} in
  match slot_position pid (cs_published s) with
  | Some pos =>
      (with_published (vec_remove pos (cs_published s) ++ [rec]) s,
       AdmittedPid (cs_published s !! pos))
  | None =>
      if decide (MAX_TRACKED_PIDS ≤ length (cs_published s)) then (s, RefusedFull)
      else (with_published (cs_published s ++ [rec]) s, AdmittedPid None)
  end.

(** [ClientSlot::forget_published]. *)
Definition forget_published (pid : Z) (s : ClientSlot) : ClientSlot :=
  match slot_position pid (cs_published s) with
  | Some pos => with_published (vec_remove pos (cs_published s)) s
  | None => s
  end.

(** [ClientSlot::rollback_publish]. *)
Definition rollback_publish (pid : Z) (displaced : option PublishedSlot) (s : ClientSlot)
    : ClientSlot :=
  let s := forget_published pid s in
  match displaced with
  | Some old => with_published (cs_published s ++ [old]) s
  | None => s
  end.

(** ** The transport's state

    [ws_retries] holds the running tasks of [spawn_clear_retry], each at
    the lock section it takes next, [ws_access] counts the accesses to the
    sink, the staged queue and the outboxes so far, and
    [ws_log] records the connections and the [SET_ACTIVITY] commands
    accepted downstream; the last two only exist for the theorems. *)

Inductive log_entry :=
  | Connected (id : ClientId)
  | Forwarded (id : ClientId) (cmd : ActivityCmd).

Inductive RetryPhase := RetryFlush | RetryExpire | RetryCheck.

Record Ws := {
  ws_clients : gmap ClientId ClientSlot;
  ws_total : Z;
  ws_sink : EventSink;
  ws_pending : PendingQueue;
  ws_net : Net;
  ws_retries : list RetryPhase;
  ws_access : nat;
  ws_log : list log_entry
}.

Definition set_clients (c : gmap ClientId ClientSlot) (total : Z) (w : Ws) : Ws := {|
  ws_clients := c; ws_total := total; ws_sink := ws_sink w; ws_pending := ws_pending w;
  ws_net := ws_net w; ws_retries := ws_retries w; ws_access := ws_access w;
  ws_log := ws_log w |}.
Definition set_sink (s : EventSink) (w : Ws) : Ws := {|
  ws_clients := ws_clients w; ws_total := ws_total w; ws_sink := s;
  ws_pending := ws_pending w; ws_net := ws_net w; ws_retries := ws_retries w;
  ws_access := ws_access w; ws_log := ws_log w |}.
Definition set_pending (q : PendingQueue) (w : Ws) : Ws := {|
  ws_clients := ws_clients w; ws_total := ws_total w; ws_sink := ws_sink w;
  ws_pending := q; ws_net := ws_net w; ws_retries := ws_retries w;
  ws_access := ws_access w; ws_log := ws_log w |}.
Definition set_net (n : Net) (w : Ws) : Ws := {|
  ws_clients := ws_clients w; ws_total := ws_total w; ws_sink := ws_sink w;
  ws_pending := ws_pending w; ws_net := n; ws_retries := ws_retries w;
  ws_access := ws_access w; ws_log := ws_log w |}.
Definition set_retries (n : list RetryPhase) (w : Ws) : Ws := {|
  ws_clients := ws_clients w; ws_total := ws_total w; ws_sink := ws_sink w;
  ws_pending := ws_pending w; ws_net := ws_net w; ws_retries := n;
  ws_access := ws_access w; ws_log := ws_log w |}.
Definition next_access (w : Ws) : Ws := {|
  ws_clients := ws_clients w; ws_total := ws_total w; ws_sink := ws_sink w;
  ws_pending := ws_pending w; ws_net := ws_net w; ws_retries := ws_retries w;
  ws_access := S (ws_access w); ws_log := ws_log w |}.
Definition add_log (e : log_entry) (w : Ws) : Ws := {|
  ws_clients := ws_clients w; ws_total := ws_total w; ws_sink := ws_sink w;
  ws_pending := ws_pending w; ws_net := ws_net w; ws_retries := ws_retries w;
  ws_access := ws_access w; ws_log := ws_log w ++ [e] |}.

(** [clients.write().await.get_mut(&id)] followed by a change. *)
Definition update_client (id : ClientId) (f : ClientSlot → ClientSlot) (w : Ws) : Ws :=
  match ws_clients w !! id with
  | Some slot => set_clients (<[id := f slot]> (ws_clients w)) (ws_total w) w
  | None => w
  end.

(** [WsTransport::bind]'s state over a sink of capacity [event_queue]. *)
Definition Ws_new (event_queue : nat) (net : Net) : Ws := {|
  ws_clients := ∅; ws_total := 0;
  ws_sink := {| sink_queue := []; sink_capacity := event_queue; sink_closed := false;
                sink_dropped := 0 |};
  ws_pending := []; ws_net := net; ws_retries := []; ws_access := 0; ws_log := [] |}.

Definition WS_ALLOWED_ORIGINS : list string :=
  ["https://discord.com"; "https://canary.discord.com"; "https://ptb.discord.com"].

(** [transport::origin_allowed]. *)
Definition ws_origin_allowed (origin : option string) : bool :=
  match origin with
  | None => true
  | Some value => bool_decide (value ∈ WS_ALLOWED_ORIGINS)
  end.

(** [Responder::send_async]: fails only when the connection has gone; it
    lands once there is room. *)
Definition send_async (net : Net) (id : ClientId) (m : Message) : Net * bool :=
  match net !! id with
  | Some ob => if ob_closed ob then (net, false) else (<[id := push ob (CmdMessage m)]> net, true)
  | None => (net, false)
  end.

(** [BrowserEcho]: the command's identity with its args under [data]. *)
Definition browser_echo_value (c : ActivityCmd) : Value := VObject
  (opt_field "application_id" VString (cmd_application_id c)
   ++ [("cmd", VString (cmd_cmd c))]
   ++ opt_field "data" args_value (cmd_args c)
   ++ [("nonce", cmd_nonce c)]).

Section Transport.
Context `{Serde, IpcParse}.
Variable bridge : nat → EventSink → EventSink.
Variable peers : nat → Net → Net.

(** ** The sink *)

(** [count_shed]. *)
Definition count_shed (n : nat) (w : Ws) : Ws :=
  let s := ws_sink w in
  set_sink {| sink_queue := sink_queue s; sink_capacity := sink_capacity s;
              sink_closed := sink_closed s;
              sink_dropped := wrap_u64 (sink_dropped s + Z.of_nat n) |} w.

(** The sink as the pump finds it at its next access. *)
Definition await_sink (w : Ws) : Ws :=
  next_access (set_sink (bridge (ws_access w) (ws_sink w)) w).

(** [try_emit]. *)
Definition try_emit (cmd : ActivityCmd) (w : Ws) : Ws * TryEmit :=
  let w := await_sink w in
  match sink_try_send (ws_sink w) cmd with
  | SendOk s => (set_sink s w, Sent)
  | SendFull => (w, EmitFull cmd)
  | SendClosed => (w, EmitClosed)
  end.

(** Room in the staged queue: past the cap the oldest entry is shed. *)
Definition stage_entry (e : PendingEntry) (w : Ws) : Ws :=
  if decide (MAX_PENDING_COMMANDS ≤ length (ws_pending w)) then
    let w := count_shed 1 w in set_pending (tail (ws_pending w) ++ [e]) w
  else set_pending (ws_pending w ++ [e]) w.

(** [stage_publish], once it has the lock. *)
Definition stage_publish (now : Z) (cmd : ActivityCmd) (w : Ws) : Ws :=
  stage_entry {| pe_payload := Publish cmd;
                 pe_deadline := now + DISCONNECT_CLEAR_BUDGET |} w.

(** [stage_clear], once it has the lock. *)
Definition stage_clear (now : Z) (p : PublishedSlot) (w : Ws) : Ws :=
  stage_entry {| pe_payload := Clear (clear_from_slot p);
                 pe_deadline := now + DISCONNECT_CLEAR_BUDGET |} w.

(** The loop of [flush_pending] over the queue still to send. *)
Fixpoint flush_loop (q : PendingQueue) (w : Ws) : Ws :=
  match q with
  | [] => set_pending [] w
  | entry :: rest =>
      match try_emit (payload_into_cmd (pe_payload entry)) w with
      | (w, Sent) => flush_loop rest w
      | (w, EmitFull cmd) =>
          set_pending
            ({| pe_payload := match pe_payload entry with
                              | Clear _ => Clear (clear_from_cmd cmd)
                              | Publish _ => Publish cmd
                              end;
                pe_deadline := pe_deadline entry |} :: rest) w
      | (w, EmitClosed) => set_pending [] (count_shed (length rest) w)
      end
  end.

(** [flush_pending]. *)
Definition flush_pending (w : Ws) : Ws := flush_loop (ws_pending w) w.

(** [expire_pending]. *)
Definition expire_pending (now : Z) (w : Ws) : Ws :=
  let keep := base.filter (λ e, (now < pe_deadline e)%Z) (ws_pending w) in
  count_shed (length (ws_pending w) - length keep) (set_pending keep w).

(** One lock section of the [i]-th [spawn_clear_retry] task: its rounds
    flush, then expire, then look whether the queue is empty and end there. *)
Definition retry_section (now : Z) (i : nat) (w : Ws) : Ws :=
  match ws_retries w !! i with
  | Some RetryFlush =>
      let w := flush_pending w in set_retries (<[i := RetryExpire]> (ws_retries w)) w
  | Some RetryExpire =>
      let w := expire_pending now w in set_retries (<[i := RetryCheck]> (ws_retries w)) w
  | Some RetryCheck =>
      match ws_pending w with
      | [] => set_retries (delete i (ws_retries w)) w
      | _ => set_retries (<[i := RetryFlush]> (ws_retries w)) w
      end
  | None => w
  end.

(** ** The pump between its lock sections *)

(** What the retry tasks, on other threads, do before the pump's [k]-th access. *)
Variable tasks : nat → Ws → Ws.

(** The transport as the pump finds it when it next takes the lock of the
    staged queue or reaches for the sink. *)
Definition interleave (w : Ws) : Ws := next_access (tasks (ws_access w) w).

(** [try_emit] outside of the lock. *)
Definition offer (cmd : ActivityCmd) (w : Ws) : Ws * TryEmit := try_emit cmd (interleave w).

(** [emit]: [send_timeout], the attempt being the one that ends the wait. *)
Definition ws_emit (cmd : ActivityCmd) (w : Ws) : Ws * bool :=
  match offer cmd w with
  | (w, Sent) => (w, true)
  | (w, _) => (count_shed 1 w, false)
  end.

(** [emit_or_stage_publish]: the lock is only taken after the refusal. *)
Definition emit_or_stage_publish (now : Z) (cmd : ActivityCmd) (w : Ws) : Ws * bool :=
  match offer cmd w with
  | (w, Sent) => (w, true)
  | (w, EmitFull cmd) => (stage_publish now cmd (interleave w), true)
  | (w, EmitClosed) => (count_shed 1 w, false)
  end.

(** ** Replies and handlers *)

(** [handlers::reply]: a bounded wait for the client's outbox. *)
Definition ws_reply (r : Responder) (text : string) (w : Ws) : Ws * bool :=
  let net := peers (ws_access w) (ws_net w) in
  let '(net, e) := try_send net (resp_id r) (Text text) in
  (next_access (set_net net w), negb (is_some e)).

Definition get_user_response (event : ActivityCmd) (user : RpcUser) : string :=
  let matched := match cmd_args event ≫= arg_user_id with
                 | None => true
                 | Some id => String.eqb id (user_id user)
                 end in
  user_response event (if matched then Some user else None).

Definition browser_error (cmd : string) : Z * string :=
  if String.eqb cmd "GUILD_TEMPLATE_BROWSER" then (4017%Z, "Invalid guild template id")
  else if String.eqb cmd "GIFT_CODE_BROWSER" then (4016%Z, "Invalid gift code")
  else (4011%Z, "Invalid invite id").

(** A reply that may fail to serialize: then nothing is sent and the
    client counts as alive. *)
Definition reply_opt (r : Responder) (text : option string) (w : Ws) : Ws * bool :=
  match text with Some text => ws_reply r text w | None => (w, true) end.

Definition handle_browser_command (event : ActivityCmd) (r : Responder) (w : Ws)
    : Ws * bool :=
  let '(code, message) := browser_error (cmd_cmd event) in
  let has_code := opt_any (λ c, negb (str_empty (trim c))) (cmd_args event ≫= arg_code) in
  if negb has_code then
    ws_reply r (rpc_error (cmd_cmd event) (cmd_nonce event) code message) w
  else
    let echo := json_to_string (browser_echo_value event) in
    let '(w, _) := ws_emit event w in
    reply_opt r echo w.

Definition bare_response (event : ActivityCmd) (data : option (list (string * Value)))
    (evt : option string) : ActivityCmd := {|
  cmd_application_id := cmd_application_id event; cmd_cmd := cmd_cmd event; cmd_args := None;
  cmd_data := data; cmd_evt := evt; cmd_nonce := cmd_nonce event |}.

Definition handle_deep_link (event : ActivityCmd) (r : Responder) (w : Ws) : Ws * bool :=
  reply_opt r (json_to_string (cmd_value (bare_response event None None))) w.

Definition handle_connections_callback (event : ActivityCmd) (r : Responder) (w : Ws)
    : Ws * bool :=
  reply_opt r (json_to_string (cmd_value
    (bare_response event (Some [("code", vnum 1000)]) (Some "ERROR")))) w.

Definition handle_subscribe (event : ActivityCmd) (r : Responder) (w : Ws) : Ws * bool :=
  ws_reply r (subscribe_ack event) w.

Definition handle_unknown (cmd : string) (event : ActivityCmd) (r : Responder) (w : Ws)
    : Ws * bool :=
  let '(code, message) := default (1000%Z, "Unknown command") (unsupported_command cmd) in
  ws_reply r (rpc_error (cmd_cmd event) (cmd_nonce event) code message) w.

(** [handlers::handle_set_activity]: alive and delivered. *)
Definition ws_set_activity (id : ClientId) (now_secs now : Z) (event : ActivityCmd)
    (query_client_id : option AppId) (r : Responder) (forward : Forward) (w : Ws)
    : Ws * bool * bool :=
  let event := match cmd_application_id event with
               | None => cmd_with_application_id query_client_id event
               | Some _ => event
               end in
  let event := fix_cmd now_secs event in
  let '(event, response) := set_activity_response event in
  let '(w, delivered) :=
    match forward with
    | Direct => ws_emit event w
    | Staged => emit_or_stage_publish now event w
    | Refused => (w, false)
    end in
  let w := if delivered : bool then add_log (Forwarded id event) w else w in
  let '(w, alive) := reply_opt r response w in
  (w, alive, delivered).

(** ** The pump *)

(** The loop of [remove_and_clear] over the history, with whether it staged
    a clear. *)
Definition clear_all (now : Z) (l : list PublishedSlot) (acc : Ws * bool) : Ws * bool :=
  foldl (λ (acc : Ws * bool) published,
    let '(w, staged_any) := acc in
    match offer (clear_for_slot published) w with
    | (w, Sent) => (w, staged_any)
    | (w, EmitFull _) => (stage_clear now published (interleave w), true)
    | (w, EmitClosed) => (count_shed 1 w, staged_any)
    end) acc l.

(** [remove_and_clear]; a task is spawned when a clear was staged. *)
Definition remove_and_clear (now : Z) (id : ClientId) (w : Ws) : Ws :=
  match ws_clients w !! id with
  | None => w
  | Some slot =>
      let w := set_clients (delete id (ws_clients w)) (wrap_u64 (ws_total w - 1)) w in
      let w := flush_pending (interleave w) in
      let '(w, staged_any) := clear_all now (cs_published slot) (w, false) in
      if staged_any : bool then set_retries (ws_retries w ++ [RetryFlush]) w else w
  end.

(** [on_connect]. *)
Definition ws_on_connect (user : RpcUser) (id : ClientId) (r : Responder) (w : Ws) : Ws :=
  let uri := resp_uri r in
  let version := default "0" (query_param uri "v") in
  let encoding := default "json" (query_param uri "encoding") in
  let query_client_id := query_param uri "client_id" in
  let reject := set_net (close (ws_net w) (resp_id r) CloseNormal) w in
  if negb (String.eqb version "1") || negb (String.eqb encoding "json") then reject
  else if negb (ws_origin_allowed (resp_origin r)) then reject
  else
    match send_async (peers (ws_access w) (ws_net w)) (resp_id r) (Text (ready_payload user)) with
    | (net, false) => next_access (set_net net w)
    | (net, true) =>
        let w := next_access (set_net net w) in
        let slot := {| cs_responder := r; cs_published := [];
                       cs_query_client_id := query_client_id |} in
        add_log (Connected id)
          (set_clients (<[id := slot]> (ws_clients w)) (wrap_u64 (ws_total w + 1)) w)
    end.

(** How a [SET_ACTIVITY] reaches the sink. *)
Definition forward_of (is_clear : bool) (admission : option Admission) (backlog : bool)
    : Forward :=
  if is_clear && negb backlog then Direct
  else if is_clear then Staged
  else match admission with
       | Some (AdmittedPid _) => if backlog then Staged else Direct
       | _ => Refused
       end.

(** The [SET_ACTIVITY] arm of [on_message]; the liveness of the client. *)
Definition on_set_activity (id : ClientId) (now_secs now : Z) (slot : ClientSlot)
    (event : ActivityCmd) (w : Ws) : Ws * bool :=
  let app_id := or_else (cmd_application_id event) (cs_query_client_id slot) in
  let pid := default 0%Z (cmd_args event ≫= arg_pid) in
  let is_clear := negb (is_some (cmd_activity event)) in
  let '(w, admission) :=
    if is_clear then (w, None)
    else match ws_clients w !! id with
         | Some entry =>
             let '(entry, adm) := note_published app_id pid (cmd_nonce event) entry in
             (set_clients (<[id := entry]> (ws_clients w)) (ws_total w) w, Some adm)
         | None => (w, None)
         end in
  let w := interleave w in
  let backlog := match ws_pending w with [] => false | _ => true end in
  let '(w, alive, delivered) :=
    ws_set_activity id now_secs now event (cs_query_client_id slot) (cs_responder slot)
      (forward_of is_clear admission backlog) w in
  let w :=
    if delivered then (if is_clear then update_client id (forget_published pid) w else w)
    else match admission with
         | Some (AdmittedPid displaced) => update_client id (rollback_publish pid displaced) w
         | _ => w
         end in
  (w, alive).

(** The other arms of [on_message]; [None] is the silent return of a
    feature that is off. *)
Definition on_other_command (user : RpcUser) (secondary_events : bool) (slot : ClientSlot)
    (event : ActivityCmd) (w : Ws) : option (Ws * bool) :=
  let cmd := cmd_cmd event in
  let r := cs_responder slot in
  if decide (cmd ∈ ["INVITE_BROWSER"; "GUILD_TEMPLATE_BROWSER"; "GIFT_CODE_BROWSER"]) then
    if secondary_events then Some (handle_browser_command event r w) else None
  else if String.eqb cmd "DEEP_LINK" then
    if secondary_events then Some (handle_deep_link event r w) else None
  else if String.eqb cmd "CONNECTIONS_CALLBACK" then
    if secondary_events then Some (handle_connections_callback event r w) else None
  else if decide (cmd ∈ ["SUBSCRIBE"; "UNSUBSCRIBE"]) then Some (handle_subscribe event r w)
  else if String.eqb cmd "GET_USER" then
    Some (ws_reply r (get_user_response event user) w)
  else Some (handle_unknown cmd event r w).

(** [on_message]. *)
Definition ws_on_message (user : RpcUser) (set_activity secondary_events : bool)
    (now_secs now : Z) (id : ClientId) (m : Message) (w : Ws) : Ws :=
  let w := flush_pending (interleave w) in
  match ws_clients w !! id with
  | None => w
  | Some slot =>
      match m with
      | Binary _ => w
      | Text text =>
          match cmd_from_str text with
          | None => w
          | Some event =>
              let handled :=
                if String.eqb (cmd_cmd event) "SET_ACTIVITY" then
                  if set_activity then Some (on_set_activity id now_secs now slot event w)
                  else None
                else on_other_command user secondary_events slot event w in
              match handled with
              | None => w
              | Some (w, alive) => if alive : bool then w else remove_and_clear now id w
              end
          end
      end
  end.

(** One round of [pump_loop]. *)
Definition ws_pump (user : RpcUser) (set_activity secondary_events : bool) (now_secs now : Z)
    (ev : Event) (w : Ws) : Ws :=
  match ev with
  | EvConnect id r => ws_on_connect user id r w
  | EvDisconnect id _ => remove_and_clear now id w
  | EvMessage id m => ws_on_message user set_activity secondary_events now_secs now id m w
  end.
End Transport.

(** A step of the retry tasks: one lock section of one of them. *)
Definition retry_step (w w' : Ws) : Prop :=
  ∃ bridge now i, is_Some (ws_retries w !! i) ∧ w' = retry_section bridge now i w.

(** Between two accesses of the pump the retry tasks run any number of
    their sections. *)
Definition tasks_ok (tasks : nat → Ws → Ws) : Prop :=
  ∀ k w, rtc retry_step w (tasks k w).

(** ** Shutdown *)

Section Shutdown.
Context `{HashOrder}.
Variable bridge : nat → EventSink → EventSink.
(** What the bridge does between two attempts, and the clock at each
    deadline check, while entry [i] of the drained batch is retried. *)
Variable waits : nat → (nat → EventSink → EventSink) * (nat → Z).

(** The residue no [Disconnect] cleaned up: every tracked pid is staged. *)
Definition shutdown_stage (now : Z) (w : Ws) : Ws :=
  let w' :=
    foldl (λ w (kv : ClientId * ClientSlot),
      foldl (λ w published, stage_clear now published w)
        (set_clients (ws_clients w) (wrap_u64 (ws_total w - 1)) w) (cs_published kv.2))
      w (hm_iter (ws_clients w)) in
  set_clients ∅ (ws_total w') w'.

(** An entry is drained after it was staged and attempts are at least a
    millisecond apart, so the 1001st is past its deadline. *)
Definition RETRY_ATTEMPTS : nat := 1001.

(** [emit_clear_retry]: the loop of the IPC sink's [emit_clear] with the
    entry's own deadline. *)
Definition emit_clear_retry (i : nat) (deadline : Z) (cmd : ActivityCmd) (s : EventSink)
    : option EventSink :=
  emit_clear_loop (waits i).1 (waits i).2 RETRY_ATTEMPTS 0 deadline s cmd.

(** The entries of one batch, oldest first. *)
Fixpoint drain_batch (i : nat) (batch : PendingQueue) (w : Ws) : option Ws :=
  match batch with
  | [] => Some w
  | entry :: rest =>
      match emit_clear_retry i (pe_deadline entry) (payload_into_cmd (pe_payload entry))
              (ws_sink w) with
      | Some s => drain_batch (S i) rest (set_sink s w)
      | None => None
      end
  end.

(** The loop over batches; nobody stages any more, so two rounds. *)
Fixpoint drain_loop (fuel : nat) (w : Ws) : option Ws :=
  match fuel with
  | 0 => None
  | S fuel =>
      match ws_pending w with
      | [] => Some w
      | batch =>
          match drain_batch 0 batch (set_pending [] w) with
          | Some w => drain_loop fuel w
          | None => None
          end
      end
  end.

(** [WsTransport::shutdown] from the point where the pump has ended. *)
Definition ws_shutdown (now : Z) (w : Ws) : option Ws :=
  drain_loop 2 (flush_pending bridge (shutdown_stage now w)).
End Shutdown.
