(* ===== verification/WsProps.v ===== *)
(** * What the game WebSocket transport guarantees

    The publication history covers every card a connection put
    downstream, whatever the bridge and the peers do meanwhile, and the staged
    queue is bounded and never left without a retry. *)

From stdpp Require Import base gmap strings list fin_maps sets relations.
From S2P Require Import Prelude RStr HashMaps Json Ids Cmd User Protocol IpcFrame IpcSink.
From S2P Require Import IpcPump Consumers WsServer WsTransport.

Local Open Scope string_scope.
Local Open Scope nat_scope.
Local Open Scope list_scope.

(** ** Clears *)

Lemma clear_from_into c : clear_from_cmd (clear_into_cmd c) = c.
Proof. by destruct c. Qed.

Lemma clear_for_slot_into p : clear_for_slot p = clear_into_cmd (clear_from_slot p).
Proof. done. Qed.

(** A refused entry is put back as it was. *)
Lemma restage_same e :
  {| pe_payload := match pe_payload e with
                   | Clear _ => Clear (clear_from_cmd (payload_into_cmd (pe_payload e)))
                   | Publish _ => Publish (payload_into_cmd (pe_payload e))
                   end;
     pe_deadline := pe_deadline e |} = e.
Proof. destruct e as [[cmd|c] d]; simpl; [done|]. by rewrite clear_from_into. Qed.

(** ** The publication history *)

Abbreviation slot_pids := (λ s, ps_pid <$> cs_published s).

Definition slot_ok (s : ClientSlot) : Prop :=
  NoDup (slot_pids s) ∧ length (cs_published s) ≤ MAX_TRACKED_PIDS.

Lemma slot_position_None pid s :
  slot_position pid (cs_published s) = None → pid ∉ slot_pids s.
Proof.
  intros Hn (e & -> & He)%list_elem_of_fmap.
  pose proof (position_None _ _ _ Hn He) as H. simpl in H. lia.
Qed.

(** Removing the record of a pid: what is left, with that pid put aside. *)
Lemma slot_position_Some pid s pos :
  slot_position pid (cs_published s) = Some pos →
  ∃ e, cs_published s !! pos = Some e ∧ ps_pid e = pid ∧
    cs_published s ≡ₚ e :: vec_remove pos (cs_published s).
Proof.
  intros Hp. apply position_Some in Hp as (e & He & Hpid). exists e.
  split_and!; [done|lia|by apply vec_remove_perm].
Qed.

(** Forgetting a pid leaves exactly the others. *)
Lemma forget_published_pids pid s :
  NoDup (slot_pids s) →
  NoDup (slot_pids (forget_published pid s)) ∧
  (∀ p, p ∈ slot_pids (forget_published pid s) ↔ p ∈ slot_pids s ∧ p ≠ pid) ∧
  length (cs_published (forget_published pid s)) ≤ length (cs_published s) ∧
  (pid ∈ slot_pids s →
   S (length (cs_published (forget_published pid s))) = length (cs_published s)).
Proof.
  intros Hnd. unfold forget_published.
  destruct (slot_position pid (cs_published s)) as [pos|] eqn:Hp.
  - apply slot_position_Some in Hp as (e & _ & <- & Hperm). simpl.
    pose proof (fmap_Permutation ps_pid _ _ Hperm) as Hpp. rewrite fmap_cons in Hpp.
    rewrite Hpp in Hnd. apply NoDup_cons in Hnd as [Hni Hnd].
    pose proof (Permutation_length Hperm) as Hl. simpl in Hl.
    split_and!; [done| |lia|lia]. intros p. rewrite Hpp, elem_of_cons. set_solver.
  - apply slot_position_None in Hp. split_and!; [done| |done|done]. set_solver.
Qed.

Lemma forget_published_ok pid s : slot_ok s → slot_ok (forget_published pid s).
Proof.
  intros [Hnd Hl]. destruct (forget_published_pids pid s Hnd) as (? & _ & ? & _).
  split; [done|]. lia.
Qed.

(** An admitted publication is tracked and no other pid is lost; rolling
    it back restores the pids there were. *)
Lemma note_published_spec app pid nonce s s' adm :
  note_published app pid nonce s = (s', adm) → slot_ok s →
  slot_ok s' ∧
  match adm with
  | AdmittedPid displaced =>
      (∀ p, p ∈ slot_pids s' ↔ p ∈ slot_pids s ∨ p = pid) ∧
      let t := rollback_publish pid displaced s' in
      slot_ok t ∧ ∀ p, p ∈ slot_pids t ↔ p ∈ slot_pids s
  | RefusedFull => s' = s ∧ pid ∉ slot_pids s
  end.
Proof.
  intros E [Hnd Hl]. unfold note_published in E.
  destruct (slot_position pid (cs_published s)) as [pos|] eqn:Hp.
  - apply slot_position_Some in Hp as (e & He & Hpid & Hperm). injection E as <- <-.
    pose proof (fmap_Permutation ps_pid _ _ Hperm) as Hpp. rewrite fmap_cons, Hpid in Hpp.
    pose proof Hnd as Hnd'. rewrite Hpp in Hnd'. apply NoDup_cons in Hnd' as [Hni Hnd'].
    pose proof (Permutation_length Hperm) as Hlen. simpl in Hlen.
    set (s1 := with_published _ s).
    assert (Hs1 : slot_pids s1 = (ps_pid <$> vec_remove pos (cs_published s)) ++ [pid]).
    { unfold s1; simpl. by rewrite fmap_app. }
    assert (slot_ok s1) as Hok1.
    { split; [|unfold s1; simpl; rewrite length_app; simpl; lia].
      rewrite Hs1. apply NoDup_app. split_and!; [done|set_solver|apply NoDup_singleton]. }
    split; [done|]. split; [intros p; rewrite Hs1, Hpp; set_solver|].
    destruct (forget_published_pids pid s1 (proj1 Hok1)) as (Hf1 & Hf2 & _ & Hf4).
    assert (pid ∈ slot_pids s1) as Hin by (rewrite Hs1; set_solver).
    specialize (Hf4 Hin). rewrite He. cbn zeta.
    change (rollback_publish pid (Some e) s1)
      with (with_published (cs_published (forget_published pid s1) ++ [e])
              (forget_published pid s1)).
    assert (Ht : ∀ q, slot_pids (with_published (q ++ [e]) (forget_published pid s1))
      = (ps_pid <$> q) ++ [pid]) by (intros q; simpl; rewrite fmap_app; simpl; by rewrite Hpid).
    split; [split|].
    + rewrite Ht. apply NoDup_app. split_and!; [done| |apply NoDup_singleton].
      intros p [Hp Hne]%Hf2. set_solver.
    + simpl. rewrite length_app. simpl. destruct Hok1. lia.
    + intros p. rewrite Ht, elem_of_app, Hf2, Hs1, Hpp. set_solver.
  - apply slot_position_None in Hp. case_decide; injection E as <- <-; [done|].
    set (s1 := with_published _ s).
    assert (Hs1 : slot_pids s1 = slot_pids s ++ [pid]) by (unfold s1; simpl; by rewrite fmap_app).
    assert (slot_ok s1) as Hok1.
    { split; [|unfold s1; simpl; rewrite length_app; simpl; lia].
      rewrite Hs1. apply NoDup_app. split_and!; [done|set_solver|apply NoDup_singleton]. }
    split; [done|]. split; [intros p; rewrite Hs1; set_solver|]. simpl.
    destruct (forget_published_pids pid s1 (proj1 Hok1)) as (Hf1 & Hf2 & _ & _).
    split; [by apply forget_published_ok|]. intros p. rewrite Hf2, Hs1. set_solver.
Qed.

(** ** What each operation leaves alone *)

(** Only the sink, the staged queue, the retry tasks and the outboxes moved. *)
Definition same_clients (w w' : Ws) : Prop :=
  ws_clients w' = ws_clients w ∧ ws_total w' = ws_total w ∧ ws_log w' = ws_log w.

#[export] Instance same_clients_po : PreOrder same_clients.
Proof.
  split; [done|]. intros w1 w2 w3 (? & ? & ?) (? & ? & ?).
  unfold same_clients. split_and!; congruence.
Qed.

Definition is_clear (e : PendingEntry) : Prop :=
  match pe_payload e with Clear _ => True | Publish _ => False end.

(** The staged queue is bounded, and a staged clear has a task to retry
    it, or ([spawning]) the pump is about to spawn one. *)
Definition queue_upto (spawning : bool) (w : Ws) : Prop :=
  length (ws_pending w) ≤ MAX_PENDING_COMMANDS ∧
  (Exists is_clear (ws_pending w) → spawning = true ∨ ws_retries w ≠ []).

Definition queue_ok (w : Ws) : Prop := queue_upto false w.

Lemma queue_upto_sublist b w w' :
  ws_pending w' `sublist_of` ws_pending w → (ws_retries w ≠ [] → ws_retries w' ≠ []) →
  queue_upto b w → queue_upto b w'.
Proof.
  intros Hs Hr [Hl Hc]. split; [apply sublist_length in Hs; lia|].
  intros He. destruct Hc as [|]; [|by left|right; auto].
  rewrite Exists_exists in *. destruct He as (e & Hin & Hce). exists e. split; [|done].
  by eapply elem_of_sublist.
Qed.

Lemma queue_upto_same b w w' :
  ws_pending w' = ws_pending w → ws_retries w' = ws_retries w →
  queue_upto b w → queue_upto b w'.
Proof. unfold queue_upto. by intros -> ->. Qed.

(** What the pump and the retry tasks may do outside of staging: clients
    and outboxes stay, and the queue stays covered. *)
Definition keeps (w w' : Ws) : Prop :=
  same_clients w w' ∧ ws_net w' = ws_net w ∧ ∀ b, queue_upto b w → queue_upto b w'.

#[export] Instance keeps_po : PreOrder keeps.
Proof.
  split; [by intros w; split_and!|].
  intros w1 w2 w3 (? & ? & ?) (? & ? & ?). split_and!; [by etrans|congruence|auto].
Qed.

Lemma keeps_frame w w' :
  same_clients w w' → ws_net w' = ws_net w → ws_pending w' = ws_pending w →
  ws_retries w' = ws_retries w → keeps w w'.
Proof. intros. split_and!; [done..|]. intros b. by apply queue_upto_same. Qed.

Section Frames.
Context `{Serde, IpcParse}.
Variable bridge : nat → EventSink → EventSink.
Variable peers : nat → Net → Net.

Lemma try_emit_same cmd w w' r :
  try_emit bridge cmd w = (w', r) →
  same_clients w w' ∧ ws_pending w' = ws_pending w ∧ ws_net w' = ws_net w ∧
  ws_retries w' = ws_retries w ∧ match r with EmitFull c => c = cmd | _ => True end.
Proof.
  unfold try_emit, await_sink. intros E. repeat case_match; by simplify_eq/=.
Qed.

Lemma flush_loop_same q w :
  same_clients w (flush_loop bridge q w) ∧
  ws_net (flush_loop bridge q w) = ws_net w ∧
  ws_retries (flush_loop bridge q w) = ws_retries w ∧
  ∃ n, ws_pending (flush_loop bridge q w) = drop n q.
Proof.
  revert w; induction q as [|e q IH]; intros w; simpl; [by split_and!; [..|exists 0]|].
  destruct (try_emit bridge _ w) as [w1 r] eqn:E.
  apply try_emit_same in E as (Hs & _ & Hn & Hr & He). destruct r as [|c|]; simpl.
  - destruct (IH w1) as (IH1 & IH2 & IH3 & n & IH4).
    split_and!; [by etrans|congruence|congruence|by exists (S n)].
  - subst c. split_and!; [done|done|done|exists 0]. by rewrite restage_same.
  - split_and!; [done|done|done|exists (S (length q))]. simpl. by rewrite drop_all.
Qed.

Lemma flush_pending_same w :
  same_clients w (flush_pending bridge w) ∧
  ws_net (flush_pending bridge w) = ws_net w ∧
  ws_retries (flush_pending bridge w) = ws_retries w ∧
  ∃ n, ws_pending (flush_pending bridge w) = drop n (ws_pending w).
Proof. apply flush_loop_same. Qed.

Lemma flush_pending_keeps w : keeps w (flush_pending bridge w).
Proof.
  destruct (flush_pending_same w) as (? & ? & Hr & n & Hp). split_and!; [done..|].
  intros b. apply queue_upto_sublist; [rewrite Hp; apply sublist_drop|by rewrite Hr].
Qed.

Lemma stage_entry_same e w :
  same_clients w (stage_entry e w) ∧ ws_net (stage_entry e w) = ws_net w ∧
  ws_retries (stage_entry e w) = ws_retries w ∧
  ∃ n, ws_pending (stage_entry e w) = drop n (ws_pending w) ++ [e] ∧
    (length (ws_pending w) ≤ MAX_PENDING_COMMANDS →
     length (ws_pending (stage_entry e w)) ≤ MAX_PENDING_COMMANDS).
Proof.
  unfold stage_entry. case_decide as Hl; simpl; (split_and!; [done..|]).
  - exists 1. unfold MAX_PENDING_COMMANDS in *. split; [by destruct (ws_pending w)|].
    rewrite length_app. destruct (ws_pending w); simpl in *; lia.
  - exists 0. split; [done|]. rewrite length_app. simpl. lia.
Qed.

(** A staged publish leaves the staged clears covered; a staged clear is
    covered by the task that is about to be spawned. *)
Lemma stage_entry_upto b e w :
  (is_clear e → b = true) → queue_upto b w → queue_upto b (stage_entry e w).
Proof.
  intros He [Hl Hc]. destruct (stage_entry_same e w) as (_ & _ & Hr & n & Hp & Hb).
  split; [by apply Hb|]. rewrite Hp, Hr, Exists_app. intros [Hd|Hx].
  - apply Hc. rewrite Exists_exists in *. destruct Hd as (x & Hin & ?). exists x. split; [|done].
    eapply elem_of_sublist; [done|apply sublist_drop].
  - left. apply He. by inversion Hx as [? ? ?|? ? Hn]; [|inversion Hn].
Qed.

Lemma ws_reply_same r t w w' b :
  ws_reply peers r t w = (w', b) →
  same_clients w w' ∧ ws_pending w' = ws_pending w ∧ ws_retries w' = ws_retries w.
Proof. unfold ws_reply. intros E. repeat case_match; by simplify_eq/=. Qed.

Lemma reply_opt_same r t w w' b :
  reply_opt peers r t w = (w', b) →
  same_clients w w' ∧ ws_pending w' = ws_pending w ∧ ws_retries w' = ws_retries w.
Proof.
  destruct t; simpl; [apply ws_reply_same|]. by intros [= <- <-].
Qed.
End Frames.

(** ** The retry tasks *)

Lemma retry_section_keeps bridge now i w :
  is_Some (ws_retries w !! i) → keeps w (retry_section bridge now i w).
Proof.
  intros [ph Hi]. unfold retry_section. rewrite Hi. destruct ph.
  - etrans; [apply (flush_pending_keeps bridge)|].
    destruct (flush_pending_same bridge w) as (_ & _ & Hr & _). split_and!; [done..|].
    intros b. apply queue_upto_sublist; [done|]. simpl. rewrite Hr. intros _ Hn.
    apply (f_equal length) in Hn. rewrite length_insert in Hn.
    by apply lookup_lt_Some in Hi; rewrite Hn in Hi; apply Nat.nlt_0_r in Hi.
  - split_and!; [done..|]. intros b. apply queue_upto_sublist; simpl.
    + apply sublist_filter.
    + intros _ Hn. apply (f_equal length) in Hn. rewrite length_insert in Hn.
      by apply lookup_lt_Some in Hi; rewrite Hn in Hi; apply Nat.nlt_0_r in Hi.
  - destruct (ws_pending w) as [|e q] eqn:Hp; (split_and!; [done..|]).
    + intros b _. split; simpl; rewrite Hp; [simpl; lia|]. by intros ?%Exists_nil.
    + intros b. apply queue_upto_sublist; [done|]. simpl. intros _ Hn.
      apply (f_equal length) in Hn. rewrite length_insert in Hn.
      by apply lookup_lt_Some in Hi; rewrite Hn in Hi; apply Nat.nlt_0_r in Hi.
Qed.

Lemma retry_step_keeps w w' : retry_step w w' → keeps w w'.
Proof. intros (bridge & now & i & Hi & ->). by apply retry_section_keeps. Qed.

(** ** What the pump does around them *)

Section Interleaved.
Context `{Serde, IpcParse}.
Variable bridge : nat → EventSink → EventSink.
Variable peers : nat → Net → Net.
Variable tasks : nat → Ws → Ws.
Hypothesis Htasks : tasks_ok tasks.

Lemma interleave_keeps w : keeps w (interleave tasks w).
Proof.
  unfold interleave. etrans; [|by apply keeps_frame].
  induction (Htasks (ws_access w) w) as [|w1 w2 w3 Hst _ IH]; [done|].
  etrans; [by apply retry_step_keeps|done].
Qed.

Lemma offer_keeps cmd w w' r :
  offer bridge tasks cmd w = (w', r) →
  keeps w w' ∧ match r with EmitFull c => c = cmd | _ => True end.
Proof.
  intros E. apply try_emit_same in E as (? & ? & ? & ? & ?). split; [|done].
  etrans; [apply interleave_keeps|by apply keeps_frame].
Qed.

Lemma ws_emit_keeps cmd w w' b : ws_emit bridge tasks cmd w = (w', b) → keeps w w'.
Proof.
  unfold ws_emit. destruct (offer bridge tasks cmd w) as [w1 r] eqn:E.
  apply offer_keeps in E as [? _]. destruct r; intros; simplify_eq/=; [done| |];
    (etrans; [done|by apply keeps_frame]).
Qed.

Lemma stage_publish_keeps now cmd w : keeps w (stage_publish now cmd w).
Proof.
  unfold stage_publish. set (e := {| pe_payload := Publish cmd; pe_deadline := _ |}).
  destruct (stage_entry_same e w) as (? & ? & _). split_and!; [done..|].
  intros b. by apply stage_entry_upto.
Qed.

Lemma emit_or_stage_keeps now cmd w w' b :
  emit_or_stage_publish bridge tasks now cmd w = (w', b) → keeps w w'.
Proof.
  unfold emit_or_stage_publish. destruct (offer bridge tasks cmd w) as [w1 r] eqn:E.
  apply offer_keeps in E as [? _]. destruct r; intros; simplify_eq/=; [done| |].
  - etrans; [done|]. etrans; [apply interleave_keeps|apply stage_publish_keeps].
  - etrans; [done|by apply keeps_frame].
Qed.

(** The clears of a lost connection, whatever the sink does. *)
Lemma clear_all_same now l w sa w' sb :
  clear_all bridge tasks now l (w, sa) = (w', sb) →
  same_clients w w' ∧ ws_net w' = ws_net w ∧ (queue_upto sa w → queue_upto sb w').
Proof.
  unfold clear_all. revert w sa. induction l as [|p l IH]; simpl; intros w sa E; [by simplify_eq|].
  destruct (offer bridge tasks (clear_for_slot p) w) as [w1 r] eqn:Et.
  apply offer_keeps in Et as [(Hs & Hn & Hq) _].
  destruct r; apply IH in E as (Hs' & Hn' & Hq').
  - split_and!; [by etrans|congruence|auto].
  - destruct (interleave_keeps w1) as (Hs1 & Hn1 & Hq1).
    set (e := {| pe_payload := Clear (clear_from_slot p);
      pe_deadline := now + DISCONNECT_CLEAR_BUDGET |}).
    destruct (stage_entry_same e (interleave tasks w1)) as (Hs2 & Hn2 & _).
    split_and!; [by etrans; [|etrans; [|etrans]]| |].
    { rewrite Hn'. etrans; [exact Hn2|congruence]. }
    intros Hw. apply Hq', (stage_entry_upto true e); [done|].
    destruct (Hq1 _ (Hq _ Hw)) as [Hl _]. split; [done|]. intros _. by left.
  - split_and!; [by etrans|by rewrite Hn'|]. intros Hw. by apply Hq', Hq.
Qed.

Lemma remove_and_clear_spec now id w :
  let w' := remove_and_clear bridge tasks now id w in
  (queue_ok w → queue_ok w') ∧ ws_net w' = ws_net w ∧ ws_log w' = ws_log w ∧
  ws_clients w' = delete id (ws_clients w) ∧
  ws_total w' = match ws_clients w !! id with
                | Some _ => wrap_u64 (ws_total w - 1)
                | None => ws_total w
                end.
Proof.
  unfold remove_and_clear. destruct (ws_clients w !! id) as [slot|] eqn:Hid.
  2:{ by rewrite delete_id. }
  set (w1 := set_clients _ _ w).
  destruct (interleave_keeps w1) as ((Hc1 & Ht1 & Hl1) & Hn1 & Hk1).
  destruct (flush_pending_keeps bridge (interleave tasks w1)) as ((Hc & Ht & Hl) & Hn & Hk).
  destruct (clear_all _ _ _ _ _) as [w3 sa] eqn:E.
  apply clear_all_same in E as ((Hc3 & Ht3 & Hl3) & Hn3 & Hk3).
  assert (queue_ok w → queue_upto sa w3) as Hk4 by (intros Hq; by apply Hk3, Hk, Hk1).
  clear Hk3. rewrite Hn1 in Hn. rewrite Hl1 in Hl.
  rewrite Hc1 in Hc. rewrite Ht1 in Ht. rewrite Hn in Hn3. rewrite Hl in Hl3.
  rewrite Hc in Hc3. rewrite Ht in Ht3.
  destruct sa; simpl; (split_and!; [|done..]).
  - intros Hq. destruct (Hk4 Hq) as [Hl4 _]. split; [done|]. intros _. right. simpl.
    by intros []%app_nil.
  - done.
Qed.
End Interleaved.

(** ** The invariant *)

(** Whether the last [SET_ACTIVITY] of a pid that connection [id] got
    accepted downstream showed a card. *)
Definition outstanding_step (id pid : Z) (b : bool) (e : log_entry) : bool :=
  match e with
  | Connected id' => if decide (id' = id) then false else b
  | Forwarded id' cmd =>
      if decide (id' = id ∧ cmd_pid cmd = pid) then is_some (cmd_activity cmd) else b
  end.

Definition outstanding (log : list log_entry) (id pid : Z) : bool :=
  foldl (outstanding_step id pid) false log.

Lemma outstanding_app log e id pid :
  outstanding (log ++ [e]) id pid = outstanding_step id pid (outstanding log id pid) e.
Proof. unfold outstanding. by rewrite foldl_app. Qed.

(** A slot tracks every card its connection has showing. *)
Definition tracks (log : list log_entry) (id : ClientId) (slot : ClientSlot) : Prop :=
  slot_ok slot ∧ ∀ pid, outstanding log id pid = true → pid ∈ slot_pids slot.

Definition clients_ok (w : Ws) : Prop :=
  (∀ id slot, ws_clients w !! id = Some slot → tracks (ws_log w) id slot) ∧
  ws_total w = wrap_u64 (Z.of_nat (size (ws_clients w))).

Definition ws_ok (w : Ws) : Prop := clients_ok w ∧ queue_ok w.

Lemma same_clients_ok w w' : same_clients w w' → clients_ok w → clients_ok w'.
Proof. unfold clients_ok. by intros (-> & -> & ->). Qed.

Lemma keeps_ok w w' : keeps w w' → ws_ok w → ws_ok w'.
Proof. intros (? & _ & Hq) []. split; [by eapply same_clients_ok|by apply Hq]. Qed.

Section Invariant.
Context `{Serde, IpcParse}.
Variable bridge : nat → EventSink → EventSink.
Variable peers : nat → Net → Net.
Variable tasks : nat → Ws → Ws.
Hypothesis Htasks : tasks_ok tasks.

Lemma ws_set_activity_spec id now_secs now event qid r fwd w w' alive delivered :
  ws_set_activity bridge peers tasks id now_secs now event qid r fwd w = (w', alive, delivered) →
  queue_ok w →
  queue_ok w' ∧ ws_clients w' = ws_clients w ∧ ws_total w' = ws_total w ∧
  (fwd = Refused → delivered = false) ∧
  if delivered : bool then
    ∃ event', ws_log w' = ws_log w ++ [Forwarded id event'] ∧
      cmd_pid event' = cmd_pid event ∧
      is_some (cmd_activity event') = is_some (cmd_activity event)
  else ws_log w' = ws_log w.
Proof.
  unfold ws_set_activity. set (ev0 := match cmd_application_id event with None => _ | _ => _ end).
  unfold set_activity_response. set (ev := map_activity _ _).
  assert (cmd_pid ev = cmd_pid event ∧
    is_some (cmd_activity ev) = is_some (cmd_activity event)) as [Hpid Hact].
  { unfold ev, fix_cmd. rewrite !(proj1 (proj2 (proj2 (proj2 (map_activity_fields _ _))))).
    rewrite !map_activity_activity.
    assert (cmd_args ev0 = cmd_args event) as Ha by (unfold ev0; by case_match).
    unfold cmd_pid, cmd_activity. rewrite Ha. split; [done|].
    by destruct (cmd_args event ≫= arg_activity). }
  intros E Hq. destruct fwd.
  1: destruct (ws_emit bridge tasks ev w) as [w1 d] eqn:E1;
       apply (ws_emit_keeps bridge tasks Htasks) in E1 as ((Hc & Ht & Hl) & _ & Hk).
  2: destruct (emit_or_stage_publish bridge tasks now ev w) as [w1 d] eqn:E1;
       apply (emit_or_stage_keeps bridge tasks Htasks) in E1 as ((Hc & Ht & Hl) & _ & Hk).
  1,2: specialize (Hk _ Hq);
    destruct d; simpl in E; destruct (reply_opt peers r _ _) as [w2 b] eqn:E2;
    apply reply_opt_same in E2 as ((Hc2 & Ht2 & Hl2) & Hp2 & Hr2); simplify_eq;
    (split; [by eapply queue_upto_same|]); simpl in *;
    (split_and!; [congruence|congruence|done|]);
    [exists ev; split_and!; [congruence|done|done]|congruence].
  simpl in E. destruct (reply_opt peers r _ _) as [w2 b] eqn:E2.
  apply reply_opt_same in E2 as ((Hc2 & Ht2 & Hl2) & Hp2 & Hr2). simplify_eq.
  split; [by eapply queue_upto_same|]. done.
Qed.

(** Replacing one client's slot by one that tracks as well. *)
Lemma insert_client_ok w id slot slot' :
  clients_ok w → ws_clients w !! id = Some slot → tracks (ws_log w) id slot' →
  clients_ok (set_clients (<[id := slot']> (ws_clients w)) (ws_total w) w).
Proof.
  intros [Hc Ht] Hid Hs. split; simpl.
  - intros j s. rewrite lookup_insert_Some. intros [[<- <-]|[_ Hj]]; [done|by apply Hc].
  - rewrite map_size_insert_Some by done. done.
Qed.

(** The clients after a forward logged for [id]. *)
Lemma forwarded_ok w id cmd slot :
  clients_ok w → ws_clients w !! id = Some slot →
  (is_some (cmd_activity cmd) = true → cmd_pid cmd ∈ slot_pids slot) →
  (∀ j s, ws_clients w !! j = Some s → tracks (ws_log w ++ [Forwarded id cmd]) j s).
Proof.
  intros [Hc _] Hid Hin j s Hj. destruct (Hc j s Hj) as [Hok Ho]. split; [done|].
  intros pid. rewrite outstanding_app. simpl. case_decide as Hd; [|by apply Ho].
  destruct Hd as [-> <-]. intros. simplify_eq. auto.
Qed.

Lemma on_set_activity_publish_ok id now_secs now slot event w w' alive :
  is_some (cmd_activity event) = true →
  on_set_activity bridge peers tasks id now_secs now slot event w = (w', alive) →
  ws_ok w → ws_clients w !! id = Some slot → ws_ok w'.
Proof.
  unfold on_set_activity. intros Hact E [Hok Hq] Hid. rewrite Hact in E. simpl in E.
  change (default 0%Z (cmd_args event ≫= arg_pid)) with (cmd_pid event) in E.
  rewrite Hid in E.
  destruct (note_published _ _ _ slot) as [slot' adm] eqn:En.
  destruct Hok as [Hc Ht]. destruct (Hc id slot Hid) as [Hsok Ho].
  destruct (note_published_spec _ _ _ _ _ _ En Hsok) as [Hsok' Hadm].
  set (w1 := set_clients _ _ w) in E.
  destruct (interleave_keeps tasks Htasks w1) as ((Hci & Hti & Hli) & _ & Hki).
  set (wi := interleave tasks w1) in *.
  destruct (ws_set_activity _ _ _ _ _ _ _ _ _ _ _) as [[w2 al] d] eqn:E2.
  apply ws_set_activity_spec in E2 as (Hq2 & Hc2 & Ht2 & Href & Hlog); [|by apply Hki].
  rewrite Hci in Hc2. rewrite Hti in Ht2. rewrite Hli in Hlog.
  assert (Hw1 : tracks (ws_log w) id slot' → clients_ok w1) by
    (intros; by eapply insert_client_ok).
  destruct adm as [displaced|]; simpl in Hadm.
  + destruct Hadm as (Hpids & Hrok & Hrpids).
    assert (tracks (ws_log w) id slot') as Htr.
    { split; [done|]. intros p Hp. apply Hpids. left. by apply Ho. }
    destruct d; injection E as <- <-.
    * destruct Hlog as (ev' & Hlog & Hpid & Ha). split; [|done]. split.
      -- rewrite Hlog, Hc2. eapply (forwarded_ok w1); [by apply Hw1| |].
         { apply lookup_insert_eq. }
         intros _. apply Hpids. by right.
      -- rewrite Ht2, Hc2. by apply (Hw1 Htr).
    * assert (Hl2 : ws_clients w2 !! id = Some slot') by (rewrite Hc2; apply lookup_insert_eq).
      unfold update_client. rewrite Hl2.
      assert (clients_ok w2) as Hok2.
      { pose proof (Hw1 Htr) as [X Y]. split; [rewrite Hc2, Hlog|rewrite Hc2, Ht2]; done. }
      split; [|by eapply queue_upto_same].
      eapply insert_client_ok; [done..|].
      split; [done|]. rewrite Hlog. intros p Hp. apply Hrpids. by apply Ho.
  + destruct Hadm as [-> Hni]. rewrite Href in E by done. injection E as <- <-.
    rewrite Href in Hlog by done. split; [|done].
    pose proof (Hw1 (conj Hsok Ho)) as [X Y].
    split; [rewrite Hc2, Hlog|rewrite Hc2, Ht2]; done.
Qed.

Lemma on_set_activity_clear_ok id now_secs now slot event w w' alive :
  is_some (cmd_activity event) = false →
  on_set_activity bridge peers tasks id now_secs now slot event w = (w', alive) →
  ws_ok w → ws_clients w !! id = Some slot → ws_ok w'.
Proof.
  unfold on_set_activity. intros Hact E [Hok Hq] Hid. rewrite Hact in E. simpl in E.
  change (default 0%Z (cmd_args event ≫= arg_pid)) with (cmd_pid event) in E.
  destruct (interleave_keeps tasks Htasks w) as ((Hci & Hti & Hli) & _ & Hki).
  set (wi := interleave tasks w) in *.
  destruct (ws_set_activity _ _ _ _ _ _ _ _ _ _ _) as [[w2 al] d] eqn:E2.
  apply ws_set_activity_spec in E2 as (Hq2 & Hc2 & Ht2 & Href & Hlog); [|by apply Hki].
  rewrite Hci in Hc2. rewrite Hti in Ht2. rewrite Hli in Hlog.
  destruct Hok as [Hc Ht]. destruct (Hc id slot Hid) as [Hsok Ho].
  destruct d; injection E as <- <-.
  + destruct Hlog as (ev' & Hlog & Hpid & Ha).
    assert (Hl2 : ws_clients w2 !! id = Some slot) by (by rewrite Hc2).
    unfold update_client. rewrite Hl2. split; [|by eapply queue_upto_same].
    assert (clients_ok w2) as Hok2.
    { split; [rewrite Hc2, Hlog|by rewrite Hc2, Ht2].
      eapply (forwarded_ok w); [done..|]. rewrite Ha, Hact. done. }
    eapply insert_client_ok; [done..|].
    destruct (forget_published_pids (cmd_pid event) slot (proj1 Hsok)) as (_ & Hf & _).
    split; [by apply forget_published_ok|]. intros p Hp. apply Hf.
    rewrite Hlog, outstanding_app in Hp. simpl in Hp. case_decide as Hd.
    * rewrite Ha, Hact in Hp. done.
    * split; [by apply Ho|]. intros ->. apply Hd. by rewrite Hpid.
  + split; [|done]. split; [rewrite Hc2, Hlog|rewrite Hc2, Ht2]; done.
Qed.

Lemma on_set_activity_ok id now_secs now slot event w w' alive :
  on_set_activity bridge peers tasks id now_secs now slot event w = (w', alive) →
  ws_ok w → ws_clients w !! id = Some slot → ws_ok w'.
Proof.
  destruct (is_some (cmd_activity event)) eqn:Hact;
    [by apply on_set_activity_publish_ok|by apply on_set_activity_clear_ok].
Qed.

Lemma on_other_command_keeps user se slot event w w' alive :
  on_other_command bridge peers tasks user se slot event w = Some (w', alive) →
  same_clients w w' ∧ ∀ b, queue_upto b w → queue_upto b w'.
Proof.
  assert (∀ r t w w' b, reply_opt peers r t w = (w', b) →
    same_clients w w' ∧ ∀ b, queue_upto b w → queue_upto b w') as Hre.
  { intros r t u u' b (? & ? & ?)%reply_opt_same. split; [done|]. intros b'.
    by apply queue_upto_same. }
  assert (∀ r t w w' b, ws_reply peers r t w = (w', b) →
    same_clients w w' ∧ ∀ b, queue_upto b w → queue_upto b w') as Hr.
  { intros r t u u' b E. by apply (Hre r (Some t) u u' b). }
  unfold on_other_command, handle_browser_command, handle_deep_link,
    handle_connections_callback, handle_subscribe, handle_unknown.
  intros E. repeat case_match; simplify_eq; eauto.
  match goal with H1 : reply_opt _ _ _ _ = _, H2 : ws_emit _ _ _ _ = _ |- _ =>
    apply Hre in H1 as [? ?]; apply (ws_emit_keeps bridge tasks Htasks) in H2 as (? & _ & ?) end.
  split; [by etrans|auto].
Qed.

Lemma remove_and_clear_ok now id w :
  ws_ok w → ws_ok (remove_and_clear bridge tasks now id w).
Proof.
  intros [[Hc Ht] Hq].
  destruct (remove_and_clear_spec bridge tasks Htasks now id w) as (Hq' & _ & Hl & Hcl & Htot).
  split; [split|by apply Hq'].
  - rewrite Hcl, Hl. intros j s [_ Hj]%lookup_delete_Some. by apply Hc.
  - rewrite Htot, Hcl. destruct (ws_clients w !! id) as [slot|] eqn:Hid.
    + rewrite Ht. pose proof (map_size_delete_Some id (ws_clients w) (mk_is_Some _ _ Hid)) as E.
      assert (size (ws_clients w) ≠ 0).
      { intros E0%map_size_empty_inv. by rewrite E0, lookup_empty in Hid. }
      rewrite E. unfold wrap_u64. rewrite Zminus_mod_idemp_l. f_equal. lia.
    + by rewrite delete_id.
Qed.

Lemma on_message_ok user sa se now_secs now id m w :
  ws_ok w → ws_ok (ws_on_message bridge peers tasks user sa se now_secs now id m w).
Proof.
  intros Hok. unfold ws_on_message.
  assert (ws_ok (flush_pending bridge (interleave tasks w))) as Hwf.
  { eapply keeps_ok; [apply flush_pending_keeps|].
    eapply keeps_ok; [by apply interleave_keeps|done]. }
  set (wf := flush_pending bridge _) in *. clearbody wf.
  destruct (ws_clients wf !! id) as [slot|] eqn:Hid; [|done].
  destruct m as [text|]; [|done]. destruct (cmd_from_str text) as [event|]; [|done].
  match goal with |- context [match ?x with Some _ => _ | None => _ end] =>
    destruct x as [[w0 alive]|] eqn:Hh; [|done] end.
  assert (ws_ok w0) as Hw0.
  { destruct (String.eqb (cmd_cmd event) "SET_ACTIVITY").
    - destruct sa; [|done]. injection Hh as Hh. by eapply on_set_activity_ok.
    - apply on_other_command_keeps in Hh as [Hs Hq]. destruct Hwf.
      split; [by eapply same_clients_ok|by apply Hq]. }
  destruct alive; [done|by apply remove_and_clear_ok].
Qed.

Lemma on_connect_ok user id r w :
  ws_clients w !! id = None → ws_ok w → ws_ok (ws_on_connect peers user id r w).
Proof.
  intros Hid [[Hc Ht] Hq]. unfold ws_on_connect. repeat case_match; try done.
  split; [|by eapply queue_upto_same]. split; simpl.
  - intros j s. rewrite lookup_insert_Some. intros [[<- <-]|[Hne Hj]].
    + split; [split; [by constructor|simpl; unfold MAX_TRACKED_PIDS; lia]|].
      intros p. rewrite outstanding_app. simpl. by rewrite decide_True.
    + destruct (Hc j s Hj) as [Hs Ho]. split; [done|]. intros p.
      rewrite outstanding_app. simpl. rewrite decide_False by done. apply Ho.
  - rewrite map_size_insert_None by done. rewrite Ht. unfold wrap_u64.
    rewrite Zplus_mod_idemp_l. f_equal. lia.
Qed.

End Invariant.

(** ** Runs

    One step of the transport: an event through the pump, with the bridge
    draining the sink and the retry tasks running their lock sections
    between any two of the pump's; a lock section of a retry task; or
    anything the bridge and the connection tasks do to the sink and the
    outboxes.  A new connection has an id that is not in use
    (WsServer.v). *)
Inductive ws_step `{Serde, IpcParse} : Ws → Ws → Prop :=
  | step_pump bridge peers tasks user sa se now_secs now ev w :
      tasks_ok tasks →
      match ev with EvConnect id _ => ws_clients w !! id = None | _ => True end →
      ws_step w (ws_pump bridge peers tasks user sa se now_secs now ev w)
  | step_retry w w' : retry_step w w' → ws_step w w'
  | step_others s net w : ws_step w (set_net net (set_sink s w)).

Lemma ws_reachable_ok `{Serde, IpcParse} event_queue net w :
  rtc ws_step (Ws_new event_queue net) w → ws_ok w.
Proof.
  intros Hr. assert (ws_ok (Ws_new event_queue net)) as Hinit.
  { split; [split; [|done]|split; [simpl; lia|by intros ?%Exists_nil]].
    intros id slot. simpl. by rewrite lookup_empty. }
  revert Hinit. induction Hr as [|w1 w2 w3 Hst _ IH]; [done|]. intros Hinit. apply IH.
  destruct Hst as [bridge peers tasks user sa se ns now [id r|id reason|id m] w Ht Hf| |]; simpl.
  - by apply on_connect_ok.
  - by apply remove_and_clear_ok.
  - by apply on_message_ok.
  - eapply keeps_ok; [by apply retry_step_keeps|done].
  - done.
Qed.

(** C15: whatever the bridge and the peers do, however the events and the
    retries interleave, and with the retry tasks running between any two
    lock sections of the pump, a connection's history holds at most 16
    distinct pids and covers every pid whose last accepted command showed a
    card; the client total is the number of slots; the staged queue holds
    at most 256 commands; and between events a staged clear of a lost
    connection is never without a task to retry it. *)
Theorem ws_transport_invariant `{Serde, IpcParse} event_queue net w :
  rtc ws_step (Ws_new event_queue net) w →
  (∀ id slot, ws_clients w !! id = Some slot →
    NoDup (ps_pid <$> cs_published slot) ∧
    length (cs_published slot) ≤ MAX_TRACKED_PIDS ∧
    ∀ pid, outstanding (ws_log w) id pid = true → pid ∈ ps_pid <$> cs_published slot) ∧
  ws_total w = wrap_u64 (Z.of_nat (size (ws_clients w))) ∧
  length (ws_pending w) ≤ MAX_PENDING_COMMANDS ∧
  (∀ e c, e ∈ ws_pending w → pe_payload e = Clear c → ws_retries w ≠ []).
Proof.
  intros Hr. apply ws_reachable_ok in Hr as [[Hc Ht] [Hl Hp]].
  split_and!; [|done..|].
  - intros id slot Hid. destruct (Hc id slot Hid) as [[? ?] ?]. by split_and!.
  - intros e c He Hce. destruct Hp as [|]; [|done..]. apply Exists_exists. exists e.
    split; [done|]. unfold is_clear. by rewrite Hce.
Qed.

(** ** Witnesses *)

Module WsDemo.
Definition id : ClientId := 1%Z.
Definition responder : Responder := {|
  resp_id := id; resp_origin := Some "https://discord.com"; resp_uri := "/?v=1&client_id=42" |}.
Definition outbox : Outbox := {| ob_queue := []; ob_cap := 8; ob_closed := false |}.
Definition start : Ws := Ws_new 1 {[id := outbox]}.
Definition pump (ev : Event) (w : Ws) : Ws :=
  @ws_pump demo_serde IpcDemo.parse (λ _ s, s) (λ _ n, n) (λ _ w, w) RpcUser_default true true
    1700000000 0 ev w.
Definition connected : Ws := pump (EvConnect id responder) start.
Definition publishing : Ws := pump (EvMessage id (Text "set")) connected.

Lemma idle_tasks : tasks_ok (λ _ w, w).
Proof. intros k w. constructor. Qed.

Lemma pump_step ev w :
  match ev with EvConnect id _ => ws_clients w !! id = None | _ => True end →
  @ws_step demo_serde IpcDemo.parse w (pump ev w).
Proof.
  apply (step_pump (λ _ s, s) (λ _ n, n) (λ _ w, w) RpcUser_default true true 1700000000 0 ev w
    idle_tasks).
Qed.

Lemma connected_reached : rtc (@ws_step demo_serde IpcDemo.parse) start connected.
Proof. apply rtc_once. apply pump_step. reflexivity. Qed.

Lemma publishing_reached : rtc (@ws_step demo_serde IpcDemo.parse) start publishing.
Proof. eapply rtc_r; [apply connected_reached|]. by apply pump_step. Qed.

(** The client leaves behind a full sink: its clear is staged with a task. *)
Definition left_behind : Ws := pump (EvDisconnect id Clean) publishing.

Lemma left_behind_reached : rtc (@ws_step demo_serde IpcDemo.parse) start left_behind.
Proof. eapply rtc_r; [apply publishing_reached|]. by apply pump_step. Qed.
End WsDemo.

Lemma ws_transport_invariant_witness :
  ws_total WsDemo.left_behind = 0%Z ∧ length (ws_pending WsDemo.left_behind) = 1 ∧
  ws_retries WsDemo.left_behind ≠ [].
Proof.
  destruct (@ws_transport_invariant demo_serde IpcDemo.parse 1 {[WsDemo.id := WsDemo.outbox]}
    WsDemo.left_behind) as (_ & Ht & _ & Hr).
  - exact WsDemo.left_behind_reached.
  - split; [rewrite Ht; vm_compute; reflexivity|]. split; [vm_compute; reflexivity|].
    destruct (ws_pending WsDemo.left_behind) as [|e q] eqn:E; [vm_compute in E; discriminate|].
    eapply (Hr e (match pe_payload e with Clear c => c | _ => clear_from_cmd demo_cmd end));
      [left|]. vm_compute in E. injection E as <- _. vm_compute. reflexivity.
Defined.
