(* ===== verification/WsDelivery.v ===== *)
(** * What the game WebSocket transport delivers, and when

    The order of the commands on their way to the bridge, the replies of
    the handlers, the drain of a shutdown, and the two places where a
    command overtakes or is not counted. *)

From stdpp Require Import base gmap strings list fin_maps sets relations.
From S2P Require Import Prelude RStr HashMaps Json Ids Cmd User Protocol IpcFrame IpcSink.
From S2P Require Import IpcPump Consumers WsServer WsTransport.
From S2P Require Import WsProps.

Local Open Scope string_scope.
Local Open Scope nat_scope.
Local Open Scope list_scope.

(** ** Order

    What is on its way to the bridge: the sink's queue, then the staged
    commands.  The bridge takes nothing during the event and no staged
    command expires in it; the retry tasks may run. *)

Definition staged (w : Ws) : list ActivityCmd :=
  (λ e, payload_into_cmd (pe_payload e)) <$> ws_pending w.

Definition stream (w : Ws) : list ActivityCmd := sink_queue (ws_sink w) ++ staged w.

Definition quiet (k : nat) (s : EventSink) : EventSink := s.

(** A lock section of a retry task under a bridge that takes nothing and a
    clock before every deadline. *)
Definition quiet_step (w w' : Ws) : Prop :=
  ∃ now i, is_Some (ws_retries w !! i) ∧ Forall (λ e, now < pe_deadline e)%Z (ws_pending w) ∧
    w' = retry_section quiet now i w.

Definition quiet_tasks (tasks : nat → Ws → Ws) : Prop := ∀ k w, rtc quiet_step w (tasks k w).

Lemma quiet_tasks_ok tasks : quiet_tasks tasks → tasks_ok tasks.
Proof.
  intros Hq k w. eapply rtc_subrel; [|apply Hq]. intros u v (now & i & Hi & _ & ->).
  by exists quiet, now, i.
Qed.

Definition open (w : Ws) : Prop := sink_closed (ws_sink w) = false.

(** After a flush nothing is staged while the sink has room. *)
Definition settled (w : Ws) : Prop := open w ∧ (ws_pending w = [] ∨ full (ws_sink w)).

(** The receiver has gone: nothing is staged and the sink takes no more. *)
Definition dead (q : list ActivityCmd) (w : Ws) : Prop :=
  sink_closed (ws_sink w) = true ∧ ws_pending w = [] ∧ sink_queue (ws_sink w) = q.

(** The two sinks differ in the shed counter at most. *)
Definition same_sink (s s' : EventSink) : Prop :=
  sink_queue s' = sink_queue s ∧ sink_capacity s' = sink_capacity s ∧
  sink_closed s' = sink_closed s.

Lemma same_sink_settled w w' :
  same_sink (ws_sink w) (ws_sink w') → ws_pending w' = ws_pending w → settled w → settled w'.
Proof. intros (E1 & E2 & E3) E4. unfold settled, open, full. by rewrite E1, E2, E3, E4. Qed.

(** What one event adds ([tail]) behind a settled stream.  Past the cap of
    the staged queue its [n] oldest entries are shed. *)
Definition grows (w w' : Ws) (tail : list ActivityCmd) : Prop :=
  settled w' ∧ length (ws_pending w') ≤ length (ws_pending w) + length tail ∧
  (full (ws_sink w) →
   sink_queue (ws_sink w') = sink_queue (ws_sink w) ∧
   sink_capacity (ws_sink w') = sink_capacity (ws_sink w) ∧
   ∃ n, n ≤ length tail ∧ staged w' = drop n (staged w) ++ tail ∧
     (n = 0 ∨ MAX_PENDING_COMMANDS < length (ws_pending w) + length tail)) ∧
  (¬ full (ws_sink w) → stream w' = stream w ++ tail).

(** An operation of the pump that adds [tail], or nothing once the
    receiver has gone. *)
Definition evolves (w w' : Ws) (tail : list ActivityCmd) : Prop :=
  (settled w → grows w w' tail) ∧ ∀ q, dead q w → dead q w'.

Lemma grows_frame w w' :
  same_sink (ws_sink w) (ws_sink w') → ws_pending w' = ws_pending w → settled w →
  grows w w' [].
Proof.
  intros Hs Hp Hw. split; [by eapply same_sink_settled|].
  destruct Hs as (E1 & E2 & E3). unfold stream, staged. rewrite E1, E2, Hp, app_nil_r.
  split_and!; [lia| |done]. intros _. split_and!; [done..|]. exists 0. simpl.
  rewrite app_nil_r. split_and!; [lia|done|by left].
Qed.

Lemma evolves_frame w w' :
  same_sink (ws_sink w) (ws_sink w') → ws_pending w' = ws_pending w → evolves w w' [].
Proof.
  intros Hs Hp. split; [by apply grows_frame|]. destruct Hs as (E1 & _ & E3).
  intros q. unfold dead. by rewrite E1, E3, Hp.
Qed.

Lemma evolves_refl w : evolves w w [].
Proof. by apply evolves_frame. Qed.

(** 17: a forwarded command and the clears of a full history. *)
Lemma grows_trans w w1 w2 t1 t2 :
  settled w → length (t1 ++ t2) ≤ 17 → grows w w1 t1 → grows w1 w2 t2 → grows w w2 (t1 ++ t2).
Proof.
  rewrite length_app. intros [Ho Hw] Hl (Hs1 & Hl1 & Hf1 & Hn1) (Hs2 & Hl2 & Hf2 & Hn2).
  unfold MAX_PENDING_COMMANDS in *.
  assert (length (staged w) = length (ws_pending w)) as Hst by apply length_fmap.
  split; [done|]. split; [rewrite length_app; lia|]. rewrite length_app. split.
  - intros Hf. destruct (Hf1 Hf) as (Eq1 & Ec1 & n1 & Hle1 & Est1 & Hsh1).
    assert (full (ws_sink w1)) as Hfull1.
    { split; [apply Hs1|]. rewrite Eq1, Ec1. apply Hf. }
    destruct (Hf2 Hfull1) as (Eq2 & Ec2 & n2 & Hle2 & Est2 & Hsh2).
    split_and!; [congruence..|]. exists (n1 + n2). split; [lia|]. split.
    + rewrite Est2, Est1. destruct (decide (n2 = 0)) as [->|Hz].
      { by rewrite Nat.add_0_r, drop_0, <-app_assoc. }
      rewrite drop_app_le by (rewrite length_drop; lia).
      by rewrite drop_drop, <-app_assoc.
    + unfold MAX_PENDING_COMMANDS. lia.
  - intros Hf. destruct Hw as [Hp|]; [|done]. rewrite Hp in *. simpl in *. rewrite app_assoc.
    rewrite <-(Hn1 Hf). destruct (decide (sink_capacity (ws_sink w1) ≤ length (sink_queue (ws_sink w1))))
      as [Hc|Hc]; [|by apply Hn2; intros []].
    destruct (Hf2 (conj (proj1 Hs1) Hc)) as (Eq2 & _ & n2 & _ & Est2 & Hsh2).
    unfold stream. rewrite Eq2, Est2. destruct Hsh2 as [->|]; [|lia]. by rewrite app_assoc.
Qed.

Lemma evolves_trans w w1 w2 t1 t2 :
  length (t1 ++ t2) ≤ 17 → evolves w w1 t1 → evolves w1 w2 t2 → evolves w w2 (t1 ++ t2).
Proof.
  intros Hl [Hg1 Hd1] [Hg2 Hd2]. split; [|auto]. intros Hw.
  eapply grows_trans; [done..|by apply Hg1|]. apply Hg2, Hg1, Hw.
Qed.

Lemma evolves_l w w1 w2 t :
  length t ≤ 17 → evolves w w1 [] → evolves w1 w2 t → evolves w w2 t.
Proof. intros Hl H1 H2. by apply (evolves_trans w w1 w2 [] t). Qed.

Lemma evolves_r w w1 w2 t :
  length t ≤ 17 → evolves w w1 t → evolves w1 w2 [] → evolves w w2 t.
Proof.
  intros Hl H1 H2. rewrite <-(app_nil_r t). apply (evolves_trans w w1); [|done..].
  by rewrite app_nil_r.
Qed.

(** ** The sink and the staged queue, the bridge being quiet *)

Lemma try_emit_quiet cmd w w' r :
  try_emit quiet cmd w = (w', r) →
  ws_pending w' = ws_pending w ∧
  match r with
  | Sent => open w ∧ ¬ full (ws_sink w) ∧ sink_closed (ws_sink w') = false ∧
            sink_queue (ws_sink w') = sink_queue (ws_sink w) ++ [cmd] ∧
            sink_capacity (ws_sink w') = sink_capacity (ws_sink w)
  | EmitFull c => c = cmd ∧ full (ws_sink w) ∧ ws_sink w' = ws_sink w
  | EmitClosed => sink_closed (ws_sink w) = true ∧ ws_sink w' = ws_sink w
  end.
Proof.
  unfold try_emit, await_sink, quiet, sink_try_send, open, full. simpl. intros E.
  destruct (sink_closed (ws_sink w)) eqn:Hc; [by simplify_eq/=|].
  case_decide; simplify_eq/=; split_and!; try done. tauto.
Qed.

Lemma flush_loop_stream q w :
  open w → settled (flush_loop quiet q w) ∧
  stream (flush_loop quiet q w) = stream (set_pending q w).
Proof.
  revert w; induction q as [|e q IH]; intros w Ho; simpl.
  { split; [split; [done|by left]|done]. }
  destruct (try_emit quiet _ w) as [w1 r] eqn:E.
  apply try_emit_quiet in E as [Hp Hr]. destruct r as [|c|].
  - destruct Hr as (_ & _ & Ho1 & Hq & _). destruct (IH w1 Ho1) as [IH1 IH2].
    split; [done|]. rewrite IH2. unfold stream, staged; simpl.
    rewrite Hq. by rewrite <-app_assoc.
  - destruct Hr as (-> & Hf & Hs). rewrite restage_same.
    split; [split; [unfold open|right]; simpl; by rewrite Hs|].
    unfold stream, staged; simpl. by rewrite Hs.
  - destruct Hr as [Hc _]. unfold open in Ho. congruence.
Qed.

Lemma flush_pending_stream w :
  open w → settled (flush_pending quiet w) ∧ stream (flush_pending quiet w) = stream w.
Proof.
  intros Ho. destruct (flush_loop_stream (ws_pending w) w Ho) as [? E].
  split; [done|]. unfold flush_pending. rewrite E. by destruct w.
Qed.

(** A flush finds nothing to do on a settled transport. *)
Lemma flush_pending_settled w :
  settled w → same_sink (ws_sink w) (ws_sink (flush_pending quiet w)) ∧
    ws_pending (flush_pending quiet w) = ws_pending w.
Proof.
  intros [Ho Hs]. unfold flush_pending. destruct (ws_pending w) as [|e q] eqn:Hp; [done|].
  destruct Hs as [|Hf]; [done|]. simpl. destruct (try_emit quiet _ w) as [w1 r] eqn:E.
  apply try_emit_quiet in E as [Hp1 Hr]. destruct r as [|c|].
  - by destruct Hr as (_ & [] & _).
  - destruct Hr as (-> & _ & Hs). rewrite restage_same. unfold same_sink. simpl. by rewrite Hs.
  - destruct Hr as [Hc _]. unfold open in Ho. congruence.
Qed.

(** A closed sink drops the queue. *)
Lemma flush_pending_closed w :
  sink_closed (ws_sink w) = true →
  dead (sink_queue (ws_sink w)) (flush_pending quiet w).
Proof.
  intros Hc. unfold flush_pending. destruct (ws_pending w) as [|e q]; [done|]. simpl.
  destruct (try_emit quiet _ w) as [w1 r] eqn:E.
  apply try_emit_quiet in E as [Hp1 Hr]. destruct r as [|c|].
  - destruct Hr as [Ho _]. unfold open in Ho. congruence.
  - destruct Hr as (_ & [Ho _] & _). congruence.
  - destruct Hr as [_ Hs]. unfold dead. simpl. by rewrite Hs.
Qed.

Lemma expire_pending_quiet now w :
  Forall (λ e, now < pe_deadline e)%Z (ws_pending w) →
  same_sink (ws_sink w) (ws_sink (expire_pending now w)) ∧
  ws_pending (expire_pending now w) = ws_pending w.
Proof.
  intros Hd. unfold expire_pending. split; [done|]. simpl.
  induction Hd as [|e q He _ IH]; [done|]. rewrite filter_cons_True by done. by rewrite IH.
Qed.

(** A retry task under a quiet bridge moves staged commands into the sink
    and nothing else; on a settled transport it moves nothing. *)
Lemma quiet_step_evolves w w' : quiet_step w w' → evolves w w' [].
Proof.
  intros (now & i & _ & Hd & ->). unfold retry_section. split.
  - intros Hs. destruct (flush_pending_settled w Hs) as [? ?].
    destruct (expire_pending_quiet now w Hd) as [? ?].
    repeat case_match; by apply grows_frame.
  - intros q (Hc & Hp & Hq). pose proof (flush_pending_closed w Hc) as Hf. rewrite Hq in Hf.
    destruct (expire_pending_quiet now w Hd) as [(E1 & _ & E2) E3].
    destruct (ws_retries w !! i) as [[]|]; [exact Hf| |by rewrite Hp|done].
    split_and!; [done|exact (eq_trans E3 Hp)|done].
Qed.

Lemma quiet_step_open w w' :
  quiet_step w w' →
  (open w → open w' ∧ stream w' = stream w ∧ length (ws_pending w') ≤ length (ws_pending w)) ∧
  (sink_closed (ws_sink w) = true → sink_closed (ws_sink w') = true ∧
     sink_queue (ws_sink w') = sink_queue (ws_sink w)).
Proof.
  intros (now & i & _ & Hd & ->). unfold retry_section.
  destruct (expire_pending_quiet now w Hd) as [(E1 & _ & E2) E3].
  destruct (ws_retries w !! i) as [[]|]; split; try done.
  - intros Ho. destruct (flush_pending_stream w Ho) as [[? _] E].
    destruct (flush_pending_same quiet w) as (_ & _ & _ & n & Hn).
    split_and!; [done..|]. simpl. rewrite Hn, length_drop. lia.
  - intros Hc. by destruct (flush_pending_closed w Hc) as (? & _ & ?).
  - intros Ho. set (we := expire_pending now w) in *. clearbody we.
    unfold open, stream, staged in *. simpl. by rewrite E1, E2, E3.
  - intros Ho. by destruct (ws_pending w) eqn:Hp; split_and!; simpl; try done; rewrite Hp.
  - intros Hc. by destruct (ws_pending w).
Qed.

(** ** The pump, the bridge being quiet *)

Section Order.
Context `{Serde, IpcParse}.
Variable peers : nat → Net → Net.
Variable tasks : nat → Ws → Ws.
Hypothesis Htasks : quiet_tasks tasks.

Lemma interleave_evolves w : evolves w (interleave tasks w) [].
Proof.
  unfold interleave.
  apply (evolves_r w (tasks (ws_access w) w)); [simpl; lia| |by apply evolves_frame].
  induction (Htasks (ws_access w) w) as [|w1 w2 w3 Hst _ IH]; [apply evolves_refl|].
  eapply evolves_l; [simpl; lia|by apply quiet_step_evolves|done].
Qed.

Lemma interleave_open w :
  (open w → open (interleave tasks w) ∧ stream (interleave tasks w) = stream w ∧
     length (ws_pending (interleave tasks w)) ≤ length (ws_pending w)) ∧
  (sink_closed (ws_sink w) = true → sink_closed (ws_sink (interleave tasks w)) = true ∧
     sink_queue (ws_sink (interleave tasks w)) = sink_queue (ws_sink w)).
Proof.
  unfold interleave. set (w' := tasks (ws_access w) w).
  assert ((open w → open w' ∧ stream w' = stream w ∧
       length (ws_pending w') ≤ length (ws_pending w)) ∧
    (sink_closed (ws_sink w) = true → sink_closed (ws_sink w') = true ∧
       sink_queue (ws_sink w') = sink_queue (ws_sink w))) as Hw; [|done].
  unfold w'. induction (Htasks (ws_access w) w) as [|w1 w2 w3 Hst _ [IH1 IH2]]; [done|].
  destruct (quiet_step_open _ _ Hst) as [H1 H2]. split.
  - intros Ho. destruct (H1 Ho) as (Ho2 & E2 & L2). destruct (IH1 Ho2) as (Ho3 & E3 & L3).
    split_and!; [done|congruence|lia].
  - intros Hc. destruct (H2 Hc) as [Hc2 E2]. destruct (IH2 Hc2) as [Hc3 E3].
    split; [done|congruence].
Qed.

(** A command offered to the sink goes in when nothing is ahead of it. *)
Lemma offer_evolves cmd w w' r :
  offer quiet tasks cmd w = (w', r) →
  match r with
  | Sent => evolves w w' [cmd]
  | EmitFull c => c = cmd ∧ evolves w w' [] ∧ (settled w → full (ws_sink w')) ∧ ∀ q, ¬ dead q w
  | EmitClosed => evolves w w' [] ∧ ¬ settled w
  end.
Proof.
  unfold offer. pose proof (interleave_evolves w) as Hi. set (wi := interleave tasks w) in *.
  intros E. apply try_emit_quiet in E as [Hp Hr]. destruct r as [|c|].
  - eapply evolves_l; [simpl; lia|exact Hi|]. destruct Hr as (Ho & Hf & Ho' & Hq & Hc).
    split; [|intros q (Hc' & _); unfold open in Ho; congruence].
    intros [_ [Hn|]]; [|done]. rewrite Hn in Hp.
    split; [split; [done|by left]|]. split; [rewrite Hp; simpl; lia|]. split; [done|].
    intros _. unfold stream, staged. rewrite Hq, Hp, Hn. simpl. by rewrite !app_nil_r.
  - destruct Hr as (-> & Hf & Hs). split; [done|].
    split; [eapply evolves_l; [simpl; lia|exact Hi|apply evolves_frame; [by rewrite Hs|done]]|].
    split; [by rewrite Hs|]. intros q Hq. destruct Hi as [_ Hd].
    destruct (Hd q Hq) as (Hc & _). destruct Hf as [Ho _]. congruence.
  - destruct Hr as [Hc Hs].
    split; [eapply evolves_l; [simpl; lia|exact Hi|apply evolves_frame; [by rewrite Hs|done]]|].
    intros Hw. destruct Hi as [Hg _]. destruct (Hg Hw) as ([Ho _] & _). unfold open in Ho.
    congruence.
Qed.

Lemma count_shed_evolves n w : evolves w (count_shed n w) [].
Proof. by apply evolves_frame. Qed.

(** Staging goes last, shedding the oldest staged command at the cap. *)
Lemma stage_entry_grows e w :
  settled w → full (ws_sink w) →
  grows w (stage_entry e w) [payload_into_cmd (pe_payload e)].
Proof.
  intros [Ho _] Hf. unfold grows, stage_entry. case_decide as Hl; simpl.
  - split; [split; [done|by right]|]. split; [|split; [|done]].
    { rewrite length_app. simpl. destruct (ws_pending w); simpl in *; lia. }
    intros _. split_and!; [done..|]. exists 1. split; [lia|]. unfold staged. simpl.
    rewrite fmap_app. split; [|right; lia]. by destruct (ws_pending w).
  - split; [split; [done|by right]|]. split; [|split; [|done]].
    { rewrite length_app. simpl. lia. }
    intros _. split_and!; [done..|]. exists 0. split; [lia|]. unfold staged. simpl.
    rewrite fmap_app. split; [done|by left].
Qed.

Lemma stage_evolves e w :
  (settled w → full (ws_sink w)) → (∀ q, ¬ dead q w) →
  evolves w (stage_entry e (interleave tasks w)) [payload_into_cmd (pe_payload e)].
Proof.
  intros Hf Hd. split; [|by intros q ?%Hd]. intros Hs.
  destruct (interleave_evolves w) as [Hg _]. specialize (Hg Hs).
  apply (grows_trans w (interleave tasks w) _ []); [done|simpl; lia|done|].
  destruct Hg as (Hs' & _ & Hfull & _). destruct (Hfull (Hf Hs)) as (Eq & Ec & _).
  apply stage_entry_grows; [done|]. split; [apply Hs'|]. rewrite Eq, Ec. apply (Hf Hs).
Qed.

Lemma ws_emit_evolves cmd w w' b :
  ws_emit quiet tasks cmd w = (w', b) → evolves w w' (if b then [cmd] else []).
Proof.
  unfold ws_emit. destruct (offer quiet tasks cmd w) as [w1 r] eqn:E.
  apply offer_evolves in E. destruct r; intros; simplify_eq/=.
  - done.
  - destruct E as (_ & E & _). eapply evolves_r; [simpl; lia|exact E|apply count_shed_evolves].
  - destruct E as [E _]. eapply evolves_r; [simpl; lia|exact E|apply count_shed_evolves].
Qed.

(** Nothing is added when the receiver has gone, which no settled
    transport finds. *)
Lemma evolves_closed w w' tail : evolves w w' [] → ¬ settled w → evolves w w' tail.
Proof. intros [_ Hd] Hn. by split. Qed.

Lemma emit_or_stage_evolves now cmd w w' b :
  emit_or_stage_publish quiet tasks now cmd w = (w', b) → evolves w w' [cmd].
Proof.
  unfold emit_or_stage_publish. destruct (offer quiet tasks cmd w) as [w1 r] eqn:E.
  apply offer_evolves in E. destruct r; intros; simplify_eq/=.
  - done.
  - destruct E as (-> & [Hg Hd] & Hf & Hnd). split; [|by intros q ?%Hnd]. intros Hs.
    apply (grows_trans w w1 _ []); [done|simpl; lia|by apply Hg|].
    pose proof (Hg Hs) as (Hs1 & _). apply (stage_evolves {| pe_payload := Publish cmd;
      pe_deadline := now + DISCONNECT_CLEAR_BUDGET |}); [by intros _; apply Hf| |done].
    intros q (Hc & _). destruct Hs1 as [Ho _]. unfold open in Ho. congruence.
  - destruct E as [E Hn]. apply evolves_closed; [|done].
    eapply evolves_r; [simpl; lia|exact E|apply count_shed_evolves].
Qed.

(** The clears of a lost connection go last, in the order of its history. *)
Lemma clear_all_evolves now l w sa w' sb :
  length l ≤ 16 → clear_all quiet tasks now l (w, sa) = (w', sb) →
  evolves w w' (clear_for_slot <$> l).
Proof.
  unfold clear_all. revert w sa. induction l as [|p l IH]; simpl; intros w sa Hl E.
  { simplify_eq. apply evolves_refl. }
  destruct (offer quiet tasks (clear_for_slot p) w) as [w1 r] eqn:Et.
  apply offer_evolves in Et. destruct r as [|c|]; apply IH in E; [|lia| |lia| |lia].
  - apply (evolves_trans w w1 w' [_]); [simpl; rewrite length_fmap; lia|done|done].
  - destruct Et as (-> & [Hg Hd] & Hf & Hnd). split; [|by intros q ?%Hnd]. intros Hs.
    set (ws := stage_clear now p (interleave tasks w1)) in *.
    assert (grows w ws [clear_for_slot p]) as Hws.
    { apply (grows_trans w w1 _ []); [done|simpl; lia|by apply Hg|].
      pose proof (Hg Hs) as (Hs1 & _). apply (stage_evolves {| pe_payload := Clear
        (clear_from_slot p); pe_deadline := now + DISCONNECT_CLEAR_BUDGET |});
        [by intros _; apply Hf| |done].
      intros q (Hc & _). destruct Hs1 as [Ho _]. unfold open in Ho. congruence. }
    apply (grows_trans w ws w' [_]); [done|simpl; rewrite length_fmap; lia|done|].
    apply E, Hws.
  - destruct Et as [Et Hn]. split; [done|]. intros q Hq. apply E, (count_shed_evolves 1), Et, Hq.
Qed.

(** The flush a message or a disconnect starts with. *)
Lemma flush_first w :
  let wf := flush_pending quiet (interleave tasks w) in
  (open w → settled wf ∧ stream wf = stream w ∧
     length (ws_pending wf) ≤ length (ws_pending w)) ∧
  (sink_closed (ws_sink w) = true → dead (sink_queue (ws_sink w)) wf).
Proof.
  destruct (interleave_open w) as [H1 H2]. set (wi := interleave tasks w) in *. split.
  - intros Ho. destruct (H1 Ho) as (Hoi & Ei & Li).
    destruct (flush_pending_stream wi Hoi) as [Hs E].
    destruct (flush_pending_same quiet wi) as (_ & _ & _ & n & Hn).
    split_and!; [done|congruence|]. rewrite Hn, length_drop. lia.
  - intros Hc. destruct (H2 Hc) as [Hci <-]. by apply flush_pending_closed.
Qed.

(** What an event did, once it flushed. *)
Definition event_spec (w w' : Ws) (tail : list ActivityCmd) : Prop :=
  (open w → ∃ a n, stream w' = take a (stream w) ++ drop (a + n) (stream w) ++ tail ∧
     length (sink_queue (ws_sink w)) ≤ a ∧ n ≤ length tail ∧
     (n = 0 ∨ MAX_PENDING_COMMANDS < length (ws_pending w) + length tail)) ∧
  (sink_closed (ws_sink w) = true →
     stream w' = stream w ∨ stream w' = sink_queue (ws_sink w)).

Lemma event_spec_same w w' :
  ws_sink w' = ws_sink w → ws_pending w' = ws_pending w → event_spec w w' [].
Proof.
  intros E1 E2. assert (stream w' = stream w) as E by (unfold stream, staged; by rewrite E1, E2).
  split; [|by left]. intros _. exists (length (stream w)), 0.
  rewrite E, firstn_all, Nat.add_0_r, drop_all, !app_nil_r. unfold stream.
  rewrite length_app. split_and!; [done|lia|simpl; lia|by left].
Qed.

Lemma flushed_event w w' tail :
  length tail ≤ 17 → evolves (flush_pending quiet (interleave tasks w)) w' tail →
  event_spec w w' tail.
Proof.
  intros Hl [Hg Hd]. destruct (flush_first w) as [H1 H2].
  set (wf := flush_pending quiet (interleave tasks w)) in *. split.
  2:{ intros Hc. right. destruct (Hd _ (H2 Hc)) as (_ & Hp & Hq). unfold stream, staged.
      by rewrite Hp, Hq, app_nil_r. }
  intros Ho. destruct (H1 Ho) as (Hs & Est & Hlp). rewrite <-Est.
  assert (length (sink_queue (ws_sink w)) ≤ length (sink_queue (ws_sink wf))) as Hq.
  { apply (f_equal length) in Est. unfold stream, staged in Est.
    rewrite !length_app, !length_fmap in Est. lia. }
  destruct (Hg Hs) as (_ & _ & Hfull & Hroom).
  exists (length (sink_queue (ws_sink wf))).
  destruct (decide (sink_capacity (ws_sink wf) ≤ length (sink_queue (ws_sink wf)))) as [Hc|Hc].
  - destruct (Hfull (conj (proj1 Hs) Hc)) as (Eq & _ & n & Hn & Est' & Hsh). exists n.
    unfold stream. rewrite Eq, Est', take_app_length, drop_app_add.
    split_and!; [by rewrite app_assoc|done|done|lia].
  - exists 0. rewrite Hroom by (intros []; lia). rewrite Nat.add_0_r, app_assoc, take_drop.
    split_and!; [done|done|lia|by left].
Qed.

Lemma remove_and_clear_evolves now id w slot :
  ws_clients w !! id = Some slot → length (cs_published slot) ≤ 16 →
  ∃ wc, evolves (flush_pending quiet (interleave tasks wc))
          (remove_and_clear quiet tasks now id w) (clear_for_slot <$> cs_published slot) ∧
    ws_sink wc = ws_sink w ∧ ws_pending wc = ws_pending w.
Proof.
  intros Hid Hl. unfold remove_and_clear. rewrite Hid. set (w1 := set_clients _ _ w).
  exists w1. split; [|done]. destruct (clear_all _ _ _ _ _) as [w3 sa] eqn:E.
  apply clear_all_evolves in E; [|done]. destruct sa; [|done].
  eapply evolves_r; [rewrite length_fmap; lia|exact E|by apply evolves_frame].
Qed.

Lemma flush_evolves w : evolves w (flush_pending quiet (interleave tasks w)) [].
Proof.
  eapply evolves_l; [simpl; lia|apply interleave_evolves|]. split.
  - intros Hs. destruct (flush_pending_settled _ Hs). by apply grows_frame.
  - intros q (Hc & _ & <-). by apply flush_pending_closed.
Qed.

(** Pruning a client in the middle of an event. *)
Lemma prune_evolves now id w slot :
  ws_clients w !! id = Some slot → length (cs_published slot) ≤ 16 →
  evolves w (remove_and_clear quiet tasks now id w) (clear_for_slot <$> cs_published slot).
Proof.
  intros Hid Hl. destruct (remove_and_clear_evolves now id w slot Hid Hl) as (wc & E & Es & Ep).
  assert (length (clear_for_slot <$> cs_published slot) ≤ 17) as Hl' by (rewrite length_fmap; lia).
  eapply (evolves_l w wc); [done|by apply evolves_frame; [rewrite Es|]|].
  eapply evolves_l; [done|apply flush_evolves|exact E].
Qed.

Lemma reply_opt_evolves r t w w' b : reply_opt peers r t w = (w', b) → evolves w w' [].
Proof.
  intros E. apply evolves_frame; destruct t; simpl in E; unfold ws_reply in E;
    repeat case_match; by simplify_eq/=.
Qed.

(** The forward of a [SET_ACTIVITY]. *)
Lemma ws_set_activity_evolves id now_secs now event qid r fwd w w' alive delivered :
  ws_set_activity quiet peers tasks id now_secs now event qid r fwd w = (w', alive, delivered) →
  ∃ tail, length tail ≤ 1 ∧ evolves w w' tail.
Proof.
  unfold ws_set_activity. destruct (set_activity_response _) as [ev resp]. intros E.
  match type of E with context [let '(_, _) := ?x in _] => destruct x as [w1 d] eqn:E1 end.
  destruct (reply_opt peers r resp _) as [w2 b] eqn:E2. simplify_eq.
  apply reply_opt_evolves in E2.
  assert (∃ tail, length tail ≤ 1 ∧ evolves w w1 tail) as (tail & Hl & Hw).
  { destruct fwd.
    - apply ws_emit_evolves in E1. eexists. split; [|exact E1]. destruct delivered; simpl; lia.
    - apply emit_or_stage_evolves in E1. eexists. split; [|exact E1]. simpl; lia.
    - simplify_eq. exists []. split; [simpl; lia|apply evolves_refl]. }
  exists tail. split; [done|]. eapply evolves_r; [lia|exact Hw|].
  eapply evolves_l; [simpl; lia| |exact E2]. destruct delivered; by apply evolves_frame.
Qed.

Lemma update_client_evolves id f w : evolves w (update_client id f w) [].
Proof. unfold update_client. case_match; by apply evolves_frame. Qed.

Lemma on_set_activity_evolves id now_secs now slot event w w' alive :
  on_set_activity quiet peers tasks id now_secs now slot event w = (w', alive) →
  ∃ tail, length tail ≤ 1 ∧ evolves w w' tail.
Proof.
  unfold on_set_activity. intros E.
  match type of E with context [let '(_, _) := ?x in _] => destruct x as [w1 adm] eqn:E1 end.
  assert (evolves w w1 []) as Hw1.
  { repeat case_match; simplify_eq; by apply evolves_frame. }
  destruct (ws_set_activity _ _ _ _ _ _ _ _ _ _ _) as [[w2 al] d] eqn:E2.
  apply ws_set_activity_evolves in E2 as (tail & Hl & Hw2). injection E as <- <-.
  exists tail. split; [done|]. eapply evolves_l; [lia|exact Hw1|].
  eapply evolves_l; [lia|apply interleave_evolves|].
  eapply evolves_r; [lia|exact Hw2|].
  repeat case_match; auto using update_client_evolves, evolves_refl.
Qed.

Lemma on_other_command_evolves user se slot event w w' alive :
  on_other_command quiet peers tasks user se slot event w = Some (w', alive) →
  ∃ tail, length tail ≤ 1 ∧ evolves w w' tail.
Proof.
  assert (∀ r t w w' b, ws_reply peers r t w = (w', b) →
    ∃ tail, length tail ≤ 1 ∧ evolves w w' tail) as Hr.
  { intros r t u u' b E. exists []. split; [simpl; lia|].
    by apply (reply_opt_evolves r (Some t) u u' b). }
  assert (∀ r t w w' b, reply_opt peers r t w = (w', b) →
    ∃ tail, length tail ≤ 1 ∧ evolves w w' tail) as Hre.
  { intros r t u u' b E. exists []. split; [simpl; lia|]. by eapply reply_opt_evolves. }
  unfold on_other_command, handle_browser_command, handle_deep_link,
    handle_connections_callback, handle_subscribe, handle_unknown.
  intros E. repeat case_match; simplify_eq; eauto.
  match goal with H1 : reply_opt _ _ _ _ = _, H2 : ws_emit _ _ _ _ = (_, ?b) |- _ =>
    apply ws_emit_evolves in H2; apply reply_opt_evolves in H1;
    exists (if b then [event] else []); split; [destruct b; simpl; lia|];
    eapply evolves_r; [destruct b; simpl; lia|exact H2|exact H1] end.
Qed.

Lemma on_message_evolves user sa se now_secs now id m w :
  ws_ok w →
  ∃ tail, length tail ≤ 17 ∧
    event_spec w (ws_on_message quiet peers tasks user sa se now_secs now id m w) tail.
Proof.
  intros Hok. unfold ws_on_message.
  assert (ws_ok (flush_pending quiet (interleave tasks w))) as Hokf.
  { eapply keeps_ok; [apply flush_pending_keeps|].
    eapply keeps_ok; [apply interleave_keeps, quiet_tasks_ok, Htasks|done]. }
  set (wf := flush_pending quiet (interleave tasks w)) in *.
  assert (∀ w' tail, length tail ≤ 17 → evolves wf w' tail → ∃ tail, length tail ≤ 17 ∧
    event_spec w w' tail) as Hev.
  { intros w' tail Hl E. exists tail. split; [done|by apply flushed_event]. }
  assert (∃ tail, length tail ≤ 17 ∧ event_spec w wf tail) as Hnil.
  { apply (Hev wf []); [simpl; lia|apply evolves_refl]. }
  destruct (ws_clients wf !! id) as [slot|] eqn:Hid; [|done].
  destruct m as [text|]; [|done]. destruct (cmd_from_str text) as [event|]; [|done].
  match goal with |- context [match ?x with Some _ => _ | None => _ end] =>
    destruct x as [[w0 alive]|] eqn:Hh; [|done] end.
  assert (ws_ok w0 ∧ ∃ tail, length tail ≤ 1 ∧ evolves wf w0 tail)
    as ([[Hc0 _] _] & tail & Hl & Hw0).
  { destruct (String.eqb (cmd_cmd event) "SET_ACTIVITY").
    - destruct sa; [|done]. injection Hh as Hh.
      split; [by eapply on_set_activity_ok; [apply quiet_tasks_ok, Htasks|..]|].
      by eapply on_set_activity_evolves.
    - split; [|by eapply on_other_command_evolves].
      apply (on_other_command_keeps _ _ _ (quiet_tasks_ok _ Htasks)) in Hh as [Hs Hq].
      destruct Hokf. split; [by eapply same_clients_ok|by apply Hq]. }
  destruct alive; [apply (Hev w0 tail); [lia|done]|].
  destruct (ws_clients w0 !! id) as [slot0|] eqn:Hid0.
  - destruct (Hc0 id slot0 Hid0) as [[_ Hsl] _]. unfold MAX_TRACKED_PIDS in Hsl.
    assert (length (tail ++ (clear_for_slot <$> cs_published slot0)) ≤ 17) as Hl17
      by (rewrite length_app, length_fmap; lia).
    eapply Hev; [exact Hl17|]. eapply evolves_trans; [done|exact Hw0|].
    by apply prune_evolves.
  - unfold remove_and_clear. rewrite Hid0. apply (Hev w0 tail); [lia|done].
Qed.
End Order.

(** C4: while the bridge takes nothing from the sink during an event and
    nothing staged expires in it, the retry tasks running meanwhile, the
    transport is a queue.  With a live receiver an event only appends to
    what is on its way, at most a command and the clears of one connection,
    so that no command overtakes another, and a disconnect appends exactly
    one clear per tracked pid, in the order of the connection's history;
    only when the staged queue passes its cap of 256 are its oldest
    commands gone, at most as many as were appended and none that the sink
    already had.  With the receiver gone the staged commands are dropped
    together or the stream stays. *)
Theorem ws_keeps_order `{Serde, IpcParse} peers tasks user sa se now_secs now ev w :
  ws_ok w → quiet_tasks tasks →
  let w' := ws_pump quiet peers tasks user sa se now_secs now ev w in
  (sink_closed (ws_sink w) = false → ∃ a n tail,
     stream w' = take a (stream w) ++ drop (a + n) (stream w) ++ tail ∧
     length tail ≤ 17 ∧ length (sink_queue (ws_sink w)) ≤ a ∧ n ≤ length tail ∧
     (n = 0 ∨ MAX_PENDING_COMMANDS < length (ws_pending w) + length tail) ∧
     match ev with
     | EvConnect _ _ => tail = []
     | EvDisconnect id _ => tail = default [] ((λ s, clear_for_slot <$> cs_published s)
                                               <$> ws_clients w !! id)
     | EvMessage _ _ => True
     end) ∧
  (sink_closed (ws_sink w) = true →
     stream w' = stream w ∨ stream w' = sink_queue (ws_sink w)).
Proof.
  intros Hok Ht. cbv zeta.
  assert (∃ tail, length tail ≤ 17 ∧
    event_spec w (ws_pump quiet peers tasks user sa se now_secs now ev w) tail ∧
    match ev with
    | EvConnect _ _ => tail = []
    | EvDisconnect id _ => tail = default [] ((λ s, clear_for_slot <$> cs_published s)
                                              <$> ws_clients w !! id)
    | EvMessage _ _ => True
    end) as (tail & Hl & [He Hc] & Hev).
  { destruct ev as [id r|id reason|id m]; simpl.
    - exists []. split; [simpl; lia|]. split; [|done]. unfold ws_on_connect.
      repeat case_match; by apply event_spec_same.
    - destruct (ws_clients w !! id) as [slot|] eqn:Hid; simpl.
      + destruct Hok as [[Hcl _] _]. destruct (Hcl id slot Hid) as [[_ Hsl] _].
        unfold MAX_TRACKED_PIDS in Hsl.
        destruct (remove_and_clear_evolves tasks Ht now id w slot Hid Hsl)
          as (wc & E & Es & Ep).
        eexists. split; [|split; [|done]]; [rewrite length_fmap; lia|].
        apply flushed_event in E; [|done|rewrite length_fmap; lia].
        unfold event_spec, open, stream, staged in E |- *. by rewrite Es, Ep in E.
      + exists []. split; [simpl; lia|]. split; [|done]. unfold remove_and_clear. rewrite Hid.
        by apply event_spec_same.
    - destruct (on_message_evolves peers tasks Ht user sa se now_secs now id m w Hok)
        as (tail & Hl & E). by exists tail. }
  split; [|done]. intros Ho. destruct (He Ho) as (a & n & E & Ha & Hn & Hsh).
  by exists a, n, tail.
Qed.

(** A clear can overtake an older publish of its own pid.  A publish is
    staged behind a full sink and the connection goes; the flush finds the
    sink still full, the bridge then takes one command, and the clear goes
    straight into the free place: downstream the card is cleared first and
    shown last, with nobody left to clear it. *)
Theorem ws_clear_overtakes_publish `{Serde, IpcParse} now id w slot p cmd deadline q0 qs :
  let bridge := λ k s, if decide (k = 3 + ws_access w) then
    {| sink_queue := tail (sink_queue s); sink_capacity := sink_capacity s;
       sink_closed := sink_closed s; sink_dropped := sink_dropped s |} else s in
  sink_closed (ws_sink w) = false → sink_queue (ws_sink w) = q0 :: qs →
  sink_capacity (ws_sink w) = S (length qs) →
  ws_pending w = [{| pe_payload := Publish cmd; pe_deadline := deadline |}] →
  ws_clients w !! id = Some slot → cs_published slot = [p] → ps_pid p = cmd_pid cmd →
  let w' := remove_and_clear bridge (λ _ w, w) now id w in
  stream w = q0 :: qs ++ [cmd] ∧ stream w' = qs ++ [clear_for_slot p; cmd] ∧
  ws_clients w' !! id = None.
Proof.
  intros bridge Hc Hq Hcap Hp Hid Hpub Hpid w'.
  split; [unfold stream, staged; by rewrite Hq, Hp|].
  unfold w', remove_and_clear, clear_all, offer. rewrite Hid, Hpub.
  unfold flush_pending. simpl. rewrite Hp. unfold flush_loop, try_emit, await_sink. simpl.
  assert (∀ s, bridge (S (ws_access w)) s = s) as Hb0.
  { intros s. unfold bridge. case_decide; [lia|done]. }
  rewrite Hb0, (try_send_full (ws_sink w)) by (split; [done|]; rewrite Hq; simpl; lia).
  simpl. unfold sink_try_send, bridge. case_decide; [|done]. simpl. rewrite Hc, Hq, Hcap. simpl.
  case_decide; [lia|]. unfold stream, staged. simpl.
  split; [by rewrite <-app_assoc|]. apply lookup_delete_eq.
Qed.

(** A flush into a sink whose receiver has gone drops the whole queue
    but counts one command too few. *)
Theorem ws_closed_flush_undercounts w e rest :
  sink_closed (ws_sink w) = true → ws_pending w = e :: rest →
  let w' := flush_pending quiet w in
  ws_pending w' = [] ∧ sink_queue (ws_sink w') = sink_queue (ws_sink w) ∧
  sink_dropped (ws_sink w')
  = wrap_u64 (sink_dropped (ws_sink w) + Z.of_nat (length (ws_pending w)) - 1).
Proof.
  intros Hc Hp. unfold flush_pending. rewrite Hp. simpl. unfold try_emit, await_sink, quiet.
  simpl. unfold sink_try_send. rewrite Hc. simpl. split_and!; [done|done|].
  f_equal. lia.
Qed.

(** A publish can be left staged with no task to retry it: between the
    pump's look at the backlog and its staging, the last retry task finds
    room, sends the backlog, fills the sink again and ends. *)
Module StrandedDemo.
Definition publisher : ClientId := 2%Z.
Definition responder : Responder := {|
  resp_id := publisher; resp_origin := None; resp_uri := "/?v=1&client_id=43" |}.
Definition start : Ws :=
  Ws_new 1 {[WsDemo.id := WsDemo.outbox; publisher := WsDemo.outbox]}.
(** A client shows a card and leaves behind a full sink: a staged clear
    with its task.  Another one has connected meanwhile. *)
Definition backlog : Ws :=
  WsDemo.pump (EvDisconnect WsDemo.id Clean)
    (WsDemo.pump (EvMessage WsDemo.id (Text "set"))
      (WsDemo.pump (EvConnect publisher responder)
        (WsDemo.pump (EvConnect WsDemo.id WsDemo.responder) start))).

(** The bridge takes one command and the task runs one round. *)
Definition take_one (k : nat) (s : EventSink) : EventSink :=
  {| sink_queue := tail (sink_queue s); sink_capacity := sink_capacity s;
     sink_closed := sink_closed s; sink_dropped := sink_dropped s |}.
Definition section (w : Ws) : Ws :=
  match ws_retries w with [] => w | _ => retry_section take_one 0 0 w end.
Definition round (w : Ws) : Ws := section (section (section w)).
(** It does so at the third access of the event that follows, when the
    pump has seen the backlog and not yet tried the sink. *)
Definition tasks (k : nat) (w : Ws) : Ws :=
  if decide (k = 3 + ws_access backlog) then round w else w.
Definition stranded : Ws :=
  @ws_pump demo_serde IpcDemo.parse quiet (λ _ n, n) tasks RpcUser_default true true
    1700000000 0 (EvMessage publisher (Text "set")) backlog.

Lemma section_steps w : rtc retry_step w (section w).
Proof.
  unfold section. destruct (ws_retries w) as [|ph l] eqn:E; [done|]. apply rtc_once.
  exists take_one, 0%Z, 0. rewrite E. split; [by eexists|done].
Qed.

Lemma tasks_run : tasks_ok tasks.
Proof.
  intros k w. unfold tasks, round. case_decide; [|done].
  etrans; [apply section_steps|]. etrans; [apply section_steps|apply section_steps].
Qed.

Lemma backlog_reached : rtc (@ws_step demo_serde IpcDemo.parse) start backlog.
Proof.
  unfold backlog. eapply rtc_r; [|apply WsDemo.pump_step; exact I].
  eapply rtc_r; [|apply WsDemo.pump_step; exact I].
  eapply rtc_r; [|apply WsDemo.pump_step; vm_compute; reflexivity].
  apply rtc_once, WsDemo.pump_step. reflexivity.
Qed.
End StrandedDemo.

Theorem staged_publish_can_be_stranded :
  ∃ (S : Serde) (P : IpcParse) event_queue net w e cmd,
    rtc ws_step (Ws_new event_queue net) w ∧
    ws_pending w = [e] ∧ pe_payload e = Publish cmd ∧ is_some (cmd_activity cmd) = true ∧
    ws_retries w = [].
Proof.
  exists demo_serde, IpcDemo.parse, 1,
    {[WsDemo.id := WsDemo.outbox; StrandedDemo.publisher := WsDemo.outbox]},
    StrandedDemo.stranded.
  assert (rtc (@ws_step demo_serde IpcDemo.parse) StrandedDemo.start StrandedDemo.stranded) as Hr.
  { apply (rtc_r _ StrandedDemo.backlog); [exact StrandedDemo.backlog_reached|].
    unfold StrandedDemo.stranded. apply step_pump; [exact StrandedDemo.tasks_run|exact I]. }
  destruct (ws_pending StrandedDemo.stranded) as [|e q] eqn:E; [vm_compute in E; discriminate|].
  destruct (pe_payload e) as [cmd|c] eqn:Ep; vm_compute in E; injection E as <- <-;
    [|discriminate]. injection Ep as <-.
  eexists _, _. split; [exact Hr|]. split_and!; vm_compute; reflexivity.
Qed.

(** ** Replies *)

(** Whether a command gets a reply at all: [SET_ACTIVITY] not when the
    feature is off or the command has no [args], the browser, deep-link and
    connection commands not when the secondary events are off. *)
Definition answered (set_activity secondary_events : bool) (event : ActivityCmd) : bool :=
  if String.eqb (cmd_cmd event) "SET_ACTIVITY" then
    set_activity && is_some (cmd_args event)
  else if decide (cmd_cmd event ∈ ["INVITE_BROWSER"; "GUILD_TEMPLATE_BROWSER";
    "GIFT_CODE_BROWSER"; "DEEP_LINK"; "CONNECTIONS_CALLBACK"]) then secondary_events
  else true.

Section Replies.
Context `{Serde, IpcParse}.
Variable bridge : nat → EventSink → EventSink.
Variable tasks : nat → Ws → Ws.
Hypothesis Htasks : tasks_ok tasks.
Abbreviation still := (λ (_ : nat) (n : Net), n).

(** The outbox of [r] takes a message once the wait of the reply is over. *)
Definition has_room (net : Net) (r : Responder) : bool :=
  match net !! resp_id r with
  | Some ob => negb (ob_closed ob) && bool_decide (length (ob_queue ob) < ob_cap ob)
  | None => false
  end.

(** One reply was queued for [r], and nothing else was sent. *)
Definition replied (net : Net) (r : Responder) (net' : Net) : Prop :=
  ∃ ob text, net !! resp_id r = Some ob ∧
    net' = <[resp_id r := push ob (CmdMessage (Text text))]> net.

(** The outcome of a handler whose reply is due or not. *)
Definition handled_as (due : bool) (r : Responder) (w w' : Ws) (alive : bool) : Prop :=
  if due then
    if has_room (ws_net w) r then alive = true ∧ replied (ws_net w) r (ws_net w')
    else alive = false ∧ ws_net w' = ws_net w
  else alive = true ∧ ws_net w' = ws_net w.

Lemma ws_reply_handled r t w w' alive :
  ws_reply still r t w = (w', alive) →
  ws_clients w' = ws_clients w ∧ handled_as true r w w' alive.
Proof.
  unfold ws_reply, try_send, handled_as, has_room, replied. simpl. intros E.
  destruct (ws_net w !! resp_id r) as [ob|] eqn:Hr; [|by simplify_eq/=].
  destruct (ob_closed ob); simpl; [by simplify_eq/=|].
  case_decide; simplify_eq/=.
  - by rewrite bool_decide_eq_false_2 by lia.
  - rewrite bool_decide_eq_true_2 by lia. split_and!; [done..|]. by exists ob, t.
Qed.

Lemma reply_some_handled r v w w' alive :
  SerdeTotal → reply_opt still r (json_to_string v) w = (w', alive) →
  ws_clients w' = ws_clients w ∧ handled_as true r w w' alive.
Proof.
  intros HT E. destruct (json_to_string_total v) as [t Ht]. rewrite Ht in E.
  by eapply ws_reply_handled.
Qed.

Lemma on_other_command_replies user se slot event w :
  SerdeTotal → cmd_cmd event ≠ "SET_ACTIVITY" →
  match on_other_command bridge still tasks user se slot event w with
  | Some (w', alive) => ws_clients w' = ws_clients w ∧
      handled_as (answered true se event) (cs_responder slot) w w' alive
  | None => answered true se event = false
  end.
Proof.
  intros HT Hcmd. unfold answered. apply String.eqb_neq in Hcmd. rewrite Hcmd.
  unfold on_other_command. set (r := cs_responder slot).
  destruct (decide (cmd_cmd event ∈ ["INVITE_BROWSER"; "GUILD_TEMPLATE_BROWSER"; "GIFT_CODE_BROWSER"]))
    as [Hb|Hb].
  { rewrite decide_True by set_solver. destruct se; [|done].
    unfold handle_browser_command. destruct (browser_error _) as [code msg].
    destruct (negb _); [destruct (ws_reply _ _ _ _) eqn:E; by eapply ws_reply_handled|].
    destruct (ws_emit bridge tasks event w) as [w1 b] eqn:E1.
    apply (ws_emit_keeps bridge tasks Htasks) in E1 as ((Hc & _) & Hn & _).
    destruct (reply_opt _ _ _ _) as [w2 al] eqn:E2.
    apply reply_some_handled in E2 as [Hc2 Hh]; [|done]. split; [congruence|].
    unfold handled_as in *. by rewrite Hn in Hh. }
  destruct (String.eqb_spec (cmd_cmd event) "DEEP_LINK") as [Hd|Hd].
  { rewrite decide_True by (rewrite Hd; set_solver). destruct se; [|done].
    unfold handle_deep_link. destruct (reply_opt _ _ _ _) eqn:E. by eapply reply_some_handled. }
  destruct (String.eqb_spec (cmd_cmd event) "CONNECTIONS_CALLBACK") as [Hcc|Hcc].
  { rewrite decide_True by (rewrite Hcc; set_solver). destruct se; [|done].
    unfold handle_connections_callback. destruct (reply_opt _ _ _ _) eqn:E.
    by eapply reply_some_handled. }
  rewrite (decide_False (P := cmd_cmd event ∈ [_; _; _; _; _])) by set_solver.
  unfold handle_subscribe, handle_unknown.
  repeat case_match; simplify_eq; by eapply ws_reply_handled.
Qed.

Lemma set_activity_response_due c :
  SerdeTotal → is_some ((set_activity_response c).2) = is_some (cmd_args c).
Proof.
  intros HT. unfold set_activity_response, map_activity. simpl.
  destruct (cmd_args c) as [args|] eqn:Ha; simpl; rewrite ?Ha; [|done]. simpl.
  match goal with |- is_some (json_to_string ?v) = _ =>
    by destruct (json_to_string_total v) as [? ->] end.
Qed.

Lemma on_set_activity_replies id now_secs now slot event w w' alive :
  SerdeTotal → ws_clients w !! id = Some slot →
  on_set_activity bridge still tasks id now_secs now slot event w = (w', alive) →
  is_Some (ws_clients w' !! id) ∧
  handled_as (is_some (cmd_args event)) (cs_responder slot) w w' alive.
Proof.
  intros HT Hid. unfold on_set_activity. intros E.
  match type of E with context [let '(_, _) := ?x in _] => destruct x as [w1 adm] eqn:E1 end.
  assert (ws_net w1 = ws_net w ∧ is_Some (ws_clients w1 !! id)) as [Hn1 Hi1].
  { repeat case_match; simplify_eq/=; split; try done; rewrite ?lookup_insert_eq; by eexists. }
  destruct (interleave_keeps tasks Htasks w1) as ((Hci & _) & Hni & _).
  set (wi := interleave tasks w1) in *. rewrite <-Hci in Hi1. rewrite <-Hni in Hn1.
  destruct (ws_set_activity _ _ _ _ _ _ _ _ _ _ _) as [[w2 al] d] eqn:E2.
  assert (is_Some (ws_clients w2 !! id) ∧
    handled_as (is_some (cmd_args event)) (cs_responder slot) w w2 al) as [Hi2 Hh].
  { unfold ws_set_activity in E2.
    match type of E2 with context [set_activity_response ?c] =>
      assert (is_some (set_activity_response c).2 = is_some (cmd_args event)) as Hdue by
        (rewrite set_activity_response_due by done; unfold fix_cmd, map_activity;
         destruct (cmd_application_id event); simpl; by destruct (cmd_args event));
      destruct (set_activity_response c) as [ev resp]; simpl in Hdue end.
    match type of E2 with context [let '(_, _) := ?x in _] => destruct x as [w3 d3] eqn:E3 end.
    assert (ws_net w3 = ws_net w ∧ is_Some (ws_clients w3 !! id)) as [Hn3 Hi3].
    { destruct (forward_of _ _ _).
      - apply (ws_emit_keeps bridge tasks Htasks) in E3 as ((-> & _) & -> & _). by rewrite Hn1.
      - apply (emit_or_stage_keeps bridge tasks Htasks) in E3 as ((-> & _) & -> & _).
        by rewrite Hn1.
      - by simplify_eq. }
    set (w4 := if d3 then _ else w3) in E2.
    assert (ws_net w4 = ws_net w ∧ ws_clients w4 = ws_clients w3) as [Hn4 Hc4] by (by destruct d3).
    clearbody w4. rewrite <-Hdue, <-Hc4 in *. destruct resp as [t|]; simpl in E2.
    - destruct (ws_reply _ _ _ _) as [w5 b] eqn:E5. simplify_eq.
      apply ws_reply_handled in E5 as [-> Hh]. split; [done|].
      unfold handled_as in *. by rewrite Hn4 in Hh.
    - simplify_eq. by split. }
  simplify_eq. unfold update_client. destruct Hi2 as [s2 Hi2]. rewrite Hi2.
  repeat case_match; simpl; rewrite ?lookup_insert_eq; by split; [eexists|].
Qed.
End Replies.

(** C26: a registered client's command is answered exactly once (a reply
    too many or missing stalls a lock-step client): its outbox gains one
    text message, no other outbox changes and it stays registered, whether
    the command is forwarded, refused or shed and whatever the bridge and
    the retry tasks do meanwhile.  A client whose outbox is closed or full
    and stays so is pruned instead (no peer reads its outbox during the
    event).  The commands that get no reply are exactly those of a feature
    that is off and a [SET_ACTIVITY] without [args].  The serializer is
    assumed total. *)
Theorem ws_commands_answered_once `{Serde, IpcParse} bridge tasks user sa se now_secs now
    id text event slot w :
  SerdeTotal → tasks_ok tasks →
  ws_clients w !! id = Some slot → cmd_from_str text = Some event →
  let w' := ws_on_message bridge (λ _ n, n) tasks user sa se now_secs now id (Text text) w in
  let r := cs_responder slot in
  if answered sa se event then
    if has_room (ws_net w) r then is_Some (ws_clients w' !! id) ∧ replied (ws_net w) r (ws_net w')
    else ws_clients w' !! id = None ∧ ws_net w' = ws_net w
  else is_Some (ws_clients w' !! id) ∧ ws_net w' = ws_net w.
Proof.
  intros HT Ht Hid Hev. cbv zeta. unfold ws_on_message.
  destruct (interleave_keeps tasks Ht w) as ((Hci & _) & Hni & _).
  destruct (flush_pending_keeps bridge (interleave tasks w)) as ((Hc & _) & Hn & _).
  set (wf := flush_pending bridge (interleave tasks w)) in *.
  rewrite Hci in Hc. rewrite Hni in Hn. rewrite Hc, Hid, Hev.
  assert (∀ w0 (alive : bool), is_Some (ws_clients w0 !! id) →
    handled_as (answered sa se event) (cs_responder slot) wf w0 alive →
    let w' := if alive then w0 else remove_and_clear bridge tasks now id w0 in
    if answered sa se event then
      if has_room (ws_net w) (cs_responder slot)
      then is_Some (ws_clients w' !! id) ∧ replied (ws_net w) (cs_responder slot) (ws_net w')
      else ws_clients w' !! id = None ∧ ws_net w' = ws_net w
    else is_Some (ws_clients w' !! id) ∧ ws_net w' = ws_net w) as Hfin.
  { intros w0 alive Hi0. unfold handled_as. rewrite Hn.
    destruct (remove_and_clear_spec bridge tasks Ht now id w0) as (_ & Hrn & _ & Hrc & _).
    destruct (answered _ _ _); [destruct (has_room _ _)|]; intros [-> Hh]; simpl; [done| |done].
    rewrite Hrc, Hrn, Hh. by rewrite lookup_delete_eq. }
  destruct (String.eqb (cmd_cmd event) "SET_ACTIVITY") eqn:E.
  - destruct sa.
    + destruct (on_set_activity _ _ _ _ _ _ _ _ _) as [w0 alive] eqn:E0.
      apply on_set_activity_replies in E0 as [Hi0 Hh]; [|done|done|by rewrite Hc].
      apply Hfin; [done|]. unfold answered. by rewrite E.
    + unfold answered. rewrite E. simpl. rewrite Hc, Hn, Hid. by split; [eexists|].
  - apply String.eqb_neq in E as E'.
    pose proof (on_other_command_replies bridge tasks Ht user se slot event wf HT E') as Ho.
    assert (answered true se event = answered sa se event) as Ea by (unfold answered; by rewrite E).
    rewrite Ea in Ho. destruct (on_other_command _ _ _ _ _ _ _ _) as [[w0 alive]|].
    + destruct Ho as [Hc0 Hh]. apply Hfin; [|done]. rewrite Hc0, Hc, Hid. by eexists.
    + rewrite Ho, Hc, Hn, Hid. by split; [eexists|].
Qed.

(** ** Shutdown *)

Section ShutdownProps.
Context `{HashOrder}.

Definition tracked_clears (w : Ws) : list ActivityCmd :=
  hm_iter (ws_clients w) ≫= λ kv, clear_for_slot <$> cs_published kv.2.

(** Every staged command expires within the budget of a clear staged now. *)
Definition deadlines_within (now : Z) (w : Ws) : Prop :=
  Forall (λ e, (pe_deadline e ≤ now + DISCONNECT_CLEAR_BUDGET)%Z) (ws_pending w).

(** What staging a list of clears does. *)
Lemma stage_clears_spec now l w :
  let w' := foldl (λ w p, stage_clear now p w) w l in
  ws_clients w' = ws_clients w ∧ ws_total w' = ws_total w ∧
  (deadlines_within now w → deadlines_within now w') ∧
  (length (ws_pending w) + length l ≤ MAX_PENDING_COMMANDS →
   ws_sink w' = ws_sink w ∧
   length (ws_pending w') = length (ws_pending w) + length l ∧
   stream w' = stream w ++ (clear_for_slot <$> l)).
Proof.
  revert w. induction l as [|p l IH]; intros w; simpl.
  { split_and!; [done..|]. intros _. split_and!; [done|lia|by rewrite app_nil_r]. }
  specialize (IH (stage_clear now p w)) as (Hc & Ht & Hd & Hs).
  assert (ws_clients (stage_clear now p w) = ws_clients w ∧
    ws_total (stage_clear now p w) = ws_total w) as [Hc0 Ht0].
  { unfold stage_clear, stage_entry. by case_decide. }
  rewrite Hc, Ht, Hc0, Ht0. split_and!; [done..| |].
  - intros Hw. apply Hd. unfold deadlines_within, stage_clear, stage_entry in *.
    case_decide; simpl; apply Forall_app; (split; [|repeat constructor; simpl; lia]); [|done].
    destruct (ws_pending w); [done|]. by apply Forall_cons in Hw as [_ ?].
  - intros Hl. set (w' := foldl _ _ l) in *. clearbody w'.
    unfold stage_clear, stage_entry in Hs. rewrite decide_False in Hs by lia.
    simpl in Hs. rewrite length_app in Hs. simpl in Hs.
    destruct Hs as (Hk & Hn & Hst); [lia|]. split_and!; [done|lia|].
    rewrite Hst. unfold stream, staged. simpl. rewrite fmap_app. simpl.
    by rewrite clear_for_slot_into, <-!app_assoc.
Qed.

Lemma shutdown_stage_fold now l w :
  let w' := foldl (λ w (kv : ClientId * ClientSlot),
      foldl (λ w published, stage_clear now published w)
        (set_clients (ws_clients w) (wrap_u64 (ws_total w - 1)) w) (cs_published kv.2)) w l in
  let clears := l ≫= λ kv, clear_for_slot <$> cs_published kv.2 in
  wrap_u64 (ws_total w') = wrap_u64 (ws_total w - Z.of_nat (length l)) ∧
  (deadlines_within now w → deadlines_within now w') ∧
  (length (ws_pending w) + length clears ≤ MAX_PENDING_COMMANDS →
   ws_sink w' = ws_sink w ∧ stream w' = stream w ++ clears).
Proof.
  revert w. induction l as [|kv l IH]; intros w; simpl.
  { rewrite app_nil_r. split_and!; [f_equal; lia|done..]. }
  set (w0 := set_clients _ _ w).
  destruct (stage_clears_spec now (cs_published kv.2) w0) as (_ & Ht & Hd & Hs).
  set (w1 := foldl _ w0 _) in *. destruct (IH w1) as (Ht' & Hd' & Hs').
  split_and!.
  - rewrite Ht', Ht. unfold w0, wrap_u64. simpl. rewrite Zminus_mod_idemp_l. f_equal. lia.
  - intros Hw. by apply Hd', Hd.
  - rewrite length_app, length_fmap. intros Hl. destruct Hs as (Hk & Hn & Hst).
    { change (ws_pending w0) with (ws_pending w). lia. }
    change (ws_pending w0) with (ws_pending w) in Hn.
    destruct Hs' as [Hk' Hst']; [rewrite Hn; unfold mbind in *; lia|].
    rewrite Hk', Hst', Hk, Hst. split; [done|]. by rewrite <-app_assoc.
Qed.

Lemma drain_batch_returns waits now i batch w :
  Forall (λ e, (pe_deadline e ≤ now + DISCONNECT_CLEAR_BUDGET)%Z) batch →
  (∀ i k, (now + Z.of_nat k * RETRY_SLEEP_MS ≤ (waits i).2 k)%Z) →
  ∃ w', drain_batch waits i batch w = Some w' ∧ ws_clients w' = ws_clients w ∧
    ws_total w' = ws_total w ∧ ws_pending w' = ws_pending w.
Proof.
  intros Hb Hclk. revert i w. induction Hb as [|e batch He Hb IH]; intros i w; [by exists w|].
  cbn [drain_batch]. unfold emit_clear_retry.
  destruct (emit_clear_loop_returns (waits i).1 (waits i).2 RETRY_ATTEMPTS (pe_deadline e)
    (ws_sink w) (payload_into_cmd (pe_payload e))) as (k & s & _ & -> & _).
  { exists 1000. specialize (Hclk i 1000).
    unfold RETRY_ATTEMPTS, RETRY_SLEEP_MS, DISCONNECT_CLEAR_BUDGET in *. lia. }
  destruct (IH (S i) (set_sink s w)) as (w' & -> & ? & ? & ?). by exists w'.
Qed.

Lemma flush_loop_room q w :
  open w → length (sink_queue (ws_sink w)) + length q ≤ sink_capacity (ws_sink w) →
  ws_pending (flush_loop quiet q w) = [] ∧
  sink_queue (ws_sink (flush_loop quiet q w))
  = sink_queue (ws_sink w) ++ ((λ e, payload_into_cmd (pe_payload e)) <$> q).
Proof.
  revert w. induction q as [|e q IH]; intros w Ho Hl; simpl in *.
  { by rewrite app_nil_r. }
  unfold try_emit, await_sink, quiet, sink_try_send, open in *. simpl in *. rewrite Ho.
  rewrite decide_False by lia. simpl.
  destruct (IH (set_sink {| sink_queue := sink_queue (ws_sink w) ++ [payload_into_cmd (pe_payload e)];
    sink_capacity := sink_capacity (ws_sink w); sink_closed := false;
    sink_dropped := sink_dropped (ws_sink w) |} (next_access (set_sink (ws_sink w) w)))) as [Hp Hq];
    [done|simpl; rewrite length_app; simpl; lia|].
  split; [done|]. rewrite Hq. simpl. by rewrite <-app_assoc.
Qed.
End ShutdownProps.

(** C28: a shutdown always ends: with a millisecond between attempts every
    staged command is sent or given up by its own deadline, however long
    the bridge leaves the sink full.  Then no client and nothing staged is
    left and the client total is zero, and when the sink has room all that
    was on its way is in it, followed by one clear per pid still tracked. *)
Theorem ws_shutdown_drains `{HashOrder} bridge waits now w :
  ws_ok w → deadlines_within now w →
  (∀ i k, now + Z.of_nat k * RETRY_SLEEP_MS ≤ (waits i).2 k)%Z →
  ∃ w', ws_shutdown bridge waits now w = Some w' ∧
    ws_clients w' = ∅ ∧ ws_pending w' = [] ∧ wrap_u64 (ws_total w') = 0%Z ∧
    (bridge = quiet → sink_closed (ws_sink w) = false →
     length (ws_pending w) + length (tracked_clears w) ≤ MAX_PENDING_COMMANDS →
     length (stream w) + length (tracked_clears w) ≤ sink_capacity (ws_sink w) →
     sink_queue (ws_sink w') = stream w ++ tracked_clears w).
Proof.
  intros [[_ Ht] _] Hd Hclk. unfold ws_shutdown.
  assert (ws_clients (shutdown_stage now w) = ∅ ∧
    wrap_u64 (ws_total (shutdown_stage now w)) = 0%Z ∧
    deadlines_within now (shutdown_stage now w) ∧
    (length (ws_pending w) + length (tracked_clears w) ≤ MAX_PENDING_COMMANDS →
     ws_sink (shutdown_stage now w) = ws_sink w ∧
     stream (shutdown_stage now w) = stream w ++ tracked_clears w)) as (Hc0 & Ht0 & Hd0 & Hs0).
  { destruct (shutdown_stage_fold now (hm_iter (ws_clients w)) w) as (Htf & Hdf & Hsf).
    split_and!; [done| |by apply Hdf|by apply Hsf].
    unfold shutdown_stage. simpl. rewrite Htf, Ht, hm_iter_length.
    unfold wrap_u64. rewrite Zminus_mod_idemp_l, Z.sub_diag. done. }
  set (w0 := shutdown_stage now w) in *.
  destruct (flush_pending_same bridge w0) as ((Hcf & Htf & _) & _ & _ & n & Hn).
  assert (bridge = quiet → sink_closed (ws_sink w) = false →
     length (ws_pending w) + length (tracked_clears w) ≤ MAX_PENDING_COMMANDS →
     length (stream w) + length (tracked_clears w) ≤ sink_capacity (ws_sink w) →
     ws_pending (flush_pending bridge w0) = [] ∧
     sink_queue (ws_sink (flush_pending bridge w0)) = stream w ++ tracked_clears w) as Hroom.
  { intros -> Ho Hl Hcap. destruct (Hs0 Hl) as [Hk Hst]. unfold flush_pending.
    destruct (flush_loop_room (ws_pending w0) w0) as [Hp Hq].
    - unfold open. by rewrite Hk.
    - apply (f_equal length) in Hst. unfold stream in Hst at 1. unfold staged in Hst at 1.
      rewrite !length_app, length_fmap in Hst. rewrite Hk in *. lia.
    - split; [done|]. rewrite Hq, <-Hst. done. }
  assert (deadlines_within now (flush_pending bridge w0)) as Hdf.
  { unfold deadlines_within. rewrite Hn. by apply Forall_drop. }
  set (wf := flush_pending bridge w0) in *. clearbody wf. cbn [drain_loop].
  destruct (ws_pending wf) as [|e q] eqn:Hp.
  { exists wf. rewrite Hcf, Htf. split_and!; [done..|]. intros. by apply Hroom. }
  unfold deadlines_within in Hdf. rewrite Hp in Hdf.
  destruct (drain_batch_returns waits now 0 (e :: q) (set_pending [] wf) Hdf Hclk)
    as (w' & -> & Hc' & Ht' & Hp').
  rewrite Hp'. exists w'. rewrite Hc', Ht', Hp'. simpl. rewrite Hcf, Htf.
  split_and!; [done..|]. intros Hq Ho Hl Hcap. by destruct (Hroom Hq Ho Hl Hcap).
Qed.

(** ** Witnesses *)

Lemma demo_publishing_ok : ws_ok WsDemo.publishing.
Proof. exact (ws_reachable_ok _ _ _ WsDemo.publishing_reached). Qed.

Lemma demo_quiet_tasks : quiet_tasks (λ _ w, w).
Proof. intros k w. constructor. Qed.

(** The tracked card of a client that leaves. *)
Lemma ws_keeps_order_witness :
  ∃ a n tail, stream (WsDemo.pump (EvDisconnect WsDemo.id Clean) WsDemo.publishing)
    = take a (stream WsDemo.publishing) ++ drop (a + n) (stream WsDemo.publishing) ++ tail ∧
    n = 0 ∧ length tail = 1.
Proof.
  destruct (@ws_keeps_order demo_serde IpcDemo.parse (λ _ n, n) (λ _ w, w) RpcUser_default
    true true 1700000000 0 (EvDisconnect WsDemo.id Clean) WsDemo.publishing)
    as [Ho _]; [exact demo_publishing_ok|exact demo_quiet_tasks|].
  destruct Ho as (a & n & tail & E & Hl & _ & _ & Hn & Ht); [vm_compute; reflexivity|].
  exists a, n, tail. split; [exact E|]. split.
  - destruct Hn as [Hn|Hn]; [exact Hn|]. exfalso. revert Hn. unfold MAX_PENDING_COMMANDS.
    assert (length (ws_pending WsDemo.publishing) = 0) as Hz by (vm_compute; reflexivity).
    rewrite Hz. simpl. lia.
  - rewrite Ht. vm_compute. reflexivity.
Defined.

(** The same client, a second publish staged behind the first. *)
Definition demo_slot : PublishedSlot :=
  {| ps_app_id := Some "1111"; ps_pid := 77; ps_nonce := VString "n1" |}.
Definition demo_backlog : Ws :=
  set_pending [{| pe_payload := Publish demo_cmd; pe_deadline := 0 |}] WsDemo.publishing.

Lemma ws_clear_overtakes_publish_witness :
  ∃ bridge q0, stream demo_backlog = [q0; demo_cmd] ∧
    stream (remove_and_clear bridge (λ _ w, w) 0 WsDemo.id demo_backlog)
    = [clear_for_slot demo_slot; demo_cmd].
Proof.
  set (slot := default {| cs_responder := WsDemo.responder; cs_published := [];
    cs_query_client_id := None |} (ws_clients demo_backlog !! WsDemo.id)).
  eexists _, (default demo_cmd (head (sink_queue (ws_sink demo_backlog)))).
  destruct (@ws_clear_overtakes_publish demo_serde IpcDemo.parse 0 WsDemo.id demo_backlog slot
    demo_slot demo_cmd 0 (default demo_cmd (head (sink_queue (ws_sink demo_backlog)))) [])
    as (A & B & _); [vm_compute; reflexivity..|].
  split; [exact A|exact B].
Defined.

Definition demo_closed : Ws :=
  set_sink {| sink_queue := []; sink_capacity := 1; sink_closed := true; sink_dropped := 0 |}
    demo_backlog.

Lemma ws_closed_flush_undercounts_witness :
  length (ws_pending demo_closed) = 1 ∧ ws_pending (flush_pending quiet demo_closed) = [] ∧
  sink_dropped (ws_sink (flush_pending quiet demo_closed)) = 0%Z.
Proof.
  split; [reflexivity|].
  destruct (ws_closed_flush_undercounts demo_closed
    {| pe_payload := Publish demo_cmd; pe_deadline := 0 |} []) as (A & _ & B);
    [reflexivity..|]. split; [exact A|exact B].
Defined.

Lemma ws_commands_answered_once_witness :
  let w := WsDemo.pump (EvMessage WsDemo.id (Text "set")) WsDemo.connected in
  is_Some (ws_clients w !! WsDemo.id) ∧
  replied (ws_net WsDemo.connected) WsDemo.responder (ws_net w).
Proof.
  set (slot := {| cs_responder := WsDemo.responder; cs_published := [];
    cs_query_client_id := Some "42" |}).
  assert (answered true true demo_cmd = true) as Ha by (vm_compute; reflexivity).
  assert (has_room (ws_net WsDemo.connected) (cs_responder slot) = true) as Hr
    by (vm_compute; reflexivity).
  pose proof (@ws_commands_answered_once demo_serde IpcDemo.parse (λ _ s, s) (λ _ w, w)
    RpcUser_default true true 1700000000 0 WsDemo.id "set" demo_cmd slot WsDemo.connected
    demo_serde_total WsDemo.idle_tasks) as A.
  cbv zeta in A. rewrite Ha, Hr in A. apply A; vm_compute; reflexivity.
Defined.

(** A sink that stays full: the clear is given up at its deadline. *)
Lemma ws_shutdown_drains_witness :
  ∃ w', ws_shutdown (H := default_order) quiet
      (λ _, (λ _ s, s, λ k, Z.of_nat k * RETRY_SLEEP_MS)%Z) 0 WsDemo.publishing = Some w' ∧
    ws_clients w' = ∅ ∧ ws_pending w' = [].
Proof.
  destruct (@ws_shutdown_drains default_order quiet
    (λ _, (λ _ s, s, λ k, Z.of_nat k * RETRY_SLEEP_MS)%Z) 0%Z WsDemo.publishing)
    as (w' & A & B & C & _).
  - exact demo_publishing_ok.
  - change (Forall (λ e, (pe_deadline e ≤ 0 + DISCONNECT_CLEAR_BUDGET)%Z) []). constructor.
  - intros i k. simpl. lia.
  - exists w'. split; [exact A|split; [exact B|exact C]].
Defined.
