(* ===== verification/WsServerProps.v ===== *)
(** * What the WebSocket server guarantees

    Admission, ids and permits; the events of one connection; the outbox
    of a connection that has gone; the end of every connection after a
    shutdown; and that the events drive the game transport as its
    invariant assumes. *)

From stdpp Require Import base gmap strings list fin_maps sets relations.
From S2P Require Import Prelude RStr HashMaps Json Ids Cmd User Protocol IpcFrame IpcSink.
From S2P Require Import IpcPump Consumers WsServer WsTransport WsProps.

Local Open Scope string_scope.
Local Open Scope nat_scope.
Local Open Scope list_scope.

(** Binding re-checks every bound the builder checks, in the same order
    and with the same errors, so a configuration changed by hand after
    [build] is refused exactly when [build] would have refused it. *)
Theorem bind_checks_like_build c listener next_id :
  server_bind c listener next_id
  = match build c with
    | inl e => inl e
    | inr c => match listener with
               | inl e => inl e
               | inr _ => server_bind c (inr ()) next_id
               end
    end.
Proof. unfold server_bind, build. by repeat case_decide; destruct listener. Qed.

(** ** Sessions

    The abstract contract of the hub: one connection is announced once,
    sends messages while it is open and is retired once. *)
Inductive session := NotYet | Open | Over.

Definition session_step (id : ClientId) (st : option session) (e : Event) : option session :=
  if decide (event_id e = id) then
    match st, e with
    | Some NotYet, EvConnect _ _ => Some Open
    | Some Open, EvMessage _ _ => Some Open
    | Some Open, EvDisconnect _ _ => Some Over
    | _, _ => None
    end
  else st.

Definition session_of (id : ClientId) (log : list Event) : option session :=
  foldl (session_step id) (Some NotYet) log.

Lemma session_of_app id log e :
  session_of id (log ++ [e]) = session_step id (session_of id log) e.
Proof. unfold session_of. by rewrite foldl_app. Qed.

Lemma session_of_other id log e :
  event_id e ≠ id → session_of id (log ++ [e]) = session_of id log.
Proof. intros Hn. rewrite session_of_app. unfold session_step. by rewrite decide_False. Qed.

Definition announced (p : ConnPhase) : bool :=
  match p with Handshaking | SendingConnect _ => false | _ => true end.

Definition has_outbox (p : ConnPhase) : bool :=
  match p with Handshaking => false | _ => true end.

Definition outbox_live (net : Net) (id : ClientId) : Prop :=
  ∃ ob, net !! id = Some ob ∧ ob_closed ob = false.

(** What holds of one id: its events, its task and its outbox agree. *)
Definition id_ok (s : Server) (id : ClientId) : Prop :=
  match srv_conns s !! id with
  | Some p =>
      session_of id (srv_sent s) = Some (if announced p then Open else NotYet) ∧
      (0 ≤ id < srv_next_id s)%Z ∧ (has_outbox p = true → outbox_live (srv_net s) id) ∧
      (has_outbox p = false → ¬ outbox_live (srv_net s) id)
  | None =>
      (∃ st, session_of id (srv_sent s) = Some st ∧
        (st = Open → srv_cancelled s = true ∨ srv_hub_closed s = true) ∧
        (srv_next_id s ≤ id → st = NotYet)%Z) ∧
      ¬ outbox_live (srv_net s) id
  end.

Definition server_ok (cfg : ServerConfig) (s : Server) : Prop :=
  size (srv_conns s) + srv_permits s = max_connections cfg ∧
  srv_reject_permits s ≤ MAX_PENDING_REJECTS ∧
  (0 ≤ srv_next_id s)%Z ∧
  length (srv_hub s) ≤ event_queue cfg ∧
  ∀ id, id_ok s id.

Section ServerInv.
Variable cfg : ServerConfig.

Lemma outbox_live_alter f id id' net :
  (∀ ob, ob_closed (f ob) = ob_closed ob) →
  outbox_live (alter f id net) id' ↔ outbox_live net id'.
Proof.
  intros Hf. unfold outbox_live. destruct (decide (id = id')) as [->|Hn].
  - rewrite lookup_alter_eq. destruct (net !! id') as [ob|]; simpl.
    + split; intros (o & [= <-] & Hc); eexists; (split; [done|]); by rewrite ?Hf in *.
    + split; by intros (? & [=] & _).
  - by rewrite lookup_alter_ne.
Qed.

Lemma outbox_live_push net id ob c id' :
  net !! id = Some ob → outbox_live (<[id := push ob c]> net) id' ↔ outbox_live net id'.
Proof.
  intros Hid. unfold outbox_live. destruct (decide (id = id')) as [->|Hn].
  - rewrite lookup_insert_eq, Hid.
    split; intros (o & [= <-] & Hc); by eexists.
  - by rewrite lookup_insert_ne.
Qed.

Lemma outbox_live_try_send net id m id' :
  outbox_live (try_send net id m).1 id' ↔ outbox_live net id'.
Proof.
  unfold try_send. destruct (net !! id) as [ob|] eqn:Hid; [|done].
  destruct (ob_closed ob); [done|]. case_decide; [done|]. by apply outbox_live_push.
Qed.

Lemma outbox_live_close net id code id' :
  outbox_live (close net id code) id' ↔ outbox_live net id'.
Proof.
  unfold close. destruct (net !! id) as [ob|] eqn:Hid; [|done].
  destruct (ob_closed ob); [done|]. by apply outbox_live_push.
Qed.

(** A state that only differs where no connection looks. *)
Lemma id_ok_same s s' id :
  srv_conns s' !! id = srv_conns s !! id →
  session_of id (srv_sent s') = session_of id (srv_sent s) →
  (srv_next_id s ≤ srv_next_id s')%Z →
  (outbox_live (srv_net s') id ↔ outbox_live (srv_net s) id) →
  (srv_cancelled s = true → srv_cancelled s' = true) →
  (srv_hub_closed s = true → srv_hub_closed s' = true) →
  id_ok s id → id_ok s' id.
Proof.
  unfold id_ok. intros -> -> Hn Hl Hc Hh. destruct (srv_conns s !! id).
  - rewrite Hl. intros (? & ? & ? & ?). split_and!; [done|lia|lia|done..].
  - rewrite Hl. intros [(st & ? & Ho & Hst) ?]. split; [|done]. exists st. split_and!; [done| |].
    + intros E. destruct (Ho E); auto.
    + intros Hle. apply Hst. lia.
Qed.

(** The task of [id] ends in a state where its session may be left. *)
Lemma conn_end_ok s id p :
  server_ok cfg s → srv_conns s !! id = Some p →
  (session_of id (srv_sent s) = Some Open → srv_cancelled s = true ∨ srv_hub_closed s = true) →
  server_ok cfg (conn_end id s).
Proof.
  intros (Hsz & Hrj & Hn0 & Hh & Hids) Hid Hopen. unfold conn_end. split_and!; simpl; [|done..|].
  { rewrite map_size_delete_Some by (by eexists).
    assert (size (srv_conns s) ≠ 0) by (intros E0%map_size_empty_inv; by rewrite E0 in Hid). lia. }
  intros j. specialize (Hids j). destruct (decide (j = id)) as [->|Hj].
  - unfold id_ok in *. simpl. rewrite lookup_delete_eq. rewrite Hid in Hids.
    destruct Hids as (Hs & Hlt & _). split.
    + eexists. split_and!; [done| |lia]. intros E. rewrite E in Hs. by apply Hopen.
    + unfold outbox_live. rewrite lookup_alter_eq. by destruct (srv_net s !! id);
        intros (? & [= <-] & ?).
  - eapply (id_ok_same s); simpl; [by rewrite lookup_delete_ne|done|lia| |done..].
    unfold outbox_live. by rewrite lookup_alter_ne.
Qed.

(** The task of [id] moves on, with its events and outbox still agreeing. *)
Lemma set_phase_ok s id p p' :
  server_ok cfg s → srv_conns s !! id = Some p →
  announced p' = announced p → has_outbox p' = has_outbox p →
  server_ok cfg (set_phase id p' s).
Proof.
  intros (Hsz & Hrj & Hn0 & Hh & Hids) Hid Ha Hb. split_and!; simpl; [|done..|].
  { by rewrite map_size_insert_Some. }
  intros j. specialize (Hids j). destruct (decide (j = id)) as [->|Hj].
  - unfold id_ok in *. simpl. rewrite lookup_insert_eq, Ha, Hb. by rewrite Hid in Hids.
  - by eapply (id_ok_same s); simpl; [rewrite lookup_insert_ne|..].
Qed.

Lemma hub_send_ok s id e s' b :
  hub_send cfg e s = Some (s', b) → event_id e = id →
  server_ok cfg s →
  (b = false ∧ s' = s ∧ srv_hub_closed s = true) ∨
  (b = true ∧ srv_conns s' = srv_conns s ∧ srv_permits s' = srv_permits s ∧
   srv_reject_permits s' = srv_reject_permits s ∧ srv_next_id s' = srv_next_id s ∧
   srv_net s' = srv_net s ∧ srv_cancelled s' = srv_cancelled s ∧
   srv_hub_closed s' = srv_hub_closed s ∧
   srv_sent s' = srv_sent s ++ [e] ∧ length (srv_hub s') ≤ event_queue cfg ∧
   ∀ j, j ≠ id → id_ok s' j).
Proof.
  unfold hub_send. intros E He (_ & _ & _ & _ & Hids).
  destruct (srv_hub_closed s) eqn:Hc; [left; by simplify_eq|right].
  case_decide; simplify_eq/=. split_and!; try done.
  - rewrite length_app. simpl. lia.
  - intros j Hj. eapply (id_ok_same s); simpl;
      [done|apply session_of_other; congruence|lia|done|done|by rewrite Hc|apply Hids].
Qed.

(** An event of [id] was sent and its task moved to [p']. *)
Lemma sent_phase_ok s s' id p p' e :
  server_ok cfg s → srv_conns s !! id = Some p →
  hub_send cfg e s = Some (s', true) → event_id e = id →
  session_of id (srv_sent s ++ [e]) = Some (if announced p' then Open else NotYet) →
  has_outbox p = true → has_outbox p' = true →
  server_ok cfg (set_phase id p' s').
Proof.
  intros Hok Hid E He Hs Hb Hb'.
  destruct (hub_send_ok _ _ _ _ _ E He Hok)
    as [(? & _)|(_ & Ec & Ep & Er & En & Ent & Eca & Ehc & Est & Hlen & Hids')]; [done|].
  destruct Hok as (Hsz & Hrj & Hn0 & Hh & Hids).
  split_and!; simpl; rewrite ?Ec, ?Ep, ?Er, ?En; [|done..|].
  { by rewrite map_size_insert_Some. }
  intros j. destruct (decide (j = id)) as [->|Hj].
  - specialize (Hids id). unfold id_ok in *. simpl. rewrite lookup_insert_eq, Est, En, Ent, Hs.
    rewrite Hid in Hids. destruct Hids as (_ & ? & Hl & _). rewrite Hb'.
    split_and!; [done|lia|lia|intros _; by apply Hl|done].
  - eapply (id_ok_same s'); simpl; [by rewrite lookup_insert_ne, Ec|done|lia|done..|by apply Hids'].
Qed.

(** The last event of [id] was sent and its task ends. *)
Lemma sent_end_ok s s' id reason b :
  server_ok cfg s → srv_conns s !! id = Some (SendingDisconnect reason) →
  hub_send cfg (EvDisconnect id reason) s = Some (s', b) →
  server_ok cfg (conn_end id s').
Proof.
  intros Hok Hid E. destruct (hub_send_ok _ id _ _ _ E eq_refl Hok)
    as [(-> & -> & Hc)|(-> & Ec & Ep & Er & En & Ent & Eca & Ehc & Est & Hlen & Hids')].
  { eapply conn_end_ok; [done..|]. by right. }
  destruct Hok as (Hsz & Hrj & Hn0 & Hh & Hids). specialize (Hids id).
  unfold id_ok in Hids. rewrite Hid in Hids. destruct Hids as (Hs & Hlt & _).
  unfold conn_end. split_and!; simpl; rewrite ?Ec, ?Ep, ?Er, ?En; [|done..|].
  { rewrite map_size_delete_Some by (by eexists).
    assert (size (srv_conns s) ≠ 0) by (intros E0%map_size_empty_inv; by rewrite E0 in Hid). lia. }
  intros j. destruct (decide (j = id)) as [->|Hj].
  - unfold id_ok. simpl. rewrite lookup_delete_eq, Est, session_of_app, Hs. split.
    + exists Over. unfold session_step. simpl. rewrite decide_True by done. by split_and!; [..|lia].
    + unfold outbox_live. rewrite lookup_alter_eq. by destruct (srv_net s' !! id);
        intros (? & [= <-] & ?).
  - eapply (id_ok_same s'); simpl; [by rewrite lookup_delete_ne, Ec|done|lia| |done..|by apply Hids'].
    unfold outbox_live. by rewrite lookup_alter_ne.
Qed.

Lemma run_arm_phase r arm cl :
  announced (run_arm cfg r arm cl).2 = true ∧ has_outbox (run_arm cfg r arm cl).2 = true.
Proof.
  by destruct arm as [|[[]|]|[[]| |]| |]; simpl; try done; destruct (rd_write_ok r).
Qed.

Lemma serving_ok s id cl arm r :
  server_ok cfg s → srv_conns s !! id = Some (Serving cl) →
  server_ok cfg (set_phase id (run_arm cfg r arm cl).2
    (srv_write id (run_arm cfg r arm cl).1 (take_outbox arm id s))).
Proof.
  intros Hok Hid. destruct (run_arm_phase r arm cl) as [Ha Hb].
  assert (∀ f, (∀ ob, ob_closed (f ob) = ob_closed ob) →
    server_ok cfg (srv_write id (run_arm cfg r arm cl).1
      (srv_with_conns (srv_conns s) (srv_permits s) (alter f id (srv_net s)) s))) as Hf.
  { intros f Hcl. destruct Hok as (Hsz & Hrj & Hn0 & Hh & Hids). split_and!; try done.
    intros j. eapply (id_ok_same s); simpl; [done|done|done|by apply outbox_live_alter|done..]. }
  assert (server_ok cfg (srv_write id (run_arm cfg r arm cl).1 s)) as Hw.
  { destruct Hok as (Hsz & Hrj & Hn0 & Hh & Hids). by split_and!. }
  eapply set_phase_ok; [|by destruct arm as [|[]| | |]|done..].
  destruct arm as [|[c|]| | |]; try exact Hw. by apply Hf.
Qed.

Lemma conn_poll_ok id r s : server_ok cfg s → server_ok cfg (conn_poll cfg id r s).
Proof.
  intros Hok. unfold conn_poll. destruct (srv_conns s !! id) as [p|] eqn:Hid; [|done].
  assert (id_ok s id) as Hi by apply Hok. unfold id_ok in Hi. rewrite Hid in Hi.
  destruct Hi as (Hs & Hlt & Hlive & Hdead).
  destruct p as [|resp|cl|m cl|reason]; simpl in Hs.
  - assert (server_ok cfg (conn_end id s)) as Hend
      by (eapply conn_end_ok; [done..|]; by rewrite Hs).
    destruct (srv_cancelled s); [done|].
    destruct (rd_handshake r) as [[[uri origin]|]|]; [|done..].
    destruct Hok as (Hsz & Hrj & Hn0 & Hh & Hids). split_and!; simpl; [|done..|].
    { by rewrite map_size_insert_Some. }
    intros j. destruct (decide (j = id)) as [->|Hj].
    + unfold id_ok. simpl. rewrite lookup_insert_eq. simpl. split_and!; [done|lia|lia| |done].
      intros _. unfold outbox_live. rewrite lookup_insert_eq. by eexists.
    + eapply (id_ok_same s); simpl; [by rewrite lookup_insert_ne|done|done| |done|done|apply Hids].
      unfold outbox_live. by rewrite lookup_insert_ne.
  - destruct (hub_send cfg _ s) as [[s' []]|] eqn:E; [| |done].
    + eapply sent_phase_ok; [done..| |done|done]. rewrite session_of_app, Hs.
      unfold session_step. by rewrite decide_True.
    + destruct (hub_send_ok _ id _ _ _ E eq_refl Hok) as [(_ & -> & Hc)|(? & _)]; [|done].
      eapply conn_end_ok; [done..|]. by right.
  - destruct (select_arm _ cl _ r) as [arm|]; [|done].
    pose proof (serving_ok s id cl arm r Hok Hid) as Hsv. by destruct (run_arm cfg r arm cl).
  - destruct (hub_send cfg _ s) as [[s' []]|] eqn:E; [| |done].
    + eapply sent_phase_ok; [done..| |done|done]. rewrite session_of_app, Hs.
      unfold session_step. by rewrite decide_True.
    + destruct (hub_send_ok _ id _ _ _ E eq_refl Hok) as [(_ & -> & Hc)|(? & _)]; [|done].
      by eapply set_phase_ok.
  - destruct (hub_send cfg _ s) as [[s' b]|] eqn:E; [|done]. by eapply sent_end_ok.
Qed.

Lemma accept_ok accepted s :
  server_ok cfg s → is_u64 (srv_next_id s + 1) → server_ok cfg (accept_round accepted s).
Proof.
  intros Hok Hu. unfold accept_round. destruct (srv_cancelled s); [done|].
  destruct accepted; [done|]. destruct Hok as (Hsz & Hrj & Hn0 & Hh & Hids).
  destruct (srv_permits s) as [|permits] eqn:Hp.
  - destruct (srv_reject_permits s) as [|n] eqn:Hr; split_and!; simpl; try done;
      rewrite ?Hp, ?Hr; try lia; done.
  - rewrite wrap_u64_id by done.
    assert (srv_conns s !! srv_next_id s = None) as Hfresh.
    { specialize (Hids (srv_next_id s)). unfold id_ok in Hids.
      destruct (srv_conns s !! srv_next_id s); [|done]. lia. }
    split_and!; simpl; [|done|lia|done|].
    { rewrite map_size_insert_None by done. lia. }
    intros j. specialize (Hids j). destruct (decide (j = srv_next_id s)) as [->|Hj].
    + unfold id_ok in *. simpl. rewrite lookup_insert_eq. rewrite Hfresh in Hids.
      destruct Hids as [(st & Hs & _ & Hst) Hl]. rewrite Hst in Hs by lia. simpl.
      split_and!; [done|lia|lia|done|done].
    + eapply (id_ok_same s); simpl; [by rewrite lookup_insert_ne|done|lia|done..].
Qed.

Lemma server_act_ok s a :
  server_ok cfg s → is_u64 (srv_next_id s + 1) →
  server_ok cfg (server_act cfg s a) ∧
  (srv_next_id s ≤ srv_next_id (server_act cfg s a) ≤ srv_next_id s + 1)%Z.
Proof.
  intros Hok Hu.
  assert (∀ s' : Server, srv_conns s' = srv_conns s → srv_permits s' = srv_permits s →
    srv_reject_permits s' ≤ MAX_PENDING_REJECTS → (srv_next_id s ≤ srv_next_id s')%Z →
    length (srv_hub s') ≤ event_queue cfg → srv_sent s' = srv_sent s →
    (∀ id, outbox_live (srv_net s') id ↔ outbox_live (srv_net s) id) →
    (srv_cancelled s = true → srv_cancelled s' = true) →
    (srv_hub_closed s = true → srv_hub_closed s' = true) → server_ok cfg s') as Hsame.
  { intros s' Ec Ep Hr Hn Hl Es Hnet Hca Hhc. destruct Hok as (Hsz & Hrj & Hn0 & Hh & Hids).
    split_and!; [by rewrite Ec, Ep|done|lia|done|].
    intros id. by eapply (id_ok_same s); rewrite ?Ec, ?Es. }
  destruct (Hok) as (_ & Hrj & Hn0 & Hh & _).
  destruct a as [acc|id r| | | | |id m|id code| |id]; simpl.
  - split; [by apply accept_ok|]. unfold accept_round.
    repeat case_match; simpl; rewrite ?wrap_u64_id by done; lia.
  - split; [by apply conn_poll_ok|].
    unfold conn_poll, hub_send, take_outbox, conn_end, set_phase.
    repeat case_match; simplify_eq/=; lia.
  - split; [|unfold reject_end; case_decide; simpl; lia]. unfold reject_end. case_decide; [|done].
    apply Hsame; simpl; try done; lia.
  - rewrite wrap_u64_id by done. split; [|lia]. apply Hsame; simpl; try done; lia.
  - split; [|lia]. apply Hsame; simpl; try done. destruct (srv_hub s); simpl in *; lia.
  - split; [|lia]. apply Hsame; simpl; try done; lia.
  - split; [|lia]. apply Hsame; simpl; try done. intros j. apply outbox_live_try_send.
  - split; [|lia]. apply Hsame; simpl; try done. intros j. apply outbox_live_close.
  - split; [|lia]. by apply Hsame.
  - unfold abort_conn. destruct (srv_cancelled s) eqn:Hca; [|split; [done|lia]].
    destruct (srv_conns s !! id) as [p|] eqn:Hid; [|split; [done|lia]]. split; [|simpl; lia].
    eapply conn_end_ok; [done..|]. by left.
Qed.

Lemma server_run_ok s acts :
  server_ok cfg s → is_u64 (srv_next_id s + Z.of_nat (length acts)) →
  server_ok cfg (server_run cfg s acts).
Proof.
  unfold server_run. revert s. induction acts as [|a acts IH]; intros s Hok Hu; simpl; [done|].
  assert (0 ≤ srv_next_id s)%Z by apply Hok.
  destruct (server_act_ok s a Hok) as [Hok' Hn].
  { simpl in Hu. unfold is_u64 in *. lia. }
  apply IH; [done|]. simpl in Hu. unfold is_u64 in *. lia.
Qed.
End ServerInv.

Lemma server_bind_ok cfg listener next_id s :
  server_bind cfg listener next_id = inr s → (0 ≤ next_id)%Z →
  server_ok cfg s ∧ srv_next_id s = next_id.
Proof.
  unfold server_bind. repeat case_decide; try done. destruct listener; [done|].
  intros [= <-] Hn. split; [|done]. split_and!; simpl; try done; [lia|].
  intros id. unfold id_ok. simpl. rewrite lookup_empty. split.
  - exists NotYet. by split_and!.
  - intros (ob & Hob & _). by rewrite lookup_empty in Hob.
Qed.

(** C16: in every interleaving of a bound server's tasks (of fewer than 2^64
    connections in the process): no more than [max_connections] tasks run
    and every permit is held by one of them; at most 8 rejections run; the
    event queue is bounded; the events of every id follow the session
    protocol (announced once, messages only between, retired once); a task
    that ended without retiring its session did so after a shutdown or
    with nobody to tell; and an outbox takes messages exactly while its
    task runs. *)
Theorem server_sessions cfg listener next_id s0 acts :
  server_bind cfg listener next_id = inr s0 → (0 ≤ next_id)%Z →
  (next_id + Z.of_nat (length acts) < 2 ^ 64)%Z →
  let s := server_run cfg s0 acts in
  size (srv_conns s) + srv_permits s = max_connections cfg ∧
  srv_reject_permits s ≤ MAX_PENDING_REJECTS ∧ length (srv_hub s) ≤ event_queue cfg ∧
  ∀ id, ∃ st, session_of id (srv_sent s) = Some st ∧
    match srv_conns s !! id with
    | Some p => st = (if announced p then Open else NotYet) ∧
        (announced p = true → ∃ ob, srv_net s !! id = Some ob ∧ ob_closed ob = false)
    | None => (st = Open → srv_cancelled s = true ∨ srv_hub_closed s = true) ∧
        ∀ m, (try_send (srv_net s) id m).2 = Some Closed
    end.
Proof.
  intros Hb Hn Hlt s. destruct (server_bind_ok _ _ _ _ Hb Hn) as [Hok0 Hid0].
  assert (server_ok cfg s) as (Hsz & Hrj & _ & Hh & Hids).
  { apply server_run_ok; [done|]. rewrite Hid0. int_lia. }
  split_and!; [done..|]. intros id. specialize (Hids id). unfold id_ok in Hids.
  destruct (srv_conns s !! id) as [p|].
  - destruct Hids as (Hs & _ & Hl & _). eexists. split_and!; [done|done|].
    intros Ha. apply Hl. by destruct p.
  - destruct Hids as [(st & Hs & Ho & _) Hl]. exists st. split_and!; [done|done|].
    intros m. unfold try_send. destruct (srv_net s !! id) as [ob|] eqn:Hob; [|done].
    destruct (ob_closed ob) eqn:Hc; [done|]. exfalso. apply Hl. by exists ob.
Qed.

(** ** Shutdown *)

Section Cancelled.
Variables (cfg : ServerConfig) (id : ClientId).

Lemma poll_cancelled s r cl :
  srv_cancelled s = true → srv_conns s !! id = Some (Serving cl) →
  conn_poll cfg id r s
  = set_phase id (SendingDisconnect ServerShutdown) (srv_write id [OutClose 1000 ""] s).
Proof. intros Hc Hu. unfold conn_poll. by rewrite Hu, Hc. Qed.

Definition sent_event (e : Event) (s : Server) : Server :=
  srv_with_hub (srv_hub s ++ [e]) (srv_sent s ++ [e]) false (srv_cancelled s) s.

Lemma poll_sends s r p e :
  srv_hub_closed s = false → length (srv_hub s) < event_queue cfg → srv_conns s !! id = Some p →
  match p with
  | SendingMessage m cl => e = EvMessage id m →
      conn_poll cfg id r s = set_phase id (Serving cl) (sent_event e s)
  | SendingDisconnect reason => e = EvDisconnect id reason →
      conn_poll cfg id r s = conn_end id (sent_event e s)
  | _ => True
  end.
Proof.
  intros Hc Hl Hu. unfold conn_poll, hub_send, sent_event. rewrite Hu, Hc.
  destruct p; try done; intros ->; by rewrite decide_False by lia.
Qed.

Lemma poll_gone s r : srv_conns s !! id = None → conn_poll cfg id r s = s.
Proof. intros Hu. unfold conn_poll. by rewrite Hu. Qed.

(** A task that is retiring its session. *)
Lemma poll_leaves s r1 r2 reason s' :
  s' = conn_poll cfg id r2 (conn_poll cfg id r1 s) →
  srv_hub_closed s = false → length (srv_hub s) < event_queue cfg →
  srv_conns s !! id = Some (SendingDisconnect reason) →
  s' = conn_end id (sent_event (EvDisconnect id reason) s).
Proof.
  intros -> Hc Hl Hu. rewrite (poll_sends s r1 _ (EvDisconnect id reason) Hc Hl Hu eq_refl).
  apply poll_gone. simpl. apply lookup_delete_eq.
Qed.

(** A task in its [select!]. *)
Lemma poll_serving s r1 r2 r3 cl s' :
  s' = conn_poll cfg id r3 (conn_poll cfg id r2 (conn_poll cfg id r1 s)) →
  srv_cancelled s = true → srv_hub_closed s = false → length (srv_hub s) < event_queue cfg →
  srv_conns s !! id = Some (Serving cl) →
  s' = conn_end id (sent_event (EvDisconnect id ServerShutdown)
         (set_phase id (SendingDisconnect ServerShutdown) (srv_write id [OutClose 1000 ""] s))).
Proof.
  intros -> Hca Hc Hl Hu. rewrite (poll_cancelled s r1 cl) by done.
  eapply poll_leaves; [done|done|done|]. apply lookup_insert_eq.
Qed.
End Cancelled.

(** After the cancellation every connection ends within three polls of
    its task whatever is ready (a command waiting, a peer that keeps
    talking), given room for two events: the peer gets a normal close
    unless the task was already leaving, and the session is retired. *)
Theorem cancelled_connection_ends cfg s id p r1 r2 r3 :
  srv_cancelled s = true → srv_hub_closed s = false →
  length (srv_hub s) + 2 ≤ event_queue cfg → srv_conns s !! id = Some p →
  announced p = true →
  let s' := conn_poll cfg id r3 (conn_poll cfg id r2 (conn_poll cfg id r1 s)) in
  srv_conns s' !! id = None ∧ srv_permits s' = S (srv_permits s) ∧
  (∃ reason, last (srv_sent s') = Some (EvDisconnect id reason)) ∧
  match p with
  | SendingDisconnect _ => srv_written s' = srv_written s
  | _ => srv_written s' = srv_written s ++ [(id, OutClose 1000 "")]
  end.
Proof.
  intros Hca Hh Hroom Hid Ha s'. destruct p as [|resp|cl|m cl|reason]; try done.
  - rewrite (poll_serving cfg id s r1 r2 r3 cl s' eq_refl Hca Hh ltac:(lia) Hid). simpl.
    rewrite lookup_delete_eq, last_snoc. split_and!; [done..|by eexists|done].
  - unfold s'.
    rewrite (poll_sends cfg id s r1 _ (EvMessage id m) Hh ltac:(lia) Hid eq_refl).
    set (s1 := set_phase id _ _).
    rewrite (poll_cancelled cfg id s1 r2 cl) by (done || apply lookup_insert_eq).
    set (s2 := set_phase id _ _).
    assert (srv_conns s2 !! id = Some (SendingDisconnect ServerShutdown)) as Hid2
      by apply lookup_insert_eq.
    assert (length (srv_hub s2) < event_queue cfg) as Hl2.
    { unfold s2, s1. simpl. rewrite length_app. simpl. lia. }
    rewrite (poll_sends cfg id s2 r3 _ (EvDisconnect id ServerShutdown) eq_refl Hl2 Hid2 eq_refl).
    simpl. rewrite lookup_delete_eq, last_snoc. split_and!; [done..|by eexists|done].
  - assert (s' = conn_end id (sent_event (EvDisconnect id reason) s)) as ->.
    { unfold s'. rewrite (poll_leaves cfg id s r1 r2 reason _ eq_refl Hh ltac:(lia) Hid).
      apply poll_gone. simpl. apply lookup_delete_eq. }
    simpl. rewrite lookup_delete_eq, last_snoc. split_and!; [done..|by eexists|done].
Qed.

(** The join loop leaves no task behind when every join is in time, and
    never more than it found. *)
Lemma join_loop_bound answers k n : join_loop answers k n ≤ n.
Proof.
  revert k. induction n as [|n IH]; intros k; simpl; [done|].
  destruct (answers k) as [[]|]; [|lia..]. specialize (IH (S k)). lia.
Qed.

Lemma join_loop_all answers k n :
  (∀ i, i < n → answers (k + i) = Some true) → join_loop answers k n = 0.
Proof.
  revert k. induction n as [|n IH]; intros k Ha; simpl; [done|].
  pose proof (Ha 0 ltac:(lia)) as E. rewrite Nat.add_0_r in E. rewrite E. apply IH.
  intros i Hi. replace (S k + i) with (k + S i) by lia. apply Ha. lia.
Qed.

(** ** The game transport on the server's events *)

Section Drive.
Context `{Serde, IpcParse}.
Variables (user : RpcUser) (sa se : bool).
(** What the rest of the program does during the [k]-th event, and the
    clocks at it. *)
Variable bridge : nat → nat → EventSink → EventSink.
Variable peers : nat → nat → Net → Net.
Variable tasks : nat → nat → Ws → Ws.
Variable clock : nat → Z * Z.

(** [pump_loop] over the hub's events. *)
Fixpoint pump_loop (k : nat) (events : list Event) (w : Ws) : Ws :=
  match events with
  | [] => w
  | ev :: events =>
      pump_loop (S k) events
        (ws_pump (bridge k) (peers k) (tasks k) user sa se (clock k).1 (clock k).2 ev w)
  end.

Lemma pump_loop_snoc k events ev w :
  pump_loop k (events ++ [ev]) w
  = let k' := k + length events in
    ws_pump (bridge k') (peers k') (tasks k') user sa se (clock k').1 (clock k').2 ev
      (pump_loop k events w).
Proof.
  revert k w. induction events as [|e events IH]; intros k w; simpl.
  { by rewrite Nat.add_0_r. }
  rewrite IH. simpl. by rewrite <-Nat.add_succ_comm.
Qed.

Hypothesis Htasks : ∀ k, tasks_ok (tasks k).

Lemma ws_set_activity_clients b p t id now_secs now event qid r fwd w w' alive delivered :
  tasks_ok t →
  ws_set_activity b p t id now_secs now event qid r fwd w = (w', alive, delivered) →
  ws_clients w' = ws_clients w.
Proof.
  intros Ht. unfold ws_set_activity. destruct (set_activity_response _) as [ev resp]. intros E.
  match type of E with context [let '(_, _) := ?x in _] => destruct x as [w1 d] eqn:E1 end.
  assert (ws_clients w1 = ws_clients w) as Hw1.
  { destruct fwd; [by apply (ws_emit_keeps _ _ Ht) in E1 as ((? & _) & _)
                  |by apply (emit_or_stage_keeps _ _ Ht) in E1 as ((? & _) & _)|by simplify_eq]. }
  destruct (reply_opt p r resp _) as [w2 al] eqn:E2.
  apply reply_opt_same in E2 as ((Hw2 & _) & _). simplify_eq. rewrite Hw2. by destruct delivered.
Qed.

Lemma update_client_dom id f w j :
  is_Some (ws_clients (update_client id f w) !! j) → is_Some (ws_clients w !! j).
Proof.
  unfold update_client. destruct (ws_clients w !! id) as [sl|] eqn:Hid; [|done]. simpl.
  destruct (decide (j = id)) as [->|]; [by rewrite Hid|by rewrite lookup_insert_ne].
Qed.

Lemma on_set_activity_dom b p t id now_secs now slot event w w' alive j :
  tasks_ok t → on_set_activity b p t id now_secs now slot event w = (w', alive) →
  is_Some (ws_clients w' !! j) → is_Some (ws_clients w !! j).
Proof.
  intros Ht. unfold on_set_activity. intros E.
  match type of E with context [let '(_, _) := ?x in _] => destruct x as [w1 adm] eqn:E1 end.
  assert (is_Some (ws_clients w1 !! j) → is_Some (ws_clients w !! j)) as Hw1.
  { destruct (negb _); [by simplify_eq|]. destruct (ws_clients w !! id) as [sl|] eqn:Hid;
      [|by simplify_eq]. destruct (note_published _ _ _ sl). simplify_eq/=.
    destruct (decide (j = id)) as [->|]; [by rewrite Hid|by rewrite lookup_insert_ne]. }
  destruct (ws_set_activity _ _ _ _ _ _ _ _ _ _ _) as [[w2 al] d] eqn:E2.
  apply ws_set_activity_clients in E2; [|done]. simplify_eq.
  destruct (interleave_keeps t Ht w1) as ((Hci & _) & _). rewrite Hci in E2.
  intros Hj. apply Hw1. rewrite <-E2.
  destruct d; [destruct (negb _); [by eapply update_client_dom|done]|].
  destruct adm as [[]|]; [by eapply update_client_dom|done..].
Qed.

Lemma on_message_dom b p t now_secs now id m w j :
  tasks_ok t → ws_ok w →
  is_Some (ws_clients (ws_on_message b p t user sa se now_secs now id m w) !! j) →
  is_Some (ws_clients w !! j).
Proof.
  intros Ht Hok. unfold ws_on_message.
  assert (keeps w (flush_pending b (interleave t w))) as Hk.
  { etrans; [by apply interleave_keeps|apply flush_pending_keeps]. }
  pose proof (keeps_ok _ _ Hk Hok) as Hokf. destruct Hk as ((Hc & _) & _).
  set (wf := flush_pending b (interleave t w)) in *. rewrite <-Hc.
  destruct (ws_clients wf !! id) as [slot|] eqn:Hid; [|done].
  destruct m as [text|]; [|done]. destruct (cmd_from_str text) as [event|]; [|done].
  match goal with |- context [match ?x with Some _ => _ | None => _ end] =>
    destruct x as [[w0 alive]|] eqn:Hh; [|done] end.
  assert (ws_ok w0 ∧ (is_Some (ws_clients w0 !! j) → is_Some (ws_clients wf !! j))) as [Hok0 Hj0].
  { destruct (String.eqb (cmd_cmd event) "SET_ACTIVITY").
    - destruct sa; [|done]. injection Hh as Hh.
      split; [by eapply on_set_activity_ok|by eapply on_set_activity_dom].
    - apply (on_other_command_keeps _ _ _ Ht) in Hh as [Hs0 Hq0]. destruct Hokf.
      split; [split; [by eapply same_clients_ok|by apply Hq0]|]. by rewrite (proj1 Hs0). }
  destruct alive; [done|].
  destruct (remove_and_clear_spec b t Ht now id w0) as (_ & _ & _ & -> & _).
  intros [x [_ Hx]%lookup_delete_Some]. apply Hj0. by eexists.
Qed.

(** A registered client is in an open session. *)
Lemma pump_clients b p t now_secs now ev id w :
  tasks_ok t → ws_ok w → is_Some (ws_clients (ws_pump b p t user sa se now_secs now ev w) !! id) →
  match ev with
  | EvConnect id' _ => id = id' ∨ is_Some (ws_clients w !! id)
  | EvDisconnect id' _ => id ≠ id' ∧ is_Some (ws_clients w !! id)
  | EvMessage _ _ => is_Some (ws_clients w !! id)
  end.
Proof.
  intros Ht Hok. destruct ev as [id' r|id' reason|id' m]; simpl.
  - unfold ws_on_connect. repeat case_match; simpl; try by right.
    destruct (decide (id = id')) as [->|Hn]; [by left|]. rewrite lookup_insert_ne by done. by right.
  - destruct (remove_and_clear_spec b t Ht now id' w) as (_ & _ & _ & -> & _).
    intros [x [? Hx]%lookup_delete_Some]. split; [done|]. by eexists.
  - by apply on_message_dom.
Qed.

Lemma session_prefix id log e st :
  session_of id (log ++ [e]) = Some st → ∃ st', session_of id log = Some st'.
Proof.
  rewrite session_of_app. unfold session_step. destruct (session_of id log); [by eexists|].
  by case_decide; destruct e.
Qed.

(** Events that follow the session protocol drive the transport through
    its steps, and keep exactly open sessions registered. *)
Lemma pump_loop_reaches events q net :
  (∀ id, ∃ st, session_of id events = Some st) →
  let w := pump_loop 0 events (Ws_new q net) in
  rtc ws_step (Ws_new q net) w ∧
  ∀ id, is_Some (ws_clients w !! id) → session_of id events = Some Open.
Proof.
  induction events as [|ev events IH] using rev_ind; intros Hs.
  { split; [done|]. intros id. simpl. rewrite lookup_empty. by intros []. }
  destruct IH as [Hr Hin].
  { intros id. destruct (Hs id) as [st Hst]. by eapply session_prefix. }
  rewrite pump_loop_snoc. simpl. set (w := pump_loop 0 events (Ws_new q net)) in *.
  split.
  - eapply rtc_r; [done|]. apply step_pump; [done|]. destruct ev as [id r| |]; [|done..].
    destruct (ws_clients w !! id) as [sl|] eqn:Hid; [|done]. exfalso.
    specialize (Hs id) as [st Hst]. rewrite session_of_app, (Hin id) in Hst by (by eexists).
    unfold session_step in Hst. simpl in Hst. by rewrite decide_True in Hst.
  - intros id Hid. apply pump_clients in Hid; [|done|by eapply ws_reachable_ok].
    specialize (Hs id) as [st Hst]. rewrite session_of_app in Hst |- *. unfold session_step in *.
    destruct ev as [id' r|id' reason|id' m]; simpl in *; case_decide; subst.
    + destruct (session_of id events) as [[]|]; by simplify_eq.
    + destruct Hid as [->|Hid]; [done|]. by apply Hin.
    + by destruct Hid.
    + by apply Hin, Hid.
    + by rewrite Hin.
    + by apply Hin.
Qed.
End Drive.

(** C29: server and game transport compose: whatever the server's tasks do
    (fewer than 2^64 ids in all), pumping the events it sent, with the
    retry tasks running in between, keeps the transport within its steps
    (so its invariant holds), and every client the transport has registered
    is in a session the server announced and has not retired; a client is
    never registered twice. *)
Theorem server_drives_transport `{Serde, IpcParse} cfg listener next_id s0 acts
    user sa se bridge peers tasks clock q net :
  (∀ k, tasks_ok (tasks k)) →
  server_bind cfg listener next_id = inr s0 → (0 ≤ next_id)%Z →
  (next_id + Z.of_nat (length acts) < 2 ^ 64)%Z →
  let events := srv_sent (server_run cfg s0 acts) in
  let w := pump_loop user sa se bridge peers tasks clock 0 events (Ws_new q net) in
  rtc ws_step (Ws_new q net) w ∧
  ∀ id, is_Some (ws_clients w !! id) → session_of id events = Some Open.
Proof.
  intros Ht Hb Hn Hlt events w. apply pump_loop_reaches; [done|]. intros id.
  destruct (server_bind_ok _ _ _ _ Hb Hn) as [Hok0 Hid0].
  assert (server_ok cfg (server_run cfg s0 acts)) as (_ & _ & _ & _ & Hids).
  { apply server_run_ok; [done|]. rewrite Hid0. int_lia. }
  specialize (Hids id). unfold id_ok in Hids.
  destruct (srv_conns _ !! id); [destruct Hids as (? & _)|destruct Hids as [(? & ? & _) _]];
    by eexists.
Qed.

(** ** Witnesses *)

Module ServerDemo.
Definition cfg : ServerConfig := ServerConfig_default.
Definition start : Server :=
  match server_bind cfg (inr ()) 0 with
  | inr s => s
  | inl _ => {| srv_cancelled := true; srv_permits := 0; srv_reject_permits := 0;
                srv_next_id := 0; srv_hub := []; srv_hub_closed := true; srv_conns := ∅;
                srv_net := ∅; srv_sent := []; srv_written := [] |}
  end.
Definition quiet_ready : Ready := {|
  rd_handshake := None; rd_incoming := None; rd_tick := false; rd_now := 0;
  rd_responders_gone := false; rd_write_ok := true |}.
Definition shakes : Ready := {|
  rd_handshake := Some (Some ("/?v=1&client_id=42", Some "https://discord.com"));
  rd_incoming := None; rd_tick := false; rd_now := 0; rd_responders_gone := false;
  rd_write_ok := true |}.
Definition says (text : string) : Ready := {|
  rd_handshake := None; rd_incoming := Some (InMessage (WsText text)); rd_tick := false;
  rd_now := 0; rd_responders_gone := false; rd_write_ok := true |}.
(** A client connects and its first message is read but not sent yet. *)
Definition acts : list action :=
  [ActAccept (inr ()); ActPoll 0 shakes; ActPoll 0 quiet_ready; ActPoll 0 (says "set");
   ActCancel].
Definition talking : Server := server_run cfg start acts.
End ServerDemo.

Lemma server_sessions_witness :
  session_of 0 (srv_sent ServerDemo.talking) = Some Open ∧
  srv_permits ServerDemo.talking = 63.
Proof.
  destruct (server_sessions ServerDemo.cfg (inr ()) 0 ServerDemo.start ServerDemo.acts)
    as (Hsz & _ & _ & Hids).
  - reflexivity.
  - lia.
  - simpl. lia.
  - destruct (Hids 0%Z) as (st & Hst & Hm). fold ServerDemo.talking in Hst, Hm, Hsz.
    assert (srv_conns ServerDemo.talking !! 0%Z
      = Some (SendingMessage (Text "set") {| cl_idle := 60000000000; cl_outbox_open := true |}))
      as E by (vm_compute; reflexivity).
    rewrite E in Hm. destruct Hm as [-> _]. split; [exact Hst|].
    assert (size (srv_conns ServerDemo.talking) = 1) as Es by (vm_compute; reflexivity).
    rewrite Es in Hsz. change (max_connections ServerDemo.cfg) with 64 in Hsz. lia.
Defined.

Lemma cancelled_connection_ends_witness :
  let s := ServerDemo.talking in
  let poll := conn_poll ServerDemo.cfg 0 (ServerDemo.says "more") in
  srv_conns (poll (poll (poll s))) !! 0%Z = None ∧
  srv_written (poll (poll (poll s))) = [(0%Z, OutClose 1000 "")].
Proof.
  destruct (cancelled_connection_ends ServerDemo.cfg ServerDemo.talking 0
    (SendingMessage (Text "set") {| cl_idle := 60000000000; cl_outbox_open := true |})
    (ServerDemo.says "more") (ServerDemo.says "more") (ServerDemo.says "more"))
    as (A & _ & _ & B).
  - reflexivity.
  - reflexivity.
  - vm_compute. lia.
  - vm_compute. reflexivity.
  - reflexivity.
  - split; [exact A|]. rewrite B. vm_compute. reflexivity.
Defined.

Lemma server_drives_transport_witness :
  let w := @pump_loop demo_serde IpcDemo.parse RpcUser_default true true (λ _ _ s, s) (λ _ _ n, n)
    (λ _ _ w, w) (λ _, (1700000000, 0)%Z) 0 (srv_sent ServerDemo.talking)
    (Ws_new 1 {[0%Z := WsDemo.outbox]}) in
  rtc (@ws_step demo_serde IpcDemo.parse) (Ws_new 1 {[0%Z := WsDemo.outbox]}) w ∧
  ws_total w = 1%Z.
Proof.
  split; [|vm_compute; reflexivity].
  apply (@server_drives_transport demo_serde IpcDemo.parse ServerDemo.cfg (inr ()) 0
    ServerDemo.start ServerDemo.acts RpcUser_default true true (λ _ _ s, s) (λ _ _ n, n)
    (λ _ _ w, w) (λ _, (1700000000, 0)%Z) 1 {[0%Z := WsDemo.outbox]}).
  - intros k. exact WsDemo.idle_tasks.
  - reflexivity.
  - lia.
  - simpl. lia.
Defined.
