(* ===== verification/Text.v ===== *)
(** * More of Rust's [str]: searching, replacing, words, characters

    The scanner's names go through [str::find], [replace], [split] on a
    predicate, [split_whitespace], [join] and [chars().rev()].  Separators
    are characters, here their UTF-8 encodings: a list of byte sequences.
    No separator starts inside another one ([seps_ok]), which is what makes
    splitting the bytes the same as splitting the characters and gives the
    one algebraic law the equivalences need ([words_app_sep]). *)

From stdpp Require Import base strings list list_numbers sets.
From Stdlib Require Import Ascii.
From S2P Require Import Prelude RStr.

Local Open Scope string_scope.
Local Open Scope nat_scope.
Local Open Scope list_scope.

(** ** Searching *)

(** The parts around the first occurrence ([str::find]). *)
Fixpoint find_sub (p l : list ascii) : option (list ascii * list ascii) :=
  match strip_prefix_l p l with
  | Some r => Some ([], r)
  | None =>
      match l with
      | [] => None
      | a :: l' => match find_sub p l' with Some (x, y) => Some (a :: x, y) | None => None end
      end
  end.

Definition str_contains (p s : string) : bool := is_some (find_sub (chars p) (chars s)).

Lemma find_sub_Some p l x y :
  find_sub p l = Some (x, y) →
  l = x ++ p ++ y ∧
  ∀ x' y', l = x' ++ p ++ y' → length x ≤ length x'.
Proof.
  revert x y. induction l as [|a l IH]; intros x y; simpl.
  - destruct (strip_prefix_l p []) as [r|] eqn:E; [|done]. intros [= <- <-].
    apply strip_prefix_l_Some in E. split; [done|]. intros. simpl. lia.
  - destruct (strip_prefix_l p (a :: l)) as [r|] eqn:E.
    { intros [= <- <-]. apply strip_prefix_l_Some in E. split; [done|]. intros. simpl. lia. }
    destruct (find_sub p l) as [[x0 y0]|]; [|done]. intros [= <- <-].
    destruct (IH x0 y0 eq_refl) as [-> Hmin]. split; [done|].
    intros [|b x'] y' E'; simpl in E'.
    + apply (strip_prefix_l_Some p) in E'. by rewrite E' in E.
    + injection E' as -> E'. specialize (Hmin x' y' E'). simpl. lia.
Qed.

Lemma find_sub_None p l : find_sub p l = None → ∀ x y, l ≠ x ++ p ++ y.
Proof.
  induction l as [|a l IH]; simpl; intros H x y E.
  - destruct (strip_prefix_l p []) eqn:E'; [done|].
    destruct x; simplify_eq/=. symmetry in E. apply app_nil in E as [-> ->]. done.
  - destruct (strip_prefix_l p (a :: l)) eqn:E'; [done|].
    destruct (find_sub p l) as [[]|] eqn:Ef; [done|]. destruct x as [|b x]; simpl in E.
    + apply (strip_prefix_l_Some p) in E. by rewrite E in E'.
    + injection E as -> E. by apply (IH eq_refl x y).
Qed.

Lemma find_sub_is_Some p l : is_some (find_sub p l) = true ↔ ∃ x y, l = x ++ p ++ y.
Proof.
  destruct (find_sub p l) as [[x y]|] eqn:E; simpl.
  - split; [|done]. intros _. apply find_sub_Some in E as [-> _]. by eexists _, _.
  - split; [done|]. intros (x & y & H). by apply (find_sub_None _ _ E) in H.
Qed.

(** The parts around the last occurrence of a character ([str::rfind]). *)
Fixpoint rsplit_once_l (c : ascii) (l : list ascii) : option (list ascii * list ascii) :=
  match l with
  | [] => None
  | a :: l =>
      match rsplit_once_l c l with
      | Some (x, y) => Some (a :: x, y)
      | None => if Ascii.eqb a c then Some ([], l) else None
      end
  end.

Lemma rsplit_once_l_None c l : rsplit_once_l c l = None ↔ c ∉ l.
Proof.
  induction l as [|a l IH]; simpl; [set_solver|].
  destruct (rsplit_once_l c l) as [[x y]|].
  - split; [done|]. intros Hni. exfalso. assert (Some (x, y) = None) by (apply IH; set_solver). done.
  - destruct (Ascii.eqb_spec a c) as [->|Hne]; [set_solver|].
    split; [|done]. intros _. apply not_elem_of_cons. split; [congruence|by apply IH].
Qed.

Lemma rsplit_once_l_Some c l x y :
  rsplit_once_l c l = Some (x, y) → l = x ++ c :: y ∧ c ∉ y.
Proof.
  revert x y. induction l as [|a l IH]; intros x y; simpl; [done|].
  destruct (rsplit_once_l c l) as [[x0 y0]|] eqn:E.
  - intros [= <- <-]. by destruct (IH x0 y0 eq_refl) as [-> ?].
  - destruct (Ascii.eqb_spec a c) as [->|]; [|done]. intros [= <- <-].
    split; [done|]. by apply rsplit_once_l_None.
Qed.

(** ** Replacing *)

(** [str::replace] of a non-empty pattern: left to right, without overlap. *)
Fixpoint replace_l (p r : list ascii) (skip : nat) (l : list ascii) : list ascii :=
  match l with
  | [] => []
  | a :: l' =>
      match skip with
      | S skip => replace_l p r skip l'
      | 0 => if is_some (strip_prefix_l p l) then r ++ replace_l p r (pred (length p)) l'
             else a :: replace_l p r 0 l'
      end
  end.

Definition str_replace (p r s : string) : string :=
  of_chars (replace_l (chars p) (chars r) 0 (chars s)).

Lemma replace_l_skip p r u l : replace_l p r (length u) (u ++ l) = replace_l p r 0 l.
Proof. induction u as [|a u IH]; simpl; [done|]. apply IH. Qed.

Lemma replace_l_match p r l :
  p ≠ [] → replace_l p r 0 (p ++ l) = r ++ replace_l p r 0 l.
Proof.
  destruct p as [|c p]; [done|]. intros _. cbn [replace_l app].
  rewrite (strip_prefix_l_app (c :: p) l : strip_prefix_l (c :: p) (c :: p ++ l) = _).
  cbn [is_some length pred]. by rewrite replace_l_skip.
Qed.

(** Up to the first occurrence nothing changes. *)
Lemma replace_l_find p r l x y :
  p ≠ [] → find_sub p l = Some (x, y) →
  replace_l p r 0 l = x ++ r ++ replace_l p r 0 y.
Proof.
  intros Hp. revert x y. induction l as [|a l IH]; intros x y; cbn [find_sub].
  - destruct (strip_prefix_l p []) as [r0|] eqn:E; [|done]. intros [= <- <-].
    apply strip_prefix_l_Some in E. symmetry in E. by apply app_nil in E as [-> _].
  - destruct (strip_prefix_l p (a :: l)) as [r0|] eqn:E.
    + intros [= <- <-]. apply strip_prefix_l_Some in E. rewrite E. simpl.
      by apply replace_l_match.
    + destruct (find_sub p l) as [[x0 y0]|] eqn:Ef; [|done]. intros [= <- <-].
      cbn [replace_l]. rewrite E. simpl. f_equal. by apply IH.
Qed.

Lemma replace_l_absent p r l : find_sub p l = None → replace_l p r 0 l = l.
Proof.
  induction l as [|a l IH]; cbn [find_sub replace_l]; [done|].
  destruct (strip_prefix_l p (a :: l)) eqn:E; [done|].
  destruct (find_sub p l) as [[]|]; [done|]. intros _. simpl. f_equal. by apply IH.
Qed.

(** [str::replace] of one character by another. *)
Definition replace_char (a b : ascii) (s : string) : string :=
  of_chars (map (λ c, if Ascii.eqb c a then b else c) (chars s)).

(** ** Characters *)

(** The UTF-8 encodings of the characters of a string: a byte that is not
    a continuation byte starts one. *)
Definition is_cont (c : ascii) : bool := cont (code c).

Fixpoint utf8_chars (l : list ascii) : list (list ascii) :=
  match l with
  | [] => []
  | a :: l =>
      match utf8_chars l with
      | (b :: g) :: gs => if is_cont b then (a :: b :: g) :: gs else [a] :: (b :: g) :: gs
      | gs => [a] :: gs
      end
  end.

Definition char_count (s : string) : nat := length (utf8_chars (chars s)).

(** [s.chars().rev().collect()]. *)
Definition rev_chars (l : list ascii) : list ascii := concat (rev (utf8_chars l)).
Definition str_rev (s : string) : string := of_chars (rev_chars (chars s)).

Lemma concat_utf8_chars l : concat (utf8_chars l) = l.
Proof.
  induction l as [|a l IH]; simpl; [done|].
  destruct (utf8_chars l) as [|[|b g] gs]; simpl in *; [by rewrite <-IH|by rewrite <-IH|].
  destruct (is_cont b); simpl; by rewrite <-IH.
Qed.

(** ** Separators and words *)

Lemma find_map_app {A B} (f : A → option B) l1 l2 :
  find_map f (l1 ++ l2) = or_else (find_map f l1) (find_map f l2).
Proof. induction l1 as [|a l1 IH]; simpl; [done|]. by destruct (f a). Qed.

Lemma find_map_none {A B} (f : A → option B) l :
  (∀ a, a ∈ l → f a = None) → find_map f l = None.
Proof.
  induction l as [|a l IH]; intros Hf; simpl; [done|].
  rewrite Hf by set_solver. apply IH. set_solver.
Qed.

Lemma find_map_ext {A B} (f g : A → option B) l :
  (∀ a, a ∈ l → f a = g a) → find_map f l = find_map g l.
Proof.
  induction l as [|a l IH]; intros Hf; simpl; [done|].
  rewrite (Hf a) by set_solver. destruct (g a); [done|]. apply IH. set_solver.
Qed.

(** The separator at the front, if any: its length. *)
Definition sep_at (seps : list (list ascii)) (l : list ascii) : option nat :=
  find_map (λ w, (λ _, length w) <$> strip_prefix_l w l) seps.

(** [str::split] on the separators: always at least one piece. *)
Fixpoint split_seps (seps : list (list ascii)) (skip : nat) (l : list ascii)
    : list (list ascii) :=
  match l with
  | [] => [[]]
  | a :: l' =>
      match skip with
      | S skip => split_seps seps skip l'
      | 0 =>
          match sep_at seps l with
          | Some n => [] :: split_seps seps (pred n) l'
          | None =>
              match split_seps seps 0 l' with
              | x :: xs => (a :: x) :: xs
              | [] => [[a]]
              end
          end
      end
  end.

(** The non-empty pieces; [str::split_whitespace] on [white_space]. *)
Definition words (seps : list (list ascii)) (l : list ascii) : list (list ascii) :=
  base.filter (λ w, w ≠ []) (split_seps seps 0 l).

Fixpoint join_l (sep : list ascii) (ws : list (list ascii)) : list ascii :=
  match ws with
  | [] => []
  | [w] => w
  | w :: ws => w ++ sep ++ join_l sep ws
  end.

(** No separator is empty, a prefix of another one, or starts inside one. *)
Definition seps_ok (seps : list (list ascii)) : bool :=
  forallb (λ s, negb (is_some (strip_prefix_l s []))
    && forallb (λ w, (bool_decide (s = w) || negb (is_some (strip_prefix_l s w)))
         && forallb (λ c, negb (bool_decide (head w = Some c))) (tail s)) seps) seps.

Section Words.
Variable seps : list (list ascii).
Hypothesis Hseps : seps_ok seps = true.

Lemma seps_ok_elim s w :
  s ∈ seps → w ∈ seps →
  s ≠ [] ∧ (∀ r, w = s ++ r → s = w) ∧ ∀ c, c ∈ tail s → head w ≠ Some c.
Proof.
  intros Hs Hw. unfold seps_ok in Hseps. rewrite forallb_forall in Hseps.
  specialize (Hseps s ltac:(by apply list_elem_of_In)).
  apply andb_true_iff in Hseps as [Hne H].
  rewrite forallb_forall in H. specialize (H w ltac:(by apply list_elem_of_In)).
  apply andb_true_iff in H as [Hp Ho]. split_and!.
  - by intros ->.
  - intros r ->. apply orb_true_iff in Hp as [Hp|Hp]; [by apply bool_decide_eq_true in Hp|].
    by rewrite strip_prefix_l_app in Hp.
  - intros c Hc E. rewrite forallb_forall in Ho.
    specialize (Ho c ltac:(by apply list_elem_of_In)).
    apply negb_true_iff, bool_decide_eq_false in Ho. done.
Qed.

(** A separator found at the front is the one that is there. *)
Lemma sep_at_sep w b : w ∈ seps → sep_at seps (w ++ b) = Some (length w).
Proof.
  intros Hw. unfold sep_at.
  destruct (find_map _ seps) as [n|] eqn:E.
  - apply find_map_Some in E as (s & Hs & E). destruct (strip_prefix_l s (w ++ b)) eqn:Es; [|done].
    injection E as <-. apply strip_prefix_l_Some in Es. f_equal.
    apply app_eq_inv in Es as [(k & -> & _)|(k & -> & _)].
    + destruct (seps_ok_elim s (s ++ k) Hs Hw) as (_ & Hpf & _). by rewrite <-(Hpf k eq_refl).
    + destruct (seps_ok_elim w (w ++ k) Hw Hs) as (_ & Hpf & _). by rewrite <-(Hpf k eq_refl).
  - eapply find_map_None in E; [|done]. simpl in E. by rewrite strip_prefix_l_app in E.
Qed.

(** A separator that starts in [a] does not reach into one that follows. *)
Lemma sep_at_app a w b :
  a ≠ [] → w ∈ seps →
  sep_at seps (a ++ w ++ b) = sep_at seps a ∧
  ∀ n, sep_at seps a = Some n → 0 < n ≤ length a.
Proof.
  intros Ha Hw.
  assert (∀ s, s ∈ seps → is_some (strip_prefix_l s (a ++ w ++ b)) = is_some (strip_prefix_l s a))
    as Hsame.
  { intros s Hs. destruct (strip_prefix_l s (a ++ w ++ b)) as [r|] eqn:E; simpl.
    - apply strip_prefix_l_Some in E. apply app_eq_inv in E as [(k & -> & _)|(k & -> & E)].
      + by rewrite strip_prefix_l_app.
      + destruct k as [|c k]; [|].
        { pose proof (strip_prefix_l_app (a ++ []) []) as E0. rewrite !app_nil_r in *.
          by rewrite E0. }
        exfalso. destruct (seps_ok_elim _ w Hs Hw) as (_ & _ & Ho).
        destruct a as [|a0 a]; [done|]. apply (Ho c); [simpl; set_solver|].
        destruct (seps_ok_elim w w Hw Hw) as (Hne & _). destruct w; [done|].
        simpl in E. by injection E as -> _.
    - destruct (strip_prefix_l s a) as [r|] eqn:E'; [|done].
      apply strip_prefix_l_Some in E' as ->. by rewrite <-app_assoc, strip_prefix_l_app in E. }
  split.
  - unfold sep_at. clear Hseps Hw. induction seps as [|s l IH]; simpl; [done|].
    assert (s ∈ s :: l) as Hs by set_solver. specialize (Hsame s Hs) as E.
    destruct (strip_prefix_l s (a ++ w ++ b)), (strip_prefix_l s a); simpl in *; try done.
    apply IH. intros s' Hs'. apply Hsame. set_solver.
  - intros n E. unfold sep_at in E. apply find_map_Some in E as (s & Hs & E).
    destruct (strip_prefix_l s a) as [r|] eqn:Es; [|done]. injection E as <-.
    apply strip_prefix_l_Some in Es as ->. rewrite length_app.
    destruct (seps_ok_elim s s Hs Hs) as (Hne & _). destruct s; [done|]. simpl. lia.
Qed.

Lemma split_seps_skip u l : split_seps seps (length u) (u ++ l) = split_seps seps 0 l.
Proof. induction u as [|a u IH]; simpl; [done|]. apply IH. Qed.

Lemma split_seps_nonempty k l : split_seps seps k l ≠ [].
Proof.
  revert k. induction l as [|a l IH]; intros [|k]; cbn [split_seps]; [done|done| |apply IH].
  destruct (sep_at seps (a :: l)); [done|]. by destruct (split_seps seps 0 l).
Qed.

(** Around a separator the pieces are those of the two sides. *)
Lemma split_seps_app_sep k a w b :
  k ≤ length a → w ∈ seps →
  split_seps seps k (a ++ w ++ b) = split_seps seps k a ++ split_seps seps 0 b.
Proof.
  intros Hk Hw. revert k Hk. induction a as [|c a IH]; intros k Hk; simpl in Hk.
  - assert (k = 0) as -> by lia. simpl.
    destruct (seps_ok_elim w w Hw Hw) as (Hne & _). pose proof (sep_at_sep w b Hw) as E.
    destruct w as [|c w]; [done|]. cbn [app split_seps]. simpl in E. rewrite E.
    cbn [length pred]. by rewrite split_seps_skip.
  - destruct k as [|k].
    + destruct (sep_at_app (c :: a) w b ltac:(done) Hw) as [E Hn].
      change ((c :: a) ++ w ++ b) with (c :: a ++ w ++ b) in *. cbn [split_seps]. rewrite E.
      destruct (sep_at seps (c :: a)) as [n|].
      * specialize (Hn n eq_refl). simpl in Hn. rewrite IH by lia. done.
      * rewrite IH by lia. pose proof (split_seps_nonempty 0 a) as Hne.
        by destruct (split_seps seps 0 a).
    + change ((c :: a) ++ w ++ b) with (c :: a ++ w ++ b). cbn [split_seps]. apply IH. lia.
Qed.

Lemma words_app_sep a w b : w ∈ seps → words seps (a ++ w ++ b) = words seps a ++ words seps b.
Proof.
  intros Hw. unfold words. rewrite split_seps_app_sep by (done || lia). apply filter_app.
Qed.

Lemma words_nil : words seps [] = [].
Proof. done. Qed.

(** Separators around a text do not change its words. *)
Lemma words_surround us l vs :
  Forall (λ w, w ∈ seps) us → Forall (λ w, w ∈ seps) vs →
  words seps (concat us ++ l ++ concat vs) = words seps l.
Proof.
  intros Hus Hvs. induction Hus as [|u us Hu Hus IH]; simpl.
  - revert l. induction vs as [|v vs IH] using rev_ind; intros l; [by rewrite app_nil_r|].
    apply Forall_app in Hvs as [Hvs [Hv _]%Forall_cons].
    rewrite concat_app. simpl. rewrite app_nil_r, app_assoc.
    pose proof (words_app_sep (l ++ concat vs) v [] Hv) as E. rewrite app_nil_r in E.
    rewrite E, words_nil, app_nil_r. by apply IH.
  - rewrite <-app_assoc. rewrite <-IH. by apply (words_app_sep [] u).
Qed.

(** A text is its pieces with separators between. *)
Lemma split_seps_concat k l :
  k ≤ length l →
  ∃ p ps, split_seps seps k l = p :: ps.*2 ∧ Forall (λ w, w ∈ seps) ps.*1 ∧
    drop k l = p ++ concat ((λ wp : list ascii * list ascii, wp.1 ++ wp.2) <$> ps).
Proof.
  revert k. induction l as [|a l IH]; intros k Hk; simpl in Hk.
  { assert (k = 0) as -> by lia. by exists [], []. }
  destruct k as [|k]; cbn [split_seps drop].
  - destruct (sep_at seps (a :: l)) as [n|] eqn:E.
    + unfold sep_at in E. apply find_map_Some in E as (s & Hs & E).
      destruct (strip_prefix_l s (a :: l)) as [r|] eqn:Es; [|done]. injection E as <-.
      apply strip_prefix_l_Some in Es. destruct (seps_ok_elim s s Hs Hs) as (Hne & _).
      destruct s as [|c s]; [done|]. injection Es as -> ->.
      destruct (IH (length s)) as (p & ps & E & Hps & Hd); [rewrite length_app; lia|].
      exists [], ((c :: s, p) :: ps). simpl. rewrite E. split_and!; [done|by apply Forall_cons|].
      simpl. rewrite drop_app_length in Hd. rewrite Hd. by rewrite <-app_assoc.
    + destruct (IH 0) as (p & ps & E' & Hps & Hd); [lia|]. rewrite E'.
      exists (a :: p), ps. split_and!; [done|done|]. simpl. by rewrite <-Hd, drop_0.
  - apply IH. lia.
Qed.
End Words.

(** A coarser splitting first does not change the words. *)
Lemma words_pieces seps1 seps2 l :
  seps_ok seps1 = true → seps_ok seps2 = true → seps1 ⊆ seps2 →
  words seps2 l = concat (words seps2 <$> split_seps seps1 0 l).
Proof.
  intros H1 H2 Hsub. destruct (split_seps_concat seps1 H1 0 l) as (p & ps & -> & Hps & Hd); [lia|].
  rewrite drop_0 in Hd. subst l. simpl. revert p.
  induction ps as [|[w q] ps IH]; intros p; simpl; [by rewrite !app_nil_r|].
  apply Forall_cons in Hps as [Hw Hps]. rewrite <-app_assoc.
  rewrite words_app_sep by (done || by apply Hsub). by rewrite IH.
Qed.

Lemma words_join seps sp l :
  seps_ok seps = true → sp ∈ seps →
  words seps (join_l sp l) = concat (words seps <$> l).
Proof.
  intros Hok Hsp. induction l as [|a l IH]; simpl; [done|].
  destruct l as [|b l]; [by rewrite app_nil_r|]. by rewrite words_app_sep, IH.
Qed.

(** Splitting coarsely and joining with a finer separator. *)
Lemma words_join_words seps1 seps2 sp l :
  seps_ok seps1 = true → seps_ok seps2 = true → seps1 ⊆ seps2 → sp ∈ seps2 →
  words seps2 (join_l sp (words seps1 l)) = words seps2 l.
Proof.
  intros H1 H2 Hsub Hsp. rewrite words_join, (words_pieces seps1 seps2 l) by done.
  unfold words at 2. induction (split_seps seps1 0 l) as [|p ps IH]; [done|].
  rewrite filter_cons. case_decide as Hp; rewrite !fmap_cons; cbn [concat]; rewrite IH; [done|].
  by subst p.
Qed.

(** Mapping some single-byte characters onto a separator makes them
    separators. *)
Definition fold_onto (extra : list ascii) (sp : ascii) (c : ascii) : ascii :=
  if bool_decide (c ∈ extra) then sp else c.

Lemma words_fold_onto seps extra sp l :
  [sp] ∈ seps → (∀ w, w ∈ seps → Forall (λ c, c ∉ extra) w) →
  (∀ w, w ∈ seps → w ≠ [sp] → sp ∉ w) → seps_ok seps = true →
  words seps (map (fold_onto extra sp) l)
  = words (seps ++ ((λ c, [c]) <$> extra)) l.
Proof.
  intros Hsp Hex Hnsp Hok.
  assert (∀ w l, w ∈ seps → w ≠ [sp] →
    is_some (strip_prefix_l w (map (fold_onto extra sp) l)) = is_some (strip_prefix_l w l)) as Hstrip.
  { intros w l0 Hw Hne. specialize (Hex w Hw). specialize (Hnsp w Hw Hne).
    clear -Hex Hnsp. revert l0.
    induction w as [|c w IH]; intros l; [done|]. destruct l as [|a l]; [done|]. simpl.
    apply Forall_cons in Hex as [Hc Hex].
    assert (Ascii.eqb c (fold_onto extra sp a) = Ascii.eqb c a) as ->.
    { unfold fold_onto. case_bool_decide as Ha; [|done].
      destruct (Ascii.eqb_spec c sp) as [->|]; [set_solver|].
      destruct (Ascii.eqb_spec c a) as [->|]; [done|done]. }
    destruct (Ascii.eqb c a); [|done]. apply IH; [done|set_solver]. }
  assert (∀ a l, sep_at seps (fold_onto extra sp a :: map (fold_onto extra sp) l)
    = sep_at (seps ++ ((λ c, [c]) <$> extra)) (a :: l)) as Hat.
  { intros a l0. unfold sep_at at 2. rewrite find_map_app. fold (sep_at seps (a :: l0)).
    unfold fold_onto at 1. case_bool_decide as Ha.
    - pose proof (sep_at_sep seps Hok [sp] (map (fold_onto extra sp) l0) Hsp) as E.
      simpl in E. rewrite E. clear E.
      assert (sep_at seps (a :: l0) = None) as ->.
      { apply find_map_none. intros s Hs. destruct (seps_ok_elim seps Hok s s Hs Hs) as (Hne & _).
        specialize (Hex s Hs). destruct s as [|c s]; [done|]. apply Forall_cons in Hex as [Hc _].
        simpl. destruct (Ascii.eqb_spec c a) as [->|]; done. }
      simpl. symmetry. clear -Ha. induction extra as [|e ex IH]; [set_solver|]. simpl.
      destruct (Ascii.eqb_spec e a) as [->|]; [done|]. apply IH. set_solver.
    - assert (find_map (λ w, (λ _, length w) <$> strip_prefix_l w (a :: l0))
        ((λ c, [c]) <$> extra) = None) as ->.
      { apply find_map_none. intros s (e & -> & He)%list_elem_of_fmap. simpl.
        destruct (Ascii.eqb_spec e a) as [->|]; done. }
      assert (∀ o : option nat, or_else o None = o) as -> by (by intros []).
      unfold sep_at. apply find_map_ext. intros s Hs.
      destruct (decide (s = [sp])) as [->|Hne].
      { simpl. by destruct (Ascii.eqb sp a). }
      specialize (Hstrip s (a :: l0) Hs Hne). simpl in Hstrip.
      unfold fold_onto at 1 in Hstrip. rewrite bool_decide_eq_false_2 in Hstrip by done.
      destruct (strip_prefix_l s (a :: map _ l0)), (strip_prefix_l s (a :: l0)); done. }
  unfold words. f_equal.
  assert (∀ k, split_seps seps k (map (fold_onto extra sp) l)
    = split_seps (seps ++ ((λ c, [c]) <$> extra)) k l) as ->; [|done].
  induction l as [|a l IH]; intros k; [done|]. cbn [map split_seps]. destruct k as [|k]; [|apply IH].
  rewrite Hat. destruct (sep_at (seps ++ _) (a :: l)) as [n|] eqn:E; [by rewrite IH|].
  rewrite IH. unfold fold_onto. rewrite bool_decide_eq_false_2; [done|].
  intros Ha. unfold sep_at in E. apply (find_map_None _ _ [a]) in E.
  - simpl in E. by rewrite Ascii.eqb_refl in E.
  - apply elem_of_app. right. apply list_elem_of_fmap. by exists a.
Qed.

(** ** [trim] *)

Lemma trim_front_split fuel ws l :
  ∃ us, l = concat us ++ trim_front fuel ws l ∧ Forall (λ w, w ∈ ws) us.
Proof.
  revert l. induction fuel as [|fuel IH]; intros l; simpl; [by exists []|].
  destruct (find_map _ ws) as [l'|] eqn:E; [|by exists []].
  apply find_map_Some in E as (w & Hw & E). apply strip_prefix_l_Some in E as ->.
  destruct (IH l') as (us & E & Hus). exists (w :: us). simpl. rewrite <-app_assoc, <-E.
  split; [done|by constructor].
Qed.

Lemma rev_concat (us : list (list ascii)) : rev (concat us) = concat (map (@rev ascii) (rev us)).
Proof.
  induction us as [|u us IH]; simpl; [done|].
  rewrite rev_app_distr, IH, map_app, concat_app. simpl. by rewrite app_nil_r.
Qed.

(** Trimming takes whole whitespace characters off both ends. *)
Lemma trim_split s :
  ∃ us vs, chars s = concat us ++ chars (trim s) ++ concat vs ∧
    Forall (λ w, w ∈ white_space) us ∧ Forall (λ w, w ∈ white_space) vs.
Proof.
  destruct (trim_front_split (length (chars s)) white_space (chars s)) as (us & E & Hus).
  set (l := trim_front (length (chars s)) white_space (chars s)) in *.
  destruct (trim_front_split (length l) (map (@rev ascii) white_space) (rev l))
    as (vs & E' & Hvs).
  exists us, (map (@rev ascii) (rev vs)). split_and!; [|done|].
  - rewrite E at 1. f_equal. unfold trim. rewrite chars_of_chars. fold l.
    rewrite <-(rev_involutive l) at 1. rewrite E' at 1.
    by rewrite rev_app_distr, rev_concat.
  - rewrite Forall_forall. intros w. rewrite list_elem_of_In, in_map_iff.
    intros (v & <- & Hv%in_rev). rewrite Forall_forall in Hvs.
    specialize (Hvs v ltac:(by apply list_elem_of_In)).
    rewrite list_elem_of_In, in_map_iff in Hvs. destruct Hvs as (u & <- & Hu).
    rewrite rev_involutive. by apply list_elem_of_In.
Qed.

Lemma white_space_ok : seps_ok white_space = true.
Proof. vm_compute. reflexivity. Qed.

(** ** Comparing bytes without case *)

Definition eq_ignore_ascii_case (a b : ascii) : bool :=
  Ascii.eqb (to_ascii_lower a) (to_ascii_lower b).

Lemma to_ascii_lower_idemp c : to_ascii_lower (to_ascii_lower c) = to_ascii_lower c.
Proof. by destruct c as [[] [] [] [] [] [] [] []]. Qed.

Definition is_upper (c : ascii) : bool := ((65 <=? code c) && (code c <=? 90))%Z.

Lemma to_ascii_lower_id c : is_upper c = false → to_ascii_lower c = c.
Proof. unfold to_ascii_lower, is_upper. by intros ->. Qed.

Definition is_ascii_alphanumeric (c : ascii) : bool :=
  is_digit c || is_upper c || ((97 <=? code c) && (code c <=? 122))%Z.

Fixpoint take_while {A} (f : A → bool) (l : list A) : list A :=
  match l with
  | [] => []
  | a :: l => if f a then a :: take_while f l else []
  end.

Lemma take_while_split {A} (f : A → bool) l :
  ∃ r, l = take_while f l ++ r ∧ Forall (λ a, f a = true) (take_while f l) ∧
    match r with a :: _ => f a = false | [] => True end.
Proof.
  induction l as [|a l (r & E & Hf & Hr)]; simpl; [by exists []|].
  destruct (f a) eqn:Ha; [|by exists (a :: l)]. exists r. simpl. rewrite <-E.
  split_and!; [done|by constructor|done].
Qed.

(** ** Lines *)

Definition strip_cr (l : list ascii) : list ascii :=
  match rev l with c :: r => if Ascii.eqb c (chr 13) then rev r else l | [] => l end.

(** [str::lines]: only a carriage return in front of a line feed goes. *)
Definition lines (s : string) : list (list ascii) :=
  let parts := split_l (chr 10) (chars s) in
  map strip_cr (removelast parts) ++
  match last parts with Some (c :: tail) => [c :: tail] | _ => [] end.
