(* ===== verification/Census.v ===== *)
(** * The resource census (crates/rsrpc-telemetry/src/lib.rs, bridge.rs of crates/rsrpc-bridge)

    The readings of the process's memory from the texts of [/proc], the
    counts of consumers and queued inputs, and the line that reports them.
    A number of bytes is printed in megabytes with one decimal through an
    [f64]: its conversion from [u64] rounds to 53 significant bits, the
    division by a power of two is exact, and [{:.1}] rounds the exact value
    to even.  The widths of [usize] and [u64] are taken to be the same. *)

From stdpp Require Import base gmap strings list fin_maps.
From Stdlib Require Import Ascii.
From S2P Require Import Prelude RStr Text HashMaps Json Ids User Protocol Handoff Consumers Bridge.

Local Open Scope string_scope.
Local Open Scope Z_scope.
Local Open Scope list_scope.

(** ** Memory *)

Definition checked_mul (a b : Z) : option Z := if a * b <=? U64_MAX then Some (a * b) else None.

(** [page_size_bytes], from what [sysconf] answers. *)
Definition page_size_bytes (sysconf : Z) : option Z := if 0 <? sysconf then Some sysconf else None.

(** [rss_bytes], from the text of [/proc/self/statm]. *)
Definition rss_bytes (statm : option string) (sysconf : Z) : option Z :=
  text ← statm;
  field ← words white_space (chars text) !! 1%nat;
  resident_pages ← parse_u64 (of_chars field);
  page ← page_size_bytes sysconf;
  checked_mul resident_pages page.

(** The loop of [rss_hwm_bytes]: the first [VmHWM:] line decides. *)
Fixpoint hwm_of_lines (ls : list (list ascii)) : option Z :=
  match ls with
  | [] => None
  | line :: ls =>
      match strip_prefix "VmHWM:" (of_chars line) with
      | Some rest =>
          field ← words white_space (chars rest) !! 0%nat;
          kib ← parse_u64 (of_chars field);
          checked_mul kib 1024
      | None => hwm_of_lines ls
      end
  end.

(** [rss_hwm_bytes], from the text of [/proc/self/status]. *)
Definition rss_hwm_bytes (status : option string) : option Z := text ← status; hwm_of_lines (lines text).

(** ** The census *)

Record StatsSnapshot := {
  st_rss_bytes : option Z;
  st_rss_hwm_bytes : option Z;
  st_heap : option (Z * Z);
  st_bridge_json : Z;
  st_bridge_msgpack : Z;
  st_ws : Z;
  st_watch_depth : Z;
  st_proc_depth : Z;
  st_ws_depth : Z;
  st_shed_watch : Z
}.

(** A sender as the census sees it. *)
Record Sender := { tx_max_capacity : Z; tx_capacity : Z }.

(** [channel_depth]. *)
Definition channel_depth (tx : option Sender) : Z :=
  match tx with Some tx => sat_u64_sub (tx_max_capacity tx) (tx_capacity tx) | None => 0 end.

(** What the census reads outside the bridge's state. *)
Record Readings := {
  rd_statm : option string;
  rd_status : option string;
  rd_sysconf : Z;
  rd_heap_numbers : option (Z * Z);
  rd_game_clients : option Z;
  rd_proc_tx : option Sender;
  rd_ipc_tx : option Sender;
  rd_game_tx : option Sender;
  rd_watch_dropped : option Z
}.

Section Census.
Context `{HashOrder}.

(** The counting pass over the consumers. *)
Definition count_protocols (consumers : gmap ClientId Consumer) : Z * Z :=
  foldl (λ '(json, msgpack) kv,
    match con_protocol kv.2 with
    | PJson => (json + 1, msgpack)
    | PMsgPack => (json, msgpack + 1)
    end) (0, 0) (hm_iter consumers).

(** [census_snapshot]. *)
Definition census_snapshot (rd : Readings) (s : Shared) : StatsSnapshot :=
  let '(json_clients, msgpack_clients) := count_protocols (sh_consumers s) in
  {| st_rss_bytes := rss_bytes (rd_statm rd) (rd_sysconf rd);
     st_rss_hwm_bytes := rss_hwm_bytes (rd_status rd);
     st_heap := rd_heap_numbers rd;
     st_bridge_json := json_clients;
     st_bridge_msgpack := msgpack_clients;
     st_ws := default 0 (rd_game_clients rd);
     st_watch_depth := channel_depth (rd_proc_tx rd);
     st_proc_depth := channel_depth (rd_ipc_tx rd);
     st_ws_depth := channel_depth (rd_game_tx rd);
     st_shed_watch := default 0 (rd_watch_dropped rd) |}.
End Census.

(** ** The line *)

(** [num / den] rounded to the nearest integer, ties to even. *)
Definition round_half_even (num den : Z) : Z :=
  let q := num / den in
  let r := num mod den in
  if (2 * r <? den) || ((2 * r =? den) && Z.even q) then q else q + 1.

(** [bytes as f64]: 53 significant bits. *)
Definition f64_of_u64 (z : Z) : Z :=
  let ulp := 2 ^ Z.max 0 (Z.log2 z - 52) in round_half_even z ulp * ulp.

(** The value [{:.1}] prints, in tenths. *)
Definition mb_tenths (bytes : Z) : Z := round_half_even (10 * f64_of_u64 bytes) 1048576.

Definition mb_text (bytes : Z) : string :=
  u64_to_string (mb_tenths bytes / 10) +:+ "." +:+ u64_to_string (mb_tenths bytes mod 10) +:+ "MB".

(** [rss_mb], [rss_hwm_mb]. *)
Definition opt_mb (bytes : option Z) : string := from_option mb_text "n/a" bytes.

Definition heap_live_mb (s : StatsSnapshot) : string := opt_mb (fst <$> st_heap s).
Definition heap_free_mb (s : StatsSnapshot) : string := opt_mb (snd <$> st_heap s).

(** [format_resource_stats]. *)
Definition format_resource_stats (reason : string) (s : StatsSnapshot) : string :=
  "[rsrpc] stats (" +:+ reason +:+ "): rss=" +:+ opt_mb (st_rss_bytes s) +:+ "(hwm " +:+
  opt_mb (st_rss_hwm_bytes s) +:+ ") heap=live " +:+ heap_live_mb s +:+ "/free " +:+ heap_free_mb s +:+
  " bridge=json:" +:+ u64_to_string (st_bridge_json s) +:+ "+msgpack:" +:+
  u64_to_string (st_bridge_msgpack s) +:+ " ws=" +:+ u64_to_string (st_ws s) +:+ " queues=watch:" +:+
  u64_to_string (st_watch_depth s) +:+ "+proc:" +:+ u64_to_string (st_proc_depth s) +:+ "+ws:" +:+
  u64_to_string (st_ws_depth s) +:+ " shed:watch:" +:+ u64_to_string (st_shed_watch s).

(** [census_line]. *)
Definition census_line `{HashOrder} (rd : Readings) (reason : string) (s : Shared) : string :=
  format_resource_stats reason (census_snapshot rd s).

(** ** What the line tells *)

Section Rounding.
Variables (den : Z) (Hden : 0 < den).

(** The nearest integer. *)
Lemma round_half_even_near num : 2 * Z.abs (round_half_even num den * den - num) ≤ den.
Proof.
  unfold round_half_even. pose proof (Z.div_mod num den ltac:(lia)) as E.
  pose proof (Z.mod_pos_bound num den Hden) as Hm.
  set (q := num / den) in *. set (r := num mod den) in *.
  destruct (Z.ltb_spec (2 * r) den); cbn [orb]; [nia|].
  destruct (Z.eqb_spec (2 * r) den); cbn [andb]; [|nia]. destruct (Z.even q); nia.
Qed.

Lemma round_half_even_mono a b : a ≤ b → round_half_even a den ≤ round_half_even b den.
Proof.
  intros Hab. unfold round_half_even. pose proof (Z.div_mod a den ltac:(lia)) as Ea.
  pose proof (Z.div_mod b den ltac:(lia)) as Eb.
  pose proof (Z.mod_pos_bound a den Hden). pose proof (Z.mod_pos_bound b den Hden).
  pose proof (Z.div_le_mono a b den Hden Hab) as Hq.
  destruct (decide (a / den = b / den)) as [E|Hne].
  - rewrite <- E in *. assert (a mod den ≤ b mod den) by lia.
    destruct (Z.ltb_spec (2 * (a mod den)) den), (Z.ltb_spec (2 * (b mod den)) den),
      (Z.eqb_spec (2 * (a mod den)) den), (Z.eqb_spec (2 * (b mod den)) den), (Z.even (a / den)); cbn; lia.
  - destruct (_ || _), (_ || _); lia.
Qed.

Lemma round_half_even_exact k : round_half_even (k * den) den = k.
Proof.
  unfold round_half_even. rewrite Z.div_mul, Z.mod_mul by lia.
  destruct (Z.ltb_spec (2 * 0) den); [done|lia].
Qed.
End Rounding.

Definition ulp (z : Z) : Z := 2 ^ Z.max 0 (Z.log2 z - 52).

Lemma ulp_pos z : 0 < ulp z.
Proof. apply Z.pow_pos_nonneg; lia. Qed.

(** Up to 2^53 every integer is an [f64]. *)
Lemma f64_of_u64_exact z : 0 ≤ z < 2 ^ 53 → f64_of_u64 z = z.
Proof.
  intros Hz. unfold f64_of_u64. assert (Z.log2 z ≤ 52) as Hl.
  { destruct (decide (z = 0)) as [->|]; [done|]. apply Z.lt_succ_r, Z.log2_lt_pow2; lia. }
  rewrite Z.max_l by lia. change (2 ^ 0) with 1. rewrite Z.mul_1_r.
  rewrite <- (Z.mul_1_r z) at 1. by apply round_half_even_exact.
Qed.

(** The conversion does not cross a power of two. *)
Lemma f64_of_u64_binade z k :
  Z.max 0 (Z.log2 z - 52) ≤ k →
  (z ≤ 2 ^ k → f64_of_u64 z ≤ 2 ^ k) ∧ (2 ^ k ≤ z → 2 ^ k ≤ f64_of_u64 z).
Proof.
  intros Hk. unfold f64_of_u64. fold (ulp z). pose proof (ulp_pos z) as Hu.
  assert (2 ^ k = 2 ^ (k - Z.max 0 (Z.log2 z - 52)) * ulp z) as E
    by (unfold ulp; rewrite <- Z.pow_add_r by lia; f_equal; lia).
  rewrite E. set (m := 2 ^ (k - _)). split; intros Hz; apply (round_half_even_mono (ulp z) Hu) in Hz;
    rewrite round_half_even_exact in Hz by done; nia.
Qed.

Lemma f64_of_u64_mono a b : 0 ≤ a ≤ b → f64_of_u64 a ≤ f64_of_u64 b.
Proof.
  intros Hab. pose proof (Z.log2_le_mono a b ltac:(lia)) as Hl. pose proof (Z.log2_nonneg a) as Ha.
  destruct (decide (Z.max 0 (Z.log2 a - 52) = Z.max 0 (Z.log2 b - 52))) as [E|Hne].
  - unfold f64_of_u64. rewrite <- E. fold (ulp a). pose proof (ulp_pos a) as Hu.
    apply Z.mul_le_mono_nonneg_r; [lia|]. apply round_half_even_mono; [done|lia].
  - assert (0 < b) as Hb by (destruct (decide (b = 0)) as [->|]; [|lia]; cbn in Hl, Hne; lia).
    destruct (Z.log2_spec b Hb) as [Hb1 _]. etransitivity; [apply (f64_of_u64_binade a (Z.log2 b))|].
    + lia.
    + destruct (decide (a = 0)) as [->|]; [lia|]. apply Z.lt_le_incl, Z.log2_lt_pow2; lia.
    + apply (f64_of_u64_binade b (Z.log2 b)); [lia|done].
Qed.

(** The census prints memory to a tenth of a megabyte: a reading is off
    by at most half a tenth below eight petabytes, and a larger reading
    never prints smaller. *)
Theorem census_megabytes (a b : Z) :
  0 ≤ a ≤ b →
  mb_tenths a ≤ mb_tenths b ∧ (a < 2 ^ 53 → 2 * Z.abs (mb_tenths a * 1048576 - 10 * a) ≤ 1048576).
Proof.
  intros Hab. unfold mb_tenths. split.
  - apply round_half_even_mono; [done|]. pose proof (f64_of_u64_mono a b Hab). lia.
  - intros Ha. rewrite f64_of_u64_exact by lia. by apply round_half_even_near.
Qed.

Lemma census_megabytes_witness : mb_tenths 150000000 ≤ mb_tenths 150000001 ∧ mb_text 150000000 = "143.1MB".
Proof.
  split; [|vm_compute; reflexivity]. apply (census_megabytes 150000000 150000001). lia.
Defined.

Section Counts.
Context `{HashOrder}.

Lemma count_protocols_acc (l : list (ClientId * Consumer)) j m :
  foldl (λ '(json, msgpack) kv,
    match con_protocol kv.2 with
    | PJson => (json + 1, msgpack)
    | PMsgPack => (json, msgpack + 1)
    end) (j, m) l =
  (j + Z.of_nat (length (base.filter (λ kv, con_protocol kv.2 = PJson) l)),
   m + Z.of_nat (length (base.filter (λ kv, con_protocol kv.2 = PMsgPack) l))).
Proof.
  revert j m. induction l as [|[id c] l IH]; intros j m; [cbn; f_equal; lia|].
  cbn [foldl]. destruct (con_protocol c) eqn:E; cbn [snd]; rewrite E, IH, !filter_cons; cbn [snd]; rewrite E;
    repeat case_decide; try done; cbn [length]; f_equal; lia.
Qed.

Lemma size_filter_list (P : ClientId * Consumer → Prop) `{∀ x, Decision (P x)} (m : gmap ClientId Consumer) :
  size (base.filter P m) = length (base.filter P (map_to_list m)).
Proof.
  induction m as [|i x m Hi IH] using map_ind; [by rewrite map_filter_empty, map_to_list_empty, map_size_empty|].
  rewrite (map_to_list_insert m i x Hi), filter_cons, map_filter_insert. case_decide; cbn [length].
  - rewrite map_size_insert_None by (apply map_lookup_filter_None; by left). by rewrite IH.
  - by rewrite (delete_id m i Hi).
Qed.

(** The census counts each consumer once: its JSON and MessagePack
    figures add up to the consumers of the bridge and are the sizes of the
    two encodings' parts, in whatever order the map is visited. *)
Theorem census_counts_consumers (rd : Readings) (s : Shared) :
  let c := census_snapshot rd s in
  st_bridge_json c + st_bridge_msgpack c = Z.of_nat (size (sh_consumers s)) ∧
  st_bridge_json c = Z.of_nat (size (base.filter (λ kv, con_protocol kv.2 = PJson) (sh_consumers s))).
Proof.
  unfold census_snapshot, count_protocols. rewrite count_protocols_acc. cbn.
  rewrite !(hm_iter_perm (sh_consumers s)), <- length_map_to_list. split.
  - induction (map_to_list (sh_consumers s)) as [|[id c] l IH]; [done|].
    rewrite !filter_cons. cbn [snd]. destruct (con_protocol c); repeat case_decide; try done; cbn [length]; lia.
  - by rewrite size_filter_list.
Qed.
End Counts.

Lemma census_example :
  let c := {| con_responder := BridgeDemo.responder; con_protocol := PMsgPack |} in
  census_line (H := default_order)
    {| rd_statm := Some "9000 36621 400"; rd_status := Some ("Name: rsrpc" +:+ str_of_codes [10] +:+ "VmHWM:  200000 kB");
       rd_sysconf := 4096; rd_heap_numbers := None; rd_game_clients := Some 2;
       rd_proc_tx := Some {| tx_max_capacity := 512; tx_capacity := 500 |}; rd_ipc_tx := None;
       rd_game_tx := None; rd_watch_dropped := None |} "hourly"
    (set_consumers {[1 := BridgeDemo.consumer; 2 := c]} ∅ BridgeDemo.start)
  = "[rsrpc] stats (hourly): rss=143.1MB(hwm 195.3MB) heap=live n/a/free n/a bridge=json:1+msgpack:1 ws=2 queues=watch:12+proc:0+ws:0 shed:watch:0".
Proof. vm_compute. reflexivity. Qed.
