(* ===== verification/ScanNames.v ===== *)
(** * Names, command lines and [/proc] texts (crates/rsrpc-detect/src/scan.rs)

    The text half of the scanner: what a command line, an environ and a
    stat line say about a process, and the normal forms under which game
    names, folders and executables are compared.  Files are given as the
    bytes read from them ([None] when unreadable). *)

From stdpp Require Import base strings list list_numbers sets.
From Stdlib Require Import Ascii.
From S2P Require Import Prelude RStr Text.

Local Open Scope string_scope.
Local Open Scope nat_scope.
Local Open Scope list_scope.

(** ** Sidecars *)

Definition STEAM_SIDECAR_BASENAMES : list string :=
  ["steamapprun"; "fossilize"; "wineserver"; "wineboot"; "proton"; "protonfixes";
   "pressure-vessel"; "pressure-vessel-arm64"; "bwrap"; "steamwebhelper"; "steam-runtime";
   "pv-wrap"; "run-in-soldier"].

Definition matches_sidecar_family (basename base : string) : bool :=
  match strip_prefix base basename with
  | Some rest => starts_with "-" rest || starts_with "_" rest
  | None => false
  end.

Definition is_steam_sidecar (basename : string) : bool :=
  bool_decide (basename ∈ STEAM_SIDECAR_BASENAMES)
  || matches_sidecar_family basename "fossilize"
  || matches_sidecar_family basename "steam-runtime"
  || matches_sidecar_family basename "pv-wrap".

(** ** Command lines *)

Record Exec := {
  exec_pid : Z;
  exec_path : string;
  exec_arguments : option string
}.

(** [Utf8Error::valid_up_to]: the length of the longest valid prefix made
    of whole characters. *)
Fixpoint valid_up_to (l : list Z) : nat :=
  match l with
  | [] => 0
  | a :: l1 =>
      if (a <? 128)%Z then S (valid_up_to l1)
      else match l1 with
           | [] => 0
           | b :: l2 =>
               if ((194 <=? a) && (a <=? 223) && cont b)%Z then 2 + valid_up_to l2
               else match l2 with
                    | [] => 0
                    | c :: l3 =>
                        if utf8_second3 a b && cont c then 3 + valid_up_to l3
                        else match l3 with
                             | [] => 0
                             | d :: l4 =>
                                 if utf8_second4 a b && cont c && cont d
                                 then 4 + valid_up_to l4 else 0
                             end
                    end
           end
  end.

Definition MAX_CMDLINE_BYTES : nat := 64 * 1024.
Definition NUL : ascii := chr 0.
Definition SPACE : ascii := chr 32.

(** [read_exec_into] on the bytes of [/proc/<pid>/cmdline]. *)
Definition read_exec (pid : Z) (cmdline : option (list ascii)) : option Exec :=
  match cmdline with
  | None | Some [] => None
  | Some bytes =>
      let bytes := take MAX_CMDLINE_BYTES bytes in
      let text := take (valid_up_to (map code bytes)) bytes in
      match split_l NUL text with
      | path :: args =>
          let joined := join_l [SPACE] args in
          Some {| exec_pid := pid; exec_path := of_chars path;
                  exec_arguments := match joined with [] => None | _ => Some (of_chars joined) end |}
      | [] => None
      end
  end.

Definition TOKEN : list ascii := chars "AppId=".

(** The loop of [app_id_from_args].  Fuel: every round removes the token. *)
Fixpoint app_id_loop (fuel : nat) (rest : list ascii) : option string :=
  match fuel with
  | 0 => None
  | S fuel =>
      match find_sub TOKEN rest with
      | None => None
      | Some (before, rest) =>
          let boundary := match last before with
                          | None => true
                          | Some c => negb (is_ascii_alphanumeric c)
                          end in
          if negb boundary then app_id_loop fuel rest
          else match take_while is_digit rest with
               | [] => app_id_loop fuel rest
               | digits => Some (of_chars digits)
               end
      end
  end.

Definition app_id_from_args (arguments : option string) : option string :=
  match arguments with
  | None => None
  | Some args => app_id_loop (S (length (chars args))) (chars args)
  end.

(** ** The environ *)

Definition MAX_ENVIRON_BYTES : nat := 256 * 1024.

Definition steam_app_id_entry (entry : list ascii) : option string :=
  match strip_prefix_l (chars "SteamAppId=") entry with
  | None => None
  | Some id =>
      if utf8_valid (map code id) then
        let id := trim (of_chars id) in
        if str_empty id then None else Some id
      else None
  end.

(** [read_steam_app_id] on the bytes of [/proc/<pid>/environ]. *)
Definition read_steam_app_id (environ : option (list ascii)) : option string :=
  match environ with
  | None => None
  | Some bytes => find_map steam_app_id_entry (split_l NUL (take MAX_ENVIRON_BYTES bytes))
  end.

(** ** The stat line *)

(** [parse_stat_state]: the state character. *)
Definition parse_stat_state (stat : string) : option (list ascii) :=
  match rsplit_once_l ")"%char (chars stat) with
  | None => None
  | Some (_, rest) => match words white_space rest with
                      | state :: _ => head (utf8_chars state)
                      | [] => None
                      end
  end.

(** [is_suspended] on the text of [/proc/<pid>/stat]. *)
Definition is_suspended (stat : option string) : bool :=
  match stat ≫= parse_stat_state with
  | Some state => bool_decide (state = ["T"%char]) || bool_decide (state = ["t"%char])
  | None => false
  end.

(** ** Normal forms *)

(** Less, greater, colon, double quote, slash, backslash, bar, question
    mark, star. *)
Definition FORBIDDEN_NAME_CHARS : list ascii := map chr [60; 62; 58; 34; 47; 92; 124; 63; 42]%Z.

Definition normalize_name (name : string) : string :=
  let lower := to_ascii_lowercase (trim name) in
  let replaced := map (fold_onto FORBIDDEN_NAME_CHARS SPACE) (chars lower) in
  of_chars (join_l [SPACE] (words white_space replaced)).

Definition name_seps : list (list ascii) := white_space ++ ((λ c, [c]) <$> FORBIDDEN_NAME_CHARS).
Definition dedot_seps : list (list ascii) :=
  white_space ++ ((λ c, [c]) <$> ("."%char :: FORBIDDEN_NAME_CHARS)).

Definition normalize_lowered_into (name : string) : string :=
  of_chars (join_l [SPACE] (words name_seps (chars name))).

Definition normalize_name_into (name : string) : string :=
  normalize_lowered_into (of_chars (map to_ascii_lower (chars (trim name)))).

Definition normalize_lowered_dedotted_into (name : string) : string :=
  of_chars (join_l [SPACE] (words dedot_seps (chars name))).

(** [bundle::dedot]. *)
Definition dedot (name : string) : string :=
  of_chars (join_l [SPACE]
    (words white_space (map (fold_onto ["."%char] SPACE) (chars name)))).

Definition name_matchable (normalized : string) : bool :=
  str_contains " " normalized && bool_decide (6 ≤ char_count normalized).

(** The last component ([rsplit('/').next()]). *)
Definition basename (path : string) : string := default path (last (split "/" path)).

Definition exe_stem (normalized_path : string) : string :=
  let base := basename normalized_path in
  match rsplit_once_l "."%char (chars base) with
  | Some (stem, _) => match stem with [] => base | _ => of_chars stem end
  | None => base
  end.

(** [str::parse::<u32>]. *)
Definition parse_u32 (s : string) : option Z :=
  match parse_u64 s with
  | Some n => if (n <=? U32_MAX)%Z then Some n else None
  | None => None
  end.

Definition is_shortcut_id (app_id : string) : bool :=
  match parse_u32 app_id with
  | Some id => negb (Z.land id 2147483648 =? 0)%Z
  | None => false
  end.

(** ** Which executable a path names *)

Definition SLASH : ascii := "/"%char.
Definition BACKSLASH : ascii := chr 92.

(** One byte of a declared name against one of the path. *)
Definition byte_names (path_byte name_byte : ascii) : bool :=
  let name_byte := if Ascii.eqb name_byte BACKSLASH then SLASH else name_byte in
  eq_ignore_ascii_case path_byte name_byte.

(** [tail.iter().zip(name).all(..)]. *)
Fixpoint bytes_name (tail name : list ascii) : bool :=
  match tail, name with
  | a :: tail, b :: name => byte_names a b && bytes_name tail name
  | _, _ => true
  end.

Definition own_boundary (name : list ascii) : bool :=
  match name with
  | c :: _ => Ascii.eqb c SLASH || Ascii.eqb c BACKSLASH
  | [] => false
  end.

Definition BUNDLE_INTERIOR : list ascii := chars "/contents/".

Fixpoint eq_bytes_ignore_case (a b : list ascii) : bool :=
  match a, b with
  | [], [] => true
  | x :: a, y :: b => eq_ignore_ascii_case x y && eq_bytes_ignore_case a b
  | _, _ => false
  end.

Definition starts_with_bundle_interior (rest : list ascii) : bool :=
  bool_decide (length BUNDLE_INTERIOR ≤ length rest)
  && eq_bytes_ignore_case (take (length BUNDLE_INTERIOR) rest) BUNDLE_INTERIOR.

(** One window of [path.windows(name.len())]. *)
Definition bundle_at (path name : list ascii) (at_ : nat) : bool :=
  let window := take (length name) (drop at_ path) in
  bytes_name window name
  && (bool_decide (at_ = 0) || bool_decide (path !! pred at_ = Some SLASH) || own_boundary name)
  && starts_with_bundle_interior (drop (at_ + length name) path).

Definition names_a_bundle (path name : list ascii) : bool :=
  if decide (length name < 4) then false
  else if negb (eq_bytes_ignore_case (drop (length name - 4) name) (chars ".app")) then false
  else existsb (bundle_at path name) (seq 0 (S (length path) - length name)).

Definition exe_names_path (path name : string) : bool :=
  let name := default name (strip_prefix ">" name) in
  if str_empty name then false
  else
    let path := chars path in
    let name := chars name in
    let by_tail :=
      if decide (length name ≤ length path) then
        let at_ := length path - length name in
        let rest := take at_ path in
        bytes_name (drop at_ path) name
        && (bool_decide (rest = []) || bool_decide (last rest = Some SLASH) || own_boundary name)
      else false in
    if by_tail then true else names_a_bundle path name.

#[global] Opaque MAX_CMDLINE_BYTES MAX_ENVIRON_BYTES.

(** ** Normal forms agree *)

Lemma name_seps_ok : seps_ok name_seps = true.
Proof. vm_compute. reflexivity. Qed.

Lemma dedot_seps_ok : seps_ok dedot_seps = true.
Proof. vm_compute. reflexivity. Qed.

Lemma space_white : [SPACE] ∈ white_space.
Proof. apply list_elem_of_In. vm_compute. tauto. Qed.

Lemma white_space_bytes (extra : list ascii) :
  forallb (λ w, forallb (λ c, negb (bool_decide (c ∈ extra))) w) white_space = true →
  ∀ w, w ∈ white_space → Forall (λ c, c ∉ extra) w.
Proof.
  intros Hb w Hw. rewrite forallb_forall in Hb.
  specialize (Hb w ltac:(by apply list_elem_of_In)). rewrite forallb_forall in Hb.
  rewrite Forall_forall. intros c Hc. specialize (Hb c ltac:(by apply list_elem_of_In)).
  by apply negb_true_iff, bool_decide_eq_false in Hb.
Qed.

Lemma white_space_space w : w ∈ white_space → w ≠ [SPACE] → SPACE ∉ w.
Proof.
  intros Hw Hne. assert (forallb (λ w, bool_decide (w = [SPACE]) || negb (bool_decide (SPACE ∈ w)))
    white_space = true) as Hb by (vm_compute; reflexivity).
  rewrite forallb_forall in Hb. specialize (Hb w ltac:(by apply list_elem_of_In)).
  apply orb_true_iff in Hb as [Hb|Hb]; [by apply bool_decide_eq_true in Hb|].
  by apply negb_true_iff, bool_decide_eq_false in Hb.
Qed.

(** Forbidden characters become separators. *)
Lemma words_forbidden l :
  words white_space (map (fold_onto FORBIDDEN_NAME_CHARS SPACE) l) = words name_seps l.
Proof.
  apply words_fold_onto; [apply space_white| |apply white_space_space|apply white_space_ok].
  apply white_space_bytes. vm_compute. reflexivity.
Qed.

Lemma words_dot l :
  words white_space (map (fold_onto ["."%char] SPACE) l) = words (white_space ++ [["."%char]]) l.
Proof.
  apply (words_fold_onto white_space ["."%char]);
    [apply space_white| |apply white_space_space|apply white_space_ok].
  apply white_space_bytes. vm_compute. reflexivity.
Qed.

Lemma words_dot_forbidden l :
  words name_seps (map (fold_onto ["."%char] SPACE) l) = words dedot_seps l.
Proof.
  rewrite <-words_forbidden, map_map.
  rewrite <-(words_fold_onto white_space ("."%char :: FORBIDDEN_NAME_CHARS) SPACE);
    [| |apply white_space_bytes; vm_compute; reflexivity|apply white_space_space
     |apply white_space_ok]; [|apply space_white].
  f_equal. apply map_ext. by intros [[] [] [] [] [] [] [] []].
Qed.

Lemma white_subset_name : white_space ⊆ name_seps.
Proof. unfold name_seps. set_solver. Qed.

Lemma words_name_trim s : words name_seps (chars (trim s)) = words name_seps (chars s).
Proof.
  destruct (trim_split s) as (us & vs & -> & Hus & Hvs). symmetry.
  apply words_surround; [apply name_seps_ok|..]; (eapply Forall_impl; [done|]);
    intros w Hw; by apply white_subset_name.
Qed.

Lemma normalize_name_words name :
  normalize_name name
  = of_chars (join_l [SPACE] (words name_seps (map to_ascii_lower (chars (trim name))))).
Proof.
  unfold normalize_name, to_ascii_lowercase. by rewrite words_forbidden, chars_of_chars.
Qed.

Lemma lowercase_trim name :
  to_ascii_lowercase name = name → map to_ascii_lower (chars (trim name)) = chars (trim name).
Proof.
  intros Hl. apply (f_equal chars) in Hl. unfold to_ascii_lowercase in Hl.
  rewrite chars_of_chars in Hl. destruct (trim_split name) as (us & vs & E & _).
  rewrite E, !map_app in Hl. apply app_inj_1 in Hl as [_ Hl]; [|by rewrite length_map].
  by apply app_inj_1 in Hl as [? _]; [|rewrite length_map].
Qed.

Lemma normalize_lowered name :
  to_ascii_lowercase name = name → normalize_lowered_into name = normalize_name name.
Proof.
  intros Hl. rewrite normalize_name_words, (lowercase_trim name Hl). unfold normalize_lowered_into.
  by rewrite words_name_trim.
Qed.

Lemma words_bytes seps k l p c : p ∈ split_seps seps k l → c ∈ p → c ∈ l.
Proof.
  revert k p. induction l as [|a l IH]; intros k p; cbn [split_seps].
  { rewrite list_elem_of_singleton. by intros ->. }
  destruct k as [|k]; [|intros; right; by eapply IH].
  destruct (sep_at seps (a :: l)) as [n|].
  - rewrite elem_of_cons. intros [->|Hp] Hc; [by apply not_elem_of_nil in Hc|]. right. by eapply IH.
  - destruct (split_seps seps 0 l) as [|x xs] eqn:E.
    + rewrite list_elem_of_singleton. intros -> Hc. set_solver.
    + rewrite elem_of_cons. intros [->|Hp] Hc.
      * apply elem_of_cons in Hc as [->|Hc]; [by left|]. right. apply (IH 0 x); [|done].
        rewrite E. by left.
      * right. apply (IH 0 p); [|done]. rewrite E. by right.
Qed.

Lemma join_bytes sp ws c : c ∈ join_l [sp] ws → c = sp ∨ ∃ w, w ∈ ws ∧ c ∈ w.
Proof.
  induction ws as [|w ws IH]; simpl; [set_solver|].
  destruct ws as [|w' ws]; [intros; right; exists w; set_solver|].
  rewrite elem_of_app, elem_of_cons. intros [Hc|[->|Hc]]; [right; exists w; set_solver|by left|].
  destruct (IH Hc) as [->|(x & Hx & Hcx)]; [by left|]. right. exists x. set_solver.
Qed.

Lemma lowercase_iff s :
  to_ascii_lowercase s = s ↔ ∀ c, c ∈ chars s → to_ascii_lower c = c.
Proof.
  unfold to_ascii_lowercase. rewrite <-(of_chars_chars s) at 2. split.
  - intros E%of_chars_inj. induction (chars s) as [|a l IH]; simpl in *; [set_solver|].
    injection E as Ea El. intros c. rewrite elem_of_cons. intros [->|Hc]; [done|by apply IH].
  - intros Hc. f_equal. induction (chars s) as [|a l IH]; simpl; [done|].
    rewrite Hc by set_solver. f_equal. apply IH. set_solver.
Qed.

(** A normal form holds no byte its input did not, but for the spaces. *)
Lemma joined_words_lower seps l :
  Forall (λ c, to_ascii_lower c = c) l →
  to_ascii_lowercase (of_chars (join_l [SPACE] (words seps l))) = of_chars (join_l [SPACE] (words seps l)).
Proof.
  intros Hl. apply lowercase_iff. rewrite chars_of_chars. intros c Hc.
  apply join_bytes in Hc as [->|(w & Hw & Hc)]; [done|].
  unfold words in Hw. apply list_elem_of_filter in Hw as [_ Hw].
  rewrite Forall_forall in Hl. apply Hl. by eapply words_bytes.
Qed.

Lemma normalize_dedotted name :
  to_ascii_lowercase name = name →
  normalize_lowered_dedotted_into name = normalize_name (dedot name).
Proof.
  intros Hl. assert (to_ascii_lowercase (dedot name) = dedot name) as Hd.
  { apply joined_words_lower. rewrite Forall_forall. intros c Hc.
    apply list_elem_of_In, in_map_iff in Hc as (a & <- & Ha%list_elem_of_In).
    unfold fold_onto. case_bool_decide; [done|]. by apply (proj1 (lowercase_iff name) Hl). }
  rewrite <-(normalize_lowered _ Hd). unfold normalize_lowered_into, normalize_lowered_dedotted_into.
  unfold dedot. rewrite chars_of_chars.
  rewrite (words_join_words white_space name_seps), words_dot_forbidden; [done|..].
  - apply white_space_ok.
  - apply name_seps_ok.
  - apply white_subset_name.
  - apply white_subset_name, space_white.
Qed.

(** The buffer-reusing normal forms agree with the allocating one on
    every string: [normalize_name_into] always, the two that skip the
    lowercasing on lowercase input (the de-dotted one after [dedot]); and
    a normal form is its own normal form, so keys and lookups meet. *)
Theorem normal_forms_agree name :
  normalize_name_into name = normalize_name name ∧
  (to_ascii_lowercase name = name →
   normalize_lowered_into name = normalize_name name ∧
   normalize_lowered_dedotted_into name = normalize_name (dedot name)) ∧
  normalize_name (normalize_name name) = normalize_name name.
Proof.
  split_and!.
  - rewrite normalize_name_words. unfold normalize_name_into, normalize_lowered_into.
    by rewrite chars_of_chars.
  - intros Hl. split; [by apply normalize_lowered|by apply normalize_dedotted].
  - assert (to_ascii_lowercase (normalize_name name) = normalize_name name) as Hl.
    { rewrite normalize_name_words. apply joined_words_lower. rewrite Forall_forall.
      intros c (a & <- & _)%list_elem_of_In%in_map_iff. apply to_ascii_lower_idemp. }
    rewrite <-(normalize_lowered _ Hl). unfold normalize_lowered_into.
    rewrite normalize_name_words, chars_of_chars, words_join_words; [done|..];
      [apply name_seps_ok|apply name_seps_ok|done|apply white_subset_name, space_white].
Qed.

(** ** The AppId of a command line *)

Definition word_boundary (before : list ascii) : Prop :=
  match last before with Some c => is_ascii_alphanumeric c = false | None => True end.

(** [d] is the digit run of a standalone [AppId=] token after [before]. *)
Definition standalone (args before d after : list ascii) : Prop :=
  args = before ++ TOKEN ++ d ++ after ∧ word_boundary before ∧ d ≠ [] ∧
  Forall (λ c, is_digit c = true) d ∧
  match after with c :: _ => is_digit c = false | [] => True end.

(** The token does not overlap itself. *)
Lemma token_apart before rest b x :
  before ++ TOKEN ++ rest = b ++ TOKEN ++ x → length before < length b →
  ∃ k, b = before ++ TOKEN ++ k ∧ rest = k ++ TOKEN ++ x.
Proof.
  intros E Hlt. apply app_eq_inv in E as [(k & -> & E)|(k & -> & E)].
  { rewrite length_app in Hlt. lia. }
  rewrite length_app in Hlt. unfold TOKEN in *. simpl in E.
  do 6 (destruct k as [|? k]; simpl in *; [first [lia | discriminate]|];
        injection E as ? E; subst).
  exists k. split; [|done]. done.
Qed.

Lemma word_boundary_after before k :
  word_boundary k → word_boundary (before ++ TOKEN ++ k).
Proof.
  unfold word_boundary. destruct k as [|c k] using rev_ind; [|].
  - intros _. rewrite app_nil_r. replace TOKEN with (chars "AppId" ++ ["="%char]) by done.
    by rewrite app_assoc, last_snoc.
  - by rewrite !app_assoc, !last_snoc.
Qed.

Lemma word_boundary_inv before k :
  k ≠ [] → word_boundary (before ++ TOKEN ++ k) → word_boundary k.
Proof.
  unfold word_boundary. destruct k as [|c k] using rev_ind; [done|]. intros _.
  by rewrite !app_assoc, !last_snoc.
Qed.

Lemma digit_run l :
  ∃ after, l = take_while is_digit l ++ after ∧ Forall (λ c, is_digit c = true) (take_while is_digit l) ∧
    match after with c :: _ => is_digit c = false | [] => True end.
Proof. apply take_while_split. Qed.

Lemma digit_run_unique l d after :
  l = d ++ after → Forall (λ c, is_digit c = true) d →
  match after with c :: _ => is_digit c = false | [] => True end →
  d = take_while is_digit l.
Proof.
  intros -> Hd Ha. induction Hd as [|c d Hc Hd IH]; simpl; [|by rewrite Hc, <-IH].
  destruct after as [|c after]; simpl; [done|]. by rewrite Ha.
Qed.

(** The loop finds the first standalone token. *)
Lemma app_id_loop_spec fuel rest :
  length rest < fuel →
  match app_id_loop fuel rest with
  | Some id => ∃ before after, standalone rest before (chars id) after ∧
      ∀ b d a, standalone rest b d a → length before ≤ length b
  | None => ∀ b d a, ¬ standalone rest b d a
  end.
Proof.
  revert rest. induction fuel as [|fuel IH]; intros rest Hf; [lia|]. cbn [app_id_loop].
  destruct (find_sub TOKEN rest) as [[before tl]|] eqn:E.
  2:{ intros b d a (E' & _). by apply (find_sub_None _ _ E) in E'. }
  apply find_sub_Some in E as [-> Hmin].
  (* a token that is not this one comes from the rest *)
  assert (∀ b d a, standalone (before ++ TOKEN ++ tl) b d a →
    length before = length b ∧ word_boundary before ∧ d = take_while is_digit tl ∨
    ∃ k, b = before ++ TOKEN ++ k ∧ standalone tl k d a) as Hcases.
  { intros b d a (E & Hb & Hne & Hd & Ha). pose proof (Hmin b (d ++ a) E) as Hle.
    destruct (decide (length before = length b)) as [Hl|Hl].
    - left. apply app_inj_1 in E as [<- E]; [|done]. apply app_inj_1 in E as [_ E]; [|done].
      split_and!; [done..|]. by eapply digit_run_unique.
    - right. destruct (token_apart before tl b (d ++ a) E) as (k & -> & ->); [lia|].
      exists k. split; [done|]. split_and!; [done| |done..].
      destruct (decide (k = [])) as [->|]; [done|]. by eapply word_boundary_inv. }
  assert (∀ k d a, standalone tl k d a →
    standalone (before ++ TOKEN ++ tl) (before ++ TOKEN ++ k) d a) as Hlift.
  { intros k d a (-> & Hb & ? & ? & ?). split_and!; [by rewrite <-!app_assoc| |done..].
    by apply word_boundary_after. }
  (* what the recursion says of the whole, once this token is no candidate *)
  assert (¬ word_boundary before ∨ take_while is_digit tl = [] →
    match app_id_loop fuel tl with
    | Some id => ∃ b a, standalone (before ++ TOKEN ++ tl) b (chars id) a ∧
        ∀ b' d' a', standalone (before ++ TOKEN ++ tl) b' d' a' → length b ≤ length b'
    | None => ∀ b d a, ¬ standalone (before ++ TOKEN ++ tl) b d a
    end) as Hrec.
  { intros Hno. assert (length tl < fuel) as Htl.
    { rewrite !length_app in Hf. unfold TOKEN in Hf. simpl in Hf. lia. }
    specialize (IH tl Htl). destruct (app_id_loop fuel tl) as [id|].
    - destruct IH as (b & a & Hst & Hfirst). exists (before ++ TOKEN ++ b), a.
      split; [by apply Hlift|]. intros b' d' a' Hst'.
      destruct (Hcases b' d' a' Hst') as [(Hl & Hb & ->)|(k & -> & Hk)].
      + destruct Hno as [Hno|Hno]; [done|]. destruct Hst' as (_ & _ & Hne & _). done.
      + rewrite !length_app. specialize (Hfirst k d' a' Hk). lia.
    - intros b d a Hst. destruct (Hcases b d a Hst) as [(Hl & Hb & ->)|(k & -> & Hk)].
      + destruct Hno as [Hno|Hno]; [done|]. by destruct Hst as (_ & _ & Hne & _).
      + by apply (IH k d a). }
  set (boundary := match last before with Some c => _ | None => _ end).
  assert (boundary = true ↔ word_boundary before) as Hbd.
  { unfold boundary, word_boundary. destruct (last before); [|done]. apply negb_true_iff. }
  destruct boundary; cbn [negb]; [|apply Hrec; left; intros Hb; by apply Hbd in Hb].
  destruct (take_while is_digit tl) as [|c d] eqn:Hd; [by apply Hrec; right|].
  destruct (digit_run tl) as (after & Htl & Hdig & Haft). rewrite Hd in Htl, Hdig.
  exists before, after. rewrite (chars_of_chars (c :: d)). split.
  - split_and!; [by rewrite Htl|by apply Hbd|done|done|done].
  - intros b d' a (E & _). by apply (Hmin b (d' ++ a)).
Qed.

(** The AppId taken from a command line is the digit run after the first
    [AppId=] that stands at a word boundary and is followed by digits, and
    there is none exactly when no such token occurs. *)
Theorem app_id_from_args_first args :
  match app_id_from_args (Some args) with
  | Some id => ∃ before after, standalone (chars args) before (chars id) after ∧
      ∀ b d a, standalone (chars args) b d a → length before ≤ length b
  | None => ∀ b d a, ¬ standalone (chars args) b d a
  end.
Proof. unfold app_id_from_args. apply app_id_loop_spec. lia. Qed.

(** ** Executables and paths *)

(** A declared name as a path spells it: separators folded, lowercase. *)
Definition fold_name (name : list ascii) : list ascii :=
  map (λ c, to_ascii_lower (if Ascii.eqb c BACKSLASH then SLASH else c)) name.
Definition fold_path (path : list ascii) : list ascii := map to_ascii_lower path.

Lemma fold_lengths a b : fold_path a = fold_name b → length a = length b.
Proof. intros E%(f_equal length). unfold fold_path, fold_name in E. by rewrite !length_map in E. Qed.

Lemma fold_path_length a b : fold_path a = b → length a = length b.
Proof. intros <-. unfold fold_path. by rewrite length_map. Qed.

Lemma bytes_name_spec tail name :
  length tail = length name → bytes_name tail name = true ↔ fold_path tail = fold_name name.
Proof.
  revert name. induction tail as [|a tail IH]; intros [|b name] Hl; simpl in *; try done.
  injection Hl as Hl. unfold byte_names, eq_ignore_ascii_case.
  rewrite andb_true_iff, IH by done. destruct (Ascii.eqb_spec (to_ascii_lower a)
    (to_ascii_lower (if Ascii.eqb b BACKSLASH then SLASH else b))) as [->|Hne].
  - split; [by intros [_ ->]|]. by intros [= ->].
  - split; [by intros [? _]|]. by intros [= ? _].
Qed.

(** The name starts at a component. *)
Definition component_start (pre name : list ascii) : Prop :=
  pre = [] ∨ last pre = Some SLASH ∨ own_boundary name = true.

Definition names_tail (path name : list ascii) : Prop :=
  ∃ pre tail, path = pre ++ tail ∧ fold_path tail = fold_name name ∧ component_start pre name.

Definition names_bundle (path name : list ascii) : Prop :=
  ∃ pre mid interior post, path = pre ++ mid ++ interior ++ post ∧
    fold_path mid = fold_name name ∧ component_start pre name ∧
    fold_path interior = chars "/contents/" ∧
    ∃ stem ext, name = stem ++ ext ∧ fold_path ext = chars ".app".

Lemma eq_bytes_spec a b : eq_bytes_ignore_case a b = true ↔ fold_path a = fold_path b.
Proof.
  revert b. induction a as [|x a IH]; intros [|y b]; simpl; try done.
  rewrite andb_true_iff, IH. unfold eq_ignore_ascii_case.
  destruct (Ascii.eqb_spec (to_ascii_lower x) (to_ascii_lower y)) as [->|].
  - split; [by intros [_ ->]|]. by intros [= ->].
  - split; [by intros [? _]|]. by intros [= ? _].
Qed.

Lemma tail_case path name :
  (if decide (length name ≤ length path) then
     let at_ := length path - length name in
     let rest := take at_ path in
     bytes_name (drop at_ path) name
     && (bool_decide (rest = []) || bool_decide (last rest = Some SLASH) || own_boundary name)
   else false) = true ↔ names_tail path name.
Proof.
  split.
  - case_decide as Hl; [|done]. cbv zeta. rewrite andb_true_iff, !orb_true_iff, !bool_decide_eq_true.
    intros [Hb Hc]. rewrite bytes_name_spec in Hb by (rewrite length_drop; lia).
    eexists _, _. split; [symmetry; apply (take_drop (length path - length name))|].
    split; [done|]. unfold component_start. tauto.
  - intros (pre & tail & -> & Hf & Hc).
    pose proof (fold_lengths _ _ Hf) as Hl.
    rewrite decide_True by (rewrite length_app; lia). cbv zeta.
    replace (length (pre ++ tail) - length name) with (length pre) by (rewrite length_app; lia).
    rewrite take_app_length, drop_app_length, andb_true_iff, !orb_true_iff, !bool_decide_eq_true.
    split; [by apply bytes_name_spec|]. unfold component_start in Hc. tauto.
Qed.

Lemma interior_case rest :
  starts_with_bundle_interior rest = true ↔
  ∃ interior post, rest = interior ++ post ∧ fold_path interior = chars "/contents/".
Proof.
  unfold starts_with_bundle_interior. rewrite andb_true_iff, bool_decide_eq_true, eq_bytes_spec.
  split.
  - intros [_ Hf]. eexists _, _. split; [symmetry; apply (take_drop (length BUNDLE_INTERIOR))|].
    by rewrite Hf.
  - intros (interior & post & -> & Hf). pose proof (fold_path_length _ _ Hf : length interior = length BUNDLE_INTERIOR) as Hl.
    rewrite length_app, <-Hl, take_app_length, Hf. split; [lia|done].
Qed.

Lemma bundle_at_spec path name at_ :
  at_ + length name ≤ length path →
  bundle_at path name at_ = true ↔
  ∃ pre mid interior post, path = pre ++ mid ++ interior ++ post ∧ length pre = at_ ∧
    fold_path mid = fold_name name ∧ component_start pre name ∧
    fold_path interior = chars "/contents/".
Proof.
  intros Hle. unfold bundle_at.
  assert (∀ pre rest, path = pre ++ rest → length pre = at_ →
    (at_ = 0 ∨ path !! pred at_ = Some SLASH) ↔ (pre = [] ∨ last pre = Some SLASH)) as Hfront.
  { intros pre rest -> <-. destruct pre as [|c pre _] using rev_ind; [naive_solver|].
    rewrite last_snoc, length_app. simpl. replace (pred (length pre + 1)) with (length pre) by lia.
    rewrite <-app_assoc. simpl. rewrite list_lookup_middle by done.
    split; intros [H|H]; try lia; [|by apply app_nil in H as []|]; right; done. }
  rewrite !andb_true_iff, !orb_true_iff, !bool_decide_eq_true, interior_case.
  rewrite bytes_name_spec by (rewrite length_take, length_drop; lia). split.
  - intros [[Hf Hc] (interior & post & Hd & Hi)].
    exists (take at_ path), (take (length name) (drop at_ path)), interior, post.
    assert (path = take at_ path ++ drop at_ path) as E by (by rewrite take_drop).
    split_and!; [|rewrite length_take; lia|done| |done].
    + rewrite <-Hd, <-drop_drop, take_drop. done.
    + unfold component_start. specialize (Hfront _ _ E ltac:(rewrite length_take; lia)). tauto.
  - intros (pre & mid & interior & post & -> & <- & Hf & Hc & Hi).
    pose proof (fold_lengths _ _ Hf) as Hl.
    rewrite <-Hl, drop_app_length, take_app_length. split; [split; [done|]|].
    + unfold component_start in Hc. specialize (Hfront _ _ eq_refl eq_refl). tauto.
    + exists interior, post. split; [|done].
      rewrite <-drop_drop, drop_app_length. apply drop_app_length.
Qed.

Lemma bundle_case path name : names_a_bundle path name = true ↔ names_bundle path name.
Proof.
  unfold names_a_bundle. split.
  - case_decide as H4; [done|]. destruct (negb _) eqn:Happ; [done|].
    apply negb_false_iff, eq_bytes_spec in Happ. rewrite existsb_exists.
    intros (at_ & Hin%in_seq & Hat). apply bundle_at_spec in Hat; [|lia].
    destruct Hat as (pre & mid & interior & post & E & _ & Hf & Hc & Hi).
    exists pre, mid, interior, post. split_and!; [done..|].
    exists (take (length name - 4) name), (drop (length name - 4) name).
    by rewrite take_drop.
  - intros (pre & mid & interior & post & E & Hf & Hc & Hi & stem & ext & -> & Hext).
    pose proof (fold_path_length _ _ Hext : length ext = 4) as Hl4.
    rewrite decide_False by (rewrite length_app; lia).
    replace (length (stem ++ ext) - 4) with (length stem) by (rewrite length_app; lia).
    rewrite drop_app_length. replace (eq_bytes_ignore_case ext (chars ".app")) with true
      by (symmetry; by apply eq_bytes_spec). simpl. apply existsb_exists. exists (length pre).
    pose proof (fold_lengths _ _ Hf) as Hl.
    assert (length path = length pre + length (stem ++ ext) + length (interior ++ post)) as Hp.
    { rewrite E, !length_app in *. lia. }
    split; [apply in_seq; lia|]. apply bundle_at_spec; [lia|].
    by exists pre, mid, interior, post.
Qed.

Lemma exe_names_path_iff path name :
  exe_names_path path name = true ↔
  let n := chars (default name (strip_prefix ">" name)) in
  n ≠ [] ∧ (names_tail (chars path) n ∨ names_bundle (chars path) n).
Proof.
  unfold exe_names_path. cbv zeta. set (n := default name (strip_prefix ">" name)).
  assert (str_empty n = true ↔ chars n = []) as Hn.
  { rewrite <-(of_chars_chars n). rewrite chars_of_chars. by destruct (chars n). }
  destruct (str_empty n).
  { split; [done|]. intros [Hne _]. by destruct Hne; apply Hn. }
  pose proof (tail_case (chars path) (chars n)) as Ht. cbv zeta in Ht.
  match goal with |- (if ?b then _ else _) = true ↔ _ => set (by_tail := b) in * end.
  assert (chars n ≠ []) as Hne by (intros E; by apply Hn in E).
  destruct by_tail; [tauto|]. rewrite bundle_case.
  split; [tauto|]. intros [_ [H|H]]; [|done]. by apply Ht in H.
Qed.

(** A declared executable names a process path exactly when, without its
    launcher marker, it is not empty and either ends the path at a
    component boundary (case and separators folded) or is a [.app] bundle
    standing at a boundary with the bundle interior right behind it. *)
Theorem exe_names_path_spec path name :
  exe_names_path path name = true ↔
  let n := chars (default name (strip_prefix ">" name)) in
  n ≠ [] ∧ (names_tail (chars path) n ∨ names_bundle (chars path) n).
Proof. apply exe_names_path_iff. Qed.
