(* ===== verification/SortedIndex.v ===== *)
(** * The sorted lookup table (SortedIndex of crates/rsrpc-detect/src/bundle.rs)

    A vector of key and index pairs, stably sorted by key, duplicates
    dropped, searched by bisection; against its reference, the first pair
    with the key in insertion order. *)

From stdpp Require Import base strings list list_numbers sorting sets.
From Stdlib Require Import Ascii.
From S2P Require Import Prelude RStr Text.

Local Open Scope string_scope.
Local Open Scope nat_scope.
Local Open Scope list_scope.

Record SortedIndex := { si_entries : list (string * nat) }.

(** [slice::sort_by] is stable, and the stable order is unique: insertion
    in front of the first key that is not smaller. *)
Fixpoint insert_stable (x : string * nat) (l : list (string * nat)) : list (string * nat) :=
  match l with
  | [] => [x]
  | y :: l' => if String.leb x.1 y.1 then x :: l else y :: insert_stable x l'
  end.

Definition sort_by_key (l : list (string * nat)) : list (string * nat) :=
  foldr insert_stable [] l.

(** [Vec::dedup_by] on the keys: the first of each run stays. *)
Fixpoint dedup_from (prev : string) (l : list (string * nat)) : list (string * nat) :=
  match l with
  | [] => []
  | x :: l => if String.eqb x.1 prev then dedup_from prev l else x :: dedup_from x.1 l
  end.

Definition dedup_by_key (l : list (string * nat)) : list (string * nat) :=
  match l with [] => [] | x :: l => x :: dedup_from x.1 l end.

(** [SortedIndex::build]. *)
Definition index_build (entries : list (string * nat)) : SortedIndex :=
  {| si_entries := dedup_by_key (sort_by_key entries) |}.

(** [slice::binary_search_by]: halve [size], keeping the base at or below
    the key.  Fuel: the size at least halves (rounding up), so the length
    is enough. *)
Fixpoint bisect (fuel : nat) (l : list (string * nat)) (key : string) (base size : nat) : nat :=
  match fuel with
  | 0 => base
  | S fuel =>
      if decide (size ≤ 1) then base
      else
        let half := size / 2 in
        let mid := base + half in
        let base := match l !! mid with
                    | Some e => if String.leb e.1 key then mid else base
                    | None => base
                    end in
        bisect fuel l key base (size - half)
  end.

(** [SortedIndex::get]. *)
Definition index_get (t : SortedIndex) (key : string) : option nat :=
  let l := si_entries t in
  match l !! bisect (length l) l key 0 (length l) with
  | Some e => if String.eqb e.1 key then Some e.2 else None
  | None => None
  end.

Definition contains_key (t : SortedIndex) (key : string) : bool := is_some (index_get t key).

(** ** The order *)

Abbreviation kle := (λ x y : string * nat, String.le x.1 y.1).
Abbreviation klt := (λ x y : string * nat, String.le x.1 y.1 ∧ x.1 ≠ y.1).

Lemma leb_spec a b : String.leb a b = true ↔ String.le a b.
Proof. unfold String.le. by rewrite Is_true_true. Qed.

Lemma leb_false a b : String.leb a b = false → String.le b a.
Proof.
  intros H. destruct (total String.le a b) as [E|E]; [|done].
  apply leb_spec in E. congruence.
Qed.

Lemma insert_stable_elem x y l : y ∈ insert_stable x l ↔ y = x ∨ y ∈ l.
Proof.
  induction l as [|z l IH]; simpl; [set_solver|].
  destruct (String.leb x.1 z.1); rewrite !elem_of_cons, ?IH; naive_solver.
Qed.

Lemma insert_stable_sorted x l :
  StronglySorted kle l → StronglySorted kle (insert_stable x l).
Proof.
  induction 1 as [|y l Hl IH Hy]; simpl; [repeat constructor|].
  destruct (String.leb x.1 y.1) eqn:E.
  - apply leb_spec in E. constructor; [by constructor|]. constructor; [done|].
    eapply Forall_impl; [exact Hy|]. intros z Hz. simpl in *. by etrans.
  - apply leb_false in E. constructor; [done|]. rewrite Forall_forall in Hy |- *.
    intros z [->|Hz]%insert_stable_elem; [done|by apply Hy].
Qed.

Lemma sort_by_key_sorted l : StronglySorted kle (sort_by_key l).
Proof. induction l as [|x l IH]; [constructor|]. by apply insert_stable_sorted. Qed.

(** The first value of a key. *)
Definition first_of (key : string) (l : list (string * nat)) : option nat :=
  find_map (λ e, if String.eqb e.1 key then Some e.2 else None) l.

Lemma first_of_insert x key l :
  StronglySorted kle l → first_of key (insert_stable x l) = first_of key (x :: l).
Proof.
  unfold first_of. induction 1 as [|y l Hl IH Hy]; simpl; [done|].
  destruct (String.leb x.1 y.1) eqn:E; [done|]. simpl in *. rewrite IH.
  destruct (String.eqb_spec y.1 key) as [Ey|], (String.eqb_spec x.1 key) as [Ex|]; try done.
  exfalso. assert (String.le x.1 y.1) as H by (rewrite Ex, Ey; done).
  apply leb_spec in H. congruence.
Qed.

Lemma first_of_sort key l : first_of key (sort_by_key l) = first_of key l.
Proof.
  induction l as [|x l IH]; [done|]. unfold sort_by_key in *. cbn [foldr].
  rewrite first_of_insert by apply sort_by_key_sorted.
  unfold first_of in *. simpl. by rewrite IH.
Qed.

Lemma dedup_from_spec prev l :
  StronglySorted kle l → Forall (λ x, String.le prev x.1) l →
  StronglySorted klt (dedup_from prev l) ∧
  Forall (λ x, String.le prev x.1 ∧ prev ≠ x.1) (dedup_from prev l) ∧
  ∀ key, key ≠ prev → first_of key (dedup_from prev l) = first_of key l.
Proof.
  revert prev. induction l as [|x l IH]; intros prev Hs Hp; simpl; [by repeat constructor|].
  apply StronglySorted_cons in Hs as [Hx Hs]. apply Forall_cons in Hp as [Hpx Hp].
  destruct (String.eqb_spec x.1 prev) as [<-|Hne].
  - destruct (IH x.1 Hs Hp) as (IH1 & IH2 & IH3). split_and!; [done|done|].
    intros key Hk. rewrite IH3 by done. unfold first_of. simpl.
    by destruct (String.eqb_spec x.1 key).
  - destruct (IH x.1 Hs Hx) as (IH1 & IH2 & IH3). split_and!.
    + constructor; [done|]. eapply Forall_impl; [exact IH2|]. naive_solver.
    + constructor; [done|]. eapply Forall_impl; [exact IH2|]. intros z [Hz Hzn]. split; [by etrans|].
      intros ->. apply Hzn. by apply (anti_symm String.le).
    + intros key Hk. unfold first_of in *. simpl.
      destruct (String.eqb_spec x.1 key) as [|Hxk]; [done|]. by apply IH3.
Qed.

Lemma dedup_by_key_spec l :
  StronglySorted kle l →
  StronglySorted klt (dedup_by_key l) ∧ ∀ key, first_of key (dedup_by_key l) = first_of key l.
Proof.
  destruct l as [|x l]; [by repeat constructor|]. intros [Hx Hs]%StronglySorted_cons. simpl.
  destruct (dedup_from_spec x.1 l Hs Hx) as (H1 & H2 & H3). split.
  - constructor; [done|]. eapply Forall_impl; [exact H2|]. naive_solver.
  - intros key. unfold first_of in *. simpl. destruct (String.eqb_spec x.1 key); [done|].
    by apply H3.
Qed.

(** ** Bisection *)

Lemma sorted_lookup l i j x y :
  StronglySorted klt l → l !! i = Some x → l !! j = Some y → i < j → klt x y.
Proof.
  intros Hs. revert i j. induction Hs as [|z l Hs IH Hz]; intros i j Hi Hj Hlt; [done|].
  destruct j as [|j]; [lia|]. destruct i as [|i]; simpl in *.
  - simplify_eq. rewrite Forall_forall in Hz. apply Hz. by eapply list_elem_of_lookup_2.
  - apply (IH i j); [done|done|lia].
Qed.

(** Wherever the key is, it stays in the window. *)
Lemma bisect_finds fuel l key base size i e :
  StronglySorted klt l → l !! i = Some e → e.1 = key →
  size ≤ fuel → base ≤ i < base + size → base + size ≤ length l →
  bisect fuel l key base size = i.
Proof.
  intros Hs Hi He. revert base size. induction fuel as [|fuel IH]; intros base size Hf Hb Hl.
  { lia. }
  cbn [bisect]. case_decide as H1; [lia|].
  pose proof (Nat.div_mod_eq size 2) as Hdm.
  pose proof (Nat.mod_upper_bound size 2 ltac:(lia)) as Hmu.
  set (half := size / 2) in *. clearbody half.
  destruct (l !! (base + half)) as [m|] eqn:Hm; cycle 1.
  { apply lookup_ge_None in Hm. lia. }
  destruct (String.leb m.1 key) eqn:E.
  - apply IH; [lia| |lia]. destruct (decide (i < base + half)) as [Hlt|]; [exfalso|lia].
    destruct (sorted_lookup l i (base + half) e m Hs Hi Hm Hlt) as [Hle Hne].
    rewrite He in *. apply leb_spec in E. apply Hne. by apply (anti_symm String.le).
  - apply IH; [lia| |lia]. destruct (decide (base + half ≤ i)) as [Hge|]; [exfalso|lia].
    destruct (decide (i = base + half)) as [->|].
    { rewrite Hm in Hi. injection Hi as ->. rewrite He in E.
      assert (String.leb key key = true) by (by apply leb_spec). congruence. }
    destruct (sorted_lookup l (base + half) i m e Hs Hm Hi ltac:(lia)) as [Hle _].
    rewrite He in Hle. apply leb_spec in Hle. congruence.
Qed.

Lemma first_of_elem key l v : first_of key l = Some v → ∃ i, l !! i = Some (key, v).
Proof.
  unfold first_of. intros ([k w] & Hin & E)%find_map_Some. simpl in E.
  destruct (String.eqb_spec k key) as [->|]; simplify_eq. by apply list_elem_of_lookup_1.
Qed.

Lemma index_get_first l key :
  StronglySorted klt l → index_get {| si_entries := l |} key = first_of key l.
Proof.
  intros Hs. unfold index_get. simpl. destruct (first_of key l) as [v|] eqn:E.
  - apply first_of_elem in E as [i Hi].
    rewrite (bisect_finds (length l) l key 0 (length l) i (key, v)); [|done..| |lia].
    + rewrite Hi. simpl. by rewrite String.eqb_refl.
    + apply lookup_lt_Some in Hi. lia.
  - destruct (l !! bisect _ _ _ _ _) as [e|] eqn:Hl; [|done].
    destruct (String.eqb_spec e.1 key) as [He|]; [|done].
    apply list_elem_of_lookup_2 in Hl. unfold first_of in E.
    eapply find_map_None in E; [|exact Hl]. simpl in E. by rewrite He, String.eqb_refl in E.
Qed.

Lemma index_get_build entries key :
  index_get (index_build entries) key = first_of key entries.
Proof.
  unfold index_build. destruct (dedup_by_key_spec (sort_by_key entries)) as [Hs Hf].
  { apply sort_by_key_sorted. }
  rewrite index_get_first by done. by rewrite Hf, first_of_sort.
Qed.

(** A lookup in the built table is the first pair with that key in the
    order the pairs were given (sorting, deduplication and bisection lose
    nothing and keep canonical-first ties), for every key and every list;
    and the table holds each key once, in order. *)
Theorem sorted_index_first_wins entries key :
  index_get (index_build entries) key = first_of key entries ∧
  contains_key (index_build entries) key = bool_decide (key ∈ entries.*1) ∧
  StronglySorted klt (si_entries (index_build entries)).
Proof.
  split_and!; [apply index_get_build| |].
  - unfold contains_key. rewrite index_get_build.
    destruct (first_of key entries) as [v|] eqn:E; simpl; symmetry.
    + apply first_of_elem in E as [i Hi]. apply bool_decide_eq_true, list_elem_of_fmap.
      exists (key, v). split; [done|]. by eapply list_elem_of_lookup_2.
    + apply bool_decide_eq_false. intros ([k v] & -> & Hin)%list_elem_of_fmap.
      unfold first_of in E. eapply find_map_None in E; [|exact Hin]. simpl in E.
      by rewrite String.eqb_refl in E.
  - apply dedup_by_key_spec, sort_by_key_sorted.
Qed.
