(* ===== verification/Bundle.v ===== *)
(** * Detection generations (crates/rsrpc-detect/src: types.rs, bundle.rs, database.rs)

    A database generation: the slim entries, one automaton per tier with
    the table that leads from its patterns back to entries, and the lookup
    tables; how it is built from entries and replaced.  Aho-Corasick is a
    third-party crate: a class with the building and searching functions,
    and a second class with what its documentation promises. *)

From stdpp Require Import base strings list list_numbers sets.
From Stdlib Require Import Ascii.
From S2P Require Import Prelude RStr Text ScanNames SortedIndex Ids.

Local Open Scope string_scope.
Local Open Scope nat_scope.
Local Open Scope list_scope.

(** ** Entries (types.rs) *)

Inductive OsName := OsWin32 | OsLinux | OsDarwin | OsEmpty | OsOther (os : string).

#[export] Instance os_name_eq_dec : EqDecision OsName.
Proof. solve_decision. Defined.

Definition from_os (os : string) : OsName :=
  if String.eqb os "win32" then OsWin32
  else if String.eqb os "linux" then OsLinux
  else if String.eqb os "darwin" then OsDarwin
  else if String.eqb os "" then OsEmpty
  else OsOther os.

(** [OsName::from_string], on an owned string. *)
Definition from_string (os : string) : OsName :=
  if String.eqb os "win32" then OsWin32
  else if String.eqb os "linux" then OsLinux
  else if String.eqb os "darwin" then OsDarwin
  else if String.eqb os "" then OsEmpty
  else OsOther os.

Definition os_as_str (o : OsName) : string :=
  match o with
  | OsWin32 => "win32"
  | OsLinux => "linux"
  | OsDarwin => "darwin"
  | OsEmpty => ""
  | OsOther os => os
  end.

Definition os_is_empty (o : OsName) : bool := bool_decide (o = OsEmpty).

(** db.rs: an entry of the database, of which the scanner reads these
    fields; the others ride along as text it never looks at. *)
Record Executable := {
  x_is_launcher : bool;
  x_name : string;
  x_os : string;
  x_arguments : option string
}.

Record ThirdPartySku := {
  sku_distributor : string;
  sku_id : option string;
  sku_sku : option string
}.

Record DetectableActivity := {
  da_executables : option (list Executable);
  da_hook : bool;
  da_id : string;
  da_name : string;
  da_third_party_skus : option (list ThirdPartySku);
  da_aliases : option (list string)
}.

Record ScannedExe := {
  exe_name : string;
  exe_os : OsName;
  exe_is_launcher : bool;
  exe_arguments : option string
}.

Record ScannedEntry := {
  se_id : string;
  se_name : string;
  se_executables : list ScannedExe;
  se_steam_ids : list string;
  se_aliases : list string
}.

Record ScannedHit := {
  hit_entry : ScannedEntry;
  hit_pid : Z;
  hit_start : Z;
  hit_source : DetectSource
}.

(** [ScannedEntry::from_activity]: a mapped list where there is one. *)
Definition from_activity (a : DetectableActivity) : ScannedEntry := {|
  se_id := da_id a;
  se_name := da_name a;
  se_executables :=
    default [] (map (λ x, {| exe_name := x_name x; exe_os := from_os (x_os x);
                             exe_is_launcher := x_is_launcher x;
                             exe_arguments := x_arguments x |}) <$> da_executables a);
  se_steam_ids :=
    default [] ((λ skus : list ThirdPartySku,
      base.filter (λ id, str_empty id = false)
        (omap sku_id (base.filter (λ sku, sku_distributor sku = "steam") skus)))
      <$> da_third_party_skus a);
  se_aliases := default [] (da_aliases a) |}.

(** [ScannedEntry::from_owned]: a list or none, mapped. *)
Definition from_owned (a : DetectableActivity) : ScannedEntry := {|
  se_id := da_id a;
  se_name := da_name a;
  se_executables :=
    map (λ x, {| exe_name := x_name x; exe_os := from_string (x_os x);
                 exe_is_launcher := x_is_launcher x;
                 exe_arguments := x_arguments x |}) (default [] (da_executables a));
  se_steam_ids :=
    base.filter (λ id, str_empty id = false)
      (omap sku_id (base.filter (λ sku, sku_distributor sku = "steam")
        (default [] (da_third_party_skus a))));
  se_aliases := default [] (da_aliases a) |}.

(** ** Platforms *)

Inductive Platform := PLinux | PMacos | PWindows | POther.

(** [os_matches]. *)
Definition os_matches (platform : Platform) (os : string) : bool :=
  match platform with
  | PWindows => String.eqb os "win32"
  | PMacos => String.eqb os "darwin"
  | PLinux => String.eqb os "linux"
  | POther => true
  end.

(** ** Path variants *)

Definition MARKERS : list string := ["64"; ".x64"; "x64"; "_64"].

(** The loop of [remove_marker_into]; fuel: every round removes a marker. *)
Fixpoint remove_marker_loop (fuel : nat) (rest marker buf : list ascii) : list ascii :=
  match fuel with
  | 0 => buf ++ rest
  | S fuel =>
      match find_sub marker rest with
      | Some (before, rest) => remove_marker_loop fuel rest marker (buf ++ before)
      | None => buf ++ rest
      end
  end.

Definition remove_marker_into (path marker : string) : string :=
  of_chars (remove_marker_loop (length (chars path)) (chars path) (chars marker) []).

(** One round of [path_variants_into] over the filled buffers. *)
Definition push_variant (path : string) (out : list string) (marker : string) : list string :=
  if negb (str_contains marker path) || bool_decide (5 ≤ length out) then out
  else
    let candidate := remove_marker_into path marker in
    if negb (String.eqb candidate path) && negb (bool_decide (candidate ∈ out))
    then out ++ [candidate] else out.

Definition path_variants_into (path : string) : list string :=
  foldl (push_variant path) [path] MARKERS.

Definition bare_exe (normalized_path : string) : option string :=
  let trimmed := default normalized_path (strip_prefix "/" normalized_path) in
  if str_empty trimmed || str_contains "/" trimmed then None else Some trimmed.

(** ** Patterns *)

Definition normalize_exe_pattern (name : string) : string :=
  let exec_name := map (λ c, if Ascii.eqb c BACKSLASH then SLASH else c) (chars name) in
  let exec_name :=
    match exec_name with
    | c :: rest => if Ascii.eqb c ">"%char then SLASH :: rest
                   else if Ascii.eqb c SLASH then c :: rest else SLASH :: c :: rest
    | [] => [SLASH]
    end in
  of_chars (rev_chars exec_name).

Abbreviation PatternIndex := (Z * Z)%type (only parsing).

(** [pattern_index], saturating at [u32::MAX] (release builds). *)
Definition pattern_index (activity_index exe_index : nat) : PatternIndex :=
  (Z.min U32_MAX (Z.of_nat activity_index), Z.min U32_MAX (Z.of_nat exe_index)).

Definition resolve (p : PatternIndex) : nat * nat := (Z.to_nat p.1, Z.to_nat p.2).

(** [iter().enumerate()]. *)
Definition enumerate {A} (l : list A) : list (nat * A) := zip (seq 0 (length l)) l.

(** Every executable of a list with its two indexes, in order. *)
Definition all_exes (detectables : list ScannedEntry) : list (nat * nat * ScannedExe) :=
  enumerate detectables ≫= λ ia, (λ je, (ia.1, je.1, je.2)) <$> enumerate (se_executables ia.2).

Record SplitPatterns := {
  native_patterns : list string;
  native_idx : list PatternIndex;
  proton_patterns : list string;
  proton_idx : list PatternIndex
}.

Section Collect.
Variable platform : Platform.

Definition is_native (x : ScannedExe) : bool :=
  os_is_empty (exe_os x) || os_matches platform (os_as_str (exe_os x)).

Definition is_proton (x : ScannedExe) : bool :=
  match platform with PLinux => bool_decide (exe_os x = OsWin32) | _ => false end.

(** [collect_split_patterns]. *)
Definition collect_split_patterns (detectables : list ScannedEntry) : SplitPatterns :=
  foldl (λ split ijx,
    let '(i, j, x) := ijx in
    if exe_is_launcher x then split
    else
      let native := is_native x in
      let proton := is_proton x in
      if negb native && negb proton then split
      else
        let pattern := normalize_exe_pattern (exe_name x) in
        if String.eqb pattern "/" then split
        else
          let split :=
            if native then
              {| native_patterns := native_patterns split ++ [pattern];
                 native_idx := native_idx split ++ [pattern_index i j];
                 proton_patterns := proton_patterns split; proton_idx := proton_idx split |}
            else split in
          if proton then
            {| native_patterns := native_patterns split; native_idx := native_idx split;
               proton_patterns := proton_patterns split ++ [pattern];
               proton_idx := proton_idx split ++ [pattern_index i j] |}
          else split)
    {| native_patterns := []; native_idx := []; proton_patterns := []; proton_idx := [] |}
    (all_exes detectables).

(** The walk of [build_ac_patterns_with_os_filter]. *)
Definition os_filtered_patterns (detectables : list ScannedEntry) (enforce_os : bool)
    : list string * list PatternIndex :=
  foldl (λ acc ijx,
    let '(i, j, x) := ijx in
    if exe_is_launcher x then acc
    else if enforce_os && negb (os_is_empty (exe_os x))
            && negb (os_matches platform (os_as_str (exe_os x))) then acc
    else
      let pattern := normalize_exe_pattern (exe_name x) in
      if String.eqb pattern "/" then acc
      else (acc.1 ++ [pattern], acc.2 ++ [pattern_index i j]))
    ([], []) (all_exes detectables).
End Collect.

(** ** Lookup tables *)

Definition name_map_bound (detectables : list ScannedEntry) : nat :=
  length detectables + sum_list (map (λ e, length (se_aliases e)) detectables).

(** [collect_names]. *)
Definition collect_names (detectables : list ScannedEntry) : list (string * nat) :=
  enumerate detectables ≫= λ ia,
    base.filter (λ kv, name_matchable kv.1 = true)
      ((λ name, (normalize_name name, ia.1)) <$> (se_name ia.2 :: se_aliases ia.2)).

(** [build_aux_maps]: store ids and names. *)
Definition build_aux_maps (detectables : list ScannedEntry) : SortedIndex * SortedIndex :=
  let steam := enumerate detectables ≫= λ ia,
    base.filter (λ kv, str_empty kv.1 = false) ((λ id, (id, ia.1)) <$> se_steam_ids ia.2) in
  (index_build steam, index_build (collect_names detectables)).

(** [sort_by_key] on the index, stable. *)
Fixpoint insert_by_index (x : nat * string) (l : list (nat * string)) : list (nat * string) :=
  match l with
  | [] => [x]
  | y :: l' => if decide (x.1 ≤ y.1) then x :: l else y :: insert_by_index x l'
  end.

(** [undotted_names]. *)
Definition undotted_names (name_map : SortedIndex) : SortedIndex :=
  let dotted := (λ kv, (kv.2, kv.1)) <$>
    base.filter (λ kv, str_contains "." kv.1 = true) (si_entries name_map) in
  let dotted := foldr insert_by_index [] dotted in
  index_build ((λ ik, (dedot ik.2, ik.1)) <$> dotted).

(** ** Automata and bundles *)

(** [AhoCorasick] with [ascii_case_insensitive(true)]: building can exceed
    the builder's limits; a search reports pattern ids in scan order. *)
Class AhoCorasick := {
  automaton : Type;
  ac_build : list string → option automaton;
  find_overlapping_iter : automaton → string → list nat
}.

(** The crate's promise: an empty pattern list builds, and an overlapping
    search reports exactly the patterns that occur, up to ASCII case. *)
Class AhoCorasickOk `{AhoCorasick} := {
  ac_build_empty : ac_build [] ≠ None;
  ac_reports : ∀ patterns a haystack i,
    ac_build patterns = Some a →
    i ∈ find_overlapping_iter a haystack ↔
    ∃ p x y, patterns !! i = Some p ∧
      fold_path (chars haystack) = x ++ fold_path (chars p) ++ y
}.

Section Bundles.
Context `{AhoCorasick}.
Variable platform : Platform.

Record DetectablesBundle := {
  b_list : list ScannedEntry;
  b_ac : option automaton;
  b_indexes : list PatternIndex;
  b_proton_ac : option automaton;
  b_proton_indexes : list PatternIndex;
  b_steam_map : SortedIndex;
  b_name_map : SortedIndex;
  b_name_map_nodot : SortedIndex;
  b_custom : list ScannedEntry;
  b_custom_ac : option automaton;
  b_custom_indexes : list PatternIndex
}.

(** [DetectablesBundle::empty]. *)
Definition empty_bundle : DetectablesBundle := {|
  b_list := []; b_ac := ac_build []; b_indexes := []; b_proton_ac := None;
  b_proton_indexes := []; b_steam_map := {| si_entries := [] |};
  b_name_map := {| si_entries := [] |}; b_name_map_nodot := {| si_entries := [] |};
  b_custom := []; b_custom_ac := None; b_custom_indexes := [] |}.

(** [build_bundle]; [None] is a [BuildError]. *)
Definition build_bundle (detectable custom : list ScannedEntry) : option DetectablesBundle :=
  let split := collect_split_patterns platform detectable in
  match ac_build (native_patterns split) with
  | None => None
  | Some ac =>
      match (match proton_patterns split with
             | [] => Some None
             | ps => Some <$> ac_build ps
             end) with
      | None => None
      | Some proton_ac =>
          let '(steam_map, name_map) := build_aux_maps detectable in
          match (match custom with
                 | [] => Some (None, [])
                 | _ => let '(ps, idx) := os_filtered_patterns platform custom false in
                        (λ ac, (Some ac, idx)) <$> ac_build ps
                 end) with
          | None => None
          | Some (custom_ac, custom_idx) => Some {|
              b_list := detectable; b_ac := Some ac; b_indexes := native_idx split;
              b_proton_ac := proton_ac; b_proton_indexes := proton_idx split;
              b_steam_map := steam_map; b_name_map := name_map;
              b_name_map_nodot := undotted_names name_map; b_custom := custom;
              b_custom_ac := custom_ac; b_custom_indexes := custom_idx |}
          end
      end
  end.

(** [initial_bundle]. *)
Definition initial_bundle (detectable custom : list DetectableActivity) : DetectablesBundle :=
  default empty_bundle
    (build_bundle (map from_activity detectable) (map from_owned custom)).

(** ** Replacing a generation (database.rs)

    Writers hold the writer lock from the load to the store, so each is one
    step on the current generation. *)

(** [edit_custom]. *)
Definition edit_custom (edit : list ScannedEntry → list ScannedEntry)
    (current : DetectablesBundle) : DetectablesBundle :=
  default current (build_bundle (b_list current) (edit (b_custom current))).

(** [update_main_detectables]: the generation and whether it was swapped. *)
Definition update_main_detectables (detectable : list DetectableActivity)
    (current : DetectablesBundle) : DetectablesBundle * bool :=
  match detectable with
  | [] => (current, false)
  | _ =>
      match build_bundle (map from_owned detectable) (b_custom current) with
      | Some next => (next, true)
      | None => (current, false)
      end
  end.

Definition append_detectables (detectable : list DetectableActivity)
    : DetectablesBundle → DetectablesBundle :=
  edit_custom (λ custom, custom ++ map from_owned detectable).

Definition remove_detectable_by_name (name : string) : DetectablesBundle → DetectablesBundle :=
  edit_custom (base.filter (λ e, se_name e ≠ name)).
End Bundles.
