(* ===== verification/BundleProps.v ===== *)
(** * What a detection generation guarantees

    The two conversions agree, the marker strip is [str::replace], the two
    walks that collect patterns agree, every pattern leads back to the
    executable it came from, and every way a generation is replaced keeps
    all of it consistent. *)

From stdpp Require Import base strings list list_numbers sets relations.
From Stdlib Require Import Ascii.
From S2P Require Import Prelude RStr Text ScanNames SortedIndex Ids Bundle.

Local Open Scope string_scope.
Local Open Scope nat_scope.
Local Open Scope list_scope.

(** ** Conversions *)

Lemma from_owned_activity a : from_owned a = from_activity a.
Proof.
  unfold from_owned, from_activity. f_equal.
  - by destruct (da_executables a).
  - by destruct (da_third_party_skus a).
Qed.

(** The moving and the borrowing conversion of a database entry give the
    same slim entry; an [os] tag survives the trip through its enum; and of
    the SKUs exactly the non-empty ids of the [steam] distributor stay, in
    order. *)
Theorem slim_conversions_agree a os :
  from_owned a = from_activity a ∧
  os_as_str (from_os os) = os ∧ from_string os = from_os os ∧
  (∀ id, id ∈ se_steam_ids (from_activity a) ↔
    id ≠ "" ∧ ∃ skus sku, da_third_party_skus a = Some skus ∧ sku ∈ skus ∧
      sku_distributor sku = "steam" ∧ sku_id sku = Some id).
Proof.
  split_and!; [apply from_owned_activity| |done|].
  - unfold from_os. destruct (String.eqb_spec os "win32") as [->|]; [done|].
    destruct (String.eqb_spec os "linux") as [->|]; [done|].
    destruct (String.eqb_spec os "darwin") as [->|]; [done|].
    by destruct (String.eqb_spec os "") as [->|].
  - intros id. unfold from_activity. simpl. destruct (da_third_party_skus a) as [skus|]; simpl.
    + rewrite list_elem_of_filter, list_elem_of_omap. split.
      * intros [Hne (sku & [Hd Hin]%list_elem_of_filter & Hid)].
        split; [by intros ->|]. by exists skus, sku.
      * intros (Hne & l & sku & [= <-] & Hin & Hd & Hid). split; [by destruct id|].
        exists sku. split; [|done]. by apply list_elem_of_filter.
    + split; [by intros ?%not_elem_of_nil|]. by intros (_ & l & sku & [=] & _).
Qed.

(** ** Path variants *)

Lemma remove_marker_loop_replace fuel rest marker buf :
  marker ≠ [] → length rest ≤ fuel →
  remove_marker_loop fuel rest marker buf = buf ++ replace_l marker [] 0 rest.
Proof.
  intros Hm. revert rest buf. induction fuel as [|fuel IH]; intros rest buf Hf; simpl.
  { destruct rest; [done|simpl in Hf; lia]. }
  destruct (find_sub marker rest) as [[before rest']|] eqn:E.
  - rewrite (replace_l_find marker [] rest before rest') by done.
    apply find_sub_Some in E as [-> _]. rewrite IH.
    + by rewrite <-app_assoc.
    + rewrite !length_app in Hf. destruct marker; [done|]. simpl in Hf. lia.
  - by rewrite replace_l_absent.
Qed.

Lemma remove_marker_replace path marker :
  marker ≠ "" → remove_marker_into path marker = str_replace marker "" path.
Proof.
  intros Hm. unfold remove_marker_into, str_replace.
  rewrite remove_marker_loop_replace; [done| |lia].
  intros E. apply Hm. by rewrite <-(of_chars_chars marker), E.
Qed.

Lemma str_contains_replace p r s : str_contains p s = false → str_replace p r s = s.
Proof.
  unfold str_contains, str_replace. destruct (find_sub (chars p) (chars s)) eqn:E; [done|].
  intros _. by rewrite replace_l_absent, of_chars_chars.
Qed.

(** One marker of the loop. *)
Lemma variants_step path (out : list string) marker :
  marker ≠ "" → length out < 5 → NoDup out → path ∈ out →
  let out' := push_variant path out marker in
  NoDup out' ∧ length out' ≤ S (length out) ∧ out `prefix_of` out' ∧
  (∀ v, v ∈ out' ↔ v ∈ out ∨ v = str_replace marker "" path).
Proof.
  intros Hm Hl Hnd Hp. cbv zeta. unfold push_variant.
  rewrite (bool_decide_eq_false_2 (5 ≤ length out)) by lia.
  rewrite orb_false_r, remove_marker_replace by done.
  assert (NoDup out ∧ length out ≤ S (length out) ∧ out `prefix_of` out) as Hid
    by (split_and!; [done|lia|done]).
  destruct (str_contains marker path) eqn:Hc; simpl.
  2:{ split_and!; [apply Hid..|]. intros v. rewrite (str_contains_replace _ _ _ Hc). naive_solver. }
  set (c := str_replace marker "" path).
  destruct (String.eqb_spec c path) as [E|Hne]; simpl.
  { split_and!; [apply Hid..|]. intros v. rewrite E. naive_solver. }
  case_bool_decide as Hin; simpl.
  { split_and!; [apply Hid..|]. intros v. naive_solver. }
  split_and!.
  - apply NoDup_app. split_and!; [done|set_solver|apply NoDup_singleton].
  - rewrite length_app. simpl. lia.
  - by apply prefix_app_r.
  - intros v. set_solver.
Qed.

(** The variants probed for a path are the path itself, first, and the
    path with every occurrence of one 64-bit marker replaced by nothing, for
    each of the four markers; without repetition, and never more than the
    five buffers hold. *)
Theorem path_variants_spec path :
  head (path_variants_into path) = Some path ∧ NoDup (path_variants_into path) ∧
  length (path_variants_into path) ≤ 5 ∧
  ∀ v, v ∈ path_variants_into path ↔
    v = path ∨ ∃ marker, marker ∈ MARKERS ∧ v = str_replace marker "" path.
Proof.
  unfold path_variants_into.
  assert (∀ (ms out : list string), Forall (λ m, m ≠ "") ms → length ms + length out ≤ 5 →
    NoDup out → path ∈ out →
    let out' := foldl (push_variant path) out ms in
    NoDup out' ∧ length out' ≤ 5 ∧ out `prefix_of` out' ∧
    (∀ v, v ∈ out' ↔ v ∈ out ∨ ∃ m, m ∈ ms ∧ v = str_replace m "" path)) as Hgen.
  { induction ms as [|m ms IH]; intros out Hms Hl Hnd Hp; simpl.
    { simpl in Hl. split_and!; [done|lia|done|]. set_solver. }
    apply Forall_cons in Hms as [Hm Hms]. simpl in Hl.
    destruct (variants_step path out m Hm ltac:(lia) Hnd Hp) as (Hnd1 & Hl1 & Hpre1 & Hin1).
    destruct (IH (push_variant path out m)) as (Hnd2 & Hl2 & Hpre2 & Hin2); [done|lia|done|by apply Hin1; left|].
    split_and!; [done|done|by etrans|]. intros v. rewrite Hin2, Hin1.
    setoid_rewrite elem_of_cons. naive_solver. }
  destruct (Hgen MARKERS [path]) as (Hnd & Hl & Hpre & Hin).
  - by repeat constructor.
  - simpl. lia.
  - apply NoDup_singleton.
  - by left.
  - split_and!; [|done|done|].
    + destruct Hpre as [k ->]. done.
    + intros v. rewrite Hin. by rewrite list_elem_of_singleton.
Qed.

(** ** Patterns *)

Lemma enumerate_lookup {A} (l : list A) i x : (i, x) ∈ enumerate l ↔ l !! i = Some x.
Proof.
  unfold enumerate. rewrite list_elem_of_lookup. split.
  - intros (k & Hk). apply lookup_zip_with_Some in Hk as (a & b & [= <- <-] & Ha & Hb).
    apply lookup_seq in Ha as [-> _]. done.
  - intros Hi. exists i. apply lookup_zip_with_Some. exists i, x. split_and!; [done| |done].
    apply lookup_seq. split; [done|]. by apply lookup_lt_Some in Hi.
Qed.

Lemma all_exes_elem l i j x :
  (i, j, x) ∈ all_exes l ↔ ∃ e, l !! i = Some e ∧ se_executables e !! j = Some x.
Proof.
  unfold all_exes. rewrite list_elem_of_bind. split.
  - intros ([i' e] & Hin & He). apply list_elem_of_fmap in Hin as ([j' x'] & [= -> -> ->] & Hx).
    exists e. split; by apply enumerate_lookup.
  - intros (e & He & Hx). exists (i, e). split; [|by apply enumerate_lookup].
    apply list_elem_of_fmap. exists (j, x). split; [done|]. by apply enumerate_lookup.
Qed.

(** The executables a walk keeps. *)
Definition keep (f : ScannedExe → bool) (ijx : nat * nat * ScannedExe) : Prop :=
  f ijx.2 = true.

#[local] Instance keep_dec f ijx : Decision (keep f ijx).
Proof. unfold keep. apply _. Defined.

Definition pattern_of (ijx : nat * nat * ScannedExe) : string :=
  normalize_exe_pattern (exe_name ijx.2).
Definition index_of (ijx : nat * nat * ScannedExe) : Z * Z := pattern_index ijx.1.1 ijx.1.2.

Lemma filter_keep_one f i j x :
  base.filter (keep f) [(i, j, x)] = if f x then [(i, j, x)] else [].
Proof.
  rewrite filter_cons, filter_nil. case_decide as Hd; unfold keep in Hd; simpl in Hd.
  - by rewrite Hd.
  - by destruct (f x).
Qed.

Section Eligible.
Variable platform : Platform.

Definition usable (x : ScannedExe) : bool :=
  negb (exe_is_launcher x) && negb (String.eqb (normalize_exe_pattern (exe_name x)) "/").
Definition native_exe (x : ScannedExe) : bool := usable x && is_native platform x.
Definition proton_exe (x : ScannedExe) : bool := usable x && is_proton platform x.

Lemma collect_split_spec l :
  let kept f := base.filter (keep f) (all_exes l) in
  let split := collect_split_patterns platform l in
  native_patterns split = pattern_of <$> kept native_exe ∧
  native_idx split = index_of <$> kept native_exe ∧
  proton_patterns split = pattern_of <$> kept proton_exe ∧
  proton_idx split = index_of <$> kept proton_exe.
Proof.
  cbv zeta. unfold collect_split_patterns.
  induction (all_exes l) as [|[[i j] x] exes IH] using rev_ind; [done|].
  rewrite foldl_app, !filter_app, !fmap_app. simpl.
  destruct (foldl _ _ exes) as [np ni pp pi]. simpl in IH. destruct IH as (-> & -> & -> & ->).
  unfold native_exe, proton_exe, usable.
  rewrite !filter_keep_one. destruct (exe_is_launcher x), (is_native platform x), (is_proton platform x),
    (String.eqb (normalize_exe_pattern (exe_name x)) "/"); simpl; rewrite ?app_nil_r; done.
Qed.

Lemma os_filtered_spec l enforce :
  let kept := base.filter (keep (λ x, usable x && (negb enforce || is_native platform x)))
                (all_exes l) in
  os_filtered_patterns platform l enforce = (pattern_of <$> kept, index_of <$> kept).
Proof.
  cbv zeta. unfold os_filtered_patterns.
  induction (all_exes l) as [|[[i j] x] exes IH] using rev_ind; [done|].
  rewrite foldl_app, filter_app, !fmap_app, IH. simpl.
  rewrite filter_keep_one. unfold usable, is_native.
  destruct (exe_is_launcher x), enforce, (os_is_empty (exe_os x)),
    (os_matches platform (os_as_str (exe_os x))),
    (String.eqb (normalize_exe_pattern (exe_name x)) "/"); simpl; rewrite ?app_nil_r; done.
Qed.
End Eligible.

(** One walk over the entries collects what the two separate walks did:
    its native half is the OS-filtered walk, for every platform and every
    list of entries; and no executable is in both halves. *)
Theorem split_walk_agrees platform l :
  (native_patterns (collect_split_patterns platform l),
   native_idx (collect_split_patterns platform l)) = os_filtered_patterns platform l true ∧
  ∀ x, ¬ (native_exe platform x = true ∧ proton_exe platform x = true).
Proof.
  split.
  - destruct (collect_split_spec platform l) as (-> & -> & _). by rewrite os_filtered_spec.
  - intros x [Hn Hp]. unfold native_exe, proton_exe, is_native, is_proton in *.
    destruct platform; rewrite ?andb_false_r in Hp; try done.
    apply andb_true_iff in Hp as [_ Hp]. apply bool_decide_eq_true in Hp.
    rewrite Hp, andb_false_r in Hn. done.
Qed.

(** ** From patterns back to executables *)

(** Sizes the database caps keep far below [u32::MAX]. *)
Definition sized (l : list ScannedEntry) : Prop :=
  (Z.of_nat (length l) ≤ U32_MAX)%Z ∧
  ∀ e, e ∈ l → (Z.of_nat (length (se_executables e)) ≤ U32_MAX)%Z.

(** The pattern table of a tier over [l]. *)
Definition table_ok (f : ScannedExe → bool) (l : list ScannedEntry) (patterns : list string)
    (idx : list (Z * Z)) : Prop :=
  (∀ i p, patterns !! i = Some p → ∃ pi e x, idx !! i = Some pi ∧
    l !! (resolve pi).1 = Some e ∧ se_executables e !! (resolve pi).2 = Some x ∧
    f x = true ∧ p = normalize_exe_pattern (exe_name x)) ∧
  (∀ e x, e ∈ l → x ∈ se_executables e → f x = true →
    normalize_exe_pattern (exe_name x) ∈ patterns).

Lemma resolve_index l i j x :
  sized l → (i, j, x) ∈ all_exes l → resolve (index_of (i, j, x)) = (i, j).
Proof.
  intros [Hl He] (e & Hi & Hj)%all_exes_elem. unfold resolve, index_of, pattern_index. simpl.
  assert (e ∈ l) as Hin by (by eapply list_elem_of_lookup_2). specialize (He e Hin).
  apply lookup_lt_Some in Hi, Hj. f_equal; lia.
Qed.

Lemma kept_table_ok f l :
  sized l → table_ok f l (pattern_of <$> base.filter (keep f) (all_exes l))
              (index_of <$> base.filter (keep f) (all_exes l)).
Proof.
  intros Hs. split.
  - intros k p Hk. apply list_lookup_fmap_Some in Hk as ([[i j] x] & -> & Hk).
    exists (index_of (i, j, x)).
    assert ((i, j, x) ∈ base.filter (keep f) (all_exes l)) as Hin
      by (by eapply list_elem_of_lookup_2).
    apply list_elem_of_filter in Hin as [Hf Hin]. pose proof (resolve_index l i j x Hs Hin) as E.
    apply all_exes_elem in Hin as (e & Hi & Hj). exists e, x.
    rewrite E. split_and!; [|done..]. apply list_lookup_fmap_Some. by exists (i, j, x).
  - intros e x He Hx Hf. apply list_elem_of_lookup in He as [i Hi], Hx as [j Hj].
    apply list_elem_of_fmap. exists (i, j, x). split; [done|].
    apply list_elem_of_filter. split; [done|]. apply all_exes_elem. by exists e.
Qed.

Section BundleInv.
Context `{AhoCorasick}.
Variable platform : Platform.

(** A generation is the empty one or the build of its own two lists. *)
Definition bundle_ok (b : DetectablesBundle) : Prop :=
  b = empty_bundle ∨ build_bundle platform (b_list b) (b_custom b) = Some b.

Lemma build_bundle_lists l c b :
  build_bundle platform l c = Some b → b_list b = l ∧ b_custom b = c.
Proof.
  unfold build_bundle. intros E. repeat case_match; by simplify_eq/=.
Qed.

Lemma build_bundle_ok l c b : build_bundle platform l c = Some b → bundle_ok b.
Proof.
  intros E. right. destruct (build_bundle_lists l c b E) as [-> ->]. done.
Qed.

Lemma initial_bundle_ok d c : bundle_ok (initial_bundle platform d c).
Proof.
  unfold initial_bundle. destruct (build_bundle _ _ _) eqn:E; simpl; [|by left].
  by eapply build_bundle_ok.
Qed.

Lemma edit_custom_ok edit b :
  bundle_ok b → bundle_ok (edit_custom platform edit b) ∧
  b_list (edit_custom platform edit b) = b_list b.
Proof.
  intros Hb. unfold edit_custom. destruct (build_bundle _ _ _) eqn:E; simpl; [|done].
  split; [by eapply build_bundle_ok|]. by destruct (build_bundle_lists _ _ _ E).
Qed.

(** What the tables of a built generation say. *)
Lemma built_tables l c b :
  build_bundle platform l c = Some b → sized l → sized c →
  (∃ ac ps, b_ac b = Some ac ∧ ac_build ps = Some ac ∧
    table_ok (native_exe platform) l ps (b_indexes b)) ∧
  match b_proton_ac b with
  | Some ac => ∃ ps, ac_build ps = Some ac ∧ table_ok (proton_exe platform) l ps (b_proton_indexes b)
  | None => ∀ e x, e ∈ l → x ∈ se_executables e → proton_exe platform x = false
  end ∧
  match b_custom_ac b with
  | Some ac => ∃ ps, ac_build ps = Some ac ∧ table_ok usable c ps (b_custom_indexes b)
  | None => c = []
  end.
Proof.
  intros Hb Hl Hc. unfold build_bundle in Hb.
  destruct (collect_split_spec platform l) as (Enp & Eni & Epp & Epi).
  pose proof (kept_table_ok (native_exe platform) l Hl) as Hn. rewrite <-Enp, <-Eni in Hn.
  pose proof (kept_table_ok (proton_exe platform) l Hl) as Hp. rewrite <-Epp, <-Epi in Hp.
  destruct (ac_build (native_patterns _)) as [ac|] eqn:Eac; [|done].
  destruct (match proton_patterns _ with [] => _ | _ => _ end) as [pac|] eqn:Epac; [|done].
  destruct (build_aux_maps l) as [sm nm].
  destruct (match c with [] => _ | _ => _ end) as [[cac cidx]|] eqn:Ecac; [|done].
  injection Hb as <-. simpl. split_and!; [by eexists _, _| |].
  - destruct pac as [pac|].
    + destruct (proton_patterns _) as [|q qs] eqn:Eq; [done|].
      destruct (ac_build (q :: qs)) eqn:E; [|done]. injection Epac as ->. by eexists.
    + intros e x He Hx. destruct (proton_exe platform x) eqn:E; [|done].
      destruct Hp as [_ Hp]. specialize (Hp e x He Hx E).
      destruct (proton_patterns _) as [|q qs]; [by apply not_elem_of_nil in Hp|].
      by destruct (ac_build (q :: qs)).
  - destruct c as [|c0 c]; [by simplify_eq|].
    rewrite os_filtered_spec in Ecac.
    destruct (ac_build _) as [a|] eqn:E in Ecac; [|done]. simpl in Ecac. injection Ecac as <- <-.
    eexists. split; [exact E|].
    assert (∀ y, (usable y && (negb false || is_native platform y)) = usable y) as Hu
      by (intros y; by rewrite andb_true_r).
    pose proof (kept_table_ok (λ x, usable x && (negb false || is_native platform x)) (c0 :: c) Hc)
      as [H1 H2]. split.
    + intros i p Hi. destruct (H1 i p Hi) as (pi & e & x & ? & ? & ? & Hf & ?).
      rewrite Hu in Hf. by exists pi, e, x.
    + intros e x He Hx Hf. apply (H2 e x He Hx). by rewrite Hu.
Qed.
End BundleInv.

(** One replacement of the generation. *)
Inductive generation_step `{AhoCorasick} (platform : Platform)
    : DetectablesBundle → DetectablesBundle → Prop :=
  | gen_update d b : generation_step platform b (update_main_detectables platform d b).1
  | gen_append d b : generation_step platform b (append_detectables platform d b)
  | gen_remove name b : generation_step platform b (remove_detectable_by_name platform name b).

(** C17: whatever sequence of refreshes, appends and removals ran since the
    start, with whatever builds failing in between, the generation a scan
    loads is all of one piece: it is the empty one or exactly the build of
    its own two lists, so each pattern id an automaton can report resolves
    to an existing entry and executable with that very pattern, and every
    eligible executable has its pattern in its automaton. *)
Theorem generations_consistent `{AhoCorasick} platform d c b :
  rtc (generation_step platform) (initial_bundle platform d c) b →
  sized (b_list b) → sized (b_custom b) →
  b = empty_bundle ∨
  build_bundle platform (b_list b) (b_custom b) = Some b ∧
  (∃ ac ps, b_ac b = Some ac ∧ ac_build ps = Some ac ∧
    table_ok (native_exe platform) (b_list b) ps (b_indexes b)) ∧
  match b_proton_ac b with
  | Some ac => ∃ ps, ac_build ps = Some ac ∧
      table_ok (proton_exe platform) (b_list b) ps (b_proton_indexes b)
  | None => ∀ e x, e ∈ b_list b → x ∈ se_executables e → proton_exe platform x = false
  end ∧
  match b_custom_ac b with
  | Some ac => ∃ ps, ac_build ps = Some ac ∧ table_ok usable (b_custom b) ps (b_custom_indexes b)
  | None => b_custom b = []
  end.
Proof.
  intros Hr Hl Hc. assert (bundle_ok platform b) as [->|Hb]; [|by left|right].
  { revert Hl Hc. pose proof (initial_bundle_ok platform d c) as H0. revert H0.
    induction Hr as [|b1 b2 b3 Hst _ IH]; [done|]. intros H1 Hl Hc. apply IH; [|done..].
    destruct Hst as [d' b|d' b|name b]; [|by apply edit_custom_ok..].
    unfold update_main_detectables. destruct d' as [|x d']; [done|].
    destruct (build_bundle _ _ _) eqn:E; simpl; [|done]. by eapply build_bundle_ok. }
  split; [done|]. by eapply built_tables.
Qed.

(** ** An automaton that scans pattern by pattern *)

Module NaiveAc.
#[export] Instance naive_ac : AhoCorasick := {|
  automaton := list string;
  ac_build patterns := Some patterns;
  find_overlapping_iter patterns haystack :=
    fst <$> base.filter (λ ip : nat * string,
      is_some (find_sub (fold_path (chars ip.2)) (fold_path (chars haystack))) = true)
      (enumerate patterns) |}.

#[export] Instance naive_ac_ok : AhoCorasickOk.
Proof.
  split; [done|]. intros patterns a haystack i [= <-]. simpl.
  rewrite list_elem_of_fmap. split.
  - intros ([j p] & -> & [(x & y & E)%find_sub_is_Some Hin]%list_elem_of_filter).
    apply enumerate_lookup in Hin. by exists p, x, y.
  - intros (p & x & y & Hp & E). exists (i, p). split; [done|].
    apply list_elem_of_filter. split; [|by apply enumerate_lookup].
    apply find_sub_is_Some. by exists x, y.
Qed.

Definition game : DetectableActivity := {|
  da_executables := Some
    [{| x_is_launcher := false; x_name := ">game"; x_os := "linux"; x_arguments := None |};
     {| x_is_launcher := false; x_name := "bin/game.exe"; x_os := "win32"; x_arguments := None |}];
  da_hook := false; da_id := "42"; da_name := "Game";
  da_third_party_skus := None; da_aliases := None |}.

Definition mine : DetectableActivity := {|
  da_executables := Some
    [{| x_is_launcher := false; x_name := "mine"; x_os := ""; x_arguments := None |}];
  da_hook := false; da_id := "43"; da_name := "Mine";
  da_third_party_skus := None; da_aliases := None |}.

Definition first : DetectablesBundle := initial_bundle PLinux [] [].
Definition refreshed : DetectablesBundle := (update_main_detectables PLinux [game] first).1.
Definition appended : DetectablesBundle := append_detectables PLinux [mine] refreshed.

Lemma sized_small l :
  (length l <=? 100) = true → forallb (λ e, length (se_executables e) <=? 100) l = true → sized l.
Proof.
  intros Hl He. apply Nat.leb_le in Hl. split; [unfold U32_MAX; lia|].
  intros e Hin. apply list_elem_of_In, (proj1 (forallb_forall _ _) He), Nat.leb_le in Hin.
  unfold U32_MAX. lia.
Qed.
End NaiveAc.

Lemma generations_consistent_witness :
  NaiveAc.appended ≠ empty_bundle ∧
  b_custom NaiveAc.appended = [from_owned NaiveAc.mine] ∧
  (NaiveAc.appended = empty_bundle ∨
   build_bundle PLinux (b_list NaiveAc.appended) (b_custom NaiveAc.appended)
   = Some NaiveAc.appended).
Proof.
  split_and!; [vm_compute; discriminate|vm_compute; reflexivity|].
  destruct (generations_consistent PLinux [] [] NaiveAc.appended) as [H|[H _]].
  - eapply rtc_l; [apply (gen_update PLinux [NaiveAc.game])|].
    eapply rtc_l; [apply (gen_append PLinux [NaiveAc.mine])|]. apply rtc_refl.
  - apply NaiveAc.sized_small; reflexivity.
  - apply NaiveAc.sized_small; reflexivity.
  - by left.
  - by right.
Defined.
