(* ===== verification/Vdf.v ===== *)
(** * Valve's VDF (crates/rsrpc-steam/src/lib.rs: tokenize, parse_vdf)

    Quoted strings and braces.  A document is a map kept as an association
    list with [HashMap::insert]'s replacement, in insertion order; nothing
    below depends on that order. *)

From stdpp Require Import base strings list list_numbers sets.
From Stdlib Require Import Ascii.
From S2P Require Import Prelude RStr Text.

Local Open Scope string_scope.
Local Open Scope nat_scope.
Local Open Scope list_scope.

#[local] Set Warnings "-register-all".

Inductive Vdf := VdfStr (s : string) | VdfMap (m : list (string * Vdf)).

Abbreviation vmap := (list (string * Vdf)) (only parsing).

(** [HashMap::get]. *)
Definition vget (k : string) (m : vmap) : option Vdf :=
  find_map (λ kv, if String.eqb kv.1 k then Some kv.2 else None) m.

(** [HashMap::insert]. *)
Fixpoint vinsert (k : string) (v : Vdf) (m : vmap) : vmap :=
  match m with
  | [] => [(k, v)]
  | (k', v') :: m => if String.eqb k' k then (k, v) :: m else (k', v') :: vinsert k v m
  end.

(** ** Tokens *)

Definition MAX_TOKEN_LEN : nat := 64 * 1024.
Definition MAX_VDF_TOKENS : nat := 200 * 1000.
Definition MAX_DEPTH : nat := 64.

Definition QUOTE : ascii := chr 34.
Definition ESCAPE : ascii := chr 92.

(** Where the scan is: between tokens, inside a quoted string (what was
    kept of it and whether it ran too long), or right after a backslash. *)
Inductive scan_mode :=
  | Between
  | Inside (text : list ascii) (overlong : bool)
  | Escaped (text : list ascii) (overlong : bool).

Record scan_state := { st_mode : scan_mode; st_tokens : list string }.

(** One character of [tokenize]'s loops. *)
Definition tok_step (st : scan_state) (c : list ascii) : scan_state :=
  let '{| st_mode := mode; st_tokens := tokens |} := st in
  match mode with
  | Between =>
      if decide (MAX_VDF_TOKENS ≤ length tokens) then st
      else if decide (c = [QUOTE]) then {| st_mode := Inside [] false; st_tokens := tokens |}
      else if decide (c = ["{"%char]) then {| st_mode := Between; st_tokens := tokens ++ ["{"] |}
      else if decide (c = ["}"%char]) then {| st_mode := Between; st_tokens := tokens ++ ["}"] |}
      else st
  | Inside text overlong =>
      if decide (c = [QUOTE]) then
        {| st_mode := Between; st_tokens := tokens ++ [of_chars text] |}
      else if decide (c = [ESCAPE]) then {| st_mode := Escaped text overlong; st_tokens := tokens |}
      else if overlong then st
      else if decide (MAX_TOKEN_LEN ≤ length text) then
        {| st_mode := Inside text true; st_tokens := tokens |}
      else {| st_mode := Inside (text ++ c) false; st_tokens := tokens |}
  | Escaped text overlong =>
      {| st_mode := Inside (if overlong then text else text ++ c) overlong; st_tokens := tokens |}
  end.

(** [tokenize]; an unterminated string is dropped with the final mode. *)
Definition tokenize_chars (cs : list (list ascii)) : list string :=
  st_tokens (foldl tok_step {| st_mode := Between; st_tokens := [] |} cs).

Definition tokenize (input : string) : list string := tokenize_chars (utf8_chars (chars input)).

(** ** Documents *)

Record parse_state := {
  ps_current : vmap;
  ps_stack : list (vmap * string);
  ps_pending : option string;
  ps_done : bool
}.

(** One token of [parse_vdf]; [ps_done] once it broke out of the loop. *)
Definition parse_step (st : parse_state) (token : string) : parse_state :=
  let '{| ps_current := current; ps_stack := stack; ps_pending := pending; ps_done := stop |} := st in
  if stop then st
  else if String.eqb token "}" then
    match stack with
    | [] => {| ps_current := current; ps_stack := stack; ps_pending := pending; ps_done := true |}
    | (parent, key) :: stack =>
        {| ps_current := vinsert key (VdfMap current) parent; ps_stack := stack;
           ps_pending := pending; ps_done := false |}
    end
  else if String.eqb token "{" then
    match pending with
    | None => st
    | Some key =>
        if decide (MAX_DEPTH ≤ length stack) then
          {| ps_current := current; ps_stack := stack; ps_pending := None; ps_done := true |}
        else {| ps_current := []; ps_stack := (current, key) :: stack; ps_pending := None;
                ps_done := false |}
    end
  else
    match pending with
    | Some key => {| ps_current := vinsert key (VdfStr token) current; ps_stack := stack;
                     ps_pending := None; ps_done := false |}
    | None => {| ps_current := current; ps_stack := stack; ps_pending := Some token;
                 ps_done := false |}
    end.

(** The frames left open are folded back up. *)
Fixpoint fold_frames (current : vmap) (stack : list (vmap * string)) : vmap :=
  match stack with
  | [] => current
  | (parent, key) :: stack => fold_frames (vinsert key (VdfMap current) parent) stack
  end.

Definition parse_start : parse_state :=
  {| ps_current := []; ps_stack := []; ps_pending := None; ps_done := false |}.

Definition parse_vdf (tokens : list string) : vmap :=
  let st := foldl parse_step parse_start tokens in
  fold_frames (ps_current st) (ps_stack st).

Definition parse_vdf_str (input : string) : vmap :=
  let tokens := tokenize input in
  if decide (MAX_VDF_TOKENS < length tokens) then [] else parse_vdf tokens.

(** ** What Steam's files say *)

Definition library_paths (doc : vmap) : list string :=
  match or_else (vget "libraryfolders" doc) (vget "LibraryFolders" doc) with
  | Some (VdfMap inner) =>
      omap (λ kv, match kv.2 with
                  | VdfStr path => Some path
                  | VdfMap map => match vget "path" map with
                                  | Some (VdfStr path) => Some path
                                  | _ => None
                                  end
                  end) inner
  | _ => []
  end.

(** A trimmed, non-empty string field. *)
Definition trimmed_field (k : string) (m : vmap) : option string :=
  match vget k m with
  | Some (VdfStr s) => if str_empty (trim s) then None else Some (trim s)
  | _ => None
  end.

Definition manifest_ids (doc : vmap) : option (string * string) :=
  match vget "AppState" doc with
  | Some (VdfMap state) =>
      match trimmed_field "appid" state with
      | None => None
      | Some appid =>
          match trimmed_field "installdir" state with
          | None => None
          | Some installdir => Some (appid, installdir)
          end
      end
  | _ => None
  end.

#[global] Opaque MAX_TOKEN_LEN MAX_VDF_TOKENS.

(** ** Bounds *)

(** The scan stops at the cap. *)
Lemma tok_step_bound st c :
  length (st_tokens st) ≤ MAX_VDF_TOKENS →
  (match st_mode st with Between => True | _ => length (st_tokens st) < MAX_VDF_TOKENS end) →
  length (st_tokens (tok_step st c)) ≤ MAX_VDF_TOKENS ∧
  match st_mode (tok_step st c) with
  | Between => True
  | _ => length (st_tokens (tok_step st c)) < MAX_VDF_TOKENS
  end.
Proof.
  destruct st as [mode tokens]. intros Hl Hm. simpl in *.
  destruct mode as [|text []|text []]; unfold tok_step; repeat case_decide; simpl;
    rewrite ?length_app; simpl; split; first [done|lia].
Qed.

(** The token scan never builds more than [MAX_VDF_TOKENS] tokens, so
    the size check after it never fires: an oversized document is parsed
    from its first tokens instead of parsing to nothing. *)
Theorem oversized_vdf_is_truncated input :
  length (tokenize input) ≤ MAX_VDF_TOKENS ∧ parse_vdf_str input = parse_vdf (tokenize input).
Proof.
  assert (length (tokenize input) ≤ MAX_VDF_TOKENS) as Hl.
  { unfold tokenize, tokenize_chars.
    assert (∀ cs st, length (st_tokens st) ≤ MAX_VDF_TOKENS →
      (match st_mode st with Between => True | _ => length (st_tokens st) < MAX_VDF_TOKENS end) →
      length (st_tokens (foldl tok_step st cs)) ≤ MAX_VDF_TOKENS) as Hgen.
    { induction cs as [|c cs IH]; intros st Hl Hm; simpl; [done|].
      destruct (tok_step_bound st c Hl Hm). by apply IH. }
    apply Hgen; simpl; [lia|done]. }
  split; [done|]. unfold parse_vdf_str. by rewrite decide_False by lia.
Qed.

(** ** Round trip *)

(** Induction with the hypothesis for every nested document. *)
Lemma vdf_ind' (P : Vdf → Prop) :
  (∀ s, P (VdfStr s)) → (∀ m, Forall (λ kv, P kv.2) m → P (VdfMap m)) → ∀ v, P v.
Proof.
  intros Hs Hm. fix IH 1. intros [s|m]; [apply Hs|]. apply Hm.
  induction m as [|[k v] m IHm]; constructor; [apply IH|exact IHm].
Qed.

Definition SPACE_CHAR : ascii := chr 32.
Definition LF : ascii := chr 10.

(** A printer, character by character: what Steam writes. *)
Definition escape_char (c : list ascii) : list (list ascii) :=
  if decide (c = [QUOTE]) then [[ESCAPE]; c] else if decide (c = [ESCAPE]) then [[ESCAPE]; c]
  else [c].

Definition quote (s : string) : list (list ascii) :=
  [[QUOTE]] ++ (utf8_chars (chars s) ≫= escape_char) ++ [[QUOTE]].

Fixpoint print_vdf (v : Vdf) : list (list ascii) :=
  match v with
  | VdfStr s => quote s
  | VdfMap m =>
      [["{"%char]] ++
      (fix go m := match m with
         | [] => []
         | (k, v) :: m => quote k ++ [[SPACE_CHAR]] ++ print_vdf v ++ [[LF]] ++ go m
         end) m
      ++ [["}"%char]]
  end.

(** The entries of a document, one per line. *)
Fixpoint print_doc (m : vmap) : list (list ascii) :=
  match m with
  | [] => []
  | (k, v) :: m => quote k ++ [[SPACE_CHAR]] ++ print_vdf v ++ [[LF]] ++ print_doc m
  end.

Lemma print_vdf_map m : print_vdf (VdfMap m) = [["{"%char]] ++ print_doc m ++ [["}"%char]].
Proof. done. Qed.

(** The tokens of a document. *)
Fixpoint vdf_tokens (v : Vdf) : list string :=
  match v with
  | VdfStr s => [s]
  | VdfMap m =>
      ["{"] ++ (fix go m := match m with
                 | [] => []
                 | (k, v) :: m => k :: vdf_tokens v ++ go m
                 end) m ++ ["}"]
  end.

Fixpoint doc_tokens (m : vmap) : list string :=
  match m with [] => [] | (k, v) :: m => k :: vdf_tokens v ++ doc_tokens m end.

Lemma vdf_tokens_map m : vdf_tokens (VdfMap m) = "{" :: doc_tokens m ++ ["}"].
Proof. done. Qed.

(** Strings that survive: no longer than a token and no lone brace. *)
Definition text_ok (s : string) : Prop :=
  length (chars s) ≤ MAX_TOKEN_LEN ∧ s ≠ "{" ∧ s ≠ "}".

(** Documents with distinct keys and at most [d] levels below. *)
Inductive vdf_ok : nat → Vdf → Prop :=
  | ok_str d s : text_ok s → vdf_ok d (VdfStr s)
  | ok_map d m : doc_ok d m → vdf_ok (S d) (VdfMap m)
with doc_ok : nat → vmap → Prop :=
  | ok_nil d : doc_ok d []
  | ok_cons d k v m : text_ok k → k ∉ m.*1 → vdf_ok d v → doc_ok d m → doc_ok d ((k, v) :: m).

Lemma tok_between tokens c :
  length tokens < MAX_VDF_TOKENS →
  tok_step {| st_mode := Between; st_tokens := tokens |} c
  = if decide (c = [QUOTE]) then {| st_mode := Inside [] false; st_tokens := tokens |}
    else if decide (c = ["{"%char]) then {| st_mode := Between; st_tokens := tokens ++ ["{"] |}
    else if decide (c = ["}"%char]) then {| st_mode := Between; st_tokens := tokens ++ ["}"] |}
    else {| st_mode := Between; st_tokens := tokens |}.
Proof. intros Hl. unfold tok_step. by rewrite decide_False by lia. Qed.

Lemma tok_inside tokens text cs :
  length (text ++ concat cs) ≤ MAX_TOKEN_LEN → Forall (λ c, c ≠ []) cs →
  foldl tok_step {| st_mode := Inside text false; st_tokens := tokens |} (cs ≫= escape_char)
  = {| st_mode := Inside (text ++ concat cs) false; st_tokens := tokens |}.
Proof.
  revert text. induction cs as [|c cs IH]; intros text Hl Hne; simpl.
  { by rewrite app_nil_r. }
  apply Forall_cons in Hne as [Hc Hne]. rewrite foldl_app. simpl in Hl. rewrite app_assoc in Hl.
  assert (length text < MAX_TOKEN_LEN) as Hlt.
  { rewrite !length_app in Hl. destruct c; [done|]. simpl in Hl. lia. }
  assert (foldl tok_step {| st_mode := Inside text false; st_tokens := tokens |} (escape_char c)
    = {| st_mode := Inside (text ++ c) false; st_tokens := tokens |}) as ->.
  { unfold escape_char. destruct (decide (c = [QUOTE])) as [->|Hq]; [done|].
    destruct (decide (c = [ESCAPE])) as [->|He]; [done|]. simpl.
    rewrite !decide_False by done. by rewrite decide_False by lia. }
  rewrite IH by done. by rewrite <-app_assoc.
Qed.

Lemma utf8_chars_nonempty l : Forall (λ c, c ≠ []) (utf8_chars l).
Proof.
  induction l as [|a l IH]; simpl; [constructor|].
  destruct (utf8_chars l) as [|[|b g] gs].
  - by apply Forall_cons.
  - apply Forall_cons in IH as [? _]. done.
  - apply Forall_cons in IH as [? ?]. destruct (is_cont b); by repeat (apply Forall_cons; split).
Qed.

Lemma tok_quote tokens s :
  text_ok s → length tokens < MAX_VDF_TOKENS →
  foldl tok_step {| st_mode := Between; st_tokens := tokens |} (quote s)
  = {| st_mode := Between; st_tokens := tokens ++ [s] |}.
Proof.
  intros [Hl _] Ht. unfold quote. rewrite !foldl_app.
  cbn [foldl]. rewrite tok_between by done. rewrite decide_True by done.
  rewrite tok_inside; [|by rewrite concat_utf8_chars|apply utf8_chars_nonempty].
  rewrite concat_utf8_chars. simpl. by rewrite of_chars_chars.
Qed.

Lemma tok_skip tokens c :
  c ≠ [QUOTE] → c ≠ ["{"%char] → c ≠ ["}"%char] →
  tok_step {| st_mode := Between; st_tokens := tokens |} c
  = {| st_mode := Between; st_tokens := tokens |}.
Proof. intros. unfold tok_step. case_decide; [done|]. by rewrite !decide_False by done. Qed.

Scheme vdf_ok_mut := Minimality for vdf_ok Sort Prop
with doc_ok_mut := Minimality for doc_ok Sort Prop.

(** Printing and scanning give the tokens. *)
Lemma tok_doc d m :
  doc_ok d m → ∀ tokens, length tokens + length (doc_tokens m) ≤ MAX_VDF_TOKENS →
  foldl tok_step {| st_mode := Between; st_tokens := tokens |} (print_doc m)
  = {| st_mode := Between; st_tokens := tokens ++ doc_tokens m |}.
Proof.
  revert d m. apply (doc_ok_mut
    (λ d v, ∀ tokens, length tokens + length (vdf_tokens v) ≤ MAX_VDF_TOKENS →
      foldl tok_step {| st_mode := Between; st_tokens := tokens |} (print_vdf v)
      = {| st_mode := Between; st_tokens := tokens ++ vdf_tokens v |})
    (λ d m, ∀ tokens, length tokens + length (doc_tokens m) ≤ MAX_VDF_TOKENS →
      foldl tok_step {| st_mode := Between; st_tokens := tokens |} (print_doc m)
      = {| st_mode := Between; st_tokens := tokens ++ doc_tokens m |})).
  - intros d s Hs tokens Hl. simpl in *. by apply tok_quote; [|lia].
  - intros d m Hm IH tokens Hl. rewrite print_vdf_map, vdf_tokens_map in *.
    simpl in Hl. rewrite length_app in Hl. simpl in Hl.
    rewrite !foldl_app. cbn [foldl]. rewrite tok_between by lia.
    rewrite decide_False by done. rewrite decide_True by done.
    rewrite IH by (rewrite length_app; simpl; lia).
    rewrite tok_between by (rewrite !length_app; simpl; lia). simpl.
    by rewrite <-!app_assoc.
  - intros d tokens _. simpl. by rewrite app_nil_r.
  - intros d k v m Hk Hni Hv IHv Hm IHm tokens Hl. cbn [print_doc doc_tokens] in *.
    simpl in Hl. rewrite length_app in Hl.
    rewrite !foldl_app. rewrite tok_quote by (done || lia). cbn [foldl].
    rewrite (tok_skip (tokens ++ [k]) [SPACE_CHAR]) by done.
    rewrite IHv by (rewrite length_app; simpl; lia).
    rewrite (tok_skip _ [LF]) by done.
    rewrite IHm by (rewrite !length_app; simpl; lia).
    by rewrite <-!app_assoc.
Qed.

Lemma vinsert_fresh k v m : k ∉ m.*1 → vinsert k v m = m ++ [(k, v)].
Proof.
  induction m as [|[k' v'] m IH]; simpl; [done|]. intros Hni.
  destruct (String.eqb_spec k' k) as [->|]; [set_solver|]. f_equal. apply IH. set_solver.
Qed.

(** Parsing the tokens of a document adds it to the open frame. *)
Lemma parse_doc d m :
  doc_ok d m → ∀ current stack,
  d + length stack ≤ MAX_DEPTH → (∀ k, k ∈ m.*1 → k ∉ current.*1) →
  foldl parse_step {| ps_current := current; ps_stack := stack; ps_pending := None;
                      ps_done := false |} (doc_tokens m)
  = {| ps_current := current ++ m; ps_stack := stack; ps_pending := None; ps_done := false |}.
Proof.
  revert d m. apply (doc_ok_mut
    (λ d v, ∀ current stack key, d + length stack ≤ MAX_DEPTH → key ∉ current.*1 →
      foldl parse_step {| ps_current := current; ps_stack := stack; ps_pending := Some key;
                          ps_done := false |} (vdf_tokens v)
      = {| ps_current := current ++ [(key, v)]; ps_stack := stack; ps_pending := None;
           ps_done := false |})
    (λ d m, ∀ current stack, d + length stack ≤ MAX_DEPTH →
      (∀ k, k ∈ m.*1 → k ∉ current.*1) →
      foldl parse_step {| ps_current := current; ps_stack := stack; ps_pending := None;
                          ps_done := false |} (doc_tokens m)
      = {| ps_current := current ++ m; ps_stack := stack; ps_pending := None;
           ps_done := false |})).
  - intros d s (_ & Hb1 & Hb2) current stack key Hd Hk. simpl.
    destruct (String.eqb_spec s "}"), (String.eqb_spec s "{"); try done.
    by rewrite vinsert_fresh.
  - intros d m Hm IH current stack key Hd Hk. rewrite vdf_tokens_map.
    cbn [foldl]. rewrite foldl_app. unfold parse_step at 3. simpl String.eqb. cbv iota.
    rewrite decide_False by lia. rewrite IH; [|simpl; lia|set_solver]. simpl.
    by rewrite vinsert_fresh.
  - intros d current stack _ _. simpl. by rewrite app_nil_r.
  - intros d k v m (Hlen & Hb1 & Hb2) Hni Hv IHv Hm IHm current stack Hd Hdis.
    cbn [doc_tokens foldl].
    assert (parse_step {| ps_current := current; ps_stack := stack; ps_pending := None;
        ps_done := false |} k
      = {| ps_current := current; ps_stack := stack; ps_pending := Some k; ps_done := false |}) as ->.
    { simpl. destruct (String.eqb_spec k "}"), (String.eqb_spec k "{"); done. }
    rewrite foldl_app, IHv; [|done|apply Hdis; simpl; set_solver].
    rewrite IHm; [by rewrite <-app_assoc|done|].
    intros k' Hk'. rewrite fmap_app. simpl. apply not_elem_of_app. split.
    + apply Hdis. simpl. set_solver.
    + set_solver.
Qed.

(** ** Characters of printed text *)

(** A character's encoding: a first byte and its continuation bytes. *)
Definition char_ok (g : list ascii) : Prop :=
  match g with a :: r => is_cont a = false ∧ Forall (λ b, is_cont b = true) r | [] => False end.

Lemma utf8_chars_concat gs : Forall char_ok gs → utf8_chars (concat gs) = gs.
Proof.
  induction 1 as [|g gs Hg Hgs IH]; simpl; [done|].
  destruct g as [|a r]; [done|]. destruct Hg as [Ha Hr]. clear Ha. revert a.
  induction Hr as [|b r Hb Hr IHr]; intros a; simpl.
  - rewrite IH. destruct gs as [|[|c g] gs]; [done|by apply Forall_cons in Hgs as [[] _]|].
    apply Forall_cons in Hgs as [[Hc _] _]. by rewrite Hc.
  - specialize (IHr b). simpl in IHr. rewrite IHr. by rewrite Hb.
Qed.

Definition starts_char (s : string) : Prop :=
  match chars s with a :: _ => is_cont a = false | [] => True end.

Lemma utf8_chars_ok l :
  match l with a :: _ => is_cont a = false | [] => True end → Forall char_ok (utf8_chars l).
Proof.
  assert (∀ l, match utf8_chars l with
    | (a :: r) :: gs => Forall (λ b, is_cont b = true) r ∧ Forall char_ok gs ∧ head l = Some a
    | [] => l = []
    | [] :: _ => False
    end) as Hgen.
  { clear l. induction l as [|a l IH]; simpl; [done|].
    destruct (utf8_chars l) as [|[|b g] gs]; [done|done|]. destruct IH as (Hg & Hgs & _).
    destruct (is_cont b) eqn:Hb; [split_and!; [by constructor|done|done]|].
    split_and!; [done| |done]. constructor; [|done]. done. }
  specialize (Hgen l). intros Hl. destruct (utf8_chars l) as [|[|a g] gs]; [constructor|done|].
  destruct Hgen as (Hg & Hgs & Hh). constructor; [|done]. destruct l; [done|].
  injection Hh as ->. done.
Qed.

Inductive vdf_utf8 : Vdf → Prop :=
  | utf8_str s : starts_char s → vdf_utf8 (VdfStr s)
  | utf8_map m : doc_utf8 m → vdf_utf8 (VdfMap m)
with doc_utf8 : vmap → Prop :=
  | utf8_nil : doc_utf8 []
  | utf8_cons k v m : starts_char k → vdf_utf8 v → doc_utf8 m → doc_utf8 ((k, v) :: m).

Scheme vdf_utf8_mut := Minimality for vdf_utf8 Sort Prop
with doc_utf8_mut := Minimality for doc_utf8 Sort Prop.

Lemma quote_ok s : starts_char s → Forall char_ok (quote s).
Proof.
  intros Hs. unfold quote. repeat apply Forall_app_2; [by repeat constructor| |by repeat constructor].
  pose proof (utf8_chars_ok (chars s) Hs) as Hc.
  induction Hc as [|c cs Hc Hcs IH]; simpl; [constructor|]. apply Forall_app_2; [|done].
  unfold escape_char. repeat case_decide; subst; by repeat constructor.
Qed.

Lemma print_doc_ok m : doc_utf8 m → Forall char_ok (print_doc m).
Proof.
  revert m. apply (doc_utf8_mut (λ v, Forall char_ok (print_vdf v)) (λ m, Forall char_ok (print_doc m))).
  - apply quote_ok.
  - intros m _ IH. rewrite print_vdf_map. repeat apply Forall_app_2; try done; by repeat constructor.
  - constructor.
  - intros k v m Hk _ IHv _ IHm. cbn [print_doc]. apply Forall_app_2; [by apply quote_ok|].
    apply Forall_app_2; [by repeat constructor|]. apply Forall_app_2; [done|].
    apply Forall_app_2; [by repeat constructor|done].
Qed.

(** C35: parsing a written document gives it back: for every document of
    Rust strings with distinct keys per map, at most 64 levels below the
    top and 200000 tokens, whose strings fit a token and are no lone brace
    (a quoted brace cannot be told from a structural one); quotes and
    backslashes in them survive through their escapes.  The source only
    reads such files; [print_doc] is the reference writer of the format
    this claim is stated against. *)
Theorem vdf_roundtrip m :
  doc_ok MAX_DEPTH m → doc_utf8 m → length (doc_tokens m) ≤ MAX_VDF_TOKENS →
  parse_vdf_str (of_chars (concat (print_doc m))) = m.
Proof.
  intros Hok Hu Hl. unfold parse_vdf_str, tokenize. rewrite chars_of_chars, utf8_chars_concat
    by (by apply print_doc_ok).
  unfold tokenize_chars. rewrite (tok_doc MAX_DEPTH m Hok []) by (simpl; lia). simpl.
  rewrite decide_False by lia. unfold parse_vdf, parse_start.
  by rewrite (parse_doc MAX_DEPTH m Hok [] []) by (simpl; lia || set_solver).
Qed.

Module VdfDemo.
Definition doc : vmap :=
  [("libraryfolders", VdfMap [("0", VdfMap [("path", VdfStr "C:\Steam"); ("label", VdfStr "")])])].
End VdfDemo.

Lemma vdf_roundtrip_witness :
  parse_vdf_str (of_chars (concat (print_doc VdfDemo.doc))) = VdfDemo.doc.
Proof.
  assert (∀ s, (length (chars s) <=? 100) = true → s ≠ "{" → s ≠ "}" → text_ok s) as Ht.
  { intros s Hl H1 H2. split_and!; [|done..]. apply Nat.leb_le in Hl.
    etrans; [exact Hl|]. apply Nat.leb_le. vm_compute. reflexivity. }
  apply vdf_roundtrip.
  - repeat (constructor || (apply Ht; [reflexivity|done|done]) || set_solver).
  - by repeat constructor.
  - apply Nat.leb_le. vm_compute. reflexivity.
Defined.
