(* ===== verification/Steam.v ===== *)
(** * Steam libraries: canonical paths and prefix matching (crates/rsrpc-steam/src/lib.rs)

    The map from install directories to AppIds is a [HashMap], walked in
    the hasher's order.  [char::to_lowercase] of a character that is not
    ASCII needs the Unicode tables: a parameter. *)

From stdpp Require Import base gmap strings list list_numbers sets fin_maps.
From Stdlib Require Import Ascii.
From S2P Require Import Prelude RStr Text HashMaps Vdf.

Local Open Scope string_scope.
Local Open Scope nat_scope.
Local Open Scope list_scope.

(** [char::to_lowercase] on the encoding of a non-ASCII character. *)
Class CaseTables := { unicode_lower : list ascii → list ascii }.

Section Paths.
Context `{CaseTables}.

(** [char::to_lowercase]. *)
Definition lower_char (c : list ascii) : list ascii :=
  match c with [a] => [to_ascii_lower a] | _ => unicode_lower c end.

(** [canonical_steam_path_into]: separators, case, a leading slash. *)
Definition canonical_steam_path (raw : string) : string :=
  let dst := utf8_chars (chars raw) ≫= λ c,
               if decide (c = [ESCAPE]) then ["/"%char] else lower_char c in
  of_chars (match dst with
            | a :: _ => if Ascii.eqb a "/"%char then dst else "/"%char :: dst
            | [] => ["/"%char]
            end).

Definition with_trailing_slash (s : string) : string :=
  if ends_with "/" s then s else s +:+ "/".

(** [common_prefix]. *)
Definition common_prefix (library installdir : string) : string :=
  with_trailing_slash
    (canonical_steam_path (library +:+ "/steamapps/common/" +:+ installdir)).

(** The Proton prefix of a manifest-less app, as [scan_library_into] builds it. *)
Definition compat_prefix (library name : string) : string :=
  canonical_steam_path (library +:+ "/steamapps/compatdata/" +:+ name +:+ "/").

(** [library_prefix]. *)
Definition library_prefix (library : string) : string :=
  with_trailing_slash (canonical_steam_path library) +:+ "steamapps/".

(** [library_owns_prefix]. *)
Definition library_owns_prefix (library prefix : string) : bool :=
  starts_with (library_prefix library) prefix.

Context `{HashOrder}.

(** One entry of [match_prefix_into]'s walk: the best so far and its length. *)
Definition better_prefix (path : string) (best : option string * nat) (kv : string * string)
    : option string * nat :=
  if bool_decide (best.2 < length (chars kv.1)) && starts_with kv.1 path
  then (Some kv.2, length (chars kv.1)) else best.

(** [SteamLibraries::match_prefix_into]. *)
Definition match_prefix (dirs : gmap string string) (path : string) : option string :=
  let path := canonical_steam_path path in
  (foldl (better_prefix path) (None, 0) (hm_iter dirs)).1.

(** ** The longest prefix wins *)

Lemma starts_with_spec p s : starts_with p s = true ↔ ∃ r, chars s = chars p ++ r.
Proof.
  unfold starts_with, strip_prefix. destruct (strip_prefix_l (chars p) (chars s)) eqn:E; simpl.
  - apply strip_prefix_l_Some in E. split; [by eexists|done].
  - split; [done|]. intros [r Hr]. apply strip_prefix_l_Some in Hr. congruence.
Qed.

Lemma better_prefix_fold path l b0 n0 :
  let '(b, n) := foldl (better_prefix path) (b0, n0) l in
  (b = b0 ∧ n = n0 ∨ ∃ p id, (p, id) ∈ l ∧ b = Some id ∧ n = length (chars p) ∧ n0 < n ∧
    starts_with p path = true) ∧
  n0 ≤ n ∧ ∀ p id, (p, id) ∈ l → starts_with p path = true → length (chars p) ≤ n.
Proof.
  revert b0 n0. induction l as [|[p id] l IH]; intros b0 n0; simpl.
  { split_and!; [by left|lia|]. set_solver. }
  unfold better_prefix at 2. simpl.
  destruct (bool_decide (n0 < length (chars p)) && starts_with p path) eqn:E.
  - apply andb_true_iff in E as [Hlt%bool_decide_eq_true Hsw].
    specialize (IH (Some id) (length (chars p))).
    destruct (foldl _ _ l) as [b n]. destruct IH as (Hb & Hn & Hall). split_and!; [|lia|].
    + right. destruct Hb as [[-> ->]|(q & j & Hin & -> & -> & Hl & Hq)].
      * exists p, id. split_and!; [by left|done..].
      * exists q, j. split_and!; [by right|done|done|lia|done].
    + intros q j [[= -> ->]|Hin]%elem_of_cons Hq; [lia|]. by eapply Hall.
  - specialize (IH b0 n0). destruct (foldl _ _ l) as [b n]. destruct IH as (Hb & Hn & Hall).
    split_and!; [|lia|].
    + destruct Hb as [?|(q & j & Hin & ?)]; [by left|]. right. exists q, j. split; [by right|done].
    + intros q j [[= -> ->]|Hin]%elem_of_cons Hq; [|by eapply Hall].
      apply andb_false_iff in E as [E%bool_decide_eq_false|E]; [lia|congruence].
Qed.

(** The AppId a path inherits is that of the longest install directory
    above it, whatever order the map is walked in: a result names a
    directory that is a non-empty prefix of the canonical path and no
    longer one is in the map, and there is no result exactly when no
    non-empty directory of the map is a prefix. *)
Theorem match_prefix_longest dirs path :
  match match_prefix dirs path with
  | Some id => ∃ p, dirs !! p = Some id ∧ p ≠ "" ∧
      starts_with p (canonical_steam_path path) = true ∧
      ∀ q j, dirs !! q = Some j → starts_with q (canonical_steam_path path) = true →
        q = p ∨ length (chars q) < length (chars p)
  | None => ∀ q j, dirs !! q = Some j → q ≠ "" →
      starts_with q (canonical_steam_path path) = false
  end.
Proof.
  unfold match_prefix. pose proof (better_prefix_fold (canonical_steam_path path)
    (hm_iter dirs) None 0) as Hf.
  destruct (foldl _ _ _) as [b n]. simpl. destruct Hf as (Hb & _ & Hall).
  destruct Hb as [[-> ->]|(p & id & Hin & -> & -> & Hlt & Hsw)].
  - intros q j Hq Hne. destruct (starts_with q _) eqn:E; [|done].
    exfalso. assert (length (chars q) ≤ 0) as Hl by (eapply Hall; [by apply hm_iter_elem|done]).
    apply Hne. rewrite <-(of_chars_chars q). destruct (chars q); [done|simpl in Hl; lia].
  - exists p. apply hm_iter_elem in Hin. split_and!; [done| |done|].
    + intros ->. simpl in Hlt. lia.
    + intros q j Hq Hsq. assert (length (chars q) ≤ length (chars p)) as Hl
        by (eapply Hall; [by apply hm_iter_elem|done]).
      destruct (decide (length (chars q) = length (chars p))) as [E|]; [left|right; lia].
      apply starts_with_spec in Hsw as [r Hr], Hsq as [r' Hr'].
      rewrite Hr in Hr'. apply app_inj_1 in Hr' as [Heq _]; [|done].
      by rewrite <-(of_chars_chars q), <-Heq, of_chars_chars.
Qed.
End Paths.
