(* ===== verification/AppIdMemo.v ===== *)
(** * Memoized Steam AppIds (crates/rsrpc-detect/src/cache.rs)

    One memo per pid with an invalidation sequence.  [cached_app_id] locks
    the map twice, around an unlocked read of the process's environ; the
    dispatch thread invalidates on EXEC, the scan thread sweeps dead pids.
    The interleavings of the two threads with execs of the processes are a
    step relation. *)

From stdpp Require Import base gmap strings list functions relations fin_maps.
From Stdlib Require Import Ascii.
From S2P Require Import Prelude RStr Text ScanNames.

Local Open Scope Z_scope.

Inductive AppIdMemo :=
  | Absent (seq : Z)
  | Present (seq : Z) (id : string)
  | Stale (seq : Z).

Definition U64_MOD : Z := 2 ^ 64.

Abbreviation memo_map := (gmap Z AppIdMemo) (only parsing).

(** The first critical section of [cached_app_id]: a verified result, or
    the sequence to read the environ under. *)
Definition memo_lookup (cache : memo_map) (pid : Z) : option string + Z :=
  match cache !! pid with
  | Some (Present _ id) => inl (Some id)
  | Some (Absent _) => inl None
  | Some (Stale seq) => inr seq
  | None => inr 0
  end.

(** The second critical section: the outcome is stored under the sequence
    it was read under, unless the entry moved meanwhile. *)
Definition memo_store (cache : memo_map) (pid seq0 : Z) (id : option string) : memo_map :=
  let fresh :=
    match cache !! pid with
    | Some (Stale seq) => Z.eqb seq seq0
    | None => Z.eqb seq0 0
    | _ => false
    end in
  if fresh then
    <[pid := match id with Some id => Present seq0 id | None => Absent seq0 end]> cache
  else cache.

(** [ProcessServer::cached_app_id] with no other thread in between. *)
Definition cached_app_id (cache : memo_map) (pid : Z) (environ : option (list ascii))
    : option string * memo_map :=
  match memo_lookup cache pid with
  | inl result => (result, cache)
  | inr seq0 => let id := read_steam_app_id environ in (id, memo_store cache pid seq0 id)
  end.

Definition memo_seq (m : AppIdMemo) : Z :=
  match m with Absent seq | Present seq _ | Stale seq => seq end.

(** [drop_appid], with [wrapping_add]. *)
Definition drop_appid (cache : memo_map) (pid : Z) : memo_map :=
  <[pid := match cache !! pid with
           | Some entry => Stale ((memo_seq entry + 1) mod U64_MOD)
           | None => Stale 1
           end]> cache.

(** [sweep_dead_appids] (the capacity trim changes no entry). *)
Definition sweep_dead_appids (cache : memo_map) (processes : list Exec) : memo_map :=
  base.filter (λ kv, kv.1 ∈ map exec_pid processes) cache.

(** ** Two threads over one cache *)

Inductive Thread := ScanThread | DispatchThread.

#[export] Instance thread_eq_dec : EqDecision Thread.
Proof. solve_decision. Defined.

(** A [cached_app_id] between its critical sections: what it captured, the
    environ once read, and, for the proofs only, how often the pid had
    been invalidated when it began. *)
Record Flight := {
  fl_pid : Z;
  fl_seq0 : Z;
  fl_id : option (option string);
  fl_drops : nat
}.

Record World := {
  w_cache : memo_map;
  w_execs : Z → nat;
  w_drops : Z → nat;
  w_flight : Thread → option Flight
}.

Definition world0 : World := {|
  w_cache := ∅; w_execs := λ _, 0%nat; w_drops := λ _, 0%nat; w_flight := λ _, None |}.

(** [env pid n]: the environ of [pid] after its [n]th exec, fixed until
    the next.  A dispatch thread busy with an EXEC handles no other, and a
    scan thread sweeps between its classifications. *)
Inductive memo_step (env : Z → nat → option (list ascii)) : World → World → Prop :=
  | step_exec w pid :
      memo_step env w {| w_cache := w_cache w;
        w_execs := <[pid := S (w_execs w pid)]> (w_execs w);
        w_drops := w_drops w; w_flight := w_flight w |}
  | step_drop w pid :
      w_flight w DispatchThread = None → (w_drops w pid < w_execs w pid)%nat →
      memo_step env w {| w_cache := drop_appid (w_cache w) pid; w_execs := w_execs w;
        w_drops := <[pid := S (w_drops w pid)]> (w_drops w); w_flight := w_flight w |}
  | step_sweep w processes :
      w_flight w ScanThread = None →
      memo_step env w {| w_cache := sweep_dead_appids (w_cache w) processes;
        w_execs := w_execs w; w_drops := w_drops w; w_flight := w_flight w |}
  | step_begin w t pid seq0 :
      w_flight w t = None → memo_lookup (w_cache w) pid = inr seq0 →
      memo_step env w {| w_cache := w_cache w; w_execs := w_execs w; w_drops := w_drops w;
        w_flight := <[t := Some {| fl_pid := pid; fl_seq0 := seq0; fl_id := None;
                                   fl_drops := w_drops w pid |}]> (w_flight w) |}
  | step_read w t f :
      w_flight w t = Some f → fl_id f = None →
      memo_step env w {| w_cache := w_cache w; w_execs := w_execs w; w_drops := w_drops w;
        w_flight := <[t := Some {| fl_pid := fl_pid f; fl_seq0 := fl_seq0 f;
            fl_id := Some (read_steam_app_id (env (fl_pid f) (w_execs w (fl_pid f))));
            fl_drops := fl_drops f |}]> (w_flight w) |}
  | step_store w t f id :
      w_flight w t = Some f → fl_id f = Some id →
      memo_step env w {| w_cache := memo_store (w_cache w) (fl_pid f) (fl_seq0 f) id;
        w_execs := w_execs w; w_drops := w_drops w;
        w_flight := <[t := None]> (w_flight w) |}.

(** What a memo says, when it says anything. *)
Definition verified (m : AppIdMemo) : option (option string) :=
  match m with
  | Present _ id => Some (Some id)
  | Absent _ => Some None
  | Stale _ => None
  end.

Section Proofs.
Variable env : Z → nat → option (list ascii).

(** [id] is what some environ of [pid] since its [lo]th exec says. *)
Definition read_since (w : World) (pid : Z) (lo : nat) (id : option string) : Prop :=
  ∃ n, (lo ≤ n ≤ w_execs w pid)%nat ∧ id = read_steam_app_id (env pid n).

(** How the entry of a scan in flight stands to what the scan captured. *)
Definition tracks (w : World) (f : Flight) : Prop :=
  match w_cache w !! fl_pid f with
  | None => fl_seq0 f = 0 ∧ w_drops w (fl_pid f) = fl_drops f
  | Some m => memo_seq m =
      (fl_seq0 f + Z.of_nat (w_drops w (fl_pid f) - fl_drops f)) mod U64_MOD
  end.

Record memo_inv (w : World) : Prop := {
  inv_drops : ∀ pid, (w_drops w pid ≤ w_execs w pid)%nat;
  inv_seq : ∀ pid m, w_cache w !! pid = Some m → 0 ≤ memo_seq m < U64_MOD;
  inv_memo : ∀ pid m id, w_cache w !! pid = Some m → verified m = Some id →
    read_since w pid (w_drops w pid) id;
  inv_flight : ∀ t f, w_flight w t = Some f →
    (fl_drops f ≤ w_drops w (fl_pid f))%nat ∧ 0 ≤ fl_seq0 f < U64_MOD ∧
    ∀ id, fl_id f = Some id → read_since w (fl_pid f) (fl_drops f) id;
  inv_dispatch : ∀ f, w_flight w DispatchThread = Some f → w_drops w (fl_pid f) = fl_drops f;
  inv_scan : ∀ f, w_flight w ScanThread = Some f → tracks w f
}.

Lemma U64_MOD_pos : 0 < U64_MOD.
Proof. done. Qed.

Lemma memo_lookup_miss cache pid seq0 :
  memo_lookup cache pid = inr seq0 →
  match cache !! pid with Some m => m = Stale seq0 | None => seq0 = 0 end.
Proof. unfold memo_lookup. repeat case_match; by intros [= ->]. Qed.

Lemma memo_store_fresh cache pid seq0 id :
  memo_store cache pid seq0 id = cache ∨
  memo_store cache pid seq0 id
    = <[pid := match id with Some id => Present seq0 id | None => Absent seq0 end]> cache ∧
  match cache !! pid with Some m => m = Stale seq0 | None => seq0 = 0 end.
Proof.
  unfold memo_store. destruct (cache !! pid) as [[| |seq]|]; auto.
  - destruct (Z.eqb_spec seq seq0) as [->|]; auto.
  - destruct (Z.eqb_spec seq0 0) as [->|]; auto.
Qed.

(** A scan that finds its entry as it left it was never invalidated. *)
Lemma unmoved w f :
  tracks w f → 0 ≤ fl_seq0 f < U64_MOD → Z.of_nat (w_drops w (fl_pid f)) < U64_MOD →
  (fl_drops f ≤ w_drops w (fl_pid f))%nat →
  match w_cache w !! fl_pid f with Some m => m = Stale (fl_seq0 f) | None => fl_seq0 f = 0 end →
  w_drops w (fl_pid f) = fl_drops f.
Proof.
  unfold tracks. intros Ht Hs Hb Hle Hc. destruct (w_cache w !! fl_pid f) as [m|]; [|by destruct Ht].
  subst m. simpl in Ht. set (k := (w_drops w (fl_pid f) - fl_drops f)%nat) in *.
  assert (0 ≤ Z.of_nat k < U64_MOD) as Hk by lia.
  assert ((fl_seq0 f + Z.of_nat k) / U64_MOD = 0 ∨ (fl_seq0 f + Z.of_nat k) / U64_MOD = 1) as Hq.
  { pose proof (Z.div_pos (fl_seq0 f + Z.of_nat k) U64_MOD).
    pose proof (Z.div_lt_upper_bound (fl_seq0 f + Z.of_nat k) U64_MOD 2). lia. }
  pose proof (Z.div_mod (fl_seq0 f + Z.of_nat k) U64_MOD) as Hdm.
  rewrite <-Ht in Hdm. nia.
Qed.

Lemma read_since_mono w w' pid lo id :
  (w_execs w pid ≤ w_execs w' pid)%nat → read_since w pid lo id → read_since w' pid lo id.
Proof. intros H (n & ? & ?). exists n. split; [lia|done]. Qed.

Lemma inv_exec w pid :
  memo_inv w →
  memo_inv {| w_cache := w_cache w; w_execs := <[pid := S (w_execs w pid)]> (w_execs w);
              w_drops := w_drops w; w_flight := w_flight w |}.
Proof.
  intros [Hd Hs Hm Hf Hw Hc].
  assert (∀ p, (w_execs w p ≤ <[pid := S (w_execs w pid)]> (w_execs w) p)%nat) as Hle.
  { intros p. destruct (decide (p = pid)) as [->|]; [rewrite fn_lookup_insert; lia|].
    by rewrite fn_lookup_insert_ne. }
  split; simpl; [|done| | |done|done].
  - intros p. specialize (Hd p). specialize (Hle p). lia.
  - intros p m id E V. eapply read_since_mono; [apply Hle|eauto].
  - intros t f E. destruct (Hf t f E) as (H1 & H2 & H3). split; [done|]. split; [done|].
    intros id V. eapply read_since_mono; [apply Hle|eauto].
Qed.

Lemma tracks_drop w pid f :
  tracks w f → (fl_drops f ≤ w_drops w (fl_pid f))%nat →
  tracks {| w_cache := drop_appid (w_cache w) pid; w_execs := w_execs w;
            w_drops := <[pid := S (w_drops w pid)]> (w_drops w); w_flight := w_flight w |} f.
Proof.
  unfold tracks, drop_appid. simpl. intros Ht Hle. destruct (decide (fl_pid f = pid)) as [<-|].
  - rewrite lookup_insert_eq, fn_lookup_insert. destruct (w_cache w !! fl_pid f) as [m|]; simpl.
    + rewrite Ht, Zplus_mod_idemp_l. f_equal. lia.
    + destruct Ht as [-> ->]. by replace (S (fl_drops f) - fl_drops f)%nat with 1%nat by lia.
  - by rewrite lookup_insert_ne, fn_lookup_insert_ne by done.
Qed.

Lemma inv_drop w pid :
  w_flight w DispatchThread = None → (w_drops w pid < w_execs w pid)%nat → memo_inv w →
  memo_inv {| w_cache := drop_appid (w_cache w) pid; w_execs := w_execs w;
              w_drops := <[pid := S (w_drops w pid)]> (w_drops w); w_flight := w_flight w |}.
Proof.
  intros Hn Hlt [Hd Hs Hm Hf Hw Hc].
  assert (∀ p, (w_drops w p ≤ <[pid := S (w_drops w pid)]> (w_drops w) p ≤ w_execs w p)%nat) as Hle.
  { intros p. specialize (Hd p). destruct (decide (p = pid)) as [->|];
      [rewrite fn_lookup_insert|rewrite fn_lookup_insert_ne by done]; lia. }
  split; simpl.
  - intros p. apply Hle.
  - intros p m. unfold drop_appid. destruct (decide (p = pid)) as [->|].
    + rewrite lookup_insert_eq. intros [= <-]. destruct (w_cache w !! pid); simpl; [|done].
      apply Z.mod_pos_bound, U64_MOD_pos.
    + rewrite lookup_insert_ne by done. apply Hs.
  - intros p m id. unfold drop_appid. destruct (decide (p = pid)) as [->|].
    + rewrite lookup_insert_eq. intros [= <-]. by destruct (w_cache w !! pid).
    + rewrite lookup_insert_ne, fn_lookup_insert_ne by done. apply Hm.
  - intros t f E. destruct (Hf t f E) as (H1 & H2 & H3). split; [|done].
    specialize (Hle (fl_pid f)). lia.
  - intros f E. congruence.
  - intros f E. apply tracks_drop; [by apply Hc|]. by apply (Hf ScanThread).
Qed.

Lemma inv_sweep w processes :
  w_flight w ScanThread = None → memo_inv w →
  memo_inv {| w_cache := sweep_dead_appids (w_cache w) processes; w_execs := w_execs w;
              w_drops := w_drops w; w_flight := w_flight w |}.
Proof.
  intros Hn [Hd Hs Hm Hf Hw Hc]. unfold sweep_dead_appids.
  split; simpl; [done| | |done|done|by rewrite Hn].
  - intros p m [E _]%map_lookup_filter_Some. eauto.
  - intros p m id [E _]%map_lookup_filter_Some. by apply Hm.
Qed.

Lemma inv_begin w t pid seq0 :
  memo_lookup (w_cache w) pid = inr seq0 → memo_inv w →
  memo_inv {| w_cache := w_cache w; w_execs := w_execs w; w_drops := w_drops w;
    w_flight := <[t := Some {| fl_pid := pid; fl_seq0 := seq0; fl_id := None;
                               fl_drops := w_drops w pid |}]> (w_flight w) |}.
Proof.
  intros E%memo_lookup_miss [Hd Hs Hm Hf Hw Hc].
  assert (0 ≤ seq0 < U64_MOD) as Hr.
  { destruct (w_cache w !! pid) as [m|] eqn:Em; [|by subst]. subst m. by apply (Hs _ _ Em). }
  split; simpl; [done..| | |].
  - intros t' f. destruct (decide (t' = t)) as [->|].
    + rewrite fn_lookup_insert. intros [= <-]. simpl. split_and!; by try lia.
    + rewrite fn_lookup_insert_ne by done. apply Hf.
  - intros f. destruct t; [rewrite fn_lookup_insert_ne by done; apply Hw|].
    rewrite fn_lookup_insert. by intros [= <-].
  - intros f. destruct t; [|rewrite fn_lookup_insert_ne by done; apply Hc].
    rewrite fn_lookup_insert. intros [= <-]. unfold tracks. simpl.
    destruct (w_cache w !! pid) as [m|]; [|done]. subst m. simpl.
    rewrite Nat.sub_diag, Z.add_0_r, Z.mod_small by done. done.
Qed.

Lemma inv_read w t f :
  w_flight w t = Some f → memo_inv w →
  memo_inv {| w_cache := w_cache w; w_execs := w_execs w; w_drops := w_drops w;
    w_flight := <[t := Some {| fl_pid := fl_pid f; fl_seq0 := fl_seq0 f;
      fl_id := Some (read_steam_app_id (env (fl_pid f) (w_execs w (fl_pid f))));
      fl_drops := fl_drops f |}]> (w_flight w) |}.
Proof.
  intros E [Hd Hs Hm Hf Hw Hc]. split; simpl; [done..| | |].
  - intros t' f'. destruct (decide (t' = t)) as [->|].
    + rewrite fn_lookup_insert. intros [= <-]. simpl. destruct (Hf t f E) as (H1 & H2 & _).
      split_and!; [done|lia|lia|]. intros id [= <-]. exists (w_execs w (fl_pid f)).
      split; [simpl|done]. specialize (Hd (fl_pid f)). lia.
    + rewrite fn_lookup_insert_ne by done. apply Hf.
  - intros f'. destruct t; [rewrite fn_lookup_insert_ne by done; apply Hw|].
    rewrite fn_lookup_insert. intros [= <-]. by apply (Hw f).
  - intros f'. destruct t; [|rewrite fn_lookup_insert_ne by done; apply Hc].
    rewrite fn_lookup_insert. intros [= <-]. by apply (Hc f).
Qed.

Lemma inv_land w t :
  memo_inv w →
  memo_inv {| w_cache := w_cache w; w_execs := w_execs w; w_drops := w_drops w;
              w_flight := <[t := None]> (w_flight w) |}.
Proof.
  intros [Hd Hs Hm Hf Hw Hc].
  assert (∀ t' f, <[t := None]> (w_flight w) t' = Some f → w_flight w t' = Some f) as Hsub.
  { intros t' f. destruct (decide (t' = t)) as [->|]; [by rewrite fn_lookup_insert|].
    by rewrite fn_lookup_insert_ne. }
  split; simpl; [done..| | |]; intros *; intros E%Hsub; eauto.
Qed.

Lemma inv_insert w t f id :
  w_flight w t = Some f → fl_id f = Some id → w_drops w (fl_pid f) = fl_drops f →
  match w_cache w !! fl_pid f with Some m => m = Stale (fl_seq0 f) | None => fl_seq0 f = 0 end →
  memo_inv w →
  memo_inv {| w_cache := <[fl_pid f := match id with Some id => Present (fl_seq0 f) id
                                       | None => Absent (fl_seq0 f) end]> (w_cache w);
              w_execs := w_execs w; w_drops := w_drops w; w_flight := w_flight w |}.
Proof.
  intros E Eid Ed Ec [Hd Hs Hm Hf Hw Hc]. destruct (Hf t f E) as (_ & Hr & Hrd).
  split; simpl; [done| | |done|done|].
  - intros p m. destruct (decide (p = fl_pid f)) as [->|].
    + rewrite lookup_insert_eq. intros [= <-]. by destruct id.
    + rewrite lookup_insert_ne by done. apply Hs.
  - intros p m i. destruct (decide (p = fl_pid f)) as [->|].
    + rewrite lookup_insert_eq, Ed. intros [= <-] V. apply Hrd.
      by destruct id; simpl in V; simplify_eq.
    + rewrite lookup_insert_ne by done. apply Hm.
  - intros f' E'. specialize (Hc f' E'). unfold tracks in *. simpl.
    destruct (decide (fl_pid f' = fl_pid f)) as [Ep|].
    + rewrite Ep, lookup_insert_eq in *. destruct (w_cache w !! fl_pid f).
      * subst. by destruct id.
      * destruct Hc as [-> ->]. rewrite Ec, Nat.sub_diag. by destruct id.
    + by rewrite lookup_insert_ne.
Qed.

Lemma inv_store w t f id :
  w_flight w t = Some f → fl_id f = Some id → Z.of_nat (w_drops w (fl_pid f)) < U64_MOD →
  memo_inv w →
  memo_inv {| w_cache := memo_store (w_cache w) (fl_pid f) (fl_seq0 f) id; w_execs := w_execs w;
              w_drops := w_drops w; w_flight := <[t := None]> (w_flight w) |}.
Proof.
  intros E Eid Hb Hinv.
  apply (inv_land {| w_cache := memo_store _ _ _ _; w_flight := w_flight w |}).
  destruct (memo_store_fresh (w_cache w) (fl_pid f) (fl_seq0 f) id) as [->|[-> Hc]];
    [by destruct w|].
  apply (inv_insert w t); [done..| |done|done].
  destruct (inv_flight _ Hinv t f E) as (H1 & H2 & _).
  destruct t; [|by apply (inv_dispatch _ Hinv)].
  by apply unmoved; [apply (inv_scan _ Hinv)|..].
Qed.

Lemma memo_step_inv w w' :
  (∀ pid, Z.of_nat (w_drops w pid) < U64_MOD) → memo_step env w w' → memo_inv w → memo_inv w'.
Proof.
  intros Hb Hst. revert Hb. destruct Hst; intros Hb Hinv; [by apply inv_exec|by apply inv_drop|by apply inv_sweep|by apply inv_begin|
    by apply inv_read|by apply inv_store; [| |apply Hb|]].
Qed.

Lemma memo_step_drops w w' pid : memo_step env w w' → (w_drops w pid ≤ w_drops w' pid)%nat.
Proof.
  intros [? ?|? p| | | |]; simpl; try done. destruct (decide (pid = p)) as [->|];
    [rewrite fn_lookup_insert|rewrite fn_lookup_insert_ne by done]; lia.
Qed.
End Proofs.

(** C18: whatever the interleaving of execs, EXEC invalidations, sweeps and
    the two threads' lookups, a memo never outlives the image it was read
    from: once the invalidations of a pid have caught up with its execs, a
    verified memo is exactly what the current environ says, so an environ
    read that raced an EXEC was never stored.  The sequences are 64-bit and
    wrap, so a pid must be invalidated less than [2^64] times. *)
Theorem appid_memo_is_current env w pid m id :
  rtc (memo_step env) world0 w → (∀ p, Z.of_nat (w_drops w p) < U64_MOD) →
  w_drops w pid = w_execs w pid →
  w_cache w !! pid = Some m → verified m = Some id →
  id = read_steam_app_id (env pid (w_execs w pid)).
Proof.
  intros Hr Hb Hd Hm Hv. assert (memo_inv env w) as Hinv.
  { clear Hd Hm Hv. revert w Hr Hb.
    apply (rtc_ind_r (λ w, (∀ p, Z.of_nat (w_drops w p) < U64_MOD) → memo_inv env w)).
    - intros _. by split.
    - intros w w' _ Hst IH Hb. assert (∀ p, Z.of_nat (w_drops w p) < U64_MOD) as Hb'.
      { intros p. specialize (Hb p). pose proof (memo_step_drops env w w' p Hst). lia. }
      apply (memo_step_inv env w w'); auto. }
  destruct (inv_memo _ _ Hinv pid m id Hm Hv) as (n & Hn & ->).
  by replace n with (w_execs w pid) by lia.
Qed.

Module MemoDemo.
Definition environ (id : string) : option (list ascii) := Some (chars ("SteamAppId=" +:+ id)).
Definition env (pid : Z) (n : nat) : option (list ascii) :=
  match n with 0%nat => environ "10" | _ => environ "20" end.

(** A scan that read the first image's environ when the EXEC came, then
    the dispatch thread's own read of the second. *)
Definition flight (id : option (option string)) (seq : Z) (d : nat) : Flight :=
  {| fl_pid := 7; fl_seq0 := seq; fl_id := id; fl_drops := d |}.
Definition racing : World := {|
  w_cache := w_cache world0; w_execs := w_execs world0; w_drops := w_drops world0;
  w_flight := <[ScanThread := Some (flight (Some (Some "10")) 0 0)]>
    (<[ScanThread := Some (flight None 0 0)]> (w_flight world0)) |}.
Definition dropped : World := {|
  w_cache := drop_appid ∅ 7; w_execs := <[7 := 1%nat]> (w_execs world0);
  w_drops := <[7 := 1%nat]> (w_drops world0); w_flight := w_flight racing |}.
Definition discarded : World := {|
  w_cache := memo_store (w_cache dropped) 7 0 (Some "10"); w_execs := w_execs dropped;
  w_drops := w_drops dropped; w_flight := <[ScanThread := None]> (w_flight dropped) |}.
Definition reread : World := {|
  w_cache := w_cache discarded; w_execs := w_execs dropped; w_drops := w_drops dropped;
  w_flight := <[DispatchThread := Some (flight (Some (Some "20")) 1 1)]>
    (<[DispatchThread := Some (flight None 1 1)]> (w_flight discarded)) |}.
Definition stored : World := {|
  w_cache := memo_store (w_cache reread) 7 1 (Some "20"); w_execs := w_execs dropped;
  w_drops := w_drops dropped; w_flight := <[DispatchThread := None]> (w_flight reread) |}.
End MemoDemo.

Lemma appid_memo_is_current_witness :
  w_cache MemoDemo.discarded !! 7 = Some (Stale 1) ∧
  w_cache MemoDemo.stored !! 7 = Some (Present 1 "20") ∧
  Some "20" = read_steam_app_id (MemoDemo.env 7 (w_execs MemoDemo.stored 7)).
Proof.
  split_and!; [reflexivity..|].
  apply (appid_memo_is_current MemoDemo.env MemoDemo.stored 7 (Present 1 "20"));
    [| |reflexivity..].
  - eapply rtc_l; [apply (step_begin _ world0 ScanThread 7 0); reflexivity|].
    eapply rtc_l; [eapply (step_read _ _ ScanThread); reflexivity|].
    eapply rtc_l; [apply (step_exec _ _ 7)|].
    eapply rtc_l; [apply (step_drop _ _ 7); [reflexivity|apply Nat.lt_0_1]|].
    eapply rtc_l; [eapply (step_store _ _ ScanThread); reflexivity|].
    eapply rtc_l; [apply (step_begin _ _ DispatchThread 7 1); reflexivity|].
    eapply rtc_l; [eapply (step_read _ _ DispatchThread); reflexivity|].
    eapply rtc_l; [eapply (step_store _ _ DispatchThread); reflexivity|].
    apply rtc_refl.
  - intros p. unfold MemoDemo.stored, MemoDemo.dropped. simpl.
    unfold insert, fn_insert. by case_decide.
Defined.
