(* ===== verification/Exclusions.v ===== *)
(** * Detection exclusions (crates/rsrpc-detect/src: db.rs, refresh.rs)

    Basenames and patterns that hide a process from detection, parsed from
    a fetched body.  The [regex] crate is third-party: a class with the
    builders and the match, and a second class with what the crate and the
    source's own comment promise of them. *)

From stdpp Require Import base gmap strings list list_numbers sets.
From Stdlib Require Import Ascii.
From S2P Require Import Prelude RStr Json Text.

Local Open Scope string_scope.
Local Open Scope nat_scope.
Local Open Scope list_scope.

(** [regex]: [RegexBuilder] with its size limit, [RegexSetBuilder] with
    [MAX_PATTERN_BYTES], both case-insensitive. *)
Class Regex := {
  regex_set : Type;
  regex_builds : string → bool;
  set_build : list string → option regex_set;
  set_empty : regex_set;
  set_is_empty : regex_set → bool;
  set_is_match : regex_set → string → bool
}.

(** A built set matches when one of its patterns does, is empty when it
    has none, and a list with a prefix that does not build does not build
    ("program size grows with the pattern count"). *)
Class RegexOk `{Regex} := {
  regex_match : string → string → bool;
  set_match_any : ∀ ps s text, set_build ps = Some s →
    set_is_match s text = existsb (λ p, regex_match p text) ps;
  set_empty_any : ∀ ps s, set_build ps = Some s →
    set_is_empty s = match ps with [] => true | _ => false end;
  set_empty_spec : set_is_empty set_empty = true ∧ ∀ text, set_is_match set_empty text = false;
  set_build_nil : is_Some (set_build []);
  set_build_prefix : ∀ ps qs, is_Some (set_build (ps ++ qs)) → is_Some (set_build ps)
}.

Definition MAX_EXCLUSION_NAMES : nat := 1024.
Definition MAX_EXCLUSION_PATTERNS : nat := 128.
Definition MAX_PATTERN_LEN : nat := 256.

Section Exclusions.
Context `{Regex}.

Record Exclusions := {
  ex_executables : gset string;
  ex_patterns : regex_set
}.

Definition exclusions_default : Exclusions :=
  {| ex_executables := ∅; ex_patterns := set_empty |}.

Definition exclusions_is_empty (e : Exclusions) : bool :=
  bool_decide (ex_executables e = ∅) && set_is_empty (ex_patterns e).

(** [Exclusions::is_excluded]. *)
Definition is_excluded (e : Exclusions) (basename : string) : bool :=
  if bool_decide (ex_executables e = ∅) && set_is_empty (ex_patterns e) then false
  else if bool_decide (basename ∈ ex_executables e) then true
  else set_is_match (ex_patterns e) basename.

(** The names [parse_exclusions] keeps. *)
Definition exclusion_names (executables : list Value) : list string :=
  take MAX_EXCLUSION_NAMES
    (base.filter (λ e, str_empty e = false)
      ((λ e, to_ascii_lowercase (trim e)) <$> omap as_str executables)).

(** The patterns it validates one by one. *)
Definition exclusion_patterns (patterns : list Value) : list string :=
  base.filter (λ p, regex_builds p = true)
    (take MAX_EXCLUSION_PATTERNS
      (base.filter (λ p, str_empty p = false ∧ String.length p ≤ MAX_PATTERN_LEN)
        (trim <$> omap as_str patterns))).

(** The binary search for the longest prefix that builds.  Fuel: every
    round shrinks [hi - lo]. *)
Fixpoint fit_loop (fuel : nat) (valid : list string) (lo hi : nat) : nat :=
  match fuel with
  | 0 => lo
  | S fuel =>
      if decide (lo < hi) then
        let mid := (lo + hi + 1) / 2 in
        if is_some (set_build (take mid valid)) then fit_loop fuel valid mid hi
        else fit_loop fuel valid lo (mid - 1)
      else lo
  end.

Definition fit_len (valid : list string) : nat :=
  if is_some (set_build valid) then length valid
  else fit_loop (length valid) valid 0 (length valid).

(** The set built from the validated patterns. *)
Definition kept_set (valid : list string) : regex_set :=
  match valid with
  | [] => set_empty
  | _ => default set_empty (set_build (take (fit_len valid) valid))
  end.

(** [parse_exclusions]. *)
Definition parse_exclusions `{Serde} (body : string) : Exclusions :=
  match json_from_str body with
  | None => exclusions_default
  | Some value => {|
      ex_executables :=
        match value_get "executables" value ≫= as_array with
        | Some executables => list_to_set (exclusion_names executables)
        | None => ∅
        end;
      ex_patterns :=
        match value_get "patterns" value ≫= as_array with
        | Some patterns => kept_set (exclusion_patterns patterns)
        | None => set_empty
        end |}
  end.

(** refresh.rs: [may_replace_exclusions], and [refresh_exclusions] on the
    body of the fetch ([None]: the fetch failed). *)
Definition may_replace_exclusions (current fetched : Exclusions) : bool :=
  negb (exclusions_is_empty fetched) || exclusions_is_empty current.

Definition refresh_exclusions `{Serde} (url fetched : option string)
    (current : Exclusions) : Exclusions :=
  match url, fetched with
  | Some _, Some body =>
      let exclusions := parse_exclusions body in
      if may_replace_exclusions current exclusions then exclusions else current
  | _, _ => current
  end.
End Exclusions.

(** ** The longest fitting prefix *)

Section Fit.
Context `{RegexOk}.

Definition builds (valid : list string) (n : nat) : Prop := is_Some (set_build (take n valid)).

Lemma builds_mono valid n m : n ≤ m → builds valid m → builds valid n.
Proof.
  intros Hle Hm. unfold builds in *. apply (set_build_prefix _ (take (m - n) (drop n valid))).
  by rewrite take_take_drop, Nat.add_comm, Nat.sub_add.
Qed.

Lemma is_some_spec {A} (o : option A) : is_some o = true ↔ is_Some o.
Proof. destruct o; simpl; split; [by eexists|done|done|by intros []]. Qed.

Lemma fit_loop_spec fuel valid lo hi :
  hi - lo ≤ fuel → lo ≤ hi → builds valid lo → (∀ n, builds valid n → n ≤ length valid → n ≤ hi) →
  let n := fit_loop fuel valid lo hi in
  builds valid n ∧ n ≤ hi ∧ ∀ m, builds valid m → m ≤ length valid → m ≤ n.
Proof.
  revert lo hi. induction fuel as [|fuel IH]; intros lo hi Hf Hle Hlo Hhi;
    cbn [fit_loop]; cbv zeta.
  { split_and!; [done|done|]. intros m Hm Hl. specialize (Hhi m Hm Hl). lia. }
  case_decide as Hlt; [|split_and!; [done|done|]; intros m Hm Hl; specialize (Hhi m Hm Hl); lia].
  pose proof (Nat.div_mod_eq (lo + hi + 1) 2). pose proof (Nat.mod_upper_bound (lo + hi + 1) 2).
  set (mid := (lo + hi + 1) / 2) in *.
  destruct (is_some (set_build (take mid valid))) eqn:E.
  - apply is_some_spec in E. apply (IH mid hi); [lia|lia|exact E|exact Hhi].
  - destruct (IH lo (mid - 1)) as (? & ? & ?); [lia|lia|done| |split_and!; [done|lia|done]].
    intros n Hn Hl. destruct (decide (mid ≤ n)); [|lia].
    apply (builds_mono valid mid) in Hn; [|done]. apply is_some_spec in Hn. congruence.
Qed.

Lemma fit_len_spec valid :
  builds valid (fit_len valid) ∧ fit_len valid ≤ length valid ∧
  ∀ m, builds valid m → m ≤ length valid → m ≤ fit_len valid.
Proof.
  unfold fit_len. destruct (is_some (set_build valid)) eqn:E.
  - apply is_some_spec in E. split_and!; [|lia|lia]. unfold builds. by rewrite firstn_all.
  - apply fit_loop_spec; [lia|lia| |done]. unfold builds. rewrite take_0. apply set_build_nil.
Qed.

Lemma parsed_match valid text :
  set_is_match (kept_set valid) text = existsb (λ p, regex_match p text) (take (fit_len valid) valid) ∧
  (set_is_empty (kept_set valid) = true → take (fit_len valid) valid = []).
Proof.
  destruct set_empty_spec as [He Hm]. unfold kept_set.
  destruct valid as [|v valid]; [by rewrite take_nil, Hm|].
  destruct (fit_len_spec (v :: valid)) as ([s Hs] & _). rewrite Hs. simpl default.
  rewrite (set_match_any _ _ _ Hs), (set_empty_any _ _ Hs). split; [done|].
  by destruct (take _ _).
Qed.
End Fit.

(** A parsed body excludes exactly the processes it names: with the
    JSON's [executables] and [patterns] arrays, a basename is excluded when
    it is one of the first 1024 non-blank names, trimmed and folded to
    lower case, or matches one of the valid patterns that fit the size
    budget, which are the longest prefix that does, so one oversized
    pattern never disarms those before it. *)
Theorem parse_exclusions_spec `{RegexOk} `{Serde} body value executables patterns text :
  json_from_str body = Some value →
  value_get "executables" value = Some (VArray executables) →
  value_get "patterns" value = Some (VArray patterns) →
  let valid := exclusion_patterns patterns in
  let kept := take (fit_len valid) valid in
  (is_excluded (parse_exclusions body) text = true ↔
    text ∈ exclusion_names executables ∨ ∃ p, p ∈ kept ∧ regex_match p text = true) ∧
  length (exclusion_names executables) ≤ MAX_EXCLUSION_NAMES ∧
  length kept ≤ MAX_EXCLUSION_PATTERNS ∧
  is_Some (set_build kept) ∧
  ∀ n, is_Some (set_build (take n valid)) → n ≤ length valid → n ≤ length kept.
Proof.
  intros Hv He Hp valid kept. destruct (fit_len_spec valid) as (Hb & Hle & Hmax).
  assert (length kept = fit_len valid) as Hlen by (unfold kept; rewrite length_take; lia).
  destruct (parsed_match valid text) as [Hmatch Hempty]. split_and!.
  - unfold is_excluded, parse_exclusions. rewrite Hv, He, Hp. cbn [mbind option_bind as_array
      ex_executables ex_patterns]. fold valid. rewrite Hmatch.
    assert (existsb (λ p, regex_match p text) kept = true ↔
      ∃ p, p ∈ kept ∧ regex_match p text = true) as Hex.
    { rewrite existsb_exists. split; intros (p & Hin & ?); exists p; by rewrite ?list_elem_of_In in *. }
    destruct (bool_decide _ && set_is_empty _) eqn:E.
    + apply andb_true_iff in E as [E1%bool_decide_eq_true E2]. apply Hempty in E2.
      fold kept in E2. rewrite E2. split; [done|].
      intros [Hin|(p & Hin & _)]; [|by apply not_elem_of_nil in Hin].
      apply (elem_of_list_to_set (C:=gset string)) in Hin. set_solver.
    + clear E Hempty. case_bool_decide as Hin; rewrite elem_of_list_to_set in Hin.
      * split; [by left|done].
      * fold kept. rewrite Hex. naive_solver.
  - unfold exclusion_names. rewrite length_take. lia.
  - rewrite Hlen. unfold valid, exclusion_patterns in Hle |- *. etrans; [exact Hle|].
    etrans; [apply length_filter|]. rewrite length_take. lia.
  - exact Hb.
  - intros n Hn Hl. rewrite Hlen. by apply Hmax.
Qed.

(** Exclusions once armed stay armed: a refresh never replaces a
    non-empty set by an empty one, whatever the fetch brought. *)
Theorem refresh_keeps_exclusions `{Regex} `{Serde} url fetched current :
  exclusions_is_empty current = false →
  exclusions_is_empty (refresh_exclusions url fetched current) = false.
Proof.
  intros Hc. unfold refresh_exclusions, may_replace_exclusions. destruct url, fetched; try done.
  rewrite Hc, orb_false_r. by destruct (exclusions_is_empty (parse_exclusions _)) eqn:E; simpl.
Qed.

(** ** A regex engine of literal substrings *)

Module DemoRegex.
Definition program (ps : list string) : nat := sum_list (map String.length ps).

#[export] Instance demo_regex : Regex := {|
  regex_set := list string;
  regex_builds p := negb (String.eqb p "(");
  set_build ps := if decide (program ps ≤ 16) then Some ps else None;
  set_empty := [];
  set_is_empty ps := match ps with [] => true | _ => false end;
  set_is_match ps text := existsb (λ p, str_contains p text) ps |}.

#[export] Instance demo_regex_ok : RegexOk.
Proof.
  refine {| regex_match := str_contains |}.
  - intros ps s text. simpl. case_decide; [|done]. by intros [= <-].
  - intros ps s. simpl. case_decide; [|done]. by intros [= <-].
  - done.
  - by eexists.
  - intros ps qs [s Hs]. simpl in *. unfold program in *. rewrite map_app, sum_list_with_app in Hs.
    repeat case_decide; try done; first [by eexists|lia].
Defined.

Definition value : Value := VObject
  [("executables", VArray [VString " Setup.EXE "; VBool true]);
   ("patterns", VArray [VString "crash"; VString "("; VString "averyveryverylongpattern"])].

#[export] Instance demo_body : Serde :=
  {| json_to_string := λ _, None; json_from_str := λ _, Some value; msgpack_to_vec := λ _, None |}.
End DemoRegex.
Import DemoRegex.

Lemma parse_exclusions_spec_witness :
  is_excluded (parse_exclusions "body") "setup.exe" = true ∧
  is_excluded (parse_exclusions "body") "game.exe" = false ∧
  (is_excluded (parse_exclusions "body") "unitycrashhandler" = true ↔
    "unitycrashhandler" ∈ ["setup.exe"] ∨
    ∃ p, p ∈ ["crash"] ∧ str_contains p "unitycrashhandler" = true).
Proof.
  split_and!; [vm_compute; reflexivity..|].
  destruct (parse_exclusions_spec "body" DemoRegex.value [VString " Setup.EXE "; VBool true]
    [VString "crash"; VString "("; VString "averyveryverylongpattern"] "unitycrashhandler")
    as [Hiff _]; [reflexivity..|]. exact Hiff.
Defined.

Lemma refresh_keeps_exclusions_witness :
  exclusions_is_empty (parse_exclusions "body") = false ∧
  exclusions_is_empty (refresh_exclusions (Some "url") (Some "body") (parse_exclusions "body"))
  = false.
Proof.
  split; [vm_compute; reflexivity|]. apply refresh_keeps_exclusions. vm_compute. reflexivity.
Defined.
