(* ===== verification/Scan.v ===== *)
(** * Classifying processes (crates/rsrpc-detect/src: scan.rs, scanner.rs)

    The probes of the three automata and their corroboration, the store-id
    and name tiers, [match_process] with the reads it makes of one process
    as an argument, and one sweep over the process table. *)

From stdpp Require Import base gmap strings list list_numbers sets.
From Stdlib Require Import Ascii.
From S2P Require Import Prelude RStr Text HashMaps Ids ScanNames SortedIndex Bundle Steam AppIdMemo Exclusions.

Local Open Scope string_scope.
Local Open Scope nat_scope.
Local Open Scope list_scope.

Inductive MatchOutcome :=
  | Corroborated (obj : ScannedEntry) (exe_index : nat)
  | Refused
  | NoMatch.

(** [MatchOutcome::take_hit] and [MatchOutcome::refused]. *)
Definition take_hit (o : MatchOutcome) : option (ScannedEntry * nat) :=
  match o with Corroborated obj i => Some (obj, i) | _ => None end.

Definition outcome_refused (o : MatchOutcome) : bool :=
  match o with Refused => true | _ => false end.

(** The loop of [first_hit_naming_path]. *)
Fixpoint first_hit_loop (probe : list (ScannedEntry * nat)) (variant : string) (any_match : bool)
    : MatchOutcome :=
  match probe with
  | [] => if any_match then Refused else NoMatch
  | (obj, exe_index) :: probe =>
      match se_executables obj !! exe_index with
      | Some exe =>
          if exe_names_path variant (exe_name exe) then Corroborated obj exe_index
          else first_hit_loop probe variant true
      | None => first_hit_loop probe variant true
      end
  end.

Definition first_hit_naming_path (probe : list (ScannedEntry * nat)) (variant : string)
    : MatchOutcome := first_hit_loop probe variant false.

(** [argv_names_an_executable]. *)
Definition argv_names_an_executable (process_path : string) (obj : ScannedEntry) : bool :=
  match se_executables obj with
  | [] => true
  | exes => existsb (λ exe, exe_names_path process_path (exe_name exe))
              (base.filter (λ exe, exe_is_launcher exe = false) exes)
  end.

(** What the classification reads of the machine: [/proc/<pid>/cwd],
    [stat] and [environ], and the clock. *)
Record Machine := {
  mc_cwd : Z → option string;
  mc_stat : Z → option string;
  mc_environ : Z → option (list ascii);
  mc_now : Z
}.

(** Where a live process is read from only on Linux. *)
Definition on_linux {A} (platform : Platform) (a b : A) : A :=
  match platform with PLinux => a | _ => b end.

Section Tiers.
Variable platform : Platform.
Variable mc : Machine.

(** [read_cwd]. *)
Definition read_cwd (pid : Z) : option string :=
  on_linux platform (to_ascii_lowercase <$> mc_cwd mc pid) None.

Definition suspended (pid : Z) : bool := on_linux platform (is_suspended (mc_stat mc pid)) false.

(** [live_or_none], with [ScannedHit::stamp]. *)
Definition live_or_none (obj : ScannedEntry) (pid : Z) (source : DetectSource)
    : option ScannedHit :=
  if suspended pid then None
  else Some {| hit_entry := obj; hit_pid := pid; hit_start := mc_now mc; hit_source := source |}.

(** [finish_direct_hit]. *)
Definition finish_direct_hit (obj : ScannedEntry) (exe_index : nat) (process : Exec)
    (source : DetectSource) : option ScannedHit :=
  match se_executables obj !! exe_index with
  | None => None
  | Some executable =>
      let has_args :=
        match exe_arguments executable with
        | None => true
        | Some exec_args => match exec_arguments process with
                            | Some args => str_contains exec_args args
                            | None => false
                            end
        end in
      if has_args then live_or_none obj (exec_pid process) source else None
  end.

Record SteamIdLookup := {
  sl_app_id : option string;
  sl_process_path : string;
  sl_source : DetectSource;
  sl_steam_map : SortedIndex;
  sl_entries : list ScannedEntry;
  sl_custom : list ScannedEntry
}.

(** The custom half of [match_steam_id]. *)
Fixpoint match_custom_id (appid : string) (pid : Z) (lookup : SteamIdLookup)
    (custom : list ScannedEntry) : option ScannedHit :=
  match custom with
  | [] => None
  | obj :: custom =>
      if bool_decide (appid ∈ se_steam_ids obj) then
        if argv_names_an_executable (sl_process_path lookup) obj
        then live_or_none obj pid (sl_source lookup)
        else match_custom_id appid pid lookup custom
      else match_custom_id appid pid lookup custom
  end.

(** [match_steam_id]. *)
Definition match_steam_id (pid : Z) (lookup : SteamIdLookup) : option ScannedHit :=
  match sl_app_id lookup with
  | None => None
  | Some appid =>
      match index_get (sl_steam_map lookup) appid with
      | Some idx =>
          match sl_entries lookup !! idx with
          | None => None
          | Some obj =>
              if argv_names_an_executable (sl_process_path lookup) obj
              then live_or_none obj pid (sl_source lookup) else None
          end
      | None => match_custom_id appid pid lookup (sl_custom lookup)
      end
  end.

(** The components above the file, nearest first
    ([rsplit('/').skip(1)]). *)
Definition ancestors (process_path : string) : list string :=
  tail (rev (split "/" process_path)).

(** One name against a table: the entry it leads to. *)
Definition name_entry (t : SortedIndex) (entries : list ScannedEntry) (name : string)
    : option ScannedEntry :=
  if name_matchable name then index_get t name ≫= λ idx, entries !! idx else None.

(** [match_name_or_folder]: stem, plain folders, dotted folders. *)
Definition match_name_or_folder (process_path : string) (pid : Z)
    (name_map name_map_nodot : SortedIndex) (entries : list ScannedEntry) : option ScannedHit :=
  match name_entry name_map entries (exe_stem process_path) with
  | Some obj => live_or_none obj pid ExeStem
  | None =>
      match find_map (λ component,
        if str_contains "." component then None
        else name_entry name_map entries (normalize_lowered_into component))
        (ancestors process_path) with
      | Some obj => live_or_none obj pid Folder
      | None =>
          match find_map (λ component,
            if negb (str_contains "." component) then None
            else name_entry name_map_nodot entries (normalize_lowered_dedotted_into component))
            (ancestors process_path) with
          | Some obj => live_or_none obj pid Folder
          | None => None
          end
      end
  end.
End Tiers.

Section Probes.
Context `{AhoCorasick}.

(** Pattern ids to entries: [indexes.get(..)?.resolve()], then the list. *)
Definition resolve_hits (indexes : list (Z * Z)) (entries : list ScannedEntry) (hits : list nat)
    : list (ScannedEntry * nat) :=
  omap (λ i, indexes !! i ≫= λ p,
    let '(activity, exe) := resolve p in (λ e, (e, exe)) <$> entries !! activity) hits.

Definition search (ac : option automaton) (reversed_path : string) : list nat :=
  match ac with Some ac => find_overlapping_iter ac reversed_path | None => [] end.

Definition main_probe (reversed_path : string) (b : DetectablesBundle) : list (ScannedEntry * nat) :=
  resolve_hits (b_indexes b) (b_list b) (search (b_ac b) reversed_path).

Definition custom_probe (reversed_path : string) (b : DetectablesBundle)
    : list (ScannedEntry * nat) :=
  resolve_hits (b_custom_indexes b) (b_custom b) (search (b_custom_ac b) reversed_path).

Definition proton_probe (reversed_path : string) (b : DetectablesBundle)
    : list (ScannedEntry * nat) :=
  resolve_hits (b_proton_indexes b) (b_list b) (search (b_proton_ac b) reversed_path).

Definition ac_probe (reversed_path : string) (b : DetectablesBundle)
    : option (ScannedEntry * nat) :=
  match main_probe reversed_path b with
  | hit :: _ => Some hit
  | [] => head (custom_probe reversed_path b)
  end.

(** One automaton against one variant. *)
Definition probe_one (b : DetectablesBundle) (proton : bool) (pass : nat) (variant : string)
    : MatchOutcome :=
  let reversed_path := str_rev variant in
  first_hit_naming_path
    (if proton then proton_probe reversed_path b
     else if decide (pass = 0) then main_probe reversed_path b
     else custom_probe reversed_path b) variant.

(** The nested loops of [probe_variants], passes outside. *)
Fixpoint probe_walk (b : DetectablesBundle) (proton : bool) (walk : list (nat * string))
    (refused : bool) : MatchOutcome :=
  match walk with
  | [] => if refused then Refused else NoMatch
  | (pass, variant) :: walk =>
      let outcome := probe_one b proton pass variant in
      match take_hit outcome with
      | Some (obj, exe_index) => Corroborated obj exe_index
      | None => probe_walk b proton walk (refused || outcome_refused outcome)
      end
  end.

Definition probe_variants (path : string) (b : DetectablesBundle) (proton : bool) : MatchOutcome :=
  let variants := path_variants_into path in
  let passes := if proton || negb (is_some (b_custom_ac b)) then 1 else 2 in
  probe_walk b proton (seq 0 passes ≫= λ pass, (λ v, (pass, v)) <$> variants) false.
End Probes.

(** The path with consistent slashes. *)
Definition slashed (path : string) : string :=
  let p := if str_contains (str_of_codes [92%Z]) path then replace_char BACKSLASH SLASH path
           else path in
  if starts_with "/" p then p else "/" +:+ p.

(** The basename as the exclusions spell it. *)
Definition folded_basename (process_path : string) : string :=
  let raw := basename process_path in
  if existsb is_upper (chars raw) then to_ascii_lowercase raw else raw.

(** ** Enumerating processes (scanner.rs) *)

(** The loop of [parse_proc_pid], every step checked. *)
Fixpoint parse_pid_loop (pid : Z) (name : list ascii) : option Z :=
  match name with
  | [] => Some pid
  | byte :: name =>
      if is_digit byte then
        checked_u64 (pid * 10) ≫= λ pid, checked_u64 (pid + digit_val byte) ≫= λ pid,
        parse_pid_loop pid name
      else None
  end.

Definition parse_proc_pid (name : list ascii) : option Z :=
  match name with [] => None | _ => parse_pid_loop 0 name end.

Definition SLOT_LOW_TICKS : nat := 8.

(** One readable entry of [process_list_into]'s loop: the slot count, the
    filled prefix. *)
Definition fill_slot (read : Z → option Exec) (st : nat * list Exec) (pid : Z)
    : nat * list Exec :=
  let '(slots, filled) := st in
  let slots := if decide (length filled = slots) then S slots else slots in
  match read pid with
  | Some exec => (slots, filled ++ [exec])
  | None => (slots, filled)
  end.

(** [process_list_into]: the filled prefix, the slots kept, the counter of
    low ticks (a [u8]). *)
Definition process_list_into (names : list (list ascii)) (read : Z → option Exec)
    (slots low_ticks : nat) : list Exec * nat * nat :=
  let '(slots, filled) := foldl (fill_slot read) (slots, []) (omap parse_proc_pid names) in
  if decide (length filled * 2 < slots) then
    let low_ticks := Nat.min 255 (S low_ticks) in
    if decide (SLOT_LOW_TICKS ≤ low_ticks) then (filled, length filled, 0)
    else (filled, slots, low_ticks)
  else (filled, slots, 0).

Inductive ScanError := ListFailed | ScanInProgress.

Section MatchProcess.
Context `{AhoCorasick, Regex, CaseTables, HashOrder}.
Variable platform : Platform.

(** The parts of [ProcessServer] a classification reads. *)
Record ScanServer := {
  ss_exclusions : Exclusions;
  ss_steam_dirs : gmap string string
}.

(** The tail of [match_process] once no native probe named the process:
    [refused] from those probes, [joined] the reconstructed path. *)
Definition match_missed (mc : Machine) (srv : ScanServer) (b : DetectablesBundle)
    (process : Exec) (process_path : string) (joined : option string) (refused : bool)
    (app_id : option string) : option ScannedHit :=
  let lowered := to_ascii_lowercase process_path in
  let pid := exec_pid process in
  let app_id := or_else app_id (app_id_from_args (exec_arguments process)) in
  let lookup id source :=
    {| sl_app_id := id; sl_process_path := lowered; sl_source := source;
       sl_steam_map := b_steam_map b; sl_entries := b_list b; sl_custom := b_custom b |} in
  let by_name := match_name_or_folder platform mc lowered pid (b_name_map b)
                   (b_name_map_nodot b) (b_list b) in
  match match_steam_id platform mc pid (lookup app_id SteamAppId) with
  | Some hit => Some hit
  | None =>
      let non_steam := opt_any is_shortcut_id app_id in
      match (if refused then None else if non_steam then by_name else None) with
      | Some hit => Some hit
      | None =>
          let proton := probe_variants (default process_path joined) b true in
          match take_hit proton with
          | Some (obj, exe_index) =>
              finish_direct_hit platform mc obj exe_index process ProtonAutomaton
          | None =>
              if refused || outcome_refused proton then None
              else
                match (match match_prefix (ss_steam_dirs srv) lowered with
                       | Some library_appid =>
                           match_steam_id platform mc pid (lookup (Some library_appid) SteamLibrary)
                       | None => None
                       end) with
                | Some hit => Some hit
                | None => if non_steam then None else by_name
                end
          end
      end
  end.

(** [ProcessServer::match_process]: the hit, the OBS flag and the memo
    cache afterwards. *)
Definition match_process (mc : Machine) (srv : ScanServer) (b : DetectablesBundle)
    (process : Exec) (obs_open : bool) (cache : memo_map) : option ScannedHit * bool * memo_map :=
  let process_path := slashed (exec_path process) in
  let basename := folded_basename process_path in
  if is_excluded (ss_exclusions srv) basename then (None, obs_open, cache)
  else if is_steam_sidecar basename then (None, obs_open, cache)
  else
    let obs_open := obs_open || str_contains "obs64" process_path
                    || str_contains "streamlabs" process_path in
    let found := probe_variants process_path b false in
    match take_hit found with
    | Some (obj, exe_index) =>
        (finish_direct_hit platform mc obj exe_index process Automaton, obs_open, cache)
    | None =>
        let candidate :=
          bare_exe process_path ≫= λ exe,
            (λ cwd, cwd +:+ "/" +:+ exe) <$> read_cwd platform mc (exec_pid process) in
        let rejoined := (λ c, probe_variants c b false) <$> candidate in
        match rejoined ≫= take_hit with
        | Some (obj, exe_index) =>
            (finish_direct_hit platform mc obj exe_index process CwdJoined, obs_open, cache)
        | None =>
            let refused := outcome_refused found || opt_any outcome_refused rejoined in
            let '(app_id, cache) :=
              cached_app_id cache (exec_pid process)
                (on_linux platform (mc_environ mc (exec_pid process)) None) in
            (match_missed mc srv b process process_path candidate refused app_id, obs_open, cache)
        end
    end.

(** The classification half of [scan_for_processes]: sweep the memos, then
    every process in turn. *)
Fixpoint classify_all (mc : Machine) (srv : ScanServer) (b : DetectablesBundle)
    (processes : list Exec) (obs_open : bool) (cache : memo_map)
    : list ScannedHit * bool * memo_map :=
  match processes with
  | [] => ([], obs_open, cache)
  | process :: processes =>
      let '(hit, obs_open, cache) := match_process mc srv b process obs_open cache in
      let '(hits, obs_open, cache) := classify_all mc srv b processes obs_open cache in
      (option_list hit ++ hits, obs_open, cache)
  end.

(** [scan_for_processes] on the enumerated table ([None]: the listing
    failed) and the libraries as refreshed for this tick.  The result
    carries the OBS flag of the callback. *)
Definition scan_for_processes (mc : Machine) (srv : ScanServer) (b : DetectablesBundle)
    (scanning : bool) (processes : option (list Exec)) (cache : memo_map)
    : (list ScannedHit * bool + ScanError) * memo_map :=
  match processes with
  | None => (inr ListFailed, cache)
  | Some processes =>
      if scanning then (inr ScanInProgress, cache)
      else
        let cache := sweep_dead_appids cache processes in
        let '(hits, obs_open, cache) := classify_all mc srv b processes false cache in
        (inl (hits, obs_open), cache)
  end.
End MatchProcess.
