(* ===== verification/ScanProps.v ===== *)
(** * What the classification guarantees

    Probes are complete: an executable the database declares is found when
    it names the path.  Probes are sound: a corroborated hit names the path
    it was probed with. *)

From stdpp Require Import base gmap strings list list_numbers sets.
From Stdlib Require Import Ascii.
From S2P Require Import Prelude RStr Text HashMaps Ids ScanNames SortedIndex Bundle BundleProps Vdf Steam AppIdMemo Exclusions Scan.

Local Open Scope string_scope.
Local Open Scope nat_scope.
Local Open Scope list_scope.

(** ** Reversed characters *)

Definition starts_new (l : list ascii) : Prop :=
  match l with a :: _ => is_cont a = false | [] => True end.

Lemma utf8_chars_head l :
  match utf8_chars l with
  | (b :: _) :: _ => head l = Some b
  | [] :: _ => False
  | [] => l = []
  end.
Proof.
  induction l as [|a l IH]; simpl; [done|].
  destruct (utf8_chars l) as [|[|b g] gs]; [done|done|]. by destruct (is_cont b).
Qed.

Lemma utf8_chars_app a b :
  starts_new b → utf8_chars (a ++ b) = utf8_chars a ++ utf8_chars b.
Proof.
  intros Hb. induction a as [|x a IH]; [done|]. simpl. rewrite IH.
  pose proof (utf8_chars_head a) as Ha. destruct (utf8_chars a) as [|[|y g] gs]; [|done|].
  - subst a. simpl. pose proof (utf8_chars_head b) as Hh.
    destruct (utf8_chars b) as [|[|y g] gs]; [done|done|].
    destruct b as [|z b]; [done|]. injection Hh as ->. simpl in Hb. by rewrite Hb.
  - simpl. by destruct (is_cont y).
Qed.

Lemma rev_chars_app a b : starts_new b → rev_chars (a ++ b) = rev_chars b ++ rev_chars a.
Proof.
  intros Hb. unfold rev_chars. by rewrite utf8_chars_app, rev_app_distr, concat_app by done.
Qed.

Lemma is_cont_lower c : is_cont (to_ascii_lower c) = is_cont c.
Proof. destruct c as [[] [] [] [] [] [] [] []]; reflexivity. Qed.

Lemma utf8_chars_fold l : utf8_chars (fold_path l) = fold_path <$> utf8_chars l.
Proof.
  induction l as [|a l IH]; [done|]. simpl. rewrite IH.
  destruct (utf8_chars l) as [|[|b g] gs]; [done|done|]. simpl.
  rewrite is_cont_lower. by destruct (is_cont b).
Qed.

Lemma rev_chars_fold l : rev_chars (fold_path l) = fold_path (rev_chars l).
Proof.
  unfold rev_chars. rewrite utf8_chars_fold. unfold fold_path.
  by rewrite concat_map, map_rev.
Qed.

(** ** Declared names as patterns spell them *)

(** A declared name with folded separators and a leading slash. *)
Definition name_text (name : string) : list ascii :=
  match map (λ c, if Ascii.eqb c BACKSLASH then SLASH else c) (chars name) with
  | c :: rest => if Ascii.eqb c ">"%char then SLASH :: rest
                 else if Ascii.eqb c SLASH then c :: rest else SLASH :: c :: rest
  | [] => [SLASH]
  end.

Lemma normalize_exe_pattern_text name :
  normalize_exe_pattern name = of_chars (rev_chars (name_text name)).
Proof. done. Qed.

Lemma name_text_slash name : ∃ rest, name_text name = SLASH :: rest.
Proof.
  unfold name_text. destruct (map _ _) as [|c rest]; [by eexists|].
  destruct (Ascii.eqb c ">"); [by eexists|].
  destruct (Ascii.eqb_spec c SLASH) as [->|]; by eexists.
Qed.

(** The declared name without its launcher marker. *)
Definition bare_name (name : string) : list ascii := chars (default name (strip_prefix ">" name)).

Definition seps_folded (l : list ascii) : list ascii :=
  map (λ c, if Ascii.eqb c BACKSLASH then SLASH else c) l.

Lemma fold_name_seps l : fold_name l = fold_path (seps_folded l).
Proof. unfold fold_name, fold_path, seps_folded. by rewrite map_map. Qed.

Lemma bare_name_cases name :
  match chars name with
  | c :: rest => bare_name name = if Ascii.eqb c ">"%char then rest else c :: rest
  | [] => bare_name name = []
  end.
Proof.
  unfold bare_name, strip_prefix. change (chars ">") with [">"%char].
  destruct (chars name) as [|c rest] eqn:E; cbn [strip_prefix_l]; [done|].
  rewrite (Ascii.eqb_sym ">" c).
  destruct (Ascii.eqb c ">"); [apply chars_of_chars|exact E].
Qed.

(** A name whose marker does not stand in front of a separator. *)
Definition plain (name : string) : bool :=
  match chars name with
  | c :: d :: _ => negb (Ascii.eqb c ">" && (Ascii.eqb d SLASH || Ascii.eqb d BACKSLASH))
  | _ => true
  end.

Lemma sep_slash c : (if Ascii.eqb c BACKSLASH then SLASH else c) = SLASH ↔
  (Ascii.eqb c SLASH || Ascii.eqb c BACKSLASH) = true.
Proof.
  destruct (Ascii.eqb_spec c BACKSLASH) as [->|]; [done|]. rewrite orb_false_r.
  destruct (Ascii.eqb_spec c SLASH); naive_solver.
Qed.

(** The pattern text is the bare name, with a slash in front of a plain
    name that has none of its own. *)
Lemma name_text_bare name :
  name_text name = SLASH :: seps_folded (bare_name name) ∨
  name_text name = seps_folded (bare_name name) ∧ own_boundary (bare_name name) = true.
Proof.
  pose proof (bare_name_cases name) as Hb. unfold name_text.
  destruct (chars name) as [|c rest]; simpl; rewrite Hb; [by left|].
  destruct (Ascii.eqb_spec c ">") as [->|Hgt]; [by left|].
  destruct (Ascii.eqb_spec c BACKSLASH) as [->|Hbs]; [right; by split|].
  destruct (Ascii.eqb_spec c ">"); [done|]. unfold seps_folded. simpl.
  destruct (Ascii.eqb_spec c SLASH) as [->|]; [right; by split|left].
  by destruct (Ascii.eqb_spec c BACKSLASH).
Qed.

Lemma name_text_plain name :
  plain name = true → bare_name name ≠ [] →
  name_text name = if own_boundary (bare_name name) then seps_folded (bare_name name)
                   else SLASH :: seps_folded (bare_name name).
Proof.
  pose proof (bare_name_cases name) as Hb. unfold name_text, plain, own_boundary.
  destruct (chars name) as [|c rest]; rewrite Hb; [done|]. simpl.
  destruct (Ascii.eqb_spec c ">") as [->|Hgt]; simpl.
  - intros Hp Hne. destruct rest as [|d rest]; [done|]. simpl in Hp.
    apply negb_true_iff in Hp. by rewrite Hp.
  - intros _ _. destruct (Ascii.eqb_spec c BACKSLASH) as [->|Hbs]; simpl; [done|].
    destruct (Ascii.eqb_spec c ">"); [done|].
    destruct (Ascii.eqb_spec c SLASH) as [->|]; simpl; [done|].
    by destruct (Ascii.eqb_spec c BACKSLASH).
Qed.

(** What the text of a pattern says of a path. *)
Definition names_text (path text : list ascii) : Prop :=
  ∃ x y, fold_path path = x ++ fold_path text ++ y ∧
    (y = [] ∨ (∃ post, y = chars "/contents/" ++ post) ∧
              ∃ stem ext, fold_path text = stem ++ ext ∧ ext = chars ".app" ∧ 5 ≤ length text).

Lemma lower_slash c : to_ascii_lower c = SLASH → c = SLASH.
Proof. destruct c as [[] [] [] [] [] [] [] []]; by intros [=]. Qed.

Lemma fold_ext e : fold_name e = chars ".app" ↔ fold_path e = chars ".app".
Proof.
  assert (∀ l, SLASH ∉ l → BACKSLASH ∉ l → ∀ e, fold_name e = l ↔ fold_path e = l) as Hgen.
  { clear e. induction l as [|a l IH]; intros Hs Hb [|c e]; simpl; [done..|].
    rewrite not_elem_of_cons in Hs, Hb. destruct Hs as [Hs1 Hs2], Hb as [Hb1 Hb2].
    destruct (Ascii.eqb_spec c BACKSLASH) as [->|].
    - split; intros [= E _]; [by destruct Hs1|by destruct Hb1].
    - specialize (IH Hs2 Hb2 e). split; intros [= E1 E2]; f_equal; [done|by apply IH|done|by apply IH]. }
  apply Hgen; apply (bool_decide_unpack _); vm_compute; exact I.
Qed.

Lemma seps_folded_length l : length (seps_folded l) = length l.
Proof. unfold seps_folded. by rewrite length_map. Qed.

Lemma fold_path_app a b : fold_path (a ++ b) = fold_path a ++ fold_path b.
Proof. apply map_app. Qed.

(** The text of a plain name, where the name stands at a component. *)
Lemma component_text name pre mid :
  plain name = true → bare_name name ≠ [] → head (pre ++ mid) = Some SLASH →
  fold_path mid = fold_name (bare_name name) → component_start pre (bare_name name) →
  ∃ x, fold_path (pre ++ mid) = x ++ fold_path (name_text name).
Proof.
  intros Hp Hne Hh Hf Hc. rewrite name_text_plain by done. rewrite fold_name_seps in Hf.
  destruct (own_boundary (bare_name name)) eqn:Hob.
  { exists (fold_path pre). by rewrite fold_path_app, Hf. }
  destruct Hc as [->|[Hl|Hc]]; [|apply last_Some in Hl as [pre' ->]|congruence].
  - exfalso. destruct mid as [|m mid]; [done|]. injection Hh as ->.
    destruct (bare_name name) as [|c n] eqn:E; [done|]. injection Hf as Hf _.
    symmetry in Hf. change (to_ascii_lower SLASH) with SLASH in Hf.
    apply lower_slash, sep_slash in Hf. unfold own_boundary in Hob. congruence.
  - exists (fold_path pre'). rewrite !fold_path_app, Hf, <-app_assoc. done.
Qed.

Lemma names_text_of path name :
  plain name = true → head (chars path) = Some SLASH → exe_names_path path name = true →
  names_text (chars path) (name_text name).
Proof.
  intros Hp Hh [Hne Hn]%exe_names_path_iff. fold (bare_name name) in Hne, Hn.
  destruct Hn as [(pre & tail & E & Hf & Hc)|
    (pre & mid & interior & post & E & Hf & Hc & Hi & stem & ext & En & Hext)].
  - rewrite E in Hh |- *. destruct (component_text name pre tail) as [x Hx]; [done..|].
    exists x, []. rewrite app_nil_r. split; [done|by left].
  - rewrite E, app_assoc in Hh |- *.
    assert (head (pre ++ mid) = Some SLASH) as Hh'.
    { destruct (pre ++ mid) as [|a l] eqn:Epm; [|done]. exfalso.
      apply app_nil in Epm as [_ ->]. destruct (bare_name name); [done|].
      apply fold_lengths in Hf. done. }
    destruct (component_text name pre mid) as [x Hx]; [done..|].
    exists x, (fold_path interior ++ fold_path post).
    rewrite fold_path_app, Hx, fold_path_app, <-app_assoc. split; [done|]. right.
    split; [exists (fold_path post); by rewrite Hi|].
    assert (fold_path (seps_folded (bare_name name)) = fold_name stem ++ chars ".app") as Hs.
    { rewrite <-fold_name_seps, En. unfold fold_name. rewrite map_app. f_equal.
      by apply fold_ext. }
    assert (length (bare_name name) = length stem + 4) as Hl.
    { rewrite En, length_app. f_equal. by apply fold_path_length in Hext. }
    rewrite name_text_plain by done. destruct (own_boundary (bare_name name)) eqn:Hob.
    + exists (fold_name stem), (chars ".app"). split_and!; [done..|].
      rewrite seps_folded_length. destruct stem as [|c stem]; [|simpl in Hl; lia].
      exfalso. rewrite En in Hob. destruct ext as [|c ext]; [done|].
      injection Hext as Hext _. unfold own_boundary in Hob. simpl in Hob.
      apply orb_true_iff in Hob as [Hc'|Hc']; apply Ascii.eqb_eq in Hc'; by subst c.
    + exists (SLASH :: fold_name stem), (chars ".app").
      split_and!; [simpl; by rewrite Hs|done|]. simpl. rewrite seps_folded_length. lia.
Qed.

Lemma fold_path_app_inv l x y :
  fold_path l = x ++ y → ∃ a b, l = a ++ b ∧ fold_path a = x ∧ fold_path b = y.
Proof.
  intros E. unfold fold_path in E. apply map_eq_app in E as (a & b & -> & <- & <-).
  by exists a, b.
Qed.

(** The text standing in a path puts the bare name at a component. *)
Lemma text_component name px pt :
  fold_path pt = fold_path (name_text name) →
  ∃ pre mid, px ++ pt = pre ++ mid ∧ fold_path mid = fold_name (bare_name name) ∧
    component_start pre (bare_name name).
Proof.
  intros Hf. rewrite fold_name_seps. destruct (name_text_bare name) as [E|[E Hob]]; rewrite E in Hf.
  - destruct pt as [|c pt]; [done|]. injection Hf as Hc Hf.
    apply lower_slash in Hc as ->. exists (px ++ [SLASH]), pt.
    rewrite <-app_assoc. split_and!; [done..|]. right. left. by rewrite last_snoc.
  - exists px, pt. split_and!; [done..|]. by right; right.
Qed.

Lemma names_of_text path name :
  bare_name name ≠ [] → names_text (chars path) (name_text name) →
  exe_names_path path name = true.
Proof.
  intros Hne (x & y & E & Hy). apply exe_names_path_iff. split; [done|].
  apply fold_path_app_inv in E as (px & rest & -> & _ & E).
  apply fold_path_app_inv in E as (pt & py & -> & Ht & Hpy).
  destruct (text_component name px pt Ht) as (pre & mid & E & Hf & Hc).
  rewrite app_assoc, E. destruct Hy as [->|[[post ->] (stem & ext & Hs & -> & Hl)]].
  - left. exists pre, mid. apply fold_path_length in Hpy. destruct py; [|done].
    by rewrite app_nil_r.
  - right. apply fold_path_app_inv in Hpy as (interior & post' & -> & Hi & _).
    exists pre, mid, interior, post'. rewrite <-app_assoc. split_and!; [done..|].
    fold (bare_name name).
    assert (∃ stem', fold_path (seps_folded (bare_name name)) = stem' ++ chars ".app") as [stem' Hs'].
    { destruct (name_text_bare name) as [E'|[E' _]]; rewrite E' in Hs; [|by eexists].
      destruct stem as [|c stem]; [|injection Hs as _ Hs; by eexists].
      apply (f_equal length) in Hs. unfold fold_path in Hs.
      rewrite E' in Hl. rewrite length_map in Hs. simpl in Hs, Hl. lia. }
    rewrite <-fold_name_seps in Hs'. unfold fold_name in Hs'.
    apply map_eq_app in Hs' as (s1 & e1 & -> & _ & He). exists s1, e1. split; [done|].
    by apply fold_ext.
Qed.

(** ** Probes *)

Lemma rev_chars_inj a b : starts_new a → starts_new b → rev_chars a = rev_chars b → a = b.
Proof.
  intros Ha Hb E. unfold rev_chars in E. apply (f_equal utf8_chars) in E.
  rewrite !utf8_chars_concat in E
    by (apply Forall_rev; by apply utf8_chars_ok).
  apply (f_equal (@rev (list ascii))) in E. rewrite !rev_involutive in E.
  apply (f_equal (@concat ascii)) in E. by rewrite !concat_utf8_chars in E.
Qed.

Lemma name_text_new name : starts_new (name_text name).
Proof. by destruct (name_text_slash name) as [rest ->]. Qed.

Lemma pattern_text n1 n2 :
  normalize_exe_pattern n1 = normalize_exe_pattern n2 → name_text n1 = name_text n2.
Proof.
  rewrite !normalize_exe_pattern_text. intros E%of_chars_inj.
  by apply rev_chars_inj in E; [|apply name_text_new..].
Qed.

Lemma usable_bare x : usable x = true → bare_name (exe_name x) ≠ [] ∧ exe_is_launcher x = false.
Proof.
  unfold usable. intros [Hl%negb_true_iff Hu]%andb_true_iff. split; [|done]. intros E.
  apply negb_true_iff in Hu. destruct (name_text_bare (exe_name x)) as [Ht|[_ Hob]];
    [|by rewrite E in Hob].
  rewrite E in Ht. rewrite normalize_exe_pattern_text, Ht in Hu. done.
Qed.

(** A path that contains the text of a pattern contains the pattern once
    both are reversed. *)
Lemma reversed_occurs path name :
  names_text (chars path) (name_text name) →
  ∃ x y, fold_path (chars (str_rev path)) =
    x ++ fold_path (chars (normalize_exe_pattern name)) ++ y.
Proof.
  intros (x & y & E & Hy). unfold str_rev. rewrite normalize_exe_pattern_text, !chars_of_chars.
  rewrite <-!rev_chars_fold, E.
  assert (starts_new (fold_path (name_text name))) as Ht.
  { by destruct (name_text_slash name) as [rest ->]. }
  assert (starts_new y) as Hy' by (destruct Hy as [->|[[post ->] _]]; done).
  assert (starts_new (fold_path (name_text name) ++ y)) as Hty.
  { destruct (name_text_slash name) as [rest ->]. done. }
  rewrite (rev_chars_app x), (rev_chars_app _ y) by done.
  exists (rev_chars y), (rev_chars x). by rewrite app_assoc.
Qed.

Lemma resolve_hits_elem idx entries hits e j :
  (e, j) ∈ resolve_hits idx entries hits ↔
  ∃ i p, i ∈ hits ∧ idx !! i = Some p ∧ (resolve p).2 = j ∧ entries !! (resolve p).1 = Some e.
Proof.
  unfold resolve_hits. rewrite list_elem_of_omap. split.
  - intros (i & Hi & H). destruct (idx !! i) as [p|] eqn:Ep; [|done]. simpl in H.
    destruct (entries !! Z.to_nat p.1) as [e'|] eqn:Ee; [|done]. simplify_eq/=. by exists i, p.
  - intros (i & p & Hi & Hp & <- & He). exists i. split; [done|]. rewrite Hp. simpl in *.
    by rewrite He.
Qed.

Lemma first_hit_sound probe variant any e j :
  first_hit_loop probe variant any = Corroborated e j →
  (e, j) ∈ probe ∧ ∃ x, se_executables e !! j = Some x ∧ exe_names_path variant (exe_name x) = true.
Proof.
  revert any. induction probe as [|[e' j'] probe IH]; intros any; simpl; [by destruct any|].
  destruct (se_executables e' !! j') as [x|] eqn:Ex.
  - destruct (exe_names_path variant (exe_name x)) eqn:En.
    + intros [= <- <-]. split; [by left|]. by exists x.
    + intros [Hin ?]%IH. split; [by right|done].
  - intros [Hin ?]%IH. split; [by right|done].
Qed.

Lemma first_hit_complete probe variant any e j x :
  (e, j) ∈ probe → se_executables e !! j = Some x → exe_names_path variant (exe_name x) = true →
  ∃ e' j', first_hit_loop probe variant any = Corroborated e' j'.
Proof.
  intros Hin Hx Hn. revert any. induction probe as [|[e2 j2] probe IH]; intros any; simpl;
    [by apply not_elem_of_nil in Hin|].
  apply elem_of_cons in Hin as [[= <- <-]|Hin]; [rewrite Hx, Hn; by eexists _, _|].
  destruct (se_executables e2 !! j2) as [y|]; [|by apply IH].
  destruct (exe_names_path variant (exe_name y)); [by eexists _, _|by apply IH].
Qed.

Section Complete.
Context `{AhoCorasickOk}.

(** One table: what is declared and names the path is corroborated. *)
Lemma table_complete f l ps idx ac path e x :
  table_ok f l ps idx → ac_build ps = Some ac → (∀ y, f y = true → usable y = true) →
  e ∈ l → x ∈ se_executables e → f x = true → plain (exe_name x) = true →
  head (chars path) = Some SLASH → exe_names_path path (exe_name x) = true →
  ∃ e' j, first_hit_naming_path (resolve_hits idx l (search (Some ac) (str_rev path))) path
          = Corroborated e' j.
Proof.
  intros [Hdown Hup] Hac Hu He Hx Hf Hp Hh Hn.
  pose proof (names_text_of _ _ Hp Hh Hn) as Ht.
  destruct (list_elem_of_lookup_1 _ _ (Hup e x He Hx Hf)) as [i Hi].
  destruct (Hdown i _ Hi) as (p & e' & x' & Hidx & He' & Hx' & Hf' & Epat).
  apply (first_hit_complete _ _ _ e' (resolve p).2 x'); [|done|].
  - apply resolve_hits_elem. exists i, p. split_and!; [|done..]. simpl.
    apply (ac_reports ps ac); [done|]. destruct (reversed_occurs _ _ Ht) as (a & b & Hab).
    by exists (normalize_exe_pattern (exe_name x)), a, b.
  - apply names_of_text; [by apply usable_bare, Hu|]. by rewrite <-(pattern_text _ _ Epat).
Qed.

(** Every hit of a table is an executable the table admits. *)
Lemma table_admits f l ps idx ac hay e j :
  table_ok f l ps idx → ac_build ps = Some ac →
  (e, j) ∈ resolve_hits idx l (search (Some ac) hay) →
  ∃ x, se_executables e !! j = Some x ∧ f x = true.
Proof.
  intros [Hdown _] Hac (i & p & Hi & Hp & <- & He)%resolve_hits_elem.
  apply (ac_reports ps ac) in Hi as (pat & _ & _ & Hpat & _); [|done].
  destruct (Hdown i pat Hpat) as (p' & e' & x & Hp' & He' & Hx & Hf & _).
  simplify_eq. by exists x.
Qed.
End Complete.

Lemma slashed_head path : head (chars (slashed path)) = Some SLASH.
Proof.
  unfold slashed. cbv zeta. destruct (starts_with "/" _) eqn:E; [|done].
  apply starts_with_spec in E as [r Hr]. by rewrite Hr.
Qed.

Lemma variants_path path : ∃ vs, path_variants_into path = path :: vs.
Proof.
  unfold path_variants_into. change MARKERS with ["64"; ".x64"; "x64"; "_64"]. cbn [foldl].
  assert (∀ out m, (∃ vs, out = path :: vs) → ∃ vs, push_variant path out m = path :: vs) as Hp.
  { intros out m [vs ->]. unfold push_variant. destruct (_ || _); [by eexists|].
    cbv zeta. destruct (_ && _); by eexists. }
  do 4 apply Hp. by eexists.
Qed.

Section Match.
Context `{AhoCorasick, Regex, CaseTables, HashOrder}.
Variable platform : Platform.

(** The first outcome of a walk that is a hit is its result. *)
Lemma walk_first b proton walk refused pass v e j :
  probe_one b proton pass v = Corroborated e j →
  probe_walk b proton ((pass, v) :: walk) refused = Corroborated e j.
Proof. intros E. simpl. by rewrite E. Qed.

Lemma walk_sound b proton walk refused e j :
  probe_walk b proton walk refused = Corroborated e j →
  ∃ pass v, (pass, v) ∈ walk ∧ probe_one b proton pass v = Corroborated e j.
Proof.
  revert refused. induction walk as [|[pass v] walk IH]; intros refused; simpl; [by destruct refused|].
  destruct (probe_one b proton pass v) as [e' j'| |] eqn:E; simpl.
  - intros [= <- <-]. exists pass, v. split; [by left|done].
  - intros (p & w & Hin & ?)%IH. exists p, w. split; [by right|done].
  - intros (p & w & Hin & ?)%IH. exists p, w. split; [by right|done].
Qed.

(** The executable of a corroborated outcome names a variant of the path. *)
Definition names_variant (path : string) (e : ScannedEntry) (j : nat) : Prop :=
  ∃ v x, v ∈ path_variants_into path ∧ se_executables e !! j = Some x ∧
    exe_names_path v (exe_name x) = true.

Lemma resolve_hits_in idx entries hits e j : (e, j) ∈ resolve_hits idx entries hits → e ∈ entries.
Proof. intros (i & p & _ & _ & _ & He)%resolve_hits_elem. by eapply list_elem_of_lookup_2. Qed.

Lemma probe_variants_sound path b proton e j :
  probe_variants path b proton = Corroborated e j →
  (e ∈ b_list b ∨ proton = false ∧ e ∈ b_custom b) ∧ names_variant path e j.
Proof.
  unfold probe_variants. intros (pass & v & Hin & Hone)%walk_sound.
  apply list_elem_of_bind in Hin as (q & Hin & _).
  apply list_elem_of_fmap in Hin as (w & [= -> ->] & Hv).
  unfold probe_one in Hone. apply first_hit_sound in Hone as [Hp (x & Hx & Hn)].
  split; [|by exists w, x]. destruct proton; [left; by eapply resolve_hits_in|].
  case_decide; [left|right; split; [done|]]; by eapply resolve_hits_in.
Qed.
End Match.
