(* ===== verification/ScanSound.v ===== *)
(** * Every hit carries the evidence its source claims

    Hits of [match_process] by source: declared executables, store ids,
    install directories, names; and what refuses a process. *)

From stdpp Require Import base gmap strings list list_numbers sets.
From Stdlib Require Import Ascii.
From S2P Require Import Prelude RStr Text HashMaps Ids ScanNames SortedIndex Bundle BundleProps Steam AppIdMemo Exclusions Scan ScanProps.

Local Open Scope string_scope.
Local Open Scope nat_scope.
Local Open Scope list_scope.

(** ** What the lookup tables lead to *)

Lemma index_get_empty key : index_get {| si_entries := [] |} key = None.
Proof. done. Qed.

(** An entry carries the normalized name: its own or an alias. *)
Definition carries_name (e : ScannedEntry) (name : string) : Prop :=
  ∃ n, n ∈ se_name e :: se_aliases e ∧ name = normalize_name n.

(** The tables of [b] lead from a key to an entry that carries it. *)
Record tables_ok `{AhoCorasick} (b : DetectablesBundle) : Prop := {
  steam_ok : ∀ id i e, index_get (b_steam_map b) id = Some i → b_list b !! i = Some e →
    id ∈ se_steam_ids e;
  names_ok : ∀ name i e, index_get (b_name_map b) name = Some i → b_list b !! i = Some e →
    carries_name e name;
  nodot_ok : ∀ name i e, index_get (b_name_map_nodot b) name = Some i → b_list b !! i = Some e →
    ∃ full, carries_name e full ∧ name = dedot full
}.

Lemma enumerate_bind {A B} (l : list A) (f : nat * A → list B) y :
  y ∈ enumerate l ≫= f ↔ ∃ i a, l !! i = Some a ∧ y ∈ f (i, a).
Proof.
  rewrite list_elem_of_bind. split.
  - intros ([i a] & Hy & Hi%enumerate_lookup). by exists i, a.
  - intros (i & a & Hi & Hy). exists (i, a). split; [done|]. by apply enumerate_lookup.
Qed.

Lemma built_index key l i : index_get (index_build l) key = Some i → (key, i) ∈ l.
Proof.
  rewrite index_get_build. intros [j Hj]%first_of_elem. by eapply list_elem_of_lookup_2.
Qed.

Lemma collect_names_elem l name i :
  (name, i) ∈ collect_names l → ∀ e, l !! i = Some e → carries_name e name.
Proof.
  unfold collect_names. intros (k & a & Hk & Hin)%enumerate_bind e He.
  apply list_elem_of_filter in Hin as [_ Hin].
  apply list_elem_of_fmap in Hin as (n & [= -> ->] & Hn). simpl in *. simplify_eq. by exists n.
Qed.

Lemma insert_by_index_elem x y l : y ∈ insert_by_index x l ↔ y = x ∨ y ∈ l.
Proof.
  induction l as [|z l IH]; simpl; [set_solver|]. case_decide; rewrite !elem_of_cons, ?IH; naive_solver.
Qed.

Lemma sorted_dotted_elem y (l : list (nat * string)) : y ∈ foldr insert_by_index [] l ↔ y ∈ l.
Proof.
  induction l as [|x l IH]; simpl; [done|]. by rewrite insert_by_index_elem, elem_of_cons, IH.
Qed.

Lemma index_build_sub l x : x ∈ si_entries (index_build l) → index_get (index_build l) x.1 = Some x.2.
Proof.
  intros Hin. unfold index_build in *. destruct (dedup_by_key_spec (sort_by_key l)) as [Hs _].
  { apply sort_by_key_sorted. }
  simpl in Hin. rewrite index_get_first by done. revert Hs Hin.
  generalize (dedup_by_key (sort_by_key l)). intros k Hs Hin.
  destruct x as [key v]. unfold first_of. simpl.
  induction Hs as [|[k0 v0] k Hs IH Hall]; [by apply not_elem_of_nil in Hin|]. simpl.
  apply elem_of_cons in Hin as [[= -> ->]|Hin]; [by rewrite String.eqb_refl|].
  destruct (String.eqb_spec k0 key) as [->|]; [|by apply IH].
  rewrite Forall_forall in Hall. by destruct (Hall _ Hin).
Qed.

Lemma build_tables `{AhoCorasick} platform l c b :
  build_bundle platform l c = Some b → tables_ok b.
Proof.
  intros Hb. destruct (build_bundle_lists platform l c b Hb) as [Hl _].
  assert (b_steam_map b = (build_aux_maps l).1 ∧ b_name_map b = (build_aux_maps l).2 ∧
    b_name_map_nodot b = undotted_names (build_aux_maps l).2) as (Es & En & Ed).
  { clear Hl. unfold build_bundle in Hb. destruct (build_aux_maps l).
    by repeat case_match; simplify_eq/=. }
  rewrite <-Hl in *. split.
  - intros id i e Hi He. rewrite Es in Hi. apply built_index in Hi.
    apply enumerate_bind in Hi as (k & a & Hk & Hin).
    apply list_elem_of_filter in Hin as [_ Hin].
    apply list_elem_of_fmap in Hin as (sid & [= -> ->] & Hs). simpl in *. by simplify_eq.
  - intros name i e Hi He. rewrite En in Hi. apply built_index in Hi.
    by eapply collect_names_elem.
  - intros name i e Hi He. rewrite Ed in Hi. unfold undotted_names in Hi.
    apply built_index, list_elem_of_fmap in Hi as ([j full] & [= -> ->] & Hin).
    apply sorted_dotted_elem, list_elem_of_fmap in Hin as ([k v] & [= -> ->] & Hin).
    apply list_elem_of_filter in Hin as [_ Hin]. apply index_build_sub, built_index in Hin.
    simpl in *. exists k. split; [|done]. by eapply collect_names_elem.
Qed.

Lemma ok_tables `{AhoCorasick} platform b : bundle_ok platform b → tables_ok b.
Proof.
  intros [->|Hb]; [|by eapply build_tables]. by split; intros ? ? ?; rewrite index_get_empty.
Qed.

(** ** Evidence *)

Section Evidence.
Context `{AhoCorasick, Regex, CaseTables, HashOrder}.
Variable platform : Platform.
Variable mc : Machine.
Variable srv : ScanServer.
Variable b : DetectablesBundle.
Variable process : Exec.

Abbreviation path := (slashed (exec_path process)).
Abbreviation lowered := (to_ascii_lowercase (slashed (exec_path process))).

(** Executable [j] of [e] names a variant of [p] and its arguments, where
    the database declares any, stand in the command line. *)
Definition declared (p : string) (e : ScannedEntry) : Prop :=
  ∃ j x, names_variant p e j ∧ se_executables e !! j = Some x ∧
    ∀ a, exe_arguments x = Some a →
      ∃ args, exec_arguments process = Some args ∧ str_contains a args = true.

(** The path the working directory reconstructs. *)
Definition rejoined (p : string) : Prop :=
  ∃ exe cwd, bare_exe path = Some exe ∧ read_cwd platform mc (exec_pid process) = Some cwd ∧
    p = cwd +:+ "/" +:+ exe.

(** A store id of [e], whose executables name the process. *)
Definition store_id (id : string) (e : ScannedEntry) : Prop :=
  (e ∈ b_list b ∨ e ∈ b_custom b) ∧ id ∈ se_steam_ids e ∧
  argv_names_an_executable lowered e = true.

Definition native_refused : Prop :=
  probe_variants path b false = Refused ∨
  ∃ p, rejoined p ∧ probe_variants p b false = Refused.

(** What a hit of each source rests on; [app_id] is the launcher's id. *)
Inductive evidence (app_id : option string) : DetectSource → ScannedEntry → Prop :=
  | by_automaton e :
      (e ∈ b_list b ∨ e ∈ b_custom b) → declared path e → evidence app_id Automaton e
  | by_cwd e p :
      (e ∈ b_list b ∨ e ∈ b_custom b) → rejoined p → declared p e → evidence app_id CwdJoined e
  | by_proton e p :
      e ∈ b_list b → p = path ∨ rejoined p → declared p e → evidence app_id ProtonAutomaton e
  | by_app_id e id :
      app_id = Some id → store_id id e → evidence app_id SteamAppId e
  | by_library e id :
      ¬ native_refused → match_prefix (ss_steam_dirs srv) lowered = Some id → store_id id e →
      evidence app_id SteamLibrary e
  | by_stem e :
      ¬ native_refused → e ∈ b_list b → name_matchable (exe_stem lowered) = true →
      carries_name e (exe_stem lowered) → evidence app_id ExeStem e
  | by_folder e c full :
      ¬ native_refused → e ∈ b_list b → c ∈ ancestors lowered → carries_name e full →
      full = normalize_lowered_into c ∨ dedot full = normalize_lowered_dedotted_into c →
      evidence app_id Folder e.

(** The observation every hit carries. *)
Definition observed (hit : ScannedHit) : Prop :=
  hit_pid hit = exec_pid process ∧ hit_start hit = mc_now mc ∧
  suspended platform mc (exec_pid process) = false.

Lemma live_observed e source hit :
  live_or_none platform mc e (exec_pid process) source = Some hit →
  observed hit ∧ hit_entry hit = e ∧ hit_source hit = source.
Proof.
  unfold live_or_none, observed. destruct (suspended _ _ _) eqn:E; [done|]. by intros [= <-].
Qed.

Lemma direct_hit_sound e j source hit p :
  names_variant p e j → finish_direct_hit platform mc e j process source = Some hit →
  observed hit ∧ hit_entry hit = e ∧ hit_source hit = source ∧ declared p e.
Proof.
  intros Hn. unfold finish_direct_hit. destruct (se_executables e !! j) as [x|] eqn:Ex; [|done].
  destruct (match exe_arguments x with None => _ | Some _ => _ end) eqn:Ea; [|done].
  intros (Ho & He & Hs)%live_observed. split_and!; [done..|]. exists j, x. split_and!; [done..|].
  intros a Hx. rewrite Hx in Ea. destruct (exec_arguments process); [|done]. by eexists.
Qed.

Lemma steam_id_sound app_id source hit :
  tables_ok b →
  match_steam_id platform mc (exec_pid process)
    {| sl_app_id := app_id; sl_process_path := lowered; sl_source := source;
       sl_steam_map := b_steam_map b; sl_entries := b_list b; sl_custom := b_custom b |} = Some hit →
  observed hit ∧ hit_source hit = source ∧ ∃ id, app_id = Some id ∧ store_id id (hit_entry hit).
Proof.
  intros [Hs _ _]. unfold match_steam_id. simpl. destruct app_id as [id|]; [|done].
  destruct (index_get (b_steam_map b) id) as [i|] eqn:Ei.
  - destruct (b_list b !! i) as [e|] eqn:Ee; [|done].
    destruct (argv_names_an_executable _ e) eqn:Ea; [|done].
    intros (Ho & <- & Hsrc)%live_observed. split_and!; [done..|]. exists id.
    split; [done|]. split; [left; by eapply list_elem_of_lookup_2|]. split; [by eapply Hs|done].
  - match goal with |- match_custom_id _ _ _ _ ?lk _ = _ → _ => set (lookup := lk) end.
    assert (∀ c, c ⊆ b_custom b → match_custom_id platform mc id (exec_pid process) lookup c = Some hit →
      observed hit ∧ hit_source hit = source ∧
      ∃ id', Some id = Some id' ∧ store_id id' (hit_entry hit)) as Hc; [|by apply Hc].
    induction c as [|e c IH]; intros Hsub; simpl; [done|].
    assert (e ∈ b_custom b ∧ c ⊆ b_custom b) as [He Hsub'] by set_solver.
    case_bool_decide as Hid; [|by apply IH].
    destruct (argv_names_an_executable _ e) eqn:Ea; [|by apply IH].
    intros (Ho & <- & Hsrc)%live_observed. split_and!; [done..|]. exists id.
    split; [done|]. split; [by right|done].
Qed.

Lemma name_entry_sound t name e :
  name_entry t (b_list b) name = Some e →
  name_matchable name = true ∧ e ∈ b_list b ∧
  ∃ i, index_get t name = Some i ∧ b_list b !! i = Some e.
Proof.
  unfold name_entry. destruct (name_matchable name); [|done].
  intros (i & Hi & He)%bind_Some. split_and!; [done|by eapply list_elem_of_lookup_2|by exists i].
Qed.

Lemma by_name_sound app_id hit :
  tables_ok b → ¬ native_refused →
  match_name_or_folder platform mc lowered (exec_pid process) (b_name_map b) (b_name_map_nodot b)
    (b_list b) = Some hit →
  observed hit ∧ evidence app_id (hit_source hit) (hit_entry hit).
Proof.
  intros [_ Hnames Hnodot] Hr. unfold match_name_or_folder.
  destruct (name_entry _ _ (exe_stem lowered)) as [e|] eqn:E1.
  { apply name_entry_sound in E1 as (Hm & Hin & i & Hi & He).
    intros (Ho & -> & ->)%live_observed. split; [done|]. apply by_stem; [done..|]. by eapply Hnames. }
  case_match eqn:E2.
  { apply find_map_Some in E2 as (c & Hc & E). destruct (str_contains "." c); [done|].
    apply name_entry_sound in E as (Hm & Hin & i & Hi & He).
    intros (Ho & -> & ->)%live_observed. split; [done|].
    apply (by_folder _ _ c (normalize_lowered_into c)); [done..| |by left]. by eapply Hnames. }
  case_match eqn:E3; [|done].
  apply find_map_Some in E3 as (c & Hc & E). destruct (negb (str_contains "." c)); [done|].
  apply name_entry_sound in E as (Hm & Hin & i & Hi & He).
  intros (Ho & -> & ->)%live_observed. split; [done|].
  destruct (Hnodot _ _ _ Hi He) as (full & Hf & Hd).
  apply (by_folder _ _ c full); [done..|]. by right.
Qed.

Lemma missed_sound candidate refused app_id hit :
  tables_ok b → (∀ p, candidate = Some p → rejoined p) →
  (refused = false → ¬ native_refused) →
  match_missed platform mc srv b process path candidate refused app_id = Some hit →
  observed hit ∧
  evidence (or_else app_id (app_id_from_args (exec_arguments process)))
    (hit_source hit) (hit_entry hit).
Proof.
  intros Ht Hcand Href. unfold match_missed. cbv zeta.
  set (id := or_else app_id (app_id_from_args (exec_arguments process))).
  destruct (match_steam_id _ _ _ _) as [h|] eqn:E1.
  { intros [= <-]. apply steam_id_sound in E1 as (Ho & -> & i & Hi & Hs); [|done].
    split; [done|]. by eapply by_app_id. }
  destruct (if refused then None else _) as [h|] eqn:E2.
  { intros [= <-]. destruct refused; [done|]. destruct (opt_any is_shortcut_id id); [|done].
    by eapply by_name_sound; [|apply Href|]. }
  destruct (take_hit (probe_variants _ b true)) as [[e j]|] eqn:E3.
  { destruct (probe_variants _ b true) as [e' j'| |] eqn:Ep; [|done..]. injection E3 as -> ->.
    apply probe_variants_sound in Ep as [[Hin|[? _]] Hn]; [|done].
    intros (Ho & -> & -> & Hd)%(direct_hit_sound _ _ _ _ _ Hn). split; [done|].
    eapply by_proton; [done| |exact Hd]. destruct candidate; [right; by apply Hcand|by left]. }
  destruct refused; [done|]. simpl. destruct (outcome_refused _); [done|].
  destruct (match match_prefix _ _ with Some _ => _ | None => _ end) as [h|] eqn:E4.
  - intros [= <-]. destruct (match_prefix _ _) as [lib|] eqn:El; [|done].
    apply steam_id_sound in E4 as (Ho & -> & i & [= <-] & Hs); [|done].
    split; [done|]. by apply (by_library _ _ lib); [apply Href|..].
  - destruct (opt_any _ _); [done|]. by apply by_name_sound; [|apply Href].
Qed.
End Evidence.

(** C3: whatever [match_process] reports is backed by the evidence of its
    source: the process is neither excluded nor a Steam helper nor
    suspended, the hit carries its pid, and the entry is in the generation
    with, for the automata, a declared executable that names the path (or
    the path its working directory reconstructs) and arguments that stand
    in the command line; for the store-id tiers, that very id and an
    executable that names the process; for the name tiers, that very title;
    and no install directory or name speaks where a native probe refused. *)
Theorem match_process_sound `{AhoCorasick, Regex, CaseTables, HashOrder}
    platform mc srv b process obs_open cache hit obs_open' cache' :
  bundle_ok platform b →
  match_process platform mc srv b process obs_open cache = (Some hit, obs_open', cache') →
  let basename := folded_basename (slashed (exec_path process)) in
  is_excluded (ss_exclusions srv) basename = false ∧ is_steam_sidecar basename = false ∧
  observed platform mc process hit ∧
  evidence platform mc srv b process
    (or_else (cached_app_id cache (exec_pid process)
                (on_linux platform (mc_environ mc (exec_pid process)) None)).1
             (app_id_from_args (exec_arguments process)))
    (hit_source hit) (hit_entry hit).
Proof.
  intros Ht%ok_tables. unfold match_process. cbv zeta.
  destruct (is_excluded _ _); [done|]. destruct (is_steam_sidecar _); [done|].
  intros E. do 2 (split; [done|]). revert E.
  destruct (take_hit (probe_variants (slashed _) b false)) as [[e j]|] eqn:E1.
  { destruct (probe_variants _ b false) as [e' j'| |] eqn:Ep; [|done..]. injection E1 as -> ->.
    apply probe_variants_sound in Ep as [Hin Hn].
    intros [= Eh _ _]. apply (direct_hit_sound _ _ _ _ _ _ _ _ Hn) in Eh as (Ho & -> & -> & Hd).
    split; [done|]. apply by_automaton; [naive_solver|done]. }
  set (candidate := bare_exe _ ≫= _).
  assert (∀ p, candidate = Some p → rejoined platform mc process p) as Hcand.
  { intros p (exe & Hexe & (cwd & Hcwd & ->)%fmap_Some)%bind_Some. by exists exe, cwd. }
  destruct (_ ≫= take_hit) as [[e j]|] eqn:E2.
  { apply bind_Some in E2 as (o & (p & Hp & ->)%fmap_Some & E2).
    destruct (probe_variants p b false) as [e' j'| |] eqn:Ep; [|done..]. injection E2 as -> ->.
    apply probe_variants_sound in Ep as [Hin Hn].
    intros [= Eh _ _]. apply (direct_hit_sound _ _ _ _ _ _ _ _ Hn) in Eh as (Ho & -> & -> & Hd).
    split; [done|]. apply (by_cwd _ _ _ _ _ _ _ p); [naive_solver|by apply Hcand|done]. }
  destruct (cached_app_id _ _ _) as [id cache1] eqn:Ec. intros [= Eh _ _]. revert Eh.
  apply missed_sound; [done..|]. intros [Hr1 Hr2]%orb_false_iff [Hr|(p & (exe & cwd & He & Hc & ->) & Hr)].
  - by rewrite Hr in Hr1.
  - revert Hr2. unfold candidate. rewrite He, Hc. simpl. by rewrite Hr.
Qed.

(** The arguments the database declares for an executable, where it
    declares any, stand in the command line. *)
Definition arguments_stand (process : Exec) (x : ScannedExe) : bool :=
  match exe_arguments x with
  | None => true
  | Some a => match exec_arguments process with Some args => str_contains a args | None => false end
  end.

Lemma direct_hit_lands platform mc e j x process source :
  se_executables e !! j = Some x → arguments_stand process x = true →
  suspended platform mc (exec_pid process) = false →
  finish_direct_hit platform mc e j process source
  = Some {| hit_entry := e; hit_pid := exec_pid process; hit_start := mc_now mc;
            hit_source := source |}.
Proof.
  intros Hx Ha Hs. unfold finish_direct_hit, live_or_none. rewrite Hx. unfold arguments_stand in Ha.
  by rewrite Ha, Hs.
Qed.

(** C14: a declared executable is found. In a generation built from its
    lists (tables within the index widths), let a native executable of the
    main database, no launcher and with no separator right behind its
    marker, name the path of a process that is neither excluded, nor a
    Steam helper, nor suspended; and let the arguments of every native
    executable of the main database that names this path stand in the
    command line, where it declares any. Then the process is a hit of the
    main automaton, with its pid and the time of the scan: no override, no
    shorter name inside the path and no later tier takes it away. The
    entry is one of the main database with a native executable that names
    the path, hence the declared one when no other entry has such an
    executable. *)
Theorem declared_executable_is_found `{AhoCorasickOk, Regex, CaseTables, HashOrder}
    platform mc srv b process obs_open cache e x :
  build_bundle platform (b_list b) (b_custom b) = Some b → sized (b_list b) → sized (b_custom b) →
  let path := slashed (exec_path process) in
  let names e x := e ∈ b_list b ∧ x ∈ se_executables e ∧ native_exe platform x = true ∧
    exe_names_path path (exe_name x) = true in
  is_excluded (ss_exclusions srv) (folded_basename path) = false →
  is_steam_sidecar (folded_basename path) = false →
  suspended platform mc (exec_pid process) = false →
  names e x → plain (exe_name x) = true →
  (∀ e' x', names e' x' → arguments_stand process x' = true) →
  ∃ hit, (match_process platform mc srv b process obs_open cache).1.1 = Some hit ∧
    hit_source hit = Automaton ∧ hit_pid hit = exec_pid process ∧ hit_start hit = mc_now mc ∧
    (∃ x', names (hit_entry hit) x') ∧
    ((∀ e' x', names e' x' → e' = e) → hit_entry hit = e).
Proof.
  intros Hb Hl Hc path names Hex Hsc Hs (He & Hx & Hnat & Hn) Hp Hargs.
  destruct (built_tables platform _ _ _ Hb Hl Hc) as [(ac & ps & Eac & Hac & Htab) _].
  destruct (table_complete _ _ _ _ ac path e x Htab Hac) as (e' & j & Hhit);
    [by intros y [? _]%andb_true_iff|done..|apply slashed_head|done|].
  unfold match_process. fold path. rewrite Hex, Hsc.
  assert (probe_one b false 0 path = Corroborated e' j) as Hone.
  { unfold probe_one, main_probe. by rewrite Eac. }
  assert (probe_variants path b false = Corroborated e' j) as ->.
  { unfold probe_variants. destruct (variants_path path) as [vs ->]. simpl orb.
    destruct (negb _); by apply walk_first. }
  apply first_hit_sound in Hhit as [Hin (x' & Hx' & Hn')].
  destruct (table_admits _ _ _ _ ac _ _ _ Htab Hac Hin) as (y & Hy & Hf). simplify_eq.
  assert (names e' x') as Hnames.
  { split_and!; [by eapply resolve_hits_in|by eapply list_elem_of_lookup_2|done..]. }
  cbn [take_hit fst]. rewrite (direct_hit_lands _ _ _ _ x') by eauto.
  eexists. split_and!; [done..|by exists x'|]. intros Hu. by eapply Hu.
Qed.

(** ** A process on a small machine *)

Module ScanDemo.
#[export] Instance demo_case : CaseTables := {| unicode_lower := λ c, c |}.
#[export] Instance demo_order : HashOrder := default_order.
Import NaiveAc DemoRegex.

Definition mc : Machine := {|
  mc_cwd := λ _, None; mc_stat := λ _, Some "7 (game) S 1";
  mc_environ := λ _, None; mc_now := 1000 |}.
Definition srv : ScanServer := {|
  ss_exclusions := exclusions_default; ss_steam_dirs := ∅ |}.
Definition process : Exec := {|
  exec_pid := 7; exec_path := "/opt/Game/game"; exec_arguments := None |}.
Definition exe : ScannedExe := {|
  exe_name := ">game"; exe_os := OsLinux; exe_is_launcher := false; exe_arguments := None |}.

Lemma appended_ok : build_bundle PLinux (b_list appended) (b_custom appended) = Some appended.
Proof. vm_compute. reflexivity. Qed.
End ScanDemo.
Import NaiveAc DemoRegex ScanDemo.

Lemma declared_executable_is_found_witness :
  ∃ hit, (match_process PLinux mc srv appended process false ∅).1.1 = Some hit ∧
    hit_source hit = Automaton ∧ hit_entry hit = from_owned NaiveAc.game.
Proof.
  destruct (declared_executable_is_found PLinux mc srv appended process false ∅
    (from_owned NaiveAc.game) exe) as (hit & Hh & Hsrc & _ & _ & _ & Hu).
  - apply appended_ok.
  - apply sized_small; reflexivity.
  - apply sized_small; reflexivity.
  - vm_compute. reflexivity.
  - vm_compute. reflexivity.
  - vm_compute. reflexivity.
  - split_and!; [apply list_elem_of_here|apply list_elem_of_here|vm_compute; reflexivity..].
  - reflexivity.
  - intros e' x' (He & Hx & _). vm_compute in He.
    repeat (apply elem_of_cons in He as [-> |He]; [|]); [..|by apply not_elem_of_nil in He].
    all: vm_compute in Hx; repeat (apply elem_of_cons in Hx as [-> |Hx]; [reflexivity|]);
      by apply not_elem_of_nil in Hx.
  - exists hit. split; [exact Hh|]. split; [exact Hsrc|]. apply Hu.
    intros e' x' (He & Hx & Hnat & Hn). vm_compute in He.
    repeat (apply elem_of_cons in He as [-> |He]; [|]); [..|by apply not_elem_of_nil in He].
    all: vm_compute in Hx; repeat (apply elem_of_cons in Hx as [-> |Hx];
      [first [reflexivity | vm_compute in Hn; discriminate | vm_compute in Hnat; discriminate]|]);
      by apply not_elem_of_nil in Hx.
Defined.

Lemma match_process_sound_witness :
  ∃ hit, (match_process PLinux mc srv appended process false ∅).1.1 = Some hit ∧
    observed PLinux mc process hit ∧
    evidence PLinux mc srv appended process None (hit_source hit) (hit_entry hit).
Proof.
  destruct (match_process PLinux mc srv appended process false ∅) as [[[hit|] obs] cache] eqn:E;
    [|vm_compute in E; discriminate].
  exists hit. split; [reflexivity|].
  destruct (match_process_sound PLinux mc srv appended process false ∅ hit obs cache)
    as (_ & _ & Ho & Hev); [right; apply appended_ok|exact E|]. split; [exact Ho|exact Hev].
Defined.
