(* ===== verification/Runtime.v ===== *)
(** * The scanner's loops (crates/rsrpc-detect/src: runtime.rs, scan.rs, scanner.rs)

    One iteration of the scan loop, from the scan's result to the cadence
    it waits; one event of the dispatch loop; and the event channel they
    feed.  The channel's gauge is modelled with its races in the telemetry
    file: here a send sees the backlog at once. *)

From stdpp Require Import base gmap strings list list_numbers sets sorting.
From Stdlib Require Import Ascii.
From S2P Require Import Prelude RStr Text HashMaps Ids Telemetry ProcEvents ScanNames Bundle Steam AppIdMemo Exclusions Scan.

Local Open Scope string_scope.
Local Open Scope nat_scope.
Local Open Scope list_scope.

(** types.rs *)
Inductive ProcessDetectedEvent :=
  | EvDetected (hit : ScannedHit)
  | EvCleared
  | EvRemoved (id : string) (pid : Z).

(** ** Guards and small decisions *)

(** [ScanGuard::try_acquire]: the flag afterwards, when it was free. *)
Definition try_acquire (flag : bool) : option bool := if flag then None else Some true.

(** [Drop for ScanGuard]. *)
Definition guard_drop (flag : bool) : bool := false.

Definition MAX_SEEN_IDS : nat := 1024.

(** [first_sightings]: the set and the first sightings. *)
Definition first_sightings (seen : gset string) (detected : list ScannedHit)
    : gset string * list ScannedHit :=
  let seen := if decide (MAX_SEEN_IDS ≤ size seen) then ∅ else seen in
  foldl (λ acc game,
    if bool_decide (se_id (hit_entry game) ∈ acc.1) then acc
    else ({[se_id (hit_entry game)]} ∪ acc.1, acc.2 ++ [game])) (seen, []) detected.

(** [apply_ignore_list]. *)
Definition apply_ignore_list (detected : list ScannedHit) (ignored_ids : gset string)
    : list ScannedHit :=
  if bool_decide (ignored_ids = ∅) then detected
  else base.filter (λ game, se_id (hit_entry game) ∉ ignored_ids) detected.

Definition exec_hit_ignored (ignored_ids : gset string) (hit : ScannedHit) : bool :=
  bool_decide (se_id (hit_entry hit) ∈ ignored_ids).

(** [should_wake_on_exit]: the verdict and the tracked pids; [elapsed] is
    the age of the last scan in whole seconds. *)
Definition should_wake_on_exit (pids : gset Z) (elapsed pid : Z) : bool * gset Z :=
  if bool_decide (pid ∉ pids) then (false, pids)
  else
    let due := (1 <=? elapsed)%Z in
    (due, if due then pids ∖ {[pid]} else pids).

(** ** Cadence *)

(** [Duration] in nanoseconds; [checked_mul] fails past its range. *)
Definition SECOND : Z := 1000000000.
Definition DURATION_MAX : Z := U64_MAX * SECOND + (SECOND - 1).
Definition MAX_BACKOFF : Z := 30 * SECOND.

Definition idle_wait (base : Z) (idle_ticks : Z) : Z :=
  let product := (base * 2 ^ Z.min 4 idle_ticks)%Z in
  let stretched := if (product <=? DURATION_MAX)%Z then product else MAX_BACKOFF in
  Z.min stretched MAX_BACKOFF.

Definition scan_cadence (base idle_ticks : Z) (watcher_live : bool) : Z :=
  if watcher_live then idle_wait base idle_ticks else base.

(** ** The event channel *)

(** What is queued, and whether the receiver still exists. *)
Record EventChan := { ec_queue : list ProcessDetectedEvent; ec_open : bool }.

(** [send_checked]: a full backlog sheds unless the receiver is gone. *)
Definition ev_send_checked (ev : ProcessDetectedEvent) (cap : nat) (c : EventChan)
    : SendChecked * EventChan :=
  if negb (ec_open c) then (Closed, c)
  else if decide (cap ≤ length (ec_queue c)) then (Shed, c)
  else (Sent, {| ec_queue := ec_queue c ++ [ev]; ec_open := true |}).

Inductive SnapshotDelivery := DeliveryComplete | DeliveryShed | DeliveryClosed.

Definition SNAPSHOT_EVENT_CAP : nat := 128.
Definition EXEC_EVENT_CAP : nat := 128.

(** One of [deliver_snapshot]'s loops: sends until one is not accepted. *)
Fixpoint send_each (events : list ProcessDetectedEvent) (c : EventChan)
    : SnapshotDelivery * EventChan :=
  match events with
  | [] => (DeliveryComplete, c)
  | ev :: events =>
      match ev_send_checked ev SNAPSHOT_EVENT_CAP c with
      | (Sent, c) => send_each events c
      | (Shed, c) => (DeliveryShed, c)
      | (Closed, c) => (DeliveryClosed, c)
      end
  end.

(** [deliver_snapshot]: removals, detections, the clear. *)
Definition deliver_snapshot (removed : list (string * Z)) (detected : list ScannedHit)
    (cleared : bool) (c : EventChan) : SnapshotDelivery * EventChan :=
  match send_each ((λ slot : string * Z, EvRemoved slot.1 slot.2) <$> removed) c with
  | (DeliveryComplete, c) =>
      match send_each (EvDetected <$> detected) c with
      | (DeliveryComplete, c) => if cleared then send_each [EvCleared] c else (DeliveryComplete, c)
      | stopped => stopped
      end
  | stopped => stopped
  end.

(** [publish_exec_hit]: whether the lane goes on. *)
Definition publish_exec_hit (hit : ScannedHit) (cap : nat) (c : EventChan) : bool * EventChan :=
  match ev_send_checked (EvDetected hit) cap c with
  | (Closed, c) => (false, c)
  | (_, c) => (true, c)
  end.

(** [removed_slots]. *)
Definition removed_slots (previous current : list (string * Z)) : list (string * Z) :=
  base.filter (λ slot, slot ∉ current) previous.

(** [advance_snapshot_lane], over the channel [deliver] sends to. *)
Definition advance_snapshot_lane (last_emitted snapshot : list (string * Z))
    (deliver : list (string * Z) → EventChan → SnapshotDelivery * EventChan) (c : EventChan)
    : SnapshotDelivery * list (string * Z) * EventChan :=
  let removed := removed_slots last_emitted snapshot in
  let '(delivery, c) := deliver removed c in
  (delivery, match delivery with DeliveryComplete => snapshot | _ => last_emitted end, c).

(** ** The scan loop *)

(** The order of [(String, u64)]. *)
Definition slot_leb (a b : string * Z) : bool :=
  if String.eqb a.1 b.1 then (a.2 <=? b.2)%Z else String.leb a.1 b.1.

Fixpoint insert_slot (x : string * Z) (l : list (string * Z)) : list (string * Z) :=
  match l with
  | [] => [x]
  | y :: l' => if slot_leb x y then x :: l else y :: insert_slot x l'
  end.

(** [snapshot.sort()]. *)
Definition sort_slots (l : list (string * Z)) : list (string * Z) := foldr insert_slot [] l.

Definition slot_of (game : ScannedHit) : string * Z := (se_id (hit_entry game), hit_pid game).

(** What the scan thread owns or shares. *)
Record ScanLoop := {
  sl_chan : EventChan;
  sl_last : list (string * Z);
  sl_dirty : bool;
  sl_pids : gset Z;
  sl_idle : Z;
  sl_seen : gset string
}.

Definition ScanLoop_new (c : EventChan) : ScanLoop := {|
  sl_chan := c; sl_last := []; sl_dirty := false; sl_pids := ∅; sl_idle := 0; sl_seen := ∅ |}.

(** How an iteration ends: the thread returns, or waits. *)
Inductive TickEnd := Returns | Waits (cadence : Z).

(** One iteration, from the result of [scan_for_processes] to the wait. *)
Definition scan_tick (result : list ScannedHit * bool + ScanError) (ignored_ids : gset string)
    (base : Z) (watcher_live : bool) (s : ScanLoop) : TickEnd * ScanLoop :=
  match result with
  | inr _ => (Waits base, s)
  | inl (detected, _) =>
      let detected := apply_ignore_list detected ignored_ids in
      let seen := (first_sightings (sl_seen s) detected).1 in
      let pids := list_to_set (hit_pid <$> detected) in
      let snapshot := sort_slots (slot_of <$> detected) in
      let changed := bool_decide (snapshot ≠ sl_last s) in
      let emit := changed || sl_dirty s in
      let empty := match detected with [] => true | _ => false end in
      let '(delivery, last, c) :=
        if emit then
          advance_snapshot_lane (sl_last s) snapshot
            (λ removed, deliver_snapshot removed detected empty) (sl_chan s)
        else (DeliveryComplete, sl_last s, sl_chan s) in
      let idle := match delivery with
                  | DeliveryClosed => sl_idle s
                  | _ => if empty then Z.min U32_MAX (sl_idle s + 1) else 0%Z
                  end in
      let s := {| sl_chan := c; sl_last := last; sl_dirty := false; sl_pids := pids;
                  sl_idle := idle; sl_seen := seen |} in
      match delivery with
      | DeliveryClosed => (Returns, s)
      | _ => (Waits (scan_cadence base idle watcher_live), s)
      end
  end.

(** After the wait: an early wake resets the backoff. *)
Definition after_wait (woke_early : bool) (s : ScanLoop) : ScanLoop := {|
  sl_chan := sl_chan s; sl_last := sl_last s; sl_dirty := sl_dirty s; sl_pids := sl_pids s;
  sl_idle := if woke_early then 0 else sl_idle s; sl_seen := sl_seen s |}.

(** ** The dispatch loop *)

(** The publication of one classified EXEC: whether the thread goes on. *)
Definition dispatch_hit (hit : option ScannedHit) (ignored_ids : gset string) (s : ScanLoop)
    : bool * ScanLoop :=
  match hit with
  | None => (true, s)
  | Some hit =>
      if exec_hit_ignored ignored_ids hit then (true, s)
      else
        let '(go_on, c) := publish_exec_hit hit EXEC_EVENT_CAP (sl_chan s) in
        (go_on, {| sl_chan := c; sl_last := sl_last s; sl_dirty := true;
                   sl_pids := {[hit_pid hit]} ∪ sl_pids s; sl_idle := sl_idle s;
                   sl_seen := sl_seen s |})
  end.

Section Dispatch.
Context `{AhoCorasick, Regex, CaseTables, HashOrder}.

(** One event of the dispatch thread: whether it goes on, whether it wakes
    the scan thread, and the state and memos afterwards.  [cmdline] reads
    [/proc/<pid>/cmdline], [elapsed] is the age of the last scan. *)
Definition dispatch_event (platform : Platform) (mc : Machine) (srv : ScanServer)
    (b : DetectablesBundle) (ignored_ids : gset string) (cmdline : Z → option (list ascii))
    (elapsed : Z) (event : ProcEvent) (s : ScanLoop) (cache : gmap Z AppIdMemo)
    : bool * bool * ScanLoop * gmap Z AppIdMemo :=
  match event with
  | ProcEvents.Exec pid =>
      match read_exec pid (cmdline pid) with
      | None => (true, false, s, cache)
      | Some exec =>
          let cache := drop_appid cache pid in
          let '(hit, _, cache) := match_process platform mc srv b exec false cache in
          let '(go_on, s) := dispatch_hit hit ignored_ids s in
          (go_on, false, s, cache)
      end
  | Exit pid =>
      let '(wake, pids) := should_wake_on_exit (sl_pids s) elapsed pid in
      (true, wake, {| sl_chan := sl_chan s; sl_last := sl_last s; sl_dirty := sl_dirty s;
                      sl_pids := pids; sl_idle := sl_idle s; sl_seen := sl_seen s |}, cache)
  end.
End Dispatch.
