(* ===== verification/RuntimeProps.v ===== *)
(** * What the scanner's lanes deliver

    The consumer keeps one card per application id: the table the bridge
    keeps in [last_process], of which the same operations are used here. *)

From stdpp Require Import base gmap strings list list_numbers sets.
From Stdlib Require Import Ascii.
From S2P Require Import Prelude RStr Text HashMaps Ids Telemetry ProcEvents ScanNames Bundle Steam AppIdMemo Exclusions Bridge Scan Runtime.

Local Open Scope string_scope.
Local Open Scope nat_scope.
Local Open Scope list_scope.

(** ** Cadence *)

(** An idle scan never waits more than 30 seconds nor less than its base
    (or the 30 seconds, for a longer base), waits longer the longer it has
    been idle, and without a live watcher always waits exactly its base;
    no idle count overflows the duration. *)
Theorem idle_cadence_bounds base idle idle' :
  (0 ≤ base ≤ DURATION_MAX)%Z → (0 ≤ idle ≤ idle')%Z →
  (Z.min base MAX_BACKOFF ≤ scan_cadence base idle true ≤ MAX_BACKOFF)%Z ∧
  (scan_cadence base idle true ≤ scan_cadence base idle' true)%Z ∧
  scan_cadence base idle false = base.
Proof.
  intros Hb Hi. unfold scan_cadence, idle_wait. cbv zeta.
  assert (∀ i, (0 ≤ i)%Z → (1 ≤ 2 ^ Z.min 4 i)%Z) as Hpow.
  { intros i Hp. change 1%Z with (2 ^ 0)%Z. apply Z.pow_le_mono_r; lia. }
  assert (2 ^ Z.min 4 idle ≤ 2 ^ Z.min 4 idle')%Z as Hmono by (apply Z.pow_le_mono_r; lia).
  pose proof (Hpow idle ltac:(lia)). pose proof (Hpow idle' ltac:(lia)).
  generalize dependent (2 ^ Z.min 4 idle)%Z. generalize dependent (2 ^ Z.min 4 idle')%Z.
  intros p' Hp' p Hle Hp. assert (base ≤ base * p ∧ base * p ≤ base * p')%Z as [H1 H2] by nia.
  assert (MAX_BACKOFF < DURATION_MAX)%Z as Hm by done.
  split_and!; [| | |done]; repeat case_match; lia.
Qed.

(** ** Cards *)

Abbreviation cards := (gmap string Z) (only parsing).

Definition apply_event (v : cards) (ev : ProcessDetectedEvent) : cards :=
  match ev with
  | EvDetected hit => if is_some (v !! se_id (hit_entry hit)) then v
                      else <[se_id (hit_entry hit) := hit_pid hit]> v
  | EvCleared => ∅
  | EvRemoved id pid => (take_matching_process v id pid).1
  end.

Definition apply_events (v : cards) (evs : list ProcessDetectedEvent) : cards :=
  foldl apply_event v evs.

(** The events of one tick. *)
Definition tick_events (last snapshot : list (string * Z)) (detected : list ScannedHit)
    : list ProcessDetectedEvent :=
  ((λ slot : string * Z, EvRemoved slot.1 slot.2) <$> removed_slots last snapshot) ++
  (EvDetected <$> detected) ++ match detected with [] => [EvCleared] | _ => [] end.

Lemma send_each_spec evs c :
  let '(d, c') := send_each evs c in
  ∃ sent rest, evs = sent ++ rest ∧ ec_queue c' = ec_queue c ++ sent ∧
    ec_open c' = ec_open c ∧ (d = DeliveryComplete ↔ rest = []) ∧
    (rest ≠ [] → ec_open c = false ∨ SNAPSHOT_EVENT_CAP ≤ length (ec_queue c')).
Proof.
  revert c. induction evs as [|ev evs IH]; intros c; simpl.
  { exists [], []. rewrite (app_nil_r (ec_queue c)). by split_and!. }
  unfold ev_send_checked. destruct (ec_open c) eqn:Eo; simpl.
  - case_decide as Hc.
    + exists [], (ev :: evs). rewrite app_nil_r.
      split_and!; [done..|by split|]. intros _. by right.
    + specialize (IH {| ec_queue := ec_queue c ++ [ev]; ec_open := true |}).
      destruct (send_each evs _) as [d c']. destruct IH as (sent & rest & -> & Hq & Ho & Hd & Hcl).
      exists (ev :: sent), rest. simpl in *.
      split_and!; [done|rewrite Hq; by rewrite <-app_assoc|done|done|].
      intros Hr. destruct (Hcl Hr) as [|]; [done|by right].
  - exists [], (ev :: evs). rewrite app_nil_r. split_and!; [done..|by split|]. intros _. by left.
Qed.

Lemma send_each_app a b c :
  send_each (a ++ b) c = match send_each a c with
                         | (DeliveryComplete, c) => send_each b c
                         | stopped => stopped
                         end.
Proof.
  revert c. induction a as [|ev a IH]; intros c; simpl; [by destruct (send_each b c)|].
  by destruct (ev_send_checked ev _ c) as [[] c'].
Qed.

Lemma deliver_tick last snapshot detected c :
  deliver_snapshot (removed_slots last snapshot) detected
    match detected with [] => true | _ => false end c
  = send_each (tick_events last snapshot detected) c.
Proof.
  unfold deliver_snapshot, tick_events. rewrite send_each_app.
  destruct (send_each ((λ slot, _) <$> _) c) as [[] c1]; [|done..]. rewrite send_each_app.
  destruct (send_each (EvDetected <$> detected) c1) as [[] c2]; [|done..]. by destruct detected.
Qed.

(** Every card is one of [slots]; and every slot has a card. *)
Definition within (v : cards) (slots : list (string * Z)) : Prop :=
  ∀ id pid, v !! id = Some pid → (id, pid) ∈ slots.
Definition agree (v : cards) (slots : list (string * Z)) : Prop :=
  within v slots ∧ ∀ slot, slot ∈ slots → is_Some (v !! slot.1).

Lemma apply_removed slots v id pid :
  apply_events v ((λ slot : string * Z, EvRemoved slot.1 slot.2) <$> slots) !! id = Some pid ↔
  v !! id = Some pid ∧ (id, pid) ∉ slots.
Proof.
  revert v. induction slots as [|[i p] slots IH]; intros v; simpl; [set_solver|].
  unfold apply_events in IH |- *. simpl. rewrite IH. unfold take_matching_process.
  rewrite not_elem_of_cons. destruct (v !! i) as [q|] eqn:E; simpl.
  - destruct (Z.eqb_spec q p) as [->|Hne]; simpl.
    + destruct (decide (id = i)) as [->|].
      * rewrite lookup_delete_eq, E. naive_solver.
      * rewrite lookup_delete_ne by done. naive_solver.
    + split; [|naive_solver]. intros [Hv Hn]. split_and!; [done| |done]. intros [= -> ->]. congruence.
  - split; [|naive_solver]. intros [Hv Hn]. split_and!; [done| |done]. intros [= -> ->]. congruence.
Qed.

Lemma apply_detected hits v :
  let v' := apply_events v (EvDetected <$> hits) in
  (∀ id pid, v' !! id = Some pid → v !! id = Some pid ∨ (id, pid) ∈ slot_of <$> hits) ∧
  (∀ id pid, v !! id = Some pid → v' !! id = Some pid) ∧
  (∀ slot, slot ∈ slot_of <$> hits → is_Some (v' !! slot.1)).
Proof.
  revert v. induction hits as [|h hits IH]; intros v; cbv zeta; [set_solver|].
  cbn [fmap list_fmap apply_events foldl]. fold (apply_events (apply_event v (EvDetected h)) (EvDetected <$> hits)).
  destruct (IH (apply_event v (EvDetected h))) as (H1 & H2 & H3). clear IH.
  assert (∀ id pid, v !! id = Some pid → apply_event v (EvDetected h) !! id = Some pid) as Hkeep.
  { intros id pid Hv. simpl. destruct (v !! se_id (hit_entry h)) eqn:E; simpl; [done|].
    rewrite lookup_insert_ne; [done|]. intros <-. congruence. }
  split_and!.
  - intros id pid Hv. apply H1 in Hv as [Hv|Hv]; [|right; by apply elem_of_cons; right].
    simpl in Hv. destruct (v !! se_id (hit_entry h)) eqn:E; simpl in Hv; [by left|].
    apply lookup_insert_Some in Hv as [[<- <-]|[_ Hv]]; [right; by apply elem_of_cons; left|by left].
  - intros id pid Hv. by apply H2, Hkeep.
  - intros slot [->|Hin]%elem_of_cons; [|by apply H3].
    destruct (apply_event v (EvDetected h) !! (slot_of h).1) as [p|] eqn:E; [by eexists; apply H2|].
    simpl in E. exfalso. destruct (v !! se_id (hit_entry h)) eqn:E'; simpl in E; [congruence|].
    by rewrite lookup_insert_eq in E.
Qed.

Lemma apply_events_app v a b : apply_events v (a ++ b) = apply_events (apply_events v a) b.
Proof. apply foldl_app. Qed.

(** A whole tick leaves exactly its snapshot, up to cards the lane did not
    know of; any part of it stays within the two tables. *)
Lemma tick_applied last snapshot detected v :
  snapshot ≡ₚ slot_of <$> detected → within v (last ++ snapshot) →
  agree (apply_events v (tick_events last snapshot detected)) snapshot ∧
  ∀ sent rest, tick_events last snapshot detected = sent ++ rest →
    within (apply_events v sent) (last ++ snapshot).
Proof.
  intros Hperm Hw. assert (∀ slot, slot ∈ snapshot ↔ slot ∈ slot_of <$> detected) as Hin.
  { intros slot. by rewrite Hperm. }
  split.
  - unfold tick_events. rewrite !apply_events_app. set (v1 := apply_events v _).
    assert (within v1 snapshot) as Hw1.
    { intros id pid [Hv Hn]%apply_removed. apply Hw, elem_of_app in Hv as [Hl|]; [|done].
      destruct (decide ((id, pid) ∈ snapshot)); [done|]. destruct Hn.
      by apply list_elem_of_filter. }
    destruct (apply_detected detected v1) as (H1 & _ & H3).
    destruct detected as [|h detected]; [|].
    + split; [by intros id pid|]. intros slot Hs%Hin. by apply not_elem_of_nil in Hs.
    + split; [|by intros slot Hs%Hin; apply H3].
      intros id pid Hv. apply H1 in Hv as [Hv|Hv]; [by apply Hw1|by apply Hin].
  - assert (∀ evs, (∀ h, EvDetected h ∈ evs → slot_of h ∈ snapshot) → ∀ v,
      within v (last ++ snapshot) → within (apply_events v evs) (last ++ snapshot)) as Hgen.
    { clear v Hw. induction evs as [|ev evs IH]; intros Hd v Hw; [done|].
      apply IH; [intros h Hh; apply Hd; by right|]. destruct ev as [h| |i p]; simpl.
      - destruct (v !! se_id (hit_entry h)); simpl; [done|].
        intros id pid [[<- <-]|[_ Hv]]%lookup_insert_Some; [|by apply Hw].
        apply elem_of_app. right. apply (Hd h). by left.
      - by intros id pid.
      - unfold take_matching_process. destruct (opt_any _ _); [|done]. simpl.
        intros id pid [_ Hv]%lookup_delete_Some. by apply Hw. }
    intros sent rest E. apply Hgen; [|done]. intros h Hh.
    assert (EvDetected h ∈ tick_events last snapshot detected) as Hin'.
    { rewrite E. apply elem_of_app. by left. }
    unfold tick_events in Hin'. rewrite !elem_of_app, !list_elem_of_fmap in Hin'.
    destruct Hin' as [(slot & [=] & _)|[(g & [= <-] & Hg)|Hc]].
    + apply Hin, list_elem_of_fmap. by exists h.
    + destruct detected; [|by apply not_elem_of_nil in Hc].
      by apply list_elem_of_singleton in Hc.
Qed.

Lemma insert_slot_perm x l : insert_slot x l ≡ₚ x :: l.
Proof.
  induction l as [|y l IH]; simpl; [done|]. destruct (slot_leb x y); [done|].
  etrans; [apply Permutation_cons; [done|exact IH]|]. apply Permutation_swap.
Qed.

Lemma sort_slots_perm l : sort_slots l ≡ₚ l.
Proof. induction l as [|x l IH]; simpl; [done|]. etrans; [apply insert_slot_perm|]. by apply Permutation_cons. Qed.

(** ** Ticks *)

(** What the consumer shows once it has drained the backlog. *)
Definition shown (v0 : cards) (s : ScanLoop) : cards := apply_events v0 (ec_queue (sl_chan s)).

(** The games a scan publishes, and their slots. *)
Definition published (detected : list ScannedHit) (ignored : gset string) : list ScannedHit :=
  apply_ignore_list detected ignored.
Definition snapshot_of (detected : list ScannedHit) (ignored : gset string) : list (string * Z) :=
  sort_slots (slot_of <$> published detected ignored).

Lemma snapshot_perm detected ignored :
  snapshot_of detected ignored ≡ₚ slot_of <$> published detected ignored.
Proof. apply sort_slots_perm. Qed.

(** A tick stops before its last event only when the receiver has gone or
    the backlog is full. *)
Definition cut_short (s s' : ScanLoop) : Prop :=
  ec_open (sl_chan s) = false ∨ SNAPSHOT_EVENT_CAP ≤ length (ec_queue (sl_chan s')).

(** What a tick sends, and the table it records. *)
Lemma scan_tick_emits detected obs ignored base live s :
  let s' := (scan_tick (inl (detected, obs)) ignored base live s).2 in
  let snapshot := snapshot_of detected ignored in
  let evs := if bool_decide (snapshot ≠ sl_last s) || sl_dirty s
             then tick_events (sl_last s) snapshot (published detected ignored) else [] in
  ∃ sent rest, evs = sent ++ rest ∧ ec_queue (sl_chan s') = ec_queue (sl_chan s) ++ sent ∧
    sl_dirty s' = false ∧
    (rest = [] → evs ≠ [] → sl_last s' = snapshot) ∧
    (rest ≠ [] ∨ evs = [] → sl_last s' = sl_last s) ∧
    (rest ≠ [] → cut_short s s').
Proof.
  cbv zeta. unfold scan_tick, snapshot_of, published. cbv zeta.
  set (hits := apply_ignore_list detected ignored). set (snap := sort_slots _).
  destruct (bool_decide (snap ≠ sl_last s) || sl_dirty s) eqn:Ee.
  - unfold advance_snapshot_lane. rewrite deliver_tick.
    pose proof (send_each_spec (tick_events (sl_last s) snap hits) (sl_chan s)) as Hs.
    destruct (send_each _ _) as [d c']. destruct Hs as (sent & rest & E & Hq & _ & Hd & Hcut).
    exists sent, rest.
    split; [done|]. destruct d; simpl.
    + assert (rest = []) as -> by (by apply Hd). split_and!; [done..| |done].
      intros [?|Hev]; [done|]. exfalso. rewrite Hev in E. clear -Hev. unfold tick_events in Hev.
      apply app_nil in Hev as [_ Hev]. by destruct hits.
    + split_and!; [done..| |done|exact Hcut]. intros Hr. apply Hd in Hr. done.
    + split_and!; [done..| |done|exact Hcut]. intros Hr. apply Hd in Hr. done.
  - exists [], []. simpl. rewrite app_nil_r. split_and!; try done.
Qed.

(** The view after a tick. *)
Lemma scan_tick_view detected obs ignored base live s v0 :
  let s' := (scan_tick (inl (detected, obs)) ignored base live s).2 in
  let snapshot := snapshot_of detected ignored in
  within (shown v0 s) (sl_last s ++ snapshot) →
  (snapshot = sl_last s → sl_dirty s = false → agree (shown v0 s) (sl_last s)) →
  (sl_last s' = snapshot ∧ agree (shown v0 s') snapshot ∨
   cut_short s s' ∧ sl_last s' = sl_last s ∧
     within (shown v0 s') (sl_last s ++ snapshot)) ∧
  ∀ slot, slot ∈ snapshot → slot.1 ∉ ignored.
Proof.
  cbv zeta. intros Hw Hag. split.
  - destruct (scan_tick_emits detected obs ignored base live s)
      as (sent & rest & E & Hq & _ & Hrec & Hkeep & Hcut). unfold shown in *. rewrite Hq, apply_events_app.
    set (s' := (scan_tick _ _ _ _ _).2) in *. set (snap := snapshot_of detected ignored) in *.
    destruct (bool_decide (snap ≠ sl_last s) || sl_dirty s) eqn:Ee.
    + destruct (tick_applied (sl_last s) snap _ _ (snapshot_perm _ _) Hw) as [Hall Hpart].
      destruct rest as [|ev rest].
      * rewrite app_nil_r in E. left. rewrite <-E. split; [|done]. apply Hrec; [done|].
        rewrite E. intros Hnil. rewrite Hnil in E. unfold tick_events in E.
        apply app_nil in E as [_ E]. by destruct (published detected ignored).
      * right. split; [by apply Hcut|]. split; [apply Hkeep; by left|]. by eapply Hpart.
    + apply orb_false_iff in Ee as [Ee Hd]. apply bool_decide_eq_false in Ee.
      destruct (decide (snap = sl_last s)) as [Es|]; [|done].
      symmetry in E. apply app_nil in E as [-> ->]. left. simpl.
      rewrite (Hkeep ltac:(by right)), Es. split; [done|]. by apply Hag.
  - intros slot Hs. rewrite snapshot_perm in Hs. unfold published, apply_ignore_list in Hs.
    apply list_elem_of_fmap in Hs as (h & -> & Hh). case_bool_decide as Hi; [set_solver|].
    by apply list_elem_of_filter in Hh as [? _].
Qed.

(** C9: the consumer converges on the scan's table.  Let what it shows (once
    it drains the backlog) be within the recorded table and the current
    one, and agree with the recorded one where the tick has nothing to
    send.  Then the tick records the current table and the consumer shows
    exactly it, one card per game and none besides; or else the receiver
    has gone or the tick has filled the backlog to its cap of 128, and then
    the old table stays recorded and nothing outside the two tables is
    shown.  No ignored id is in the current table. *)
Theorem scan_tick_converges detected obs ignored base live s v0 :
  let s' := (scan_tick (inl (detected, obs)) ignored base live s).2 in
  let snapshot := snapshot_of detected ignored in
  within (shown v0 s) (sl_last s ++ snapshot) →
  (snapshot = sl_last s → sl_dirty s = false → agree (shown v0 s) (sl_last s)) →
  (sl_last s' = snapshot ∧ agree (shown v0 s') snapshot ∨
   cut_short s s' ∧ sl_last s' = sl_last s ∧
     within (shown v0 s') (sl_last s ++ snapshot)) ∧
  ∀ slot, slot ∈ snapshot → slot.1 ∉ ignored.
Proof. apply scan_tick_view. Qed.

(** ** What the recorded table cannot repair *)

Definition tick_all (ignored : gset string) (base : Z) (live : bool) (s : ScanLoop)
    (ticks : list (list ScannedHit)) : ScanLoop :=
  foldl (λ s detected, (scan_tick (inl (detected, false)) ignored base live s).2) s ticks.

Lemma apply_event_keeps v ev id pid :
  v !! id = Some pid → ev ≠ EvCleared → ev ≠ EvRemoved id pid → apply_event v ev !! id = Some pid.
Proof.
  intros Hv Hc Hr. destruct ev as [h| |i p]; simpl; [|done|].
  - destruct (v !! se_id (hit_entry h)) eqn:E; simpl; [done|].
    rewrite lookup_insert_ne; [done|]. intros <-. congruence.
  - unfold take_matching_process. destruct (v !! i) as [q|] eqn:E; [|done]. simpl.
    destruct (Z.eqb_spec q p) as [->|]; [|done]. simpl. rewrite lookup_delete_ne; [done|].
    intros ->. congruence.
Qed.

Lemma apply_events_keep v evs id pid :
  v !! id = Some pid → EvCleared ∉ evs → EvRemoved id pid ∉ evs →
  apply_events v evs !! id = Some pid.
Proof.
  revert v. induction evs as [|ev evs IH]; intros v Hv Hc Hr; [done|].
  apply not_elem_of_cons in Hc as [Hc1 Hc2], Hr as [Hr1 Hr2]. apply IH; [|done..].
  by apply apply_event_keeps; [|apply not_eq_sym..].
Qed.

(** A card the lane never recorded outlives its process: a slot that
    reached the consumer past the recorded table, by an EXEC publication or
    by a tick that was cut short, and then vanished stays shown through
    every later tick that still finds some game, since only an empty table
    clears what no [Removed] names. *)
Theorem unrecorded_card_survives ignored base live ticks s v0 id pid :
  shown v0 s !! id = Some pid → (id, pid) ∉ sl_last s →
  Forall (λ detected, published detected ignored ≠ [] ∧
    ∀ h, h ∈ detected → se_id (hit_entry h) ≠ id) ticks →
  let s' := tick_all ignored base live s ticks in
  shown v0 s' !! id = Some pid ∧ (id, pid) ∉ sl_last s'.
Proof.
  intros Hv Hl Ht. revert s Hv Hl. induction Ht as [|d ticks [Hne Hid] _ IH]; intros s Hv Hl; [done|].
  cbn [tick_all foldl]. destruct (scan_tick_emits d false ignored base live s)
    as (sent & rest & E & Hq & _ & Hrec & Hkeep & _).
  set (s1 := (scan_tick _ _ _ _ _).2) in *. set (snap := snapshot_of d ignored) in *.
  assert ((id, pid) ∉ snap) as Hsnap.
  { unfold snap. rewrite snapshot_perm. unfold published, apply_ignore_list.
    intros (h & [= Eid _] & Hh)%list_elem_of_fmap. apply (Hid h); [|done].
    case_bool_decide; [done|]. by apply list_elem_of_filter in Hh as [_ ?]. }
  match type of E with ?e = _ => set (evs := e) in * end. apply IH.
  - unfold shown in *. rewrite Hq, apply_events_app.
    assert (∀ ev, ev ∈ sent → ev ∈ tick_events (sl_last s) snap (published d ignored)) as Hsub.
    { intros ev Hev. assert (ev ∈ evs) as Hin by (rewrite E; apply elem_of_app; by left).
      unfold evs in Hin. destruct (_ || _); [done|by apply not_elem_of_nil in Hin]. }
    apply apply_events_keep; [done| |]; intros Hin%Hsub; unfold tick_events in Hin;
      rewrite !elem_of_app, !list_elem_of_fmap in Hin;
      destruct Hin as [(slot & Es & Hs)|[(g & [=] & _)|Hc]]; try done.
    + by destruct (published d ignored); [|apply not_elem_of_nil in Hc].
    + injection Es as -> ->. apply list_elem_of_filter in Hs as [_ Hs]. by destruct slot.
    + by destruct (published d ignored); [|apply not_elem_of_nil in Hc].
  - destruct (decide (rest ≠ [] ∨ evs = [])) as [H|H]; [by rewrite (Hkeep H)|].
    rewrite Hrec; [done| |]; [|naive_solver]. destruct rest; [done|]. destruct H. by left.
Qed.

Definition with_chan (c : EventChan) (s : ScanLoop) : ScanLoop := {|
  sl_chan := c; sl_last := sl_last s; sl_dirty := sl_dirty s; sl_pids := sl_pids s;
  sl_idle := sl_idle s; sl_seen := sl_seen s |}.

(** A forced clear that is shed is never sent again: when an EXEC
    publication forced the tick, the table is empty and the backlog is
    full, the tick sends nothing and takes the force down with it, and the
    next empty tick sends nothing either, however far the consumer has
    drained the channel by then. *)
Theorem forced_clear_is_lost ignored base live s :
  sl_last s = [] → ec_open (sl_chan s) = true →
  SNAPSHOT_EVENT_CAP ≤ length (ec_queue (sl_chan s)) →
  let s1 := (scan_tick (inl ([], false)) ignored base live s).2 in
  sl_chan s1 = sl_chan s ∧
  ∀ c, sl_chan (scan_tick (inl ([], false)) ignored base live (with_chan c s1)).2 = c.
Proof.
  intros Hl Ho Hc. assert (apply_ignore_list [] ignored = []) as Hig.
  { unfold apply_ignore_list. by case_bool_decide. }
  assert (∀ s', sl_last s' = [] → sl_dirty s' = false →
    sl_chan (scan_tick (inl ([], false)) ignored base live s').2 = sl_chan s') as Hquiet.
  { intros s' Hl' Hd'. unfold scan_tick. rewrite Hig. simpl. by rewrite Hl', Hd'. }
  assert (let s1 := (scan_tick (inl ([], false)) ignored base live s).2 in
    sl_chan s1 = sl_chan s ∧ sl_last s1 = [] ∧ sl_dirty s1 = false) as Hs1.
  { cbv zeta. unfold scan_tick. rewrite Hig. simpl. rewrite Hl. simpl.
    destruct (sl_dirty s) eqn:Hd; simpl; [|done].
    unfold advance_snapshot_lane, deliver_snapshot, removed_slots. simpl.
    unfold ev_send_checked. rewrite Ho. simpl. by rewrite decide_True. }
  cbv zeta in Hs1 |- *. destruct Hs1 as (H1 & H2 & H3). split; [done|].
  intros c. by apply (Hquiet (with_chan c _)).
Qed.

(** ** Witnesses *)

Module LaneDemo.
Definition hit (id : string) (pid : Z) : ScannedHit := {|
  hit_entry := {| se_id := id; se_name := id; se_executables := []; se_steam_ids := [];
                  se_aliases := [] |};
  hit_pid := pid; hit_start := 0; hit_source := Automaton |}.
Definition open_chan (q : list ProcessDetectedEvent) : EventChan := {| ec_queue := q; ec_open := true |}.

(** One poll found [a]; an EXEC then published [b], which is gone. *)
Definition polled : ScanLoop :=
  (scan_tick (inl ([hit "a" 1], false)) ∅ SECOND true (ScanLoop_new (open_chan []))).2.
Definition execed : ScanLoop := (dispatch_hit (Some (hit "b" 2)) ∅ polled).2.

(** The backlog is full when the only game came and went. *)
Definition congested : ScanLoop := (dispatch_hit (Some (hit "b" 2)) ∅
  (ScanLoop_new (open_chan (replicate 127 EvCleared)))).2.
End LaneDemo.

Lemma idle_cadence_bounds_witness :
  scan_cadence (5 * SECOND) 0 true = (5 * SECOND)%Z ∧
  (scan_cadence (5 * SECOND) 1 true ≤ scan_cadence (5 * SECOND) 4294967295 true)%Z.
Proof.
  split; [reflexivity|]. apply (idle_cadence_bounds (5 * SECOND) 1 4294967295); by vm_compute.
Defined.

Lemma scan_tick_converges_witness :
  sl_last LaneDemo.polled = [("a", 1%Z)] ∧ agree (shown ∅ LaneDemo.polled) [("a", 1%Z)].
Proof.
  destruct (scan_tick_converges [LaneDemo.hit "a" 1] false ∅ SECOND true
    (ScanLoop_new (LaneDemo.open_chan [])) ∅) as [[[H1 H2]|[_ [H1 _]]] _].
  - intros id pid. vm_compute. discriminate.
  - vm_compute. discriminate.
  - split; [exact H1|exact H2].
  - vm_compute in H1. discriminate.
Defined.

Lemma unrecorded_card_survives_witness :
  let s' := tick_all ∅ SECOND true LaneDemo.execed
    [[LaneDemo.hit "a" 1]; [LaneDemo.hit "a" 1]] in
  shown ∅ s' !! "b" = Some 2%Z ∧ ("b", 2%Z) ∉ sl_last s'.
Proof.
  apply unrecorded_card_survives.
  - vm_compute. reflexivity.
  - vm_compute. set_solver.
  - repeat constructor; try (vm_compute; discriminate);
      intros h Hh; apply list_elem_of_singleton in Hh as ->; discriminate.
Defined.

Lemma forced_clear_is_lost_witness :
  let s1 := (scan_tick (inl ([], false)) ∅ SECOND true LaneDemo.congested).2 in
  shown ∅ s1 !! "b" = Some 2%Z ∧ sl_chan s1 = sl_chan LaneDemo.congested ∧
  sl_chan (scan_tick (inl ([], false)) ∅ SECOND true
    (with_chan (LaneDemo.open_chan []) s1)).2 = LaneDemo.open_chan [].
Proof.
  split; [vm_compute; reflexivity|].
  destruct (forced_clear_is_lost ∅ SECOND true LaneDemo.congested) as [H1 H2].
  - reflexivity.
  - reflexivity.
  - apply Nat.leb_le. vm_compute. reflexivity.
  - split; [exact H1|apply H2].
Defined.
