(* ===== verification/Watch.v ===== *)
(** * The process-event watcher (crates/rsrpc-proc-events/src/lib.rs, crates/rsrpc-detect/src/runtime.rs)

    The netlink socket's life: the subscription request and its answer, the
    self-test, the receive loop, and the thread that retries.  What the
    system calls answer and what each load of the stop flag sees are given
    as streams, one element per round.  The loop is a function of what
    [send_checked] does to its sink; the sink itself is the gauge channel of
    Telemetry.v with the dispatcher at its other end, which takes events and
    goes as it likes between two sends. *)

From stdpp Require Import base gmap list list_numbers sets relations.
From coqutil Require Import Byte Word.LittleEndianList.
From S2P Require Import Prelude Telemetry Runtime ProcEvents.

Local Open Scope nat_scope.
Local Open Scope list_scope.

(** ** System calls *)

Inductive Errno := EAgain | EIntr | ENoBufs | EOther (code : Z).

(** What [recv] does; an empty datagram leaves an old errno behind. *)
Inductive Recv := Datagram (bytes : list byte) | Empty (stale : Errno) | Failed (errno : Errno).

(** ** Subscribing *)

Definition NLMSG_MIN_TYPE : Z := 16.
Definition NLM_F_REQUEST : Z := 1.
Definition PROC_CN_MCAST_LISTEN : Z := 1.

(** The framed request: [nlmsghdr], [cn_msg], one [u32]. *)
Definition subscribe_message (pid : Z) : list byte :=
  let payload_len := 4 in
  let total_len := SIZE_NLMSGHDR + SIZE_CN_MSG + payload_len in
  le_split 4 (Z.of_nat total_len) ++ le_split 2 NLMSG_MIN_TYPE ++ le_split 2 NLM_F_REQUEST ++
  le_split 4 0 ++ le_split 4 pid ++
  le_split 4 CN_IDX_PROC ++ le_split 4 CN_VAL_PROC ++ le_split 4 0 ++ le_split 4 0 ++
  le_split 2 (Z.of_nat payload_len) ++ le_split 2 0 ++ le_split 4 PROC_CN_MCAST_LISTEN.

(** The answers to [socket], [bind], [send] and the bounded [recv]. *)
Record Kernel := { k_socket : bool; k_bind : bool; k_send : bool; k_ack : Recv }.

Inductive WatchError :=
  | SocketFailed | BindRefused | SubscribeFailed | SubscribeRefused (code : Z)
  | SelfTestSilent | RecvFailed (errno : Z) (missed : Z).

(** A refusal in the answer: an [NLMSG_ERROR] with a code that is not zero. *)
Definition ack_refusal (ack : list byte) : option Z :=
  if decide (SIZE_NLMSGHDR + 4 ≤ length ack) then
    match le_at 2 4 ack, le_at 4 SIZE_NLMSGHDR ack with
    | Some msg_type, Some code =>
        if (msg_type =? NLMSG_ERROR)%Z && negb (code =? 0)%Z then Some code else None
    | _, _ => None
    end
  else None.

(** [subscribe]: whether an answer came, or why not; and whether the socket
    is left open. *)
Definition subscribe (k : Kernel) : (WatchError + bool) * bool :=
  if negb (k_socket k) then (inl SocketFailed, false)
  else if negb (k_bind k) then (inl BindRefused, false)
  else if negb (k_send k) then (inl SubscribeFailed, false)
  else match k_ack k with
       | Datagram ack =>
           match ack_refusal ack with
           | Some code => (inl (SubscribeRefused code), false)
           | None => (inr true, true)
           end
       | _ => (inr false, true)
       end.

(** ** The self-test *)

Record SelfTestReport := {
  datagrams : nat;
  parsed : nat;
  timeouts : nat;
  fatal_errno : option Errno
}.

Definition SelfTestReport_default : SelfTestReport :=
  {| datagrams := 0; parsed := 0; timeouts := 0; fatal_errno := None |}.

(** [SelfTestReport::live]. *)
Definition report_live (r : SelfTestReport) : bool := bool_decide (0 < parsed r).

Definition is_event (bytes : list byte) : bool :=
  match parse_event bytes with WalkDone (Some _) => true | _ => false end.

(** One round: the report, and whether the probe goes on. *)
Definition probe_round (r : SelfTestReport) (recv : Recv) : SelfTestReport * bool :=
  match recv with
  | Datagram bytes =>
      if is_event bytes then
        ({| datagrams := S (datagrams r); parsed := S (parsed r); timeouts := timeouts r;
            fatal_errno := fatal_errno r |}, false)
      else ({| datagrams := S (datagrams r); parsed := parsed r; timeouts := timeouts r;
               fatal_errno := fatal_errno r |}, true)
  | Empty errno | Failed errno =>
      match errno with
      | ENoBufs => ({| datagrams := S (datagrams r); parsed := S (parsed r); timeouts := timeouts r;
                       fatal_errno := fatal_errno r |}, false)
      | EAgain | EIntr => ({| datagrams := datagrams r; parsed := parsed r; timeouts := S (timeouts r);
                              fatal_errno := fatal_errno r |}, true)
      | EOther _ => ({| datagrams := datagrams r; parsed := parsed r; timeouts := timeouts r;
                        fatal_errno := match fatal_errno r with Some e => Some e | None => Some errno end |},
                     false)
      end
  end.

(** The ten rounds, each after a load of the stop flag. *)
Fixpoint probe_loop (rounds k : nat) (script : nat → bool * Recv) (r : SelfTestReport) : SelfTestReport :=
  match rounds with
  | 0 => r
  | S rounds =>
      let '(stop, recv) := script k in
      if stop then r
      else let '(r, go) := probe_round r recv in
           if go then probe_loop rounds (S k) script r else r
  end.

(** [self_test]: [probe] is whether a child to run was found and spawned. *)
Definition self_test (probe : bool) (script : nat → bool * Recv) : SelfTestReport :=
  if probe then probe_loop 10 0 script SelfTestReport_default else SelfTestReport_default.

(** ** The receive loop *)

Section Watch.
(** [send_checked] with [MAX_WATCH_BACKLOG] on the sink. *)
Context {Q : Type} (emit : Q → ProcEvent → Q * SendChecked).

(** The closure [watch] hands to [forward_proc_events]: the sink, and
    whether its receiver was found gone. *)
Definition watch_emit (st : Q * bool) (ev : ProcEvent) : Q * bool * bool :=
  let '(q, r) := emit st.1 ev in
  match r with
  | Closed => ((q, true), false)
  | Sent | Shed => ((q, st.2), true)
  end.

Inductive WatchEnd := WatchOk | WatchErr (e : WatchError) | WatchPanic.

(** What one round does: ends the watch, or goes on with the tracker and the
    sink.  [stop] is what the load of the flag sees, where it is loaded. *)
Definition watch_round (stop : bool) (recv : Recv) (seqs : SeqTracker) (q : Q)
    : WatchEnd * Q + SeqTracker * Q :=
  match recv with
  | Failed EIntr => inr (seqs, q)
  | Failed EAgain => if stop then inl (WatchOk, q) else inr (seqs, q)
  | Failed ENoBufs => inr (seqs, q)
  | Failed (EOther code) => inl (WatchErr (RecvFailed code (st_missed seqs)), q)
  | Empty _ => inr (seqs, q)
  | Datagram bytes =>
      if stop then inl (WatchOk, q)
      else
        match forward_proc_events watch_emit bytes seqs (q, false) with
        | WalkDone (seqs, (q, gone), _) => if gone then inl (WatchOk, q) else inr (seqs, q)
        | _ => inl (WatchPanic, q)
        end
  end.

(** The loop of [watch], [fuel] rounds of it; [None]: still running. *)
Fixpoint watch_loop (fuel k : nat) (script : nat → bool * Recv) (seqs : SeqTracker) (q : Q)
    : (WatchEnd * Q) + (SeqTracker * Q) :=
  match fuel with
  | 0 => inr (seqs, q)
  | S fuel =>
      match watch_round (script k).1 (script k).2 seqs q with
      | inl done => inl done
      | inr (seqs, q) => watch_loop fuel (S k) script seqs q
      end
  end.

(** [watch]: how it ends, whether the socket is open, and the sink; or, still
    running after [fuel] rounds, the sink.  [pre_stop] and [cut] are the
    loads before the subscription and after the self-test. *)
Definition watch (fuel : nat) (pre_stop cut : bool) (k : Kernel) (probe : bool)
    (test script : nat → bool * Recv) (q : Q) : (WatchEnd * bool * Q) + Q :=
  if pre_stop then inl (WatchOk, false, q)
  else match subscribe k with
       | (inl e, open) => inl (WatchErr e, open, q)
       | (inr _, open) =>
           let report := self_test probe test in
           if cut then inl (WatchOk, false, q)
           else if negb (report_live report) then inl (WatchErr SelfTestSilent, false, q)
           else match watch_loop fuel 0 script SeqTracker_default q with
                | inl (done, q) => inl (done, false, q)
                | inr (_, q) => inr q
                end
       end.

(** ** Properties *)

Lemma watch_round_no_panic stop recv seqs q q' : watch_round stop recv seqs q ≠ inl (WatchPanic, q').
Proof.
  unfold watch_round. destruct recv as [bytes|e|[| | |code]]; try done; [|by destruct stop].
  destruct stop; [done|]. unfold forward_proc_events.
  match goal with |- context [walk_proc_messages ?v ?b ?s] =>
    destruct (walk_proc_messages_total v b s) as [[[? [? gone]] ?] ->] end.
  by destruct gone.
Qed.

Lemma watch_loop_no_panic fuel script : ∀ k seqs q q', watch_loop fuel k script seqs q ≠ inl (WatchPanic, q').
Proof.
  induction fuel as [|fuel IH]; intros k seqs q q'; cbn; [done|].
  pose proof (watch_round_no_panic (script k).1 (script k).2 seqs q q') as Hn.
  destruct (watch_round _ _ _ _) as [[]|[]]; [congruence|]. apply IH.
Qed.

(** The watcher never leaks its socket and never panics: whatever the
    kernel answers and whenever the daemon stops, every way out of [watch],
    refused subscriptions, failed self-tests, broken sockets and departed
    receivers included, leaves the socket closed, and any bytes the kernel
    delivers are read without a panic. *)
Theorem watch_closes_its_socket fuel pre_stop cut k probe test script q :
  match watch fuel pre_stop cut k probe test script q with
  | inl (WatchPanic, _, _) => False
  | inl (_, open, _) => open = false
  | inr _ => True
  end.
Proof.
  unfold watch, subscribe. destruct pre_stop; [done|].
  destruct (k_socket k), (k_bind k), (k_send k); cbn; try done.
  assert (∀ r : bool, match (if cut then inl (WatchOk, false, q)
    else if negb (report_live (self_test probe test)) then inl (WatchErr SelfTestSilent, false, q)
    else match watch_loop fuel 0 script SeqTracker_default q with
         | inl (done, q) => inl (done, false, q) | inr (_, q) => inr q end) with
    | inl (WatchPanic, _, _) => False | inl (_, open, _) => open = false | inr _ => True end) as Htail.
  { intros _. destruct cut; [done|]. destruct (negb _); [done|].
    pose proof (watch_loop_no_panic fuel script 0 SeqTracker_default q) as Hn.
    destruct (watch_loop _ _ _ _ _) as [[[] q']|[]]; try done. by destruct (Hn q'). }
  destruct (k_ack k) as [ack|e|e]; [destruct (ack_refusal ack); [done|]|..]; apply (Htail true).
Qed.

(** Rounds in which the stop flag is not loaded. *)
Definition unchecked (recv : Recv) : bool :=
  match recv with Failed EIntr | Failed ENoBufs | Empty _ => true | _ => false end.

(** The watcher stops when told to.  Once the stop flag is up, the loop
    forwards nothing more, and it returns at the first round that is not a
    signal, an overrun or an empty datagram: a receive deadline, an event
    or a failure is enough. *)
Theorem watch_stops script k seqs q n :
  (∀ i, k ≤ i → (script i).1 = true) →
  (∀ i, k ≤ i < k + n → unchecked (script i).2 = true) → unchecked (script (k + n)).2 = false →
  (∀ fuel, fuel ≤ n → watch_loop fuel k script seqs q = inr (seqs, q)) ∧
  ∀ fuel, n < fuel → ∃ done, watch_loop fuel k script seqs q = inl (done, q).
Proof.
  intros Hstop Hun Hck.
  assert (∀ i, k ≤ i < k + n → watch_round (script i).1 (script i).2 seqs q = inr (seqs, q)) as Hgo.
  { intros i Hi. specialize (Hun i Hi). by destruct (script i).2 as [|?|[]]. }
  assert (∃ done, watch_round (script (k + n)).1 (script (k + n)).2 seqs q = inl (done, q)) as [done Hend].
  { rewrite Hstop by lia. destruct (script (k + n)).2 as [|?|[]]; try done; cbn; eauto. }
  clear Hstop Hun Hck. revert k Hgo Hend. induction n as [|n IH]; intros k Hgo Hend.
  - rewrite Nat.add_0_r in Hend. split; intros [|fuel] Hf; try lia; [done|].
    cbn. rewrite Hend. eauto.
  - destruct (IH (S k)) as [H1 H2].
    + intros i Hi. apply Hgo. lia.
    + by replace (S k + n) with (k + S n) by lia.
    + assert (watch_round (script k).1 (script k).2 seqs q = inr (seqs, q)) as Hk by (apply Hgo; lia).
      split; intros [|fuel] Hf; try done; try lia; cbn; rewrite Hk; [apply H1|apply H2]; lia.
Qed.

(** A round that delivers [ms]: a datagram the kernel wrote, or none. *)
Definition delivers (recv : Recv) (ms : list KernelMsg) : Prop :=
  match recv with
  | Datagram bytes => bytes = concat (map km_encode ms) ∧ Forall km_ok ms
  | Failed (EOther _) => False
  | _ => ms = []
  end.

(** Sending events one after the other, until the receiver is found gone. *)
Fixpoint emit_all (q : Q) (evs : list ProcEvent) : Q * list SendChecked :=
  match evs with
  | [] => (q, [])
  | ev :: evs =>
      match emit q ev with
      | (q, Closed) => (q, [Closed])
      | (q, r) => let '(q, rs) := emit_all q evs in (q, r :: rs)
      end
  end.

Definition found_gone (rs : list SendChecked) : bool :=
  existsb (λ r, match r with Closed => true | _ => false end) rs.

Lemma emit_all_app evs evs' : ∀ q,
  emit_all q (evs ++ evs')
  = let '(q, rs) := emit_all q evs in
    if found_gone rs then (q, rs) else let '(q, rs') := emit_all q evs' in (q, rs ++ rs').
Proof.
  unfold found_gone. induction evs as [|ev evs IH]; intros q; cbn; [by destruct (emit_all q evs')|].
  destruct (emit q ev) as [q1 []]; cbn; [| |done]; rewrite IH;
    destruct (emit_all q1 evs) as [q2 rs]; cbn; destruct (existsb _ rs); try done;
    by destruct (emit_all q2 evs').
Qed.

Lemma forward_all ms : ∀ seqs q n, ∃ seqs' n',
  visit_all (forward_visit watch_emit) (seqs, (q, false), n) ms
  = (seqs', ((emit_all q (omap km_event ms)).1, found_gone (emit_all q (omap km_event ms)).2), n').
Proof.
  induction ms as [|m ms IH]; intros seqs q n; [cbn; eauto|]. cbn [visit_all omap list_omap].
  unfold forward_visit at 1. destruct (note seqs (km_cpu m) (km_seq m)) as [seqs1 miss].
  destruct (km_event m) as [ev|]; [|apply IH]. unfold watch_emit at 1. cbn [fst snd emit_all].
  destruct (emit q ev) as [q1 []]; [| |cbn; eauto];
    (destruct (IH seqs1 q1 (S n)) as (s' & n' & E); exists s', n'; rewrite E;
     by destruct (emit_all q1 (omap km_event ms))).
Qed.

Lemma watch_round_delivers recv ms seqs q :
  delivers recv ms →
  let '(q', rs) := emit_all q (omap km_event ms) in
  if found_gone rs then watch_round false recv seqs q = inl (WatchOk, q')
  else ∃ seqs', watch_round false recv seqs q = inr (seqs', q').
Proof.
  destruct recv as [bytes|e|[| | |code]]; cbn [delivers]; try (intros ->; cbn; eauto); [|by intros []].
  intros [-> Hok]. unfold watch_round, forward_proc_events. rewrite walk_encoded by done.
  destruct (forward_all ms seqs q 0) as (seqs' & n' & ->).
  destruct (emit_all q (omap km_event ms)) as [q' rs]. cbn [fst snd].
  destruct (found_gone rs); [done|]. eauto.
Qed.

(** The loop sends the delivered events one after the other. *)
Lemma watch_loop_emits script msgs n : ∀ k seqs q,
  (∀ i, k ≤ i < k + n → (script i).1 = false ∧ delivers (script i).2 (msgs i)) →
  let '(q', rs) := emit_all q (omap km_event (concat (msgs <$> seq k n))) in
  if found_gone rs then watch_loop n k script seqs q = inl (WatchOk, q')
  else ∃ seqs', watch_loop n k script seqs q = inr (seqs', q').
Proof.
  induction n as [|n IH]; intros k seqs q Hd; [cbn; eauto|]. cbn [watch_loop seq fmap list_fmap concat].
  rewrite omap_app, emit_all_app. destruct (Hd k ltac:(lia)) as [-> Hk].
  pose proof (watch_round_delivers _ _ seqs q Hk) as Hr.
  destruct (emit_all q (omap km_event (msgs k))) as [q1 rs1].
  destruct (found_gone rs1) eqn:Eg; [by rewrite Eg, Hr|]. destruct Hr as [seqs1 ->].
  specialize (IH (S k) seqs1 q1 ltac:(intros i Hi; apply Hd; lia)).
  destruct (emit_all q1 _) as [q2 rs2].
  assert (found_gone (rs1 ++ rs2) = found_gone rs2) as ->; [|done].
  unfold found_gone in *. by rewrite existsb_app, Eg.
Qed.
End Watch.

(** ** The sink *)

Definition MAX_WATCH_BACKLOG : Z := 1024.

(** [GaugeSender::send_checked] by the only sender. *)
Definition send_checked {A} (cap : Z) (v : A) (c : Chan) : Chan * SendChecked :=
  if (cap <=? ch_depth c)%Z then
    if ch_live c then (shed c, Shed) else (c, Closed)
  else
    let c := inc c in
    if ch_open c then (Telemetry.set_queue (ch_queue c ++ [v]) c, Sent) else (dec c, Closed).

(** It is what a sender of the concurrent machine does when its operations
    follow each other. *)
Lemma send_checked_runs {A} cap (v : A) c :
  rtc (λ x y, thread_step x.1 x.2 y.1 y.2) (c, CkLoad v cap)
    ((send_checked cap v c).1, Returned (send_checked cap v c).2).
Proof.
  unfold send_checked. destruct (Z.leb_spec cap (ch_depth c)) as [Hle|Hlt].
  - apply (rtc_l _ _ (c, CkFull)); [by apply ts_load_full|]. destruct (ch_live c) eqn:El; cbn.
    + apply (rtc_l _ _ (c, CkShed)); [by apply ts_full_shed|]. apply rtc_once, ts_shed.
    + by apply rtc_once, ts_full_closed.
  - apply (rtc_l _ _ (c, CkCas v cap (ch_depth c))); [by apply ts_load|].
    apply (rtc_l _ _ (inc c, CkPush v)); [by apply ts_cas|].
    cbv zeta. destruct (ch_open (inc c)) eqn:Eo; cbn [fst snd].
    + by apply rtc_once, ts_ck_push.
    + apply (rtc_l _ _ (inc c, CkUndo)); [by apply ts_ck_push_fail|]. apply rtc_once, ts_ck_undo.
Qed.

(** The channel, where its receiver is, what the receiver took, and what
    each send came to, with the depth it saw. *)
Record WatchSink := {
  wk_chan : @Chan ProcEvent;
  wk_receiver : @pc ProcEvent;
  wk_got : list ProcEvent;
  wk_log : list (ProcEvent * SendChecked * Z)
}.

Definition sink_new : WatchSink :=
  {| wk_chan := pair_new; wk_receiver := Idle; wk_got := []; wk_log := [] |}.

(** The program points of [recv] and of the receiver's drop. *)
Definition receiver_point (p : @pc ProcEvent) : bool :=
  match p with Idle | RecvPop | RecvDec | DropLive | DropChan => true | _ => false end.

(** One atomic operation of the dispatcher on its end. *)
Inductive receiver_step (q : WatchSink) : WatchSink → Prop :=
  | rs_step c p :
      thread_step (wk_chan q) (wk_receiver q) c p → receiver_point p = true →
      receiver_step q {| wk_chan := c; wk_receiver := p;
        wk_got := wk_got q ++ match wk_receiver q with
                              | RecvPop => take 1 (ch_queue (wk_chan q))
                              | _ => []
                              end;
        wk_log := wk_log q |}.

Section Dispatcher.
(** What the dispatcher does before the [k]-th send. *)
Variable dispatcher : nat → WatchSink → WatchSink.

Definition gauge_emit (q : WatchSink) (ev : ProcEvent) : WatchSink * SendChecked :=
  let q := dispatcher (length (wk_log q)) q in
  let '(c, r) := send_checked MAX_WATCH_BACKLOG ev (wk_chan q) in
  ({| wk_chan := c; wk_receiver := wk_receiver q; wk_got := wk_got q;
      wk_log := wk_log q ++ [(ev, r, ch_depth (wk_chan q))] |}, r).
End Dispatcher.

#[global] Instance SendChecked_eq_dec : EqDecision SendChecked.
Proof. solve_decision. Defined.

(** The events that went into the channel, and the number shed. *)
Definition sent_events (log : list (ProcEvent * SendChecked * Z)) : list ProcEvent :=
  omap (λ x, match x.1.2 with Sent => Some x.1.1 | _ => None end) log.
Definition shed_count (log : list (ProcEvent * SendChecked * Z)) : nat :=
  length (base.filter (λ x, x.1.2 = Shed) log).

#[local] Arguments sent_events : simpl never.
#[local] Arguments shed_count : simpl never.

(** What was sent arrives in order; what was shed was shed at a full
    backlog and is counted. *)
Record sink_ok (q : WatchSink) : Prop := {
  sk_receiver : receiver_point (wk_receiver q) = true;
  sk_open : ch_open (wk_chan q) = true →
    wk_got q ++ ch_queue (wk_chan q) = sent_events (wk_log q) ∧
    ch_depth (wk_chan q) = Z.of_nat (length (ch_queue (wk_chan q))
      + match wk_receiver q with RecvDec => 1 | _ => 0 end);
  sk_got : wk_got q `prefix_of` sent_events (wk_log q);
  sk_cap : (0 ≤ ch_depth (wk_chan q) ≤ MAX_WATCH_BACKLOG)%Z;
  sk_closed : ch_open (wk_chan q) = false → ch_live (wk_chan q) = false ∧ wk_receiver q ≠ RecvDec;
  sk_dropping : wk_receiver q = DropChan → ch_live (wk_chan q) = false;
  sk_dropped : ch_dropped (wk_chan q) = wrap_u64 (Z.of_nat (shed_count (wk_log q)));
  sk_shed : Forall (λ x, x.1.2 = Shed → x.2 = MAX_WATCH_BACKLOG) (wk_log q)
}.

Lemma receiver_step_ok q q' : receiver_step q q' → sink_ok q → sink_ok q'.
Proof.
  intros [c p Hst Hp] [Hr Ho Hg Hc Hcl Hd Hdr Hs]. destruct q as [ch rp got log]. cbn in *.
  inversion Hst as [| | | | | | | | | | | | | | | | | |c0 v queue Hopen Hq|c0|c0|c0]; subst; cbn in *;
    try done.
  - constructor; cbn; rewrite ?app_nil_r; try done. intros Hn. by destruct (Hcl Hn).
  - constructor; cbn; rewrite ?app_nil_r; try done. intros Hn. by destruct (Hcl Hn).
  - destruct (Ho Hopen) as [E1 E2]. rewrite Hq in *. cbn in *.
    constructor; cbn; try done; [|by exists queue; rewrite <-app_assoc; cbn|intros; congruence].
    intros _. rewrite <-app_assoc. split; [done|]. lia.
  - destruct (ch_open ch) eqn:Eo; [|by destruct Hcl].
    destruct (Ho eq_refl) as [E1 E2]. unfold MAX_WATCH_BACKLOG in *.
    assert (wrap_u64 (ch_depth ch - 1) = ch_depth ch - 1)%Z as Ew
      by (apply wrap_u64_id; unfold is_u64; int_lia).
    constructor; cbn; unfold MAX_WATCH_BACKLOG; rewrite ?app_nil_r, ?Ew; try done; try lia;
      [|intros; congruence].
    intros _. split; [done|]. lia.
  - constructor; cbn; rewrite ?app_nil_r; try done.
  - constructor; cbn; rewrite ?app_nil_r; try done. intros _. split; [by apply Hd|done].
Qed.

Section DispatcherOk.
Variable dispatcher : nat → WatchSink → WatchSink.
Hypothesis Hdispatcher : ∀ k q, rtc receiver_step q (dispatcher k q).

Lemma dispatcher_keeps k q :
  sink_ok q → sink_ok (dispatcher k q) ∧ wk_log (dispatcher k q) = wk_log q.
Proof.
  induction (Hdispatcher k q) as [|q1 q2 q3 Hst _ IH]; [done|]. intros Hok.
  destruct IH as [? E]; [by eapply receiver_step_ok|]. split; [done|]. rewrite E.
  by destruct Hst.
Qed.

Lemma gauge_emit_ok q ev q' r :
  gauge_emit dispatcher q ev = (q', r) → sink_ok q →
  sink_ok q' ∧ ∃ d, wk_log q' = wk_log q ++ [(ev, r, d)].
Proof.
  unfold gauge_emit. intros E Hq. destruct (dispatcher_keeps (length (wk_log q)) q Hq) as [Hok Hl].
  set (q1 := dispatcher _ q) in *. rewrite <-Hl.
  destruct (send_checked _ ev (wk_chan q1)) as [c r'] eqn:Es. injection E as <- <-.
  split; [|by eexists]. clearbody q1. clear Hl Hq q. unfold send_checked in Es.
  destruct Hok as [Hr Ho Hg Hc Hcl Hd Hdr Hs]. unfold MAX_WATCH_BACKLOG in *.
  assert (∀ r d, sent_events (wk_log q1 ++ [(ev, r, d)])
    = sent_events (wk_log q1) ++ match r with Sent => [ev] | _ => [] end) as Hse.
  { intros r d. unfold sent_events. rewrite omap_app. by destruct r. }
  assert (∀ r d, shed_count (wk_log q1 ++ [(ev, r, d)])
    = shed_count (wk_log q1) + match r with Shed => 1 | _ => 0 end) as Hsc.
  { intros r d. unfold shed_count. rewrite filter_app, length_app. by destruct r. }
  destruct (Z.leb_spec 1024 (ch_depth (wk_chan q1))) as [Hle|Hlt];
    [destruct (ch_live (wk_chan q1)) eqn:El|destruct (ch_open (inc (wk_chan q1))) eqn:Eo];
    injection Es as <- <-; constructor; cbn in *; unfold MAX_WATCH_BACKLOG; rewrite ?Hse, ?Hsc, ?app_nil_r, ?Nat.add_0_r; try done;
    try (apply Forall_app; split; [done|]; repeat constructor; cbn; try done; lia).
  - intros Hop. by destruct (Hcl Hop).
  - intros Hdc. by rewrite Hd in El.
  - rewrite Hdr, Nat2Z.inj_add. unfold wrap_u64. rewrite Zplus_mod_idemp_l. done.
  - intros Hop. by destruct (Hcl Hop).
  - intros Hop. destruct (Ho Hop) as [E1 E2]. rewrite app_assoc, E1, length_app. split; [done|].
    rewrite wrap_u64_id by (unfold is_u64; int_lia). cbn. lia.
  - by apply prefix_app_r.
  - rewrite wrap_u64_id by (unfold is_u64; int_lia). lia.
  - intros Hop. congruence.
  - rewrite (wrap_u64_id (ch_depth (wk_chan q1) + 1)) by (unfold is_u64; int_lia).
    rewrite wrap_u64_id by (unfold is_u64; int_lia). lia.
Qed.

Lemma emit_all_ok evs : ∀ q q' rs,
  emit_all (gauge_emit dispatcher) q evs = (q', rs) → sink_ok q →
  sink_ok q' ∧ (∃ ds, length ds = length rs ∧
    wk_log q' = wk_log q ++ zip (zip (take (length rs) evs) rs) ds) ∧
  if found_gone rs then length rs ≤ length evs ∧ ∃ rs0, rs = rs0 ++ [Closed] ∧ Closed ∉ rs0
  else length rs = length evs ∧ Closed ∉ rs.
Proof.
  induction evs as [|ev evs IH]; intros q q' rs; cbn.
  { intros [= <- <-] Hok. split; [done|]. split; [exists []; by rewrite app_nil_r|].
    split; [done|apply not_elem_of_nil]. }
  destruct (gauge_emit dispatcher q ev) as [q1 r] eqn:E. intros Ea Hq.
  destruct (gauge_emit_ok _ _ _ _ E Hq) as [Hq1 [d Hd]].
  destruct (decide (r = Closed)) as [->|Hr].
  { injection Ea as <- <-. split; [done|]. split; [exists [d]; by rewrite Hd|].
    cbn. split; [lia|]. exists []. split; [done|apply not_elem_of_nil]. }
  destruct (emit_all (gauge_emit dispatcher) q1 evs) as [q2 rs2] eqn:E2.
  assert ((q', rs) = (q2, r :: rs2)) as [= -> ->] by (by destruct r).
  destruct (IH _ _ _ E2 Hq1) as (Hq2 & (ds & Hl & Hlog) & Hg). split; [done|]. split.
  - exists (d :: ds). cbn. split; [by rewrite Hl|]. by rewrite Hlog, Hd, <-app_assoc.
  - assert (found_gone (r :: rs2) = found_gone rs2) as -> by (by destruct r).
    destruct (found_gone rs2).
    + destruct Hg as (Hle & rs0 & -> & Hn). cbn. split; [lia|]. exists (r :: rs0).
      split; [done|]. rewrite not_elem_of_cons. auto.
    + destruct Hg as [Hle Hn]. cbn. split; [lia|]. rewrite not_elem_of_cons. auto.
Qed.

(** C30: What the watcher forwards is what the kernel reported.  As long as
    the stop flag is down and what the socket brings is connector datagrams
    the kernel wrote, signals, deadlines, overruns and empty datagrams, no
    other failure, the watcher offers the executions and exits of the
    messages delivered to the dispatcher's queue, each once and in order,
    from however many datagrams they came in.  Each offer is sent, or shed:
    then 1024 events were waiting or just being taken, and it is counted.
    What was sent reaches the dispatcher in that order.  The watch runs on,
    with every event offered, unless an offer finds the dispatcher gone,
    which ends it without an error. *)
Theorem watch_forwards_kernel_events script msgs n seqs q :
  sink_ok q → (∀ i, i < n → (script i).1 = false ∧ delivers (script i).2 (msgs i)) →
  let evs := omap km_event (concat (msgs <$> seq 0 n)) in
  ∃ q' rs ds,
    sink_ok q' ∧ length ds = length rs ∧
    wk_log q' = wk_log q ++ zip (zip (take (length rs) evs) rs) ds ∧
    ((∃ seqs', watch_loop (gauge_emit dispatcher) n 0 script seqs q = inr (seqs', q')) ∧
       length rs = length evs ∧ Closed ∉ rs ∨
     watch_loop (gauge_emit dispatcher) n 0 script seqs q = inl (WatchOk, q') ∧
       length rs ≤ length evs ∧ ∃ rs0, rs = rs0 ++ [Closed] ∧ Closed ∉ rs0).
Proof.
  intros Hq Hd. cbv zeta. set (evs := omap _ _).
  pose proof (watch_loop_emits (gauge_emit dispatcher) script msgs n 0 seqs q) as Hl.
  fold evs in Hl. specialize (Hl ltac:(intros i Hi; apply Hd; lia)).
  destruct (emit_all _ q evs) as [q' rs] eqn:E.
  destruct (emit_all_ok _ _ _ _ E Hq) as (Hq' & (ds & Hlen & Hlog) & Hg).
  exists q', rs, ds. split_and!; [done..|]. destruct (found_gone rs); [right|left]; by split.
Qed.
End DispatcherOk.

(** ** The retry thread (runtime.rs) *)

(** What the thread does that others see. *)
Inductive RetryEvent := SetLive (live : bool) | WakeScan | ParkRetry | RetryEnds.

(** The loop of the retry thread, [fuel] attempts of it: [stop] is what its
    two loads of the flag see in an attempt, [ends] how [watch] ends. *)
Fixpoint retry_loop (fuel k : nat) (stop : nat → bool * bool) (ends : nat → bool) : list RetryEvent :=
  match fuel with
  | 0 => []
  | S fuel =>
      if (stop k).1 then [RetryEnds]
      else SetLive true ::
           (if ends k then [SetLive false; RetryEnds]
            else SetLive false :: WakeScan ::
                 (if (stop k).2 then [RetryEnds] else ParkRetry :: retry_loop fuel (S k) stop ends))
  end.

(** Believed up, after a trace. *)
Definition believed (evs : list RetryEvent) (live : bool) : bool :=
  foldl (λ live ev, match ev with SetLive b => b | _ => live end) live evs.

Lemma believed_app a b live : believed (a ++ b) live = believed b (believed a live).
Proof. apply foldl_app. Qed.

(** Without a watcher the scan never backs off.  However often the watch
    fails, whenever the retry thread parks or has ended it has said that
    the watcher is down, after waking the scan thread, so the cadence of
    the scan is then the configured one. *)
Theorem polling_only_keeps_the_cadence fuel stop ends before ev after base idle :
  retry_loop fuel 0 stop ends = before ++ ev :: after → ev = ParkRetry ∨ ev = RetryEnds →
  believed before false = false ∧ scan_cadence base idle (believed before false) = base ∧
  (ev = ParkRetry → ∃ front, before = front ++ [SetLive false; WakeScan]).
Proof.
  intros E Hev.
  enough (∀ k, retry_loop fuel k stop ends = before ++ ev :: after →
    (∀ live, before ≠ [] → believed before live = false) ∧
    (ev = ParkRetry → ∃ front, before = front ++ [SetLive false; WakeScan])) as Hk.
  { destruct (Hk 0 E) as [Hb Hp]. assert (believed before false = false) as Hf
      by (destruct before; [done|by apply Hb]). rewrite Hf. done. }
  clear E. revert before. induction fuel as [|fuel IH]; intros before k E; [by destruct before|].
  cbn [retry_loop] in E. destruct (stop k).1.
  { destruct before as [|x [|]]; simplify_eq/=. split; [done|discriminate]. }
  destruct (ends k).
  { destruct before as [|x [|y [|z [|]]]]; simplify_eq/=; try (destruct Hev; discriminate). split; [done|discriminate]. }
  destruct (stop k).2.
  { destruct before as [|x [|y [|z [|w [|]]]]]; simplify_eq/=; try (destruct Hev; discriminate). split; [done|discriminate]. }
  destruct before as [|x [|y [|z [|w before]]]]; simplify_eq/=; try (destruct Hev; discriminate).
  - split; [done|]. intros _. by exists [SetLive true].
  - destruct (IH before (S k)) as [Hb Hp]; [done|]. split.
    + intros live _. destruct before; [done|]. by apply Hb.
    + intros He. destruct (Hp He) as [front ->]. by exists (SetLive true :: SetLive false :: WakeScan :: ParkRetry :: front).
Qed.

(** ** Witnesses *)

Definition demo_script (i : nat) : bool * Recv :=
  match i with
  | 0 => (false, Datagram (km_encode demo_exec))
  | 1 => (false, Failed ENoBufs)
  | 2 => (true, Failed EIntr)
  | _ => (true, Failed EAgain)
  end.

Definition listen (q : list ProcEvent) (ev : ProcEvent) : list ProcEvent * SendChecked := (q ++ [ev], Sent).

Lemma watch_stops_witness :
  watch_loop listen 1 2 demo_script SeqTracker_default [] = inr (SeqTracker_default, []) ∧
  ∃ done, watch_loop listen 2 2 demo_script SeqTracker_default [] = inl (done, []).
Proof.
  destruct (watch_stops listen demo_script 2 SeqTracker_default [] 1) as [H1 H2].
  - intros [|[|[|i]]] Hi; try reflexivity; lia.
  - intros i Hi. assert (i = 2) as -> by lia. reflexivity.
  - reflexivity.
  - split; [apply (H1 1); lia|apply (H2 2); lia].
Defined.

Lemma sink_new_ok : sink_ok sink_new.
Proof. by constructor. Qed.

Lemma watch_forwards_kernel_events_witness :
  ∃ seqs q, watch_loop (gauge_emit (λ _ q, q)) 2 0 demo_script SeqTracker_default sink_new
      = inr (seqs, q) ∧ ch_queue (wk_chan q) = [ProcEvents.Exec 1234] ∧ sink_ok q.
Proof.
  destruct (watch_forwards_kernel_events (λ _ q, q) (λ _ _, rtc_refl _ _) demo_script
    (λ i, match i with 0 => [demo_exec] | _ => [] end) 2 SeqTracker_default sink_new)
    as (q' & rs & ds & Hok & _ & _ & [[[seqs' E] _]|[E _]]).
  - exact sink_new_ok.
  - intros [|[|i]] Hi; [split; [reflexivity|]|split; reflexivity|lia].
    split; [cbn [map concat]; by rewrite app_nil_r|]. constructor; [|constructor].
    unfold km_ok. simpl. unfold PROC_EVENT_EXEC. int_lia.
  - exists seqs', q'. split; [exact E|]. split; [|exact Hok].
    vm_compute in E. injection E as _ <-. vm_compute. reflexivity.
  - exfalso. vm_compute in E. discriminate.
Defined.

Lemma polling_only_keeps_the_cadence_witness :
  scan_cadence 5 3 (believed [SetLive true; SetLive false; WakeScan] false) = 5%Z.
Proof.
  apply (polling_only_keeps_the_cadence 2 (λ k, (bool_decide (k = 1), false)) (λ _, false)
    [SetLive true; SetLive false; WakeScan] ParkRetry [RetryEnds] 5 3); [reflexivity|by left].
Defined.
