(* ===== verification/Workers.v ===== *)
(** * Stopping the scanner's threads (crates/rsrpc-detect/src/runtime.rs)

    The refresh, scan and watcher-retry threads sleep in [park_timeout] and
    are stopped by a flag and an unpark.  One such thread runs here beside
    [ShutdownHandle::signal] and beside other unparks (tracked exits, a
    failed watcher): every interleaving of their atomic steps is a run.  A
    permit stored by an unpark is consumed by the next park, as in
    [std::thread]. *)

From stdpp Require Import base list relations sets.
From S2P Require Import Prelude.

Local Open Scope nat_scope.
Local Open Scope list_scope.

(** ** Threads *)

(** What a thread does between the points that matter here: registers for
    unparks; loads the flag and leaves when it is up; works; parks. *)
Inductive Action := Register | Check | Work | Park.

#[global] Instance Action_eq_dec : EqDecision Action.
Proof. solve_decision. Defined.

(** A thread: its start, and the iterations its loop can make. *)
Record Thread := { th_start : list Action; th_bodies : list (list Action) }.

(** [rsrpc-refresh]: an installed database parks once more before its second
    trim, unless shutdown came first. *)
Definition refresh_thread : Thread := {|
  th_start := [Register; Check; Work];
  th_bodies := [[Check; Park; Check; Work]; [Check; Park; Check; Work; Check; Park; Check; Work]] |}.

(** [rsrpc-scan]; a failed scan waits its cadence with no check in
    between. *)
Definition scan_thread : Thread := {|
  th_start := [Register];
  th_bodies := [[Check; Work; Check; Park; Check]; [Check; Work; Park]] |}.

(** [rsrpc-watch]: [watch] itself returns when the flag is up. *)
Definition watch_thread : Thread := {|
  th_start := [Register];
  th_bodies := [[Check; Work; Check; Park]] |}.

(** ** Runs *)

(** Where [signal] is: not called, flag stored, registered threads
    unparked. *)
Inductive SignalAt := Unsignalled | Stored | Signalled.

Record Worker := {
  w_code : list Action;
  w_registered : bool;
  w_permit : bool;
  w_parked : bool;
  w_ended : bool;
  w_flag : bool;
  w_signal : SignalAt
}.

Definition Worker_new (th : Thread) : Worker := {|
  w_code := th_start th; w_registered := false; w_permit := false; w_parked := false;
  w_ended := false; w_flag := false; w_signal := Unsignalled |}.

(** The thread's next step; [body] is the iteration a loop that comes round
    makes.  A parked thread wakes on a permit, or at its deadline when
    [timeout]. *)
Definition thread_step (timeout : bool) (body : list Action) (w : Worker) : option Worker :=
  let upd code registered permit parked ended :=
    {| w_code := code; w_registered := registered; w_permit := permit; w_parked := parked;
       w_ended := ended; w_flag := w_flag w; w_signal := w_signal w |} in
  if w_ended w then None
  else match w_code w with
       | [] => Some (upd body (w_registered w) (w_permit w) false false)
       | Register :: code => Some (upd code true (w_permit w) false false)
       | Check :: code =>
           if w_flag w then Some (upd [] (w_registered w) (w_permit w) false true)
           else Some (upd code (w_registered w) (w_permit w) false false)
       | Work :: code => Some (upd code (w_registered w) (w_permit w) false false)
       | Park :: code =>
           if w_permit w then Some (upd code (w_registered w) false false false)
           else if w_parked w then
             if timeout then Some (upd code (w_registered w) false false false) else None
           else Some (upd (w_code w) (w_registered w) false true false)
       end.

(** [signal]: the flag, then the unparks; and an unpark by someone else. *)
Definition store_flag (w : Worker) : Worker :=
  {| w_code := w_code w; w_registered := w_registered w; w_permit := w_permit w; w_parked := w_parked w;
     w_ended := w_ended w; w_flag := true; w_signal := Stored |}.

Definition unpark (signal : SignalAt) (w : Worker) : Worker :=
  {| w_code := w_code w; w_registered := w_registered w; w_permit := w_permit w || w_registered w;
     w_parked := w_parked w; w_ended := w_ended w; w_flag := w_flag w; w_signal := signal |}.

Inductive worker_step (th : Thread) : Worker → Worker → Prop :=
  | step_thread timeout body w w' :
      body ∈ th_bodies th → thread_step timeout body w = Some w' → worker_step th w w'
  | step_store w : w_signal w = Unsignalled → worker_step th w (store_flag w)
  | step_signal w : w_signal w = Stored → worker_step th w (unpark Signalled w)
  | step_unpark w : worker_step th w (unpark (w_signal w) w).

(** ** Guarded threads *)

(** Between a park and the one before it there is a check. *)
Fixpoint guarded (checked : bool) (code : list Action) : bool :=
  match code with
  | [] => true
  | Park :: code => checked && guarded false code
  | Check :: code => guarded true code
  | _ :: code => guarded checked code
  end.

(** The thread parks before it loads the flag again. *)
Fixpoint parks_next (code : list Action) : bool :=
  match code with
  | Park :: _ => true
  | Work :: code => parks_next code
  | _ => false
  end.

(** A thread registers first and once, guards its parks and loads the flag in
    every iteration. *)
Definition thread_ok (th : Thread) : bool :=
  match th_start th with
  | Register :: code => guarded false code && bool_decide (Register ∉ code)
  | _ => false
  end &&
  forallb (λ body, guarded false body && bool_decide (Register ∉ body) && bool_decide (Check ∈ body))
    (th_bodies th).

(** The threads [shutdown] has to wake. *)
Definition scanner_threads : list Thread := [refresh_thread; scan_thread; watch_thread].

Lemma threads_ok th : th ∈ scanner_threads → thread_ok th = true.
Proof. intros Hth. assert (Forall (λ th, thread_ok th = true) scanner_threads) as H by repeat constructor.
  by eapply Forall_forall in H. Qed.

Section Guarded.
Context (th : Thread).
Hypothesis Hth : thread_ok th = true.

Lemma bodies_ok body :
  body ∈ th_bodies th → guarded false body = true ∧ (Register ∉ body) ∧ Check ∈ body.
Proof.
  intros Hb. unfold thread_ok in Hth. apply andb_true_iff in Hth as [_ H].
  rewrite forallb_forall in H. apply list_elem_of_In, H in Hb.
  by apply andb_true_iff in Hb as [[? ?%bool_decide_eq_true]%andb_true_iff ?%bool_decide_eq_true].
Qed.

(** What every reachable state has: a thread past its registration, parks
    guarded by the check before them, and a permit for whoever is about to
    sleep through a signal. *)
Record worker_inv (w : Worker) : Prop := {
  wi_start : w_registered w = false → ∃ code, w_code w = Register :: code ∧ guarded false code = true ∧ (Register ∉ code);
  wi_registered : w_registered w = true → guarded true (w_code w) = true ∧ (Register ∉ w_code w);
  wi_flag : w_flag w = true ↔ w_signal w ≠ Unsignalled;
  wi_parked : w_parked w = true → ∃ code, w_code w = Park :: code;
  wi_permit : w_signal w = Signalled → parks_next (w_code w) = true → w_permit w = true
}.

Lemma guarded_weaken code : guarded false code = true → guarded true code = true.
Proof. induction code as [|[] code IH]; cbn; auto; done. Qed.

Lemma guarded_head code : guarded false code = true → parks_next code = false.
Proof. by induction code as [|[] code IH]. Qed.

(** Right after a park, or where a loop comes round. *)
Lemma fresh_code_inv code w :
  worker_inv w → guarded false code = true → Register ∉ code →
  worker_inv {| w_code := code; w_registered := true; w_permit := w_permit w; w_parked := false;
    w_ended := false; w_flag := w_flag w; w_signal := w_signal w |} ∧
  worker_inv {| w_code := code; w_registered := true; w_permit := false; w_parked := false;
    w_ended := false; w_flag := w_flag w; w_signal := w_signal w |}.
Proof.
  intros Hi Hg Hr. split; (constructor; cbn; [done| |apply Hi|done|]);
    try (by split; [apply guarded_weaken|]); by rewrite guarded_head.
Qed.

Lemma worker_new_inv : worker_inv (Worker_new th).
Proof.
  unfold thread_ok in Hth. destruct (th_start th) as [|[] code] eqn:Es; try done.
  apply andb_true_iff in Hth as [[Hg Hr%bool_decide_eq_true]%andb_true_iff _].
  constructor; cbn; rewrite ?Es; try done. eauto.
Qed.

Lemma thread_step_inv timeout body w w' :
  body ∈ th_bodies th → thread_step timeout body w = Some w' → worker_inv w → worker_inv w'.
Proof.
  intros (Hg & Hr & _)%bodies_ok E Hi. pose proof Hi as [Hst Hre Hfl Hpa Hpe]. unfold thread_step in E.
  destruct (w_ended w); [done|]. destruct (w_registered w) eqn:Ereg.
  - destruct (Hre eq_refl) as [Hgu Hno]. clear Hst Hre.
    destruct (w_code w) as [|a code] eqn:Ec; [injection E as <-; by apply fresh_code_inv|].
    apply not_elem_of_cons in Hno as [Ha Hno]. destruct a; cbn [guarded parks_next andb] in *; [done|..].
    + destruct (w_flag w) eqn:Ef; injection E as <-; constructor; cbn; try done.
      * split; [done|]. apply not_elem_of_nil.
      * intros Hs. rewrite Hs in Hfl. assert (false = true) by (by apply Hfl). done.
    + injection E as <-. by constructor.
    + destruct (fresh_code_inv code w Hi Hgu Hno) as [_ Hnext].
      destruct (w_permit w) eqn:Ep; [by injection E as <-|].
      destruct (w_parked w); [destruct timeout; [by injection E as <-|done]|].
      injection E as <-. constructor; cbn; try done; [|eauto].
      intros _. split; [done|]. by apply not_elem_of_cons.
  - destruct (Hst eq_refl) as (code & Ec & Hgu & Hno). rewrite Ec in E. injection E as <-.
    by apply fresh_code_inv.
Qed.

Lemma worker_step_inv w w' : worker_step th w w' → worker_inv w → worker_inv w'.
Proof.
  intros [timeout body w1 w2 Hb E|w1 Hs|w1 Hs|w1] Hi; [by eapply thread_step_inv| | |];
    destruct Hi as [Hst Hre Hfl Hpa Hpe]; constructor; cbn; try done.
  - rewrite Hfl, Hs. done.
  - intros _ E. destruct (w_registered w1) eqn:Er; [apply orb_true_r|].
    destruct (Hst eq_refl) as (? & Ec & _). by rewrite Ec in E.
  - intros H1 H2. by rewrite Hpe.
Qed.

Lemma worker_reachable_inv w : rtc (worker_step th) (Worker_new th) w → worker_inv w.
Proof.
  intros H. pose proof worker_new_inv as Hi. revert Hi. induction H; eauto using worker_step_inv.
Qed.
End Guarded.

(** ** No sleep outlasts a shutdown *)

(** C20: No thread sleeps through a shutdown.  Whatever the interleaving, a
    signal that lands while a thread starts, works, is about to park or is
    parked included, once [signal] has returned a thread that is parked
    holds a permit: it wakes at once instead of waiting out its hour. *)
Theorem no_lost_shutdown th w :
  th ∈ scanner_threads → rtc (worker_step th) (Worker_new th) w →
  w_signal w = Signalled → w_parked w = true → w_permit w = true.
Proof.
  intros Hth%threads_ok Hi%worker_reachable_inv Hs Hp; [|done]. apply (wi_permit w Hi Hs).
  by destruct (wi_parked w Hi Hp) as [code ->].
Qed.

(** The thread on its own for [n] steps, no deadline reached. *)
Fixpoint alone (n : nat) (body : list Action) (w : Worker) : Worker :=
  match n with
  | 0 => w
  | S n => match thread_step false body w with Some w' => alone n body w' | None => w end
  end.

Lemma alone_add m n body w : alone (m + n) body w = alone n body (alone m body w).
Proof.
  revert w. induction m as [|m IH]; intros w; [done|]. cbn.
  destruct (thread_step false body w) eqn:E; [done|]. destruct n; [done|]. cbn. by rewrite E.
Qed.

Lemma alone_ended n body w : w_ended w = true → w_ended (alone n body w) = true.
Proof. intros H. destruct n; [done|]. cbn. unfold thread_step. by rewrite H. Qed.

Section Ends.
Context (th : Thread) (body : list Action).
Hypothesis (Hth : thread_ok th = true) (Hbody : body ∈ th_bodies th).

(** A thread that has been signalled, and not left yet. *)
Definition leaving (w : Worker) : Prop := worker_inv w ∧ w_signal w = Signalled ∧ w_ended w = false.

Lemma leaving_flag w : leaving w → w_flag w = true.
Proof. intros (Hi & Hs & _). apply Hi. by rewrite Hs. Qed.

(** One step towards the next check. *)
Lemma leaving_step w a code :
  leaving w → w_code w = a :: code →
  ∃ w', thread_step false body w = Some w' ∧
    (a = Check ∧ w_ended w' = true ∨ a ≠ Check ∧ leaving w' ∧ w_code w' = code).
Proof.
  intros Hl Ec. pose proof (leaving_flag w Hl) as Hf. destruct Hl as (Hi & Hs & He).
  assert (∀ w', thread_step false body w = Some w' → worker_inv w') as Hn
    by (intros w' E; by eapply thread_step_inv).
  revert Hn. unfold thread_step, leaving. rewrite He, Ec, Hf. destruct a.
  - intros Hn. eexists. split; [done|]. right. split_and!; [done|by apply Hn|done..].
  - intros _. eexists. split; [done|]. by left.
  - intros Hn. eexists. split; [done|]. right. split_and!; [done|by apply Hn|done..].
  - rewrite (wi_permit w Hi Hs) by (by rewrite Ec). intros Hn. eexists. split; [done|]. right.
    split_and!; [done|by apply Hn|done..].
Qed.

Lemma leaving_code code : ∀ w, leaving w → w_code w = code →
  let w' := alone (length code) body w in
  w_ended w' = true ∨ (Check ∉ code) ∧ leaving w' ∧ w_code w' = [].
Proof.
  induction code as [|a code IH]; intros w Hl Ec; cbn [length alone].
  { right. split_and!; [apply not_elem_of_nil|done|done]. }
  destruct (leaving_step w a code Hl Ec) as (w1 & -> & [[_ He]|(Ha & Hl1 & Ec1)]).
  - left. by apply alone_ended.
  - destruct (IH w1 Hl1 Ec1) as [He|(Hc & Hl2 & E2)]; [by left|right].
    split_and!; [|done|done]. apply not_elem_of_cons. auto.
Qed.
End Ends.

(** A shutdown ends every thread.  Once [signal] has returned, the thread,
    left to itself and with no sleep running to its deadline, is over after
    what is left of its iteration and at most one more: the wait of [join]
    is bounded by the work under way, not by the cadences. *)
Theorem shutdown_ends_threads th w body :
  th ∈ scanner_threads → rtc (worker_step th) (Worker_new th) w → w_signal w = Signalled →
  body ∈ th_bodies th →
  w_ended (alone (length (w_code w) + (1 + length body)) body w) = true.
Proof.
  intros Hth%threads_ok Hr Hs Hb. destruct (w_ended w) eqn:He; [by apply alone_ended|].
  assert (leaving w) as Hl by (split_and!; [by eapply worker_reachable_inv|done|done]).
  rewrite alone_add. destruct (leaving_code th body Hth Hb (w_code w) w Hl eq_refl) as [H|(_ & Hl1 & E1)];
    [by apply alone_ended|].
  set (w1 := alone (length (w_code w)) body w) in *. cbn [Nat.add alone]. destruct Hl1 as (Hi1 & Hs1 & He1).
  assert (∃ w2, thread_step false body w1 = Some w2 ∧ leaving w2 ∧ w_code w2 = body) as (w2 & E2 & Hl2 & Ec2).
  { assert (∀ w', thread_step false body w1 = Some w' → worker_inv w') as Hn
      by (intros w' E; by eapply thread_step_inv). revert Hn. unfold thread_step, leaving. rewrite He1, E1.
    intros Hn. eexists. split; [done|]. split_and!; [by apply Hn|done..]. }
  rewrite E2. destruct (leaving_code th body Hth Hb body w2 Hl2 Ec2) as [H|(Hc & _)]; [done|].
  by destruct (bodies_ok th Hth body Hb) as (_ & _ & ?).
Qed.

(** ** Witnesses *)

(** The scan thread parked for its cadence; the shutdown has just returned. *)
Definition demo_worker : Worker := {|
  w_code := [Park; Check]; w_registered := true; w_permit := true; w_parked := true; w_ended := false;
  w_flag := true; w_signal := Signalled |}.

Lemma demo_worker_reachable : rtc (worker_step scan_thread) (Worker_new scan_thread) demo_worker.
Proof.
  assert ([Check; Work; Check; Park; Check] ∈ th_bodies scan_thread) as Hb by (by left).
  do 6 (eapply rtc_l; [eapply (step_thread _ false _ _ _ Hb); reflexivity|]).
  eapply rtc_l; [by apply step_store|]. eapply rtc_l; [by apply step_signal|]. apply rtc_refl.
Qed.

Lemma no_lost_shutdown_witness : w_parked demo_worker = true ∧ w_permit demo_worker = true.
Proof.
  split; [reflexivity|].
  apply (no_lost_shutdown scan_thread demo_worker); [by right; left|apply demo_worker_reachable|reflexivity|reflexivity].
Defined.

Lemma shutdown_ends_threads_witness :
  w_ended (alone 6 [Check; Work; Park] demo_worker) = true.
Proof.
  apply (shutdown_ends_threads scan_thread demo_worker [Check; Work; Park]);
    [by right; left|apply demo_worker_reachable|reflexivity|by right; left].
Defined.
