(* ===== verification/Db.v ===== *)
(** * The detection database (crates/rsrpc-detect/src/db.rs)

    The lenient projection of a game's JSON, its two parses (through the
    DOM and through [TrimmedActivity]), and the structural caps.  Games are
    JSON objects with distinct keys.  The direct struct parse is derived by
    [serde] and its many ignored fields decide what it accepts: a
    parameter. *)

From stdpp Require Import base gmap strings list list_numbers sets.
From Stdlib Require Import Ascii.
From S2P Require Import Prelude RStr Json Text ScanNames SortedIndex Bundle BundleProps Exclusions.

Local Open Scope string_scope.
Local Open Scope nat_scope.
Local Open Scope list_scope.

(** ** Caps *)

Definition MAX_ENTRIES : nat := 100 * 1000.
Definition MAX_EXECUTABLES_PER_ENTRY : nat := 256.
Definition MAX_ALIASES_PER_ENTRY : nat := 64.
Definition MAX_THIRD_PARTY_SKUS_PER_ENTRY : nat := 128.
Definition MAX_NAME_LEN : nat := 1024.
Definition MAX_EXECUTABLE_NAME_LEN : nat := 512.
Definition MAX_ARGUMENTS_LEN : nat := 256.
Definition MAX_ID_LEN : nat := 64.

Definition list_len {A} (o : option (list A)) : nat := match o with Some l => length l | None => 0 end.

(** The inner loop of [enforce_structure]: the first cap an executable breaks. *)
Definition enforce_executable (x : Executable) : option string :=
  if decide (MAX_EXECUTABLE_NAME_LEN < String.length (x_name x)) then Some "executable name too long"
  else match x_arguments x with
       | Some arguments =>
           if decide (MAX_ARGUMENTS_LEN < String.length arguments)
           then Some "executable arguments too long" else None
       | None => None
       end.

(** One entry. *)
Definition enforce_entry (e : DetectableActivity) : option string :=
  if decide (MAX_ID_LEN < String.length (da_id e)) then Some "application id too long"
  else if decide (MAX_NAME_LEN < String.length (da_name e)) then Some "game name too long"
  else if decide (MAX_EXECUTABLES_PER_ENTRY < list_len (da_executables e))
  then Some "too many executables in one entry"
  else match find_map enforce_executable (default [] (da_executables e)) with
       | Some broken => Some broken
       | None =>
           if decide (MAX_ALIASES_PER_ENTRY < list_len (da_aliases e))
           then Some "too many aliases in one entry"
           else if decide (MAX_THIRD_PARTY_SKUS_PER_ENTRY < list_len (da_third_party_skus e))
           then Some "too many Steam SKUs in one entry"
           else None
       end.

(** [enforce_structure]: the [DatabaseTooLarge] it returns, if any. *)
Definition enforce_structure (entries : list DetectableActivity) : option string :=
  if decide (MAX_ENTRIES < length entries) then Some "too many entries"
  else find_map enforce_entry entries.

(** ** The projection *)

Section Trim.
Context `{Serde}.

(** [trimmed_aliases]. *)
Definition trimmed_aliases (aliases : option (list Value)) : list Value :=
  default [] ((λ aliases : list Value,
    VString <$> base.filter (λ a, str_empty (trim a) = false) (omap as_str aliases)) <$> aliases).

(** One executable of [trimmed_executables]. *)
Definition trimmed_executable (exe : Value) : Value :=
  VObject (
    [("name", default (VString "") (value_get "name" exe));
     ("is_launcher", default (VBool false) (value_get "is_launcher" exe));
     ("os", default (VString "") (value_get "os" exe))] ++
    match value_get "arguments" exe with
    | Some args => if str_empty (default "" (as_str args)) then [] else [("arguments", args)]
    | None => []
    end).

Definition trimmed_executables (executables : option (list Value)) : list Value :=
  default [] (map trimmed_executable <$> executables).

(** [trim_matches] of the double quote. *)
Definition trim_quotes (s : string) : string :=
  let quote := chr 34 in
  of_chars (rev (drop_while_eq quote (rev (drop_while_eq quote (chars s))))).

(** One SKU of [trimmed_skus]. *)
Definition trimmed_sku (sku : Value) : option Value :=
  match value_get "distributor" sku ≫= as_str with
  | None => None
  | Some distributor =>
      match (λ v, match v with
                  | VString s => s
                  | other => trim_quotes (default "" (json_to_string other))
                  end) <$> value_get "id" sku with
      | None => None
      | Some id =>
          if str_empty distributor || str_empty id then None
          else Some (VObject [("distributor", VString distributor); ("id", VString id)])
      end
  end.

Definition trimmed_skus (skus : option (list Value)) : list Value :=
  default [] ((λ skus : list Value, omap trimmed_sku skus) <$> skus).

Definition array_at (k : string) (game : Value) : option (list Value) :=
  value_get k game ≫= as_array.

(** [trimmed_entry_fields]. *)
Definition trimmed_entry_fields (game : Value) : list (string * Value) :=
  [("id", default (VString "") (value_get "id" game));
   ("name", default (VString "") (value_get "name" game));
   ("hook", default (VBool false) (value_get "hook" game))] ++
  match trimmed_aliases (array_at "aliases" game) with
  | [] => []
  | aliases => [("aliases", VArray aliases)]
  end ++
  [("executables", VArray (trimmed_executables (array_at "executables" game)));
   ("third_party_skus", VArray (trimmed_skus (array_at "third_party_skus" game)))].

(** [trim_detectable_value], on the games of the body. *)
Definition trim_detectable_value (games : list Value) : Value :=
  VArray (map (λ game, VObject (trimmed_entry_fields game)) games).

(** ** The struct parse of a projected entry *)

Definition opt_str (o : option Value) : option (option string) :=
  match o with
  | None | Some VNull => Some None
  | Some (VString s) => Some (Some s)
  | Some _ => None
  end.

(** Required fields. *)
Definition field_str (k : string) (m : list (string * Value)) : option string :=
  obj_get k m ≫= as_str.
Definition field_bool (k : string) (m : list (string * Value)) : option bool :=
  obj_get k m ≫= as_bool.

Definition parse_executable (v : Value) : option Executable :=
  match v with
  | VObject m =>
      field_bool "is_launcher" m ≫= λ is_launcher,
      field_str "name" m ≫= λ name,
      field_str "os" m ≫= λ os,
      opt_str (obj_get "arguments" m) ≫= λ arguments,
      Some {| x_is_launcher := is_launcher; x_name := name; x_os := os; x_arguments := arguments |}
  | _ => None
  end.

Definition parse_sku (v : Value) : option ThirdPartySku :=
  match v with
  | VObject m =>
      field_str "distributor" m ≫= λ distributor,
      opt_str (obj_get "id" m) ≫= λ id,
      opt_str (obj_get "sku" m) ≫= λ sku,
      Some {| sku_distributor := distributor; sku_id := id; sku_sku := sku |}
  | _ => None
  end.

(** [Option<Vec<T>>] with a default. *)
Definition opt_list {A} (parse : Value → option A) (o : option Value)
    : option (option (list A)) :=
  match o with
  | None | Some VNull => Some None
  | Some (VArray l) => Some <$> mapM parse l
  | Some _ => None
  end.

(** [from_value::<DetectableActivity>] on a projected entry, which holds
    no other key. *)
Definition parse_projected (m : list (string * Value)) : option DetectableActivity :=
  opt_list parse_executable (obj_get "executables" m) ≫= λ executables,
  field_bool "hook" m ≫= λ hook,
  field_str "id" m ≫= λ id,
  field_str "name" m ≫= λ name,
  opt_list parse_sku (obj_get "third_party_skus" m) ≫= λ skus,
  opt_list as_str (obj_get "aliases" m) ≫= λ aliases,
  Some {| da_executables := executables; da_hook := hook; da_id := id; da_name := name;
          da_third_party_skus := skus; da_aliases := aliases |}.

(** ** [trim_parse] *)

Inductive RawKey := KeyAbsent | KeyNull | KeyValue (v : Value).

(** The field of a [TrimmedActivity]: absent keys default. *)
Definition raw_key (o : option Value) : RawKey :=
  match o with None => KeyAbsent | Some VNull => KeyNull | Some v => KeyValue v end.

(** [RawKey::present]. *)
Definition present (k : RawKey) : option Value :=
  match k with KeyAbsent => None | KeyNull => Some VNull | KeyValue v => Some v end.

(** [Vec<Value>] with a default: absent or an array. *)
Definition raw_list (o : option Value) : option (list Value) :=
  match o with None => Some [] | Some (VArray l) => Some l | Some _ => None end.

Record TrimmedActivity := {
  ta_id : RawKey;
  ta_name : RawKey;
  ta_hook : RawKey;
  ta_aliases : list Value;
  ta_executables : list Value;
  ta_third_party_skus : list Value
}.

Definition parse_trimmed (m : list (string * Value)) : option TrimmedActivity :=
  raw_list (obj_get "aliases" m) ≫= λ aliases,
  raw_list (obj_get "executables" m) ≫= λ executables,
  raw_list (obj_get "third_party_skus" m) ≫= λ skus,
  Some {| ta_id := raw_key (obj_get "id" m); ta_name := raw_key (obj_get "name" m);
          ta_hook := raw_key (obj_get "hook" m); ta_aliases := aliases;
          ta_executables := executables; ta_third_party_skus := skus |}.

(** The object [trim_parse] hands to the projection. *)
Definition raw_object (game : TrimmedActivity) : list (string * Value) :=
  opt_field "id" id (present (ta_id game)) ++
  opt_field "name" id (present (ta_name game)) ++
  opt_field "hook" id (present (ta_hook game)) ++
  [("aliases", VArray (ta_aliases game)); ("executables", VArray (ta_executables game));
   ("third_party_skus", VArray (ta_third_party_skus game))].

(** [trim_parse] on the games of the body: the entries, or an error. *)
Definition trim_parse (games : list (list (string * Value)))
    : list DetectableActivity + option string :=
  match mapM parse_trimmed games with
  | None => inr None
  | Some games =>
      match mapM (λ game, parse_projected (trimmed_entry_fields (VObject (raw_object game)))) games with
      | None => inr None
      | Some parsed => match enforce_structure parsed with
                       | Some broken => inr (Some broken)
                       | None => inl parsed
                       end
      end
  end.

(** [trim_detectable_value] and a struct parse. *)
Definition dom_parse (games : list (list (string * Value))) : option (list DetectableActivity) :=
  mapM (λ m, parse_projected (trimmed_entry_fields (VObject m))) games.

(** [parse_database]: [direct] is the derived struct parse of the same
    body ([None]: it fails), [games] its games when it is an array of
    objects; the errors are the direct parse's or a broken cap. *)
Definition parse_database (direct : option (list DetectableActivity))
    (games : option (list (list (string * Value))))
    : list DetectableActivity * string + option string :=
  match direct with
  | Some parsed =>
      match enforce_structure parsed with
      | Some broken => inr (Some broken)
      | None => inl (parsed, "direct")
      end
  | None =>
      match trim_parse <$> games with
      | Some (inl parsed) => inl (parsed, "trimmed")
      | _ => inr None
      end
  end.
End Trim.

(** ** The two parses *)

(** The list keys of a game are absent or arrays. *)
Definition lists_plain (m : list (string * Value)) : bool :=
  is_some (raw_list (obj_get "aliases" m)) && is_some (raw_list (obj_get "executables" m)) &&
  is_some (raw_list (obj_get "third_party_skus" m)).

Lemma parse_trimmed_is_some m : is_some (parse_trimmed m) = lists_plain m.
Proof.
  unfold parse_trimmed, lists_plain. destruct (raw_list (obj_get "aliases" m)); [|done].
  destruct (raw_list (obj_get "executables" m)); [|done].
  by destruct (raw_list (obj_get "third_party_skus" m)).
Qed.

Lemma present_raw o : present (raw_key o) = o.
Proof. by destruct o as [[]|]. Qed.

Section Agree.
Context `{Serde}.

Lemma raw_object_fields m t :
  parse_trimmed m = Some t →
  trimmed_entry_fields (VObject (raw_object t)) = trimmed_entry_fields (VObject m).
Proof.
  unfold parse_trimmed. intros (al & Hal & H1)%bind_Some. apply bind_Some in H1 as (ex & Hex & H2).
  apply bind_Some in H2 as (sk & Hsk & [= <-]).
  assert (∀ k l, raw_list (obj_get k m) = Some l →
    default [] (array_at k (VObject m)) = l) as Harr.
  { intros k l. unfold array_at. simpl. by destruct (obj_get k m) as [[]|]; simpl; intros [= <-]. }
  assert (∀ k, trimmed_aliases (array_at k (VObject m))
    = trimmed_aliases (Some (default [] (array_at k (VObject m)))) ∧
    trimmed_executables (array_at k (VObject m))
    = trimmed_executables (Some (default [] (array_at k (VObject m)))) ∧
    trimmed_skus (array_at k (VObject m))
    = trimmed_skus (Some (default [] (array_at k (VObject m))))) as Hdef
    by (intros k; by destruct (array_at k (VObject m))).
  unfold trimmed_entry_fields.
  destruct (Hdef "aliases") as (-> & _ & _), (Hdef "executables") as (_ & -> & _),
    (Hdef "third_party_skus") as (_ & _ & ->).
  rewrite (Harr _ _ Hal), (Harr _ _ Hex), (Harr _ _ Hsk).
  unfold raw_object, array_at. simpl. rewrite !present_raw.
  by destruct (obj_get "id" m), (obj_get "name" m), (obj_get "hook" m).
Qed.

Lemma trimmed_mapM games ts :
  mapM parse_trimmed games = Some ts →
  mapM (λ t, parse_projected (trimmed_entry_fields (VObject (raw_object t)))) ts = dom_parse games.
Proof.
  unfold dom_parse. revert ts. induction games as [|m games IH]; intros ts; simpl.
  { by intros [= <-]. }
  intros (t & Ht & Hm)%bind_Some. apply bind_Some in Hm as (ts' & Hts & [= <-]). simpl.
  by rewrite (raw_object_fields m t Ht), (IH ts' Hts).
Qed.
End Agree.

(** C23: [trim_parse] is the DOM projection and a struct parse, with the caps
    enforced, on exactly the bodies whose games keep their [aliases],
    [executables] and [third_party_skus] absent or as arrays; any other
    value there, a [null] included, is an error although the projection
    itself tolerates it. *)
Theorem trim_parse_is_dom_parse `{Serde} games :
  trim_parse games =
  if forallb lists_plain games then
    match dom_parse games with
    | None => inr None
    | Some parsed => match enforce_structure parsed with
                     | Some broken => inr (Some broken)
                     | None => inl parsed
                     end
    end
  else inr None.
Proof.
  unfold trim_parse. destruct (mapM parse_trimmed games) as [ts|] eqn:E.
  - rewrite (trimmed_mapM _ _ E).
    assert (forallb lists_plain games = true) as ->; [|done].
    apply forallb_forall. intros m Hm%list_elem_of_In. rewrite <-parse_trimmed_is_some.
    apply mapM_Some_1 in E. destruct (parse_trimmed m) eqn:Em; [done|]. exfalso.
    apply list_elem_of_lookup in Hm as [i Hi].
    destruct (Forall2_lookup_l _ _ _ _ _ E Hi) as (t & _ & Ht). congruence.
  - destruct (forallb lists_plain games) eqn:Ef; [|done]. exfalso.
    assert (is_Some (mapM parse_trimmed games)) as [? ?]; [|congruence].
    apply mapM_is_Some_2, Forall_forall. intros m Hm.
    rewrite forallb_forall in Ef. specialize (Ef m). rewrite <-list_elem_of_In in Ef.
    rewrite <-parse_trimmed_is_some in Ef. specialize (Ef Hm).
    change (is_Some (parse_trimmed m)). destruct (parse_trimmed m); [by eexists|done].
Qed.

(** ** Caps *)

Record entry_capped (e : DetectableActivity) : Prop := {
  cap_id : String.length (da_id e) ≤ MAX_ID_LEN;
  cap_name : String.length (da_name e) ≤ MAX_NAME_LEN;
  cap_executables : list_len (da_executables e) ≤ MAX_EXECUTABLES_PER_ENTRY;
  cap_executable : ∀ x, x ∈ default [] (da_executables e) →
    String.length (x_name x) ≤ MAX_EXECUTABLE_NAME_LEN ∧
    ∀ a, x_arguments x = Some a → String.length a ≤ MAX_ARGUMENTS_LEN;
  cap_aliases : list_len (da_aliases e) ≤ MAX_ALIASES_PER_ENTRY;
  cap_skus : list_len (da_third_party_skus e) ≤ MAX_THIRD_PARTY_SKUS_PER_ENTRY
}.

Definition capped (entries : list DetectableActivity) : Prop :=
  length entries ≤ MAX_ENTRIES ∧ ∀ e, e ∈ entries → entry_capped e.

#[global] Opaque MAX_ENTRIES MAX_NAME_LEN MAX_EXECUTABLE_NAME_LEN MAX_ARGUMENTS_LEN.

Lemma find_map_None_iff {A B} (f : A → option B) l :
  find_map f l = None ↔ ∀ a, a ∈ l → f a = None.
Proof.
  split; [intros E a Ha; by eapply find_map_None|]. intros Hall.
  induction l as [|a l IH]; [done|]. simpl. rewrite (Hall a) by (by left).
  apply IH. intros b Hb. apply Hall. by right.
Qed.

Lemma enforce_executable_spec x :
  enforce_executable x = None ↔
  String.length (x_name x) ≤ MAX_EXECUTABLE_NAME_LEN ∧
  ∀ a, x_arguments x = Some a → String.length a ≤ MAX_ARGUMENTS_LEN.
Proof.
  unfold enforce_executable. case_decide as Hn; [split; [done|intros [? _]; lia]|].
  destruct (x_arguments x) as [a|].
  - case_decide as Ha; split; try done.
    + intros [_ H]. specialize (H a eq_refl). lia.
    + intros _. split; [lia|]. intros ? [= <-]. lia.
  - split; [|done]. intros _. split; [lia|done].
Qed.

Lemma enforce_entry_spec e : enforce_entry e = None ↔ entry_capped e.
Proof.
  unfold enforce_entry. case_decide; [split; [done|intros []; lia]|].
  case_decide; [split; [done|intros []; lia]|]. case_decide; [split; [done|intros []; lia]|].
  destruct (find_map enforce_executable _) as [broken|] eqn:Ex.
  { split; [done|]. intros [_ _ _ Hx _ _]. apply find_map_Some in Ex as (x & Hin & E).
    specialize (Hx x Hin). apply enforce_executable_spec in Hx. congruence. }
  rewrite find_map_None_iff in Ex. case_decide; [split; [done|intros []; lia]|].
  case_decide; [split; [done|intros []; lia]|]. split; [|done]. intros _.
  split; try lia. intros x Hx. by apply enforce_executable_spec, Ex.
Qed.

Lemma enforce_structure_spec entries : enforce_structure entries = None ↔ capped entries.
Proof.
  unfold enforce_structure, capped. case_decide; [split; [done|intros []; lia]|].
  rewrite find_map_None_iff. split.
  - intros Hall. split; [lia|]. intros e He. by apply enforce_entry_spec, Hall.
  - intros [_ Hall] e He. by apply enforce_entry_spec, Hall.
Qed.

Lemma capped_sized entries : capped entries → sized (map from_activity entries).
Proof.
  intros [Hl He]. split.
  - rewrite length_map. assert (MAX_ENTRIES ≤ 100 * 1000) as Hm by (apply Nat.leb_le; vm_compute; done).
    unfold U32_MAX. lia.
  - intros s Hs%list_elem_of_In. apply in_map_iff in Hs as (e & <- & Hin%list_elem_of_In).
    destruct (He e Hin) as [_ _ Hx _ _ _]. simpl. unfold MAX_EXECUTABLES_PER_ENTRY in Hx.
    destruct (da_executables e) as [l|]; simpl in *; [rewrite length_map|]; unfold U32_MAX; lia.
Qed.

(** What [parse_database] accepts is bounded on either path: at most
    100000 entries, each with at most 256 executables, 64 aliases and 128
    SKUs and texts within their limits; so every index into it fits the
    packed table of the automata, and nothing within the caps is refused
    for its size. *)
Theorem parsed_database_is_capped `{Serde} direct games entries shape :
  parse_database direct games = inl (entries, shape) →
  capped entries ∧ sized (map from_activity entries) ∧
  ∀ other, capped other → parse_database (Some other) games = inl (other, "direct").
Proof.
  intros E. assert (capped entries) as Hc.
  { apply enforce_structure_spec. unfold parse_database in E. destruct direct as [parsed|].
    - by destruct (enforce_structure parsed) eqn:En; simplify_eq.
    - destruct games as [games|]; simpl in E; [|done]. unfold trim_parse in E.
      destruct (mapM parse_trimmed games); [|done]. destruct (mapM _ _) as [parsed|]; [|done].
      by destruct (enforce_structure parsed) eqn:En; simplify_eq. }
  split_and!; [done|by apply capped_sized|]. intros other Ho%enforce_structure_spec.
  unfold parse_database. by rewrite Ho.
Qed.

Module DbDemo.
#[export] Existing Instance demo_serde.
(** A game with no name and hook, one executable and a numeric store id. *)
Definition game : list (string * Value) :=
  [("id", VString "1"); ("executables", VArray [VObject [("name", VString "g")]]);
   ("third_party_skus", VArray [VObject [("distributor", VString "steam"); ("id", vnum 99)]])].
Definition entry : DetectableActivity := {|
  da_executables := Some [{| x_is_launcher := false; x_name := "g"; x_os := "";
                             x_arguments := None |}];
  da_hook := false; da_id := "1"; da_name := "";
  da_third_party_skus := Some [{| sku_distributor := "steam"; sku_id := Some "99";
                                  sku_sku := None |}];
  da_aliases := None |}.
End DbDemo.
Import DbDemo.

Lemma parsed_database_is_capped_witness :
  parse_database None (Some [DbDemo.game]) = inl ([DbDemo.entry], "trimmed") ∧
  capped [DbDemo.entry].
Proof.
  assert (parse_database None (Some [DbDemo.game]) = inl ([DbDemo.entry], "trimmed")) as E
    by (vm_compute; reflexivity).
  split; [exact E|]. apply (parsed_database_is_capped None (Some [DbDemo.game]) _ _ E).
Defined.
