(* ===== verification/Refresh.v ===== *)
(** * The hourly refresh (crates/rsrpc-detect/src: db.rs, refresh.rs, runtime.rs)

    The byte stream the canonical hash feeds its hasher, what it
    determines, and the refresh loop's bookkeeping of validators.  SipHash
    itself is a parameter: a function of the stream. *)

From stdpp Require Import base gmap strings list list_numbers sets.
From Stdlib Require Import Ascii.
From S2P Require Import Prelude RStr Json Text ScanNames SortedIndex Bundle BundleProps Exclusions Db.

Local Open Scope string_scope.
Local Open Scope nat_scope.
Local Open Scope list_scope.

(** ** What is fed to the hasher *)

(** Little-endian bytes of a fixed width. *)
Fixpoint le_bytes (width : nat) (z : Z) : list Z :=
  match width with
  | 0 => []
  | S width => (z mod 256)%Z :: le_bytes width (z / 256)%Z
  end.

Definition hash_usize (n : nat) : list Z := le_bytes 8 (Z.of_nat n).
Definition hash_bool (b : bool) : list Z := [if b then 1%Z else 0%Z].
(** A [str] is its bytes and [0xff]. *)
Definition hash_str (s : string) : list Z := map code (chars s) ++ [255%Z].
(** An [Option] is its discriminant (an [isize]) and its payload. *)
Definition hash_opt_str (o : option string) : list Z :=
  match o with None => le_bytes 8 0 | Some s => le_bytes 8 1 ++ hash_str s end.

Definition hash_entry_identity (e : DetectableActivity) : list Z :=
  1%Z :: hash_str (da_id e) ++ 2%Z :: hash_str (da_name e).

Definition hash_exe (name os : string) (is_launcher : bool) (arguments : option string) : list Z :=
  3%Z :: hash_str name ++ hash_str os ++ hash_bool is_launcher ++ hash_opt_str arguments.

Definition hash_entry_exes (e : DetectableActivity) : list Z :=
  let executables := default [] (da_executables e) in
  hash_usize (length executables) ++
  concat (map (λ x, hash_exe (x_name x) (x_os x) (x_is_launcher x) (x_arguments x)) executables).

(** The steam loop: the ids hashed, and how many. *)
Definition hash_entry_steam (e : DetectableActivity) : list Z :=
  let '(bytes, steam) :=
    foldl (λ acc sku,
      if String.eqb (sku_distributor sku) "steam" then
        match sku_id sku with
        | Some id => if str_empty id then acc else (acc.1 ++ 4%Z :: hash_str id, S acc.2)
        | None => acc
        end
      else acc) ([], 0) (default [] (da_third_party_skus e)) in
  bytes ++ hash_usize steam.

Definition hash_entry_aliases (e : DetectableActivity) : list Z :=
  let aliases := default [] (da_aliases e) in
  hash_usize (length aliases) ++ concat (map (λ a, 5%Z :: hash_str a) aliases).

Definition entry_projection (e : DetectableActivity) : list Z :=
  hash_entry_identity e ++ hash_entry_exes e ++ hash_entry_steam e ++ hash_entry_aliases e.

Definition canonical_stream (parsed : list DetectableActivity) : list Z :=
  hash_usize (length parsed) ++ concat (map entry_projection parsed).

Class SipHash := { sip : list Z → Z }.

Section Fetch.
Context `{SipHash}.

Definition canonical_content_hash (parsed : list DetectableActivity) : Z :=
  sip (canonical_stream parsed).
Definition body_hash (body : string) : Z := sip (hash_str body).
Definition content_hashes (raw_body : string) (parsed : list DetectableActivity) : Z * Z :=
  (body_hash raw_body, canonical_content_hash parsed).

Inductive FetchOutcome :=
  | Unchanged
  | SameContent (etag : option string) (content_hash trimmed_hash : Z)
  | Updated (etag : option string) (content_hash trimmed_hash : Z)
      (detectable : list DetectableActivity).

(** [finish_fetch]. *)
Definition finish_fetch (etag : option string) (content_hash : Z) (known_trimmed : option Z)
    (detectable : list DetectableActivity) : FetchOutcome :=
  let trimmed_hash := canonical_content_hash detectable in
  if opt_any (λ known, (known =? trimmed_hash)%Z) known_trimmed
  then SameContent etag content_hash trimmed_hash
  else Updated etag content_hash trimmed_hash detectable.

(** What the server answered: 304, or a tag and a body. *)
Inductive Response := NotModified | Body (etag : option string) (body : string).

(** [fetch_detectable_etag] on a response ([None]: the request failed);
    [parse] is [parse_database]. *)
Definition fetch_detectable_etag (parse : string → option (list DetectableActivity))
    (response : option Response) (known_raw known_trimmed : option Z) : option FetchOutcome :=
  match response with
  | None => None
  | Some NotModified => Some Unchanged
  | Some (Body etag body) =>
      let content_hash := body_hash body in
      if opt_any (λ known, (known =? content_hash)%Z) known_raw
      then Some (SameContent etag content_hash (default content_hash known_trimmed))
      else match parse body with
           | None => None
           | Some parsed => Some (finish_fetch etag content_hash known_trimmed parsed)
           end
  end.

(** ** The refresh loop *)

Record RefreshState `{AhoCorasick} := {
  rf_etag : option string;
  rf_content_hash : option Z;
  rf_trimmed_hash : option Z;
  rf_bundle : DetectablesBundle
}.

(** One round of the refresh thread: validators move with the bundle. *)
Definition refresh_round `{AhoCorasick} (platform : Platform)
    (parse : string → option (list DetectableActivity)) (response : option Response)
    (s : RefreshState) : RefreshState :=
  match fetch_detectable_etag parse response (rf_content_hash s) (rf_trimmed_hash s) with
  | None | Some Unchanged => s
  | Some (SameContent etag content_hash trimmed_hash) =>
      {| rf_etag := etag; rf_content_hash := Some content_hash;
         rf_trimmed_hash := Some trimmed_hash; rf_bundle := rf_bundle s |}
  | Some (Updated etag content_hash trimmed_hash detectable) =>
      let '(b, swapped) := update_main_detectables platform detectable (rf_bundle s) in
      if swapped then
        {| rf_etag := etag; rf_content_hash := Some content_hash;
           rf_trimmed_hash := Some trimmed_hash; rf_bundle := b |}
      else {| rf_etag := rf_etag s; rf_content_hash := rf_content_hash s;
              rf_trimmed_hash := rf_trimmed_hash s; rf_bundle := b |}
  end.
End Fetch.

(** ** The stream is the slim entry's *)

Definition slim_stream (e : ScannedEntry) : list Z :=
  (1%Z :: hash_str (se_id e) ++ 2%Z :: hash_str (se_name e)) ++
  (hash_usize (length (se_executables e)) ++
   concat (map (λ x, hash_exe (exe_name x) (os_as_str (exe_os x)) (exe_is_launcher x)
                       (exe_arguments x)) (se_executables e))) ++
  (concat (map (λ id, 4%Z :: hash_str id) (se_steam_ids e)) ++ hash_usize (length (se_steam_ids e))) ++
  (hash_usize (length (se_aliases e)) ++ concat (map (λ a, 5%Z :: hash_str a) (se_aliases e))).

Lemma os_as_str_from os : os_as_str (from_os os) = os.
Proof.
  unfold from_os. destruct (String.eqb_spec os "win32") as [->|]; [done|].
  destruct (String.eqb_spec os "linux") as [->|]; [done|].
  destruct (String.eqb_spec os "darwin") as [->|]; [done|].
  by destruct (String.eqb_spec os "") as [->|].
Qed.

Lemma steam_ids_of e :
  hash_entry_steam e =
  concat (map (λ id, 4%Z :: hash_str id) (se_steam_ids (from_activity e))) ++
  hash_usize (length (se_steam_ids (from_activity e))).
Proof.
  rewrite <-from_owned_activity. unfold hash_entry_steam. simpl.
  set (ids (skus : list ThirdPartySku) := base.filter (λ id, str_empty id = false)
    (omap sku_id (base.filter (λ sku, sku_distributor sku = "steam") skus))).
  match goal with |- (let '(_, _) := foldl ?f _ _ in _) = _ =>
    assert (∀ skus, foldl f ([], 0) skus
      = (concat (map (λ id, 4%Z :: hash_str id) (ids skus)), length (ids skus))) as ->; [|done]
  end.
  intros skus. induction skus as [|sku skus IH] using rev_ind; [done|].
  rewrite foldl_app, IH. unfold ids. rewrite filter_app, omap_app, filter_app, map_app, concat_app,
    length_app. simpl. destruct (String.eqb_spec (sku_distributor sku) "steam") as [Hd|Hd].
  - rewrite filter_cons_True by done. simpl. destruct (sku_id sku) as [id|]; simpl.
    + destruct (str_empty id) eqn:Ei; simpl.
      * rewrite filter_cons_False by (by rewrite Ei). simpl. by rewrite app_nil_r, Nat.add_0_r.
      * rewrite filter_cons_True by done. simpl. by rewrite app_nil_r, Nat.add_1_r.
    + by rewrite app_nil_r, Nat.add_0_r.
  - rewrite filter_cons_False by done. simpl. by rewrite app_nil_r, Nat.add_0_r.
Qed.

Lemma projection_slim e : entry_projection e = slim_stream (from_activity e).
Proof.
  unfold entry_projection, slim_stream. rewrite steam_ids_of, <-from_owned_activity.
  unfold hash_entry_identity, hash_entry_exes, hash_entry_aliases.
  cbn [from_owned se_id se_name se_executables se_steam_ids se_aliases].
  rewrite length_map, map_map.
  rewrite (map_ext (λ x, hash_exe _ (os_as_str _) _ _)
    (λ x, hash_exe (x_name x) (x_os x) (x_is_launcher x) (x_arguments x))); [done|].
  intros x. cbn [exe_name exe_os exe_is_launcher exe_arguments].
  change (from_string (x_os x)) with (from_os (x_os x)). by rewrite os_as_str_from.
Qed.

(** ** What the stream determines *)

Lemma le_bytes_length w z : length (le_bytes w z) = w.
Proof. revert z. induction w as [|w IH]; intros z; simpl; [done|]. by rewrite IH. Qed.

Lemma le_bytes_inj w a b :
  (0 ≤ a < 256 ^ Z.of_nat w)%Z → (0 ≤ b < 256 ^ Z.of_nat w)%Z → le_bytes w a = le_bytes w b → a = b.
Proof.
  revert a b. induction w as [|w IH]; intros a b Ha Hb; simpl; [simpl in *; lia|].
  intros [= Em Ed]. rewrite Nat2Z.inj_succ, Z.pow_succ_r in Ha, Hb by lia.
  pose proof (Z.div_mod a 256). pose proof (Z.div_mod b 256).
  assert (a / 256 = b / 256)%Z; [|lia].
  apply IH; [| |done]; split; try apply Z.div_pos; try lia; apply Z.div_lt_upper_bound; lia.
Qed.

Lemma hash_usize_apart n m r r' :
  (Z.of_nat n < 2 ^ 64)%Z → (Z.of_nat m < 2 ^ 64)%Z →
  hash_usize n ++ r = hash_usize m ++ r' → n = m ∧ r = r'.
Proof.
  intros Hn Hm E. apply app_inj_1 in E as [E ->]; [|unfold hash_usize; by rewrite !le_bytes_length].
  split; [|done]. unfold hash_usize in E. apply le_bytes_inj in E; [lia|lia|lia].
Qed.

(** A Rust string has no byte [0xff]. *)
Definition text (s : string) : Prop := 255%Z ∉ map code (chars s).

Lemma code_inj a b : code a = code b → a = b.
Proof.
  unfold code. intros E%N2Z.inj. by rewrite <-(ascii_N_embedding a), <-(ascii_N_embedding b), E.
Qed.

Lemma hash_str_apart a b r r' :
  text a → text b → hash_str a ++ r = hash_str b ++ r' → a = b ∧ r = r'.
Proof.
  unfold text, hash_str. intros Ha Hb E.
  assert (chars a = chars b ∧ r = r') as [Ec ->];
    [|split; [|done]; by rewrite <-(of_chars_chars a), <-(of_chars_chars b), Ec].
  revert Ha Hb E. generalize (chars a), (chars b). clear a b.
  induction l as [|x l IH]; intros [|y k] Ha Hb E; simpl in *.
  - by simplify_eq.
  - injection E as E _. set_solver.
  - injection E as E _. set_solver.
  - injection E as E1 E2. destruct (IH k) as [-> ->]; [set_solver|set_solver|done|].
    split; [|done]. f_equal. by apply code_inj.
Qed.

Lemma hash_opt_str_apart a b r r' :
  (∀ s, a = Some s → text s) → (∀ s, b = Some s → text s) →
  hash_opt_str a ++ r = hash_opt_str b ++ r' → a = b ∧ r = r'.
Proof.
  intros Ha Hb E. destruct a as [a|], b as [b|]; simpl in E; simplify_eq; [|done].
  destruct (hash_str_apart a b r r') as [-> ->]; eauto.
Qed.


Lemma items_apart {A} (P : A → Prop) (f : A → list Z) :
  (∀ x y r r', P x → P y → f x ++ r = f y ++ r' → x = y ∧ r = r') →
  ∀ l k r r', (∀ x, x ∈ l → P x) → (∀ x, x ∈ k → P x) → length l = length k →
  concat (map f l) ++ r = concat (map f k) ++ r' → l = k ∧ r = r'.
Proof.
  intros Hf. induction l as [|x l IH]; intros [|y k] r r' Hl Hk Hlen E; simpl in *; try done.
  rewrite <-!app_assoc in E. apply Hf in E as [-> E]; [|apply Hl; by left|apply Hk; by left].
  apply IH in E as [-> ->]; [done| | |lia]; intros z Hz; [apply Hl|apply Hk]; by right.
Qed.

(** Ids whose first byte cannot be taken for a count's. *)
Definition id_ok (id : string) : Prop :=
  text id ∧ match chars id with c :: _ => code c ≠ 0%Z | [] => False end.

Lemma steam_apart n l k r r' :
  (∀ id, id ∈ l → id_ok id) → (∀ id, id ∈ k → id_ok id) → n + length l < 256 → n + length k < 256 →
  (concat (map (λ id, 4%Z :: hash_str id) l) ++ hash_usize (n + length l)) ++ r
  = (concat (map (λ id, 4%Z :: hash_str id) k) ++ hash_usize (n + length k)) ++ r' →
  l = k ∧ r = r'.
Proof.
  assert (∀ m id rest rest', m < 256 → id_ok id →
    hash_usize m ++ rest ≠ 4%Z :: hash_str id ++ rest') as Hsep.
  { intros m id rest rest' Hm [_ Hid] E. unfold hash_usize, hash_str in E.
    destruct (chars id) as [|c cs]; [done|]. simpl in E. injection E as _ E _.
    rewrite Z.div_small, Z.mod_0_l in E by lia. congruence. }
  revert n k. induction l as [|x l IH]; intros n [|y k] Hl Hk Hn Hm E; simpl in *.
  - apply hash_usize_apart in E as [_ ->]; [done|lia|lia].
  - exfalso. rewrite <-!app_assoc in E. eapply Hsep; [|apply (Hk y); by left|exact E]. lia.
  - exfalso. rewrite <-!app_assoc in E. symmetry in E.
    eapply Hsep; [|apply (Hl x); by left|exact E]. lia.
  - injection E as E. rewrite <-!(app_assoc (hash_str _)) in E.
    apply hash_str_apart in E as [-> E]; [|apply Hl; by left|apply Hk; by left].
    rewrite <-!plus_n_Sm in E.
    change (S (n + length l)) with (S n + length l) in E. change (S (n + length k)) with (S n + length k) in E.
    apply IH in E as [-> ->]; [done| | |lia|lia]; intros z Hz; [apply Hl|apply Hk]; by right.
Qed.

#[global] Opaque hash_usize.

Record exe_ok (x : ScannedExe) : Prop := {
  exe_name_ok : text (exe_name x);
  exe_os_ok : text (os_as_str (exe_os x)) ∧ from_os (os_as_str (exe_os x)) = exe_os x;
  exe_args_ok : ∀ a, exe_arguments x = Some a → text a
}.

Record slim_ok (e : ScannedEntry) : Prop := {
  slim_id : text (se_id e);
  slim_name : text (se_name e);
  slim_exes : length (se_executables e) ≤ 256 ∧ ∀ x, x ∈ se_executables e → exe_ok x;
  slim_steam : length (se_steam_ids e) < 256 ∧ ∀ id, id ∈ se_steam_ids e → id_ok id;
  slim_aliases : length (se_aliases e) ≤ 256 ∧ ∀ a, a ∈ se_aliases e → text a
}.

Lemma exe_apart x y r r' :
  exe_ok x → exe_ok y →
  hash_exe (exe_name x) (os_as_str (exe_os x)) (exe_is_launcher x) (exe_arguments x) ++ r
  = hash_exe (exe_name y) (os_as_str (exe_os y)) (exe_is_launcher y) (exe_arguments y) ++ r' →
  x = y ∧ r = r'.
Proof.
  intros [Hxn [Hxo Hxc] Hxa] [Hyn [Hyo Hyc] Hya] E. unfold hash_exe in E.
  injection E as E. rewrite <-!app_assoc in E. apply hash_str_apart in E as [En E]; [|done..].
  apply hash_str_apart in E as [Eo E]; [|done..].
  unfold hash_bool in E. injection E as Eb E. apply hash_opt_str_apart in E as [Ea ->]; [|done..].
  split; [|done]. destruct x as [xn xo xl xa], y as [yn yo yl ya]. simpl in *.
  f_equal; [done| |by destruct xl, yl|done]. by rewrite <-Hxc, Eo, Hyc.
Qed.

Lemma slim_apart e1 e2 r r' :
  slim_ok e1 → slim_ok e2 → slim_stream e1 ++ r = slim_stream e2 ++ r' → e1 = e2 ∧ r = r'.
Proof.
  intros [Hi1 Hn1 [Hx1 Hxo1] [Hs1 Hso1] [Ha1 Hao1]] [Hi2 Hn2 [Hx2 Hxo2] [Hs2 Hso2] [Ha2 Hao2]] E.
  unfold slim_stream in E. rewrite <-!app_assoc in E. simpl in E. injection E as E.
  rewrite <-!app_assoc in E. apply hash_str_apart in E as [Ei E]; [|done..].
  simpl in E. injection E as E. apply hash_str_apart in E as [En E]; [|done..].
  apply hash_usize_apart in E as [El E]; [|lia|lia].
  apply (items_apart exe_ok) in E as [Ex E]; [|exact exe_apart|done..].
  rewrite !(app_assoc (concat (map (λ id, 4%Z :: hash_str id) _))) in E.
  apply (steam_apart 0) in E as [Es E]; [|done|done|lia|lia].
  apply hash_usize_apart in E as [Eal E]; [|lia|lia].
  apply (items_apart text) in E as [Ea ->]; [| |done..].
  - split; [|done]. destruct e1, e2. simpl in *. by subst.
  - intros a b q q' Ha Hb Eq. injection Eq as Eq. by apply hash_str_apart in Eq.
Qed.

(** Entries of Rust strings, no store id starting with a NUL. *)
Record clean (a : DetectableActivity) : Prop := {
  clean_id : text (da_id a);
  clean_name : text (da_name a);
  clean_exes : ∀ x, x ∈ default [] (da_executables a) →
    text (x_name x) ∧ text (x_os x) ∧ ∀ s, x_arguments x = Some s → text s;
  clean_skus : ∀ sku id, sku ∈ default [] (da_third_party_skus a) → sku_id sku = Some id →
    text id ∧ match chars id with c :: _ => code c ≠ 0%Z | [] => True end;
  clean_aliases : ∀ s, s ∈ default [] (da_aliases a) → text s
}.

Lemma length_omap_le {A B} (f : A → option B) (l : list A) : length (omap f l) ≤ length l.
Proof.
  induction l as [|x l IH]; [done|]. change (x :: l) with ([x] ++ l).
  rewrite omap_app, !length_app. apply Nat.add_le_mono; [|done]. simpl. destruct (f x); simpl; lia.
Qed.

Lemma clean_slim a : entry_capped a → clean a → slim_ok (from_activity a).
Proof.
  intros [_ _ Hx _ Ha Hs] [Hid Hn Hex Hsk Hal]. rewrite <-from_owned_activity.
  assert (∀ A (o : option (list A)), length (default [] o) = list_len o) as Hlen by (by intros A []).
  unfold MAX_EXECUTABLES_PER_ENTRY, MAX_ALIASES_PER_ENTRY, MAX_THIRD_PARTY_SKUS_PER_ENTRY in *.
  split; simpl; [done|done| | |].
  - split; [rewrite length_map, Hlen; lia|]. intros x Hin%list_elem_of_In.
    apply in_map_iff in Hin as (y & <- & Hy%list_elem_of_In). destruct (Hex y Hy) as (H1 & H2 & H3).
    split; simpl; [done| |done]. change (from_string (x_os y)) with (from_os (x_os y)).
    by rewrite os_as_str_from.
  - split.
    + apply Nat.le_lt_trans with (length (default [] (da_third_party_skus a))); [|rewrite Hlen; lia].
      etrans; [apply length_filter|]. etrans; [apply length_omap_le|apply length_filter].
    + intros id [Hne Hin]%list_elem_of_filter.
      apply list_elem_of_omap in Hin as (sku & [_ Hin]%list_elem_of_filter & Hid').
      destruct (Hsk sku id Hin Hid') as [Ht Hc]. split; [done|].
      rewrite <-(of_chars_chars id) in Hne. by destruct (chars id).
  - split; [rewrite Hlen; lia|done].
Qed.

Lemma stream_determines old new :
  capped old → capped new → (∀ a, a ∈ old → clean a) → (∀ a, a ∈ new → clean a) →
  canonical_stream old = canonical_stream new → map from_activity old = map from_activity new.
Proof.
  intros [Ho Hco] [Hn Hcn] Hclo Hcln E. unfold canonical_stream in E.
  assert (MAX_ENTRIES ≤ 100 * 1000) as Hm by (apply Nat.leb_le; vm_compute; done).
  apply hash_usize_apart in E as [El E]; [|lia|lia].
  assert (∀ l, map entry_projection l = map slim_stream (map from_activity l)) as Hp.
  { intros l. rewrite map_map. apply map_ext, projection_slim. }
  rewrite !Hp, <-(app_nil_r (concat _)), <-(app_nil_r (concat (map _ (map _ new)))) in E.
  apply (items_apart slim_ok) in E as [E _]; [done|exact slim_apart| | |by rewrite !length_map].
  - intros s Hs%list_elem_of_In. apply in_map_iff in Hs as (a & <- & Hin%list_elem_of_In).
    by apply clean_slim; auto.
  - intros s Hs%list_elem_of_In. apply in_map_iff in Hs as (a & <- & Hin%list_elem_of_In).
    by apply clean_slim; auto.
Qed.

(** An hour is skipped exactly when nothing the scanner reads changed:
    with the hash of the installed database known and no SipHash collision
    between the two streams, a fetched database within the caps, of Rust
    strings and without a store id that starts with a NUL, counts as the
    same content if and only if its slim entries are the installed ones, in
    order. *)
Theorem unchanged_means_same_entries `{SipHash} etag raw old new :
  capped old → capped new → (∀ a, a ∈ old → clean a) → (∀ a, a ∈ new → clean a) →
  (canonical_content_hash old = canonical_content_hash new →
   canonical_stream old = canonical_stream new) →
  finish_fetch etag raw (Some (canonical_content_hash old)) new
    = SameContent etag raw (canonical_content_hash new) ↔
  map from_activity old = map from_activity new.
Proof.
  intros Ho Hn Hco Hcn Hsip. unfold finish_fetch. simpl.
  destruct (Z.eqb_spec (canonical_content_hash old) (canonical_content_hash new)) as [E|E].
  - split; [|done]. intros _. apply stream_determines; auto.
  - split; [done|]. intros Es. destruct E. unfold canonical_content_hash, canonical_stream.
    assert (∀ l, map entry_projection l = map slim_stream (map from_activity l)) as Hp.
    { intros l. rewrite map_map. apply map_ext, projection_slim. }
    rewrite !Hp, Es. do 3 f_equal. apply (f_equal length) in Es. by rewrite !length_map in Es.
Qed.

(** ** A pair of entries one stream cannot tell apart *)

Module Collision.
Definition nul (n : nat) : list ascii := replicate n (chr 0).
Definition sku (id : string) : ThirdPartySku :=
  {| sku_distributor := "steam"; sku_id := Some id; sku_sku := None |}.
Definition entry (ids aliases : list string) : DetectableActivity := {|
  da_executables := None; da_hook := false; da_id := "1"; da_name := "G";
  da_third_party_skus := Some (map sku ids); da_aliases := Some aliases |}.

(** A second alias that reads as the count and the aliases of the other
    entry, and a fifth id that reads as the count and the first alias. *)
Definition tail : string := of_chars (nul 7 ++ chr 1 :: nul 7 ++ chr 5 :: chars "b").
Definition fifth : string := of_chars (nul 7 ++ chr 2 :: nul 7 ++ chr 5 :: chars "a").
Definition four : DetectableActivity := entry ["1"; "2"; "3"; "4"] ["a"; tail].
Definition five : DetectableActivity := entry ["1"; "2"; "3"; "4"; fifth] ["b"].
End Collision.

(** The hashed fields can alias: two entries within every cap, with
    different store ids and different aliases, feed the hasher the same
    bytes, whatever the hash, because the ids are counted behind them. *)
Theorem projection_aliases :
  from_activity Collision.four ≠ from_activity Collision.five ∧
  canonical_stream [Collision.four] = canonical_stream [Collision.five] ∧
  capped [Collision.four] ∧ capped [Collision.five].
Proof.
  split; [vm_compute; discriminate|]. split; [vm_compute; reflexivity|].
  split; apply enforce_structure_spec; vm_compute; reflexivity.
Qed.

(** ** Validators *)

(** The bodies a run of answers served, each with its tag. *)
Definition served_of (responses : list (option Response)) : list (option string * string) :=
  omap (λ r, match r with Some (Body etag body) => Some (etag, body) | _ => None end) responses.

(** Nothing is known yet; or the tag, the raw hash and the trimmed hash sent
    along belong together: they are those of one [body] served under that
    very tag, and the database the scanner runs on is, for its canonical
    hash, what a served body of the same raw hash decodes to. *)
Definition validators_ok `{SipHash, AhoCorasick} (parse : string → option (list DetectableActivity))
    (served : list (option string * string)) (s : RefreshState) : Prop :=
  rf_etag s = None ∧ rf_content_hash s = None ∧ rf_trimmed_hash s = None ∨
  ∃ body seen etag' parsed installed,
    (rf_etag s, body) ∈ served ∧ rf_content_hash s = Some (body_hash body) ∧
    (etag', seen) ∈ served ∧ body_hash seen = body_hash body ∧ parse seen = Some parsed ∧
    canonical_content_hash parsed = canonical_content_hash installed ∧
    rf_trimmed_hash s = Some (canonical_content_hash installed) ∧
    b_list (rf_bundle s) = map from_owned installed.

Lemma validators_ok_more `{SipHash, AhoCorasick} parse served more s :
  validators_ok parse served s → validators_ok parse (served ++ more) s.
Proof.
  intros [?|(body & seen & etag' & p & d & H1 & H2 & H3 & Hrest)]; [by left|]. right.
  exists body, seen, etag', p, d. rewrite !elem_of_app. auto.
Qed.

Lemma update_swapped `{AhoCorasick} platform d b :
  (update_main_detectables platform d b).2 = true →
  b_list (update_main_detectables platform d b).1 = map from_owned d.
Proof.
  unfold update_main_detectables. destruct d as [|a d]; [done|].
  destruct (build_bundle _ _ _) as [b'|] eqn:E; [|done]. intros _.
  by destruct (build_bundle_lists _ _ _ _ E).
Qed.

Lemma update_kept `{AhoCorasick} platform d b :
  (update_main_detectables platform d b).2 = false →
  (update_main_detectables platform d b).1 = b.
Proof. unfold update_main_detectables. destruct d; [done|]. by destruct (build_bundle _ _ _). Qed.

Lemma refresh_round_ok `{SipHash, AhoCorasick} platform parse served response s :
  validators_ok parse served s →
  validators_ok parse (served ++ served_of [response]) (refresh_round platform parse response s).
Proof.
  intros Hs. unfold refresh_round, fetch_detectable_etag.
  destruct response as [[|etag body]|]; [by apply validators_ok_more| |by apply validators_ok_more].
  assert ((etag, body) ∈ served ++ served_of [Some (Body etag body)]) as Hin.
  { apply elem_of_app. right. by left. }
  destruct (opt_any _ (rf_content_hash s)) eqn:Eraw.
  - destruct Hs as [(_ & Hc & _)|(body0 & seen & etag' & p & d & H1 & H2 & H3 & H4 & H5 & H6 & H7 & H8)];
      [by rewrite Hc in Eraw|].
    rewrite H2 in Eraw. simpl in Eraw. apply Z.eqb_eq in Eraw. right.
    exists body, seen, etag', p, d. simpl. rewrite H7. simpl.
    split_and!; [done|done|apply elem_of_app; by left|congruence|done..].
  - destruct (parse body) as [parsed|] eqn:Ep; [|by apply validators_ok_more]. unfold finish_fetch.
    destruct (opt_any _ (rf_trimmed_hash s)) eqn:Etr.
    + destruct Hs as [(_ & _ & Ht)|(body0 & seen & etag' & p & d & _ & _ & _ & _ & _ & _ & H7 & H8)];
        [by rewrite Ht in Etr|].
      rewrite H7 in Etr. simpl in Etr. apply Z.eqb_eq in Etr. right.
      exists body, body, etag, parsed, d. simpl. rewrite Etr. by split_and!.
    + pose proof (update_swapped platform parsed (rf_bundle s)) as Hsw.
      pose proof (update_kept platform parsed (rf_bundle s)) as Hkeep.
      destruct (update_main_detectables _ _ _) as [b []]; simpl in *.
      * right. exists body, body, etag, parsed, parsed. simpl. split_and!; [done..|by apply Hsw].
      * rewrite Hkeep by done. destruct s. by apply validators_ok_more.
Qed.

(** C25: the validators never teach the next request that data is current
    which was not installed: through any sequence of answers (failures,
    304s, unparsable and refused databases among them), the tag the next
    request sends in [If-None-Match] and the raw hash are those of one body
    that was served under that tag, and a served body of that raw hash
    decodes to a database with the canonical hash of the one the scanner
    runs on, which is the trimmed hash; or none of the three is known.
    What was served before the run (at boot) is [served]. *)
Theorem validators_follow_installs `{SipHash, AhoCorasick} platform parse served responses s :
  validators_ok parse served s →
  validators_ok parse (served ++ served_of responses)
    (foldl (λ s response, refresh_round platform parse response s) s responses).
Proof.
  revert served s. induction responses as [|response responses IH]; intros served s Hs.
  { by rewrite app_nil_r. }
  change (served_of (response :: responses)) with (served_of ([response] ++ responses)).
  unfold served_of. rewrite omap_app, app_assoc. apply IH, refresh_round_ok, Hs.
Qed.

Module RefreshDemo.
#[export] Instance demo_sip : SipHash := {| sip := foldl (λ acc b, acc * 257 + b + 1)%Z 0%Z |}.

(** The demo entry with a field the scanner ignores flipped. *)
Definition hooked : DetectableActivity := {|
  da_executables := da_executables DbDemo.entry; da_hook := true; da_id := "1"; da_name := "";
  da_third_party_skus := da_third_party_skus DbDemo.entry; da_aliases := Some [] |}.

Lemma demo_clean a : a = DbDemo.entry ∨ a = hooked → clean a.
Proof.
  assert (∀ s, bool_decide (255%Z ∉ map code (chars s)) = true → text s) as Ht.
  { intros s Hs. by apply bool_decide_eq_true in Hs. }
  intros [->| ->]; split; try (apply Ht; reflexivity); simpl;
    intros *; rewrite ?list_elem_of_singleton, ?elem_of_nil; try done.
  - intros ->. split_and!; [by apply Ht..|done].
  - intros -> [= <-]. split; [by apply Ht|done].
  - intros ->. split_and!; [by apply Ht..|done].
  - intros -> [= <-]. split; [by apply Ht|done].
Qed.

Lemma demo_capped a : a = DbDemo.entry ∨ a = hooked → capped [a].
Proof. intros [->| ->]; apply enforce_structure_spec; vm_compute; reflexivity. Qed.

Definition start : RefreshState := {|
  rf_etag := None; rf_content_hash := None; rf_trimmed_hash := None; rf_bundle := NaiveAc.first |}.
Definition parse (body : string) : option (list DetectableActivity) := Some [NaiveAc.game].
Definition responses : list (option Response) :=
  [None; Some (Body (Some "tag") "body"); Some NotModified; Some (Body None "body")].
End RefreshDemo.
Import RefreshDemo.

Lemma unchanged_means_same_entries_witness :
  finish_fetch None 7 (Some (canonical_content_hash [DbDemo.entry])) [hooked]
    = SameContent None 7 (canonical_content_hash [hooked]) ↔
  map from_activity [DbDemo.entry] = map from_activity [hooked].
Proof.
  apply unchanged_means_same_entries.
  - apply demo_capped. by left.
  - apply demo_capped. by right.
  - intros a Ha%list_elem_of_singleton. apply demo_clean. by left.
  - intros a Ha%list_elem_of_singleton. apply demo_clean. by right.
  - intros _. vm_compute. reflexivity.
Defined.

Lemma validators_follow_installs_witness :
  let s := foldl (λ s response, refresh_round PLinux parse response s) start responses in
  b_list (rf_bundle s) = [from_owned NaiveAc.game] ∧ rf_etag s = None ∧
  rf_content_hash s = Some (body_hash "body") ∧
  validators_ok parse [(Some "tag", "body"); (None, "body")] s.
Proof.
  split; [vm_compute; reflexivity|]. split; [vm_compute; reflexivity|].
  split; [vm_compute; reflexivity|].
  apply (validators_follow_installs PLinux parse [] responses start).
  left. split; [reflexivity|]. split; reflexivity.
Defined.
