(* ===== verification/Io.v ===== *)
(** * Programs over files and the network, with faults and crashes

    The updater is a sequence of system calls, each of which may fail, and
    a process may be killed at any of them.  A program is a tree of
    operations, each continued by its answer; an operation has all the
    outcomes its system call has: success, failure, and for a write any
    torn content in between.  [returns] relates a program to its results,
    [cut] to every file system a crash can leave behind.  [wp] is the
    weakest precondition for both, with an invariant that has to hold at
    every crash point; [exec] runs a program under a chosen plan of faults. *)

From stdpp Require Import base gmap strings list sets.
From S2P Require Import Prelude RStr.

Local Open Scope string_scope.
Local Open Scope nat_scope.
Local Open Scope list_scope.

(** ** Files *)

(** An absolute path: its components below the root. *)
Abbreviation Path := (list string) (only parsing).

Record File := { f_content : string; f_executable : bool }.

#[export] Instance file_eq_dec : EqDecision File.
Proof. solve_decision. Defined.

Abbreviation FS := (gmap (list string) File) (only parsing).

(** The file a write leaves: an existing one keeps its mode. *)
Definition written (fs : FS) (p : Path) (body : string) : File := {|
  f_content := body;
  f_executable := match fs !! p with Some f => f_executable f | None => false end |}.

(** ** Operations *)

Inductive RenameResult := RenameOk | CrossesDevices | RenameFailed.

Inductive op :=
  | ReadFile (p : Path)
  | WriteFile (p : Path) (body : string)
  | RemoveFile (p : Path)
  | Rename (from to : Path)
  | CopyFile (from to : Path)
  | SetExecutable (p : Path)
  | CreateDirAll (p : Path)
  | IsFile (p : Path)
  | IsReadonly (p : Path)
  (** A buffered writer: created, given more (all its bytes so far), flushed. *)
  | CreateFile (p : Path)
  | BufWrite (p : Path) (so_far : string)
  | Flush (p : Path) (so_far : string)
  (** An HTTP request: no response, or the outcomes of reading its body. *)
  | Get (url : string) (limit : Z).

Definition answer (o : op) : Type :=
  match o with
  | ReadFile _ => option string
  | Rename _ _ => RenameResult
  | Get _ _ => option (list (option string))
  | _ => bool
  end.

(** A write that stopped somewhere: the file holds a prefix. *)
Definition torn (fs : FS) (p : Path) (body : string) (fs' : FS) : Prop :=
  ∃ part rest, body = part +:+ rest ∧ fs' = <[p := written fs p part]> fs.

(** The outcomes of an operation. *)
Definition outcome (o : op) (fs : FS) : answer o → FS → Prop :=
  match o return answer o → FS → Prop with
  | ReadFile p => λ r fs', fs' = fs ∧ (r = None ∨ ∃ f, fs !! p = Some f ∧ r = Some (f_content f))
  | WriteFile p body => λ r fs',
      if r then fs' = <[p := written fs p body]> fs else fs' = fs ∨ torn fs p body fs'
  | RemoveFile p => λ r fs',
      if r then is_Some (fs !! p) ∧ fs' = delete p fs else fs' = fs
  | Rename a b => λ r fs',
      match r with
      | RenameOk => ∃ f, fs !! a = Some f ∧ fs' = <[b := f]> (delete a fs)
      | _ => fs' = fs
      end
  | CopyFile a b => λ r fs',
      if r then ∃ f, fs !! a = Some f ∧ fs' = <[b := f]> fs
      else fs' = fs ∨ ∃ f, fs !! a = Some f ∧ torn fs b (f_content f) fs'
  | SetExecutable p => λ r fs',
      if r then ∃ f, fs !! p = Some f ∧
        fs' = <[p := {| f_content := f_content f; f_executable := true |}]> fs
      else fs' = fs
  | CreateDirAll _ => λ r fs', fs' = fs
  | IsFile p => λ r fs', fs' = fs ∧ (r = true → is_Some (fs !! p))
  | IsReadonly _ => λ r fs', fs' = fs
  | CreateFile p => λ r fs', if r then fs' = <[p := written fs p ""]> fs else fs' = fs
  | BufWrite p so_far => λ r fs', torn fs p so_far fs'
  | Flush p so_far => λ r fs',
      if r then fs' = <[p := written fs p so_far]> fs else torn fs p so_far fs'
  | Get _ _ => λ r fs', fs' = fs
  end.

(** What a crash in the middle of an operation can leave, besides the
    states before and after it. *)
Definition halfway (o : op) (fs fs' : FS) : Prop :=
  match o with
  | WriteFile p body => torn fs p body fs'
  | CopyFile a b => ∃ f, fs !! a = Some f ∧ torn fs b (f_content f) fs'
  | Flush p so_far => torn fs p so_far fs'
  | _ => False
  end.

(** ** Programs *)

Inductive prog (A : Type) : Type :=
  | Ret (a : A)
  | Act (o : op) (k : answer o → prog A).
Arguments Ret {_} _.
Arguments Act {_} _ _.

Fixpoint bind {A B} (p : prog A) (f : A → prog B) : prog B :=
  match p with
  | Ret a => f a
  | Act o k => Act o (λ r, bind (k r) f)
  end.

Definition act (o : op) : prog (answer o) := Act o Ret.

Declare Scope prog_scope.
Delimit Scope prog_scope with prog.
Bind Scope prog_scope with prog.
Notation "x <- p ; q" := (bind p (λ x, q))
  (at level 100, p at next level, q at level 200, right associativity) : prog_scope.
Notation "p ;; q" := (bind p (λ _, q))
  (at level 100, q at level 200, right associativity) : prog_scope.

Inductive returns {A} : prog A → FS → A → FS → Prop :=
  | returns_ret a fs : returns (Ret a) fs a fs
  | returns_act o k r fs fs1 a fs' :
      outcome o fs r fs1 → returns (k r) fs1 a fs' → returns (Act o k) fs a fs'.

(** The file systems a run may be stopped in. *)
Inductive cut {A} : prog A → FS → FS → Prop :=
  | cut_now p fs : cut p fs fs
  | cut_halfway o k fs fs' : halfway o fs fs' → cut (Act o k) fs fs'
  | cut_later o k r fs fs1 fs' : outcome o fs r fs1 → cut (k r) fs1 fs' → cut (Act o k) fs fs'.

Lemma returns_cut {A} (p : prog A) fs a fs' : returns p fs a fs' → cut p fs fs'.
Proof. induction 1; [constructor|by eapply cut_later]. Qed.

(** ** Weakest precondition *)

Section Wp.
Variable I : FS → Prop.

Fixpoint wp {A} (p : prog A) (Q : A → FS → Prop) (fs : FS) : Prop :=
  I fs ∧
  match p with
  | Ret a => Q a fs
  | Act o k =>
      (∀ fs', halfway o fs fs' → I fs') ∧
      ∀ r fs', outcome o fs r fs' → wp (k r) Q fs'
  end.

Lemma wp_inv {A} (p : prog A) Q fs : wp p Q fs → I fs.
Proof. by destruct p; intros [? _]. Qed.

Lemma wp_mono {A} (p : prog A) (Q Q' : A → FS → Prop) fs :
  wp p Q fs → (∀ a fs', I fs' → Q a fs' → Q' a fs') → wp p Q' fs.
Proof.
  intros Hp HQ. revert fs Hp. induction p as [a|o k IH]; simpl; intros fs [HI Hp]; split; auto.
  destruct Hp as [Hh Hk]. split; eauto.
Qed.

Lemma wp_bind {A B} (p : prog A) (f : A → prog B) Q fs :
  wp p (λ a, wp (f a) Q) fs → wp (bind p f) Q fs.
Proof.
  revert fs. induction p as [a|o k IH]; simpl; intros fs [HI Hp]; [done|].
  destruct Hp as [Hh Hk]. split; [done|]. split; eauto.
Qed.

(** An operation that neither changes files nor is interrupted. *)
Lemma wp_quiet {A} o (k : answer o → prog A) Q fs :
  (∀ r fs', outcome o fs r fs' → fs' = fs) → (∀ fs', ¬ halfway o fs fs') →
  I fs → (∀ r, outcome o fs r fs → wp (k r) Q fs) → wp (Act o k) Q fs.
Proof.
  intros Hq Hh HI Hk. split; [done|]. split.
  - intros fs' H. by apply Hh in H.
  - intros r fs' H. pose proof (Hq _ _ H) as ->. auto.
Qed.

Lemma wp_returns {A} (p : prog A) Q fs a fs' : wp p Q fs → returns p fs a fs' → Q a fs'.
Proof.
  intros Hp Hr. induction Hr as [a fs|o k r fs fs1 a fs' Ho _ IH]; destruct Hp as [_ Hp]; [done|].
  destruct Hp as [_ Hk]. auto.
Qed.

Lemma wp_cut {A} (p : prog A) Q fs fs' : wp p Q fs → cut p fs fs' → I fs'.
Proof.
  intros Hp Hc. induction Hc as [p fs|o k fs fs' Hh|o k r fs fs1 fs' Ho _ IH].
  - by eapply wp_inv.
  - destruct Hp as [_ [Hp _]]. auto.
  - destruct Hp as [_ [_ Hp]]. auto.
Qed.
End Wp.

(** ** Running under a plan of faults *)

Inductive Fault := NoFault | Fails | Crosses.

Section Exec.
Variable net : string → option (list (option string)).
Variable plan : nat → Fault.

(** One operation under a fault; a failing write changes nothing. *)
Definition perform (fault : Fault) (o : op) (fs : FS) : answer o * FS :=
  match o return answer o * FS with
  | ReadFile p => (match fault with NoFault => f_content <$> fs !! p | _ => None end, fs)
  | WriteFile p body =>
      match fault with NoFault => (true, <[p := written fs p body]> fs) | _ => (false, fs) end
  | RemoveFile p =>
      match fault, fs !! p with NoFault, Some _ => (true, delete p fs) | _, _ => (false, fs) end
  | Rename a b =>
      match fault, fs !! a with
      | NoFault, Some f => (RenameOk, <[b := f]> (delete a fs))
      | Crosses, _ => (CrossesDevices, fs)
      | _, _ => (RenameFailed, fs)
      end
  | CopyFile a b =>
      match fault, fs !! a with NoFault, Some f => (true, <[b := f]> fs) | _, _ => (false, fs) end
  | SetExecutable p =>
      match fault, fs !! p with
      | NoFault, Some f => (true, <[p := {| f_content := f_content f; f_executable := true |}]> fs)
      | _, _ => (false, fs)
      end
  | CreateDirAll _ => (match fault with NoFault => true | _ => false end, fs)
  | IsFile p => (match fault with NoFault => is_some (fs !! p) | _ => false end, fs)
  | IsReadonly _ => (match fault with NoFault => false | _ => true end, fs)
  | CreateFile p =>
      match fault with NoFault => (true, <[p := written fs p ""]> fs) | _ => (false, fs) end
  | BufWrite p so_far =>
      (match fault with NoFault => true | _ => false end, <[p := written fs p ""]> fs)
  | Flush p so_far =>
      match fault with
      | NoFault => (true, <[p := written fs p so_far]> fs)
      | _ => (false, <[p := written fs p ""]> fs)
      end
  | Get url _ => (match fault with NoFault => net url | _ => None end, fs)
  end.

Fixpoint exec {A} (n : nat) (p : prog A) (fs : FS) : A * FS :=
  match p with
  | Ret a => (a, fs)
  | Act o k => let '(r, fs) := perform (plan n) o fs in exec (S n) (k r) fs
  end.

Lemma torn_empty fs p body : torn fs p body (<[p := written fs p ""]> fs).
Proof. by exists "", body. Qed.

Lemma perform_outcome fault o fs : outcome o fs (perform fault o fs).1 (perform fault o fs).2.
Proof.
  destruct o as [p|p b|p|a b|a b|p|p|p|p|p|p b|p b|u l], fault; simpl; try done;
    try (destruct (fs !! _) eqn:E); simpl; rewrite ?E; simpl; auto using torn_empty; try done;
    eauto 10.
Qed.

(** The run is one the program may have. *)
Lemma exec_returns {A} n (p : prog A) fs : returns p fs (exec n p fs).1 (exec n p fs).2.
Proof.
  revert n fs. induction p as [a|o k IH]; intros n fs; [by constructor|]. simpl.
  pose proof (perform_outcome (plan n) o fs) as H. destruct (perform (plan n) o fs) as [r fs1].
  econstructor; [exact H|apply IH].
Qed.
End Exec.

(** ** Runs in which nothing fails *)

Section Sunny.
Variable net : string → option (list (option string)).

Definition sunny {A} (p : prog A) (fs : FS) : A * FS := exec net (λ _, NoFault) 0 p fs.

Lemma exec_const {A} n m (p : prog A) fs :
  exec net (λ _, NoFault) n p fs = exec net (λ _, NoFault) m p fs.
Proof.
  revert n m fs. induction p as [a|o k IH]; intros n m fs; [done|]. simpl.
  destruct (perform net NoFault o fs) as [r fs']. apply IH.
Qed.

(** Its result is one the program may return, and may be stopped in. *)
Lemma sunny_cut {A} (p : prog A) fs : cut p fs (sunny p fs).2.
Proof. eapply returns_cut, exec_returns. Qed.

Lemma sunny_bind {A B} (p : prog A) (f : A → prog B) fs :
  sunny (bind p f) fs = sunny (f (sunny p fs).1) (sunny p fs).2.
Proof.
  unfold sunny. revert fs. induction p as [a|o k IH]; intros fs; [done|]. simpl.
  destruct (perform net NoFault o fs) as [r fs'].
  rewrite (exec_const 1 0 (bind (k r) f)), (exec_const 1 0 (k r)). apply IH.
Qed.

Lemma sunny_act {A} o (k : answer o → prog A) fs :
  sunny (bind (act o) k) fs
  = sunny (k (perform net NoFault o fs).1) (perform net NoFault o fs).2.
Proof. rewrite sunny_bind. unfold sunny. simpl. by destruct (perform net NoFault o fs). Qed.
End Sunny.
