(* ===== verification/Update.v ===== *)
(** * The self-updater: cli/src/update.rs

    [check] asks for the newest release, [stage] downloads and verifies its
    binary into the OTA directory, [apply_pending_on_boot] swaps a staged
    binary into place at the next start, [cmd_rollback] swaps back.  All of
    them are programs of [Io.v].  The semver, sha2, minisign and serde
    crates are parameters; where the process image lives, what the user
    answers and the running version are arguments. *)

From stdpp Require Import base gmap strings list sets.
From Stdlib Require Import Ascii.
From S2P Require Import Prelude RStr Text Json Io.

Local Open Scope string_scope.
Local Open Scope nat_scope.
Local Open Scope list_scope.
Local Open Scope prog_scope.

(** ** Interfaces to other crates *)

(** [semver::Version]. *)
Class Semver := {
  Version : Type;
  version_eq_dec :: EqDecision Version;
  version_parse : string → option Version;
  version_to_string : Version → string;
  version_leb : Version → Version → bool
}.

Class SemverOk `{Semver} := {
  version_parse_to_string : ∀ v, version_parse (version_to_string v) = Some v
}.

(** [sha2::Sha256] as a streaming hasher, with [hex::encode]. *)
Class Sha256 := {
  hasher : Type;
  hasher_new : hasher;
  hasher_update : hasher → string → hasher;
  hasher_finalize : hasher → string
}.

(** The digest depends on the bytes, not on how they were split. *)
Class Sha256Ok `{Sha256} := {
  hasher_update_nil : ∀ h, hasher_update h "" = h;
  hasher_update_app : ∀ h a b, hasher_update (hasher_update h a) b = hasher_update h (a +:+ b)
}.

(** [minisign_verify]: key, payload, signature text; key and signature
    parse and the signature is valid. *)
Class Minisign := { minisign_verify : string → string → string → bool }.

(** ** The state file *)

Record OtaState := {
  staged_version : option string;
  staged_sha256 : option string;
  latest_seen : option string
}.

#[export] Instance ota_state_eq_dec : EqDecision OtaState.
Proof. solve_decision. Defined.

Definition OtaState_default : OtaState :=
  {| staged_version := None; staged_sha256 := None; latest_seen := None |}.

(** [serde_json] on [OtaState]: [to_string_pretty] and [from_str]. *)
Class OtaSerde := {
  state_to_string : OtaState → option string;
  state_from_str : string → option OtaState
}.

(** What was printed reads back, and a JSON object cut short is an error. *)
Class OtaSerdeOk `{OtaSerde} := {
  state_roundtrip : ∀ st body, state_to_string st = Some body → state_from_str body = Some st;
  state_truncated : ∀ st body part rest, state_to_string st = Some body →
    body = part +:+ rest → rest ≠ "" → state_from_str part = None
}.

(** ** Paths *)

(** [Path::file_stem] of a file name. *)
Definition file_stem (name : string) : string :=
  match rsplit_once_l "."%char (chars name) with
  | Some (x :: before, _) => of_chars (x :: before)
  | _ => name
  end.

Definition parent (p : Path) : option Path :=
  match p with [] => None | _ => Some (removelast p) end.

(** [Path::with_extension] with a non-empty extension. *)
Definition with_extension (ext : string) (p : Path) : Path :=
  match last p with
  | None => p
  | Some name => removelast p ++ [file_stem name +:+ "." +:+ ext]
  end.

(** [Path::ends_with]. *)
Definition path_ends_with (p tail : Path) : bool :=
  bool_decide (length tail ≤ length p ∧ drop (length p - length tail) p = tail).

(** [Path::ancestors]: the path itself first. *)
Definition path_ancestors (p : Path) : list Path := rev (map (λ n, take n p) (seq 0 (S (length p)))).

Definition PREV_SUFFIX : string := ".prev".
Definition STAGED_FILE : string := "rsrpc-cli.staged".
Definition STATE_FILE : string := "ota.json".
Definition CHECKSUMS_ASSET : string := "SHA256SUMS.txt".
Definition CHECKSUMS_SIG_ASSET : string := "SHA256SUMS.txt.minisig".
Definition UPDATE_PUBKEY : string := "RWT97nYjybg6X/Q35LBD/thrjkAmYmEHbRm8TQjvpJeLO2kNONgb4ibw".
Definition LATEST_RELEASE_URL : string :=
  "https://api.github.com/repos/yiesko/discord-rich-presence/releases/latest".
Definition META_DOWNLOAD_LIMIT : Z := 1024 * 1024.
Definition BINARY_DOWNLOAD_LIMIT : Z := 128 * 1024 * 1024.

(** [prev_path]: the suffix on the whole path. *)
Definition prev_path (exe : Path) : Path :=
  match last exe with
  | None => exe
  | Some name => removelast exe ++ [name +:+ PREV_SUFFIX]
  end.

(** [OtaPaths], by its directory. *)
Definition state_file (dir : Path) : Path := dir ++ [STATE_FILE].
Definition staged_file (dir : Path) : Path := dir ++ [STAGED_FILE].

(** ** Releases *)

(** [target_triple]. *)
Definition target_triple (arch os : string) : option string :=
  if String.eqb arch "x86_64" && String.eqb os "linux" then Some "x86_64-unknown-linux-gnu"
  else if String.eqb arch "aarch64" && String.eqb os "linux" then Some "aarch64-unknown-linux-gnu"
  else None.

Record Asset := { asset_name : string; asset_url : string }.

Definition is_hexdigit (c : ascii) : bool :=
  (is_digit c || ((97 <=? code c) && (code c <=? 102)) || ((65 <=? code c) && (code c <=? 70)))%Z.

(** One line of [parse_checksums]. *)
Definition checksum_line (line : list ascii) : option (string * string) :=
  match words white_space line with
  | hex :: name :: _ =>
      let name := drop_while_eq "*"%char name in
      if bool_decide (length hex = 64) && forallb is_hexdigit hex && bool_decide (name ≠ [])
      then Some (of_chars name, to_ascii_lowercase (of_chars hex)) else None
  | _ => None
  end.

(** [parse_checksums]: collected in order, so a later line replaces. *)
Definition parse_checksums (text : string) : gmap string string :=
  foldl (λ m kv, <[kv.1 := kv.2]> m) ∅ (omap checksum_line (lines text)).

Section Update.
Context `{Semver, Sha256, Minisign, OtaSerde, Serde}.

Record ReleaseInfo := {
  ri_version : Version;
  ri_tag : string;
  ri_assets : list Asset
}.

(** [parse_version]. *)
Definition parse_version (tag : string) : option Version :=
  version_parse (default (trim tag) (strip_prefix "v" (trim tag))).

Definition parse_asset (v : Value) : option Asset :=
  match value_get "name" v ≫= as_str, value_get "browser_download_url" v ≫= as_str with
  | Some name, Some url => Some {| asset_name := name; asset_url := url |}
  | _, _ => None
  end.

(** [parse_release]. *)
Definition parse_release (body : Value) : option ReleaseInfo :=
  match value_get "tag_name" body ≫= as_str with
  | None => None
  | Some tag =>
      match parse_version tag with
      | None => None
      | Some version =>
          match value_get "assets" body ≫= as_array with
          | None => None
          | Some assets => Some {| ri_version := version; ri_tag := tag;
                                   ri_assets := omap parse_asset assets |}
          end
      end
  end.

(** [select_asset]. *)
Definition select_asset (release : ReleaseInfo) (file_name : string) : option Asset :=
  List.find (λ a, String.eqb (asset_name a) file_name) (ri_assets release).

Inductive CheckOutcome :=
  | UpToDate (current : Version)
  | Available (current latest : Version) (tag name url : string)
      (checksums_url checksums_sig_url : option string)
  | UnsupportedTarget (current : Version) (triple : string).

(** A response body read to its end. *)
Definition read_to_end (reads : list (option string)) : option string :=
  foldr (λ r acc, match r, acc with Some a, Some b => Some (a +:+ b) | _, _ => None end)
    (Some "") reads.

(** [download]. *)
Definition download (url : string) (limit : Z) : prog (option string) :=
  response <- act (Get url limit);
  Ret (response ≫= read_to_end).

(** [fetch_release]. *)
Definition fetch_release : prog (option ReleaseInfo) :=
  body <- download LATEST_RELEASE_URL META_DOWNLOAD_LIMIT;
  Ret (body ≫= λ body,
         if utf8_valid (map code (chars body)) then json_from_str body ≫= parse_release
         else None).

(** [check]; [None] is an error. *)
Definition check (arch os : string) (current : Version) : prog (option CheckOutcome) :=
  let unsupported := UnsupportedTarget current (arch +:+ "-" +:+ os) in
  match target_triple arch os with
  | None => Ret (Some unsupported)
  | Some triple =>
      release <- fetch_release;
      Ret match release with
          | None => None
          | Some release =>
              if version_leb (ri_version release) current then Some (UpToDate current)
              else match select_asset release ("rsrpc-cli-" +:+ triple) with
                   | Some asset =>
                       Some (Available current (ri_version release) (ri_tag release)
                               (asset_name asset) (asset_url asset)
                               (asset_url <$> select_asset release CHECKSUMS_ASSET)
                               (asset_url <$> select_asset release CHECKSUMS_SIG_ASSET))
                   | None => Some unsupported
                   end
          end
  end.

(** ** Verification *)

Definition sha256_hex (bytes : string) : string := hasher_finalize (hasher_update hasher_new bytes).

Definition verify_signature (payload sig : string) : bool :=
  minisign_verify UPDATE_PUBKEY payload sig.

Inductive Refusal :=
  | DevBuild (exe : Path)
  | CargoManaged (exe : Path)
  | UnexpectedName (name : string)
  | NotWritable (dir : Path).

(** [check_eligibility]. *)
Definition check_eligibility (exe : Path) : prog (option Refusal) :=
  let in_profile := match parent exe with
                    | Some d => path_ends_with d ["debug"] || path_ends_with d ["release"]
                    | None => false
                    end in
  if bool_decide ("target" ∈ exe) && in_profile
     || existsb (λ a, path_ends_with a ["target"; "debug"] || path_ends_with a ["target"; "release"])
          (path_ancestors exe)
  then Ret (Some (DevBuild exe))
  else if existsb (λ a, path_ends_with a [".cargo"; "bin"]) (path_ancestors exe)
  then Ret (Some (CargoManaged exe))
  else
    let stem := default "" (file_stem <$> last exe) in
    if negb (String.eqb stem "rsrpc-cli") then Ret (Some (UnexpectedName (default "?" (last exe))))
    else match parent exe with
         | None => Ret None
         | Some dir =>
             readonly <- act (IsReadonly dir);
             Ret (if readonly : bool then Some (NotWritable dir) else None)
         end.

(** [load_state] and [save_state]. *)
Definition load_state (dir : Path) : prog OtaState :=
  body <- act (ReadFile (state_file dir));
  Ret (default OtaState_default
         (body ≫= λ body, if utf8_valid (map code (chars body)) then state_from_str body else None)).

Definition save_state (dir : Path) (st : OtaState) : prog unit :=
  made <- act (CreateDirAll dir);
  if made : bool then
    match state_to_string st with
    | Some body => act (WriteFile (state_file dir) body) ;; Ret tt
    | None => Ret tt
    end
  else Ret tt.

(** ** Staging *)

(** The read loop of [download_to_file]: hash and write as the body
    arrives; a read of nothing ends it. *)
Fixpoint stream (path : Path) (reads : list (option string)) (h : hasher) (so_far : string)
    : prog (option (hasher * string)) :=
  match reads with
  | [] | Some "" :: _ => Ret (Some (h, so_far))
  | None :: _ => Ret None
  | Some chunk :: reads =>
      ok <- act (BufWrite path (so_far +:+ chunk));
      if ok : bool then stream path reads (hasher_update h chunk) (so_far +:+ chunk)
      else Ret None
  end.

Definition download_to_file (url : string) (path : Path) (limit : Z) : prog (option string) :=
  response <- act (Get url limit);
  match response with
  | None => Ret None
  | Some reads =>
      created <- act (CreateFile path);
      if negb created then Ret None
      else
        done <- stream path reads hasher_new "";
        match done with
        | None => Ret None
        | Some (h, so_far) =>
            ok <- act (Flush path so_far);
            Ret (if ok : bool then Some (hasher_finalize h) else None)
        end
  end.

Inductive StageError :=
  | NothingToStage
  | CannotSelfUpdate (refusal : Refusal)
  | CannotStage
  | NoChecksums
  | NoSignature
  | DownloadFailed
  | BadSignatureText
  | BadSignature
  | BadChecksums
  | NoEntry
  | ChecksumMismatch.

(** The part file goes before the error is reported. *)
Definition abandon (tmp : Path) (e : StageError) : prog (StageError + Version) :=
  act (RemoveFile tmp) ;; Ret (inl e).

(** From a trusted hash on: download, compare, move into place, record. *)
Definition stage_binary (dir : Path) (latest : Version) (url expected : string)
    : prog (StageError + Version) :=
  let staged := staged_file dir in
  let tmp := with_extension "part" staged in
  got <- download_to_file url tmp BINARY_DOWNLOAD_LIMIT;
  match got with
  | None => abandon tmp DownloadFailed
  | Some actual =>
      if negb (String.eqb actual expected) then abandon tmp ChecksumMismatch
      else
        ok <- act (SetExecutable tmp);
        if negb ok then abandon tmp CannotStage
        else
          moved <- act (Rename tmp staged);
          match moved with
          | RenameOk =>
              save_state dir {| staged_version := Some (version_to_string latest);
                                staged_sha256 := Some actual;
                                latest_seen := Some (version_to_string latest) |} ;;
              Ret (inr latest)
          | _ => abandon tmp CannotStage
          end
  end.

(** The hash a signed manifest lists for the asset. *)
Definition trusted_hash (manifest sig name : string) : StageError + string :=
  if negb (utf8_valid (map code (chars sig))) then inl BadSignatureText
  else if negb (verify_signature manifest sig) then inl BadSignature
  else if negb (utf8_valid (map code (chars manifest))) then inl BadChecksums
  else match parse_checksums manifest !! name with
       | None => inl NoEntry
       | Some expected => inr expected
       end.

(** [stage]. *)
Definition stage (available : CheckOutcome) (dir exe : Path) : prog (StageError + Version) :=
  match available with
  | Available _ latest _ name url checksums_url checksums_sig_url =>
      refusal <- check_eligibility exe;
      match refusal with
      | Some refusal => Ret (inl (CannotSelfUpdate refusal))
      | None =>
          made <- act (CreateDirAll dir);
          if negb made then Ret (inl CannotStage)
          else
            match checksums_url, checksums_sig_url with
            | None, _ => Ret (inl NoChecksums)
            | _, None => Ret (inl NoSignature)
            | Some checksums_url, Some checksums_sig_url =>
                manifest <- download checksums_url META_DOWNLOAD_LIMIT;
                match manifest with
                | None => Ret (inl DownloadFailed)
                | Some manifest =>
                    sig <- download checksums_sig_url META_DOWNLOAD_LIMIT;
                    match sig with
                    | None => Ret (inl DownloadFailed)
                    | Some sig =>
                        match trusted_hash manifest sig name with
                        | inl e => Ret (inl e)
                        | inr expected => stage_binary dir latest url expected
                        end
                    end
                end
            end
      end
  | _ => Ret (inl NothingToStage)
  end.

(** ** Applying and rolling back *)

(** [swap_binary]; [false] is an error. *)
Definition swap_binary (exe new_image : Path) : prog bool :=
  let prev := prev_path exe in
  act (RemoveFile prev) ;;
  aside <- act (Rename exe prev);
  match aside with
  | RenameOk =>
      moved <- act (Rename new_image exe);
      match moved with
      | RenameOk => Ret true
      | CrossesDevices =>
          let tmp := with_extension "ota-tmp" exe in
          copied <- act (CopyFile new_image tmp);
          if negb copied then Ret false
          else
            ok <- act (SetExecutable tmp);
            if negb ok then Ret false
            else
              placed <- act (Rename tmp exe);
              match placed with
              | RenameOk => act (RemoveFile new_image) ;; Ret true
              | _ => Ret false
              end
      | RenameFailed => act (Rename prev exe) ;; Ret false
      end
  | _ => Ret false
  end.

(** [swap_back]. *)
Definition swap_back (exe prev : Path) : prog bool :=
  let tmp := with_extension "ota-swap" exe in
  aside <- act (Rename exe tmp);
  match aside with
  | RenameOk =>
      restored <- act (Rename prev exe);
      match restored with
      | RenameOk =>
          kept <- act (Rename tmp prev);
          Ret match kept with RenameOk => true | _ => false end
      | _ => act (Rename tmp exe) ;; Ret false
      end
  | _ => Ret false
  end.

(** How a start continues: with the running image or by executing the one
    now in place. *)
Inductive BootEnd := Continue | Reexec.

(** [discard]. *)
Definition discard (dir : Path) : prog BootEnd :=
  act (RemoveFile (staged_file dir)) ;; save_state dir OtaState_default ;; Ret Continue.

(** [apply_pending_on_boot]: [applied] is the guard variable, [exe] the
    located image. *)
Definition apply_pending_on_boot (applied : bool) (exe : option Path) (dir : Path)
    (current : Version) : prog BootEnd :=
  if applied then Ret Continue
  else match exe with
       | None => Ret Continue
       | Some exe =>
           st <- load_state dir;
           match staged_version st, staged_sha256 st with
           | Some version, Some sha256 =>
               match version_parse version with
               | None => discard dir
               | Some version =>
                   if version_leb version current then discard dir
                   else
                     refusal <- check_eligibility exe;
                     match refusal with
                     | Some _ => discard dir
                     | None =>
                         bytes <- act (ReadFile (staged_file dir));
                         match bytes with
                         | None => discard dir
                         | Some bytes =>
                             if negb (String.eqb (sha256_hex bytes) sha256) then discard dir
                             else
                               swapped <- swap_binary exe (staged_file dir);
                               if swapped : bool then
                                 save_state dir {| staged_version := None; staged_sha256 := None;
                                                   latest_seen := Some (version_to_string version) |} ;;
                                 Ret Reexec
                               else discard dir
                         end
                     end
               end
           | _, _ => Ret Continue
           end
       end.

Inductive RollbackEnd := RolledBack | RollbackSkipped | RollbackError.

(** [cmd_rollback]. *)
Definition cmd_rollback (applied : bool) (exe : option Path) (dir : Path) : prog RollbackEnd :=
  if applied then Ret RollbackSkipped
  else match exe with
       | None => Ret RollbackError
       | Some exe =>
           refusal <- check_eligibility exe;
           match refusal with
           | Some _ => Ret RollbackError
           | None =>
               let prev := prev_path exe in
               kept <- act (IsFile prev);
               if negb kept then Ret RollbackError
               else
                 act (RemoveFile (staged_file dir)) ;;
                 save_state dir OtaState_default ;;
                 ok <- swap_back exe prev;
                 Ret (if ok : bool then RolledBack else RollbackError)
           end
       end.

(** ** Commands *)

(** [cmd_stage]: [yes], or the line the user typed. *)
Definition cmd_stage (arch os : string) (current : Version) (yes : bool) (line : option string)
    (exe : option Path) (dir : Path) : prog (option (StageError + Version)) :=
  outcome <- check arch os current;
  match outcome with
  | Some (Available _ _ _ _ _ _ _ as available) =>
      let confirmed := yes || match line with
                              | Some line => bool_decide (to_ascii_lowercase (trim line) ∈ ["y"; "yes"])
                              | None => false
                              end in
      if negb confirmed then Ret None
      else match exe with
           | None => Ret None
           | Some exe => staged <- stage available dir exe; Ret (Some staged)
           end
  | _ => Ret None
  end.

(** One round of the watcher: the version already announced or staged. *)
Definition watch_round (arch os : string) (current : Version) (auto : bool)
    (exe : option Path) (dir : Path) (notified : option Version) : prog (option Version) :=
  outcome <- check arch os current;
  match outcome with
  | Some (Available _ latest _ _ _ _ _ as available) =>
      if bool_decide (notified = Some latest) then Ret notified
      else if auto then
        made <- act (CreateDirAll dir);
        match made : bool, exe with
        | true, Some exe =>
            staged <- stage available dir exe;
            Ret match staged with
                | inr _ => Some latest
                | inl _ => notified
                end
        | _, _ => Ret notified
        end
      else Ret (Some latest)
  | _ => Ret notified
  end.
End Update.
