(* ===== verification/OtaDemo.v ===== *)
(** * Concrete instances for the updater's witnesses

    Versions that are strings, a hash of two values, a signature check on a
    fixed text, and a prefix-free encoding of the state file, for which the
    laws assumed of the serializer are proved. *)

From stdpp Require Import base gmap strings list sets.
From Stdlib Require Import Ascii.
From S2P Require Import Prelude RStr Text Json Io Update.

Local Open Scope string_scope.
Local Open Scope nat_scope.
Local Open Scope list_scope.

(** ** A state encoding *)

Fixpoint enc (l : list ascii) : list ascii :=
  match l with [] => ["e"%char] | c :: l => "."%char :: c :: enc l end.

Fixpoint dec (l : list ascii) : option (list ascii * list ascii) :=
  match l with
  | [] => None
  | a :: l =>
      if Ascii.eqb a "e" then Some ([], l)
      else if Ascii.eqb a "." then
        match l with
        | c :: l => match dec l with Some (x, y) => Some (c :: x, y) | None => None end
        | [] => None
        end
      else None
  end.

Lemma dec_enc l r : dec (enc l ++ r) = Some (l, r).
Proof. induction l as [|c l IH]; [done|]. simpl. by rewrite IH. Qed.

Lemma dec_sound_len n : ∀ l x y, length l ≤ n → dec l = Some (x, y) → l = enc x ++ y.
Proof.
  induction n as [|n IH]; intros [|a l] x y Hl; simpl in *; try done; try lia.
  destruct (Ascii.eqb_spec a "e") as [->|]; [by intros [= <- <-]|].
  destruct (Ascii.eqb_spec a ".") as [->|]; [|done]. destruct l as [|c l]; [done|].
  destruct (dec l) as [[x' y']|] eqn:E; [|done]. intros [= <- <-].
  apply IH in E; [by rewrite E|simpl in Hl; lia].
Qed.

Definition enc_opt (o : option string) : list ascii :=
  match o with None => ["n"%char] | Some s => "s"%char :: enc (chars s) end.

Definition dec_opt (l : list ascii) : option (option string * list ascii) :=
  match l with
  | [] => None
  | a :: l =>
      if Ascii.eqb a "n" then Some (None, l)
      else if Ascii.eqb a "s" then
        match dec l with Some (x, y) => Some (Some (of_chars x), y) | None => None end
      else None
  end.

Lemma dec_enc_opt o r : dec_opt (enc_opt o ++ r) = Some (o, r).
Proof.
  destruct o as [s|]; [|done]. simpl. rewrite dec_enc. by rewrite of_chars_chars.
Qed.

Lemma dec_opt_sound l o y : dec_opt l = Some (o, y) → l = enc_opt o ++ y.
Proof.
  destruct l as [|a l]; [done|]. simpl.
  destruct (Ascii.eqb_spec a "n") as [->|]; [by intros [= <- <-]|].
  destruct (Ascii.eqb_spec a "s") as [->|]; [|done].
  destruct (dec l) as [[x' y']|] eqn:E; [|done]. intros [= <- <-].
  apply (dec_sound_len (length l)) in E; [|done]. simpl. rewrite chars_of_chars. by rewrite E.
Qed.

Definition enc_state (st : OtaState) : list ascii :=
  enc_opt (staged_version st) ++ enc_opt (staged_sha256 st) ++ enc_opt (latest_seen st).

Definition dec_fields (l : list ascii) : option (OtaState * list ascii) :=
  match dec_opt l with
  | Some (a, l) =>
      match dec_opt l with
      | Some (b, l) =>
          match dec_opt l with
          | Some (c, l) =>
              Some ({| staged_version := a; staged_sha256 := b; latest_seen := c |}, l)
          | None => None
          end
      | None => None
      end
  | None => None
  end.

Lemma dec_enc_state st r : dec_fields (enc_state st ++ r) = Some (st, r).
Proof.
  unfold dec_fields, enc_state. rewrite <-!app_assoc, !dec_enc_opt. by destruct st.
Qed.

Lemma dec_fields_sound l st r : dec_fields l = Some (st, r) → l = enc_state st ++ r.
Proof.
  unfold dec_fields, enc_state. intros E.
  destruct (dec_opt l) as [[a l1]|] eqn:E1; [|done]. apply dec_opt_sound in E1 as ->.
  destruct (dec_opt l1) as [[b l2]|] eqn:E2; [|done]. apply dec_opt_sound in E2 as ->.
  destruct (dec_opt l2) as [[c l3]|] eqn:E3; [|done]. apply dec_opt_sound in E3 as ->.
  injection E as <- <-. simpl. by rewrite <-!app_assoc.
Qed.

Definition dec_state (body : string) : option OtaState :=
  match dec_fields (chars body) with Some (st, []) => Some st | _ => None end.

Lemma dec_state_printed st : dec_state (of_chars (enc_state st)) = Some st.
Proof.
  unfold dec_state. rewrite chars_of_chars. pose proof (dec_enc_state st []) as E.
  rewrite app_nil_r in E. by rewrite E.
Qed.

Module OtaDemo.
#[local] Instance semver : Semver := {|
  Version := string; version_eq_dec := _; version_parse := Some; version_to_string := λ v, v;
  version_leb := String.leb |}.

#[local] Instance sha256 : Sha256 := {|
  hasher := string; hasher_new := ""; hasher_update := λ h s, h +:+ s;
  hasher_finalize := λ h, of_chars (replicate 64 (if String.eqb h "new" then "a"%char else "b"%char)) |}.

#[local] Instance minisign : Minisign := {| minisign_verify := λ _ _ sig, String.eqb sig "signed" |}.

#[local] Instance ota_serde : OtaSerde := {|
  state_to_string := λ st, Some (of_chars (enc_state st)); state_from_str := dec_state |}.

Lemma semver_ok : SemverOk.
Proof. by constructor. Defined.

Lemma sha256_ok : Sha256Ok.
Proof.
  constructor; simpl; intros; [apply string_app_nil_r|apply string_app_assoc].
Defined.

Lemma ota_serde_ok : OtaSerdeOk.
Proof.
  constructor.
  - simpl. intros st body [= <-]. apply dec_state_printed.
  - simpl. intros st body part rest [= <-] E Hr. unfold dec_state.
    destruct (dec_fields (chars part)) as [[st' [|c r]]|] eqn:Ed; [|done..]. destruct Hr.
    apply dec_fields_sound in Ed. rewrite app_nil_r in Ed.
    assert (enc_state st ++ [] = enc_state st' ++ chars rest) as El.
    { rewrite app_nil_r, <-Ed, <-chars_app, <-E. by rewrite chars_of_chars. }
    pose proof (dec_enc_state st []) as E1. rewrite El, dec_enc_state in E1.
    injection E1 as _ Er. by rewrite <-(of_chars_chars rest), Er.
Defined.

Definition exe_dir : Path := ["usr"; "bin"].
Definition ota_dir : Path := ["cache"; "ota"].
Definition exe : Path := exe_dir ++ ["rsrpc-cli"].
Definition old : File := {| f_content := "old"; f_executable := true |}.
Definition start : FS := {[exe := old]}.
Definition asset : string := "rsrpc-cli-x86_64-unknown-linux-gnu".
Definition manifest : string :=
  of_chars (replicate 64 "A"%char) +:+ " *" +:+ asset +:+ str_of_codes [10%Z].

(** The release, its manifest, its signature and its binary in two reads. *)
Definition net (url : string) : option (list (option string)) :=
  if String.eqb url LATEST_RELEASE_URL then Some [Some "release"]
  else if String.eqb url "sums" then Some [Some manifest]
  else if String.eqb url "sig" then Some [Some "signed"]
  else if String.eqb url "bin" then Some [Some "n"; Some "ew"]
  else None.

Definition asset_value (name url : string) : Value :=
  VObject [("name", VString name); ("browser_download_url", VString url)].

#[local] Instance serde : Serde := {|
  json_to_string := λ _, None; msgpack_to_vec := λ _, None;
  json_from_str := λ body,
    if String.eqb body "release" then
      Some (VObject [("tag_name", VString "v2");
                     ("assets", VArray [asset_value asset "bin"; asset_value CHECKSUMS_ASSET "sums";
                                        asset_value CHECKSUMS_SIG_ASSET "sig"])])
    else None |}.

Definition ver (s : string) : Version := s.

(** Staged by version 1, then booted. *)
Definition stage_run : prog (option (StageError + Version)) :=
  cmd_stage "x86_64" "linux" "1" true None (Some exe) ota_dir.
Definition staged_fs : FS := (sunny net stage_run start).2.
Definition boot_run : prog BootEnd := apply_pending_on_boot false (Some exe) ota_dir "1".
Definition booted_fs : FS := (sunny net boot_run staged_fs).2.
End OtaDemo.
