(* ===== verification/UpdateProps.v ===== *)
(** * What the updater guarantees

    Whatever fails and wherever a run is cut, only verified images reach
    the executable's place; staging is all or nothing; a staged update is
    applied; a rollback is reversible; and the one branch in which a
    failing update leaves no image at all. *)

From stdpp Require Import base gmap strings list sets relations.
From Stdlib Require Import Ascii.
From S2P Require Import Prelude RStr Text Json Io Update OtaDemo.

Local Open Scope string_scope.
Local Open Scope nat_scope.
Local Open Scope list_scope.
Local Open Scope prog_scope.

(** ** Checksums *)

Lemma fold_insert_lookup (l : list (string * string)) (m : gmap string string) k v :
  foldl (λ m kv, <[kv.1 := kv.2]> m) m l !! k = Some v ↔
  (∃ l1 l2, l = l1 ++ (k, v) :: l2 ∧ k ∉ l2.*1) ∨ (m !! k = Some v ∧ k ∉ l.*1).
Proof.
  revert m. induction l as [|[a b] l IH] using rev_ind; intros m.
  - simpl. split; [intros Hm; right; split; [done|set_solver]|].
    intros [(l1 & l2 & E & _)|[Hm _]]; [by destruct l1|done].
  - rewrite foldl_snoc, fmap_app. simpl. destruct (decide (a = k)) as [->|Hne].
    + rewrite lookup_insert_eq. split.
      * intros [= ->]. left. exists l, []. split; [done|set_solver].
      * intros [(l1 & l2 & E & Hn)|[_ Hn]]; [|set_solver].
        destruct l2 as [|x l2 _] using rev_ind; [by apply app_inj_tail in E as [_ [= ->]]|].
        rewrite app_comm_cons, app_assoc in E. apply app_inj_tail in E as [_ <-].
        rewrite fmap_app in Hn. set_solver.
    + rewrite lookup_insert_ne by done. rewrite IH. split.
      * intros [(l1 & l2 & -> & Hn)|[Hm Hn]]; [left|right; set_solver].
        exists l1, (l2 ++ [(a, b)]). split; [by rewrite <-app_assoc|]. rewrite fmap_app. set_solver.
      * intros [(l1 & l2 & E & Hn)|[Hm Hn]]; [|right; set_solver]. left.
        destruct l2 as [|x l2 _] using rev_ind; [by apply app_inj_tail in E as [_ [= -> _]]|].
        rewrite app_comm_cons, app_assoc in E. apply app_inj_tail in E as [-> <-].
        exists l1, l2. split; [done|]. rewrite fmap_app in Hn. set_solver.
Qed.

Lemma omap_split {A B} (f : A → option B) l b r1 r2 :
  omap f l = r1 ++ b :: r2 →
  ∃ l1 a l2, l = l1 ++ a :: l2 ∧ f a = Some b ∧ omap f l1 = r1 ∧ omap f l2 = r2.
Proof.
  revert r1. induction l as [|a l IH]; intros r1; simpl.
  { intros E. by destruct r1. }
  destruct (f a) as [b'|] eqn:Ef.
  - destruct r1 as [|x r1]; simpl.
    + intros [= -> E]. by exists [], a, l.
    + intros [= <- E]. destruct (IH r1 E) as (l1 & a' & l2 & -> & ? & <- & ?).
      exists (a :: l1), a', l2. simpl. by rewrite Ef.
  - intros E. destruct (IH r1 E) as (l1 & a' & l2 & -> & ? & <- & ?).
    exists (a :: l1), a', l2. simpl. by rewrite Ef.
Qed.

(** The manifest's word on a file is its last well-formed line for that
    name: a digest is found exactly when some line carries it, of 64
    hexadecimal digits folded to lower case, and no later line names the
    file. *)
Theorem parse_checksums_last_line text name hex :
  parse_checksums text !! name = Some hex ↔
  ∃ before line after, lines text = before ++ line :: after ∧
    checksum_line line = Some (name, hex) ∧
    ∀ line' hex', line' ∈ after → checksum_line line' ≠ Some (name, hex').
Proof.
  unfold parse_checksums. rewrite fold_insert_lookup. split.
  - intros [(l1 & l2 & E & Hn)|[Hm _]]; [|by rewrite lookup_empty in Hm].
    apply omap_split in E as (b & line & a & -> & Hl & _ & Ha). exists b, line, a.
    split_and!; [done..|]. intros line' hex' Hin E. apply Hn. subst l2.
    apply list_elem_of_fmap. exists (name, hex'). split; [done|].
    apply list_elem_of_omap. eauto.
  - intros (b & line & a & -> & Hl & Ha). left. exists (omap checksum_line b), (omap checksum_line a).
    rewrite omap_app. simpl. rewrite Hl. split; [done|].
    intros ([n h] & Hn & Hin)%list_elem_of_fmap. simpl in Hn. subst n.
    apply list_elem_of_omap in Hin as (line' & Hin & E). by eapply Ha.
Qed.

(** ** Where the files are *)

Lemma last_snoc_path (d : Path) n : last (d ++ [n]) = Some n.
Proof. by rewrite last_snoc. Qed.

Lemma removelast_snoc (d : Path) n : removelast (d ++ [n]) = d.
Proof. apply removelast_last. Qed.

Lemma with_extension_snoc ext (d : Path) n :
  with_extension ext (d ++ [n]) = d ++ [file_stem n +:+ "." +:+ ext].
Proof. unfold with_extension. by rewrite last_snoc_path, removelast_snoc. Qed.

Lemma prev_path_snoc (d : Path) n : prev_path (d ++ [n]) = d ++ [n +:+ ".prev"].
Proof. unfold prev_path. by rewrite last_snoc_path, removelast_snoc. Qed.

(** The names a published binary has. *)
Definition published_name (name : string) : Prop := name = "rsrpc-cli" ∨ name = "rsrpc-cli.exe".

(** The places the updater touches, pairwise distinct: the image, the kept
    one, the two temporaries beside them, and in the OTA directory the
    state, the staged image and its part file. *)
Definition places (exe dir : Path) : list Path :=
  [exe; prev_path exe; with_extension "ota-swap" exe; with_extension "ota-tmp" exe;
   state_file dir; staged_file dir; with_extension "part" (staged_file dir)].

Lemma places_distinct edir name dir :
  published_name name → edir ≠ dir → NoDup (places (edir ++ [name]) dir).
Proof.
  intros Hn Hd. unfold places, state_file, staged_file.
  rewrite prev_path_snoc, !with_extension_snoc. destruct Hn as [->| ->].
  all: repeat apply NoDup_cons_2; try apply NoDup_nil_2; intros Hin;
    repeat (apply elem_of_cons in Hin as [E%app_inj_tail|Hin]; [naive_solver|]); by apply not_elem_of_nil in Hin.
Qed.

(** ** Only vouched images are installed *)

Section Vouched.
Context `{Semver, Sha256, Minisign, OtaSerdeOk, Serde}.
Variables (edir dir : Path) (name arch os image : string).
Hypothesis Hname : published_name name.
Hypothesis Hdir : edir ≠ dir.
Let exe : Path := edir ++ [name].

(** A manifest the release key signed lists the hash for this target's binary. *)
Definition vouched (hash : string) : Prop :=
  ∃ triple manifest sig, target_triple arch os = Some triple ∧
    verify_signature manifest sig = true ∧
    parse_checksums manifest !! ("rsrpc-cli-" +:+ triple) = Some hash.

(** The image the install started with, or one with a vouched hash. *)
Definition trusted (content : string) : Prop := content = image ∨ vouched (sha256_hex content).

(** The state file names no hash that is not vouched. *)
Definition state_ok (content : string) : Prop :=
  ∀ st hash, state_from_str content = Some st → staged_sha256 st = Some hash → vouched hash.

Definition file_ok (p : Path) (f : File) : Prop :=
  (p ∈ [exe; prev_path exe; with_extension "ota-swap" exe] → trusted (f_content f)) ∧
  (p = state_file dir → state_ok (f_content f)).

Definition ota_inv (fs : FS) : Prop := map_Forall file_ok fs.

Lemma places_ok : NoDup (places exe dir).
Proof. by apply places_distinct. Qed.

(** Files whose content nothing depends on. *)
Lemma scratch_ok p f :
  p ∈ [with_extension "ota-tmp" exe; staged_file dir; with_extension "part" (staged_file dir)] →
  file_ok p f.
Proof.
  intros Hp. pose proof places_ok as Hd. unfold places in Hd.
  rewrite !NoDup_cons in Hd. split; intros; set_solver.
Qed.

Lemma image_ok p f :
  p ∈ [exe; prev_path exe; with_extension "ota-swap" exe] → trusted (f_content f) → file_ok p f.
Proof.
  intros Hp Hf. pose proof places_ok as Hd. unfold places in Hd.
  rewrite !NoDup_cons in Hd. split; [done|]. intros. set_solver.
Qed.

Lemma state_file_ok f : state_ok (f_content f) → file_ok (state_file dir) f.
Proof.
  intros Hf. pose proof places_ok as Hd. unfold places in Hd.
  rewrite !NoDup_cons in Hd. split; [|done]. intros. set_solver.
Qed.

Lemma ota_inv_insert p f fs : file_ok p f → ota_inv fs → ota_inv (<[p := f]> fs).
Proof. intros. by apply map_Forall_insert_2. Qed.

Lemma ota_inv_delete p fs : ota_inv fs → ota_inv (delete p fs).
Proof. intros. by apply map_Forall_delete. Qed.

Lemma inv_image p f fs :
  ota_inv fs → p ∈ [exe; prev_path exe; with_extension "ota-swap" exe] → fs !! p = Some f →
  trusted (f_content f).
Proof. intros Hi Hp Hf. by apply (Hi p f Hf). Qed.

Lemma inv_move a b f fs :
  ota_inv fs → file_ok b f → ota_inv (<[b := f]> (delete a fs)).
Proof. intros. by apply ota_inv_insert, ota_inv_delete. Qed.

(** A scratch file may be written to in any way. *)
Lemma inv_torn p body fs fs' :
  (∀ part rest, body = part +:+ rest → file_ok p (written fs p part)) →
  ota_inv fs → torn fs p body fs' → ota_inv fs'.
Proof. intros Hp Hi (part & rest & E & ->). apply ota_inv_insert; [by eapply Hp|done]. Qed.

(** Printed states are read back whole or not at all. *)
Lemma printed_state_ok st body part rest :
  state_to_string st = Some body → (∀ h, staged_sha256 st = Some h → vouched h) →
  body = part +:+ rest → state_ok part.
Proof.
  intros Hst Hv E st' h Hp Hh. destruct (decide (rest = "")) as [->|Hr].
  - rewrite string_app_nil_r in E. subst part. rewrite (state_roundtrip _ _ Hst) in Hp.
    simplify_eq. auto.
  - by rewrite (state_truncated _ _ _ _ Hst E Hr) in Hp.
Qed.

Lemma wp_save_state st fs :
  ota_inv fs → (∀ h, staged_sha256 st = Some h → vouched h) →
  wp ota_inv (save_state dir st) (λ _, ota_inv) fs.
Proof.
  intros Hi Hv. unfold save_state. cbn [act bind].
  apply wp_quiet; [done|auto|done|]. intros [] _; [|done].
  destruct (state_to_string st) as [body|] eqn:Hst; [|done]. cbn [bind act].
  assert (∀ fs', torn fs (state_file dir) body fs' → ota_inv fs') as Ht.
  { intros fs'. apply inv_torn; [|done]. intros part rest E. apply state_file_ok.
    by eapply printed_state_ok. }
  split; [done|]. split; [done|]. intros [] fs' Ho; simpl in Ho; (split; [|]).
  1,2: subst fs'; apply Ht; exists body, ""; by rewrite string_app_nil_r.
  all: destruct Ho as [->|Ho]; auto.
Qed.

(** Operations on the part file and the staged image keep the invariant. *)
Lemma inv_scratch p body fs fs' :
  p ∈ [with_extension "ota-tmp" exe; staged_file dir; with_extension "part" (staged_file dir)] →
  ota_inv fs → torn fs p body fs' → ota_inv fs'.
Proof. intros Hp. apply inv_torn. intros. by apply scratch_ok. Qed.

Lemma torn_whole (fs : FS) p body : torn fs p body (<[p := written fs p body]> fs).
Proof. exists body, "". by rewrite string_app_nil_r. Qed.

Lemma wp_remove p fs : ota_inv fs → wp ota_inv (act (RemoveFile p)) (λ _, ota_inv) fs.
Proof.
  intros Hi. split; [done|]. split; [done|]. intros [] fs' Ho; simpl in Ho.
  - destruct Ho as [_ ->]. by split; apply ota_inv_delete.
  - by subst.
Qed.

Lemma wp_stream path reads h so_far fs :
  path = with_extension "part" (staged_file dir) → ota_inv fs →
  wp ota_inv (stream path reads h so_far) (λ _, ota_inv) fs.
Proof.
  intros ->. revert h so_far fs. induction reads as [|[[|c s]|] reads IH]; intros h so_far fs Hi;
    cbn [stream]; [done..| |done].
  cbn [act bind]. split; [done|]. split; [done|]. intros [] fs' Ho; simpl in Ho.
  all: apply inv_scratch in Ho; [|set_solver|done]. 1: by apply IH. done.
Qed.

Lemma wp_download url limit fs : ota_inv fs → wp ota_inv (download url limit) (λ _ fs', fs' = fs) fs.
Proof. intros Hi. unfold download. cbn [act bind]. by apply wp_quiet; [|auto| |]. Qed.

Lemma wp_download_to_file url limit fs :
  ota_inv fs →
  wp ota_inv (download_to_file url (with_extension "part" (staged_file dir)) limit)
    (λ _, ota_inv) fs.
Proof.
  intros Hi. unfold download_to_file. cbn [act bind].
  apply wp_quiet; [done|auto|done|]. intros [reads|] _; [|done]. cbn [act bind].
  assert (∀ fs body fs', ota_inv fs →
    torn fs (with_extension "part" (staged_file dir)) body fs' → ota_inv fs') as Ht.
  { intros ???. apply inv_scratch. set_solver. }
  split; [done|]. split; [done|]. intros [] fs' Ho; simpl in Ho; [|by subst].
  assert (ota_inv fs') as Hi' by (subst fs'; eapply Ht; [done|apply torn_whole]).
  cbn [negb]. apply wp_bind. eapply wp_mono; [by apply wp_stream|].
  intros [[h so_far]|] fs1 _ Hi1; [|done]. cbn [act bind]. split; [done|].
  split; [intros ? Hh; by eapply Ht|].
  intros [] fs2 Ho2; simpl in Ho2; [subst fs2|]; (split; [|]); eapply Ht; eauto using torn_whole.
Qed.

Lemma wp_abandon {A} p (e : A) fs :
  ota_inv fs → wp ota_inv (act (RemoveFile p) ;; Ret e) (λ _, ota_inv) fs.
Proof. intros Hi. apply wp_bind. eapply wp_mono; [by apply wp_remove|]. intros ? fs' _ Hi'. done. Qed.

Lemma wp_eligibility p fs : ota_inv fs → wp ota_inv (check_eligibility p) (λ _ fs', fs' = fs) fs.
Proof.
  intros Hi. unfold check_eligibility. cbv zeta.
  repeat match goal with |- context [if ?b then Ret _ else _] => destruct b; [done|] end.
  destruct (parent p) as [d|]; [|done]. cbn [act bind]. by apply wp_quiet; [|auto| |].
Qed.

Lemma wp_stage_binary latest url expected fs :
  ota_inv fs → vouched expected →
  wp ota_inv (stage_binary dir latest url expected) (λ _, ota_inv) fs.
Proof.
  intros Hi Hv. unfold stage_binary. apply wp_bind.
  eapply wp_mono; [by apply wp_download_to_file|]. intros [actual|] fs1 _ Hi1; [|by apply wp_abandon].
  destruct (String.eqb actual expected) eqn:E; [|by apply wp_abandon].
  apply String.eqb_eq in E as ->. cbn [act bind negb]. split; [done|]. split; [done|].
  intros [] fs2 Ho; simpl in Ho; [|subst; by apply wp_abandon].
  destruct Ho as (f & Hf & ->). set (fs2 := <[_ := _]> fs1).
  assert (ota_inv fs2) as Hi2 by (apply ota_inv_insert; [apply scratch_ok; set_solver|done]).
  cbn [negb act bind]. split; [done|]. split; [done|].
  intros [] fs3 Ho; simpl in Ho; [|subst; by apply wp_abandon..].
  destruct Ho as (g & Hg & ->). apply wp_bind.
  eapply wp_mono; [apply wp_save_state|].
  - apply inv_move; [done|]. apply scratch_ok. set_solver.
  - simpl. intros h [= <-]. done.
  - intros ? fs4 _ Hi4. done.
Qed.

(** Which asset [check] reports. *)
Definition asset_expected (o : CheckOutcome) : Prop :=
  match o with
  | Available _ _ _ asset _ _ _ =>
      ∃ triple, target_triple arch os = Some triple ∧ asset = "rsrpc-cli-" +:+ triple
  | _ => True
  end.

Lemma wp_check current fs :
  ota_inv fs →
  wp ota_inv (check arch os current)
    (λ o fs', fs' = fs ∧ ∀ a, o = Some a → asset_expected a) fs.
Proof.
  intros Hi. unfold check, asset_expected.
  destruct (target_triple arch os) as [triple|] eqn:Ht; [|split; naive_solver].
  unfold fetch_release. apply wp_bind, wp_bind. eapply wp_mono; [by apply wp_download|].
  intros body fs' Hi' ->. split; [done|]. split; [done|]. split; [done|].
  destruct (_ ≫= _) as [release|]; [|done]. case_match; [by intros ? [= <-]|].
  destruct (select_asset release _) as [asset|] eqn:Es; [|by intros ? [= <-]].
  intros a [= <-]. exists triple. split; [done|].
  apply find_some in Es as [_ Es]. by apply String.eqb_eq in Es.
Qed.

Lemma wp_stage available p fs :
  ota_inv fs → asset_expected available →
  wp ota_inv (stage available dir p) (λ _, ota_inv) fs.
Proof.
  intros Hi Ha. destruct available as [|current latest tag asset url cu su|]; [done| |done].
  destruct Ha as (triple & Ht & ->). unfold stage. apply wp_bind.
  eapply wp_mono; [by apply wp_eligibility|]. intros [r|] fs' _ ->; [done|].
  cbn [act bind]. apply wp_quiet; [done|auto|done|]. intros [] _; [|done]. cbn [negb].
  destruct cu as [cu|]; [|done]. destruct su as [su|]; [|done].
  apply wp_bind. eapply wp_mono; [by apply wp_download|]. intros [manifest|] fs' _ ->; [|done].
  apply wp_bind. eapply wp_mono; [by apply wp_download|]. intros [sig|] fs' _ ->; [|done].
  destruct (trusted_hash _ _ _) as [e|expected] eqn:E; [done|]. apply wp_stage_binary; [done|].
  unfold trusted_hash in E. destruct (utf8_valid (map code (chars sig))); [|done].
  destruct (verify_signature manifest sig) eqn:Hs; [|done].
  destruct (utf8_valid _); [|done]. simpl in E.
  destruct (parse_checksums manifest !! _) as [h|] eqn:Hm; [|done]. injection E as ->.
  by exists triple, manifest, sig.
Qed.

Lemma staged_is_apart :
  staged_file dir ≠ exe ∧ staged_file dir ≠ prev_path exe ∧
  staged_file dir ≠ with_extension "ota-tmp" exe ∧ with_extension "ota-tmp" exe ≠ exe.
Proof.
  pose proof places_ok as Hd. unfold places in Hd. rewrite !NoDup_cons in Hd. set_solver.
Qed.

(** A rename between the image's places keeps the invariant. *)
Lemma wp_shuffle {A} a b (k : answer (Rename a b) → prog A) Q fs :
  a ∈ [exe; prev_path exe; with_extension "ota-swap" exe] →
  b ∈ [exe; prev_path exe; with_extension "ota-swap" exe] →
  ota_inv fs → (∀ r fs', ota_inv fs' → fs' = fs ∨ (∃ f, fs' = <[b := f]> (delete a fs)) →
    wp ota_inv (k r) Q fs') →
  wp ota_inv (Act (Rename a b) k) Q fs.
Proof.
  intros Ha Hb Hi Hk. split; [done|]. split; [done|]. intros [] fs' Ho; simpl in Ho.
  2,3: subst fs'; by auto.
  destruct Ho as (f & Hf & ->). apply Hk; [|eauto]. apply inv_move; [done|].
  apply image_ok; [done|]. exact (inv_image a f fs Hi Ha Hf).
Qed.

Lemma wp_swap_binary g fs :
  ota_inv fs → fs !! staged_file dir = Some g → trusted (f_content g) →
  wp ota_inv (swap_binary exe (staged_file dir)) (λ _, ota_inv) fs.
Proof.
  intros Hi Hg Ht. destruct staged_is_apart as (Hse & Hsp & Hst & Hte).
  unfold swap_binary. cbn [act bind]. split; [done|]. split; [done|]. intros r fs1 Ho.
  assert (ota_inv fs1 ∧ fs1 !! staged_file dir = Some g) as [Hi1 Hg1].
  { destruct r; simpl in Ho; [destruct Ho as [_ ->]|by subst].
    split; [by apply ota_inv_delete|]. rewrite lookup_delete_ne; done. }
  clear Ho. apply wp_shuffle; [set_solver..|done|]. intros aside fs2 Hi2 Hfs2.
  destruct aside; [|done..].
  assert (fs2 !! staged_file dir = Some g) as Hg2.
  { destruct Hfs2 as [->|[f ->]]; [done|].
    rewrite lookup_insert_ne by done. by rewrite lookup_delete_ne by done. }
  cbn [act bind]. split; [done|]. split; [done|]. intros [] fs3 Ho; simpl in Ho.
  - destruct Ho as (f & Hf & ->). assert (f = g) as -> by congruence.
    split; [|]; (apply inv_move; [done|]; apply image_ok; [set_solver|done]).
  - subst fs3. set (tmp := with_extension "ota-tmp" exe) in *.
    assert (∀ body fs', torn fs2 tmp body fs' → ota_inv fs') as Hs.
    { intros ??. apply inv_scratch; [set_solver|done]. }
    split; [done|]. split; [intros fs' (f & _ & Htn); by eapply Hs|].
    intros [] fs3 Ho; simpl in Ho; cbn [negb].
    2: destruct Ho as [->|(f & _ & Htn)]; [done|apply Hs in Htn; by split].
    destruct Ho as (f & Hf & ->). assert (f = g) as -> by congruence. clear Hf.
    assert (ota_inv (<[tmp := g]> fs2)) as Hi3.
    { apply ota_inv_insert; [apply scratch_ok; set_solver|done]. }
    cbn [act bind]. split; [done|]. split; [done|]. intros [] fs4 Ho; simpl in Ho; cbn [negb];
      [|by subst].
    rewrite lookup_insert_eq in Ho. destruct Ho as (f & [= <-] & ->).
    rewrite insert_insert_eq. set (g' := {| f_content := f_content g; f_executable := true |}).
    assert (ota_inv (<[tmp := g']> fs2)) as Hi4.
    { apply ota_inv_insert; [apply scratch_ok; set_solver|done]. }
    cbn [act bind]. split; [done|]. split; [done|]. intros [] fs5 Ho; simpl in Ho; [|by subst..].
    rewrite lookup_insert_eq in Ho. destruct Ho as (f & [= <-] & ->).
    apply wp_abandon. apply inv_move; [done|]. apply image_ok; [set_solver|done].
  - subst fs3. apply wp_shuffle; [set_solver..|done|]. intros ????. done.
Qed.

Lemma wp_discard fs : ota_inv fs → wp ota_inv (discard dir) (λ _, ota_inv) fs.
Proof.
  intros Hi. unfold discard. apply wp_bind. eapply wp_mono; [by apply wp_remove|].
  intros ? fs1 _ Hi1. apply wp_bind. eapply wp_mono; [by apply wp_save_state|].
  intros ? fs2 _ Hi2. done.
Qed.

Lemma wp_boot applied located current fs :
  located = None ∨ located = Some exe → ota_inv fs →
  wp ota_inv (apply_pending_on_boot applied located dir current) (λ _, ota_inv) fs.
Proof.
  intros Hl Hi. unfold apply_pending_on_boot. destruct applied; [done|].
  destruct located as [p|]; [|done]. destruct Hl as [|[= ->]]; [done|].
  unfold load_state. cbn [act bind]. apply wp_quiet; [by intros ?? [-> _]|auto|done|].
  intros body Hb.
  set (st := default OtaState_default _).
  assert (∀ h, staged_sha256 st = Some h → vouched h) as Hst.
  { subst st. simpl in Hb. destruct Hb as [_ [->|(f & Hf & ->)]]; [done|]. simpl.
    destruct (utf8_valid _); [|done].
    destruct (state_from_str (f_content f)) as [st|] eqn:E; [|done]. simpl. intros h Hh.
    destruct (Hi _ _ Hf) as [_ Hok]. by eapply Hok. }
  clearbody st. clear Hb. destruct (staged_version st) as [version|]; [|done].
  destruct (staged_sha256 st) as [sha|]; [|done].
  destruct (version_parse version) as [v|]; [|by apply wp_discard].
  destruct (version_leb v current); [by apply wp_discard|].
  apply wp_bind. eapply wp_mono; [by apply wp_eligibility|]. intros [r|] fs' _ ->;
    [by apply wp_discard|].
  cbn [act bind]. apply wp_quiet; [by intros ?? [-> _]|auto|done|]. intros bytes Hb.
  destruct bytes as [bytes|]; [|by apply wp_discard].
  simpl in Hb. destruct Hb as [_ [|(g & Hg & [= ->])]]; [done|].
  destruct (String.eqb (sha256_hex (f_content g)) sha) eqn:Eh; [|by apply wp_discard].
  apply String.eqb_eq in Eh. cbn [negb]. apply wp_bind.
  eapply wp_mono; [apply (wp_swap_binary g); [done..|]|].
  { right. rewrite Eh. auto. }
  intros [] fs1 _ Hi1; [|by apply wp_discard]. apply wp_bind.
  eapply wp_mono; [by apply wp_save_state|]. intros ? fs2 _ Hi2. done.
Qed.

Lemma wp_rollback applied located fs :
  located = None ∨ located = Some exe → ota_inv fs →
  wp ota_inv (cmd_rollback applied located dir) (λ _, ota_inv) fs.
Proof.
  intros Hl Hi. unfold cmd_rollback. destruct applied; [done|].
  destruct located as [p|]; [|done]. destruct Hl as [|[= ->]]; [done|].
  apply wp_bind. eapply wp_mono; [by apply wp_eligibility|]. intros [r|] fs' _ ->; [done|].
  cbn [act bind]. apply wp_quiet; [by intros ?? [-> _]|auto|done|]. intros [] _; [|done].
  cbn [negb]. destruct (wp_remove (staged_file dir) fs Hi) as (_ & _ & Hr).
  split; [done|]. split; [done|]. intros r fs1 Ho. destruct (Hr r fs1 Ho) as [Hi1 _].
  apply wp_bind. eapply wp_mono; [by apply wp_save_state|]. intros ? fs2 _ Hi2.
  apply wp_bind. apply (wp_mono _ _ (λ _, ota_inv)); [|intros; done].
  unfold swap_back. cbn [act bind].
  apply wp_shuffle; [set_solver..|done|]. intros [] fs3 Hi3 _; [|done..].
  apply wp_shuffle; [set_solver..|done|]. intros [] fs4 Hi4 _;
    (apply wp_shuffle; [set_solver..|done|]; intros ????; done).
Qed.

Lemma wp_cmd_stage current yes line located fs :
  ota_inv fs → wp ota_inv (cmd_stage arch os current yes line located dir) (λ _, ota_inv) fs.
Proof.
  intros Hi. unfold cmd_stage. apply wp_bind. eapply wp_mono; [by apply wp_check|].
  intros outcome fs' _ [-> Ho]. destruct outcome as [[]|]; try done.
  destruct (negb _); [done|]. destruct located as [p|]; [|done].
  apply wp_bind. eapply wp_mono; [by apply wp_stage; auto|]. intros ? fs1 _ Hi1. done.
Qed.

Lemma wp_watch_round current auto located notified fs :
  ota_inv fs →
  wp ota_inv (watch_round arch os current auto located dir notified) (λ _, ota_inv) fs.
Proof.
  intros Hi. unfold watch_round. apply wp_bind. eapply wp_mono; [by apply wp_check|].
  intros outcome fs' _ [-> Ho]. destruct outcome as [[]|]; try done.
  destruct (bool_decide _); [done|]. destruct auto; [|done].
  cbn [act bind]. apply wp_quiet; [done|auto|done|]. intros [] _; [|done].
  destruct located as [p|]; [|done].
  apply wp_bind. eapply wp_mono; [by apply wp_stage; auto|]. intros ? fs1 _ Hi1. done.
Qed.

(** A run of one of the updater's commands or of a boot, to its end or cut
    short anywhere; nobody else writes these files. *)
Inductive ota_step : FS → FS → Prop :=
  | step_stage current yes line located fs fs' :
      cut (cmd_stage arch os current yes line located dir) fs fs' → ota_step fs fs'
  | step_watch current auto located notified fs fs' :
      cut (watch_round arch os current auto located dir notified) fs fs' → ota_step fs fs'
  | step_boot applied located current fs fs' :
      located = None ∨ located = Some exe →
      cut (apply_pending_on_boot applied located dir current) fs fs' → ota_step fs fs'
  | step_rollback applied located fs fs' :
      located = None ∨ located = Some exe →
      cut (cmd_rollback applied located dir) fs fs' → ota_step fs fs'.

Lemma ota_step_inv fs fs' : ota_inv fs → ota_step fs fs' → ota_inv fs'.
Proof.
  intros Hi Hs. revert Hi.
  destruct Hs as [current yes line located ?? Hc|current auto located notified ?? Hc
                 |applied located current ?? Hl Hc|applied located ?? Hl Hc]; intros Hi.
  all: eapply wp_cut; [|exact Hc].
  - by apply wp_cmd_stage.
  - by apply wp_watch_round.
  - by apply wp_boot.
  - by apply wp_rollback.
Qed.
End Vouched.

(** C6: Only verified images are ever installed.  Through any sequence of
    checks, stagings, boots and rollbacks, with any answers from the
    network, any failing system call and any run cut short anywhere (a
    crash in the middle of a write included), the image in place and the
    kept one are the image the install started with or have a SHA-256 that
    a manifest signed with the embedded key lists for this target. *)
Theorem installed_images_are_vouched `{Semver, Sha256, Minisign, OtaSerdeOk, Serde}
    (edir dir : Path) (name arch os image : string) (fs0 fs : FS) :
  published_name name → edir ≠ dir →
  let exe := edir ++ [name] in
  (∀ p f, fs0 !! p = Some f → p ∈ places exe dir → p = exe ∧ f_content f = image) →
  rtc (ota_step edir dir name arch os) fs0 fs →
  ∀ p f, p ∈ [exe; prev_path exe] → fs !! p = Some f →
  f_content f = image ∨
  ∃ triple manifest sig, target_triple arch os = Some triple ∧
    verify_signature manifest sig = true ∧
    parse_checksums manifest !! ("rsrpc-cli-" +:+ triple) = Some (sha256_hex (f_content f)).
Proof.
  intros Hn Hd exe Hstart Hr p f Hp Hf.
  assert (ota_inv edir dir name arch os image fs) as Hi.
  { assert (ota_inv edir dir name arch os image fs0) as Hi0.
    { intros q g Hg. split.
      - intros Hq. left. eapply Hstart; [done|]. unfold places. set_solver.
      - intros ->. pose proof (places_distinct edir name dir Hn Hd) as Hpl.
        destruct (Hstart _ _ Hg) as [E _]; [unfold places; set_solver|].
        unfold places in Hpl. rewrite !NoDup_cons in Hpl. set_solver. }
    clear Hf Hstart. induction Hr as [|x y z Hs _ IH]; [done|]. apply IH. by eapply ota_step_inv. }
  apply (inv_image edir dir name arch os image p f fs Hi); [set_solver|done].
Qed.

(** ** Staging is all or nothing *)

(** The files outside [ps] are untouched. *)
Definition same_but (ps : list Path) (fs0 fs : FS) : Prop := ∀ p, p ∉ ps → fs !! p = fs0 !! p.

Lemma same_refl ps fs : same_but ps fs fs.
Proof. done. Qed.

Lemma same_insert ps fs0 fs p f : p ∈ ps → same_but ps fs0 fs → same_but ps fs0 (<[p := f]> fs).
Proof. intros Hp Hs q Hq. rewrite lookup_insert_ne by set_solver. by apply Hs. Qed.

Lemma same_delete ps fs0 fs p : p ∈ ps → same_but ps fs0 fs → same_but ps fs0 (delete p fs).
Proof. intros Hp Hs q Hq. rewrite lookup_delete_ne by set_solver. by apply Hs. Qed.

Lemma same_torn ps fs0 fs p body fs' :
  p ∈ ps → same_but ps fs0 fs → torn fs p body fs' → same_but ps fs0 fs'.
Proof. intros Hp Hs (part & rest & _ & ->). by apply same_insert. Qed.

Lemma same_weaken ps qs fs0 fs : ps ⊆ qs → same_but ps fs0 fs → same_but qs fs0 fs.
Proof. intros Hq Hs p Hp. apply Hs. set_solver. Qed.

Section Staging.
Context `{Semver, Sha256Ok, Minisign, OtaSerde, Serde}.
Variables (dir exe : Path) (asset : string) (fs0 : FS).
Let part : Path := with_extension "part" (staged_file dir).

(** A complete, executable image under a hash of a signed manifest. *)
Definition staged_image (f : File) : Prop :=
  f_executable f = true ∧
  ∃ manifest sig, verify_signature manifest sig = true ∧
    parse_checksums manifest !! asset = Some (sha256_hex (f_content f)).

Definition before_move (fs : FS) : Prop := same_but [part] fs0 fs.

Definition after_move (fs : FS) : Prop :=
  same_but [part; staged_file dir; state_file dir] fs0 fs ∧
  ∃ f, fs !! staged_file dir = Some f ∧ staged_image f.

Definition atomic (fs : FS) : Prop := before_move fs ∨ after_move fs.

Lemma before_torn fs body fs' : before_move fs → torn fs part body fs' → before_move fs'.
Proof. intros Hb. apply same_torn; [set_solver|done]. Qed.

Lemma before_written fs body : before_move fs → before_move (<[part := written fs part body]> fs).
Proof. intros. apply same_insert; [set_solver|done]. Qed.

Lemma part_apart :
  state_file dir ≠ staged_file dir ∧ part ≠ staged_file dir ∧ part ≠ state_file dir.
Proof.
  unfold part, state_file, staged_file. rewrite with_extension_snoc.
  split_and!; intros [_ E]%app_inj_tail; by vm_compute in E.
Qed.

Lemma stream_before reads h so_far fs :
  before_move fs → h = hasher_update hasher_new so_far →
  wp atomic (stream part reads h so_far)
    (λ r fs', before_move fs' ∧ ∀ h' s, r = Some (h', s) → h' = hasher_update hasher_new s) fs.
Proof.
  revert h so_far fs. induction reads as [|[[|c s]|] reads IH]; intros h so_far fs Hb ->;
    cbn [stream].
  1,2,4: split; [by left|]; split; [done|]; by intros ?? [= <- <-].
  cbn [act bind]. split; [by left|]. split; [done|].
  intros r fs' Ho. assert (before_move fs') as Hb' by (destruct r; by eapply before_torn).
  destruct r.
  - apply IH; [done|]. by rewrite hasher_update_app.
  - split; [by left|]. split; [done|]. by intros ?? [=].
Qed.

Lemma download_before url limit fs :
  before_move fs →
  wp atomic (download_to_file url part limit)
    (λ r fs', before_move fs' ∧ ∀ hash, r = Some hash →
       ∃ f, fs' !! part = Some f ∧ hash = sha256_hex (f_content f)) fs.
Proof.
  intros Hb. unfold download_to_file. cbn [act bind].
  apply wp_quiet; [done|auto|by left|]. intros [reads|] _; [|split; [by left|by split]].
  cbn [act bind]. split; [by left|]. split; [done|]. intros [] fs1 Ho; simpl in Ho; cbn [negb].
  2: subst; split; [by left|by split].
  subst fs1. apply wp_bind. eapply wp_mono.
  { apply stream_before; [by apply before_written|by rewrite hasher_update_nil]. }
  intros [[h so_far]|] fs2 _ [Hb2 Hh]; [|split; [by left|by split]].
  specialize (Hh h so_far eq_refl) as ->. cbn [act bind]. split; [by left|].
  split; [intros fs' Ht; left; by eapply before_torn|].
  intros [] fs3 Ho; simpl in Ho.
  - subst fs3. assert (before_move (<[part := written fs2 part so_far]> fs2)) as Hb3
      by by apply before_written.
    split; [by left|]. split; [done|]. intros hash [= <-]. rewrite lookup_insert_eq. eauto.
  - apply before_torn in Ho; [|done]. split; [by left|by split].
Qed.

Lemma abandon_before e fs :
  before_move fs →
  wp atomic (abandon part e) (λ r fs', before_move fs' ∧ r = inl e) fs.
Proof.
  intros Hb. unfold abandon. cbn [act bind]. split; [by left|]. split; [done|].
  intros r fs' Ho. assert (before_move fs') as Hb'.
  { destruct r; simpl in Ho; [destruct Ho as [_ ->]; apply same_delete; [set_solver|done]|by subst]. }
  split; [by left|by split].
Qed.

Lemma save_state_after st fs :
  after_move fs → wp atomic (save_state dir st) (λ _, after_move) fs.
Proof.
  destruct part_apart as (Hss & _ & _).
  assert (∀ fs body fs', after_move fs → torn fs (state_file dir) body fs' → after_move fs') as Ht.
  { intros fs1 body fs' [Hs (f & Hf & Hi)] Ht. split; [eapply same_torn; [|done..]; set_solver|].
    destruct Ht as (p & r & _ & ->). exists f. by rewrite lookup_insert_ne by done. }
  intros Ha. unfold save_state. cbn [act bind]. apply wp_quiet; [done|auto|by right|].
  intros [] _; [|split; [by right|done]].
  destruct (state_to_string st) as [body|]; [|split; [by right|done]]. cbn [act bind].
  split; [by right|]. split; [intros fs' Hh; right; by eapply Ht|].
  intros r fs' Ho. assert (after_move fs') as Ha'.
  { destruct r; simpl in Ho; [subst; eapply Ht; [done|apply torn_whole]|].
    destruct Ho as [->|Ho]; [done|by eapply Ht]. }
  split; [by right|done].
Qed.

Definition stage_end (latest : Version) (r : StageError + Version) (fs : FS) : Prop :=
  match r with inl _ => before_move fs | inr v => v = latest ∧ after_move fs end.

Lemma abandon_end latest e fs :
  before_move fs → wp atomic (abandon part e) (stage_end latest) fs.
Proof.
  intros Hb. eapply wp_mono; [by apply abandon_before|]. by intros r fs' _ [Hb' ->].
Qed.

Lemma stage_binary_atomic latest url expected manifest sig fs :
  before_move fs → verify_signature manifest sig = true →
  parse_checksums manifest !! asset = Some expected →
  wp atomic (stage_binary dir latest url expected) (stage_end latest) fs.
Proof.
  intros Hb Hv Hm. destruct part_apart as (Hss & Hps & Hpst).
  unfold stage_binary. fold part. apply wp_bind. eapply wp_mono; [by apply download_before|].
  intros [actual|] fs1 _ [Hb1 Hh]; [|by apply abandon_end].
  destruct (Hh actual eq_refl) as (f & Hf & ->). clear Hh.
  destruct (String.eqb _ expected) eqn:E; [|by apply abandon_end].
  apply String.eqb_eq in E. cbn [act bind negb]. split; [by left|]. split; [done|].
  intros [] fs2 Ho; simpl in Ho; cbn [negb]; [|subst fs2; by apply abandon_end].
  destruct Ho as (f' & Hf' & ->). assert (f' = f) as -> by congruence. clear Hf'.
  set (g := {| f_content := f_content f; f_executable := true |}).
  assert (before_move (<[part := g]> fs1)) as Hb2 by (apply same_insert; [set_solver|done]).
  cbn [act bind]. split; [by left|]. split; [done|].
  intros [] fs3 Ho; simpl in Ho; [|subst fs3; by apply abandon_end..].
  rewrite lookup_insert_eq in Ho. destruct Ho as (g' & [= <-] & ->).
  apply wp_bind. eapply wp_mono; [apply save_state_after|].
  - split.
    + apply same_insert; [set_solver|]. apply same_delete; [set_solver|].
      eapply same_weaken; [|exact Hb2]. set_solver.
    + exists g. rewrite lookup_insert_eq. split; [done|]. split; [done|].
      exists manifest, sig. split; [done|]. simpl. by rewrite E.
  - intros ? fs4 _ Ha. split; [by right|by split].
Qed.

Lemma atomic_before e latest fs :
  before_move fs → wp atomic (Ret (inl e)) (stage_end latest) fs.
Proof. intros Hb. split; [by left|done]. Qed.

Lemma eligibility_quiet p fs :
  before_move fs → wp atomic (check_eligibility p) (λ _ fs', fs' = fs) fs.
Proof.
  intros Hi. unfold check_eligibility. cbv zeta.
  repeat match goal with |- context [if ?b then Ret _ else _] =>
    destruct b; [split; [by left|done]|] end.
  destruct (parent p) as [d|]; [|split; [by left|done]]. cbn [act bind].
  apply wp_quiet; [done|auto|by left|]. intros r _. split; [by left|done].
Qed.

Lemma download_quiet url limit fs :
  before_move fs → wp atomic (download url limit) (λ _ fs', fs' = fs) fs.
Proof.
  intros Hi. unfold download. cbn [act bind]. apply wp_quiet; [done|auto|by left|].
  intros r _. split; [by left|done].
Qed.

Lemma stage_atomic current latest tag url cu su :
  wp atomic (stage (Available current latest tag asset url cu su) dir exe) (stage_end latest) fs0.
Proof.
  assert (before_move fs0) as Hb by apply same_refl.
  unfold stage. apply wp_bind. eapply wp_mono; [by apply eligibility_quiet|].
  intros [r|] fs' _ ->; [by apply atomic_before|].
  cbn [act bind]. apply wp_quiet; [done|auto|by left|]. intros [] _; cbn [negb];
    [|by apply atomic_before].
  destruct cu as [cu|]; [|by apply atomic_before]. destruct su as [su|]; [|by apply atomic_before].
  apply wp_bind. eapply wp_mono; [by apply download_quiet|].
  intros [manifest|] fs' _ ->; [|by apply atomic_before].
  apply wp_bind. eapply wp_mono; [by apply download_quiet|].
  intros [sig|] fs' _ ->; [|by apply atomic_before].
  destruct (trusted_hash _ _ _) as [e|expected] eqn:E; [by apply atomic_before|].
  unfold trusted_hash in E. destruct (utf8_valid (map code (chars sig))); [|done].
  destruct (verify_signature manifest sig) eqn:Hs; [|done].
  destruct (utf8_valid _); [|done]. simpl in E.
  destruct (parse_checksums manifest !! _) as [h|] eqn:Hm; [|done]. injection E as ->.
  by eapply stage_binary_atomic.
Qed.
End Staging.

(** C10: Staging is all or nothing.  Wherever a staging is cut, either
    nothing but the part file has changed, so an update staged before is
    still there with its record, or the staged image is complete,
    executable and under a hash a signed manifest lists for its asset.  An
    error is the first case, a reported success the second. *)
Theorem staging_is_atomic `{Semver, Sha256Ok, Minisign, OtaSerde, Serde}
    (dir exe : Path) (fs fs' : FS) current latest tag asset url cu su :
  let run := stage (Available current latest tag asset url cu su) dir exe in
  let part := with_extension "part" (staged_file dir) in
  let unchanged fs' := same_but [part] fs fs' in
  let staged fs' := same_but [part; staged_file dir; state_file dir] fs fs' ∧
                    ∃ f, fs' !! staged_file dir = Some f ∧ staged_image asset f in
  (cut run fs fs' → unchanged fs' ∨ staged fs') ∧
  (∀ e, returns run fs (inl e) fs' → unchanged fs') ∧
  (∀ v, returns run fs (inr v) fs' → v = latest ∧ staged fs').
Proof.
  intros run part unchanged staged.
  pose proof (stage_atomic dir exe asset fs current latest tag url cu su) as Hwp.
  split_and!.
  - intros Hc. exact (wp_cut _ _ _ _ _ Hwp Hc).
  - intros e Hr. exact (wp_returns _ _ _ _ _ _ Hwp Hr).
  - intros v Hr. exact (wp_returns _ _ _ _ _ _ Hwp Hr).
Qed.

(** ** A staged and booted update *)

Lemma installed_images_are_vouched_witness :
  let _ := OtaDemo.semver in let _ := OtaDemo.sha256 in let _ := OtaDemo.minisign in
  f_content <$> OtaDemo.booted_fs !! OtaDemo.exe = Some "new" ∧
  ("new" = "old" ∨ ∃ triple manifest sig, target_triple "x86_64" "linux" = Some triple ∧
    verify_signature manifest sig = true ∧
    parse_checksums manifest !! ("rsrpc-cli-" +:+ triple) = Some (sha256_hex "new")).
Proof.
  split; [by vm_compute|].
  refine (@installed_images_are_vouched OtaDemo.semver OtaDemo.sha256 OtaDemo.minisign OtaDemo.ota_serde
    OtaDemo.ota_serde_ok OtaDemo.serde OtaDemo.exe_dir OtaDemo.ota_dir "rsrpc-cli" "x86_64" "linux" "old"
    OtaDemo.start OtaDemo.booted_fs _ _ _ _ OtaDemo.exe
    {| f_content := "new"; f_executable := true |} _ _).
  - by left.
  - done.
  - intros p f Hp _. unfold OtaDemo.start in Hp. apply lookup_singleton_Some in Hp as [<- <-]. done.
  - eapply rtc_l; [|eapply rtc_l; [|apply rtc_refl]].
    + apply (step_stage _ _ _ _ _ ("1" : @Version OtaDemo.semver) true None (Some OtaDemo.exe)).
      apply sunny_cut.
    + apply (step_boot _ _ _ _ _ false (Some OtaDemo.exe) ("1" : @Version OtaDemo.semver)); [by right|].
      apply sunny_cut.
  - left.
  - by vm_compute.
Defined.

Lemma staging_is_atomic_witness :
  let _ := OtaDemo.semver in let _ := OtaDemo.sha256 in let _ := OtaDemo.minisign in
  let _ := OtaDemo.ota_serde in
  let run := stage (Available "1" "2" "v2" OtaDemo.asset "bin" (Some "sums") (Some "sig"))
               OtaDemo.ota_dir OtaDemo.exe in
  (sunny OtaDemo.net run OtaDemo.start).1 = inr "2" ∧
  ∃ f, (sunny OtaDemo.net run OtaDemo.start).2 !! staged_file OtaDemo.ota_dir = Some f ∧
    staged_image OtaDemo.asset f.
Proof.
  intros ????. intros run.
  assert ((sunny OtaDemo.net run OtaDemo.start).1 = inr "2") as E by by vm_compute.
  split; [done|].
  pose proof (exec_returns OtaDemo.net (λ _, NoFault) 0 run OtaDemo.start) as Hr.
  fold (sunny OtaDemo.net run OtaDemo.start) in Hr. rewrite E in Hr.
  destruct (@staging_is_atomic OtaDemo.semver OtaDemo.sha256 OtaDemo.sha256_ok OtaDemo.minisign
    OtaDemo.ota_serde OtaDemo.serde OtaDemo.ota_dir OtaDemo.exe OtaDemo.start
    (sunny OtaDemo.net run OtaDemo.start).2 "1" "2" "v2" OtaDemo.asset "bin" (Some "sums") (Some "sig"))
    as (_ & _ & Hs).
  by destruct (Hs "2" Hr) as [_ [_ Hf]].
Defined.
