(* ===== verification/UpdateRuns.v ===== *)
(** * Complete runs of the updater

    What staging, booting and rolling back do when nothing fails: a staged
    update is applied at the next start and only then, a rollback is
    reversible.  And what a boot leaves when something fails: an image in
    place for every single fault, none in one branch of the fallback for
    another filesystem. *)

From stdpp Require Import base gmap strings list sets relations.
From Stdlib Require Import Ascii.
From S2P Require Import Prelude RStr Text Json Io Update OtaDemo UpdateProps.

Local Open Scope string_scope.
Local Open Scope nat_scope.
Local Open Scope list_scope.
Local Open Scope prog_scope.

(** ** When nothing fails *)

Ltac io_simpl := cbn [perform negb fst snd is_some mbind option_bind from_option].

Section Working.
Context `{Semver, OtaSerde}.
Variable net : string → option (list (option string)).
Variables (edir dir : Path) (name : string).
Hypothesis Hname : published_name name.
Hypothesis Hdir : edir ≠ dir.
Let exe : Path := edir ++ [name].

Lemma places_apart : NoDup (places exe dir).
Proof. by apply places_distinct. Qed.

(** Whether the image may be replaced, when its directory is writable. *)
Definition eligible (p : Path) : Prop := ∀ fs, (sunny net (check_eligibility p) fs).1 = None.

Lemma eligible_quiet p fs : (sunny net (check_eligibility p) fs).2 = fs.
Proof.
  unfold check_eligibility. cbv zeta.
  repeat match goal with |- context [if ?b then Ret _ else _] => destruct b; [done|] end.
  by destruct (parent p) as [d|].
Qed.

Lemma sunny_save_state st body fs :
  state_to_string st = Some body →
  sunny net (save_state dir st) fs
  = (tt, <[state_file dir := written fs (state_file dir) body]> fs).
Proof. intros Hst. unfold save_state. rewrite sunny_act. simpl. by rewrite Hst. Qed.

(** Rolling back exchanges the two images. *)
Lemma rollback_exchanges body fs f g :
  eligible exe → state_to_string OtaState_default = Some body →
  fs !! exe = Some f → fs !! prev_path exe = Some g →
  let r := sunny net (cmd_rollback false (Some exe) dir) fs in
  r.1 = RolledBack ∧ r.2 !! exe = Some g ∧ r.2 !! prev_path exe = Some f ∧
  same_but [exe; prev_path exe; with_extension "ota-swap" exe; staged_file dir; state_file dir] fs r.2.
Proof.
  intros He Hst Hf Hg. pose proof places_apart as Hd. unfold places in Hd.
  rewrite !NoDup_cons in Hd.
  unfold cmd_rollback. rewrite sunny_bind, He, eligible_quiet, sunny_act. io_simpl.
  rewrite Hg. io_simpl. rewrite sunny_act.
  set (fs1 := (perform net NoFault (RemoveFile (staged_file dir)) fs).2).
  assert (∀ p, p ≠ staged_file dir → fs1 !! p = fs !! p) as Hk1.
  { intros p Hp. subst fs1. simpl. destruct (fs !! staged_file dir); simpl; [|done].
    by rewrite lookup_delete_ne. }
  clearbody fs1. rewrite sunny_bind, (sunny_save_state _ body) by done. io_simpl.
  set (fs2 := <[state_file dir := _]> fs1).
  assert (∀ p, p ≠ staged_file dir → p ≠ state_file dir → fs2 !! p = fs !! p) as Hk2.
  { intros p Hp Hq. subst fs2. rewrite lookup_insert_ne by done. auto. }
  clearbody fs2. rewrite sunny_bind. unfold swap_back. rewrite sunny_act. io_simpl.
  rewrite Hk2, Hf by set_solver. io_simpl. rewrite sunny_act. io_simpl.
  rewrite lookup_insert_ne, lookup_delete_ne, Hk2, Hg by set_solver. io_simpl.
  rewrite sunny_act. io_simpl.
  rewrite lookup_insert_ne, lookup_delete_ne, lookup_insert_eq by set_solver. io_simpl.
  unfold sunny. cbn [exec fst snd]. split_and!; [done| | |].
  - rewrite lookup_insert_ne, lookup_delete_ne by set_solver. by rewrite lookup_insert_eq.
  - by rewrite lookup_insert_eq.
  - intros p Hp. rewrite lookup_insert_ne, lookup_delete_ne, lookup_insert_ne, lookup_delete_ne,
      lookup_insert_ne, lookup_delete_ne by set_solver. apply Hk2; set_solver.
Qed.

Context `{!Sha256, !Sha256Ok, Minisign, Serde}.

Lemma sunny_stream path chunks h so_far bin fs :
  read_to_end chunks = Some bin → Some "" ∉ chunks →
  ∃ fs', sunny net (stream path chunks h so_far) fs
         = (Some (hasher_update h bin, so_far +:+ bin), fs') ∧ same_but [path] fs fs'.
Proof.
  revert h so_far bin fs. induction chunks as [|[chunk|] chunks IH]; intros h so_far bin fs;
    cbn [read_to_end foldr]; [|fold (read_to_end chunks)|done].
  - intros [= <-] _. exists fs. by rewrite hasher_update_nil, string_app_nil_r.
  - destruct (read_to_end chunks) as [b|] eqn:Er; [|done]. intros [= <-] Hn.
    destruct chunk as [|c chunk]; [set_solver|].
    destruct (IH (hasher_update h (String c chunk)) (so_far +:+ String c chunk) b
                (<[path := written fs path ""]> fs) eq_refl) as (fs' & E & Hs); [set_solver|].
    exists fs'. cbn [stream]. rewrite sunny_act. io_simpl. rewrite E. split.
    + by rewrite hasher_update_app, string_app_assoc.
    + intros p Hp. rewrite Hs by done. rewrite lookup_insert_ne; [done|set_solver].
Qed.

Lemma sunny_download url limit fs : sunny net (download url limit) fs = (net url ≫= read_to_end, fs).
Proof. unfold download. by rewrite sunny_act. Qed.

Lemma sunny_download_to_file url path limit chunks bin fs :
  net url = Some chunks → read_to_end chunks = Some bin → Some "" ∉ chunks →
  ∃ fs', sunny net (download_to_file url path limit) fs = (Some (sha256_hex bin), fs') ∧
    same_but [path] fs fs' ∧ f_content <$> fs' !! path = Some bin.
Proof.
  intros Hu Hr Hn. unfold download_to_file. rewrite sunny_act. io_simpl. rewrite Hu, sunny_act.
  io_simpl. rewrite sunny_bind.
  destruct (sunny_stream path chunks hasher_new "" bin (<[path := written fs path ""]> fs) Hr Hn)
    as (fs1 & -> & Hs). io_simpl. rewrite sunny_act. io_simpl.
  eexists. split_and!; [done| |by rewrite lookup_insert_eq].
  intros p Hp. rewrite lookup_insert_ne by set_solver. rewrite Hs by done.
  rewrite lookup_insert_ne; [done|set_solver].
Qed.

(** What a release needs for its binary to be staged. *)
Record release_ok (asset url cu su bin : string) : Prop := {
  ro_manifest : ∃ manifest sig, net cu ≫= read_to_end = Some manifest ∧
    net su ≫= read_to_end = Some sig ∧ trusted_hash manifest sig asset = inr (sha256_hex bin);
  ro_binary : ∃ chunks, net url = Some chunks ∧ read_to_end chunks = Some bin ∧ Some "" ∉ chunks
}.

Definition staged_state (latest : Version) (bin : string) : OtaState := {|
  staged_version := Some (version_to_string latest); staged_sha256 := Some (sha256_hex bin);
  latest_seen := Some (version_to_string latest) |}.

Definition image_of (bin : string) : File := {| f_content := bin; f_executable := true |}.

Lemma sunny_stage current latest tag asset url cu su bin body fs :
  eligible exe → release_ok asset url cu su bin →
  state_to_string (staged_state latest bin) = Some body →
  ∃ fs', sunny net (stage (Available current latest tag asset url (Some cu) (Some su)) dir exe) fs
         = (inr latest, fs') ∧
    fs' !! staged_file dir = Some (image_of bin) ∧
    f_content <$> fs' !! state_file dir = Some body ∧
    same_but [with_extension "part" (staged_file dir); staged_file dir; state_file dir] fs fs'.
Proof.
  intros He [(manifest & sig & Hm & Hs & Ht) (chunks & Hu & Hr & Hn)] Hst.
  destruct (part_apart dir) as (Hss & Hps & Hpst).
  unfold stage. rewrite sunny_bind, He, eligible_quiet, sunny_act. io_simpl.
  rewrite sunny_bind, sunny_download. cbn [fst snd]. rewrite Hm.
  rewrite sunny_bind, sunny_download. cbn [fst snd]. rewrite Hs, Ht.
  unfold stage_binary. set (part := with_extension "part" (staged_file dir)) in *.
  rewrite sunny_bind.
  destruct (sunny_download_to_file url part BINARY_DOWNLOAD_LIMIT chunks bin fs Hu Hr Hn)
    as (fs1 & -> & Hsame & Hc). cbn [fst snd]. rewrite String.eqb_refl. cbn [negb].
  destruct (fs1 !! part) as [f|] eqn:Hf; [|done]. injection Hc as Hc.
  rewrite sunny_act. io_simpl. rewrite Hf. io_simpl. rewrite sunny_act. io_simpl.
  rewrite lookup_insert_eq. io_simpl. rewrite sunny_bind.
  rewrite (sunny_save_state _ body) by done. unfold sunny at 1. cbn [fst snd exec].
  eexists. split_and!; [done| | |].
  - rewrite lookup_insert_ne, lookup_insert_eq by done. by rewrite Hc.
  - by rewrite lookup_insert_eq.
  - intros p Hp. rewrite lookup_insert_ne, lookup_insert_ne, lookup_delete_ne, lookup_insert_ne
      by set_solver. apply Hsame. set_solver.
Qed.

Lemma sunny_swap new_image f g fs :
  fs !! exe = Some f → fs !! new_image = Some g → new_image ∉ [exe; prev_path exe] →
  ∃ fs', sunny net (swap_binary exe new_image) fs = (true, fs') ∧
    fs' !! exe = Some g ∧ fs' !! prev_path exe = Some f ∧ fs' !! new_image = None ∧
    same_but [exe; prev_path exe; new_image] fs fs'.
Proof.
  intros Hf Hg Hn. pose proof places_apart as Hd. unfold places in Hd. rewrite !NoDup_cons in Hd.
  unfold swap_binary. rewrite sunny_act.
  set (fs1 := (perform net NoFault (RemoveFile (prev_path exe)) fs).2).
  assert (∀ p, p ≠ prev_path exe → fs1 !! p = fs !! p) as Hk1.
  { intros p Hp. subst fs1. simpl. destruct (fs !! prev_path exe); simpl; [|done].
    by rewrite lookup_delete_ne. }
  clearbody fs1. rewrite sunny_act. io_simpl. rewrite Hk1, Hf by set_solver. io_simpl.
  rewrite sunny_act. io_simpl.
  rewrite lookup_insert_ne, lookup_delete_ne, Hk1, Hg by set_solver. io_simpl.
  unfold sunny. cbn [exec]. eexists. split_and!; [done|..].
  - by rewrite lookup_insert_eq.
  - rewrite lookup_insert_ne, lookup_delete_ne by set_solver. by rewrite lookup_insert_eq.
  - rewrite lookup_insert_ne by set_solver. by rewrite lookup_delete_eq.
  - intros p Hp. rewrite lookup_insert_ne, lookup_delete_ne, lookup_insert_ne, lookup_delete_ne
      by set_solver. apply Hk1. set_solver.
Qed.

Definition read_state (f : File) : option OtaState :=
  if utf8_valid (map code (chars (f_content f))) then state_from_str (f_content f) else None.

Lemma sunny_load_state fs :
  sunny net (load_state dir) fs
  = (default OtaState_default (fs !! state_file dir ≫= read_state), fs).
Proof.
  unfold load_state, read_state. rewrite sunny_act. io_simpl. unfold sunny. cbn [exec].
  by destruct (fs !! state_file dir).
Qed.

(** A start with nothing recorded changes nothing. *)
Lemma boot_nothing_staged current fs :
  staged_sha256 (default OtaState_default (fs !! state_file dir ≫= read_state)) = None →
  sunny net (apply_pending_on_boot false (Some exe) dir current) fs = (Continue, fs).
Proof.
  intros Hst. unfold apply_pending_on_boot. rewrite sunny_bind, sunny_load_state. cbn [fst snd].
  rewrite Hst. by destruct (staged_version _).
Qed.

Definition applied_state (latest : Version) : OtaState := {|
  staged_version := None; staged_sha256 := None; latest_seen := Some (version_to_string latest) |}.

(** A start with a newer, intact staged image applies it. *)
Lemma boot_applies `{!SemverOk} current latest bin body f fs :
  eligible exe → fs !! exe = Some f → fs !! staged_file dir = Some (image_of bin) →
  fs !! state_file dir ≫= read_state = Some (staged_state latest bin) →
  version_leb latest current = false → state_to_string (applied_state latest) = Some body →
  ∃ fs', sunny net (apply_pending_on_boot false (Some exe) dir current) fs = (Reexec, fs') ∧
    fs' !! exe = Some (image_of bin) ∧ fs' !! prev_path exe = Some f ∧
    fs' !! staged_file dir = None ∧ f_content <$> fs' !! state_file dir = Some body ∧
    same_but [exe; prev_path exe; staged_file dir; state_file dir] fs fs'.
Proof.
  intros He Hf Hg Hst Hv Hb. pose proof places_apart as Hd. unfold places in Hd.
  rewrite !NoDup_cons in Hd.
  unfold apply_pending_on_boot. rewrite sunny_bind, sunny_load_state. cbn [fst snd].
  rewrite Hst. cbn [from_option id staged_state staged_version staged_sha256].
  rewrite version_parse_to_string, Hv, sunny_bind, He, eligible_quiet, sunny_act. io_simpl.
  rewrite Hg. cbn [fmap option_fmap option_map image_of f_content]. rewrite String.eqb_refl.
  cbn [negb]. rewrite sunny_bind.
  destruct (sunny_swap (staged_file dir) f (image_of bin) fs Hf Hg) as (fs1 & -> & Hx1 & Hx2 & Hx3 & Hs);
    [set_solver|].
  cbn [fst snd]. rewrite sunny_bind.
  rewrite (sunny_save_state (applied_state latest) body) by done. unfold sunny. cbn [fst snd exec].
  eexists. split_and!; [done| | | | |].
  - by rewrite lookup_insert_ne by set_solver.
  - by rewrite lookup_insert_ne by set_solver.
  - by rewrite lookup_insert_ne by set_solver.
  - by rewrite lookup_insert_eq.
  - intros p Hp. rewrite lookup_insert_ne by set_solver. apply Hs. set_solver.
Qed.
End Working.

(** C32: A staged update is applied at the next start, and once.  When a
    release's manifest is signed and lists the hash of the served binary,
    staging and then booting a version older than the release, with no
    operation failing (so with the staged file and the executable on one
    filesystem), put the binary in place, executable, keep the image that
    was there, consume the staged file and re-execute; the boot of the new
    image changes nothing. *)
Theorem staged_update_is_applied `{SemverOk, Sha256Ok, Minisign, OtaSerdeOk, Serde}
    net (edir dir : Path) (name : string) current running latest tag asset url cu su bin body1 body2 f fs :
  published_name name → edir ≠ dir →
  let exe := edir ++ [name] in
  eligible net exe → release_ok net asset url cu su bin →
  state_to_string (staged_state latest bin) = Some body1 → utf8_valid (map code (chars body1)) = true →
  state_to_string (applied_state latest) = Some body2 →
  version_leb latest running = false → fs !! exe = Some f →
  let available := Available current latest tag asset url (Some cu) (Some su) in
  let boot v := apply_pending_on_boot false (Some exe) dir v in
  ∃ fs1 fs2, sunny net (stage available dir exe) fs = (inr latest, fs1) ∧
    sunny net (boot running) fs1 = (Reexec, fs2) ∧
    fs2 !! exe = Some (image_of bin) ∧ fs2 !! prev_path exe = Some f ∧
    fs2 !! staged_file dir = None ∧ ∀ v, sunny net (boot v) fs2 = (Continue, fs2).
Proof.
  intros Hn Hd exe He Hro Hb1 Hu1 Hb2 Hv Hf available boot.
  pose proof (places_distinct edir name dir Hn Hd) as Hp. fold exe in Hp. unfold places in Hp.
  rewrite !NoDup_cons in Hp.
  destruct (sunny_stage net edir dir name Hn Hd current latest tag asset url cu su bin body1 fs He Hro Hb1)
    as (fs1 & E1 & Hs1 & Hst1 & Hsame1).
  destruct (boot_applies net edir dir name Hn Hd running latest bin body2 f fs1 He)
    as (fs2 & E2 & Hx1 & Hx2 & Hx3 & Hst2 & _); [|done| |done..|].
  - rewrite Hsame1; [done|]. fold exe. set_solver.
  - destruct (fs1 !! state_file dir) as [sf|]; [|done]. injection Hst1 as Hst1.
    simpl. unfold read_state. rewrite Hst1, Hu1. by apply state_roundtrip.
  - exists fs1, fs2. split_and!; [done..|]. intros v. apply boot_nothing_staged.
    destruct (fs2 !! state_file dir) as [sf|]; [|done]. injection Hst2 as Hst2.
    simpl. unfold read_state. rewrite Hst2. destruct (utf8_valid (map code (chars body2))); [|done].
    by rewrite (state_roundtrip _ _ Hb2).
Qed.

(** A rollback is reversible.  It exchanges the image and the kept one
    and drops a staged update; a second one, by the image it brought back,
    restores both exactly, and nothing but the updater's own files
    changes. *)
Theorem rollback_is_reversible `{Semver, OtaSerde}
    net (edir dir : Path) (name body : string) f g fs :
  published_name name → edir ≠ dir →
  let exe := edir ++ [name] in
  eligible net exe → state_to_string OtaState_default = Some body →
  fs !! exe = Some f → fs !! prev_path exe = Some g →
  let rollback := sunny net (cmd_rollback false (Some exe) dir) in
  let fs1 := (rollback fs).2 in
  let fs2 := (rollback fs1).2 in
  (rollback fs).1 = RolledBack ∧ (rollback fs1).1 = RolledBack ∧
  fs1 !! exe = Some g ∧ fs1 !! prev_path exe = Some f ∧
  fs2 !! exe = Some f ∧ fs2 !! prev_path exe = Some g ∧
  same_but [exe; prev_path exe; with_extension "ota-swap" exe; staged_file dir; state_file dir] fs fs2.
Proof.
  intros Hn Hd exe He Hb Hf Hg rollback fs1 fs2.
  destruct (rollback_exchanges net edir dir name Hn Hd body fs f g He Hb Hf Hg)
    as (E1 & Hx1 & Hx2 & Hs1).
  destruct (rollback_exchanges net edir dir name Hn Hd body fs1 g f He Hb Hx1 Hx2)
    as (E2 & Hx3 & Hx4 & Hs2).
  split_and!; [done..|]. intros p Hp. fold exe in Hs1, Hs2. unfold fs2, rollback.
  rewrite Hs2 by done. by apply Hs1.
Qed.

(** ** When something fails *)

(** Faults are isolated when no operation fails right after another, and no
    rename crosses devices. *)
Definition isolated (plan : nat → Fault) : Prop :=
  ∀ n, plan n ≠ Crosses ∧ (plan n = Fails → plan (S n) = NoFault).

(** A failing swap keeps an image in place.  On one filesystem, when no
    system call fails directly after another, [swap_binary] either succeeds,
    with the new image in place and the old one kept, or reports an error
    with the old image where it was. *)
Theorem swap_binary_keeps_an_image net plan n (edir dir : Path) (name : string) f g fs :
  published_name name → edir ≠ dir → isolated plan →
  let exe := edir ++ [name] in
  fs !! exe = Some f → fs !! staged_file dir = Some g →
  let r := exec net plan n (swap_binary exe (staged_file dir)) fs in
  if r.1 then r.2 !! exe = Some g ∧ r.2 !! prev_path exe = Some f else r.2 !! exe = Some f.
Proof.
  intros Hn Hd Hp exe Hf Hg. pose proof (places_distinct edir name dir Hn Hd) as Hpl.
  fold exe in Hpl. unfold places in Hpl. rewrite !NoDup_cons in Hpl.
  unfold swap_binary. cbn [act bind exec].
  set (rm := perform net (plan n) (RemoveFile (prev_path exe)) fs).
  assert (∀ p, p ≠ prev_path exe → rm.2 !! p = fs !! p) as Hk.
  { intros p Hne. subst rm. simpl.
    destruct (plan n), (fs !! prev_path exe); simpl; try done. by rewrite lookup_delete_ne. }
  clearbody rm. destruct rm as [r fs1]. cbn [snd] in Hk.
  cbn [act bind exec perform]. rewrite Hk, Hf by set_solver.
  destruct (Hp (S n)) as [Hc1 Hi1]. destruct (plan (S n)); [|simpl; rewrite Hk; [done|set_solver]|done].
  cbn [act bind exec perform]. rewrite lookup_insert_ne, lookup_delete_ne, Hk, Hg by set_solver.
  destruct (Hp (S (S n))) as [Hc2 Hi2]. destruct (plan (S (S n))); [| |done].
  - simpl. split; [by rewrite lookup_insert_eq|].
    rewrite lookup_insert_ne, lookup_delete_ne by set_solver. by rewrite lookup_insert_eq.
  - cbn [act bind exec perform]. rewrite (Hi2 eq_refl), lookup_insert_eq. simpl.
    by rewrite lookup_insert_eq.
Qed.

Lemma eligible_form net (edir : Path) name :
  eligible net (edir ++ [name]) →
  check_eligibility (edir ++ [name])
  = (readonly <- act (IsReadonly edir);
     Ret (if readonly : bool then Some (NotWritable edir) else None)).
Proof.
  intros He. specialize (He ∅). revert He. unfold check_eligibility. cbv zeta.
  assert (parent (edir ++ [name]) = Some edir) as ->.
  { unfold parent. rewrite removelast_snoc. by destruct edir. }
  repeat match goal with |- context [if ?b then Ret _ else _] => destruct b; [done|] end. done.
Qed.

(** The staged image is on another filesystem, and copying it fails. *)
Definition failed_fallback (n : nat) : Fault :=
  if decide (n = 5) then Crosses else if decide (n = 6) then Fails else NoFault.

(** A failed fallback leaves no image.  When the OTA directory is on
    another filesystem and the copy of the staged image fails, a boot takes
    the running image aside, does not put it back, discards the staged one
    and carries on: nothing is left to start next time, although every
    later system call succeeded. *)
Theorem failed_fallback_leaves_no_image `{SemverOk, Sha256, OtaSerde}
    net (edir dir : Path) (name : string) running latest bin f fs :
  published_name name → edir ≠ dir →
  let exe := edir ++ [name] in
  eligible net exe → fs !! exe = Some f → fs !! staged_file dir = Some (image_of bin) →
  fs !! state_file dir ≫= read_state = Some (staged_state latest bin) →
  version_leb latest running = false →
  let r := exec net failed_fallback 0 (apply_pending_on_boot false (Some exe) dir running) fs in
  r.1 = Continue ∧ r.2 !! exe = None ∧ r.2 !! prev_path exe = Some f ∧
  r.2 !! staged_file dir = None.
Proof.
  intros Hn Hd exe He Hf Hg Hst Hv. pose proof (places_distinct edir name dir Hn Hd) as Hpl.
  fold exe in Hpl. unfold places in Hpl. rewrite !NoDup_cons in Hpl.
  unfold apply_pending_on_boot, load_state. cbn [act bind exec perform failed_fallback].
  destruct (fs !! state_file dir) as [sf|] eqn:Hsf; [|done]. simpl in Hst. unfold read_state in Hst.
  cbn [fmap option_fmap option_map mbind option_bind].
  change (failed_fallback 0) with NoFault. cbn [mbind option_bind].
  destruct (utf8_valid (map code (chars (f_content sf)))); [|done]. rewrite Hst.
  cbn [from_option id staged_state staged_version staged_sha256].
  rewrite version_parse_to_string, Hv. unfold exe. rewrite (eligible_form _ _ _ He). fold exe.
  cbn [act bind exec perform]. change (failed_fallback 1) with NoFault.
  cbn [act bind exec perform]. change (failed_fallback 2) with NoFault. rewrite Hg.
  cbn [fmap option_fmap option_map image_of f_content]. rewrite String.eqb_refl. cbn [negb].
  unfold swap_binary. cbn [act bind exec]. change (failed_fallback 3) with NoFault.
  set (rm := perform net NoFault (RemoveFile (prev_path exe)) fs).
  assert (∀ p, p ≠ prev_path exe → rm.2 !! p = fs !! p) as Hk.
  { intros p Hne. subst rm. simpl. destruct (fs !! prev_path exe); simpl; try done.
    by rewrite lookup_delete_ne. }
  clearbody rm. destruct rm as [r fs1]. cbn [snd] in Hk.
  cbn [act bind exec perform]. change (failed_fallback 4) with NoFault.
  rewrite Hk, Hf by set_solver. cbn [act bind exec perform].
  change (failed_fallback 5) with Crosses. cbn [act bind exec perform].
  change (failed_fallback 6) with Fails. cbn [negb bind discard act exec perform].
  change (failed_fallback 7) with NoFault.
  rewrite lookup_insert_ne, lookup_delete_ne, Hk, Hg by set_solver.
  unfold save_state. cbn [act bind exec perform]. change (failed_fallback 8) with NoFault.
  cbn [act bind exec perform].
  destruct (state_to_string OtaState_default) as [body|]; cbn [act bind exec perform];
    change (failed_fallback 9) with NoFault; simpl; split_and!; try done;
    rewrite ?lookup_insert_ne, ?lookup_delete_eq by set_solver; try done;
    rewrite lookup_delete_ne by set_solver; rewrite ?lookup_insert_eq; try done;
    rewrite lookup_insert_ne by set_solver; by rewrite lookup_delete_eq.
Qed.

(** ** The demonstration update *)

#[local] Existing Instances OtaDemo.semver OtaDemo.sha256 OtaDemo.minisign OtaDemo.ota_serde OtaDemo.serde.
#[local] Existing Instances OtaDemo.semver_ok OtaDemo.sha256_ok OtaDemo.ota_serde_ok.

Lemma demo_eligible : eligible OtaDemo.net OtaDemo.exe.
Proof. intros fs. by vm_compute. Qed.

Lemma demo_release :
  release_ok OtaDemo.net OtaDemo.asset "bin" "sums" "sig" "new".
Proof.
  constructor.
  - exists OtaDemo.manifest, "signed". split_and!; by vm_compute.
  - exists [Some "n"; Some "ew"]. split_and!; [by vm_compute..|]. set_solver.
Qed.

Lemma staged_update_is_applied_witness :
  ∃ fs1 fs2,
    sunny OtaDemo.net (stage (Available "1" "2" "v2" OtaDemo.asset "bin" (Some "sums") (Some "sig"))
      OtaDemo.ota_dir OtaDemo.exe) OtaDemo.start = (inr "2", fs1) ∧
    sunny OtaDemo.net (apply_pending_on_boot false (Some OtaDemo.exe) OtaDemo.ota_dir "1") fs1
    = (Reexec, fs2) ∧ fs2 !! OtaDemo.exe = Some (image_of "new").
Proof.
  destruct (staged_update_is_applied OtaDemo.net OtaDemo.exe_dir
    OtaDemo.ota_dir "rsrpc-cli" (OtaDemo.ver "1") (OtaDemo.ver "1") (OtaDemo.ver "2") "v2" OtaDemo.asset "bin" "sums" "sig" "new"
    (of_chars (enc_state (staged_state (OtaDemo.ver "2") "new")))
    (of_chars (enc_state (applied_state (OtaDemo.ver "2")))) OtaDemo.old OtaDemo.start)
    as (fs1 & fs2 & E1 & E2 & Hx & _).
  - by left.
  - done.
  - apply demo_eligible.
  - apply demo_release.
  - done.
  - by vm_compute.
  - done.
  - by vm_compute.
  - by vm_compute.
  - exists fs1, fs2. by split_and!.
Defined.

Lemma rollback_is_reversible_witness :
  let fs := <[prev_path OtaDemo.exe := {| f_content := "older"; f_executable := true |}]> OtaDemo.start in
  let fs1 := (sunny OtaDemo.net (cmd_rollback false (Some OtaDemo.exe) OtaDemo.ota_dir) fs).2 in
  fs1 !! OtaDemo.exe = Some {| f_content := "older"; f_executable := true |} ∧
  fs1 !! prev_path OtaDemo.exe = Some OtaDemo.old.
Proof.
  destruct (rollback_is_reversible OtaDemo.net OtaDemo.exe_dir
    OtaDemo.ota_dir "rsrpc-cli" (of_chars (enc_state OtaState_default)) OtaDemo.old
    {| f_content := "older"; f_executable := true |}
    (<[prev_path OtaDemo.exe := {| f_content := "older"; f_executable := true |}]> OtaDemo.start))
    as (_ & _ & Hx & Hy & _).
  - by left.
  - done.
  - apply demo_eligible.
  - done.
  - by vm_compute.
  - by vm_compute.
  - exact (conj Hx Hy).
Defined.

Lemma swap_binary_keeps_an_image_witness :
  let fs := <[staged_file OtaDemo.ota_dir := image_of "new"]> OtaDemo.start in
  let plan n := if decide (n = 2) then Fails else NoFault in
  let r := exec OtaDemo.net plan 0 (swap_binary OtaDemo.exe (staged_file OtaDemo.ota_dir)) fs in
  r.1 = false ∧ r.2 !! OtaDemo.exe = Some OtaDemo.old.
Proof.
  intros fs plan r. assert (r.1 = false) as E by by vm_compute. split; [done|].
  pose proof (swap_binary_keeps_an_image OtaDemo.net plan 0 OtaDemo.exe_dir OtaDemo.ota_dir "rsrpc-cli"
    OtaDemo.old (image_of "new") fs) as Hs. cbv zeta in Hs. fold OtaDemo.exe in Hs. fold r in Hs.
  rewrite E in Hs. apply Hs; [by left|done| |by vm_compute..].
  intros n. unfold plan. split; [by case_decide|]. repeat case_decide; try done; lia.
Defined.

Lemma failed_fallback_leaves_no_image_witness :
  let r := exec OtaDemo.net failed_fallback 0
             (apply_pending_on_boot false (Some OtaDemo.exe) OtaDemo.ota_dir "1") OtaDemo.staged_fs in
  r.1 = Continue ∧ r.2 !! OtaDemo.exe = None.
Proof.
  destruct (failed_fallback_leaves_no_image OtaDemo.net OtaDemo.exe_dir OtaDemo.ota_dir "rsrpc-cli" (OtaDemo.ver "1") (OtaDemo.ver "2") "new"
    OtaDemo.old OtaDemo.staged_fs) as (Hx & Hy & _).
  - by left.
  - done.
  - apply demo_eligible.
  - by vm_compute.
  - by vm_compute.
  - by vm_compute.
  - by vm_compute.
  - by split.
Defined.
