(* ===== verification/StdPath.v ===== *)
(** * [std::path] on Unix and lossy decoding

    A path is the string of its bytes.  [Path] compares, sorts and hashes by
    components, so two different strings can be the same path: repeated
    separators, a trailing separator and inner [.] components do not count.
    [String::from_utf8_lossy] is written out, one U+FFFD for every maximal
    invalid piece. *)

From stdpp Require Import base strings list list_numbers sorting sets.
From Stdlib Require Import Ascii.
From S2P Require Import Prelude RStr Text.

Local Open Scope string_scope.
Local Open Scope nat_scope.
Local Open Scope list_scope.

(** ** Components *)

Inductive Component := RootDir | CurDir | ParentDir | Normal (name : string).

#[global] Instance Component_eq_dec : EqDecision Component.
Proof. solve_decision. Defined.

Definition component (part : string) : option Component :=
  if String.eqb part "" then None
  else if String.eqb part "." then None
  else if String.eqb part ".." then Some ParentDir
  else Some (Normal part).

(** [Path::components]: a leading [.] of a relative path counts. *)
Definition components (p : string) : list Component :=
  let parts := split "/"%char p in
  if starts_with "/" p then RootDir :: omap component parts
  else match parts with
       | first :: rest =>
           if String.eqb first "." then CurDir :: omap component rest else omap component parts
       | [] => []
       end.

Definition is_absolute (p : string) : bool := starts_with "/" p.

(** [Path::join]. *)
Definition join (p q : string) : string :=
  if is_absolute q then q
  else if String.eqb p "" || ends_with "/" p then p +:+ q
  else p +:+ "/" +:+ q.

(** A path with the given components. *)
Definition component_name (c : Component) : string :=
  match c with RootDir => "/" | CurDir => "." | ParentDir => ".." | Normal n => n end.

Definition of_components (l : list Component) : string :=
  foldl (λ p c, join p (component_name c)) "" l.

(** [Path::parent] (up to the spelling [Path]'s equality ignores). *)
Definition parent (p : string) : option string :=
  match rev (components p) with
  | [] | RootDir :: _ => None
  | _ :: up => Some (of_components (rev up))
  end.

(** [Path::file_name]. *)
Definition file_name (p : string) : option string :=
  match last (components p) with Some (Normal n) => Some n | _ => None end.

(** ** The order of paths *)

Definition rank (c : Component) : nat :=
  match c with RootDir => 0 | CurDir => 1 | ParentDir => 2 | Normal _ => 3 end.

Definition component_leb (a b : Component) : bool :=
  match a, b with
  | Normal a, Normal b => String.leb a b
  | _, _ => rank a <=? rank b
  end.

Fixpoint components_leb (l k : list Component) : bool :=
  match l, k with
  | [], _ => true
  | _ :: _, [] => false
  | a :: l, b :: k => if decide (a = b) then components_leb l k else component_leb a b
  end.

Definition path_leb (p q : string) : bool := components_leb (components p) (components q).
Definition path_eqb (p q : string) : bool := bool_decide (components p = components q).

(** [Vec<PathBuf>::sort], stable. *)
Fixpoint insert_path (x : string) (l : list string) : list string :=
  match l with
  | [] => [x]
  | y :: l' => if path_leb x y then x :: l else y :: insert_path x l'
  end.

Definition path_sort (l : list string) : list string := foldr insert_path [] l.

(** [Vec<PathBuf>::dedup]: the first of each run stays. *)
Fixpoint path_dedup_from (prev : string) (l : list string) : list string :=
  match l with
  | [] => []
  | x :: l => if path_eqb x prev then path_dedup_from prev l else x :: path_dedup_from x l
  end.

Definition path_dedup (l : list string) : list string :=
  match l with [] => [] | x :: l => x :: path_dedup_from x l end.

(** [Vec<PathBuf>::contains] and a push of what is not there. *)
Definition path_mem (p : string) (l : list string) : bool := existsb (path_eqb p) l.
Definition push_new (p : string) (l : list string) : list string :=
  if path_mem p l then l else l ++ [p].

(** ** Lossy decoding *)

Definition REPLACEMENT : list ascii := map chr [239; 191; 189]%Z.

(** The length of the piece at the front of non-empty bytes and whether it
    encodes a character. *)
Definition utf8_piece (l : list Z) : nat * bool :=
  match l with
  | [] => (0, true)
  | a :: l1 =>
      let b := default 0%Z (l1 !! 0) in
      let c := default 0%Z (l1 !! 1) in
      let d := default 0%Z (l1 !! 2) in
      if (a <? 128)%Z then (1, true)
      else if ((194 <=? a) && (a <=? 223))%Z then if cont b then (2, true) else (1, false)
      else if ((224 <=? a) && (a <=? 239))%Z then
        if utf8_second3 a b then if cont c then (3, true) else (2, false) else (1, false)
      else if ((240 <=? a) && (a <=? 244))%Z then
        if utf8_second4 a b then
          if cont c then if cont d then (4, true) else (3, false) else (2, false)
        else (1, false)
      else (1, false)
  end.

(** [skip] bytes of the current piece are still to pass. *)
Fixpoint lossy_l (skip : nat) (l : list ascii) : list ascii :=
  match l with
  | [] => []
  | a :: l' =>
      match skip with
      | S skip => lossy_l skip l'
      | 0 => let '(n, ok) := utf8_piece (map code l) in
             (if ok then take n l else REPLACEMENT) ++ lossy_l (pred n) l'
      end
  end.

(** [String::from_utf8_lossy]. *)
Definition from_utf8_lossy (s : string) : string := of_chars (lossy_l 0 (chars s)).

Definition is_utf8 (s : string) : bool := utf8_valid (map code (chars s)).

(** ** Sorting and deduplicating leaves every path once *)

Lemma component_leb_total a b : component_leb a b = true ∨ component_leb b a = true.
Proof.
  destruct a as [| | |a], b as [| | |b]; simpl; auto.
  destruct (String.leb a b) eqn:E; [by left|right].
  destruct (total String.le a b) as [H|H]; apply Is_true_true in H; unfold String.leb in *; congruence.
Qed.

Lemma component_leb_antisym a b : component_leb a b = true → component_leb b a = true → a = b.
Proof.
  destruct a as [| | |a], b as [| | |b]; simpl; try done. intros H1 H2. f_equal.
  apply (anti_symm String.le); by apply Is_true_true.
Qed.

Lemma component_leb_trans a b c :
  component_leb a b = true → component_leb b c = true → component_leb a c = true.
Proof.
  destruct a as [| | |a], b as [| | |b], c as [| | |c]; simpl; try done. intros H1 H2.
  apply Is_true_true. trans b; by apply Is_true_true.
Qed.

Lemma components_leb_total l k : components_leb l k = true ∨ components_leb k l = true.
Proof.
  revert k. induction l as [|a l IH]; intros [|b k]; simpl; auto.
  destruct (decide (a = b)) as [->|Hne]; [rewrite decide_True by done; apply IH|].
  rewrite decide_False by done. apply component_leb_total.
Qed.

Lemma components_leb_antisym l k :
  components_leb l k = true → components_leb k l = true → l = k.
Proof.
  revert k. induction l as [|a l IH]; intros [|b k]; simpl; try done.
  destruct (decide (a = b)) as [->|Hne].
  - rewrite decide_True by done. intros ??. f_equal. auto.
  - rewrite decide_False by done. intros ??. by destruct Hne; apply component_leb_antisym.
Qed.

Lemma components_leb_trans l k m :
  components_leb l k = true → components_leb k m = true → components_leb l m = true.
Proof.
  revert k m. induction l as [|a l IH]; intros [|b k] [|c m]; simpl; try done.
  destruct (decide (a = b)) as [->|Hab], (decide (b = c)) as [->|Hbc].
  - apply IH.
  - done.
  - rewrite decide_False by done. done.
  - intros H1 H2. rewrite decide_False; [by eapply component_leb_trans|].
    intros ->. by destruct Hab; apply component_leb_antisym.
Qed.

Definition path_le (p q : string) : Prop := path_leb p q = true.

#[global] Instance path_le_trans : Transitive path_le.
Proof. intros p q r. apply components_leb_trans. Qed.

Lemma insert_path_elem x y l : y ∈ insert_path x l ↔ y = x ∨ y ∈ l.
Proof.
  induction l as [|z l IH]; simpl; [set_solver|].
  destruct (path_leb x z); rewrite !elem_of_cons, ?IH; naive_solver.
Qed.

Lemma path_sort_elem y l : y ∈ path_sort l ↔ y ∈ l.
Proof. induction l as [|x l IH]; simpl; [done|]. by rewrite insert_path_elem, elem_of_cons, IH. Qed.

Lemma path_sort_sorted l : StronglySorted path_le (path_sort l).
Proof.
  induction l as [|x k IH]; [constructor|]. simpl.
  induction IH as [|y l Hl IH Hy]; simpl; [repeat constructor|].
  destruct (path_leb x y) eqn:E.
  - constructor; [by constructor|]. constructor; [done|].
    eapply Forall_impl; [exact Hy|]. intros z Hz. by trans y.
  - constructor; [done|]. rewrite Forall_forall in Hy |- *.
    intros z [->|Hz]%insert_path_elem; [|by apply Hy].
    destruct (components_leb_total (components y) (components x)); [done|].
    unfold path_leb in E. congruence.
Qed.

Lemma path_dedup_from_subset prev l : path_dedup_from prev l ⊆ l.
Proof.
  revert prev. induction l as [|x l IH]; intros prev; simpl; [done|].
  destruct (path_eqb x prev); [|apply list_subseteq_skip, IH].
  etrans; [apply IH|]. by apply list_subseteq_cons.
Qed.

Lemma path_dedup_from_NoDup prev l :
  StronglySorted path_le (prev :: l) →
  NoDup (components prev :: map components (path_dedup_from prev l)).
Proof.
  revert prev. induction l as [|x l IH]; intros prev Hs; simpl.
  { apply NoDup_singleton. }
  apply StronglySorted_inv in Hs as [Hs Hall].
  pose proof Hs as [Hl Hx]%StronglySorted_inv. apply Forall_cons_1 in Hall as [Hpx Hall].
  unfold path_eqb. case_bool_decide as E; [by apply IH; constructor|].
  simpl. constructor; [|by apply IH]. rewrite elem_of_cons. intros [E'|Hin]; [congruence|].
  apply list_elem_of_fmap in Hin as (y & Ey & Hy%path_dedup_from_subset).
  rewrite Forall_forall in Hx. specialize (Hx y Hy).
  unfold path_le, path_leb in *. rewrite <-Ey in Hx. destruct E. by apply components_leb_antisym.
Qed.

(** [sort] and [dedup] together: pairwise different paths, all of them
    among the given ones. *)
Lemma path_sort_dedup_NoDup l : NoDup (map components (path_dedup (path_sort l))).
Proof.
  pose proof (path_sort_sorted l) as Hs. destruct (path_sort l) as [|x k]; simpl; [constructor|].
  by apply path_dedup_from_NoDup.
Qed.

Lemma path_sort_dedup_subset l : path_dedup (path_sort l) ⊆ l.
Proof.
  intros y Hy. apply path_sort_elem. destruct (path_sort l) as [|x k]; [done|].
  simpl in Hy. apply elem_of_cons in Hy as [->|Hy]; [by left|right]. by eapply path_dedup_from_subset.
Qed.

Lemma path_dedup_from_complete prev l p :
  p ∈ l → components p = components prev ∨
          ∃ q, q ∈ path_dedup_from prev l ∧ components q = components p.
Proof.
  revert prev. induction l as [|x l IH]; intros prev; simpl; [set_solver|].
  intros [->|Hp]%elem_of_cons.
  - unfold path_eqb. case_bool_decide; [by left|]. right. exists x. split; [by left|done].
  - unfold path_eqb. case_bool_decide as E; [by apply IH|].
    destruct (IH x Hp) as [?|(q & Hq & ?)]; right.
    + exists x. split; [by left|done].
    + exists q. split; [by right|done].
Qed.

Lemma path_sort_dedup_complete l p :
  p ∈ l → ∃ q, q ∈ path_dedup (path_sort l) ∧ components q = components p.
Proof.
  intros Hp%path_sort_elem. destruct (path_sort l) as [|x k]; [set_solver|]. simpl.
  apply elem_of_cons in Hp as [->|Hp]; [exists x; split; [by left|done]|].
  destruct (path_dedup_from_complete x k p Hp) as [?|(q & ? & ?)].
  - exists x. split; [by left|done].
  - exists q. split; [by right|done].
Qed.

Lemma path_mem_spec p l : path_mem p l = true ↔ components p ∈ map components l.
Proof.
  unfold path_mem. rewrite existsb_exists, list_elem_of_fmap. split.
  - intros (x & Hx%list_elem_of_In & E%bool_decide_eq_true). eauto.
  - intros (x & E & Hx%list_elem_of_In). exists x. split; [done|]. by apply bool_decide_eq_true.
Qed.

Lemma push_new_NoDup p l : NoDup (map components l) → NoDup (map components (push_new p l)).
Proof.
  unfold push_new. intros Hl. destruct (path_mem p l) eqn:E; [done|].
  rewrite map_app. apply NoDup_app. split_and!; [done| |by apply NoDup_singleton].
  intros x Hx Ex%list_elem_of_singleton. subst x. apply path_mem_spec in Hx. congruence.
Qed.

Lemma push_new_elem p q l : q ∈ push_new p l → q = p ∨ q ∈ l.
Proof.
  unfold push_new. destruct (path_mem p l); [by right|].
  rewrite elem_of_app, list_elem_of_singleton. tauto.
Qed.

(** ** Decoding valid text changes nothing *)

Lemma lossy_skip n l : lossy_l n l = lossy_l 0 (drop n l).
Proof. revert n. induction l as [|a l IH]; intros [|n]; try done. simpl. by rewrite IH. Qed.

Lemma utf8_piece_valid a l :
  utf8_valid (map code (a :: l)) = true →
  ∃ n, utf8_piece (map code (a :: l)) = (S n, true) ∧
       utf8_valid (map code (drop n l)) = true.
Proof.
  cbn [map utf8_valid utf8_piece].
  destruct (code a <? 128)%Z eqn:Ea; [intros; by exists 0|].
  destruct l as [|b l]; [done|]. cbn [map]. simpl (_ !! 0). simpl (default _ _).
  destruct ((194 <=? code a) && (code a <=? 223))%Z eqn:E2; simpl (_ && _).
  - destruct (cont (code b)) eqn:Eb; [intros; by exists 1|].
    destruct l as [|c l]; [done|]. cbn [map].
    replace (utf8_second3 (code a) (code b)) with false; last first.
    { symmetry. apply not_true_is_false. unfold utf8_second3. intros H. lia. }
    destruct l as [|d l]; [done|]. cbn [map].
    replace (utf8_second4 (code a) (code b)) with false; [done|].
    symmetry. apply not_true_is_false. unfold utf8_second4. intros H. lia.
  - destruct l as [|c l]; [done|]. cbn [map]. simpl (_ !! 1). simpl (default _ _).
    destruct (utf8_second3 (code a) (code b)) eqn:E3.
    + replace ((224 <=? code a) && (code a <=? 239))%Z with true
        by (unfold utf8_second3 in E3; lia).
      destruct (cont (code c)) eqn:Ec; [intros; by exists 2|]. simpl.
      destruct l as [|d l]; [done|]. cbn [map].
      replace (utf8_second4 (code a) (code b)) with false; [done|].
      symmetry. apply not_true_is_false. unfold utf8_second4, utf8_second3 in *. intros H. lia.
    + simpl. destruct l as [|d l]; [done|]. cbn [map]. simpl (_ !! 2). simpl (default _ _).
      destruct (utf8_second4 (code a) (code b)) eqn:E4; [|done].
      replace ((224 <=? code a) && (code a <=? 239))%Z with false; last first.
      { symmetry. apply not_true_is_false. unfold utf8_second4 in E4. intros H. lia. }
      replace ((240 <=? code a) && (code a <=? 244))%Z with true
        by (unfold utf8_second4 in E4; lia).
      destruct (cont (code c)); [|done]. destruct (cont (code d)); [|done].
      simpl. intros. by exists 3.
Qed.

Lemma lossy_valid l : utf8_valid (map code l) = true → lossy_l 0 l = l.
Proof.
  remember (length l) as n eqn:En. revert l En.
  induction (lt_wf n) as [n _ IH]. intros [|a l] En Hv; [done|].
  destruct (utf8_piece_valid a l Hv) as (k & Hp & Hk). cbn [lossy_l]. rewrite Hp.
  cbn [pred take]. rewrite lossy_skip, (IH (length (drop k l))); [|simpl in En; rewrite length_drop; lia|done..].
  simpl. by rewrite take_drop.
Qed.

(** [String::from_utf8_lossy] of valid UTF-8. *)
Lemma from_utf8_lossy_valid s : is_utf8 s = true → from_utf8_lossy s = s.
Proof. intros H. unfold from_utf8_lossy. by rewrite lossy_valid, of_chars_chars. Qed.
