(* ===== verification/OtaEnv.v ===== *)
(** * Where the updater keeps its files (cli/src/update.rs)

    [OtaPaths::from_env]: the directory of the updater's state and of its
    staged binary, from the environment. *)

From stdpp Require Import base strings list.
From Stdlib Require Import Ascii.
From S2P Require Import Prelude RStr StdPath.

Local Open Scope string_scope.
Local Open Scope list_scope.

Definition OTA_DIR_ENV : string := "RSRPC_OTA_DIR".

(** [.filter(|path| path.is_absolute())]. *)
Definition absolute (p : option string) : option string :=
  match p with Some p => if is_absolute p then Some p else None | None => None end.

(** The base of the default directory. *)
Definition cache_base (var_os : string → option string) (temp_dir : string) : string :=
  default temp_dir
    (or_else (absolute (var_os "XDG_CACHE_HOME")) ((λ home, join home ".cache") <$> var_os "HOME")).

(** [OtaPaths::from_env]; [var_os] is the environment. *)
Definition OtaPaths_from_env (var_os : string → option string) (temp_dir : string) : string :=
  match absolute (var_os OTA_DIR_ENV) with
  | Some dir => dir
  | None => join (join (cache_base var_os temp_dir) "rsrpc") "ota"
  end.

Lemma is_absolute_app p q : is_absolute p = true → is_absolute (p +:+ q) = true.
Proof.
  destruct p as [|c p]; [done|]. unfold is_absolute, starts_with, strip_prefix.
  change (chars (String c p +:+ q)) with (c :: chars (p +:+ q)). change (chars (String c p)) with (c :: chars p).
  change (chars "/") with ["/"%char]. cbn [strip_prefix_l]. by case_match.
Qed.

Lemma join_absolute p q : is_absolute p = true → is_absolute (join p q) = true.
Proof.
  intros Hp. unfold join. destruct (is_absolute q) eqn:Hq; [done|].
  destruct (String.eqb p "" || ends_with "/" p); by apply is_absolute_app.
Qed.

(** The updater works in an absolute directory whenever the home and the
    temporary directory are: an absolute [RSRPC_OTA_DIR] is taken as it is, a
    relative one, or a relative cache directory, is passed over. *)
Theorem ota_dir_is_absolute (var_os : string → option string) (temp_dir : string) :
  is_absolute temp_dir = true → (∀ home, var_os "HOME" = Some home → is_absolute home = true) →
  is_absolute (OtaPaths_from_env var_os temp_dir) = true ∧
  (∀ dir, var_os OTA_DIR_ENV = Some dir → is_absolute dir = true →
     OtaPaths_from_env var_os temp_dir = dir).
Proof.
  intros Ht Hh. unfold OtaPaths_from_env, cache_base, absolute. split.
  - destruct (var_os OTA_DIR_ENV) as [d|]; [destruct (is_absolute d) eqn:Ed; [done|]|];
      do 2 apply join_absolute;
      (destruct (var_os "XDG_CACHE_HOME") as [x|]; [destruct (is_absolute x) eqn:Ex; [done|]|]); cbn;
      (destruct (var_os "HOME") as [h|] eqn:Eh; [exact (join_absolute h ".cache" (Hh h eq_refl))|done]).
  - intros dir -> ->. done.
Qed.

(** A relative override is ignored, and an empty home gives a relative
    directory. *)
Lemma ota_dir_examples :
  OtaPaths_from_env (λ k, if String.eqb k OTA_DIR_ENV then Some "ota" else None) "/tmp" = "/tmp/rsrpc/ota" ∧
  OtaPaths_from_env (λ k, if String.eqb k "HOME" then Some "" else None) "/tmp" = ".cache/rsrpc/ota".
Proof. split; vm_compute; reflexivity. Qed.

Lemma ota_dir_is_absolute_witness :
  let env k := if String.eqb k "HOME" then Some "/home/u" else None in
  is_absolute (OtaPaths_from_env env "/tmp") = true ∧ OtaPaths_from_env env "/tmp" = "/home/u/.cache/rsrpc/ota".
Proof.
  intros env. split; [|vm_compute; reflexivity]. apply (ota_dir_is_absolute env "/tmp").
  - reflexivity.
  - intros home [= <-]. reflexivity.
Defined.
