(* ===== verification/SteamFs.v ===== *)
(** * Steam libraries on disk (crates/rsrpc-steam/src/lib.rs)

    Discovery of Steam roots, the scan of a library's manifests, the change
    markers that spare rescans, the refresh of every scan tick and the
    on-disk cache.  The program only reads Steam's files: a [Disk] is what
    its system calls answer while one call of the program runs, and two
    calls may see different disks.  Where the code reads one thing before
    the other and a change in between matters ([scan_library]), the
    definition takes a disk for each.  The Linux build is modelled. *)

From stdpp Require Import base gmap strings list list_numbers sets fin_maps sorting.
From Stdlib Require Import Ascii.
From S2P Require Import Prelude RStr Text HashMaps Json Vdf Steam StdPath.

Local Open Scope string_scope.
Local Open Scope nat_scope.
Local Open Scope list_scope.

#[global] Instance Component_countable : Countable Component.
Proof.
  refine (inj_countable'
    (λ c, match c with RootDir => inl 0 | CurDir => inl 1 | ParentDir => inl 2 | Normal n => inr n end)
    (λ x, match x with inl 0 => RootDir | inl 1 => CurDir | inl _ => ParentDir | inr n => Normal n end) _).
  by intros [].
Defined.

(** ** What the system answers *)

Record Disk := {
  (** [metadata(p).modified()], in nanoseconds from the epoch. *)
  d_modified : string → option Z;
  (** [metadata(p).len()]. *)
  d_len : string → option Z;
  d_read : string → option string;
  d_is_dir : string → bool;
  d_is_file : string → bool;
  (** The names of the readable entries, in the order of the directory. *)
  d_read_dir : string → option (list string);
  d_canonicalize : string → option string;
  d_read_link : string → option string
}.

(** [std::env::var_os]. *)
Definition Env := string → option string.

(** [std::env::var]: only text. *)
Definition env_var (env : Env) (k : string) : option string :=
  match env k with Some v => if is_utf8 v then Some v else None | None => None end.

Definition MAX_FOLDERS_BYTES : Z := 4 * 1024 * 1024.
Definition MAX_MANIFEST_BYTES : Z := 1024 * 1024.
Definition MAX_SCAN_ENTRIES : nat := 4096.
Definition STEAM_CACHE_VERSION : Z := 2.

(** [read_limited]. *)
Definition read_limited (d : Disk) (path : string) (limit : Z) : option string :=
  match d_len d path with
  | None => None
  | Some len =>
      if (limit <? len)%Z then None
      else match d_read d path with
           | None => None
           | Some bytes =>
               if (limit <? str_len bytes)%Z then None
               else if is_utf8 bytes then Some bytes else None
           end
  end.

(** ** Change markers *)

Record Fingerprint := {
  dir_mtime_ms : Z;
  manifests : Z;
  newest_manifest_ms : Z;
  compat_mtime_ms : Z
}.

#[global] Instance Fingerprint_eq_dec : EqDecision Fingerprint.
Proof. solve_decision. Defined.

(** [file_mtime_ms]. *)
Definition file_mtime_ms (d : Disk) (path : string) : option Z :=
  match d_modified d path with
  | None => None
  | Some t => if (t <? 0)%Z then None else checked_u64 (t / 1000000)
  end.

Definition is_manifest_name (name : string) : bool :=
  starts_with "appmanifest_" name && ends_with ".acf" name.

(** One directory entry of [dir_fingerprint]. *)
Definition fingerprint_entry (d : Disk) (apps_dir : string) (f : Fingerprint) (raw : string)
    : Fingerprint :=
  let name := from_utf8_lossy raw in
  let mtime := file_mtime_ms d (join apps_dir raw) in
  if is_manifest_name name then
    {| dir_mtime_ms := dir_mtime_ms f;
       manifests := manifests f + 1;
       newest_manifest_ms := match mtime with
                             | Some m => Z.max (newest_manifest_ms f) m
                             | None => newest_manifest_ms f
                             end;
       compat_mtime_ms := compat_mtime_ms f |}
  else if String.eqb name "compatdata" then
    {| dir_mtime_ms := dir_mtime_ms f;
       manifests := manifests f;
       newest_manifest_ms := newest_manifest_ms f;
       compat_mtime_ms := match mtime with
                          | Some m => Z.max (compat_mtime_ms f) m
                          | None => compat_mtime_ms f
                          end |}
  else f.

(** [dir_fingerprint]. *)
Definition dir_fingerprint (d : Disk) (apps_dir : string) : option Fingerprint :=
  match file_mtime_ms d apps_dir with
  | None => None
  | Some mtime =>
      Some (foldl (fingerprint_entry d apps_dir)
        {| dir_mtime_ms := mtime; manifests := 0; newest_manifest_ms := 0; compat_mtime_ms := 0 |}
        (default [] (d_read_dir d apps_dir)))
  end.

(** The marker of a library. *)
Definition lib_fingerprint (d : Disk) (lib : string) : option Fingerprint :=
  dir_fingerprint d (join lib "steamapps").

(** ** Scanning a library *)

(** [HashMap::entry(k).or_insert(v)]. *)
Definition or_insert (k v : string) (m : gmap string string) : gmap string string :=
  match m !! k with Some _ => m | None => <[k := v]> m end.

Section Scan.
Context `{CaseTables}.

(** One directory entry of [scan_library_into]. *)
Definition scan_entry (d : Disk) (library : string) (dirs : gmap string string) (raw : string)
    : gmap string string :=
  let apps_dir := join library "steamapps" in
  let name := from_utf8_lossy raw in
  let path := join apps_dir raw in
  if forallb is_digit (chars name) && d_is_dir d (join path "pfx") then
    or_insert (compat_prefix (from_utf8_lossy library) name) name dirs
  else if negb (is_manifest_name name) then dirs
  else match read_limited d path MAX_MANIFEST_BYTES with
       | None => dirs
       | Some body =>
           match manifest_ids (parse_vdf_str body) with
           | None => dirs
           | Some (appid, installdir) =>
               or_insert (common_prefix (from_utf8_lossy library) installdir) appid dirs
           end
       end.

(** [scan_library_into]. *)
Definition scan_library_into (d : Disk) (library : string) (dirs : gmap string string)
    : gmap string string :=
  match d_read_dir d (join library "steamapps") with
  | None => dirs
  | Some entries => foldl (scan_entry d library) dirs (take MAX_SCAN_ENTRIES entries)
  end.

(** ** Roots *)

(** [root_libraries]. *)
Definition root_libraries (d : Disk) (root : string) : list string * option string :=
  let steamapps := join root "steamapps" in
  if negb (d_is_dir d steamapps) then ([], None)
  else
    let folders_file := join steamapps "libraryfolders.vdf" in
    let listed := match read_limited d folders_file MAX_FOLDERS_BYTES with
                  | Some body => library_paths (parse_vdf_str body)
                  | None => []
                  end in
    (path_dedup (path_sort (root :: listed)), Some folders_file).

(** [custom_root]. *)
Definition custom_root (env : Env) (d : Disk) : option string :=
  match env_var env "RSRPC_STEAM_ROOT" with
  | Some custom => if d_is_dir d custom then Some custom else None
  | None => None
  end.

(** [push_valid_root]. *)
Definition push_valid_root (d : Disk) (roots : list string) (root : string) : list string :=
  let canonical := default root (d_canonicalize d root) in
  if d_is_dir d (join canonical "steamapps") then push_new canonical roots else roots.

(** [walk_up_for_steamapps], [n] levels left. *)
Fixpoint walk_up (d : Disk) (n : nat) (dir : string) : option string :=
  match n with
  | 0 => None
  | S n =>
      if d_is_dir d (join dir "steamapps") then Some dir
      else match parent dir with
           | Some up => walk_up d n up
           | None => None
           end
  end.

Definition walk_up_for_steamapps (d : Disk) (start : string) : option string := walk_up d 6 start.

(** The root above the directory of an executable, once. *)
Definition push_root_above (d : Disk) (exe : string) (roots : list string) : list string :=
  match parent exe with
  | Some dir =>
      match walk_up_for_steamapps d dir with
      | Some root => push_new root roots
      | None => roots
      end
  | None => roots
  end.

(** One entry of [running_steam_roots]. *)
Definition running_entry (d : Disk) (roots : list string) (raw : string) : list string :=
  if negb (forallb is_digit (chars (from_utf8_lossy raw))) then roots
  else match d_read_link d (join (join "/proc" raw) "exe") with
       | None => roots
       | Some exe =>
           match file_name exe with
           | Some name =>
               if bool_decide (name ∈ ["steam"; "steamcmd"]) then push_root_above d exe roots
               else roots
           | None => roots
           end
       end.

(** [running_steam_roots]. *)
Definition running_steam_roots (d : Disk) : list string :=
  foldl (running_entry d) [] (default [] (d_read_dir d "/proc")).

(** [path_steam_roots]. *)
Definition path_steam_roots (env : Env) (d : Disk) : list string :=
  let paths := match env "PATH" with Some p => split ":"%char p | None => [] end in
  foldl (λ roots candidate,
      if d_is_file d candidate
      then push_root_above d (default candidate (d_canonicalize d candidate)) roots
      else roots)
    [] (dir ← paths; binary ← ["steam"; "steamcmd"]; [join dir binary]).

(** *** Mounted partitions *)

Definition is_octal (c : ascii) : bool := ((48 <=? code c) && (code c <=? 55))%Z.

(** Three octal digits below 256 ([u8::from_str_radix]). *)
Definition octal_byte (run : list ascii) : option ascii :=
  match run with
  | [a; b; c] =>
      let v := (64 * digit_val a + 8 * digit_val b + digit_val c)%Z in
      if (v <=? 255)%Z then Some (chr v) else None
  | _ => None
  end.

(** The loop of [unescape_mount]; [skip] bytes were consumed by an escape. *)
Fixpoint unescape_l (skip : nat) (l : list ascii) : list ascii :=
  match l with
  | [] => []
  | c :: l' =>
      match skip with
      | S skip => unescape_l skip l'
      | 0 =>
          if Ascii.eqb c ESCAPE then
            let run := take 3 (take_while is_octal l') in
            match octal_byte run with
            | Some byte => byte :: unescape_l 3 l'
            | None => ESCAPE :: run ++ unescape_l (length run) l'
            end
          else c :: unescape_l 0 l'
      end
  end.

(** [unescape_mount]. *)
Definition unescape_mount (field : string) : string :=
  from_utf8_lossy (of_chars (unescape_l 0 (chars field))).

Definition SKIP_TYPES : list string :=
  ["proc"; "sysfs"; "cgroup"; "cgroup2"; "tmpfs"; "devtmpfs"; "devpts"; "overlay"; "squashfs";
   "nsfs"; "tracefs"; "debugfs"; "securityfs"; "configfs"; "fusectl"; "selinuxfs"; "overlayfs";
   "fuse.portal"].
Definition LAYOUTS : list string := [""; "SteamLibrary"; "Steam"; "steam"; "Games/SteamLibrary"].

(** The library layouts of one mount point. *)
Definition probe_layout (d : Disk) (mount : string) (roots : list string) (layout : string)
    : list string :=
  let candidate := if String.eqb layout "" then mount else join mount layout in
  if d_is_dir d (join candidate "steamapps") then push_new candidate roots else roots.

(** One line of [mount_library_roots_for]. *)
Definition mount_line (d : Disk) (roots : list string) (line : list ascii) : list string :=
  match map of_chars (words white_space line) with
  | _ :: mount :: fstype :: _ =>
      if bool_decide (fstype ∈ SKIP_TYPES) then roots
      else if starts_with "/proc/" mount || starts_with "/sys/" mount || starts_with "/dev/" mount
      then roots
      else foldl (probe_layout d (unescape_mount mount)) roots LAYOUTS
  | _ => roots
  end.

(** [mount_library_roots_for]. *)
Definition mount_library_roots_for (d : Disk) (mounts : string) : list string :=
  foldl (mount_line d) [] (lines mounts).

(** [mount_library_roots]. *)
Definition mount_library_roots (d : Disk) : list string :=
  match read_limited d "/proc/mounts" MAX_FOLDERS_BYTES with
  | Some mounts => mount_library_roots_for d mounts
  | None => []
  end.

(** [fallback_steam_roots]. *)
Definition fallback_steam_roots (env : Env) (d : Disk) : list string :=
  match env_var env "HOME" with
  | None => []
  | Some home =>
      foldl (λ roots path,
          if d_is_dir d (join path "steamapps") then push_new path roots else roots)
        [] [home +:+ "/.steam/steam"; home +:+ "/.local/share/Steam"; home +:+ "/.steam/root";
            home +:+ "/.var/app/com.valvesoftware.Steam/data/Steam"]
  end.

(** The candidates of [collect_roots], most reliable first. *)
Definition root_candidates (env : Env) (d : Disk) : list string :=
  match env_var env "RSRPC_STEAM_LIBRARIES" with
  | Some extra => base.filter (λ p, p ≠ "") (map trim (split ":"%char extra))
  | None => []
  end ++ running_steam_roots d ++ path_steam_roots env d ++ mount_library_roots d ++
  fallback_steam_roots env d.

(** [collect_roots]. *)
Definition collect_roots (env : Env) (d : Disk) : list string :=
  match custom_root env d with
  | Some custom => [custom]
  | None =>
      match foldl (push_valid_root d) [] (root_candidates env d) with
      | [] => foldl (push_valid_root d) [] (fallback_steam_roots env d)
      | roots => roots
      end
  end.

(** ** The library map

    [cache_override] only names the file of [save_cache], which takes it as
    an argument. *)

Record SteamLibraries := {
  watched : list string;
  mtimes : gmap (list Component) Z;
  dirs : gmap string string;
  fingerprints : gmap string Fingerprint;
  roots : list string;
  exclusive : bool;
  ticks : Z
}.

Definition SteamLibraries_default : SteamLibraries := {|
  watched := []; mtimes := ∅; dirs := ∅; fingerprints := ∅; roots := [];
  exclusive := false; ticks := 0
|}.

Definition set_watch (w : list string) (m : gmap (list Component) Z) (s : SteamLibraries) :=
  {| watched := w; mtimes := m; dirs := dirs s; fingerprints := fingerprints s;
     roots := roots s; exclusive := exclusive s; ticks := ticks s |}.

Definition set_maps (ds : gmap string string) (fps : gmap string Fingerprint) (s : SteamLibraries) :=
  {| watched := watched s; mtimes := mtimes s; dirs := ds; fingerprints := fps;
     roots := roots s; exclusive := exclusive s; ticks := ticks s |}.

Definition set_roots (rs : list string) (s : SteamLibraries) :=
  {| watched := watched s; mtimes := mtimes s; dirs := dirs s; fingerprints := fingerprints s;
     roots := rs; exclusive := exclusive s; ticks := ticks s |}.

Definition set_ticks (t : Z) (s : SteamLibraries) :=
  {| watched := watched s; mtimes := mtimes s; dirs := dirs s; fingerprints := fingerprints s;
     roots := roots s; exclusive := exclusive s; ticks := t |}.

(** A folders file joins the watch list with the time it has now. *)
Definition watch_file (d : Disk) (file : option string) (s : SteamLibraries) : SteamLibraries :=
  match file with
  | None => s
  | Some file =>
      set_watch (push_new file (watched s))
        (match d_modified d file with
         | Some t => <[components file := t]> (mtimes s)
         | None => mtimes s
         end) s
  end.

(** [scan_library]: the manifests are read first, then the marker. *)
Definition scan_library (d d' : Disk) (library : string) (s : SteamLibraries) : SteamLibraries :=
  set_maps (scan_library_into d library (dirs s))
    (match lib_fingerprint d' library with
     | Some f => <[from_utf8_lossy library := f]> (fingerprints s)
     | None => fingerprints s
     end) s.

(** [SteamLibraries::from_root]. *)
Definition from_root (d : Disk) (root : string) : SteamLibraries :=
  let s := {| watched := []; mtimes := ∅; dirs := ∅; fingerprints := ∅; roots := [root];
              exclusive := true; ticks := 0 |} in
  let '(libs, folders_file) := root_libraries d root in
  foldl (λ s lib, scan_library d d lib s) (watch_file d folders_file s) libs.

(** ** Refresh *)

Context `{HashOrder}.

Definition folders_changed (d : Disk) (s : SteamLibraries) : bool :=
  existsb (λ file, negb (bool_decide (d_modified d file = mtimes s !! components file))) (watched s).

(** One root of a re-resolution. *)
Definition resolve_root (d : Disk) (acc : SteamLibraries * list string) (root : string)
    : SteamLibraries * list string :=
  let '(root_libs, folders_file) := root_libraries d root in
  (watch_file d folders_file acc.1, acc.2 ++ root_libs).

(** Watch markers of layouts that are gone leave. *)
Definition prune_watched (d : Disk) (s : SteamLibraries) : SteamLibraries :=
  let live := map (λ apps, join apps "libraryfolders.vdf")
                (base.filter (λ apps, d_is_dir d apps = true)
                   (map (λ root, join root "steamapps") (roots s))) in
  set_watch (base.filter (λ file, path_mem file live = true) (watched s))
    (base.filter (λ kv, kv.1 ∈ map components live) (mtimes s)) s.

Definition resolve_libs (env : Env) (d : Disk) (s : SteamLibraries) : SteamLibraries * list string :=
  let rs := if exclusive s then roots s else collect_roots env d in
  let '(s, libs) := foldl (resolve_root d) (s, []) rs in
  let s := if exclusive s then s else set_roots rs s in
  (prune_watched d s, path_dedup (path_sort libs)).

(** Nothing moved: every library has the marker it was scanned with. *)
Definition all_current (d : Disk) (s : SteamLibraries) (libs : list string) : bool :=
  bool_decide (length libs = size (fingerprints s)) &&
  forallb (λ lib,
    match lib_fingerprint d lib, fingerprints s !! from_utf8_lossy lib with
    | Some live, Some known => bool_decide (live = known)
    | _, _ => false
    end) libs.

Record Fresh := {
  fr_changed : bool;
  fr_dirs : gmap string string;
  fr_fingerprints : gmap string Fingerprint
}.

(** The prefixes a library has in the map. *)
Definition copy_owned (library : string) (from to : gmap string string) : gmap string string :=
  let owned := library_prefix (from_utf8_lossy library) in
  foldl (λ m kv, if starts_with owned kv.1 then <[kv.1 := kv.2]> m else m) to (hm_iter from).

(** One library of the rebuild: dropped, kept or scanned again. *)
Definition refresh_lib (d : Disk) (s : SteamLibraries) (fr : Fresh) (lib : string) : Fresh :=
  let key := from_utf8_lossy lib in
  match lib_fingerprint d lib with
  | None => {| fr_changed := true; fr_dirs := fr_dirs fr; fr_fingerprints := fr_fingerprints fr |}
  | Some live =>
      if bool_decide (fingerprints s !! key = Some live) then
        {| fr_changed := fr_changed fr;
           fr_dirs := copy_owned lib (dirs s) (fr_dirs fr);
           fr_fingerprints := <[key := live]> (fr_fingerprints fr) |}
      else
        {| fr_changed := true;
           fr_dirs := scan_library_into d lib (fr_dirs fr);
           fr_fingerprints := <[key := live]> (fr_fingerprints fr) |}
  end.

(** [refresh_if_stale]; also whether the cache is saved. *)
Definition refresh_if_stale (env : Env) (d : Disk) (s : SteamLibraries) : SteamLibraries * bool :=
  let s := set_ticks (sat_u64_add (ticks s) 1) s in
  let '(s, libs) := if folders_changed d s || (ticks s mod 120 =? 0)%Z then resolve_libs env d s
                    else (s, (hm_iter (fingerprints s)).*1) in
  if all_current d s libs then (s, false)
  else
    let fr := foldl (refresh_lib d s)
                {| fr_changed := false; fr_dirs := ∅; fr_fingerprints := ∅ |} libs in
    if fr_changed fr || negb (bool_decide (size (fr_dirs fr) = size (dirs s)))
    then (set_maps (fr_dirs fr) (fr_fingerprints fr) s, true)
    else (set_maps (dirs s) (fr_fingerprints fr) s, false).
End Scan.
