(* ===== verification/SteamCache.v ===== *)
(** * The on-disk cache of Steam libraries (crates/rsrpc-steam/src/lib.rs)

    Markers and prefix maps per library, as a JSON document; discovery
    reuses what still has its marker.  A JSON object of [serde_json] is a
    sorted map, so the document is written with its keys in order.  The file
    itself is replaced through a temporary in the same directory. *)

From stdpp Require Import base gmap strings list list_numbers sets fin_maps sorting.
From Stdlib Require Import Ascii.
From S2P Require Import Prelude RStr Text HashMaps Json Vdf Steam StdPath SteamFs Io Update.

Local Open Scope string_scope.
Local Open Scope nat_scope.
Local Open Scope list_scope.
Local Open Scope prog_scope.

Record CachedLibrary := { cl_fingerprint : Fingerprint; cl_dirs : gmap string string }.

Definition CACHE_FILE : string := "rsrpc/steam-libraries.json".

(** [cache_path]. *)
Definition cache_path (env : Env) : option string :=
  match env "XDG_CACHE_HOME" with
  | Some base => Some (join base CACHE_FILE)
  | None =>
      match env "HOME" with
      | Some home => Some (join (join home ".cache") CACHE_FILE)
      | None => None
      end
  end.

(** A [serde_json::Map]. *)
Definition json_map (m : gmap string Value) : Value :=
  VObject (merge_sort (λ a b, String.le a.1 b.1) (map_to_list m)).

(** [fingerprint_to_json]. *)
Definition fingerprint_to_json (f : Fingerprint) : Value :=
  VObject [("compat_mtime_ms", vnum (compat_mtime_ms f)); ("dir_mtime_ms", vnum (dir_mtime_ms f));
           ("manifests", vnum (manifests f)); ("newest_manifest_ms", vnum (newest_manifest_ms f))].

(** [fingerprint_from_json]. *)
Definition fingerprint_from_json (v : Value) : option Fingerprint :=
  dir ← value_get "dir_mtime_ms" v ≫= as_u64;
  count ← value_get "manifests" v ≫= as_u64;
  newest ← value_get "newest_manifest_ms" v ≫= as_u64;
  Some {| dir_mtime_ms := dir; manifests := count; newest_manifest_ms := newest;
          compat_mtime_ms := default 0%Z (value_get "compat_mtime_ms" v ≫= as_u64) |}.

Section Cache.
Context `{CaseTables} `{Serde}.

(** The prefixes of a cached library that may be trusted. *)
Definition cached_dir (lib_path : string) (kv : string * Value) : option (string * string) :=
  match as_str kv.2 with
  | Some appid =>
      if str_empty appid || negb (library_owns_prefix (from_utf8_lossy lib_path) kv.1) then None
      else Some (kv.1, appid)
  | None => None
  end.

(** One library of the document. *)
Definition load_library (cached : gmap string CachedLibrary) (kv : string * Value)
    : gmap string CachedLibrary :=
  match value_get "fingerprint" kv.2 ≫= fingerprint_from_json,
        value_get "dirs" kv.2 ≫= as_object with
  | Some f, Some ds =>
      <[kv.1 := {| cl_fingerprint := f;
                   cl_dirs := foldl (λ m pa, <[pa.1 := pa.2]> m) ∅ (omap (cached_dir kv.1) ds) |}]> cached
  | _, _ => cached
  end.

(** The document of [load_cache_from]. *)
Definition load_doc (doc : Value) : gmap string CachedLibrary :=
  if negb (bool_decide (value_get "version" doc ≫= as_u64 = Some STEAM_CACHE_VERSION)) then ∅
  else match value_get "libraries" doc ≫= as_object with
       | Some libs => foldl load_library ∅ libs
       | None => ∅
       end.

(** [load_cache_from]. *)
Definition load_cache_from (d : Disk) (path : string) : gmap string CachedLibrary :=
  match read_limited d path MAX_FOLDERS_BYTES ≫= json_from_str with
  | Some doc => load_doc doc
  | None => ∅
  end.

(** [load_cache]. *)
Definition load_cache (env : Env) (d : Disk) : gmap string CachedLibrary :=
  match cache_path env with Some path => load_cache_from d path | None => ∅ end.

Context `{HashOrder}.

(** The prefixes by owning library, the first owner of the walk. *)
Definition by_library (s : SteamLibraries) : gmap string (gmap string string) :=
  let groups := foldl (λ m lib, <[lib := ∅]> m) ∅ (hm_iter (fingerprints s)).*1 in
  let lib_paths := (hm_iter groups).*1 in
  foldl (λ (m : gmap string (gmap string string)) kv,
      match find_first (λ lib, library_owns_prefix (from_utf8_lossy lib) kv.1) lib_paths with
      | Some lib => alter (λ entry, <[kv.1 := kv.2]> entry) lib m
      | None => m
      end) groups (hm_iter (dirs s)).

(** One library of the document. *)
Definition library_doc (ds : gmap string string) (f : Fingerprint) : Value :=
  VObject [("dirs", json_map (VString <$> ds)); ("fingerprint", fingerprint_to_json f)].

(** The document of [save_cache]. *)
Definition cache_doc (s : SteamLibraries) : Value :=
  let groups := by_library s in
  let libs := map_imap (λ lib f, Some (library_doc (default ∅ (groups !! lib)) f)) (fingerprints s) in
  VObject [("libraries", json_map libs); ("version", vnum STEAM_CACHE_VERSION)].

(** The write of [save_cache]: a temporary, then a rename over the cache. *)
Definition replace_cache (path : Path) (body : string) : prog unit :=
  let tmp := with_extension "json.tmp" path in
  made <- match Update.parent path with Some up => act (CreateDirAll up) | None => Ret true end;
  if negb made then Ret ()
  else
    ok <- act (WriteFile tmp body);
    if ok : bool then act (Rename tmp path) ;; Ret () else Ret ().

(** [save_cache], to the override or the platform's place. *)
Definition save_cache (path : option Path) (s : SteamLibraries) : prog unit :=
  match path with
  | None => Ret ()
  | Some path =>
      match json_to_string (cache_doc s) with
      | Some body => replace_cache path body
      | None => Ret ()
      end
  end.

(** ** Discovery *)

(** One library: from the cache while its marker is the cached one. *)
Definition discover_lib (d : Disk) (cached : gmap string CachedLibrary) (s : SteamLibraries)
    (lib : string) : SteamLibraries :=
  let key := from_utf8_lossy lib in
  let live := lib_fingerprint d lib in
  let cached_dirs := match live, cached !! key with
                     | Some live, Some entry =>
                         if bool_decide (cl_fingerprint entry = live) then Some (cl_dirs entry) else None
                     | _, _ => None
                     end in
  match fingerprints s !! key with
  | Some _ => s
  | None =>
      match cached_dirs with
      | Some ds =>
          set_maps (foldl (λ m kv, or_insert kv.1 kv.2 m) (dirs s) (hm_iter ds))
            (match live with Some f => <[key := f]> (fingerprints s) | None => fingerprints s end) s
      | None => scan_library d d lib s
      end
  end.

Definition discover_root (d : Disk) (cached : gmap string CachedLibrary) (s : SteamLibraries)
    (root : string) : SteamLibraries :=
  let '(libs, folders_file) := root_libraries d root in
  foldl (discover_lib d cached) (watch_file d folders_file s) libs.

Definition discover_with (cached : gmap string CachedLibrary) (env : Env) (d : Disk)
    : SteamLibraries :=
  let rs := collect_roots env d in
  let s := {| watched := []; mtimes := ∅; dirs := ∅; fingerprints := ∅; roots := rs;
              exclusive := is_some (custom_root env d); ticks := 0 |} in
  foldl (discover_root d cached) s rs.

(** [SteamLibraries::discover], up to the save of the result. *)
Definition discover (env : Env) (d : Disk) : SteamLibraries :=
  discover_with (load_cache env d) env d.
End Cache.
