(* ===== verification/SteamFsProps.v ===== *)
(** * Theorems on Steam discovery and refresh

    Decoding of mount points, validity of the collected roots, ownership of
    prefixes, and the refresh of every tick against its specification: the
    map it leaves is the one a scan of the current disk would build. *)

From stdpp Require Import base gmap strings list list_numbers sets fin_maps sorting.
From Stdlib Require Import Ascii.
From S2P Require Import Prelude RStr Text HashMaps Json Vdf Steam StdPath SteamFs.

Local Open Scope string_scope.
Local Open Scope nat_scope.
Local Open Scope list_scope.

(** ** Mount points *)

Section Mounts.
Context (escaped : ascii → bool).

(** The three octal digits of a byte, and the escaping the kernel does when
    it prints a mount point: every byte of a set that has the backslash. *)
Definition octal_digits (c : ascii) : list ascii :=
  [digit (code c / 64); digit (code c / 8 mod 8); digit (code c mod 8)].

Definition mangle_l (l : list ascii) : list ascii :=
  l ≫= λ c, if escaped c then ESCAPE :: octal_digits c else [c].

Definition mangle (s : string) : string := of_chars (mangle_l (chars s)).

Lemma octal_run c l :
  take 3 (take_while is_octal (octal_digits c ++ l)) = octal_digits c ∧
  octal_byte (octal_digits c) = Some c.
Proof. by destruct c as [[] [] [] [] [] [] [] []]. Qed.

Lemma unescape_mangle l : escaped ESCAPE = true → unescape_l 0 (mangle_l l) = l.
Proof.
  intros Hesc. induction l as [|c l IH]; [done|]. unfold mangle_l in *. rewrite bind_cons.
  destruct (escaped c) eqn:Ec.
  - destruct (octal_run c (l ≫= λ c, if escaped c then ESCAPE :: octal_digits c else [c]))
      as [Hrun Hbyte].
    rewrite <-app_comm_cons. cbn [unescape_l]. rewrite Ascii.eqb_refl, Hrun, Hbyte.
    f_equal. exact IH.
  - cbn [app unescape_l]. destruct (Ascii.eqb_spec c ESCAPE) as [->|]; [congruence|].
    f_equal. exact IH.
Qed.
End Mounts.

(** A mount point printed by the kernel reads back: whatever bytes the
    kernel escapes, as long as the backslash is one of them, decoding the
    printed form of a text gives the text, spaces, newlines, backslashes in
    front of digits and bytes of multi-byte characters included. *)
Theorem unescape_mount_roundtrip (escaped : ascii → bool) (s : string) :
  escaped ESCAPE = true → is_utf8 s = true →
  unescape_mount (mangle escaped s) = s.
Proof.
  intros He Hs. unfold unescape_mount, mangle.
  rewrite chars_of_chars, unescape_mangle, of_chars_chars by done. by apply from_utf8_lossy_valid.
Qed.

(** The bytes [/proc/mounts] escapes. *)
Definition kernel_escapes (c : ascii) : bool :=
  bool_decide (code c ∈ [32; 9; 10; 92; 35]%Z).

Lemma unescape_mount_roundtrip_witness :
  unescape_mount (mangle kernel_escapes "/mnt/My Games\040") = "/mnt/My Games\040" ∧
  mangle kernel_escapes "/mnt/My Games\040" = "/mnt/My\040Games\134040".
Proof.
  split; [|vm_compute; reflexivity].
  apply (unescape_mount_roundtrip kernel_escapes); vm_compute; reflexivity.
Defined.

(** ** Roots *)

Lemma push_valid_root_spec d (rs : list string) root :
  NoDup (map components rs) →
  (∀ r, r ∈ rs → d_is_dir d (join r "steamapps") = true) →
  NoDup (map components (push_valid_root d rs root)) ∧
  (∀ r, r ∈ push_valid_root d rs root → d_is_dir d (join r "steamapps") = true).
Proof.
  intros Hnd Hdir. unfold push_valid_root.
  set (c := default root (d_canonicalize d root)).
  destruct (d_is_dir d (join c "steamapps")) eqn:E; [|done].
  split; [by apply push_new_NoDup|]. intros r [->|Hr]%push_new_elem; auto.
Qed.

Lemma push_valid_root_mono d (rs : list string) root : rs ⊆ push_valid_root d rs root.
Proof.
  unfold push_valid_root, push_new. case_match; [|done]. case_match; [done|].
  apply list_subseteq_app_l. done.
Qed.

Lemma push_valid_root_adds d (rs : list string) root :
  d_is_dir d (join (default root (d_canonicalize d root)) "steamapps") = true →
  components (default root (d_canonicalize d root)) ∈ map components (push_valid_root d rs root).
Proof.
  intros E. unfold push_valid_root, push_new. rewrite E.
  destruct (path_mem _ rs) eqn:Em; [by apply path_mem_spec|].
  rewrite map_app. apply elem_of_app. right. by left.
Qed.

Lemma collect_fold d cands (rs : list string) :
  NoDup (map components rs) →
  (∀ r, r ∈ rs → d_is_dir d (join r "steamapps") = true) →
  let out := foldl (push_valid_root d) rs cands in
  NoDup (map components out) ∧
  (∀ r, r ∈ out → d_is_dir d (join r "steamapps") = true) ∧
  rs ⊆ out ∧
  ∀ c, c ∈ cands → d_is_dir d (join (default c (d_canonicalize d c)) "steamapps") = true →
    components (default c (d_canonicalize d c)) ∈ map components out.
Proof.
  revert rs. induction cands as [|c cands IH]; intros rs Hnd Hdir; simpl.
  { split_and!; [done..|set_solver]. }
  destruct (push_valid_root_spec d rs c Hnd Hdir) as [Hnd' Hdir'].
  destruct (IH _ Hnd' Hdir') as (H1 & H2 & H3 & H4). split_and!; [done..| |].
  - etrans; [apply push_valid_root_mono|exact H3].
  - intros x [->|Hx]%elem_of_cons Hv; [|by apply H4].
    apply (push_valid_root_adds d rs) in Hv. apply list_elem_of_fmap in Hv as (y & -> & Hy).
    apply list_elem_of_fmap. eauto.
Qed.

Lemma fold_valid_nil d cands (rs : list string) :
  foldl (push_valid_root d) rs cands = [] →
  ∀ c, c ∈ cands → d_is_dir d (join (default c (d_canonicalize d c)) "steamapps") = false.
Proof.
  revert rs. induction cands as [|c cands IH]; intros rs E x Hx; [set_solver|]. simpl in E.
  apply elem_of_cons in Hx as [->|Hx]; [|by eapply IH].
  apply not_true_is_false. intros Hv. apply (push_valid_root_adds d rs) in Hv.
  assert (push_valid_root d rs c = []) as E'; [|by rewrite E' in Hv; apply elem_of_nil in Hv].
  clear -E. revert E. generalize (push_valid_root d rs c). induction cands as [|y cands IH]; [done|].
  intros l E. simpl in E. apply IH in E.
  pose proof (push_valid_root_mono d l y) as Hm. rewrite E in Hm.
  destruct l as [|z l]; [done|]. exfalso. eapply not_elem_of_nil, Hm. left.
Qed.

(** Discovery yields the explicit root alone when there is one;
    otherwise every root it yields holds a [steamapps] directory, no root is
    yielded twice under different spellings, and no valid candidate of any
    source (the user's list, running clients, the search path, mounts, home
    locations) is lost: the second look at the home locations when nothing
    was found never adds anything. *)
Theorem collect_roots_complete (env : Env) (d : Disk) :
  match custom_root env d with
  | Some custom => collect_roots env d = [custom]
  | None =>
      collect_roots env d = foldl (push_valid_root d) [] (root_candidates env d) ∧
      NoDup (map components (collect_roots env d)) ∧
      (∀ r, r ∈ collect_roots env d → d_is_dir d (join r "steamapps") = true) ∧
      ∀ c, c ∈ root_candidates env d →
        d_is_dir d (join (default c (d_canonicalize d c)) "steamapps") = true →
        components (default c (d_canonicalize d c)) ∈ map components (collect_roots env d)
  end.
Proof.
  assert (custom_root env d = None →
    collect_roots env d = foldl (push_valid_root d) [] (root_candidates env d)) as E.
  { unfold collect_roots. intros ->. destruct (foldl _ [] (root_candidates env d)) eqn:E; [|done].
    assert (∀ cands, cands ⊆ root_candidates env d →
      foldl (push_valid_root d) [] cands = []) as Hn; [|apply Hn; unfold root_candidates; set_solver].
    intros cands Hsub. induction cands as [|c cands IH]; [done|]. simpl.
    unfold push_valid_root at 2. rewrite (fold_valid_nil d _ _ E) by set_solver.
    apply IH. set_solver. }
  destruct (custom_root env d) eqn:Ec; [by unfold collect_roots; rewrite Ec|].
  rewrite E by done.
  destruct (collect_fold d (root_candidates env d) []) as (H1 & H2 & _ & H4); [constructor|set_solver|].
  done.
Qed.

(** ** Ownership of prefixes *)

Lemma utf8_chars_app_start l k :
  (∀ a k', k = a :: k' → is_cont a = false) →
  utf8_chars (l ++ k) = utf8_chars l ++ utf8_chars k.
Proof.
  intros Hk. induction l as [|a l IH]; [done|]. cbn [app utf8_chars]. rewrite IH.
  destruct (utf8_chars l) as [|[|b g] gs] eqn:El; [|done|].
  - assert (l = []) as -> by (rewrite <-(concat_utf8_chars l), El; done).
    destruct (utf8_chars k) as [|[|b g] gs] eqn:Ek; [done|done|]. cbn [app].
    assert (is_cont b = false) as ->; [|done].
    eapply Hk. rewrite <-(concat_utf8_chars k), Ek. done.
  - cbn [app]. by destruct (is_cont b).
Qed.

Section Ownership.
Context `{CaseTables}.

(** The folded text of a path, before the leading slash. *)
Definition folded (l : list ascii) : list ascii :=
  utf8_chars l ≫= λ c, if decide (c = [ESCAPE]) then ["/"%char] else lower_char c.

(** A library path the prefix forms agree on: it does not end in a
    separator. *)
Definition tidy (lib : string) : bool := negb (ends_with "/" (canonical_steam_path lib)).

Lemma folded_app l k :
  (∀ a k', k = a :: k' → is_cont a = false) → folded (l ++ k) = folded l ++ folded k.
Proof. intros Hk. unfold folded. by rewrite utf8_chars_app_start, bind_app. Qed.

Lemma tidy_folded lib : tidy lib = true → folded (chars lib) ≠ [].
Proof.
  unfold tidy, canonical_steam_path. fold (folded (chars lib)).
  by destruct (folded (chars lib)).
Qed.

Lemma canonical_app lib rest :
  tidy lib = true → (∀ a k', chars rest = a :: k' → is_cont a = false) →
  chars (canonical_steam_path (lib +:+ rest)) =
  chars (canonical_steam_path lib) ++ folded (chars rest).
Proof.
  intros Ht%tidy_folded Hr. unfold canonical_steam_path.
  fold (folded (chars (lib +:+ rest))). fold (folded (chars lib)).
  rewrite chars_app, folded_app by done.
  destruct (folded (chars lib)) as [|a l]; [done|]. cbn [app].
  destruct (Ascii.eqb a "/"%char); by rewrite !chars_of_chars.
Qed.

Lemma chars_library_prefix lib :
  tidy lib = true →
  chars (library_prefix lib) = chars (canonical_steam_path lib) ++ chars "/steamapps/".
Proof.
  unfold tidy, library_prefix, with_trailing_slash. intros ->%negb_true_iff.
  rewrite !chars_app. by rewrite <-app_assoc.
Qed.

Lemma owns_app lib mid rest :
  tidy lib = true → folded (chars mid) = chars "/steamapps/" ++ rest →
  (∀ a k', chars mid = a :: k' → is_cont a = false) →
  library_owns_prefix lib (canonical_steam_path (lib +:+ mid)) = true.
Proof.
  intros Ht Hmid Hs. unfold library_owns_prefix. apply starts_with_spec.
  exists rest. by rewrite canonical_app, chars_library_prefix, Hmid, app_assoc.
Qed.

(** What a scan records for a library is owned by it. *)
Lemma common_prefix_owned lib installdir :
  tidy lib = true → library_owns_prefix lib (common_prefix lib installdir) = true.
Proof.
  intros Ht. unfold common_prefix, with_trailing_slash.
  assert (library_owns_prefix lib (canonical_steam_path
    (lib +:+ "/steamapps/common/" +:+ installdir)) = true) as Ho.
  { eapply owns_app; [done| |by intros ? ? [= <- _]].
    replace (chars ("/steamapps/common/" +:+ installdir))
      with (chars "/steamapps/" ++ chars ("common/" +:+ installdir)) by (by rewrite <-chars_app).
    rewrite folded_app; [reflexivity|by intros ? ? [= <- _]]. }
  case_match; [done|]. unfold library_owns_prefix in *.
  apply starts_with_spec in Ho as [r Hr]. apply starts_with_spec.
  rewrite chars_app, Hr, <-app_assoc. eauto.
Qed.

Lemma compat_prefix_owned lib name :
  tidy lib = true → library_owns_prefix lib (compat_prefix lib name) = true.
Proof.
  intros Ht. unfold compat_prefix. eapply owns_app; [done| |by intros ? ? [= <- _]].
  replace (chars ("/steamapps/compatdata/" +:+ name +:+ "/"))
    with (chars "/steamapps/" ++ chars ("compatdata/" +:+ name +:+ "/")) by (by rewrite <-chars_app).
  rewrite folded_app; [reflexivity|by intros ? ? [= <- _]].
Qed.
End Ownership.

(** ** What a scan finds *)

Section Refresh.
Context `{CaseTables}.

(** The map one scan of a library builds. *)
Definition scanned (d : Disk) (lib : string) : gmap string string := scan_library_into d lib ∅.

Lemma or_insert_union k v m : or_insert k v m = m ∪ {[k := v]}.
Proof.
  unfold or_insert. destruct (m !! k) eqn:E.
  - apply map_eq. intros i. rewrite lookup_union. destruct (decide (i = k)) as [->|].
    + by rewrite E, lookup_singleton_eq.
    + rewrite lookup_singleton_ne by done. by destruct (m !! i).
  - by rewrite <-insert_union_singleton_r.
Qed.

Lemma scan_entry_union d lib m raw : scan_entry d lib m raw = m ∪ scan_entry d lib ∅ raw.
Proof.
  unfold scan_entry. repeat case_match; rewrite ?or_insert_union, ?(left_id_L ∅ (∪)), ?(right_id_L ∅ (∪));
    done.
Qed.

Lemma scan_fold_union d lib l m :
  foldl (scan_entry d lib) m l = m ∪ foldl (scan_entry d lib) ∅ l.
Proof.
  revert m. induction l as [|raw l IH]; intros m; simpl; [by rewrite (right_id_L ∅ (∪))|].
  rewrite IH, scan_entry_union, (IH (scan_entry d lib ∅ raw)). by rewrite (assoc_L (∪)).
Qed.

(** Scanning into a map adds the library's own map; what was there wins. *)
Lemma scan_library_into_union d lib m : scan_library_into d lib m = m ∪ scanned d lib.
Proof.
  unfold scanned, scan_library_into. case_match; [apply scan_fold_union|].
  by rewrite (right_id_L ∅ (∪)).
Qed.

Lemma scanned_owned d lib p id :
  is_utf8 lib = true → tidy lib = true →
  scanned d lib !! p = Some id → library_owns_prefix lib p = true.
Proof.
  intros Hu Ht. unfold scanned, scan_library_into. case_match; [|by rewrite lookup_empty].
  generalize (take MAX_SCAN_ENTRIES l). clear -Hu Ht. intros l. induction l as [|raw l IH]; simpl.
  { by rewrite lookup_empty. }
  rewrite scan_fold_union, lookup_union_Some_raw. intros [Hp|[_ Hp]]; [|by apply IH].
  revert Hp. unfold scan_entry. rewrite (from_utf8_lossy_valid lib) by done.
  repeat case_match; rewrite ?lookup_empty; try done;
    rewrite or_insert_union, (left_id_L ∅ (∪)), lookup_singleton_Some; intros [<- _];
    auto using common_prefix_owned, compat_prefix_owned.
Qed.

(** ** Libraries that do not share prefixes *)

Definition apart (libs : list string) : bool :=
  forallb (λ k, is_utf8 k && tidy k &&
    forallb (λ k', String.eqb k k' || negb (starts_with (library_prefix k) (library_prefix k'))) libs) libs.

Lemma apart_known libs k : apart libs = true → k ∈ libs → is_utf8 k = true ∧ tidy k = true.
Proof.
  unfold apart. rewrite forallb_forall. intros Hall Hk%list_elem_of_In. specialize (Hall k Hk).
  apply andb_true_iff in Hall as [Hall _]. by apply andb_true_iff in Hall.
Qed.

Lemma prefixes_comparable (a b s : string) :
  starts_with a s = true → starts_with b s = true →
  starts_with a b = true ∨ starts_with b a = true.
Proof.
  rewrite !starts_with_spec. intros [r Hr] [r' Hr']. rewrite Hr in Hr'. clear Hr.
  destruct (decide (length (chars a) ≤ length (chars b))).
  - left. apply app_eq_app in Hr' as (k & [[E _]|[E _]]).
    + apply (f_equal length) in E as El. rewrite length_app in El.
      destruct k; [|simpl in El; lia]. exists []. by rewrite E, !app_nil_r.
    + by exists k.
  - right. apply app_eq_app in Hr' as (k & [[E _]|[E _]]); [by exists k|].
    apply (f_equal length) in E. rewrite length_app in E. lia.
Qed.

Lemma apart_owner libs k k' p :
  apart libs = true → k ∈ libs → k' ∈ libs →
  library_owns_prefix k p = true → library_owns_prefix k' p = true → k = k'.
Proof.
  unfold apart, library_owns_prefix. rewrite forallb_forall. intros Hall Hk Hk' Ho Ho'.
  assert (∀ a b, a ∈ libs → b ∈ libs →
    starts_with (library_prefix a) (library_prefix b) = true → a = b) as Hsep.
  { intros a b Ha%list_elem_of_In Hb%list_elem_of_In Hp. specialize (Hall a Ha).
    apply andb_true_iff in Hall as [_ Hf]. rewrite forallb_forall in Hf. specialize (Hf b Hb).
    rewrite Hp in Hf. apply orb_true_iff in Hf as [?%String.eqb_eq|]; done. }
  destruct (prefixes_comparable _ _ _ Ho Ho') as [E|E]; [by apply Hsep|].
  symmetry. by apply Hsep.
Qed.

(** ** The rebuild of a refresh *)

Context `{HashOrder}.

Lemma copy_owned_lookup lib (from to : gmap string string) p :
  is_utf8 lib = true →
  copy_owned lib from to !! p =
  if library_owns_prefix lib p then or_else (from !! p) (to !! p) else to !! p.
Proof.
  intros Hu. unfold copy_owned. rewrite from_utf8_lossy_valid by done.
  assert (∀ l, NoDup l.*1 → foldl (λ (m : gmap string string) kv,
      if starts_with (library_prefix lib) kv.1 then <[kv.1 := kv.2]> m else m) to l !! p =
    if library_owns_prefix lib p then or_else ((list_to_map l : gmap string string) !! p) (to !! p) else to !! p) as Hl.
  { intros l Hnd. revert to. induction l as [|[q v] l IH]; intros to; simpl.
    { rewrite lookup_empty. by destruct (library_owns_prefix lib p). }
    apply NoDup_cons in Hnd as [Hq Hnd]. rewrite IH by done.
    unfold library_owns_prefix. destruct (decide (q = p)) as [->|Hne].
    - rewrite lookup_insert_eq, not_elem_of_list_to_map_1 by done.
      destruct (starts_with (library_prefix lib) p) eqn:E; [|done]. simpl. by rewrite lookup_insert_eq.
    - rewrite (lookup_insert_ne _ q p) by done.
      destruct (starts_with (library_prefix lib) q); [|done].
      by rewrite lookup_insert_ne by done. }
  rewrite Hl by apply hm_iter_keys_NoDup.
  replace ((list_to_map (hm_iter from) : gmap string string) !! p) with (from !! p); [done|]. symmetry.
  destruct (from !! p) eqn:E.
  - apply elem_of_list_to_map_1; [apply hm_iter_keys_NoDup|]. by apply hm_iter_elem.
  - apply not_elem_of_list_to_map_1. intros ([q v] & -> & Hin%hm_iter_elem)%list_elem_of_fmap.
    simpl in E. congruence.
Qed.

Context (libs : list string) (Hapart : apart libs = true).

(** The map is what scanning the known libraries on disk [d] gives. *)
Record Synced (d : Disk) (s : SteamLibraries) : Prop := {
  syn_known : ∀ k, k ∈ dom (fingerprints s) → k ∈ libs;
  syn_markers : ∀ k f, fingerprints s !! k = Some f → lib_fingerprint d k = Some f;
  syn_dirs : ∀ p id, dirs s !! p = Some id ↔
    ∃ k, k ∈ dom (fingerprints s) ∧ scanned d k !! p = Some id
}.

(** The documented promise of the markers: a library whose marker did not
    move between two ticks scans to the same map. *)
Definition markers_tell (d d' : Disk) : Prop :=
  ∀ k f, k ∈ libs → lib_fingerprint d k = Some f → lib_fingerprint d' k = Some f →
    scanned d' k = scanned d k.

Lemma lossy_known k : k ∈ libs → from_utf8_lossy k = k.
Proof. intros [Hu _]%(apart_known _ _ Hapart). by apply from_utf8_lossy_valid. Qed.

Lemma scanned_known d k p id :
  k ∈ libs → scanned d k !! p = Some id → library_owns_prefix k p = true.
Proof. intros [Hu Ht]%(apart_known _ _ Hapart). by apply scanned_owned. Qed.

(** In a synchronized map, a library's prefixes are its scan. *)
Lemma synced_owned d s k p :
  Synced d s → k ∈ dom (fingerprints s) → library_owns_prefix k p = true →
  dirs s !! p = scanned d k !! p.
Proof.
  intros [Hk _ Hd] Hin Ho. apply option_eq. intros id. rewrite Hd. split.
  - intros (k' & Hin' & Hp). assert (k' = k) as ->; [|done].
    eapply (apart_owner _ _ _ p Hapart); eauto using scanned_known.
  - eauto.
Qed.

Record rebuilt (d : Disk) (s : SteamLibraries) (done : list string) (fr : Fresh) : Prop := {
  rb_markers : ∀ k f, fr_fingerprints fr !! k = Some f ↔ k ∈ done ∧ lib_fingerprint d k = Some f;
  rb_dirs : ∀ p id, fr_dirs fr !! p = Some id ↔
    ∃ k, k ∈ done ∧ is_Some (lib_fingerprint d k) ∧ scanned d k !! p = Some id;
  rb_changed : fr_changed fr = false → ∀ k, k ∈ done →
    ∃ f, lib_fingerprint d k = Some f ∧ fingerprints s !! k = Some f
}.

(** The maps after one more live library. *)
Lemma rebuilt_live d s done fr k live changed (ds : gmap string string) :
  rebuilt d s done fr → k ∈ libs → k ∉ done → done ⊆ libs →
  lib_fingerprint d k = Some live →
  (∀ p, ds !! p = or_else (fr_dirs fr !! p) (scanned d k !! p)) →
  (changed = false → fr_changed fr = false ∧ fingerprints s !! k = Some live) →
  rebuilt d s (done ++ [k])
    {| fr_changed := changed; fr_dirs := ds; fr_fingerprints := <[k := live]> (fr_fingerprints fr) |}.
Proof.
  intros [Hm Hd Hc] Hk Hnew Hsub Hlive Hds Hch. constructor; simpl.
  - intros j f. rewrite lookup_insert_Some, Hm, elem_of_app, list_elem_of_singleton.
    split; [naive_solver|]. intros [[Hj| ->] Hf]; [|left; split; congruence].
    right. split_and!; [|done..]. by intros ->.
  - intros p id. rewrite Hds. setoid_rewrite elem_of_app. setoid_rewrite list_elem_of_singleton.
    destruct (fr_dirs fr !! p) as [v|] eqn:E; simpl.
    + pose proof E as (j & Hj & Hl & Hs)%Hd. split; [intros [= ->]; eauto|].
      intros (j' & [Hj'| ->] & Hl' & Hs'); [rewrite <-E; apply Hd; eauto|].
      assert (j = k) as ->; [|done].
      eapply (apart_owner _ _ _ p Hapart); eauto using scanned_known.
    + split; [intros Hs; exists k; eauto|]. intros (j' & [Hj'| ->] & Hl' & Hs'); [|done].
      exfalso. assert (fr_dirs fr !! p = Some id); [apply Hd; eauto|congruence].
  - intros [Hc0 Hf]%Hch j. rewrite elem_of_app, list_elem_of_singleton. intros [Hj| ->]; eauto.
Qed.

Lemma refresh_lib_rebuilt d d' s done fr k :
  Synced d s → markers_tell d d' → rebuilt d' s done fr →
  k ∈ libs → k ∉ done → done ⊆ libs →
  rebuilt d' s (done ++ [k]) (refresh_lib d' s fr k).
Proof.
  intros Hsyn Htell Hfr Hk Hnew Hsub. unfold refresh_lib. rewrite lossy_known by done.
  destruct (lib_fingerprint d' k) as [live|] eqn:El.
  - case_bool_decide as Eb.
    + pose proof (syn_markers _ _ Hsyn _ _ Eb) as Ed.
      assert (k ∈ dom (fingerprints s)) as Hdom by (apply elem_of_dom; eauto).
      pose proof (Htell _ _ Hk Ed El) as Esc.
      eapply rebuilt_live; eauto. intros p. destruct (apart_known _ _ Hapart Hk) as [Hu _].
      rewrite copy_owned_lookup by done. destruct (library_owns_prefix k p) eqn:Eo.
      * rewrite (synced_owned d s k) by done. rewrite Esc.
        destruct (fr_dirs fr !! p) as [v|] eqn:E; [|by destruct (scanned d k !! p)].
        pose proof E as (j & Hj & _ & Hs)%(rb_dirs _ _ _ _ Hfr).
        assert (j = k) as ->; [|done].
        eapply (apart_owner _ _ _ p Hapart); eauto using scanned_known.
      * destruct (fr_dirs fr !! p); [done|]. simpl. symmetry. rewrite eq_None_not_Some.
        intros [id Hs]. apply scanned_known in Hs; [congruence|done].
    + eapply rebuilt_live; eauto; [|done]. intros p. rewrite scan_library_into_union, lookup_union.
      by destruct (fr_dirs fr !! p), (scanned d' k !! p).
  - destruct Hfr as [Hm Hd Hc]. constructor; simpl; [..|done].
    + intros j f. rewrite Hm, elem_of_app, list_elem_of_singleton. naive_solver.
    + intros p id. rewrite Hd. setoid_rewrite elem_of_app. setoid_rewrite list_elem_of_singleton.
      split; [naive_solver|]. intros (j & [Hj| ->] & Hl & Hs); [eauto|]. rewrite El in Hl. by destruct Hl.
Qed.

Lemma refresh_fold_rebuilt d d' s todo done fr :
  Synced d s → markers_tell d d' → rebuilt d' s done fr →
  NoDup (done ++ todo) → done ++ todo ⊆ libs →
  rebuilt d' s (done ++ todo) (foldl (refresh_lib d' s) fr todo).
Proof.
  intros Hsyn Htell. revert done fr. induction todo as [|k todo IH]; intros done fr Hfr Hnd Hsub; simpl.
  { by rewrite app_nil_r. }
  replace (done ++ k :: todo) with ((done ++ [k]) ++ todo) in * by (by rewrite <-app_assoc).
  apply IH; [|done..]. apply NoDup_app in Hnd as (Hnd & _ & _). apply NoDup_app in Hnd as (_ & Hdis & _).
  assert (k ∈ libs) by (apply Hsub; set_solver). assert (done ⊆ libs) by set_solver.
  eapply refresh_lib_rebuilt; eauto. intros Hin. apply (Hdis k Hin). by left.
Qed.

(** The libraries a tick finds current are all the known ones. *)
Lemma all_current_keys d s ls :
  all_current d s ls = true → NoDup ls → ls ⊆ libs →
  (∀ k, k ∈ ls ↔ k ∈ dom (fingerprints s)) ∧
  ∀ k, k ∈ ls → ∃ f, lib_fingerprint d k = Some f ∧ fingerprints s !! k = Some f.
Proof.
  unfold all_current. intros [Hlen%bool_decide_eq_true Hall]%andb_true_iff Hnd Hsub.
  assert (∀ k, k ∈ ls → ∃ f, lib_fingerprint d k = Some f ∧ fingerprints s !! k = Some f) as Hf.
  { intros k Hk. rewrite forallb_forall in Hall. specialize (Hall k).
    rewrite <-list_elem_of_In, lossy_known in Hall by auto. specialize (Hall Hk).
    do 2 (case_match; [|done]). apply bool_decide_eq_true in Hall as ->. eauto. }
  split; [|done].
  assert (list_to_set ls = dom (fingerprints s)) as E; [|intros k; rewrite <-E; by rewrite elem_of_list_to_set].
  apply set_subseteq_size_eq.
  - intros k Hk%elem_of_list_to_set. destruct (Hf k Hk) as (f & _ & ?). apply elem_of_dom. eauto.
  - rewrite size_dom, size_list_to_set by done. lia.
Qed.

(** Known libraries, then one pass: kept, dropped or scanned again. *)
Lemma rebuild_synced d d' s ls :
  Synced d s → markers_tell d d' → NoDup ls → ls ⊆ libs →
  let s' := if all_current d' s ls then s
            else let fr := foldl (refresh_lib d' s)
                   {| fr_changed := false; fr_dirs := ∅; fr_fingerprints := ∅ |} ls in
                 if fr_changed fr || negb (bool_decide (size (fr_dirs fr) = size (dirs s)))
                 then set_maps (fr_dirs fr) (fr_fingerprints fr) s
                 else set_maps (dirs s) (fr_fingerprints fr) s in
  Synced d' s' ∧
  ∀ k, k ∈ dom (fingerprints s') ↔ k ∈ ls ∧ is_Some (lib_fingerprint d' k).
Proof.
  intros Hsyn Htell Hnd Hsub. destruct (all_current d' s ls) eqn:Ecur; cbn zeta.
  - destruct (all_current_keys _ _ _ Ecur Hnd Hsub) as [Hdom Hf]. split.
    + destruct Hsyn as [Hk Hm Hd]. constructor; [done| |].
      * intros k f Hkf. destruct (Hf k) as (f' & ? & ?); [apply Hdom, elem_of_dom; eauto|congruence].
      * intros p id. rewrite Hd. apply exist_proper. intros k.
        assert (k ∈ dom (fingerprints s) → scanned d' k = scanned d k) as Hsame;
          [|split; intros [Hin ?]; (split; [done|]); rewrite Hsame in *; done].
        intros Hin. destruct (Hf k) as (f & Hl & Hkf); [by apply Hdom|].
        exact (Htell k f (Hk k Hin) (Hm k f Hkf) Hl).
    + intros k. rewrite <-Hdom. split; [|by intros []].
      intros Hin. destruct (Hf k Hin) as (f & -> & _). eauto.
  - set (fr := foldl _ _ ls).
    assert (rebuilt d' s ([] ++ ls) fr) as Hfr.
    { apply (refresh_fold_rebuilt d); [done..| |done|done].
      constructor; simpl; [intros ??; rewrite lookup_empty; set_solver| |set_solver].
      intros p id. rewrite lookup_empty. set_solver. }
    simpl in Hfr. destruct Hfr as [Hm Hd Hc].
    assert (∀ k, k ∈ dom (fr_fingerprints fr) ↔ k ∈ ls ∧ is_Some (lib_fingerprint d' k)) as Hdom.
    { intros k. rewrite elem_of_dom. unfold is_Some. setoid_rewrite Hm. naive_solver. }
    assert (Synced d' (set_maps (fr_dirs fr) (fr_fingerprints fr) s)) as Hsyn'.
    { constructor; simpl.
      - intros k [Hk _]%Hdom. auto.
      - intros k f [_ ?]%Hm. done.
      - intros p id. rewrite Hd. setoid_rewrite Hdom. naive_solver. }
    destruct (fr_changed fr || _) eqn:Ech; [done|].
    apply orb_false_iff in Ech as [Ech Esz%negb_false_iff%bool_decide_eq_true].
    replace (dirs s) with (fr_dirs fr); [done|]. apply map_subseteq_size_eq; [|lia].
    apply map_subseteq_spec. intros p id (k & Hk & _ & Hs)%Hd.
    destruct (Hc Ech k Hk) as (f & Hl & Hkf).
    rewrite (Htell k f) in Hs by eauto using syn_markers.
    apply (syn_dirs _ _ Hsyn). exists k. split; [apply elem_of_dom; eauto|done].
Qed.

(** ** Resolving the roots again *)

Lemma watch_file_maps d file s :
  dirs (watch_file d file s) = dirs s ∧ fingerprints (watch_file d file s) = fingerprints s ∧
  roots (watch_file d file s) = roots s ∧ exclusive (watch_file d file s) = exclusive s ∧
  ticks (watch_file d file s) = ticks s.
Proof. by destruct file. Qed.

(** The libraries of the roots. *)
Definition listed (d : Disk) (rs : list string) : list string :=
  rs ≫= λ root, (root_libraries d root).1.

Lemma resolve_fold d rs s ls :
  let '(s', ls') := foldl (resolve_root d) (s, ls) rs in
  ls' = ls ++ listed d rs ∧ dirs s' = dirs s ∧ fingerprints s' = fingerprints s ∧
  roots s' = roots s ∧ exclusive s' = exclusive s ∧ ticks s' = ticks s.
Proof.
  revert s ls. induction rs as [|root rs IH]; intros s ls; simpl.
  { by rewrite app_nil_r. }
  change (listed d (root :: rs)) with ((root_libraries d root).1 ++ listed d rs).
  unfold resolve_root at 2.
  destruct (root_libraries d root) as [root_libs file]. simpl.
  destruct (watch_file_maps d file s) as (E1 & E2 & E3 & E4 & E5).
  specialize (IH (watch_file d file s) (ls ++ root_libs)).
  destruct (foldl _ _ rs) as [s' ls']. destruct IH as (-> & -> & -> & -> & -> & ->).
  by rewrite <-app_assoc, E1, E2, E3, E4, E5.
Qed.

(** Where a refresh looks for libraries. *)
Definition sources (env : Env) (d : Disk) (s : SteamLibraries) : list string :=
  if exclusive s then roots s else collect_roots env d.

Lemma resolve_libs_spec env d s :
  let '(s', ls) := resolve_libs env d s in
  ls = path_dedup (path_sort (listed d (sources env d s))) ∧
  dirs s' = dirs s ∧ fingerprints s' = fingerprints s ∧ exclusive s' = exclusive s ∧
  (exclusive s = true → roots s' = roots s).
Proof.
  unfold resolve_libs, sources.
  pose proof (resolve_fold d (if exclusive s then roots s else collect_roots env d) s []) as Hf.
  destruct (foldl _ _ _) as [s1 ls]. destruct Hf as (-> & Hd & Hf & Hr & He & Ht).
  rewrite He. by destruct (exclusive s); simpl; rewrite ?Hd, ?Hf, ?Hr, ?He.
Qed.

Lemma NoDup_components (ls : list string) : NoDup (map components ls) → NoDup ls.
Proof. apply NoDup_fmap_1. Qed.
End Refresh.
