(* ===== verification/SteamSync.v ===== *)
(** * The Steam map follows the disk

    Start from one root or from full discovery, refresh at every tick, save
    the cache, start again: at every point the map is the one a complete
    scan of the disk as it is now would build, as long as the change markers
    keep their promise. *)

From stdpp Require Import base gmap strings list list_numbers sets fin_maps sorting.
From Stdlib Require Import Ascii.
From S2P Require Import Prelude RStr Text HashMaps Json Vdf Steam StdPath SteamFs SteamCache SteamFsProps.

Local Open Scope string_scope.
Local Open Scope nat_scope.
Local Open Scope list_scope.

Section Sync.
Context `{CaseTables} `{HashOrder}.
Context (libs : list string) (Hapart : apart libs = true).

(** ** One tick *)

Definition resolves (d : Disk) (s : SteamLibraries) : bool :=
  folders_changed d s || (sat_u64_add (ticks s) 1 mod 120 =? 0)%Z.

(** A library is there, however it is spelled. *)
Definition live_at (d : Disk) (k : string) : Prop :=
  ∀ k', components k' = components k → is_Some (lib_fingerprint d k').

Lemma refresh_synced env d d' s :
  Synced libs d s → markers_tell libs d d' → listed d' (sources env d' s) ⊆ libs →
  let s' := (refresh_if_stale env d' s).1 in
  Synced libs d' s' ∧ exclusive s' = exclusive s ∧ (exclusive s = true → roots s' = roots s) ∧
  (resolves d' s = true →
     ∀ k, k ∈ listed d' (sources env d' s) → live_at d' k →
       ∃ k', k' ∈ dom (fingerprints s') ∧ components k' = components k).
Proof.
  intros Hsyn Htell Hsub. unfold refresh_if_stale.
  set (s1 := set_ticks _ s).
  assert (Synced libs d s1) as Hsyn1 by (by destruct Hsyn).
  change (folders_changed d' s1 || _) with (resolves d' s).
  pose proof (resolve_libs_spec env d' s1) as Hres.
  destruct (resolves d' s); [destruct (resolve_libs env d' s1) as [s2 ls]|].
  - destruct Hres as (-> & Hd & Hf & He & Hr).
    assert (Synced libs d s2) as Hsyn2
      by (destruct Hsyn1; constructor; rewrite ?Hd, ?Hf; done).
    set (ls := path_dedup _).
    assert (NoDup ls) as Hnd by apply NoDup_components, path_sort_dedup_NoDup.
    assert (ls ⊆ libs) as Hls by (etrans; [apply path_sort_dedup_subset|exact Hsub]).
    destruct (rebuild_synced libs Hapart d d' s2 ls Hsyn2 Htell Hnd Hls) as [Hsyn' Hdom].
    assert (∀ k, k ∈ listed d' (sources env d' s1) → live_at d' k →
      ∃ k', (k' ∈ ls ∧ is_Some (lib_fingerprint d' k')) ∧ components k' = components k) as Hall.
    { intros k Hk Hl. destruct (path_sort_dedup_complete _ k Hk) as (k' & Hk' & Ek). eauto. }
    setoid_rewrite <-Hdom in Hall. revert Hsyn' Hall. cbn zeta.
    destruct (all_current d' s2 ls); [|destruct (fr_changed _ || _)]; simpl; intros Hsyn' Hall; (split_and!; [done..|]); intros _; exact Hall.
  - assert (NoDup (hm_iter (fingerprints s1)).*1) as Hnd by apply hm_iter_keys_NoDup.
    assert ((hm_iter (fingerprints s1)).*1 ⊆ libs) as Hls.
    { intros k ([k' f] & -> & Hin%hm_iter_elem)%list_elem_of_fmap. apply (syn_known _ _ _ Hsyn1).
      apply elem_of_dom. eauto. }
    destruct (rebuild_synced libs Hapart d d' s1 _ Hsyn1 Htell Hnd Hls) as [Hsyn' _].
    revert Hsyn'. cbn zeta.
    destruct (all_current d' s1 _); [|destruct (fr_changed _ || _)]; simpl; by intros Hsyn'.
Qed.

(** ** Starting *)

(** A directory without a marker cannot be listed either. *)
Definition markers_readable (d : Disk) : Prop :=
  ∀ k, k ∈ libs → lib_fingerprint d k = None → d_read_dir d (join k "steamapps") = None.

Lemma synced_add d s k f :
  Synced libs d s → k ∈ libs → k ∉ dom (fingerprints s) → lib_fingerprint d k = Some f →
  Synced libs d (set_maps (dirs s ∪ scanned d k) (<[k := f]> (fingerprints s)) s).
Proof.
  intros [Hk Hm Hd] Hin Hnew Hf. constructor; simpl.
  - intros j. rewrite dom_insert, elem_of_union, elem_of_singleton. naive_solver.
  - intros j g. rewrite lookup_insert_Some. naive_solver.
  - intros p id. rewrite lookup_union_Some_raw, Hd. setoid_rewrite dom_insert.
    setoid_rewrite elem_of_union. setoid_rewrite elem_of_singleton. split.
    + intros [(j & ? & ?)|[_ ?]]; eauto.
    + intros (j & [->|Hj] & Hs); [|eauto].
      destruct (dirs s !! p) as [v|] eqn:E; [|eauto].
      apply Hd in E as (j & Hj & Hs'). destruct Hnew. assert (k = j) as ->; [|done].
      eapply (apart_owner libs _ _ p Hapart); eauto using scanned_known.
Qed.

Lemma scan_library_synced d s k :
  markers_readable d → Synced libs d s → k ∈ libs → k ∉ dom (fingerprints s) →
  Synced libs d (scan_library d d k s).
Proof.
  intros Hr Hsyn Hin Hnew. unfold scan_library. rewrite (lossy_known libs Hapart) by done.
  destruct (lib_fingerprint d k) as [f|] eqn:Ef.
  - rewrite scan_library_into_union. by apply synced_add.
  - unfold scan_library_into. rewrite Hr by done. by destruct Hsyn.
Qed.

Lemma from_root_synced d root :
  markers_readable d → (root_libraries d root).1 ⊆ libs → Synced libs d (from_root d root).
Proof.
  intros Hr Hsub. unfold from_root.
  assert (NoDup (root_libraries d root).1) as Hnd.
  { unfold root_libraries. case_match; [constructor|]. apply NoDup_components, path_sort_dedup_NoDup. }
  destruct (root_libraries d root) as [ls file]. simpl in *.
  set (s0 := watch_file _ _ _).
  destruct (watch_file_maps d file {| watched := []; mtimes := ∅; dirs := ∅; fingerprints := ∅;
    roots := [root]; exclusive := true; ticks := 0 |}) as (Ed & Ef & _).
  assert (Synced libs d s0) as Hs0.
  { constructor; unfold s0; rewrite ?Ed, ?Ef; simpl; [set_solver| |].
    - intros ? ?. by rewrite lookup_empty.
    - intros ? ?. rewrite lookup_empty. set_solver. }
  assert (∀ k, k ∈ ls → k ∉ dom (fingerprints s0)) as Hnew by (unfold s0; rewrite Ef; set_solver).
  clearbody s0. clear Ed Ef. revert s0 Hs0 Hnew.
  induction ls as [|k ls IH]; intros s Hs Hnew; [done|]. simpl.
  apply NoDup_cons in Hnd as [Hk Hnd]. assert (k ∈ libs) by set_solver.
  apply IH; [set_solver|done|apply scan_library_synced; set_solver|].
  intros j Hj. unfold scan_library. rewrite (lossy_known libs Hapart) by done. simpl.
  assert (j ≠ k) by (intros ->; done).
  destruct (lib_fingerprint d k); rewrite ?dom_insert; set_solver.
Qed.

(** ** Many ticks *)

Definition refreshes (env : Env) (ds : list Disk) (s : SteamLibraries) : SteamLibraries :=
  foldl (λ s d, (refresh_if_stale env d s).1) s ds.

(** The disks of successive ticks: markers tell them apart and the root
    lists known libraries only. *)
Fixpoint well_told (root : string) (d : Disk) (ds : list Disk) : Prop :=
  match ds with
  | [] => True
  | d' :: ds => markers_tell libs d d' ∧ (root_libraries d' root).1 ⊆ libs ∧ well_told root d' ds
  end.

Lemma refreshes_synced env root ds d s :
  Synced libs d s → exclusive s = true → roots s = [root] → well_told root d ds →
  let s' := refreshes env ds s in
  Synced libs (default d (last ds)) s' ∧ exclusive s' = true ∧ roots s' = [root] ∧
  (∀ ds' d', ds = ds' ++ [d'] → resolves d' (refreshes env ds' s) = true →
     ∀ k, k ∈ (root_libraries d' root).1 → live_at d' k →
       ∃ k', k' ∈ dom (fingerprints s') ∧ components k' = components k).
Proof.
  revert d s. induction ds as [|d' ds IH] using rev_ind; intros d s Hs He Hr Hw.
  { split_and!; [done..|]. by intros [] ?. }
  assert (well_told root d ds ∧ markers_tell libs (default d (last ds)) d' ∧
    (root_libraries d' root).1 ⊆ libs) as (Hw1 & Hm & Hl).
  { clear -Hw. revert d Hw. induction ds as [|x ds IH]; intros d; simpl; [tauto|].
    intros (? & ? & Hw). destruct (IH x Hw) as (? & Hm & ?). rewrite last_cons.
    split_and!; [done..| |done]. by destruct (last ds). }
  destruct (IH d s Hs He Hr Hw1) as (Hs1 & He1 & Hr1 & _).
  unfold refreshes in *. rewrite foldl_app, last_snoc. cbn [foldl].
  set (s1 := foldl _ s ds) in *.
  assert (listed d' (sources env d' s1) = (root_libraries d' root).1) as El.
  { unfold sources, listed. rewrite He1, Hr1. apply app_nil_r. }
  destruct (refresh_synced env (default d (last ds)) d' s1) as (Hs2 & He2 & Hr2 & Hall);
    [done|done|by rewrite El|].
  split_and!; [done|by rewrite He2|by rewrite Hr2|].
  intros ds' d'' [-> [= ->]]%app_inj_2 Hres; [|done]. rewrite El in Hall. by apply Hall.
Qed.

End Sync.

(** ** A disk to evaluate on

    One library [/s] with the given games; [stamp] is the time in
    milliseconds of its last change. *)

Definition demo_case : CaseTables := {| unicode_lower := λ c, c |}.

Definition quoted (s : string) : string := dquote +:+ s +:+ dquote.

Definition manifest_text (id dir : string) : string :=
  quoted "AppState" +:+ "{" +:+ quoted "appid" +:+ quoted id +:+
  quoted "installdir" +:+ quoted dir +:+ "}".

Definition manifest_name (id : string) : string := "appmanifest_" +:+ id +:+ ".acf".

Definition demo_disk (root : string) (games : list (string * string)) (stamp : Z) : Disk :=
  let apps := join root "steamapps" in
  let body p := find_map (λ g, if String.eqb p (join apps (manifest_name g.1))
                               then Some (manifest_text g.1 g.2) else None) games in
  {| d_modified := λ p, if String.eqb p apps then Some (stamp * 1000000)%Z else None;
     d_len := λ p, str_len <$> body p;
     d_read := body;
     d_is_dir := λ p, String.eqb p apps || String.eqb p root;
     d_is_file := λ p, is_some (body p);
     d_read_dir := λ p, if String.eqb p apps then Some (map (λ g, manifest_name g.1) games) else None;
     d_canonicalize := Some;
     d_read_link := λ _, None |}.

Definition no_env : Env := λ _, None.

Definition one_game : Disk := demo_disk "/s" [("10", "Alpha")] 1000.
Definition two_games : Disk := demo_disk "/s" [("10", "Alpha"); ("20", "Beta")] 2000.


(** ** Where the map misses games *)

(** The continuation starts with an ASCII character. *)
Ltac starts_plain := by intros ? ? Hstart; injection Hstart as <-.

(** A library path that ends in a separator is dead: the prefixes a scan
    records for it have the separator twice, so the library does not even
    own them, and no process below its [steamapps] directory matches any of
    them. *)
Theorem trailing_separator_is_dead `{CaseTables} (lib installdir rest : string) :
  tidy lib = true →
  let prefix := common_prefix (lib +:+ "/") installdir in
  library_owns_prefix (lib +:+ "/") prefix = false ∧
  starts_with prefix (canonical_steam_path (lib +:+ "/steamapps/" +:+ rest)) = false.
Proof.
  intros Ht prefix.
  assert (∃ r, chars prefix = chars (canonical_steam_path lib) ++ "/"%char :: "/"%char :: r) as [r Hp].
  { unfold prefix, common_prefix, with_trailing_slash. rewrite string_app_assoc.
    assert (∃ r, chars (canonical_steam_path (lib +:+ ("/" +:+ "/steamapps/common/" +:+ installdir)))
      = chars (canonical_steam_path lib) ++ "/"%char :: "/"%char :: r) as [r Hr].
    { rewrite canonical_app by (done || starts_plain).
      change (chars ("/" +:+ "/steamapps/common/" +:+ installdir))
        with (["/"%char; "/"%char] ++ chars ("steamapps/common/" +:+ installdir)).
      rewrite folded_app by starts_plain. by eexists. }
    case_match; [eauto|]. rewrite chars_app, Hr. exists (r ++ chars "/"). by rewrite <-app_assoc. }
  assert (chars (canonical_steam_path (lib +:+ "/")) = chars (canonical_steam_path lib) ++ ["/"%char]) as Hc.
  { rewrite canonical_app; [done|done|starts_plain]. }
  split; apply not_true_is_false; intros [q Hq]%starts_with_spec.
  - unfold library_prefix, with_trailing_slash in Hq.
    assert (ends_with "/" (canonical_steam_path (lib +:+ "/")) = true) as Ee.
    { unfold ends_with, strip_suffix. by rewrite Hc, rev_app_distr. }
    rewrite Ee, chars_app, Hc, Hp, <-!app_assoc in Hq. by apply app_inv_head in Hq.
  - rewrite canonical_app in Hq by (done || starts_plain).
    change (chars ("/steamapps/" +:+ rest)) with (["/"%char] ++ chars ("steamapps/" +:+ rest)) in Hq.
    rewrite Hp, folded_app, <-app_assoc in Hq by starts_plain.
    change ("steamapps/" +:+ rest) with ("s" +:+ ("teamapps/" +:+ rest)) in Hq.
    rewrite chars_app, folded_app in Hq by starts_plain.
    by apply app_inv_head in Hq.
Qed.

Lemma trailing_separator_is_dead_witness :
  let _ := demo_case in
  starts_with (common_prefix "/s/" "Alpha") "/s/steamapps/common/alpha/game" = false ∧
  starts_with (common_prefix "/s" "Alpha") "/s/steamapps/common/alpha/game" = true.
Proof.
  split; [|vm_compute; reflexivity].
  apply (@trailing_separator_is_dead demo_case "/s" "Alpha" "common/alpha/game").
  vm_compute. reflexivity.
Defined.

(** A start that reads the manifests, then a second game is installed, then
    the start reads the marker. *)
Definition raced : SteamLibraries :=
  let _ := demo_case in
  scan_library one_game two_games "/s"
    {| watched := ["/s/steamapps/libraryfolders.vdf"]; mtimes := ∅; dirs := ∅; fingerprints := ∅;
       roots := ["/s"]; exclusive := true; ticks := 0 |}.

Definition tick (s : SteamLibraries) : SteamLibraries :=
  let _ := demo_case in let _ := default_order in (refresh_if_stale no_env two_games s).1.

Lemma tick_keeps_raced s :
  dirs s = dirs raced → fingerprints s = fingerprints raced → roots s = ["/s"] → exclusive s = true →
  dirs (tick s) = dirs raced ∧ fingerprints (tick s) = fingerprints raced ∧
  roots (tick s) = ["/s"] ∧ exclusive (tick s) = true.
Proof.
  intros Hd Hf Hr He. unfold tick, refresh_if_stale. set (s1 := set_ticks _ s).
  assert (∀ s2, fingerprints s2 = fingerprints raced →
    all_current two_games s2 ["/s"] = true) as Hcur.
  { intros s2 E. unfold all_current. rewrite E. vm_compute. reflexivity. }
  pose proof (resolve_libs_spec no_env two_games s1) as Hres.
  destruct (folders_changed two_games s1 || _).
  - destruct (resolve_libs no_env two_games s1) as [s2 ls]. destruct Hres as (-> & Hd2 & Hf2 & He2 & Hr2).
    assert (path_dedup (path_sort (listed two_games (sources no_env two_games s1))) = ["/s"]) as ->.
    { unfold sources. change (exclusive s1) with (exclusive s). change (roots s1) with (roots s).
      rewrite He, Hr. vm_compute. reflexivity. }
    rewrite Hcur by (rewrite Hf2; exact Hf). cbn [fst]. rewrite Hd2, Hf2, He2, Hr2 by exact He. split_and!; [exact Hd|exact Hf|exact Hr|exact He].
  - assert ((@hm_iter default_order _ _ _ _ (fingerprints s1)).*1 = ["/s"]) as ->.
    { change (fingerprints s1) with (fingerprints s). rewrite Hf. vm_compute. reflexivity. }
    rewrite Hcur by exact Hf. split_and!; [exact Hd|exact Hf|exact Hr|exact He].
Qed.

(** The marker that is read after the manifests can hide a game: one
    installed between the two reads of a start is not found by any number
    of refreshes, although a scan would find it, because the library
    already has the marker of the disk with that game. *)
Theorem late_marker_hides_a_game (n : nat) :
  dirs (Nat.iter n tick raced) !! "/s/steamapps/common/beta/" = None ∧
  @scanned demo_case two_games "/s" !! "/s/steamapps/common/beta/" = Some "20".
Proof.
  split; [|vm_compute; reflexivity].
  assert (dirs (Nat.iter n tick raced) = dirs raced) as ->; [|vm_compute; reflexivity].
  assert (dirs (Nat.iter n tick raced) = dirs raced ∧
    fingerprints (Nat.iter n tick raced) = fingerprints raced ∧
    roots (Nat.iter n tick raced) = ["/s"] ∧ exclusive (Nat.iter n tick raced) = true) as Hn; [|by apply Hn].
  induction n as [|n IH]; [done|]. rewrite Nat.iter_succ.
  destruct IH as (H1 & H2 & H3 & H4). exact (tick_keeps_raced _ H1 H2 H3 H4).
Qed.
