(* ===== verification/SteamCacheProps.v ===== *)
(** * Theorems on the cache of Steam libraries

    A document read back is what was saved; a start that trusts it ends
    with the same map as one that scans everything; and the file is never
    half a document. *)

From stdpp Require Import base gmap strings list list_numbers sets fin_maps sorting.
From Stdlib Require Import Ascii.
From S2P Require Import Prelude RStr Text HashMaps Json Vdf Steam StdPath SteamFs Io Update UpdateProps SteamCache SteamFsProps SteamSync.

Local Open Scope string_scope.
Local Open Scope nat_scope.
Local Open Scope list_scope.

(** ** Maps from lists of pairs *)

Lemma fold_insert_map {A} (l : list (string * A)) (m : gmap string A) :
  NoDup l.*1 → foldl (λ m kv, <[kv.1 := kv.2]> m) m l = (list_to_map l : gmap string A) ∪ m.
Proof.
  revert m. induction l as [|[k v] l IH]; intros m Hnd; simpl; [by rewrite (left_id_L ∅ (∪))|].
  apply NoDup_cons in Hnd as [Hk Hnd]. rewrite IH by done.
  rewrite <-insert_union_l, insert_union_r; [done|]. by apply not_elem_of_list_to_map_1.
Qed.

Lemma json_map_list (m : gmap string Value) l : json_map m = VObject l → l ≡ₚ map_to_list m.
Proof. intros [= <-]. apply merge_sort_Permutation. Qed.

(** ** Markers *)

Lemma file_mtime_ms_nonneg d p t : file_mtime_ms d p = Some t → (0 ≤ t)%Z.
Proof.
  unfold file_mtime_ms, checked_u64. repeat case_match; try done. intros [= <-].
  apply Z.div_pos; lia.
Qed.

Definition nonneg (f : Fingerprint) : Prop :=
  (0 ≤ dir_mtime_ms f ∧ 0 ≤ manifests f ∧ 0 ≤ newest_manifest_ms f ∧ 0 ≤ compat_mtime_ms f)%Z.

Lemma lib_fingerprint_nonneg d k f : lib_fingerprint d k = Some f → nonneg f.
Proof.
  unfold lib_fingerprint, dir_fingerprint. case_match eqn:E; [|done]. intros [= <-].
  apply file_mtime_ms_nonneg in E.
  assert (∀ l f, nonneg f → nonneg (foldl (fingerprint_entry d (join k "steamapps")) f l)) as Hf.
  { clear. intros l. induction l as [|raw l IH]; intros f Hf; [done|]. simpl. apply IH.
    destruct Hf as (? & ? & ? & ?). unfold fingerprint_entry.
    repeat case_match; unfold nonneg; simpl; repeat split; try lia. }
  apply Hf. unfold nonneg. simpl. lia.
Qed.

Lemma fingerprint_roundtrip f : nonneg f → fingerprint_from_json (fingerprint_to_json f) = Some f.
Proof.
  destruct f as [a b c e]. intros (Ha & Hb & Hc & He). simpl in *.
  unfold fingerprint_from_json, fingerprint_to_json, vnum. simpl.
  by rewrite !(proj2 (Z.leb_le _ _)) by done.
Qed.

Section Reload.
Context `{CaseTables} `{HashOrder}.
Context (libs : list string) (Hapart : apart libs = true).

(** ** Grouping by owner *)

Definition owner (paths : list string) (p : string) : option string :=
  find_first (λ lib, library_owns_prefix (from_utf8_lossy lib) p) paths.

Lemma owner_known paths k p :
  paths ⊆ libs → k ∈ paths → library_owns_prefix k p = true → owner paths p = Some k.
Proof.
  unfold owner, find_first. intros Hsub Hk Ho.
  induction paths as [|j paths IH]; [by apply elem_of_nil in Hk|]. cbn [find_map].
  rewrite (lossy_known libs Hapart) by (apply Hsub; by left).
  destruct (library_owns_prefix j p) eqn:Ej.
  - f_equal. eapply (apart_owner libs _ _ p Hapart); [apply Hsub; by left|by apply Hsub|done..].
  - apply IH; [intros x Hx; apply Hsub; by right|].
    apply elem_of_cons in Hk as [->|]; [congruence|done].
Qed.

Lemma owner_owns paths p k : owner paths p = Some k → k ∈ paths ∧ library_owns_prefix (from_utf8_lossy k) p = true.
Proof.
  unfold owner, find_first. induction paths as [|j paths IH]; cbn [find_map]; [done|].
  destruct (library_owns_prefix (from_utf8_lossy j) p) eqn:E.
  - intros [= ->]. split; [by left|done].
  - intros [? ?]%IH. split; [by right|done].
Qed.

Lemma group_fold paths (l : list (string * string)) (m : gmap string (gmap string string)) k e :
  NoDup l.*1 → m !! k = Some e →
  ∃ e', foldl (λ m kv, match owner paths kv.1 with
                       | Some lib => alter (λ entry, <[kv.1 := kv.2]> entry) lib m
                       | None => m
                       end) m l !! k = Some e' ∧
    ∀ p, e' !! p = if decide (owner paths p = Some k)
                   then or_else ((list_to_map l : gmap string string) !! p) (e !! p) else e !! p.
Proof.
  intros Hnd. revert m e. induction l as [|[q v] l IH]; intros m e Hm; simpl.
  { exists e. split; [done|]. intros p. rewrite lookup_empty. by case_decide. }
  apply NoDup_cons in Hnd as [Hq Hnd].
  destruct (decide (owner paths q = Some k)) as [Eo|Eo].
  - rewrite Eo. destruct (IH Hnd (alter (λ entry, <[q := v]> entry) k m) (<[q := v]> e)) as (e' & He' & Hl).
    { by rewrite lookup_alter_eq, Hm. }
    exists e'. split; [done|]. intros p. rewrite Hl. destruct (decide (p = q)) as [->|Hne].
    + rewrite !lookup_insert_eq, not_elem_of_list_to_map_1 by done. by case_decide.
    + by rewrite !(lookup_insert_ne _ q p) by done.
  - destruct (IH Hnd (match owner paths q with
                      | Some lib => alter (λ entry, <[q := v]> entry) lib m | None => m end) e)
      as (e' & He' & Hl).
    { destruct (owner paths q) as [j|]; [|done]. rewrite lookup_alter_ne; [done|congruence]. }
    exists e'. split; [done|]. intros p. rewrite Hl. case_decide as Ep; [|done].
    rewrite lookup_insert_ne; [done|]. by intros ->.
Qed.

Lemma empty_groups_lookup (keys : list string) k :
  k ∈ keys → (foldl (λ (m : gmap string (gmap string string)) lib, <[lib := ∅]> m) ∅ keys) !! k = Some ∅.
Proof.
  assert (∀ (m : gmap string (gmap string string)), k ∈ keys ∨ m !! k = Some ∅ →
    foldl (λ m lib, <[lib := ∅]> m) m keys !! k = Some ∅) as Hm; [|intros; by apply Hm; left].
  induction keys as [|j keys IH]; intros m; simpl; [set_solver|]. intros Hk. apply IH.
  destruct (decide (j = k)) as [->|]; [right; by rewrite lookup_insert_eq|].
  rewrite lookup_insert_ne by done. set_solver.
Qed.

Lemma empty_groups_keys (keys : list string) k :
  k ∈ dom (foldl (λ (m : gmap string (gmap string string)) lib, <[lib := ∅]> m) ∅ keys) → k ∈ keys.
Proof.
  assert (∀ (m : gmap string (gmap string string)),
    k ∈ dom (foldl (λ m lib, <[lib := ∅]> m) m keys) → k ∈ keys ∨ k ∈ dom m) as Hm.
  { induction keys as [|j keys IH]; intros m; simpl; [by right|].
    intros [?|Hin]%IH; [set_solver|]. rewrite dom_insert in Hin. set_solver. }
  intros [?|?]%Hm; [done|]. set_solver.
Qed.

(** In the saved document every known library has exactly its own scan. *)
Lemma by_library_scan d s k :
  Synced libs d s → k ∈ dom (fingerprints s) → by_library s !! k = Some (scanned d k).
Proof.
  intros Hsyn Hk. unfold by_library.
  set (keys := (hm_iter (fingerprints s)).*1). set (groups := foldl _ ∅ keys).
  set (paths := (hm_iter groups).*1).
  assert (∀ j, j ∈ keys ↔ j ∈ dom (fingerprints s)) as Hkeys.
  { intros j. unfold keys. rewrite list_elem_of_fmap, elem_of_dom. split.
    - intros ([? f] & -> & Hin%hm_iter_elem). simpl. eauto.
    - intros [f Hf]. exists (j, f). split; [done|]. by apply hm_iter_elem. }
  assert (∀ j, j ∈ paths ↔ j ∈ dom (fingerprints s)) as Hpaths.
  { intros j. rewrite <-Hkeys. unfold paths. rewrite list_elem_of_fmap. split.
    - intros ([? e] & -> & Hin%hm_iter_elem). simpl. apply (empty_groups_keys keys), elem_of_dom. eauto.
    - intros Hj. exists (j, ∅). split; [done|]. by apply hm_iter_elem, empty_groups_lookup. }
  destruct (group_fold paths (hm_iter (dirs s)) groups k ∅) as (e & He & Hl).
  { apply hm_iter_keys_NoDup. }
  { apply empty_groups_lookup. by apply Hkeys. }
  etrans; [exact He|]. f_equal. apply map_eq. intros p. rewrite Hl, lookup_empty.
  assert (paths ⊆ libs) as Hsub by (intros j Hj; by apply (syn_known _ _ _ Hsyn), Hpaths).
  assert ((list_to_map (hm_iter (dirs s)) : gmap string string) = dirs s) as ->.
  { rewrite (list_to_map_proper _ (map_to_list (dirs s))); [by rewrite list_to_map_to_list|
      apply hm_iter_keys_NoDup|apply hm_iter_perm]. }
  case_decide as Eo.
  - apply owner_owns in Eo as [Hin Ho]. rewrite (lossy_known libs Hapart) in Ho by auto.
    rewrite <-(synced_owned libs Hapart d s k) by done. by destruct (dirs s !! p).
  - symmetry. apply eq_None_not_Some. intros [id Hs]. destruct Eo.
    apply owner_known; [done|by apply Hpaths|].
    by eapply scanned_known, Hs; [|apply (syn_known _ _ _ Hsyn)].
Qed.

(** ** Reading back *)

Lemma NoDup_omap_keys {A B} (f : string * A → option (string * B)) l :
  (∀ kv kv', f kv = Some kv' → kv'.1 = kv.1) → NoDup l.*1 → NoDup (omap f l).*1.
Proof.
  intros Hf. induction l as [|[k v] l IH]; simpl; intros Hnd; [constructor|].
  apply NoDup_cons in Hnd as [Hk Hnd]. destruct (f (k, v)) as [[k' v']|] eqn:E; [|by apply IH].
  apply Hf in E as Ek. simpl in Ek. subst k'. simpl. constructor; [|by apply IH].
  intros ([k2 v2] & E2 & Hin)%list_elem_of_fmap. apply list_elem_of_omap in Hin as ([k3 v3] & Hin3 & E3).
  simpl in E2. subst k2. apply Hf in E3. simpl in E3. subst k3. apply Hk.
  apply list_elem_of_fmap. by exists (k, v3).
Qed.

Lemma cached_dirs_back k (ds : gmap string string) l :
  json_map (VString <$> ds) = VObject l → from_utf8_lossy k = k →
  (∀ p id, ds !! p = Some id → library_owns_prefix k p = true ∧ id ≠ "") →
  foldl (λ m pa, <[pa.1 := pa.2]> m) ∅ (omap (cached_dir k) l) = ds.
Proof.
  intros Hl%json_map_list Hk Hds.
  assert (NoDup (omap (cached_dir k) l).*1) as Hnd.
  { apply NoDup_omap_keys.
    - intros [q v] [p id]. unfold cached_dir. repeat case_match; try done. by intros [= <- _].
    - rewrite Hl. apply NoDup_fst_map_to_list. }
  rewrite fold_insert_map by done. rewrite (right_id_L ∅ (∪)). apply map_eq. intros p.
  apply option_eq. intros id. rewrite <-elem_of_list_to_map by done. rewrite list_elem_of_omap. split.
  - intros ([q v] & Hin & Hc). rewrite Hl, elem_of_map_to_list, lookup_fmap_Some in Hin.
    destruct Hin as (id' & <- & Hin). unfold cached_dir in Hc. simpl in Hc.
    case_match; [done|]. by injection Hc as <- <-.
  - intros Hp. exists (p, VString id). rewrite Hl, elem_of_map_to_list, lookup_fmap, Hp.
    split; [done|]. destruct (Hds p id Hp) as [Ho Hne]. unfold cached_dir. simpl.
    rewrite Hk, Ho. by destruct id.
Qed.

(** Directory entries have names. *)
Definition named (d : Disk) : Prop := ∀ p es, d_read_dir d p = Some es → "" ∉ es.

Lemma from_utf8_lossy_nonempty s : s ≠ "" → from_utf8_lossy s ≠ "".
Proof.
  destruct s as [|a s]; [done|]. intros _ E. apply (f_equal chars) in E. revert E.
  unfold from_utf8_lossy. rewrite chars_of_chars.
  change (chars (String a s)) with (a :: chars s). cbn [lossy_l].
  destruct (utf8_piece (map code (a :: chars s))) as [n ok] eqn:Ep.
  destruct ok; [|done]. destruct n; [|done]. exfalso. revert Ep.
  cbn [map utf8_piece]. repeat case_match; discriminate.
Qed.

Lemma manifest_ids_nonempty m id inst : manifest_ids m = Some (id, inst) → id ≠ "".
Proof.
  unfold manifest_ids. destruct (vget "AppState" m) as [[|state]|]; try done.
  destruct (trimmed_field "appid" state) as [appid|] eqn:E; [|done]. case_match; [|done].
  intros [= <- _]. revert E. unfold trimmed_field. destruct (vget "appid" state) as [[v|]|]; try done.
  destruct (str_empty (trim v)) eqn:Es; [done|]. intros [= <-] Ee. by rewrite Ee in Es.
Qed.

Lemma scanned_ids d k p id : named d → scanned d k !! p = Some id → id ≠ "".
Proof.
  intros Hn. unfold scanned, scan_library_into. case_match eqn:E; [|by rewrite lookup_empty].
  assert ("" ∉ take MAX_SCAN_ENTRIES l) as Hl.
  { intros Hin. apply (Hn _ _ E). rewrite <-(take_drop MAX_SCAN_ENTRIES l). set_solver. }
  revert Hl. generalize (take MAX_SCAN_ENTRIES l). clear. intros l Hl.
  induction l as [|raw l IH]; simpl; [by rewrite lookup_empty|].
  rewrite scan_fold_union, lookup_union_Some_raw. intros [Hp|[_ Hp]]; [|apply IH; set_solver].
  revert Hp. unfold scan_entry. repeat case_match; rewrite ?lookup_empty; try done;
    rewrite or_insert_union, (left_id_L ∅ (∪)), lookup_singleton_Some; intros [_ <-].
  - apply from_utf8_lossy_nonempty. set_solver.
  - eapply manifest_ids_nonempty. eassumption.
Qed.

Lemma load_library_back cached k ds f :
  from_utf8_lossy k = k → nonneg f →
  (∀ p id, ds !! p = Some id → library_owns_prefix k p = true ∧ id ≠ "") →
  load_library cached (k, library_doc ds f) =
  <[k := {| cl_fingerprint := f; cl_dirs := ds |}]> cached.
Proof.
  intros Hk Hf Hds. unfold load_library, library_doc. cbn -[json_map fingerprint_to_json].
  rewrite fingerprint_roundtrip by done.
  destruct (json_map (VString <$> ds)) as [| | | | |l] eqn:El; try discriminate. simpl.
  by rewrite (cached_dirs_back k ds).
Qed.

Lemma fold_load l cached :
  (∀ k v, (k, v) ∈ l → ∃ ds f, v = library_doc ds f ∧ from_utf8_lossy k = k ∧ nonneg f ∧
     ∀ p id, ds !! p = Some id → library_owns_prefix k p = true ∧ id ≠ "") →
  NoDup l.*1 →
  ∀ k, foldl load_library cached l !! k =
    match (list_to_map l : gmap string Value) !! k with
    | Some v => load_library ∅ (k, v) !! k
    | None => cached !! k
    end.
Proof.
  revert cached. induction l as [|[j v] l IH]; intros cached Hl Hnd k; simpl; [by rewrite lookup_empty|].
  apply NoDup_cons in Hnd as [Hj Hnd]. rewrite IH; [|intros ? ? Hin; apply Hl; by right|done].
  destruct (Hl j v) as (ds & f & -> & ? & ? & ?); [by left|].
  destruct (decide (j = k)) as [->|Hne].
  - rewrite not_elem_of_list_to_map_1, lookup_insert_eq by done.
    rewrite !load_library_back by done. by rewrite !lookup_insert_eq.
  - rewrite lookup_insert_ne by done. case_match; [done|].
    rewrite load_library_back by done. by rewrite lookup_insert_ne.
Qed.

(** Reading the saved document back gives every known library its marker
    and the scan of the disk it was synchronized with. *)
Lemma load_doc_cache_doc d s :
  Synced libs d s → named d →
  load_doc (cache_doc s) =
  map_imap (λ k f, Some {| cl_fingerprint := f; cl_dirs := scanned d k |}) (fingerprints s).
Proof.
  intros Hsyn Hn. set (docs := map_imap (λ lib f, Some (library_doc (default ∅ (by_library s !! lib)) f))
    (fingerprints s)).
  assert (∀ k v, docs !! k = Some v → ∃ f, fingerprints s !! k = Some f ∧ v = library_doc (scanned d k) f)
    as Hdocs.
  { intros k v. unfold docs. rewrite map_lookup_imap. destruct (fingerprints s !! k) as [f|] eqn:Ef; [|done].
    simpl. rewrite (by_library_scan d) by (done || (apply elem_of_dom; eauto)). intros [= <-]. eauto. }
  assert (∀ k f, fingerprints s !! k = Some f → from_utf8_lossy k = k ∧ nonneg f ∧
    ∀ p id, scanned d k !! p = Some id → library_owns_prefix k p = true ∧ id ≠ "") as Hok.
  { intros k f Hf. assert (k ∈ libs) by (apply (syn_known _ _ _ Hsyn), elem_of_dom; eauto).
    split_and!; [by apply (lossy_known libs Hapart)|by eapply lib_fingerprint_nonneg, (syn_markers _ _ _ Hsyn)|].
    intros p id Hp. split; [by eapply (scanned_known libs Hapart)|by eapply scanned_ids]. }
  destruct (json_map docs) as [| | | | |l] eqn:El; try discriminate.
  assert (load_doc (cache_doc s) = foldl load_library ∅ l) as ->.
  { unfold load_doc, cache_doc. fold docs. rewrite El. reflexivity. }
  apply json_map_list in El. apply map_eq. intros k. rewrite fold_load; last first.
  { rewrite El. apply NoDup_fst_map_to_list. }
  { intros j v. rewrite El, elem_of_map_to_list. intros (f & Hf & ->)%Hdocs.
    destruct (Hok j f Hf) as (? & ? & ?). by eexists _, f. }
  rewrite (list_to_map_proper l (map_to_list docs)) by (done || (rewrite El; apply NoDup_fst_map_to_list)).
  rewrite list_to_map_to_list, map_lookup_imap.
  destruct (docs !! k) as [v|] eqn:Ek.
  - apply Hdocs in Ek as (f & Hf & ->). destruct (Hok k f Hf) as (? & ? & ?).
    rewrite load_library_back, lookup_insert_eq, Hf by done. done.
  - rewrite lookup_empty. unfold docs in Ek. rewrite map_lookup_imap in Ek.
    by destruct (fingerprints s !! k).
Qed.

(** ** Discovery with a cache *)

(** What a cache may be trusted for: an entry that still has its marker
    holds the scan of its library. *)
Definition honest (d : Disk) (cached : gmap string CachedLibrary) : Prop :=
  ∀ k e, k ∈ libs → cached !! k = Some e → lib_fingerprint d k = Some (cl_fingerprint e) →
    cl_dirs e = scanned d k.

Lemma or_insert_fold (l : list (string * string)) m :
  NoDup l.*1 → foldl (λ m kv, or_insert kv.1 kv.2 m) m l = m ∪ list_to_map l.
Proof.
  revert m. induction l as [|[k v] l IH]; intros m Hnd; simpl; [by rewrite (right_id_L ∅ (∪))|].
  apply NoDup_cons in Hnd as [Hk Hnd]. rewrite IH, or_insert_union by done.
  rewrite <-(assoc_L (∪)). f_equal. by rewrite <-insert_union_singleton_l.
Qed.

Lemma discover_lib_scan d cached s k :
  honest d cached → k ∈ libs → discover_lib d cached s k = discover_lib d ∅ s k.
Proof.
  intros Hh Hk. unfold discover_lib. rewrite (lossy_known libs Hapart), lookup_empty by done.
  destruct (fingerprints s !! k); [done|].
  destruct (lib_fingerprint d k) as [f|] eqn:Ef; [|done].
  destruct (cached !! k) as [e|] eqn:Ee; [|done]. case_bool_decide as Eq; [|done].
  subst f. unfold scan_library. rewrite (lossy_known libs Hapart), Ef by done.
  rewrite or_insert_fold by apply hm_iter_keys_NoDup.
  rewrite (list_to_map_proper (hm_iter (cl_dirs e)) (map_to_list (cl_dirs e)))
    by (apply hm_iter_keys_NoDup || apply hm_iter_perm).
  by rewrite list_to_map_to_list, (Hh k e Hk Ee Ef), scan_library_into_union.
Qed.

Lemma discover_with_scan env d cached :
  honest d cached → listed d (collect_roots env d) ⊆ libs →
  discover_with cached env d = discover_with ∅ env d.
Proof.
  intros Hh Hsub. unfold discover_with. set (s := Build_SteamLibraries _ _ _ _ _ _ _). clearbody s.
  revert s Hsub. induction (collect_roots env d) as [|r rs IH]; intros s Hsub; [done|]. simpl.
  change (listed d (r :: rs)) with ((root_libraries d r).1 ++ listed d rs) in Hsub.
  assert (discover_root d cached s r = discover_root d ∅ s r) as ->; [|apply IH; set_solver].
  unfold discover_root. destruct (root_libraries d r) as [ls file]. simpl in Hsub.
  generalize (watch_file d file s). clear s. induction ls as [|k ls IHl]; intros s; [done|]. simpl.
  rewrite discover_lib_scan by set_solver. apply IHl. set_solver.
Qed.

Lemma discover_synced env d :
  markers_readable libs d → listed d (collect_roots env d) ⊆ libs →
  Synced libs d (discover_with ∅ env d).
Proof.
  intros Hr Hsub. unfold discover_with. set (s := Build_SteamLibraries _ _ _ _ _ _ _).
  assert (Synced libs d s) as Hs.
  { constructor; simpl; [set_solver|intros ??; by rewrite lookup_empty|].
    intros ??. rewrite lookup_empty. set_solver. }
  clearbody s. revert s Hs Hsub.
  induction (collect_roots env d) as [|r rs IH]; intros s Hs Hsub; [done|]. simpl.
  change (listed d (r :: rs)) with ((root_libraries d r).1 ++ listed d rs) in Hsub.
  apply IH; [|set_solver]. unfold discover_root.
  destruct (root_libraries d r) as [ls file]. simpl in Hsub.
  assert (Synced libs d (watch_file d file s)) as Hw.
  { destruct (watch_file_maps d file s) as (Ed & Ef & _). destruct Hs.
    constructor; rewrite ?Ed, ?Ef; done. }
  revert Hw. generalize (watch_file d file s). clear s Hs.
  induction ls as [|k ls IHl]; intros s Hs; [done|]. simpl.
  apply IHl; [set_solver|]. unfold discover_lib.
  rewrite (lossy_known libs Hapart), lookup_empty by set_solver.
  destruct (fingerprints s !! k) eqn:Ek; [done|].
  assert (Synced libs d (scan_library d d k s)); [|by destruct (lib_fingerprint d k)].
  apply scan_library_synced; [done..|set_solver|by apply not_elem_of_dom].
Qed.

Context `{Serde}.

(** C22: A daemon that saved its cache while its map was in step with the
    disk and starts again later, on a disk that may have changed, finds in
    every respect what a start without a cache finds, and its map is the
    complete scan of the disk as it is now: of the cache only what still
    has its marker is used.  This rests on the markers: a library whose
    marker did not move must scan as it did when it was saved
    ([markers_tell]; an edit in place that leaves the directory times alone
    breaks this and is not seen), a library without a readable marker has
    no readable [steamapps] either, no directory lists an entry without a
    name, the libraries the new disk lists are among [libs], none of which
    owns a directory of another ([apart]), and the file holds what was
    saved. *)
Theorem restart_is_a_full_scan env d d' s body path :
  Synced libs d s → named d →
  json_to_string (cache_doc s) = Some body → json_from_str body = Some (cache_doc s) →
  cache_path env = Some path → read_limited d' path MAX_FOLDERS_BYTES = Some body →
  markers_tell libs d d' → markers_readable libs d' →
  listed d' (collect_roots env d') ⊆ libs →
  discover env d' = discover_with ∅ env d' ∧ Synced libs d' (discover env d').
Proof.
  intros Hs Hn _ Hparse Hpath Hread Htell Hr Hsub.
  assert (discover env d' = discover_with ∅ env d') as E; [|rewrite E; auto using discover_synced].
  apply discover_with_scan; [|done].
  unfold load_cache, load_cache_from. rewrite Hpath, Hread. simpl. rewrite Hparse.
  rewrite (load_doc_cache_doc d) by done. intros k e Hk. rewrite map_lookup_imap.
  destruct (fingerprints s !! k) as [f|] eqn:Ef; [|done]. simpl. intros [= <-]. simpl.
  intros Hl. symmetry. exact (Htell k f Hk (syn_markers _ _ _ Hs _ _ Ef) Hl).
Qed.
End Reload.

(** A disk with one more file. *)
Definition with_file (file body : string) (d : Disk) : Disk :=
  {| d_modified := d_modified d;
     d_len := λ p, if String.eqb p file then Some (str_len body) else d_len d p;
     d_read := λ p, if String.eqb p file then Some body else d_read d p;
     d_is_dir := d_is_dir d; d_is_file := d_is_file d; d_read_dir := d_read_dir d;
     d_canonicalize := d_canonicalize d; d_read_link := d_read_link d |}.

Definition steam_env : Env := λ k,
  if String.eqb k "XDG_CACHE_HOME" then Some "/c"
  else if String.eqb k "RSRPC_STEAM_ROOT" then Some "/s" else None.

Definition saved_doc : Value := @cache_doc demo_case default_order (@from_root demo_case one_game "/s").

(** A printer, and a reader that knows one document. *)
Definition saved_serde : Serde := {|
  json_to_string := λ v, Some (demo_print v);
  json_from_str := λ t, if String.eqb t (demo_print saved_doc) then Some saved_doc else None;
  msgpack_to_vec := λ v, Some (demo_print v)
|}.

Lemma restart_is_a_full_scan_witness :
  let d' := with_file "/c/rsrpc/steam-libraries.json" (demo_print saved_doc) two_games in
  dirs (@discover demo_case saved_serde default_order steam_env d') =
  dirs (@discover_with demo_case default_order ∅ steam_env d').
Proof.
  intros d'.
  assert (@apart demo_case ["/s"] = true) as Hap by (vm_compute; reflexivity).
  apply (f_equal dirs).
  eapply (proj1 (A := _) (B := @Synced demo_case ["/s"] d' _)).
  eapply (@restart_is_a_full_scan demo_case default_order ["/s"] Hap saved_serde steam_env
    one_game d' (@from_root demo_case one_game "/s") (demo_print saved_doc)
    "/c/rsrpc/steam-libraries.json").
  - apply from_root_synced; [exact Hap| |vm_compute; intros k Hk; exact Hk].
    intros k ->%list_elem_of_singleton. vm_compute. discriminate.
  - intros p es. unfold one_game, demo_disk. cbn [d_read_dir]. case_match; [|discriminate].
    intros [= <-] Hin%list_elem_of_singleton. discriminate Hin.
  - reflexivity.
  - vm_compute. reflexivity.
  - reflexivity.
  - vm_compute. reflexivity.
  - intros k f ->%list_elem_of_singleton E1 E2. exfalso. rewrite <-E1 in E2. vm_compute in E2. discriminate.
  - intros k ->%list_elem_of_singleton. vm_compute. discriminate.
  - vm_compute. intros k Hk. exact Hk.
Defined.

(** ** Replacing the file *)

(** The cache file is never half a document: wherever a save is cut, the
    file is the one before or holds the whole new document, and no other
    file than the temporary has changed. *)
Theorem save_cache_atomic `{CaseTables, Serde, HashOrder} (dir : Path) (s : SteamLibraries)
    (fs fs' : FS) :
  let path := dir ++ ["steam-libraries.json"] in
  cut (save_cache (Some path) s) fs fs' →
  same_but [dir ++ ["steam-libraries.json.tmp"]; path] fs fs' ∧
  (fs' !! path = fs !! path ∨
   ∃ f, fs' !! path = Some f ∧ json_to_string (cache_doc s) = Some (f_content f)).
Proof.
  intros path. unfold save_cache.
  destruct (json_to_string (cache_doc s)) as [body|] eqn:Eb; [|by inversion 1; subst; auto using same_refl].
  set (tmp := dir ++ ["steam-libraries.json.tmp"]).
  assert (tmp ≠ path) as Hne.
  { unfold tmp, path. intros E. apply app_inj_1 in E as [_ E]; [discriminate E|done]. }
  set (I := λ fs', same_but [tmp; path] fs fs' ∧
    (fs' !! path = fs !! path ∨ ∃ f, fs' !! path = Some f ∧ Some body = Some (f_content f))).
  assert (∀ fs1 f, I fs1 → I (<[tmp := f]> fs1)) as Htmp.
  { intros fs1 f [Hs Hp]. split; [apply same_insert; set_solver|]. by rewrite lookup_insert_ne. }
  assert (∀ fs1 part fs2, I fs1 → torn fs1 tmp part fs2 → I fs2) as Htorn.
  { intros fs1 part fs2 HI (? & ? & _ & ->). by apply Htmp. }
  assert (wp I (replace_cache path body) (λ _ _, True) fs) as Hwp; [|by intros Hc; exact (wp_cut _ _ _ _ _ Hwp Hc)].
  assert (I fs) as HI by (split; auto using same_refl).
  unfold replace_cache. replace (with_extension "json.tmp" path) with tmp
    by (unfold path, tmp; by rewrite with_extension_snoc).
  apply wp_bind. assert (∀ made, wp I (if negb made then Ret () else
    bind (act (WriteFile tmp body)) (λ ok, if ok : bool then bind (act (Rename tmp path)) (λ _, Ret ())
                                           else Ret ())) (λ _ _, True) fs) as Hrest.
  { intros []; [|done]. split; [done|]. split; [intros ?; by apply Htorn|].
    intros [] fs1; [|by intros [->|Ht]; (split; [eauto|done])]. intros ->.
    split; [by apply Htmp|]. split; [done|]. intros r fs2 Ho.
    assert (I fs2); [|done]. destruct r; [|simpl in Ho; subst fs2; by apply Htmp..].
    destruct Ho as (f & Hf & ->). rewrite lookup_insert_eq in Hf. injection Hf as <-.
    split; [|right; rewrite lookup_insert_eq; by eexists].
    apply same_insert, same_delete; [set_solver..|]. apply same_insert; [set_solver|apply same_refl]. }
  destruct (Update.parent path); [|split; [done|apply Hrest]].
  apply wp_quiet; [by intros r fs1 ->|by intros fs1 []|done|]. intros r _. split; [done|]. apply Hrest.
Qed.

Lemma save_cache_atomic_witness :
  let dir := ["c"] in
  same_but [dir ++ ["steam-libraries.json.tmp"]; dir ++ ["steam-libraries.json"]] ∅
    (<[["c"; "steam-libraries.json.tmp"] := {| f_content := "{"; f_executable := false |}]> ∅).
Proof.
  refine (proj1 (@save_cache_atomic demo_case demo_serde default_order ["c"] SteamLibraries_default ∅ _ _)).
  eapply (cut_later (CreateDirAll ["c"]) _ true); [reflexivity|].
  apply cut_halfway. eexists "{", _. split; reflexivity.
Defined.
