(* ===== verification/Daemon.v ===== *)
(** * The daemon (crates/rsrpc-core: daemon.rs, config.rs; crates/rsrpc-detect: proc_start.rs)

    The configuration and what it hands to the transports and the bridge,
    the thread that carries scanner events to the bridge, and the life of a
    run: which parts start, in which order they stop, whatever fails.  The
    outcome of binding a part is an argument. *)

From stdpp Require Import base gmap strings list list_numbers sets.
From Stdlib Require Import Ascii.
From S2P Require Import Prelude RStr Text HashMaps Json Ids Handoff Consumers Bridge Bundle Runtime StdPath SteamFs.

Local Open Scope string_scope.
Local Open Scope nat_scope.
Local Open Scope list_scope.

(** ** Process start times *)

(** [stat_starttime_ticks]: field 22, counted after the last parenthesis. *)
Definition stat_starttime_ticks (stat : string) : option Z :=
  match rsplit_once_l ")"%char (chars stat) with
  | None => None
  | Some (before, after) =>
      if negb (bool_decide ("("%char ∈ before)) then None
      else words white_space after !! 19 ≫= λ field, parse_u64 (of_chars field)
  end.

(** [start_ms_from_ticks]. *)
Definition start_ms_from_ticks (boot_ms ticks clk_tck : Z) : Z :=
  sat_u64_add boot_ms (sat_u64_mul ticks 1000 / Z.max clk_tck 1).

(** The boot time of [/proc/stat]. *)
Definition boot_ms_of (stat : string) : option Z :=
  match find_map (λ line, strip_prefix "btime " (of_chars line) ≫= λ secs, parse_u64 (trim secs))
          (lines stat) with
  | Some secs => Some (sat_u64_mul secs 1000)
  | None => None
  end.

(** [read_to_string]. *)
Definition read_text (d : Disk) (p : string) : option string :=
  match d_read d p with Some s => if is_utf8 s then Some s else None | None => None end.

(** [process_start_ms]; [sysconf] is what the clock query answers. *)
Definition process_start_ms (d : Disk) (sysconf : Z) (pid : Z) : option Z :=
  match read_text d "/proc/stat" ≫= boot_ms_of with
  | None => None
  | Some boot_ms =>
      let clk_tck := Z.max (if (0 <=? sysconf)%Z then sysconf else 100) 1 in
      match read_text d ("/proc/" +:+ u64_to_string pid +:+ "/stat") ≫= stat_starttime_ticks with
      | Some ticks => Some (start_ms_from_ticks boot_ms ticks clk_tck)
      | None => None
      end
  end.

(** ** From the scanner to the bridge *)

(** The body of the pump thread. *)
Definition pump_input (start_ms : Z → option Z) (ev : ProcessDetectedEvent) : ProcInput :=
  match ev with
  | EvDetected hit =>
      Detected {| sg_id := se_id (hit_entry hit); sg_name := se_name (hit_entry hit);
                  sg_pid := hit_pid hit; sg_start := hit_start hit; sg_source := hit_source hit;
                  sg_process_start_ms := start_ms (hit_pid hit) |}
  | EvCleared => Cleared
  | EvRemoved id pid => Removed id pid
  end.

Section Feed.
Context `{Serde, HashOrder}.

(** The bridge's process pump on a stretch of forwarded events; [envs] is
    its environment at each. *)
Definition feed_one (start_ms : Z → option Z) (st : bool * Shared)
    (ev : Bridge.Env * ProcessDetectedEvent) : bool * Shared :=
  let '(had_games, _, s) := proc_step ev.1 (pump_input start_ms ev.2) st.1 st.2 in (had_games, s).

Definition feed (start_ms : Z → option Z) (evs : list (Bridge.Env * ProcessDetectedEvent))
    (st : bool * Shared) : bool * Shared :=
  foldl (feed_one start_ms) st evs.
End Feed.

(** ** Configuration *)

Record RPCConfig := {
  enable_process_scanner : bool;
  enable_proc_events : bool;
  enable_ipc_connector : bool;
  enable_websocket_connector : bool;
  enable_secondary_events : bool;
  cfg_port : Z;
  bridge_port_end : Z;
  cfg_msgpack_port : Z;
  ws_port_start : Z;
  ws_port_end : Z;
  scan_interval_secs : Z;
  db_url : option string;
  enable_db_update : bool;
  initial_db_etag : option string;
  initial_db_content_hash : option (Z * Z);
  ignored_ids : list string;
  exclusions_url : option string;
  cfg_app_version : string;
  cfg_state_file : bool;
  bridge_allowed_origins : list string
}.

(** [RPCConfig::default]; [version] is the crate's. *)
Definition RPCConfig_default (version : string) : RPCConfig := {|
  enable_process_scanner := true; enable_proc_events := true; enable_ipc_connector := true;
  enable_websocket_connector := true; enable_secondary_events := true;
  cfg_port := 1337; bridge_port_end := 1347; cfg_msgpack_port := 1338;
  ws_port_start := 6463; ws_port_end := 6472; scan_interval_secs := 5; db_url := None;
  enable_db_update := false; initial_db_etag := None; initial_db_content_hash := None;
  ignored_ids := []; exclusions_url := None; cfg_app_version := version;
  cfg_state_file := false; bridge_allowed_origins := []
|}.

(** ** The life of a run *)

Inductive Part := Scanner | IpcPart | WsPart | BridgePart.

#[global] Instance Part_eq_dec : EqDecision Part.
Proof. solve_decision. Defined.

(** What happens: a part starts; a part is shut down and waited for; a part
    is dropped on the way out of a failed bind; everything serves. *)
Inductive LifeEvent := Started (p : Part) | ShutDown (p : Part) | Dropped (p : Part) | Serving.

Inductive RunResult := RunOk | RunInvalidConfig | RunBindFailed (p : Part).

(** [serve]: binds in order, serves, stops in reverse; a failed bind drops
    what is bound, last first.  [binds] says which binds succeed. *)
Definition serve (config : RPCConfig) (binds : Part → bool) : list LifeEvent * RunResult :=
  let ipc := enable_ipc_connector config in
  let ws := enable_websocket_connector config || enable_secondary_events config in
  let up_ipc := if ipc then [Started IpcPart] else [] in
  let up_ws := if ws then [Started WsPart] else [] in
  let drop_ipc := if ipc then [Dropped IpcPart] else [] in
  let drop_ws := if ws then [Dropped WsPart] else [] in
  if ipc && negb (binds IpcPart) then ([], RunBindFailed IpcPart)
  else if ws && negb (binds WsPart) then (up_ipc ++ drop_ipc, RunBindFailed WsPart)
  else if negb (binds BridgePart) then
    (up_ipc ++ up_ws ++ drop_ws ++ drop_ipc, RunBindFailed BridgePart)
  else
    (up_ipc ++ up_ws ++ [Started BridgePart; Serving; ShutDown BridgePart] ++
     (if ws then [ShutDown WsPart] else []) ++ (if ipc then [ShutDown IpcPart] else []), RunOk).

(** [run_until]: the scanner first, its teardown last, on every path. *)
Definition run_until (config : RPCConfig) (binds : Part → bool) : list LifeEvent * RunResult :=
  if enable_process_scanner config && (scan_interval_secs config =? 0)%Z
  then ([], RunInvalidConfig)
  else
    let up := if enable_process_scanner config then [Started Scanner] else [] in
    let down := if enable_process_scanner config then [ShutDown Scanner] else [] in
    let '(served, result) := serve config binds in
    (up ++ served ++ down, result).

(** ** A run leaves nothing behind *)

(** The parts running after an event, the youngest first; only the youngest
    may stop. *)
Definition life_step (up : option (list Part)) (ev : LifeEvent) : option (list Part) :=
  match up, ev with
  | Some up, Started p => Some (p :: up)
  | Some (q :: up), ShutDown p => if decide (p = q) then Some up else None
  | Some (q :: up), Dropped p => if decide (p = q) then Some up else None
  | Some up, Serving => Some up
  | _, _ => None
  end.

Definition life (evs : list LifeEvent) : option (list Part) := foldl life_step (Some []) evs.

(** Whatever is enabled and whichever bind fails, a run ends with nothing
    running: every part that started has stopped, in the reverse order of
    the starts, so the scanner, the first to start, is the last to go; a
    run serves exactly when it ends well, and no part is abandoned by a
    drop in a run that served. *)
Theorem run_until_leaves_nothing (config : RPCConfig) (binds : Part → bool) :
  let '(evs, result) := run_until config binds in
  life evs = Some [] ∧
  (result = RunOk ↔ Serving ∈ evs) ∧
  (result = RunOk → ∀ p, Dropped p ∉ evs) ∧
  (result = RunOk → ∀ p, Started p ∈ evs ↔ ShutDown p ∈ evs).
Proof.
  unfold run_until, serve, life.
  destruct (enable_process_scanner config), (scan_interval_secs config =? 0)%Z,
    (enable_ipc_connector config), (enable_websocket_connector config || enable_secondary_events config),
    (binds IpcPart), (binds WsPart), (binds BridgePart); simpl;
    (split_and!; [reflexivity|set_solver|set_solver|
      let p := fresh in intros ? p; destruct p; set_solver]).
Qed.
