(* ===== verification/DaemonProps.v ===== *)
(** * The scanner's table reaches the bridge

    The composition of the scan loop, its event channel, the pump thread and
    the bridge's process pump: what the bridge has published for games is
    what the scanner recorded, except for the slots an SDK connection owns. *)

From stdpp Require Import base gmap strings list list_numbers sets.
From Stdlib Require Import Ascii.
From S2P Require Import Prelude RStr Text HashMaps Json Ids Handoff Consumers Bridge BridgeProps Bundle Runtime RuntimeProps StdPath SteamFs Daemon.

Local Open Scope string_scope.
Local Open Scope nat_scope.
Local Open Scope list_scope.

(** ** Start times *)

Lemma rsplit_last front after :
  ")"%char ∉ after → rsplit_once_l ")"%char (front ++ ")"%char :: after) = Some (front, after).
Proof.
  intros Hno%rsplit_once_l_None. induction front as [|c front IH]; simpl; [by rewrite Hno|].
  by rewrite IH.
Qed.

(** The name of a process cannot spoil its start time: whatever text,
    spaces and parentheses included, the kernel prints as the name in a stat
    line, the start time read is the twentieth field behind it. *)
Theorem starttime_survives_comm (pid comm : string) (fields : list (list ascii)) :
  Forall (λ f, words white_space f = [f] ∧ ")"%char ∉ f) fields →
  stat_starttime_ticks (of_chars (chars pid ++ chars " (" ++ chars comm ++ chars ") " ++
    join_l [" "%char] fields)) =
  fields !! 19 ≫= λ f, parse_u64 (of_chars f).
Proof.
  intros Hf. unfold stat_starttime_ticks. rewrite chars_of_chars.
  set (after := " "%char :: join_l [" "%char] fields).
  assert (")"%char ∉ after) as Hno.
  { unfold after. apply not_elem_of_cons. split; [done|]. clear after.
    induction Hf as [|f fields [_ Hf] Hfs IH]; simpl; [set_solver|].
    destruct fields; [done|]. rewrite !elem_of_app. set_solver. }
  pose proof (λ front, rsplit_last front after Hno) as Hsplit.
  replace (chars pid ++ chars " (" ++ chars comm ++ chars ") " ++ join_l [" "%char] fields)
    with ((chars pid ++ chars " (" ++ chars comm) ++ ")"%char :: after)
    by (unfold after; simpl; by rewrite <-!app_assoc).
  rewrite Hsplit, bool_decide_true by set_solver. simpl.
  assert (words white_space after = fields) as ->; [|done].
  unfold after. change (" "%char :: join_l [" "%char] fields) with ([] ++ [" "%char] ++ join_l [" "%char] fields).
  assert ([" "%char] ∈ white_space) as Hsp by (apply list_elem_of_In; vm_compute; tauto).
  rewrite words_app_sep, words_join by (done || apply white_space_ok). rewrite words_nil.
  clear -Hf. induction Hf as [|f fields [Hw _] _ IH]; [done|].
  rewrite fmap_cons. simpl. rewrite Hw. simpl in IH |- *. by rewrite IH.
Qed.

Lemma starttime_survives_comm_witness :
  stat_starttime_ticks ("7 (a) b (c) S 1 1 1 0 -1 4 0 0 0 0 0 0 0 0 20 0 1 0 123456 9") = Some 123456%Z.
Proof.
  pose proof (starttime_survives_comm "7" "a) b (c"
    (map chars ["S"; "1"; "1"; "1"; "0"; "-1"; "4"; "0"; "0"; "0"; "0"; "0"; "0"; "0"; "0"; "20"; "0"; "1";
                "0"; "123456"; "9"])) as Hw.
  etrans; [|etrans; [apply Hw|vm_compute; reflexivity]]; [vm_compute; reflexivity|].
  repeat constructor; try (vm_compute; reflexivity); intros Hin%list_elem_of_In; vm_compute in Hin;
    repeat destruct Hin as [Hin|Hin]; discriminate || contradiction.
Defined.

(** ** The tables of the bridge under the process pump *)

Section Compose.
Context `{Serde, HashOrder} (HT : SerdeTotal).

Lemma clear_tables pid sid s :
  sh_last_process (broadcast_clear pid sid s) = sh_last_process s ∧
  sh_handoff (broadcast_clear pid sid s) = sh_handoff s.
Proof. pose proof (broadcast_clear_core pid sid s HT) as (_ & -> & -> & _)%core_fields. done. Qed.

Lemma on_detected_tables env game s :
  let s' := on_detected env game s in
  sh_last_process s' =
    match owner_of (sh_handoff s) (sg_id game) with
    | Some _ => delete (sg_id game) (sh_last_process s)
    | None => if is_some (sh_last_process s !! sg_id game) then sh_last_process s
              else track_process_publication (env_probe env) (sh_last_process s) (sg_id game) (sg_pid game)
    end ∧
  live_ipc (sh_handoff s') = live_ipc (sh_handoff s).
Proof.
  cbv zeta. unfold on_detected. set (s1 := set_handoff _ s).
  change (owner_of (sh_handoff s1) (sg_id game)) with (owner_of (sh_handoff s) (sg_id game)).
  change (sh_last_process s1) with (sh_last_process s).
  destruct (owner_of (sh_handoff s) (sg_id game)).
  - destruct (sh_last_process s !! sg_id game); [|done].
    destruct (clear_tables z0 (SocketId_from_AppId (sg_id game))
      (set_last_process (delete (sg_id game) (sh_last_process s)) s1)) as [-> ->]. done.
  - destruct (is_some _); [done|].
    destruct (generic_payload_total (env_now_ms env) game HT) as (p & Hp & _).
    pose proof (resume_generic_core env s1 game p Hp) as (_ & -> & -> & _)%core_fields.
    match goal with |- context [cache_activity p _ ?t] =>
      destruct (cache_activity_tables p (sg_id game) t) as [-> ->] end. done.
Qed.

Lemma on_removed_tables env app pid s :
  let s' := on_removed env app pid s in
  sh_last_process s' = (take_matching_process (sh_last_process s) app pid).1 ∧
  live_ipc (sh_handoff s') = live_ipc (sh_handoff s).
Proof.
  cbv zeta. unfold on_removed. set (s1 := set_handoff _ s).
  change (sh_last_process s1) with (sh_last_process s).
  assert (live_ipc (sh_handoff s1) = live_ipc (sh_handoff s)) as Hl.
  { unfold s1, note_remove. simpl. by destruct (opt_any _ _). }
  destruct (take_matching_process _ _ _) as [lp [q|]]; [|done].
  destruct (clear_tables q (SocketId_from_AppId app) (set_last_process lp s1)) as [-> ->]. done.
Qed.

Lemma fold_clear_tables {A} (pid : A → Z) (sid : A → SocketId) l s :
  sh_last_process (foldl (λ s a, broadcast_clear (pid a) (sid a) s) s l) = sh_last_process s ∧
  sh_handoff (foldl (λ s a, broadcast_clear (pid a) (sid a) s) s l) = sh_handoff s.
Proof. pose proof (foldl_clear_core pid sid l s HT) as (_ & -> & -> & _)%core_fields. done. Qed.

Lemma on_cleared_tables env s :
  sh_last_process (on_cleared env s) = ∅ ∧
  live_ipc (sh_handoff (on_cleared env s)) = live_ipc (sh_handoff s).
Proof.
  unfold on_cleared. set (s1 := set_handoff _ s). destruct (take_process_clear s1) as [s2 out] eqn:E.
  injection E as <- _.
  match goal with |- context [foldl ?f ?t (ghosts env ?c)] =>
    destruct (fold_clear_tables (λ g : SocketId * Z, g.2) (λ g, g.1) (ghosts env c) t) as [-> ->] end.
  destruct (fold_clear_tables (λ pa : Z * AppId, pa.1) (λ pa, SocketId_from_AppId pa.2) out
    (set_last_process ∅ s1)) as [-> ->]. done.
Qed.

(** ** Simulation *)

(** The bridge shows what the events say, where no SDK connection owns the
    slot, and never anything else. *)
Definition mirrors (s : Shared) (v : cards) : Prop :=
  sh_last_process s ⊆ v ∧
  ∀ app, owner_of (sh_handoff s) app = None → sh_last_process s !! app = v !! app.

(** The ids an event brings in. *)
Definition event_ids (ev : ProcessDetectedEvent) : gset string :=
  match ev with EvDetected hit => {[se_id (hit_entry hit)]} | _ => ∅ end.

Lemma apply_event_dom v ev : dom (apply_event v ev) ⊆ dom v ∪ event_ids ev.
Proof.
  destruct ev as [h| |id pid]; simpl.
  - destruct (is_some _); [set_solver|]. rewrite dom_insert. set_solver.
  - set_solver.
  - unfold take_matching_process. destruct (opt_any _ _); simpl; [rewrite dom_delete|]; set_solver.
Qed.

Lemma feed_one_mirrors start_ms (ids : gset string) v had s ev :
  size ids ≤ MAX_HANDOFF_ENTRIES → dom v ∪ event_ids ev.2 ⊆ ids →
  mirrors s v →
  let s' := (feed_one start_ms (had, s) ev).2 in
  mirrors s' (apply_event v ev.2) ∧ live_ipc (sh_handoff s') = live_ipc (sh_handoff s).
Proof.
  intros Hsz Hids [Hsub Heq]. destruct ev as [env [h| |id pid]]; unfold feed_one; simpl.
  - set (game := Build_ScannedGame _ _ _ _ _ _).
    destruct (on_detected_tables env game s) as [Hlp Hlive]. split; [|done].
    unfold mirrors, owner_of in *. rewrite Hlp, Hlive. change (sg_id game) with (se_id (hit_entry h)).
    change (sg_pid game) with (hit_pid h). set (id := se_id (hit_entry h)).
    destruct (live_ipc (sh_handoff s) !! id) as [o|] eqn:Eo.
    + split.
      * etrans; [apply delete_subseteq|]. etrans; [exact Hsub|].
        destruct (v !! id) eqn:Ev; simpl; [done|by apply insert_subseteq].
      * intros app Happ. assert (app ≠ id) by (intros ->; congruence).
        rewrite lookup_delete_ne by done. rewrite Heq by done.
        destruct (is_some (v !! id)); [done|]. by rewrite lookup_insert_ne.
    + rewrite (Heq id Eo). destruct (v !! id) as [p|] eqn:Ev; simpl; [done|].
      unfold track_process_publication. rewrite bounded_insert_room; last first.
      { assert (dom (sh_last_process s) ⊂ ids) as Hlt.
        { assert (dom (sh_last_process s) ⊆ dom v) by (by apply subseteq_dom).
          assert (id ∉ dom v) by (by apply not_elem_of_dom). simpl in Hids. set_solver. }
        rewrite <-size_dom. apply subset_size in Hlt. lia. }
      split; [by apply insert_mono|]. intros app Happ. destruct (decide (app = id)) as [->|].
      * by rewrite !lookup_insert_eq.
      * rewrite !lookup_insert_ne by done. by apply Heq.
  - destruct (on_cleared_tables env s) as [Hlp Hlive]. split; [|done].
    unfold mirrors, owner_of. rewrite Hlp. by split.
  - destruct (on_removed_tables env id pid s) as [Hlp Hlive]. split; [|done].
    unfold mirrors, owner_of in *. rewrite Hlp, Hlive. unfold take_matching_process.
    split.
    + apply map_subseteq_spec. intros app q.
      destruct (opt_any _ (sh_last_process s !! id)) eqn:E1; simpl.
      * destruct (sh_last_process s !! id) as [p|] eqn:Ep; [|done].
        rewrite (lookup_weaken _ _ _ _ Ep Hsub), E1. simpl.
        rewrite !lookup_delete_Some. intros [? Hq]. split; [done|]. by eapply lookup_weaken.
      * intros Hq. destruct (opt_any _ (v !! id)) eqn:E2; simpl; [|by eapply lookup_weaken].
        rewrite lookup_delete_Some. split; [|by eapply lookup_weaken]. intros ->.
        rewrite Hq in E1. rewrite (lookup_weaken _ _ _ _ Hq Hsub) in E2. congruence.
    + intros app Happ. destruct (decide (app = id)) as [->|Hne].
      * rewrite (Heq id Happ). destruct (opt_any _ (v !! id)); simpl; [by rewrite !lookup_delete_eq|].
        by apply Heq.
      * destruct (opt_any _ (sh_last_process s !! id)), (opt_any _ (v !! id)); simpl;
          rewrite ?lookup_delete_ne by done; by apply Heq.
Qed.

Lemma feed_mirrors start_ms (ids : gset string) evs v st :
  size ids ≤ MAX_HANDOFF_ENTRIES → dom v ⊆ ids → (∀ ev, ev ∈ evs → event_ids ev.2 ⊆ ids) →
  mirrors st.2 v →
  let s' := (feed start_ms evs st).2 in
  mirrors s' (apply_events v evs.*2) ∧ live_ipc (sh_handoff s') = live_ipc (sh_handoff st.2).
Proof.
  intros Hsz. revert v st. induction evs as [|ev evs IH]; intros v [had s] Hv Hevs Hm; [done|].
  destruct (feed_one_mirrors start_ms ids v had s ev) as [Hm1 Hl1];
    [done|apply union_subseteq; split; [done|apply Hevs; by left]|done|].
  simpl. destruct (IH (apply_event v ev.2) (feed_one start_ms (had, s) ev)) as [Hm2 Hl2]; [|..].
  - etrans; [apply apply_event_dom|]. apply union_subseteq. split; [done|apply Hevs; by left].
  - intros ev' Hin. apply Hevs. by right.
  - done.
  - split; [done|]. by rewrite Hl2.
Qed.

(** C5: From the process table to the bridge.  Let the bridge show what the
    events so far told it wherever no SDK connection owns the slot, let that
    be within the scanner's recorded and current tables once the backlog is
    drained (and agree with the recorded one where the tick has nothing to
    send), and let at most 64 applications be involved, the size of the
    bridge's tables.  When the bridge has then seen everything in the
    scanner's channel, forwarded by the pump at any times with no SDK
    command in between, the tick has recorded its table, the bridge has
    published no game that is not in it and every game of it whose slot no
    SDK connection owns; or else the receiver had gone or the tick filled
    the channel to its cap of 128, and then the old table stays recorded and
    nothing outside the two tables is published.  No slot changes hands. *)
Theorem scan_reaches_the_bridge start_ms (ids : gset string) detected obs ignored base live s v0
    (envs : list Bridge.Env) had b :
  let s' := (scan_tick (inl (detected, obs)) ignored base live s).2 in
  let snapshot := snapshot_of detected ignored in
  let evs := zip envs (ec_queue (sl_chan s')) in
  let b' := (feed start_ms evs (had, b)).2 in
  within (shown v0 s) (sl_last s ++ snapshot) →
  (snapshot = sl_last s → sl_dirty s = false → agree (shown v0 s) (sl_last s)) →
  mirrors b v0 → length envs = length (ec_queue (sl_chan s')) →
  size ids ≤ MAX_HANDOFF_ENTRIES → dom v0 ⊆ ids →
  (∀ ev, ev ∈ ec_queue (sl_chan s') → event_ids ev ⊆ ids) →
  live_ipc (sh_handoff b') = live_ipc (sh_handoff b) ∧
  (sl_last s' = snapshot ∧
     within (sh_last_process b') snapshot ∧
     (∀ slot, slot ∈ snapshot → owner_of (sh_handoff b') slot.1 = None →
        is_Some (sh_last_process b' !! slot.1)) ∨
   cut_short s s' ∧ sl_last s' = sl_last s ∧ within (sh_last_process b') (sl_last s ++ snapshot)).
Proof.
  cbv zeta. intros Hw Hag Hm Hlen Hsz Hv Hids.
  destruct (scan_tick_view detected obs ignored base live s v0 Hw Hag) as [Hview _].
  set (s' := (scan_tick _ _ _ _ _).2) in *. set (snap := snapshot_of _ _) in *.
  assert ((zip envs (ec_queue (sl_chan s'))).*2 = ec_queue (sl_chan s')) as Hz
    by (apply snd_zip; lia).
  destruct (feed_mirrors start_ms ids (zip envs (ec_queue (sl_chan s'))) v0 (had, b))
    as [[Hsub Heq] Hl]; [done|done| |done|].
  { intros [e ev] Hin. simpl. apply Hids. rewrite <-Hz. apply list_elem_of_fmap. by exists (e, ev). }
  rewrite Hz in Hsub, Heq. change (apply_events v0 _) with (shown v0 s') in Hsub, Heq.
  split; [done|]. destruct Hview as [[Hlast [Hin Hall]]|(Hcut & Hlast & Hin)]; [left|right].
  - split_and!; [done| |].
    + intros id pid Hp. apply Hin. by eapply lookup_weaken.
    + intros slot Hslot Ho. rewrite Heq by done. by apply Hall.
  - split_and!; [done..|]. intros id pid Hp. apply Hin. by eapply lookup_weaken.
Qed.
End Compose.

(** An empty table, one game, nobody connected. *)
Lemma scan_reaches_the_bridge_witness :
  let s' := (scan_tick (inl ([LaneDemo.hit "a" 1], false)) ∅ SECOND true
               (ScanLoop_new (LaneDemo.open_chan []))).2 in
  let b' := (@feed demo_serde default_order (λ _, None)
               (zip [BridgeDemo.env] (ec_queue (sl_chan s'))) (false, BridgeDemo.online)).2 in
  is_Some (sh_last_process b' !! "a").
Proof.
  destruct (@scan_reaches_the_bridge demo_serde default_order demo_serde_total (λ _, None) {["a"]}
    [LaneDemo.hit "a" 1] false ∅ SECOND true (ScanLoop_new (LaneDemo.open_chan [])) ∅
    [BridgeDemo.env] false BridgeDemo.online) as [_ [(_ & _ & Hall)|(_ & Hlast & _)]].
  - intros id pid. vm_compute. discriminate.
  - vm_compute. discriminate.
  - split; [vm_compute; intros i; by destruct i|]. intros app _. reflexivity.
  - reflexivity.
  - vm_compute. lia.
  - vm_compute. intros x Hx. inversion Hx.
  - intros ev Hin. apply list_elem_of_singleton in Hin as ->. done.
  - apply (Hall ("a", 1%Z)); [vm_compute; by left|reflexivity].
  - vm_compute in Hlast. discriminate.
Defined.
