(* ===== verification/Teardown.v ===== *)
(** * Stopping the scanner with the daemon (crates/rsrpc-core/src/daemon.rs)

    The worker threads of the scanner, the pump thread between the scanner's
    channel and the bridge's, and [run_until] from the moment the scanner is
    started: [serve], [teardown_scanner] and [CancelGuard].  Each thread is a
    sequence of atomic steps and a state takes any enabled one.  A worker
    works through iterations of its loop, whatever their length, and looks
    at the flag between them (its parking is the subject of [Workers]); what
    it sends goes to an unbounded channel. *)

From stdpp Require Import base list relations.
From S2P Require Import Prelude.

Local Open Scope nat_scope.
Local Open Scope list_scope.

Definition PROC_CHANNEL_BOUND : nat := 512.

(** ** State *)

(** The pump thread: in [recv]; in [blocking_send]; over. *)
Inductive PumpPhase := Receiving | Sending | PumpEnded.

#[global] Instance PumpPhase_eq_dec : EqDecision PumpPhase.
Proof. solve_decision. Defined.

(** [run_until]: in [serve]; past it; the flag stored and every thread
    unparked; the workers joined; the server dropped; the pump joined, the
    guard not disarmed yet; returned; dropped by its caller. *)
Inductive RunPhase := Serving | Served | Signalled | Joined | ServerDropped | PumpJoined | Returned | Abandoned.

#[global] Instance RunPhase_eq_dec : EqDecision RunPhase.
Proof. solve_decision. Defined.

(** [td_workers]: for each worker that still runs, the actions left in its
    iteration.  [td_queue], [td_proc]: what the two channels hold.  [td_rx]:
    the bridge still holds its end.  [td_server]: [run_until] still holds
    the server, and with it a sender. *)
Record Teardown := {
  td_flag : bool;
  td_workers : list nat;
  td_queue : nat;
  td_pump : PumpPhase;
  td_proc : nat;
  td_rx : bool;
  td_server : bool;
  td_armed : bool;
  td_run : RunPhase
}.

(** What [start_scanner] leaves, the guard armed. *)
Definition td_start (workers : nat) : Teardown := {|
  td_flag := false; td_workers := replicate workers 0; td_queue := 0; td_pump := Receiving;
  td_proc := 0; td_rx := true; td_server := true; td_armed := true; td_run := Serving |}.

Definition with_workers (ws : list nat) (q : nat) (t : Teardown) : Teardown := {|
  td_flag := td_flag t; td_workers := ws; td_queue := q; td_pump := td_pump t; td_proc := td_proc t;
  td_rx := td_rx t; td_server := td_server t; td_armed := td_armed t; td_run := td_run t |}.

Definition with_pump (p : PumpPhase) (q proc : nat) (t : Teardown) : Teardown := {|
  td_flag := td_flag t; td_workers := td_workers t; td_queue := q; td_pump := p; td_proc := proc;
  td_rx := td_rx t; td_server := td_server t; td_armed := td_armed t; td_run := td_run t |}.

Definition with_run (r : RunPhase) (flag rx server armed : bool) (t : Teardown) : Teardown := {|
  td_flag := flag; td_workers := td_workers t; td_queue := td_queue t; td_pump := td_pump t;
  td_proc := td_proc t; td_rx := rx; td_server := server; td_armed := armed; td_run := r |}.

(** ** Steps *)

Inductive Label :=
  | Iterate (i n : nat) | Act (i : nat) (send : bool) | Exit (i : nat)
  | Recv | Hangup | Send
  | Consume
  | ServeEnds | Signal | Join | DropServer | JoinPump | Disarm | Abandon.

(** A worker: an action, with or without a report; a new iteration when the
    flag is down at its top, the end when it is up.  A report goes nowhere
    once the pump is over. *)
Definition worker_step (l : Label) (t : Teardown) : option Teardown :=
  match l with
  | Iterate i n =>
      if negb (td_flag t) && bool_decide (td_workers t !! i = Some 0)
      then Some (with_workers (<[i := n]> (td_workers t)) (td_queue t) t) else None
  | Act i send =>
      match td_workers t !! i with
      | Some (S k) =>
          let q := if send && bool_decide (td_pump t ≠ PumpEnded) then S (td_queue t) else td_queue t in
          Some (with_workers (<[i := k]> (td_workers t)) q t)
      | _ => None
      end
  | Exit i =>
      if td_flag t && bool_decide (td_workers t !! i = Some 0)
      then Some (with_workers (delete i (td_workers t)) (td_queue t) t) else None
  | _ => None
  end.

(** Somebody can still send to the pump. *)
Definition has_sender (t : Teardown) : bool := td_server t || bool_decide (td_workers t ≠ []).

(** The pump thread of [start_scanner]. *)
Definition pump_step (l : Label) (t : Teardown) : option Teardown :=
  match l, td_pump t with
  | Recv, Receiving =>
      match td_queue t with S q => Some (with_pump Sending q (td_proc t) t) | 0 => None end
  | Hangup, Receiving =>
      if bool_decide (td_queue t = 0) && negb (has_sender t)
      then Some (with_pump PumpEnded 0 (td_proc t) t) else None
  | Send, Sending =>
      if td_rx t then
        if bool_decide (td_proc t < PROC_CHANNEL_BOUND)
        then Some (with_pump Receiving (td_queue t) (S (td_proc t)) t) else None
      else Some (with_pump PumpEnded 0 (td_proc t) t)
  | _, _ => None
  end.

(** The bridge takes a report. *)
Definition bridge_step (l : Label) (t : Teardown) : option Teardown :=
  match l, td_proc t with
  | Consume, S n => if td_rx t then Some (with_pump (td_pump t) (td_queue t) n t) else None
  | _, _ => None
  end.

(** The flag after the guard's drop. *)
Definition guard_drop (t : Teardown) : bool := td_flag t || td_armed t.

(** [run_until]: [serve] ends, on an error or after its shutdown, and the
    bridge's end of the channel with it; then [teardown_scanner], whose
    blocking half goes on by itself.  Dropped in [serve], it takes the
    bridge's end and the server with it; the guard signals if it is armed. *)
Definition run_step (l : Label) (t : Teardown) : option Teardown :=
  match l, td_run t with
  | ServeEnds, Serving => Some (with_run Served (td_flag t) false (td_server t) (td_armed t) t)
  | Signal, Served => Some (with_run Signalled true (td_rx t) (td_server t) (td_armed t) t)
  | Join, Signalled =>
      if bool_decide (td_workers t = [])
      then Some (with_run Joined (td_flag t) (td_rx t) (td_server t) (td_armed t) t) else None
  | DropServer, Joined => Some (with_run ServerDropped (td_flag t) (td_rx t) false (td_armed t) t)
  | JoinPump, ServerDropped =>
      if bool_decide (td_pump t = PumpEnded)
      then Some (with_run PumpJoined (td_flag t) (td_rx t) (td_server t) (td_armed t) t) else None
  | Disarm, PumpJoined => Some (with_run Returned (td_flag t) (td_rx t) (td_server t) false t)
  | Abandon, Serving => Some (with_run Abandoned (guard_drop t) false false false t)
  | Abandon, Signalled | Abandon, Joined | Abandon, ServerDropped | Abandon, PumpJoined =>
      if td_armed t then Some (with_run (td_run t) (guard_drop t) (td_rx t) (td_server t) false t) else None
  | _, _ => None
  end.

Definition td_step (l : Label) (t : Teardown) : option Teardown :=
  match l with
  | Iterate _ _ | Act _ _ | Exit _ => worker_step l t
  | Recv | Hangup | Send => pump_step l t
  | Consume => bridge_step l t
  | _ => run_step l t
  end.

Definition td_steps (t t' : Teardown) : Prop := ∃ l, td_step l t = Some t'.

(** A run of given steps. *)
Fixpoint td_run_steps (ls : list Label) (t : Teardown) : option Teardown :=
  match ls with
  | [] => Some t
  | l :: ls => match td_step l t with Some t' => td_run_steps ls t' | None => None end
  end.

Lemma td_run_rtc ls t t' : td_run_steps ls t = Some t' → rtc td_steps t t'.
Proof.
  revert t. induction ls as [|l ls IH]; intros t; cbn; [intros [= <-]; constructor|].
  destruct (td_step l t) eqn:E; [|done]. intros H. eapply rtc_l; [by exists l|]. auto.
Qed.

(** ** The invariant *)

(** How far [run_until] is. *)
Definition rank (r : RunPhase) : nat :=
  match r with
  | Serving => 0 | Served => 1 | Signalled => 2 | Joined => 3 | ServerDropped => 4 | PumpJoined => 5
  | Returned => 6 | Abandoned => 2
  end.

Record td_inv (t : Teardown) : Prop := {
  ti_armed : td_run t = Serving ∨ td_run t = Served → td_armed t = true;
  ti_rx : 1 ≤ rank (td_run t) → td_rx t = false;
  ti_flag : 2 ≤ rank (td_run t) → td_flag t = true;
  ti_workers : 3 ≤ rank (td_run t) → td_workers t = [];
  ti_server : 4 ≤ rank (td_run t) ∨ td_run t = Abandoned → td_server t = false;
  ti_pump : 5 ≤ rank (td_run t) → td_pump t = PumpEnded
}.

Lemma td_start_inv n : td_inv (td_start n).
Proof. constructor; cbn; try done; try lia. intros [?|?]; [lia|done]. Qed.

Lemma td_step_inv l t t' : td_step l t = Some t' → td_inv t → td_inv t'.
Proof.
  intros E [Ha Hr Hf Hw Hs Hp]. destruct l; cbn [td_step] in E;
    unfold worker_step, pump_step, bridge_step, run_step, guard_drop in E; repeat case_match; simplify_eq;
    constructor; cbn in *; auto; try lia; intros Hx; first
    [ by destruct Hx; lia || done
    | by rewrite Hw by lia; destruct i
    | by specialize (Hp Hx)
    | by apply Hr; lia
    | by match goal with H : bool_decide _ = true |- _ => apply bool_decide_eq_true in H end
    | by rewrite Ha, orb_true_r by auto ].
Qed.

Lemma td_reachable_inv n t : rtc td_steps (td_start n) t → td_inv t.
Proof.
  intros Hr. assert (td_inv (td_start n)) as Hi by apply td_start_inv.
  induction Hr as [|t1 t2 t3 [l Hl]]; [done|]. eauto using td_step_inv.
Qed.

(** ** It all stops *)

Definition pump_left (p : PumpPhase) : nat := match p with PumpEnded => 0 | Sending => 1 | Receiving => 2 end.

(** Actions left to the workers, and their exits. *)
Fixpoint work_left (ws : list nat) : nat :=
  match ws with [] => 0 | k :: ws => S k + work_left ws end.

(** Steps left once the flag is up and the bridge's end is gone. *)
Definition steps_left (t : Teardown) : nat :=
  work_left (td_workers t) + pump_left (td_pump t) + (6 - rank (td_run t)) + Nat.b2n (td_armed t).

Lemma sum_insert (ws : list nat) i k k' :
  ws !! i = Some k → work_left (<[i := k']> ws) + k = work_left ws + k'.
Proof.
  revert i. induction ws as [|w ws IH]; intros [|i] E; try done; simpl in *; [simplify_eq; lia|].
  specialize (IH i E). lia.
Qed.

Lemma sum_delete (ws : list nat) i k :
  ws !! i = Some k → work_left (delete i ws) + S k = work_left ws.
Proof.
  revert i. induction ws as [|w ws IH]; intros [|i] E; try done; simpl in *; [simplify_eq; lia|].
  specialize (IH i E). lia.
Qed.

Definition stopping (t : Teardown) : Prop := td_flag t = true ∧ td_rx t = false.

Lemma stopping_step l t t' :
  td_step l t = Some t' → stopping t → 2 ≤ rank (td_run t) →
  stopping t' ∧ 2 ≤ rank (td_run t') ∧ steps_left t' < steps_left t.
Proof.
  intros E [Hf Hx] Hr. unfold stopping, steps_left. destruct l; cbn [td_step] in E;
    unfold worker_step, pump_step, bridge_step, run_step, guard_drop in E; rewrite ?Hf, ?Hx in E; cbn in E;
    repeat case_match; simplify_eq; cbn in *; rewrite ?Hf, ?Hx; try lia;
    (split; [done|]); (split; [lia|]);
    repeat match goal with H : td_pump t = _ |- _ => rewrite H | H : td_run t = _ |- _ => rewrite H
                         | H : td_armed t = _ |- _ => rewrite H end; cbn; try lia.
  all: try match goal with H : td_workers ?t !! ?i = Some _ |- context [<[?i := ?k]> _] => pose proof (sum_insert _ _ _ k H); lia end.
  apply bool_decide_eq_true in H. pose proof (sum_delete _ _ _ H). lia.
Qed.

Lemma stopping_run ls t t' :
  td_run_steps ls t = Some t' → stopping t → 2 ≤ rank (td_run t) →
  stopping t' ∧ 2 ≤ rank (td_run t') ∧ steps_left t' + length ls ≤ steps_left t.
Proof.
  revert t. induction ls as [|l ls IH]; intros t; cbn [td_run_steps length]; [intros [= ->]; intros; split_and!; done || lia|].
  destruct (td_step l t) as [t1|] eqn:E; [|done]. intros Hr Hs Hk.
  destruct (stopping_step l t t1 E Hs Hk) as (Hs1 & Hk1 & ?). destruct (IH t1 Hr Hs1 Hk1) as (? & ? & ?).
  split_and!; [done..|lia].
Qed.

(** Nothing is left running. *)
Definition quiet (t : Teardown) : Prop :=
  td_workers t = [] ∧ td_pump t = PumpEnded ∧ td_server t = false ∧
  (td_run t = Returned ∨ td_run t = Abandoned).

Lemma not_stuck t : td_inv t → 2 ≤ rank (td_run t) → quiet t ∨ ∃ l t', td_step l t = Some t'.
Proof.
  intros Hi Hk. pose proof (ti_flag t Hi Hk) as Hf. assert (td_rx t = false) as Hx by (apply (ti_rx t Hi); lia).
  assert (∀ l t', run_step l t = Some t' → (∃ l t', td_step l t = Some t')) as Hrun.
  { intros l t' E. exists l, t'. by destruct l. }
  destruct (td_workers t) as [|[|k] ws] eqn:Ew.
  2: { right. eexists (Exit 0), _. cbn. rewrite Hf, Ew. done. }
  2: { right. eexists (Act 0 false), _. cbn. rewrite Ew. done. }
  assert (has_sender t = td_server t) as Hse by (unfold has_sender; rewrite Ew; by destruct (td_server t)).
  assert (td_server t = false ∨ ∃ l t', td_step l t = Some t') as [Hsv|?]; [|destruct (td_pump t) eqn:Ep|by right].
  { destruct (td_run t) eqn:Er; cbn in Hk; try lia; try (left; apply (ti_server t Hi); rewrite Er; cbn; auto; lia).
    - right. eapply (Hrun Join). cbn. by rewrite Er, Ew.
    - right. eapply (Hrun DropServer). cbn. by rewrite Er. }
  - right. destruct (td_queue t) as [|q] eqn:Eq; [eexists Hangup, _|eexists Recv, _]; cbn; rewrite Ep, Eq; [|done].
    by rewrite Hse, Hsv.
  - right. eexists Send, _. cbn. by rewrite Ep, Hx.
  - destruct (td_run t) eqn:Er; cbn in Hk; try lia.
    + right. eapply (Hrun Join). cbn. by rewrite Er, Ew.
    + right. eapply (Hrun DropServer). cbn. by rewrite Er.
    + right. eapply (Hrun JoinPump). cbn. by rewrite Er, Ep.
    + right. eapply (Hrun Disarm). cbn. by rewrite Er.
    + left. split_and!; auto.
    + left. split_and!; auto.
Qed.

(** C37: A signalled daemon stops whole.  Once the scanner is signalled, by
    [teardown_scanner] or by the guard of an abandoned run, whatever the
    workers, the pump and the full or empty channels were doing, only so many
    steps are left, and as long as a thread runs or the teardown is not over
    one of them is enabled: no wait of a join, of a send or of a receive is
    for ever. *)
Theorem teardown_stops n (t : Teardown) (ls : list Label) (t' : Teardown) :
  rtc td_steps (td_start n) t → 2 ≤ rank (td_run t) → td_run_steps ls t = Some t' →
  length ls ≤ steps_left t ∧ (quiet t' ∨ ∃ l t'', td_step l t' = Some t'').
Proof.
  intros Hreach Hk Hr. pose proof (td_reachable_inv n t Hreach) as Hi.
  assert (stopping t) as Hs by (split; [by apply ti_flag|apply ti_rx; [done|lia]]).
  destruct (stopping_run ls t t' Hr Hs Hk) as (_ & Hk' & Hle). split; [lia|].
  apply not_stuck; [|done]. apply (td_reachable_inv n). etransitivity; [exact Hreach|]. by eapply td_run_rtc.
Qed.

(** When [run_until] returns no thread is still running: every worker of
    the scanner has exited, the pump has too, and the server, with the last
    sender, is dropped; and a run that is dropped half way has signalled the
    workers, whenever it is dropped. *)
Theorem run_until_leaves_no_thread n (t : Teardown) :
  rtc td_steps (td_start n) t →
  (td_run t = Returned → td_workers t = [] ∧ td_pump t = PumpEnded ∧ td_server t = false) ∧
  (td_run t = Abandoned → td_flag t = true ∧ td_rx t = false ∧ td_server t = false).
Proof.
  intros [_ Hr Hf Hw Hs Hp]%td_reachable_inv. split; intros E; rewrite E in *; cbn in *; split_and!; auto with lia.
Qed.

(** ** Runs *)

(** A report is stuck before a full channel's end is gone; then the shutdown. *)
Definition demo_labels : list Label :=
  [Iterate 0 2; Act 0 true; Iterate 1 1; Recv; Act 1 true; Send; Recv; ServeEnds; Iterate 1 3; Signal].

Definition demo_state : Teardown := default (td_start 3) (td_run_steps demo_labels (td_start 3)).

Definition demo_rest : list Label :=
  [Act 0 true; Send; Exit 0; Act 0 false; Act 0 true; Act 0 false; Exit 0; Exit 0; Join; DropServer; JoinPump; Disarm].

Definition demo_end : Teardown := default (td_start 3) (td_run_steps demo_rest demo_state).

Lemma td_demo_reachable : rtc td_steps (td_start 3) demo_state.
Proof. apply (td_run_rtc demo_labels). vm_compute. reflexivity. Qed.

Lemma teardown_stops_witness : length demo_rest ≤ steps_left demo_state ∧ td_run demo_end = Returned.
Proof.
  split; [|vm_compute; reflexivity].
  apply (teardown_stops 3 demo_state demo_rest demo_end td_demo_reachable).
  - vm_compute. lia.
  - vm_compute. reflexivity.
Defined.

Lemma run_until_leaves_no_thread_witness : td_workers demo_end = [] ∧ td_pump demo_end = PumpEnded.
Proof.
  destruct (run_until_leaves_no_thread 3 demo_end) as [H _].
  - etransitivity; [exact td_demo_reachable|]. apply (td_run_rtc demo_rest). vm_compute. reflexivity.
  - destruct H as (H1 & H2 & _); [vm_compute; reflexivity|]. split; [exact H1|exact H2].
Defined.
