(* ===== verification/Overrides.v ===== *)
(** * Overrides and the held database (crates/rsrpc-core: overrides.rs, database.rs, daemon.rs)

    Custom entries from one file and one directory, the database a daemon
    holds before it runs, and the default places.  Decoding a text into
    entries is the derived parser of the JSON crate: a parameter. *)

From stdpp Require Import base gmap strings list list_numbers sets sorting.
From Stdlib Require Import Ascii.
From S2P Require Import Prelude RStr Text HashMaps Json Bundle Db StdPath SteamFs Daemon.

Local Open Scope string_scope.
Local Open Scope nat_scope.
Local Open Scope list_scope.

(** [Path::extension]: what follows the last dot of a name that does not
    only start with one. *)
Definition extension (path : string) : option string :=
  match file_name path with
  | None => None
  | Some name =>
      match rsplit_once_l "."%char (chars name) with
      | Some ([], _) | None => None
      | Some (_, ext) => Some (of_chars ext)
      end
  end.

Definition eq_ignore_case (a b : string) : bool :=
  String.eqb (to_ascii_lowercase a) (to_ascii_lowercase b).

(** A file name [load_dir] takes. *)
Definition is_json (path : string) : bool :=
  match extension path with
  | Some ext => is_utf8 ext && eq_ignore_case ext "json"
  | None => false
  end.

Section Overrides.
(** [serde_json::from_str] into a list of entries and into one entry. *)
Context (decode_list : string → option (list DetectableActivity)).
Context (decode_one : string → option DetectableActivity).

(** [parse_overrides]. *)
Definition parse_overrides (content : string) : option (list DetectableActivity) :=
  match decode_list content with
  | Some entries => Some entries
  | None => (λ entry, [entry]) <$> decode_one content
  end.

(** [load_file]: nothing when the file is absent, [None] on an error. *)
Definition load_file (d : Disk) (path : string) : option (list DetectableActivity) :=
  match d_len d path with
  | None => Some []
  | Some _ =>
      match read_text d path with
      | None => None
      | Some content => parse_overrides content
      end
  end.

(** The entries of the files of a listing. *)
Definition load_listing (d : Disk) (dir : string) (names : list string) : list DetectableActivity :=
  let files := path_sort (base.filter (λ path, is_json path = true) (map (join dir) names)) in
  files ≫= λ file, default [] (load_file d file).

(** [load_dir]. *)
Definition load_dir (d : Disk) (dir : string) : list DetectableActivity :=
  match d_read_dir d dir with
  | Some names => load_listing d dir names
  | None => []
  end.

(** ** Default places *)

(** [config_dir_with]. *)
Definition config_dir_with (env : Env) : string :=
  join (match env "XDG_CONFIG_HOME" with
        | Some config => config
        | None => join (default "." (env "HOME")) ".config"
        end) "rsrpc".

(** [default_file_path_with]. *)
Definition default_file_path_with (env : Env) : string :=
  match env "RSRPC_OVERRIDES_FILE" with
  | Some custom => custom
  | None => join (config_dir_with env) "overrides.json"
  end.

(** [default_dir_path_with]. *)
Definition default_dir_path_with (env : Env) : string :=
  match env "RSRPC_OVERRIDES_DIR" with
  | Some custom => custom
  | None => join (config_dir_with env) "overrides.d"
  end.

(** [default_file_path] and [default_dir_path], on the process environment. *)
Definition default_file_path (env : Env) : string := default_file_path_with (env_var env).
Definition default_dir_path (env : Env) : string := default_dir_path_with (env_var env).

(** ** The held database *)

Record Daemon := {
  dm_detectable : list DetectableActivity;
  dm_config : RPCConfig;
  dm_staged : list DetectableActivity
}.

Definition from_parsed (entries : list DetectableActivity) (config : RPCConfig) : Daemon :=
  {| dm_detectable := entries; dm_config := config; dm_staged := [] |}.

(** [append_detectables]. *)
Definition append_detectables (entries : list DetectableActivity) (dm : Daemon) : Daemon :=
  {| dm_detectable := dm_detectable dm; dm_config := dm_config dm; dm_staged := dm_staged dm ++ entries |}.

(** [remove_detectable_by_name]. *)
Definition remove_detectable_by_name (name : string) (dm : Daemon) : Daemon :=
  {| dm_detectable := dm_detectable dm; dm_config := dm_config dm;
     dm_staged := base.filter (λ e, da_name e ≠ name) (dm_staged dm) |}.

Record DetectableSummary := { sum_id : string; sum_name : string; sum_executables : nat }.

(** [summarize]. *)
Definition summarize (entries : list DetectableActivity) : list DetectableSummary :=
  map (λ e, {| sum_id := da_id e; sum_name := da_name e;
               sum_executables := match da_executables e with Some x => length x | None => 0 end |}) entries.

(** ** The order of the directory does not matter *)

Lemma insert_path_perm x l : insert_path x l ≡ₚ x :: l.
Proof.
  induction l as [|y l IH]; simpl; [done|]. destruct (path_leb x y); [done|].
  etrans; [by apply perm_skip, IH|]. constructor.
Qed.

Lemma path_sort_unique l k :
  NoDup (map components l) → l ≡ₚ k → path_sort l = path_sort k.
Proof.
  intros Hnd Hp.
  assert (∀ x y, x ∈ l → y ∈ l → path_le x y → path_le y x → x = y) as Hanti.
  { intros x y Hx Hy H1 H2. pose proof (components_leb_antisym _ _ H1 H2) as E.
    apply list_elem_of_lookup in Hx as [i Hi], Hy as [j Hj].
    assert (i = j) as ->; [|congruence].
    eapply (NoDup_lookup (components <$> l)); [exact Hnd| |].
    - by rewrite list_lookup_fmap, Hi.
    - rewrite list_lookup_fmap, Hj. simpl. by rewrite E. }
  assert (path_sort l ≡ₚ path_sort k) as Hperm.
  { assert (∀ m, path_sort m ≡ₚ m) as Hs; [|by rewrite !Hs].
    intros m. induction m as [|x m IH]; [done|]. simpl. etrans; [apply insert_path_perm|]. by constructor. }
  pose proof (path_sort_sorted l) as Hl. pose proof (path_sort_sorted k) as Hk.
  assert (∀ x, x ∈ path_sort l → x ∈ l) as Hin by (intros x; by rewrite path_sort_elem).
  revert Hl Hk Hperm Hin. generalize (path_sort l), (path_sort k). clear -Hanti.
  intros a. induction a as [|x a IH]; intros b Ha Hb Hp Hin.
  { by apply Permutation_nil_l in Hp. }
  destruct b as [|y b]; [by apply Permutation_nil_r in Hp|].
  apply StronglySorted_inv in Ha as [Ha Hax], Hb as [Hb Hby].
  assert (x = y) as ->.
  { assert (y ∈ x :: a) as Hy by (rewrite Hp; by left).
    assert (x ∈ y :: b) as Hx by (rewrite <-Hp; by left).
    apply elem_of_cons in Hy as [->|Hy]; [done|]. apply elem_of_cons in Hx as [->|Hx]; [done|].
    rewrite Forall_forall in Hax, Hby.
    apply Hanti; [apply Hin; by left|apply Hin; by right|by apply Hax|by apply Hby]. }
  f_equal. apply IH; [done..|by apply Permutation_cons_inv in Hp|]. intros z Hz. apply Hin. by right.
Qed.

(** The overrides a directory yields do not depend on the order in which
    the system lists it: listings of the same, pairwise different files give
    the same entries in the same order, a file that does not parse counting
    as empty. *)
Theorem load_dir_order_free (d : Disk) (dir : string) (names names' : list string) :
  names ≡ₚ names' → NoDup (map components (map (join dir) names)) →
  load_listing d dir names = load_listing d dir names'.
Proof.
  intros Hp Hnd. unfold load_listing. f_equal. apply path_sort_unique; [|by rewrite Hp].
  clear Hp. revert Hnd. generalize (map (join dir) names). intros l.
  induction l as [|x l IH]; intros Hnd; [done|]. apply NoDup_cons in Hnd as [Hx Hnd].
  rewrite filter_cons. case_decide; [|by apply IH]. simpl. apply NoDup_cons. split; [|by apply IH].
  intros (y & Ey & [_ Hy]%list_elem_of_filter)%list_elem_of_fmap. apply Hx, list_elem_of_fmap. eauto.
Qed.
End Overrides.

Definition demo_entry (id : string) : DetectableActivity := {|
  da_executables := None; da_hook := false; da_id := id; da_name := id;
  da_third_party_skus := None; da_aliases := None |}.

(** A directory with two override files and a note. *)
Definition overrides_disk : Disk :=
  let body p := if String.eqb p "/o/b.json" then Some "b"
                else if String.eqb p "/o/a.JSON" then Some "a" else None in
  {| d_modified := λ _, None; d_len := λ p, str_len <$> body p; d_read := body;
     d_is_dir := λ _, false; d_is_file := λ _, false; d_read_dir := λ _, None;
     d_canonicalize := Some; d_read_link := λ _, None |}.

Lemma load_dir_order_free_witness :
  let load := load_listing (λ _, None) (λ t, Some (demo_entry t)) overrides_disk "/o" in
  load ["b.json"; "a.JSON"; "notes.txt"] = load ["notes.txt"; "a.JSON"; "b.json"] ∧
  map da_id (load ["b.json"; "a.JSON"; "notes.txt"]) = ["a"; "b"].
Proof.
  split; [|vm_compute; reflexivity].
  apply load_dir_order_free.
  - apply (Permutation_rev ["b.json"; "a.JSON"; "notes.txt"]).
  - apply (bool_decide_unpack _). vm_compute. exact I.
Defined.
