(* ===== verification/IpcListen.v ===== *)
(** * IPC sockets: where the listener binds (crates/rsrpc-transport-ipc: paths.rs, probe.rs, unix.rs)

    The candidate directories, the probe of a holder, the walk over the ten
    indexes with its reclaim of stale sockets, and the links that make the
    bound socket visible in every candidate directory.  The file system is a
    map from paths (by components, as [Path] compares them) to nodes; which
    directories can be written, which nodes can be removed and what a holder
    answers are the system's, fixed while one call runs. *)

From stdpp Require Import base gmap strings list list_numbers sets fin_maps.
From coqutil Require Import Byte Word.LittleEndianList.
From Stdlib Require Import Ascii.
From S2P Require Import Prelude RStr Text Ids IpcFrame StdPath SteamFs.

Local Open Scope string_scope.
Local Open Scope nat_scope.
Local Open Scope list_scope.

(** ** Candidate directories *)

(** [candidate_dirs_from]. *)
Definition candidate_dirs_from (vars : list (option string)) : list string :=
  let dirs := foldl (λ dirs value,
      match value with
      | Some dir =>
          let dir := trim_end_matches "/"%char dir in
          if str_empty dir then dirs else push_new dir dirs
      | None => dirs
      end) [] vars in
  push_new "/tmp" dirs.

(** [socket_dir_candidates]. *)
Definition socket_dir_candidates (env : Env) : list string :=
  candidate_dirs_from (map (env_var env) ["XDG_RUNTIME_DIR"; "TMPDIR"; "TMP"; "TEMP"]).

(** ** The probe *)

(** How far the exchange with a holder gets. *)
Inductive ProbeIo :=
  | NoName
  | NoConnect
  | NoTimeouts
  | WriteFailed
  | ReadFailed
  | Header (bytes : list byte).

(** [socket_holder_alive]. *)
Definition socket_holder_alive (io : ProbeIo) : bool :=
  match io with
  | NoName | NoConnect => false
  | NoTimeouts | WriteFailed | ReadFailed => true
  | Header bytes => (le_combine (take 4 bytes) =? packet_code Pong)%Z
  end.

(** ** The file system *)

Inductive Node := Sock | Link (target : string) | Other.

#[global] Instance Node_eq_dec : EqDecision Node.
Proof. solve_decision. Defined.

Abbreviation Nodes := (gmap (list Component) Node).

Record Sys := {
  sys_usable : string → bool;
  sys_removable : string → bool;
  sys_probe : string → ProbeIo
}.

Definition alive (sys : Sys) (p : string) : bool := socket_holder_alive (sys_probe sys p).

Inductive BindAnswer := BindOk | AddrInUse | BindFailed.

(** [UnixListener::bind]. *)
Definition bind_socket (sys : Sys) (p : string) (fs : Nodes) : BindAnswer * Nodes :=
  match fs !! components p with
  | Some _ => (AddrInUse, fs)
  | None => if sys_usable sys p then (BindOk, <[components p := Sock]> fs) else (BindFailed, fs)
  end.

(** [std::fs::remove_file]. *)
Definition remove_node (sys : Sys) (p : string) (fs : Nodes) : Nodes :=
  if sys_removable sys p then delete (components p) fs else fs.

(** [std::os::unix::fs::symlink]. *)
Definition symlink (sys : Sys) (target p : string) (fs : Nodes) : Nodes :=
  match fs !! components p with
  | Some _ => fs
  | None => if sys_usable sys p then <[components p := Link target]> fs else fs
  end.

(** ** Links *)

(** Where a link points, relative targets from its directory. *)
Definition resolve_target (link target : string) : string :=
  if is_absolute target then target
  else match parent link with Some dir => join dir target | None => target end.

Definition ours_shaped (target : string) : bool :=
  match file_name target with
  | Some name => is_utf8 name && starts_with "discord-ipc-" name
  | None => false
  end.

(** [link_reclaimable]. *)
Definition link_reclaimable (fs : Nodes) (link bound : string) : bool :=
  match fs !! components link with
  | Some (Link target) =>
      let resolved := resolve_target link target in
      if path_eqb resolved bound then true
      else ours_shaped target && bool_decide (fs !! components resolved = None)
  | _ => false
  end.

(** One directory of [fanout_socket_link]. *)
Definition fanout_dir (sys : Sys) (bound name : string) (fs : Nodes) (dir : string) : Nodes :=
  let link := join dir name in
  if path_eqb link bound then fs
  else match fs !! components link with
       | None => symlink sys bound link fs
       | Some (Link _) =>
           if link_reclaimable fs link bound then symlink sys bound link (remove_node sys link fs)
           else fs
       | Some _ => fs
       end.

(** [fanout_socket_link]. *)
Definition fanout_socket_link (sys : Sys) (dirs : list string) (bound name : string) (fs : Nodes)
    : Nodes := foldl (fanout_dir sys bound name) fs dirs.

(** One directory of [remove_socket_links]. *)
Definition unlink_dir (sys : Sys) (bound name : string) (fs : Nodes) (dir : string) : Nodes :=
  let link := join dir name in
  if path_eqb link bound then fs
  else if link_reclaimable fs link bound then remove_node sys link fs else fs.

(** [remove_socket_links]. *)
Definition remove_socket_links (sys : Sys) (dirs : list string) (bound : string) (fs : Nodes) : Nodes :=
  match file_name bound with
  | Some name => if is_utf8 name then foldl (unlink_dir sys bound name) fs dirs else fs
  | None => fs
  end.

(** [socket_file_name]. *)
Definition socket_file_name (bound : string) : string :=
  match file_name bound with
  | Some name => if is_utf8 name then name else "discord-ipc-0"
  | None => "discord-ipc-0"
  end.

(** ** Binding *)

(** One index: whether it is ours now. *)
Definition try_index (sys : Sys) (p : string) (fs : Nodes) : bool * Nodes :=
  match bind_socket sys p fs with
  | (BindOk, fs) => (true, fs)
  | (AddrInUse, fs) =>
      if alive sys p then (false, fs)
      else match bind_socket sys p (remove_node sys p fs) with
           | (BindOk, fs) => (true, fs)
           | (_, fs) => (false, fs)
           end
  | (BindFailed, fs) => (false, fs)
  end.

Fixpoint try_indexes (sys : Sys) (paths : list string) (fs : Nodes) : option string * Nodes :=
  match paths with
  | [] => (None, fs)
  | p :: paths =>
      match try_index sys p fs with
      | (true, fs) => (Some p, fs)
      | (false, fs) => try_indexes sys paths fs
      end
  end.

Definition index_paths (base : string) : list string :=
  map (λ i, base +:+ "-" +:+ u64_to_string (Z.of_nat i)) (seq 0 10).

(** [create_socket]. *)
Definition create_socket (sys : Sys) (base : string) (dirs : list string) (fs : Nodes)
    : option string * Nodes :=
  match try_indexes sys (index_paths base) fs with
  | (Some p, fs) => (Some p, fanout_socket_link sys dirs p (socket_file_name p) fs)
  | (None, fs) => (None, fs)
  end.

Definition bases_of (dirs : list string) : list string :=
  match dirs with
  | [] => ["/tmp/discord-ipc"]
  | _ => map (λ dir, dir +:+ "/discord-ipc") dirs
  end.

Fixpoint bind_bases (sys : Sys) (dirs bases : list string) (fs : Nodes) : option string * Nodes :=
  match bases with
  | [] => (None, fs)
  | base :: bases =>
      match create_socket sys base dirs fs with
      | (Some p, fs) => (Some p, fs)
      | (None, fs) => bind_bases sys dirs bases fs
      end
  end.

(** The blocking half of [bind_with_dirs]. *)
Definition bind_with_dirs (sys : Sys) (dirs : list string) (fs : Nodes) : option string * Nodes :=
  bind_bases sys dirs (bases_of dirs) fs.

(** The file half of [Drop for IpcTransport]. *)
Definition drop_files (sys : Sys) (dirs : list string) (bound : string) (fs : Nodes) : Nodes :=
  remove_node sys bound (remove_socket_links sys dirs bound fs).

(** ** Which index is taken *)

(** An index can be taken: its directory can be written, and it is free or
    its holder is dead and can be removed. *)
Definition claimable (sys : Sys) (fs : Nodes) (p : string) : bool :=
  sys_usable sys p &&
  match fs !! components p with
  | None => true
  | Some _ => negb (alive sys p) && sys_removable sys p
  end.

(** What the system answers depends on the path, not on its spelling. *)
Record coherent (sys : Sys) : Prop := {
  coh_usable : ∀ p q, components p = components q → sys_usable sys p = sys_usable sys q;
  coh_removable : ∀ p q, components p = components q → sys_removable sys p = sys_removable sys q;
  coh_probe : ∀ p q, components p = components q → sys_probe sys p = sys_probe sys q
}.

Lemma try_index_spec sys p fs :
  (try_index sys p fs).1 = claimable sys fs p ∧
  (claimable sys fs p = true → (try_index sys p fs).2 = <[components p := Sock]> fs) ∧
  (claimable sys fs p = false →
     (try_index sys p fs).2 = fs ∨
     alive sys p = false ∧ sys_usable sys p = false ∧ (try_index sys p fs).2 = delete (components p) fs).
Proof.
  unfold try_index, claimable, bind_socket, remove_node. generalize (components p). intros k.
  destruct (fs !! k) as [n|] eqn:En; [|destruct (sys_usable sys p); simpl; naive_solver].
  destruct (alive sys p); simpl; [rewrite andb_false_r; naive_solver|].
  destruct (sys_removable sys p); simpl.
  - rewrite lookup_delete_eq. destruct (sys_usable sys p); simpl; [|naive_solver].
    split_and!; [done| |done]. intros _. by rewrite insert_delete_eq.
  - rewrite En, andb_false_r. naive_solver.
Qed.

(** A failed index changes no other index's prospects. *)
Lemma try_index_keeps sys p fs q :
  coherent sys → claimable sys fs p = false →
  claimable sys (try_index sys p fs).2 q = claimable sys fs q.
Proof.
  intros Hc Hp. destruct (try_index_spec sys p fs) as (_ & _ & [->|(Ha & Hu & ->)]%(λ f, f Hp)); [done|].
  unfold claimable. destruct (decide (components q = components p)) as [E|].
  - by rewrite (coh_usable sys Hc q p E), Hu.
  - by rewrite lookup_delete_ne.
Qed.

Lemma try_indexes_first sys paths fs :
  coherent sys → (try_indexes sys paths fs).1 = find_first (claimable sys fs) paths.
Proof.
  intros Hc. unfold find_first. revert fs. induction paths as [|p paths IH]; intros fs; [done|].
  cbn [try_indexes find_map]. destruct (try_index_spec sys p fs) as (Hb & _ & _).
  pose proof (try_index_keeps sys p fs) as Hk.
  destruct (try_index sys p fs) as [[] fs']; simpl in Hb; rewrite <-Hb; [done|].
  rewrite IH. apply find_map_ext. intros q _. by rewrite Hk.
Qed.

Lemma try_indexes_keeps sys paths fs q :
  coherent sys → (try_indexes sys paths fs).1 = None →
  claimable sys (try_indexes sys paths fs).2 q = claimable sys fs q.
Proof.
  intros Hc. revert fs. induction paths as [|p paths IH]; intros fs; [done|].
  cbn [try_indexes]. destruct (try_index_spec sys p fs) as (Hb & _ & _).
  pose proof (try_index_keeps sys p fs q Hc) as Hk.
  destruct (try_index sys p fs) as [[] fs']; simpl in Hb; [done|]. simpl in *. intros Hn.
  rewrite IH by done. by apply Hk.
Qed.

Lemma find_first_app {A} (f : A → bool) l k :
  find_first f (l ++ k) = or_else (find_first f l) (find_first f k).
Proof. apply find_map_app. Qed.

(** The listener takes the first socket path, over the candidate
    directories in order and the ten indexes in each, that can be taken: its
    directory can be written and it is free or held by nobody who answers;
    it fails exactly when there is none.  In particular an index with a live
    holder is never taken, and an unusable directory never hides a usable
    one behind it. *)
Theorem bind_takes_first_claimable (sys : Sys) (dirs : list string) (fs : Nodes) :
  coherent sys →
  (bind_with_dirs sys dirs fs).1 =
  find_first (claimable sys fs) (bases_of dirs ≫= index_paths).
Proof.
  intros Hc. unfold bind_with_dirs. revert fs.
  induction (bases_of dirs) as [|base bases IH]; intros fs; [done|].
  rewrite bind_cons, find_first_app. cbn [bind_bases]. unfold create_socket.
  pose proof (try_indexes_first sys (index_paths base) fs Hc) as Hf.
  pose proof (λ q, try_indexes_keeps sys (index_paths base) fs q Hc) as Hk.
  destruct (try_indexes sys (index_paths base) fs) as [[p|] fs']; simpl in Hf; rewrite <-Hf; [done|].
  simpl. rewrite IH. apply find_map_ext. intros q _. simpl in Hk. by rewrite (Hk q eq_refl).
Qed.

(** ** What is spared *)

Definition candidates (dirs : list string) : list string := bases_of dirs ≫= index_paths.

(** A socket path of ours whose holder does not answer. *)
Definition dead_candidate (sys : Sys) (dirs : list string) (k : list Component) : Prop :=
  ∃ p, p ∈ candidates dirs ∧ components p = k ∧ alive sys p = false.

Lemma try_indexes_changes sys paths fs k :
  coherent sys →
  let '(r, fs') := try_indexes sys paths fs in
  fs' !! k = fs !! k ∨
  (∃ p, p ∈ paths ∧ components p = k ∧ alive sys p = false ∧ (fs' !! k = None ∨ r = Some p)) ∨
  fs !! k = None ∧ ∃ p, p ∈ paths ∧ r = Some p ∧ components p = k.
Proof.
  intros Hc. revert fs. induction paths as [|p paths IH]; intros fs; cbn [try_indexes]; [by left|].
  destruct (try_index_spec sys p fs) as (Hb & Ht & Hf).
  destruct (try_index sys p fs) as [b fs1]; simpl in *. destruct b.
  - rewrite (Ht (eq_sym Hb)). destruct (decide (components p = k)) as [<-|]; [|left; by rewrite lookup_insert_ne].
    right. unfold claimable in Hb. destruct (fs !! components p).
    + left. exists p. symmetry in Hb. apply andb_true_iff in Hb as [_ [Hb _]%andb_true_iff].
      split_and!; [by left|done|by apply negb_true_iff in Hb|by right].
    + right. split; [done|]. exists p. split; [by left|done].
  - specialize (IH fs1). destruct (try_indexes sys paths fs1) as [r fs'].
    assert (fs1 !! k = fs !! k ∨ components p = k ∧ alive sys p = false ∧ fs1 !! k = None) as H1.
    { destruct (Hf (eq_sym Hb)) as [->|(Ha & _ & ->)]; [by left|].
      destruct (decide (components p = k)) as [<-|]; [|left; by rewrite lookup_delete_ne].
      right. by rewrite lookup_delete_eq. }
    destruct IH as [E|[(q & Hq & Ek & Ha & Hr)|[En (q & Hq & -> & Ek)]]].
    + rewrite E. destruct H1 as [->|(Ek & Ha & Hn)]; [by left|]. right. left. exists p.
      split_and!; [by left|done..|by left].
    + right. left. exists q. split_and!; [by right|done..].
    + destruct H1 as [H1|(Ep & Ha & Hn)].
      * right. right. rewrite <-H1. split; [done|]. exists q. split; [by right|done].
      * right. left. exists q. split_and!; [by right|done| |by right].
        unfold alive in *. rewrite (coh_probe sys Hc q p); [done|congruence].
Qed.

Lemma bind_bases_split sys dirs bases fs :
  ∃ fs1, (bind_bases sys dirs bases fs).1 = (try_indexes sys (bases ≫= index_paths) fs).1 ∧
    fs1 = (try_indexes sys (bases ≫= index_paths) fs).2 ∧
    (bind_bases sys dirs bases fs).2 =
      match (bind_bases sys dirs bases fs).1 with
      | Some p => fanout_socket_link sys dirs p (socket_file_name p) fs1
      | None => fs1
      end.
Proof.
  assert (∀ l k fs, try_indexes sys (l ++ k) fs =
    match try_indexes sys l fs with
    | (Some p, fs) => (Some p, fs)
    | (None, fs) => try_indexes sys k fs
    end) as Happ.
  { intros l k. induction l as [|p l IH]; intros fs0; [done|]. cbn [app try_indexes].
    destruct (try_index sys p fs0) as [[] fs1]; [done|]. apply IH. }
  revert fs. induction bases as [|base bases IH]; intros fs; [by eexists|].
  rewrite bind_cons, Happ. cbn [bind_bases]. unfold create_socket.
  destruct (try_indexes sys (index_paths base) fs) as [[p|] fs1]; [by eexists|]. apply IH.
Qed.

(** Sockets and other files are never touched by links. *)
Definition solid (n : option Node) : Prop := n = Some Sock ∨ n = Some Other.

Lemma fanout_dir_solid sys bound name fs dir k :
  solid (fs !! k) → fanout_dir sys bound name fs dir !! k = fs !! k.
Proof.
  intros Hs. unfold fanout_dir. case_match; [done|].
  destruct (decide (components (join dir name) = k)) as [E|Hne].
  - rewrite E. destruct Hs as [Hs|Hs]; rewrite Hs; done.
  - unfold symlink, remove_node.
    repeat case_match; try done; rewrite ?lookup_insert_ne, ?lookup_delete_ne by done; done.
Qed.

Lemma resolve_target_ext link link' t :
  components link = components link' → resolve_target link t = resolve_target link' t.
Proof. intros E. unfold resolve_target, parent. by rewrite E. Qed.

Lemma reclaimable_ext fs link link' bound :
  components link = components link' → link_reclaimable fs link bound = link_reclaimable fs link' bound.
Proof.
  intros E. unfold link_reclaimable. rewrite E. destruct (fs !! _) as [[]|]; [done| |done..].
  by rewrite (resolve_target_ext link link').
Qed.

(** A link that is not ours: it does not point at the bound socket, and its
    target has another name or is there. *)
Definition foreign_link (fs : Nodes) (bound link t : string) : Prop :=
  fs !! components link = Some (Link t) ∧
  components (resolve_target link t) ≠ components bound ∧
  (ours_shaped t = false ∨ solid (fs !! components (resolve_target link t))).

Lemma foreign_not_reclaimable fs bound link t :
  foreign_link fs bound link t → link_reclaimable fs link bound = false.
Proof.
  intros (Hl & Hr & Hs). unfold link_reclaimable, path_eqb. rewrite Hl, bool_decide_false by done.
  destruct Hs as [->|[-> | ->]]; [done|..]; by destruct (ours_shaped t).
Qed.

Lemma fanout_dir_foreign sys bound name fs dir link t :
  foreign_link fs bound link t → foreign_link (fanout_dir sys bound name fs dir) bound link t.
Proof.
  intros Hf. pose proof (foreign_not_reclaimable _ _ _ _ Hf) as Hn. destruct Hf as (Hl & Hr & Hs).
  assert (fanout_dir sys bound name fs dir !! components link = Some (Link t)) as Hl'.
  { unfold fanout_dir. case_match; [done|].
    set (l := join dir name). destruct (decide (components l = components link)) as [E|Hne].
    - rewrite E, Hl. by rewrite (reclaimable_ext fs l link), Hn by done.
    - unfold symlink, remove_node.
      repeat case_match; try done; rewrite ?lookup_insert_ne, ?lookup_delete_ne by done; done. }
  split_and!; [done..|]. destruct Hs as [Hs|Hs]; [by left|right].
  by rewrite fanout_dir_solid.
Qed.

Lemma fanout_foreign sys dirs bound name fs link t :
  foreign_link fs bound link t → foreign_link (fanout_socket_link sys dirs bound name fs) bound link t.
Proof.
  unfold fanout_socket_link. revert fs. induction dirs as [|dir dirs IH]; intros fs Hf; [done|].
  by apply IH, fanout_dir_foreign.
Qed.

Lemma fanout_solid sys dirs bound name fs k :
  solid (fs !! k) → fanout_socket_link sys dirs bound name fs !! k = fs !! k.
Proof.
  unfold fanout_socket_link. revert fs. induction dirs as [|dir dirs IH]; intros fs Hs; [done|].
  simpl. rewrite IH; by rewrite fanout_dir_solid.
Qed.

(** C24: Binding touches nothing that belongs to others.  Whatever sits
    at a place keeps it, a socket, another file or a link, if the place is
    not one of the ten indexes of a candidate directory with nobody
    answering behind it; a link must moreover not point at the socket now
    bound, and if it has the shape of one of ours its target must exist as
    a socket or file and not itself be such a dead index. *)
Theorem bind_spares_foreign (sys : Sys) (dirs : list string) (fs : Nodes) (link : string) (n : Node) :
  coherent sys → fs !! components link = Some n → ¬ dead_candidate sys dirs (components link) →
  let '(bound, fs') := bind_with_dirs sys dirs fs in
  match n with
  | Sock | Other => True
  | Link t =>
      let target := components (resolve_target link t) in
      (∀ p, bound = Some p → target ≠ components p) ∧
      (ours_shaped t = false ∨ solid (fs !! target) ∧ ¬ dead_candidate sys dirs target)
  end →
  fs' !! components link = Some n.
Proof.
  intros Hc Hn Hk. unfold bind_with_dirs.
  destruct (bind_bases_split sys dirs (bases_of dirs) fs) as (fs1 & Hr & -> & Hfs).
  destruct (bind_bases sys dirs (bases_of dirs) fs) as [bound fs']. simpl in *. subst fs'.
  set (ti := try_indexes sys (bases_of dirs ≫= index_paths) fs) in *.
  assert (∀ k, ¬ dead_candidate sys dirs k → is_Some (fs !! k) → ti.2 !! k = fs !! k) as Hkeep.
  { intros k Hd [m Hm]. pose proof (try_indexes_changes sys (bases_of dirs ≫= index_paths) fs k Hc) as H.
    fold ti in H. destruct ti as [r fs1]. destruct H as [E|[(p & Hp & Ep & Ha & _)|[E _]]]; [done| |congruence].
    destruct Hd. by exists p. }
  intros Hlink. assert (ti.2 !! components link = Some n) as Hl by (rewrite Hkeep; eauto).
  destruct bound as [p|]; [|done]. destruct n as [|t|].
  - rewrite fanout_solid; [done|by left].
  - destruct Hlink as [Hb Hs]. apply (fanout_foreign sys dirs p (socket_file_name p) ti.2 link t).
    split_and!; [done|by apply Hb|]. destruct Hs as [Hs|[Hs Hd]]; [by left|right].
    rewrite Hkeep; [done|done|]. destruct Hs as [-> | ->]; eauto.
  - rewrite fanout_solid; [done|by right].
Qed.

(** ** Leaving no trace *)

(** The name of a path below a directory. *)
Lemma file_name_below dir n :
  "/"%char ∉ chars n → component n = Some (Normal n) → file_name (dir +:+ "/" +:+ n) = Some n.
Proof.
  intros Hn Hc. unfold file_name, components.
  assert (split "/"%char (dir +:+ "/" +:+ n) = split "/"%char dir ++ [n]) as ->.
  { unfold split. rewrite !chars_app. simpl. rewrite split_l_sep, map_app, (split_l_none _ (chars n)) by done.
    simpl. by rewrite of_chars_chars. }
  assert (∀ l, last (omap component (l ++ [n])) = Some (Normal n)) as Hl.
  { intros l. rewrite omap_app. simpl. rewrite Hc. apply last_snoc. }
  assert (∀ c l, last (c :: omap component (l ++ [n])) = Some (Normal n)) as Hl'.
  { intros c l. rewrite last_cons, Hl. done. }
  destruct (starts_with "/" (dir +:+ "/" +:+ n)); [by rewrite Hl'|].
  destruct (split "/"%char dir) as [|s0 l] eqn:Es.
  { exfalso. apply map_eq_nil in Es. by apply split_l_nonempty in Es. }
  cbn [app]. destruct (String.eqb s0 "."); [by rewrite Hl'|].
  change (s0 :: l ++ [n]) with ((s0 :: l) ++ [n]). by rewrite Hl.
Qed.

(** Removal of links only removes. *)
Lemma unlink_dir_sub sys bound name fs dir k :
  unlink_dir sys bound name fs dir !! k = fs !! k ∨ unlink_dir sys bound name fs dir !! k = None.
Proof.
  unfold unlink_dir, remove_node. repeat case_match; try by left.
  destruct (decide (components (join dir name) = k)) as [<-|].
  - right. apply lookup_delete_eq.
  - left. by apply lookup_delete_ne.
Qed.

Lemma unlink_fold_none sys bound name dirs fs k :
  fs !! k = None → foldl (unlink_dir sys bound name) fs dirs !! k = None.
Proof.
  revert fs. induction dirs as [|dir dirs IH]; intros fs Hk; [done|]. apply IH.
  destruct (unlink_dir_sub sys bound name fs dir k) as [->| ->]; done.
Qed.

Lemma unlink_fold_ours sys bound name dirs fs dir :
  (∀ p, sys_removable sys p = true) → is_absolute bound = true →
  dir ∈ dirs → components (join dir name) ≠ components bound →
  fs !! components (join dir name) = Some (Link bound) →
  foldl (unlink_dir sys bound name) fs dirs !! components (join dir name) = None.
Proof.
  intros Hrm Habs. revert fs. induction dirs as [|d dirs IH]; intros fs Hin Hne Hl; [set_solver|].
  simpl. set (k := components (join dir name)) in *.
  destruct (decide (components (join d name) = k)) as [E|E].
  - apply unlink_fold_none. unfold unlink_dir, path_eqb. rewrite bool_decide_false by congruence.
    assert (link_reclaimable fs (join d name) bound = true) as ->.
    { unfold link_reclaimable. rewrite E, Hl. unfold resolve_target, path_eqb. rewrite Habs.
      by rewrite bool_decide_true. }
    unfold remove_node. rewrite Hrm, E. apply lookup_delete_eq.
  - apply elem_of_cons in Hin as [->|Hin]; [done|].
    destruct (unlink_dir_sub sys bound name fs d k) as [Hs|Hs].
    + apply IH; [done|done|by rewrite Hs].
    + by apply unlink_fold_none.
Qed.

(** What fan-out leaves where nothing was. *)
Lemma fanout_fresh sys dirs bound name fs k :
  fs !! k = None ∨
    (∃ dir, dir ∈ dirs ∧ components (join dir name) = k ∧ k ≠ components bound ∧ fs !! k = Some (Link bound)) →
  ∀ dirs', dirs' ⊆ dirs →
  let fs' := fanout_socket_link sys dirs' bound name fs in
  fs' !! k = None ∨
    ∃ dir, dir ∈ dirs ∧ components (join dir name) = k ∧ k ≠ components bound ∧ fs' !! k = Some (Link bound).
Proof.
  intros Hk dirs'. unfold fanout_socket_link. revert fs Hk.
  induction dirs' as [|dir dirs' IH]; intros fs Hk Hsub; [done|]. simpl.
  apply IH; [|set_solver]. unfold fanout_dir, path_eqb. case_bool_decide as Eb; [done|].
  destruct (decide (components (join dir name) = k)) as [E|E].
  - rewrite E. assert (∀ fs0 : Nodes, fs0 !! k = None →
      symlink sys bound (join dir name) fs0 !! k = None ∨ symlink sys bound (join dir name) fs0 !! k = Some (Link bound)) as Hsym.
    { intros fs0 H0. unfold symlink. rewrite E, H0. case_match; [right; apply lookup_insert_eq|by left]. }
    assert (∀ fs0 : Nodes, fs0 !! k = None ∨ fs0 !! k = Some (Link bound) → fs0 !! k = None ∨
      ∃ dir, dir ∈ dirs ∧ components (join dir name) = k ∧ k ≠ components bound ∧ fs0 !! k = Some (Link bound)) as Hok.
    { intros fs0 [?|?]; [by left|right]. exists dir. split_and!; [set_solver|done|congruence|done]. }
    destruct Hk as [Hk|(d & _ & _ & _ & Hk)]; rewrite Hk; [by apply Hok, Hsym|].
    case_match; [|apply Hok; by right]. unfold remove_node. case_match.
    + apply Hok, Hsym. rewrite E. apply lookup_delete_eq.
    + apply Hok. right. unfold symlink. by rewrite E, Hk.
  - assert (∀ x : Nodes, x = fs ∨ x = <[components (join dir name) := Link bound]> fs ∨
      (∃ y, y = delete (components (join dir name)) fs ∧
        (x = y ∨ x = <[components (join dir name) := Link bound]> y)) → x !! k = fs !! k) as Hsame.
    { intros x [->|[->|(y & -> & [->| ->])]]; rewrite ?lookup_insert_ne, ?lookup_delete_ne by done; done. }
    match goal with |- ?x !! k = None ∨ _ => assert (x !! k = fs !! k) as -> end; [|done].
    apply Hsame. unfold symlink, remove_node. repeat case_match; eauto 10.
Qed.

Lemma candidate_name dirs p :
  p ∈ candidates dirs → ∃ name, file_name p = Some name ∧ is_utf8 name = true ∧ socket_file_name p = name.
Proof.
  intros Hp. unfold candidates in Hp. apply list_elem_of_bind in Hp as (base & Hp & Hbase).
  assert (∃ dir, base = dir +:+ "/discord-ipc") as [dir ->].
  { unfold bases_of in Hbase. destruct dirs as [|x dirs].
    - apply list_elem_of_singleton in Hbase as ->. by exists "/tmp".
    - apply list_elem_of_fmap in Hbase as (dir & -> & _). by exists dir. }
  unfold index_paths in Hp. apply list_elem_of_fmap in Hp as (i & -> & Hi).
  set (name := "discord-ipc-" +:+ u64_to_string (Z.of_nat i)).
  assert ((dir +:+ "/discord-ipc") +:+ "-" +:+ u64_to_string (Z.of_nat i) = dir +:+ "/" +:+ name) as ->
    by (unfold name; by rewrite string_app_assoc).
  assert (("/"%char ∉ chars name) ∧ component name = Some (Normal name) ∧ is_utf8 name = true) as (H1 & H2 & H3).
  { unfold name. clear -Hi. apply elem_of_seq in Hi.
    do 10 (destruct i as [|i]; [split_and!; [|vm_compute; reflexivity..];
      intros Hin%list_elem_of_In; vm_compute in Hin; repeat destruct Hin as [Hin|Hin]; discriminate || done|]).
    lia. }
  pose proof (file_name_below dir name H1 H2) as Hf.
  exists name. unfold socket_file_name. by rewrite Hf, H3.
Qed.

(** A listener leaves no trace: what was not there before a successful
    bind, socket, links in every candidate directory, is not there after
    the transport is dropped, nor is the socket itself. *)
Theorem bind_then_drop_leaves_nothing (sys : Sys) (dirs : list string) (fs : Nodes) (bound : string) :
  coherent sys → (∀ p, sys_removable sys p = true) →
  (bind_with_dirs sys dirs fs).1 = Some bound → is_absolute bound = true →
  let gone := drop_files sys dirs bound (bind_with_dirs sys dirs fs).2 in
  gone !! components bound = None ∧ ∀ k, fs !! k = None → gone !! k = None.
Proof.
  intros Hc Hrm Hb Habs. cbv zeta. unfold drop_files. unfold remove_node at 1 2. rewrite Hrm.
  split; [apply lookup_delete_eq|]. intros k Hk.
  destruct (decide (components bound = k)) as [<-|Hne]; [apply lookup_delete_eq|].
  rewrite lookup_delete_ne by done. unfold bind_with_dirs in *.
  destruct (bind_bases_split sys dirs (bases_of dirs) fs) as (fs1 & Hr & -> & Hfs).
  rewrite Hfs, Hb. rewrite Hb in Hr.
  pose proof (try_indexes_changes sys (bases_of dirs ≫= index_paths) fs k Hc) as Hch.
  pose proof (try_indexes_first sys (bases_of dirs ≫= index_paths) fs Hc) as Hfirst.
  destruct (try_indexes sys _ fs) as [r fs1]. simpl in *. subst r.
  assert (bound ∈ candidates dirs) as Hcand.
  { symmetry in Hfirst. apply find_map_Some in Hfirst as (q & Hq & E).
    destruct (claimable sys fs q); [by injection E as ->|done]. }
  destruct (candidate_name dirs bound Hcand) as (name & Hname & Hu & ->).
  assert (fs1 !! k = None) as H1.
  { destruct Hch as [->|[(p & _ & <- & _ & [Hn|[= ->]])|[_ (p & _ & [= ->] & <-)]]]; done. }
  unfold remove_socket_links. rewrite Hname, Hu.
  destruct (fanout_fresh sys dirs bound name fs1 k (or_introl H1) dirs) as [Hn|(dir & Hin & <- & Hd & Hl)];
    [done|by apply unlink_fold_none|].
  by apply unlink_fold_ours.
Qed.

(** ** A system to evaluate on: a live holder on index 0, a stale socket on
    index 1, everything writable. *)

Definition demo_sys : Sys := {|
  sys_usable := λ _, true; sys_removable := λ _, true;
  sys_probe := λ p, if path_eqb p "/run/discord-ipc-0" then Header (encode Pong "") else NoConnect
|}.

Definition demo_nodes : Nodes :=
  {[components "/run/discord-ipc-0" := Sock; components "/run/discord-ipc-1" := Sock;
    components "/tmp/discord-ipc-0" := Link "/run/discord-ipc-0"]}.

Lemma demo_coherent : coherent demo_sys.
Proof.
  constructor; [done..|]. intros p q E. unfold demo_sys, path_eqb. cbn [sys_probe]. by rewrite E.
Qed.

Lemma bind_takes_first_claimable_witness :
  (bind_with_dirs demo_sys ["/run"; "/tmp"] demo_nodes).1 = Some "/run/discord-ipc-1".
Proof.
  etrans; [apply (bind_takes_first_claimable demo_sys); exact demo_coherent|vm_compute; reflexivity].
Defined.

Lemma bind_spares_foreign_witness :
  (bind_with_dirs demo_sys ["/run"; "/tmp"] demo_nodes).2 !! components "/run/discord-ipc-0" = Some Sock.
Proof.
  pose proof (bind_spares_foreign demo_sys ["/run"; "/tmp"] demo_nodes "/run/discord-ipc-0" Sock
    demo_coherent eq_refl) as H.
  destruct (bind_with_dirs demo_sys ["/run"; "/tmp"] demo_nodes) as [b fs']. apply H; [|done].
  intros (p & _ & E & Ha). unfold alive, demo_sys, path_eqb in Ha. cbn [sys_probe] in Ha.
  rewrite E in Ha. vm_compute in Ha. discriminate.
Defined.

Lemma bind_then_drop_leaves_nothing_witness :
  drop_files demo_sys ["/run"; "/tmp"] "/run/discord-ipc-1"
    (bind_with_dirs demo_sys ["/run"; "/tmp"] demo_nodes).2 !! components "/tmp/discord-ipc-1" = None.
Proof.
  refine (proj2 (bind_then_drop_leaves_nothing demo_sys ["/run"; "/tmp"] demo_nodes "/run/discord-ipc-1"
    demo_coherent _ _ _) _ _); [done|vm_compute; reflexivity..].
Defined.
