(* ===== verification/IpcAccept.v ===== *)
(** * The IPC accept loop and its shutdown (crates/rsrpc-transport-ipc/src/unix.rs)

    [accept_loop], the blocking pump tasks it spawns, [IpcTransport::shutdown]
    and [Drop] run on different threads.  Each is a sequence of atomic steps
    between the points where another thread can see or interrupt it; a
    system state takes any enabled step.  The accept task is interrupted only
    where it awaits: in [select!] and on the lock of the task set.  Connection
    ids are a [u64] counter; its wrap after 2^64 accepts is not modelled.  The
    files [Drop] cleans are [drop_files] of [IpcListen]. *)

From stdpp Require Import base gmap list sets fin_maps relations.
From S2P Require Import Prelude.

Local Open Scope nat_scope.
Local Open Scope list_scope.

Definition MAX_IPC_PUMPS : nat := 16.

(** [accept_error_backoff]: milliseconds to wait after an accept error. *)
Inductive ErrorKind := ConnectionAborted | Interrupted | OtherKind.

Definition accept_error_backoff (kind : ErrorKind) : option nat :=
  match kind with ConnectionAborted | Interrupted => None | OtherKind => Some 50 end.

(** ** State *)

(** A pump task: queued for a blocking thread; inside [handle_stream]; past
    [retain]; its permit returned; ready to be joined. *)
Inductive PumpPhase := Queued | Pumping | Unlisted | Released | Finished.

#[global] Instance PumpPhase_eq_dec : EqDecision PumpPhase.
Proof. solve_decision. Defined.

(** [t_listed]: [try_clone] gave a clone for [live]. *)
Record Task := { t_phase : PumpPhase; t_listed : bool }.

(** Where the accept task is: at the token's branch of [select!], where it
    also parks; past it, at the listener's; holding an accepted stream; a
    permit taken and the clone listed, awaiting the set's lock; returned;
    aborted. *)
Inductive AcceptPhase := Selecting | Polling | Taken | Registered (id : nat) (listed : bool) | Ended | Aborted.

(** Where [shutdown] is; [joined] is whether the accept task was seen to end
    within its two seconds. *)
Inductive ShutPhase :=
  | Up | Cancelling | Awaited (joined : bool) | Drained (joined : bool) | Draining (joined : bool)
  | Down (joined : bool).

Inductive DropPhase := Held | DropCancelled | DropDrained.

Record Acc := {
  token : bool;
  aborting : bool;
  accept_at : AcceptPhase;
  permits : nat;
  live : list nat;
  next_conn_id : nat;
  tasks : gmap nat Task;
  closed : gset nat;
  conns : gset nat;
  owned : gset nat;
  shut_at : ShutPhase;
  drop_at : DropPhase
}.

Definition Acc_new : Acc := {|
  token := false; aborting := false; accept_at := Selecting; permits := MAX_IPC_PUMPS; live := [];
  next_conn_id := 1; tasks := ∅; closed := ∅; conns := ∅; owned := ∅; shut_at := Up; drop_at := Held |}.

Definition phase_of (s : Acc) (id : nat) : option PumpPhase := t_phase <$> tasks s !! id.

(** The tasks of a set that [try_join_next] would not return yet. *)
Definition unfinished (ts : gmap nat Task) (ids : gset nat) : gset nat :=
  base.filter (λ id, t_phase <$> ts !! id ≠ Some Finished) ids.

(** ** The accept task *)

Definition with_accept (a : AcceptPhase) (s : Acc) : Acc :=
  {| token := token s; aborting := aborting s; accept_at := a; permits := permits s; live := live s;
     next_conn_id := next_conn_id s; tasks := tasks s; closed := closed s; conns := conns s;
     owned := owned s; shut_at := shut_at s; drop_at := drop_at s |}.

(** A permit, an id, and the clone listed when there is one. *)
Definition register (listed : bool) (s : Acc) : Acc :=
  {| token := token s; aborting := aborting s; accept_at := Registered (next_conn_id s) listed;
     permits := pred (permits s);
     live := if listed then live s ++ [next_conn_id s] else live s;
     next_conn_id := S (next_conn_id s); tasks := tasks s; closed := closed s; conns := conns s;
     owned := owned s; shut_at := shut_at s; drop_at := drop_at s |}.

(** Under the set's lock: reap, then [spawn_blocking]. *)
Definition spawn (id : nat) (listed : bool) (s : Acc) : Acc :=
  {| token := token s; aborting := aborting s; accept_at := Selecting; permits := permits s;
     live := live s; next_conn_id := next_conn_id s;
     tasks := <[id := {| t_phase := Queued; t_listed := listed |}]> (tasks s); closed := closed s;
     conns := {[id]} ∪ unfinished (tasks s) (conns s);
     owned := owned s; shut_at := shut_at s; drop_at := drop_at s |}.

(** Aborted on the set's lock: the permit and the stream go with the
    future, the listed clone stays. *)
Definition abort_registered (s : Acc) : Acc :=
  {| token := token s; aborting := aborting s; accept_at := Aborted; permits := S (permits s);
     live := live s; next_conn_id := next_conn_id s; tasks := tasks s; closed := closed s;
     conns := conns s; owned := owned s; shut_at := shut_at s; drop_at := drop_at s |}.

(** ** The pumps *)

(** A pump moves on, handing back its permit when [release]. *)
Definition advance (id : nat) (t : Task) (to : PumpPhase) (live' : list nat) (release : bool) (s : Acc) : Acc :=
  {| token := token s; aborting := aborting s; accept_at := accept_at s;
     permits := if release then S (permits s) else permits s;
     live := live'; next_conn_id := next_conn_id s;
     tasks := <[id := {| t_phase := to; t_listed := t_listed t |}]> (tasks s); closed := closed s;
     conns := conns s; owned := owned s; shut_at := shut_at s; drop_at := drop_at s |}.

(** ** Shutdown and drop *)

Definition with_shut (p : ShutPhase) (s : Acc) : Acc :=
  {| token := token s; aborting := aborting s; accept_at := accept_at s; permits := permits s;
     live := live s; next_conn_id := next_conn_id s; tasks := tasks s; closed := closed s;
     conns := conns s; owned := owned s; shut_at := p; drop_at := drop_at s |}.

Definition cancel (abort : bool) (s : Acc) : Acc :=
  {| token := true; aborting := aborting s || abort; accept_at := accept_at s; permits := permits s;
     live := live s; next_conn_id := next_conn_id s; tasks := tasks s; closed := closed s;
     conns := conns s; owned := owned s; shut_at := shut_at s; drop_at := drop_at s |}.

(** [live.drain(..)], every socket shut down. *)
Definition drain (s : Acc) : Acc :=
  {| token := token s; aborting := aborting s; accept_at := accept_at s; permits := permits s;
     live := []; next_conn_id := next_conn_id s; tasks := tasks s;
     closed := closed s ∪ list_to_set (live s); conns := conns s; owned := owned s;
     shut_at := shut_at s; drop_at := drop_at s |}.

(** [std::mem::take] of the task set. *)
Definition take_set (s : Acc) : Acc :=
  {| token := token s; aborting := aborting s; accept_at := accept_at s; permits := permits s;
     live := live s; next_conn_id := next_conn_id s; tasks := tasks s; closed := closed s;
     conns := ∅; owned := conns s; shut_at := shut_at s; drop_at := drop_at s |}.

Definition disown (id : nat) (s : Acc) : Acc :=
  {| token := token s; aborting := aborting s; accept_at := accept_at s; permits := permits s;
     live := live s; next_conn_id := next_conn_id s; tasks := tasks s; closed := closed s;
     conns := conns s; owned := owned s ∖ {[id]}; shut_at := shut_at s; drop_at := drop_at s |}.

Definition with_drop (d : DropPhase) (s : Acc) : Acc :=
  {| token := token s; aborting := aborting s; accept_at := accept_at s; permits := permits s;
     live := live s; next_conn_id := next_conn_id s; tasks := tasks s; closed := closed s;
     conns := conns s; owned := owned s; shut_at := shut_at s; drop_at := d |}.

(** ** Steps *)

Inductive Label :=
  | Poll | Pend | Accept | AcceptErr | Refuse | Register (clone : bool) | Spawn | Break | AbortAccept
  | Start (id : nat) | Return (id : nat) | Release (id : nat) | Finish (id : nat)
  | AbortQueued (id : nat)
  | SdCancel | SdAwait | SdTimeout | SdDrain | SdTake | SdJoin (id : nat) | SdDown
  | DropCancel | DropDrain.

Definition is_down (p : ShutPhase) : bool := match p with Down _ => true | _ => false end.
Definition is_dropped (d : DropPhase) : bool := match d with DropDrained => true | _ => false end.

(** The loop of [accept_loop].  [select!] is biased: the token is looked at
    before the listener, and can be cancelled in between.  A stream is refused when it cannot be made
    blocking or when no permit is left. *)
Definition accept_step (l : Label) (s : Acc) : option Acc :=
  match l, accept_at s with
  | Break, Selecting => if token s then Some (with_accept Ended s) else None
  | Poll, Selecting => if token s then None else Some (with_accept Polling s)
  | Pend, Polling => Some (with_accept Selecting s)
  | Accept, Polling => Some (with_accept Taken s)
  | AcceptErr, Polling => Some (with_accept Selecting s)
  | Refuse, Taken => Some (with_accept Selecting s)
  | Register clone, Taken => if decide (permits s = 0) then None else Some (register clone s)
  | Spawn, Registered id listed => Some (spawn id listed s)
  | AbortAccept, Selecting => if aborting s then Some (with_accept Aborted s) else None
  | AbortAccept, Registered id listed =>
      if aborting s then Some (abort_registered s) else None
  | _, _ => None
  end.

(** The closure given to [spawn_blocking], and the abort of one that has no
    thread yet. *)
Definition pump_step (l : Label) (s : Acc) : option Acc :=
  let at_phase id p k := match tasks s !! id with
                        | Some t => if decide (t_phase t = p) then Some (k t) else None
                        | None => None
                        end in
  match l with
  | Start id => at_phase id Queued (λ t, advance id t Pumping (live s) false s)
  | Return id =>
      at_phase id Pumping (λ t, advance id t Unlisted (base.filter (λ i, i ≠ id) (live s)) false s)
  | Release id => at_phase id Unlisted (λ t, advance id t Released (live s) true s)
  | Finish id => at_phase id Released (λ t, advance id t Finished (live s) false s)
  | AbortQueued id =>
      if is_down (shut_at s) && bool_decide (id ∈ owned s) || is_dropped (drop_at s)
      then at_phase id Queued (λ t, advance id t Finished (live s) true s) else None
  | _ => None
  end.

(** [shutdown], and [Drop], which can overtake it at any await.  Only a drop
    that finds the accept task's handle aborts it. *)
Definition life_step (l : Label) (s : Acc) : option Acc :=
  match l, drop_at s, shut_at s with
  | SdCancel, Held, Up => Some (with_shut Cancelling (cancel false s))
  | SdAwait, Held, Cancelling =>
      match accept_at s with Ended => Some (with_shut (Awaited true) s) | _ => None end
  | SdTimeout, Held, Cancelling => Some (with_shut (Awaited false) s)
  | SdDrain, Held, Awaited j => Some (with_shut (Drained j) (drain s))
  | SdTake, Held, Drained j => Some (with_shut (Draining j) (take_set s))
  | SdJoin id, Held, Draining _ =>
      if bool_decide (id ∈ owned s) && bool_decide (phase_of s id = Some Finished)
      then Some (disown id s) else None
  | SdDown, Held, Draining j => Some (with_shut (Down j) s)
  | DropCancel, Held, p =>
      Some (with_drop DropCancelled (cancel (match p with Up => true | _ => false end) s))
  | DropDrain, DropCancelled, _ => Some (with_drop DropDrained (drain s))
  | _, _, _ => None
  end.

Definition ipc_step (l : Label) (s : Acc) : option Acc :=
  match l with
  | Poll | Pend | Accept | AcceptErr | Refuse | Register _ | Spawn | Break | AbortAccept => accept_step l s
  | Start _ | Return _ | Release _ | Finish _ | AbortQueued _ => pump_step l s
  | _ => life_step l s
  end.

Definition ipc_steps (s s' : Acc) : Prop := ∃ l, ipc_step l s = Some s'.

(** A run of given steps. *)
Fixpoint ipc_run (ls : list Label) (s : Acc) : option Acc :=
  match ls with
  | [] => Some s
  | l :: ls => match ipc_step l s with Some s' => ipc_run ls s' | None => None end
  end.

Lemma ipc_run_rtc ls s s' : ipc_run ls s = Some s' → rtc ipc_steps s s'.
Proof.
  revert s. induction ls as [|l ls IH]; intros s; cbn; [intros [= <-]; constructor|].
  destruct (ipc_step l s) eqn:E; [|done]. intros H. eapply rtc_l; [by exists l|]. auto.
Qed.

(** ** The invariant *)

(** A permit is held from the accept to the end of the closure. *)
Definition holds (t : Task) : Prop :=
  match t_phase t with Queued | Pumping | Unlisted => True | _ => False end.

#[global] Instance holds_dec t : Decision (holds t).
Proof. unfold holds. destruct (t_phase t); apply _. Defined.

(** The socket can still be in a blocking read. *)
Definition active (t : Task) : Prop :=
  match t_phase t with Queued | Pumping => True | _ => False end.

#[global] Instance active_dec t : Decision (active t).
Proof. unfold active. destruct (t_phase t); apply _. Defined.

Definition holders (s : Acc) : gmap nat Task := base.filter (λ kv, holds kv.2) (tasks s).

Definition pending (s : Acc) : gset nat :=
  match accept_at s with Registered id _ => {[id]} | _ => ∅ end.

(** Past the drain that followed the accept task's end. *)
Definition clean_drained (p : ShutPhase) : Prop :=
  match p with Drained true | Draining true | Down true => True | _ => False end.

Record acc_inv (s : Acc) : Prop := {
  inv_permits : permits s + size (holders s) + size (pending s) = MAX_IPC_PUMPS;
  inv_fresh : ∀ id, id ∈ dom (tasks s) ∨ id ∈ live s ∨ id ∈ pending s → id < next_conn_id s;
  inv_pending : ∀ id listed, accept_at s = Registered id listed →
    tasks s !! id = None ∧ (listed = true → id ∈ live s ∨ id ∈ closed s);
  inv_listed : ∀ id t, tasks s !! id = Some t → t_listed t = true → active t →
    id ∈ live s ∨ id ∈ closed s;
  inv_nodup : NoDup (live s);
  inv_owner : token s = false → ∀ id, id ∈ live s →
    id ∈ pending s ∨ ∃ t, tasks s !! id = Some t ∧ active t;
  inv_token : aborting s = true ∨ shut_at s ≠ Up ∨ drop_at s ≠ Held → token s = true;
  inv_awaited : shut_at s = Awaited true ∨ clean_drained (shut_at s) → accept_at s = Ended;
  inv_drained : clean_drained (shut_at s) → live s = [];
  inv_sets : conns s ∪ owned s ⊆ dom (tasks s)
}.

Lemma Acc_new_inv : acc_inv Acc_new.
Proof.
  constructor; cbn; try done; try (intros; set_solver).
  constructor.
Qed.

Lemma holders_insert (ts : gmap nat Task) id t t' :
  ts !! id = Some t → holds t →
  size (base.filter (λ kv : nat * Task, holds kv.2) (<[id := t']> ts)) +
    (if decide (holds t') then 0 else 1) =
  size (base.filter (λ kv : nat * Task, holds kv.2) ts).
Proof.
  intros Ht Hh. rewrite map_filter_insert. cbn.
  assert (base.filter (λ kv : nat * Task, holds kv.2) ts !! id = Some t) as Hf
    by by apply map_lookup_filter_Some.
  case_decide.
  - rewrite map_size_insert, Hf. cbn. lia.
  - rewrite map_filter_delete, map_size_delete, Hf. cbn.
    assert (size (base.filter (λ kv : nat * Task, holds kv.2) ts) ≠ 0) by
      (apply map_size_non_empty_iff; intros E; by rewrite E in Hf). lia.
Qed.

(** *** The accept task *)

Lemma with_accept_inv a s :
  acc_inv s → pending s = ∅ → (∀ id listed, a ≠ Registered id listed) →
  (accept_at s = Ended → a = Ended) → acc_inv (with_accept a s).
Proof.
  intros [Hp Hf Hpe Hl Hn Ho Ht Ha Hd Hse] Hs Hna He.
  assert (pending (with_accept a s) = ∅) as Hs'.
  { unfold pending. cbn. destruct a; try done. by destruct (Hna id listed). }
  rewrite Hs in *. constructor; rewrite ?Hs'; cbn; auto.
  intros id listed E. by destruct (Hna id listed).
Qed.

Lemma register_inv listed s :
  acc_inv s → accept_at s = Taken → permits s ≠ 0 → acc_inv (register listed s).
Proof.
  intros [Hp Hf Hpe Hl Hn Ho Ht Ha Hd Hse] Ea Hne.
  assert (pending s = ∅) as Hs by (unfold pending; by rewrite Ea). rewrite Hs in *.
  assert (∀ id, id ∈ (if listed then live s ++ [next_conn_id s] else live s) ↔
    id ∈ live s ∨ listed = true ∧ id = next_conn_id s) as Hlive by (destruct listed; set_solver).
  constructor; unfold pending; cbn.
  - rewrite size_singleton. rewrite size_empty in Hp. unfold holders in *. cbn. lia.
  - intros id. rewrite Hlive. intros [H|[[H|[_ ->]]| ->%elem_of_singleton]]; [| |lia..];
      transitivity (next_conn_id s); auto.
  - intros id l [= <- <-]. split; [|intros ->; rewrite Hlive; auto].
    destruct (tasks s !! _) eqn:E; [|done].
    assert (next_conn_id s < next_conn_id s); [|lia]. apply Hf. left. by apply elem_of_dom_2 in E.
  - intros id t E Hli Hac. rewrite Hlive. destruct (Hl id t E Hli Hac); auto.
  - destruct listed; [|done]. apply NoDup_app. split_and!; [done| |apply NoDup_singleton].
    intros id Hid Hid'%list_elem_of_singleton. subst id.
    assert (next_conn_id s < next_conn_id s) by auto. lia.
  - intros Htk id. rewrite Hlive. intros [H|[_ ->]]; [|set_solver].
    destruct (Ho Htk id H) as [?|?]; [set_solver|auto].
  - done.
  - intros H. rewrite Ha in Ea by done. done.
  - intros H. rewrite Ha in Ea by auto. done.
  - done.
Qed.

Lemma spawn_inv id listed s :
  acc_inv s → accept_at s = Registered id listed → acc_inv (spawn id listed s).
Proof.
  intros [Hp Hf Hpe Hl Hn Ho Ht Ha Hd Hse] Ea. destruct (Hpe id listed Ea) as [Hnone Hin].
  assert (pending s = {[id]}) as Hs by (unfold pending; by rewrite Ea). rewrite Hs in *.
  constructor; unfold pending, holders in *; cbn.
  - rewrite map_filter_insert_True by done. rewrite size_singleton in Hp.
    rewrite map_size_insert_None by (apply map_lookup_filter_None; by left).
    rewrite size_empty. lia.
  - intros j. rewrite dom_insert. set_solver.
  - done.
  - intros j t. destruct (decide (j = id)) as [->|]; simplify_map_eq; [|by eauto].
    intros [= <-] Hli _. cbn in Hli. auto.
  - done.
  - intros Htk j Hj. right. destruct (Ho Htk j Hj) as [->%elem_of_singleton|(t & E & Hac)].
    + eexists. by simplify_map_eq.
    + exists t. rewrite lookup_insert_ne by (intros ->; congruence). done.
  - done.
  - intros H. rewrite Ha in Ea by done. done.
  - done.
  - rewrite dom_insert. unfold unfinished. set_solver.
Qed.

Lemma abort_registered_inv id listed s :
  acc_inv s → accept_at s = Registered id listed → aborting s = true → acc_inv (abort_registered s).
Proof.
  intros [Hp Hf Hpe Hl Hn Ho Ht Ha Hd Hse] Ea Hab.
  assert (pending s = {[id]}) as Hs by (unfold pending; by rewrite Ea). rewrite Hs in *.
  constructor; unfold pending, holders in *; cbn; try done.
  - rewrite size_singleton in Hp. rewrite size_empty. lia.
  - set_solver.
  - rewrite Ht by auto. done.
  - intros H. rewrite Ha in Ea by done. done.
Qed.

Lemma accept_step_inv l s s' : accept_step l s = Some s' → acc_inv s → acc_inv s'.
Proof.
  intros E Hi.
  destruct l, (accept_at s) eqn:Ea; cbn in E; rewrite ?Ea in E; try done; repeat case_match; simplify_eq;
    eauto using register_inv, spawn_inv, abort_registered_inv;
    apply with_accept_inv; try done; try (unfold pending; by rewrite Ea).
Qed.

(** *** The pumps *)

Lemma advance_inv id t to live' release s :
  acc_inv s → tasks s !! id = Some t →
  (live' = live s ∨ live' = base.filter (λ i, i ≠ id) (live s)) →
  let t' := {| t_phase := to; t_listed := t_listed t |} in
  (holds t' → holds t) → (active t' → active t ∧ live' = live s) →
  release = bool_decide (holds t ∧ ¬ holds t') →
  (active t → ¬ active t' → id ∈ live' → token s = true) →
  acc_inv (advance id t to live' release s).
Proof.
  intros [Hp Hf Hpe Hl Hn Ho Ht Ha Hd Hse] E Hlive t' Hho Hac Hrel Htk.
  assert (∀ j, j ∈ live' → j ∈ live s) as Hsub.
  { destruct Hlive as [->| ->]; [done|]. intros j. rewrite list_elem_of_filter. tauto. }
  assert (∀ j, j ≠ id → j ∈ live s → j ∈ live') as Hsup.
  { destruct Hlive as [->| ->]; [done|]. intros j. rewrite list_elem_of_filter. tauto. }
  constructor; unfold pending, holders in *; cbn.
  - rewrite <- Hp. fold t'. destruct (decide (holds t)) as [Hh|Hh].
    + rewrite <- (holders_insert (tasks s) id t t') by done. rewrite Hrel.
      case_decide; case_bool_decide; try tauto; lia.
    + rewrite Hrel, bool_decide_false by tauto.
      rewrite map_filter_insert_not' by (cbn; first [tauto | congruence]). done.
  - intros j. rewrite dom_insert_lookup by eauto. intros [?|[?|?]]; apply Hf; auto.
  - intros j l Ea. destruct (Hpe j l Ea) as [Hn1 Hn2].
    assert (j ≠ id) by congruence. rewrite lookup_insert_ne by done. split; [done|].
    intros Hl1. destruct (Hn2 Hl1); auto.
  - intros j u. destruct (decide (j = id)) as [->|Hne].
    + rewrite lookup_insert_eq. intros [= <-] Hl1 Hac1. destruct (Hac Hac1) as [? ->]. eapply Hl; eauto.
    + rewrite lookup_insert_ne by done. intros Hu Hl1 Hac1. destruct (Hl j u Hu Hl1 Hac1); auto.
  - destruct Hlive as [->| ->]; [done|]. by apply NoDup_filter.
  - intros Htok j Hj. destruct (Ho Htok j (Hsub j Hj)) as [?|(u & Hu & Hau)]; [auto|right].
    destruct (decide (j = id)) as [->|Hne]; [|exists u; by rewrite lookup_insert_ne].
    rewrite lookup_insert_eq. eexists. split; [done|]. rewrite E in Hu. injection Hu as <-.
    destruct (decide (active t')) as [|Hna]; [done|]. rewrite Htk in Htok by done. done.
  - done.
  - done.
  - intros H. destruct (live') as [|j ?]; [done|]. specialize (Hsub j). rewrite Hd in Hsub by done. set_solver.
  - rewrite dom_insert. set_solver.
Qed.

Lemma pump_step_inv l s s' : pump_step l s = Some s' → acc_inv s → acc_inv s'.
Proof.
  intros E Hi. unfold pump_step in E.
  assert (∀ id p k, (match tasks s !! id with
    | Some t => if decide (t_phase t = p) then Some (k t) else None | None => None end) = Some s' →
    ∃ t, tasks s !! id = Some t ∧ t_phase t = p ∧ s' = k t) as Hat.
  { intros id p k. destruct (tasks s !! id) as [t|]; [|done]. case_decide; [|done].
    intros [= <-]. by exists t. }
  destruct l; try done.
  5: destruct (_ || _) eqn:Eg; [|done].
  all: apply Hat in E as (t & Ht & Hph & ->); clear Hat; apply advance_inv; try done; auto;
    try (case_bool_decide as Hb; unfold holds in Hb; cbn in Hb; rewrite Hph in Hb; first [done | exfalso; tauto]);
    unfold active, holds; cbn; rewrite ?Hph; try tauto.
  - intros _ _ [Hne _]%list_elem_of_filter. done.
  - symmetry. apply bool_decide_eq_true. rewrite Hph. by split; [|intros []].
  - intros _ _ _. apply (inv_token s Hi). right. unfold is_down, is_dropped in Eg.
    destruct (shut_at s); [|by left..]. right. by intros Eh; rewrite Eh in Eg.
Qed.

(** *** Shutdown and drop *)

Lemma with_shut_inv p s :
  acc_inv s → token s = true → (p = Awaited true ∨ clean_drained p → accept_at s = Ended) →
  (clean_drained p → live s = []) → acc_inv (with_shut p s).
Proof. intros [Hp Hf Hpe Hl Hn Ho Ht Ha Hd Hse] Htk H1 H2. by constructor. Qed.

Lemma cancel_inv b s : acc_inv s → acc_inv (cancel b s).
Proof. intros [Hp Hf Hpe Hl Hn Ho Ht Ha Hd Hse]. by constructor. Qed.

Lemma drain_inv s : acc_inv s → acc_inv (drain s).
Proof.
  intros [Hp Hf Hpe Hl Hn Ho Ht Ha Hd Hse].
  assert (∀ id, id ∈ live s ∨ id ∈ closed s → id ∈ closed s ∪ list_to_set (live s)) as Hc by set_solver.
  constructor; unfold pending, holders in *; cbn; try done.
  - set_solver.
  - intros id l E. destruct (Hpe id l E). auto.
  - intros id t E H1 H2. right. eauto.
  - constructor.
  - set_solver.
Qed.

Lemma take_set_inv s : acc_inv s → acc_inv (take_set s).
Proof. intros [Hp Hf Hpe Hl Hn Ho Ht Ha Hd Hse]. constructor; try done. cbn. set_solver. Qed.

Lemma disown_inv id s : acc_inv s → acc_inv (disown id s).
Proof. intros [Hp Hf Hpe Hl Hn Ho Ht Ha Hd Hse]. constructor; try done. cbn. set_solver. Qed.

Lemma with_drop_inv d s : acc_inv s → token s = true → acc_inv (with_drop d s).
Proof. intros [Hp Hf Hpe Hl Hn Ho Ht Ha Hd Hse] Htk. by constructor. Qed.

Lemma life_step_inv l s s' : life_step l s = Some s' → acc_inv s → acc_inv s'.
Proof.
  intros E Hi. pose proof (inv_token s Hi) as Ht. pose proof (inv_awaited s Hi) as Ha.
  pose proof (inv_drained s Hi) as Hd. unfold life_step in E.
  destruct l, (drop_at s) eqn:Ed, (shut_at s) eqn:Es; try done; repeat case_match; simplify_eq;
    repeat match goal with |- acc_inv _ =>
      first [assumption | simple apply with_drop_inv | simple apply with_shut_inv
            | simple apply drain_inv | simple apply cancel_inv | simple apply take_set_inv
            | simple apply disown_inv] end;
    try done; auto; cbn; try (intros [?|?]; done); try (destruct joined; naive_solver).
Qed.

Lemma ipc_step_inv s s' : ipc_steps s s' → acc_inv s → acc_inv s'.
Proof.
  intros [l E]. assert (accept_step l s = Some s' ∨ pump_step l s = Some s' ∨ life_step l s = Some s')
    as [H|[H|H]] by (destruct l; unfold ipc_step in E; auto);
    eauto using accept_step_inv, pump_step_inv, life_step_inv.
Qed.

Lemma reachable_inv s : rtc ipc_steps Acc_new s → acc_inv s.
Proof.
  intros H. assert (acc_inv Acc_new) as Hi by apply Acc_new_inv. revert Hi.
  induction H; eauto using ipc_step_inv.
Qed.

(** ** What it gives *)

(** The pump cap.  However accepts, refusals, pumps, shutdown and drop
    interleave, the permits left and the connections that hold one add up
    to sixteen: at most sixteen pumps have a thread, and a peer is refused
    for the cap only when sixteen hold a permit.  While the transport is up,
    [live] lists each connection once and only connections that hold a
    permit, so it is bounded too. *)
Theorem ipc_pumps_are_capped (s : Acc) :
  rtc ipc_steps Acc_new s →
  permits s + size (holders s) + size (pending s) = MAX_IPC_PUMPS ∧
  (token s = false → NoDup (live s) ∧ length (live s) ≤ MAX_IPC_PUMPS).
Proof.
  intros Hi%reachable_inv. split; [apply Hi|]. intros Htk. split; [apply Hi|].
  transitivity (size (dom (holders s) ∪ pending s)).
  - rewrite <- (size_list_to_set (C := gset nat) (live s)) by apply Hi. apply subseteq_size.
    intros id Hid%elem_of_list_to_set. destruct (inv_owner s Hi Htk id Hid) as [?|(t & Ht & Ha)]; [set_solver|].
    apply elem_of_union. left. apply elem_of_dom. exists t. apply map_lookup_filter_Some. split; [done|].
    unfold active, holds in *. cbn. by destruct (t_phase t).
  - pose proof (inv_permits s Hi). pose proof (size_union_alt (dom (holders s)) (pending s)).
    assert (size (pending s ∖ dom (holders s)) ≤ size (pending s)) by (apply subseteq_size; set_solver).
    rewrite size_dom in *. lia.
Qed.

(** A graceful shutdown reaches every pump.  Once [shutdown] has seen the
    accept task end and drained [live], nothing is accepted or spawned any
    more and every connection whose clone could be listed has its socket
    shut down, whatever ran in between: no pump stays parked in a read. *)
Theorem ipc_shutdown_unblocks (s : Acc) :
  rtc ipc_steps Acc_new s → clean_drained (shut_at s) →
  accept_at s = Ended ∧ live s = [] ∧
  ∀ id t, tasks s !! id = Some t → t_listed t = true → active t → id ∈ closed s.
Proof.
  intros Hi%reachable_inv Hc. pose proof (inv_drained s Hi Hc) as Hl.
  split_and!; [apply Hi; auto|done|]. intros id t Ht Hli Ha.
  destruct (inv_listed s Hi id t Ht Hli Ha) as [H|?]; [|done]. rewrite Hl in H. by apply elem_of_nil in H.
Qed.

(** *** Draining *)

(** The steps of a pump that its peer has no part in: a read that returns
    because the socket was shut down, and what follows it. *)
Definition unaided (s : Acc) (l : Label) : Prop :=
  match l with
  | Start _ | Release _ | Finish _ | SdJoin _ => True
  | Return id => id ∈ closed s
  | _ => False
  end.

(** What the drain leaves alone. *)
Definition same_drain (s s' : Acc) : Prop :=
  closed s' = closed s ∧ shut_at s' = shut_at s ∧ drop_at s' = drop_at s.

Lemma same_drain_trans s1 s2 s3 : same_drain s1 s2 → same_drain s2 s3 → same_drain s1 s3.
Proof. intros (? & ? & ?) (? & ? & ?). split_and!; congruence. Qed.

Lemma unaided_same s s' l : same_drain s s' → unaided s' l → unaided s l.
Proof. intros (E & _). unfold unaided. by rewrite E. Qed.

Lemma ipc_run_app ls1 ls2 s s1 s2 :
  ipc_run ls1 s = Some s1 → ipc_run ls2 s1 = Some s2 → ipc_run (ls1 ++ ls2) s = Some s2.
Proof.
  revert s. induction ls1 as [|l ls IH]; intros s; cbn; [by intros [= ->]|].
  destruct (ipc_step l s); [|done]. eauto.
Qed.

Definition finish_labels (id : nat) (p : PumpPhase) : list Label :=
  match p with
  | Queued => [Start id; Return id; Release id; Finish id]
  | Pumping => [Return id; Release id; Finish id]
  | Unlisted => [Release id; Finish id]
  | Released => [Finish id]
  | Finished => []
  end.

Lemma finish_one s id t :
  tasks s !! id = Some t → (active t → id ∈ closed s) →
  ∃ s', ipc_run (finish_labels id (t_phase t)) s = Some s' ∧ Forall (unaided s) (finish_labels id (t_phase t)) ∧
    same_drain s s' ∧ owned s' = owned s ∧
    tasks s' = <[id := {| t_phase := Finished; t_listed := t_listed t |}]> (tasks s).
Proof.
  intros Ht Hc. destruct t as [p li]. unfold active in Hc. destruct p; cbn in *;
    repeat (rewrite ?Ht, ?lookup_insert_eq, ?decide_True by done; cbn);
    eexists; (split; [done|]); (split; [rewrite ?Forall_cons, Forall_nil; cbn; tauto|]); (split; [done|]); cbn;
    rewrite ?insert_insert_eq; (split; [done|]); auto. by rewrite insert_id.
Qed.

Lemma finish_all (ids : list nat) s :
  (∀ id t, tasks s !! id = Some t → active t → id ∈ closed s) →
  (∀ id, id ∈ ids → is_Some (tasks s !! id)) →
  ∃ ls s', ipc_run ls s = Some s' ∧ Forall (unaided s) ls ∧ same_drain s s' ∧ owned s' = owned s ∧
    dom (tasks s') = dom (tasks s) ∧
    ∀ id t, tasks s' !! id = Some t → t_phase t = Finished ∨ ((id ∉ ids) ∧ tasks s !! id = Some t).
Proof.
  revert s. induction ids as [|id ids IH]; intros s Hc Hin.
  { exists [], s. split_and!; [done|constructor|done..|]. intros id t Ht. right. split; [|done]. apply not_elem_of_nil. }
  destruct (Hin id) as [t Ht]; [by left|].
  destruct (finish_one s id t Ht (Hc id t Ht)) as (s1 & Hr1 & Hu1 & Hd1 & Ho1 & Ht1).
  destruct (IH s1) as (ls & s2 & Hr2 & Hu2 & Hd2 & Ho2 & Hdom & Hall).
  - intros j u. rewrite Ht1. destruct Hd1 as [-> _]. destruct (decide (j = id)) as [->|];
      [rewrite lookup_insert_eq; by intros [= <-]|rewrite lookup_insert_ne by done; apply Hc].
  - intros j Hj. rewrite Ht1. destruct (decide (j = id)) as [->|];
      [rewrite lookup_insert_eq; eauto|rewrite lookup_insert_ne by done; apply Hin; by right].
  - exists (finish_labels id (t_phase t) ++ ls), s2. split_and!.
    + by eapply ipc_run_app.
    + apply Forall_app. split; [done|]. eapply Forall_impl; [exact Hu2|]. intros l. by apply unaided_same.
    + by eapply same_drain_trans.
    + congruence.
    + rewrite Hdom, Ht1, dom_insert_L. apply elem_of_dom_2 in Ht. set_solver.
    + intros j u Hj. destruct (Hall j u Hj) as [?|[Hni Hu]]; [by left|]. rewrite Ht1 in Hu.
      destruct (decide (j = id)) as [->|Hne]; [rewrite lookup_insert_eq in Hu; left; by injection Hu as <-|].
      rewrite lookup_insert_ne in Hu by done. right. split; [|done]. by intros [?|?]%elem_of_cons.
Qed.

Lemma join_all s j :
  drop_at s = Held → shut_at s = Draining j →
  (∀ id, id ∈ owned s → phase_of s id = Some Finished) →
  ∃ ls s', ipc_run ls s = Some s' ∧ Forall (unaided s) ls ∧ same_drain s s' ∧ owned s' = ∅ ∧
    tasks s' = tasks s.
Proof.
  remember (owned s) as o eqn:Eo. revert s Eo. induction o as [|id o Hni IH] using set_ind_L; intros s Eo Hdr Hsh Hfin.
  { exists [], s. by split_and!; [|constructor|..]. }
  assert (ipc_step (SdJoin id) s = Some (disown id s)) as Hst.
  { cbn. rewrite Hdr, Hsh, <- Eo, !bool_decide_true; [done|apply Hfin; set_solver|set_solver]. }
  destruct (IH (disown id s)) as (ls & s' & Hr & Hu & Hd & Ho & Ht); [cbn; set_solver|done|done|..].
  { intros k Hk. apply Hfin. set_solver. }
  exists (SdJoin id :: ls), s'. split_and!; [cbn [ipc_run]; by rewrite Hst| |exact Hd|done|done].
  constructor; [done|]. exact Hu.
Qed.

(** C19: A graceful shutdown drains.  In a reachable state in which
    [shutdown] waits for its tasks, has seen the accept task end within its
    deadline ([Draining true]), still holds the transport ([drop_at] is
    [Held]) and every connection is in the live list (its socket could be
    cloned; one that is not listed is never shut down and would need its
    peer to leave), the pumps and the wait alone, with no help from the
    peers, can reach a state where every task has been joined, every pump
    is over and all sixteen permits are back. *)
Theorem ipc_shutdown_drains (s : Acc) :
  rtc ipc_steps Acc_new s → shut_at s = Draining true → drop_at s = Held →
  (∀ id t, tasks s !! id = Some t → t_listed t = true) →
  ∃ ls s', ipc_run ls s = Some s' ∧ Forall (unaided s) ls ∧ owned s' = ∅ ∧ permits s' = MAX_IPC_PUMPS ∧
    ∀ id t, tasks s' !! id = Some t → t_phase t = Finished.
Proof.
  intros Hreach Hsh Hdr Hli. pose proof (reachable_inv s Hreach) as Hi.
  assert (clean_drained (shut_at s)) as Hcl by by rewrite Hsh.
  destruct (finish_all (elements (dom (tasks s))) s) as (ls1 & s1 & Hr1 & Hu1 & Hd1 & Ho1 & Hdom & Hall).
  { intros id t Ht Ha. destruct (inv_listed s Hi id t Ht (Hli id t Ht) Ha) as [H|?]; [|done].
    rewrite (inv_drained s Hi Hcl) in H. by apply elem_of_nil in H. }
  { intros id Hid%elem_of_elements. by apply elem_of_dom. }
  assert (∀ id t, tasks s1 !! id = Some t → t_phase t = Finished) as Hfin.
  { intros id t Ht. destruct (Hall id t Ht) as [?|[Hni H]]; [done|]. destruct Hni.
    apply elem_of_elements, elem_of_dom. eauto. }
  destruct Hd1 as (Hc1 & Hs1 & Hdr1).
  destruct (join_all s1 true) as (ls2 & s2 & Hr2 & Hu2 & Hd2 & Ho2 & Ht2); [congruence..| |].
  { intros id Hid. rewrite Ho1 in Hid. assert (id ∈ dom (tasks s1)) as [t Ht]%elem_of_dom
      by (rewrite Hdom; apply (inv_sets s Hi); set_solver).
    unfold phase_of. rewrite Ht. cbn. by rewrite (Hfin id t Ht). }
  exists (ls1 ++ ls2), s2. split_and!; [by eapply ipc_run_app| |done| |by rewrite Ht2].
  - apply Forall_app. split; [done|]. eapply Forall_impl; [exact Hu2|]. intros l. by apply unaided_same.
  - assert (rtc ipc_steps Acc_new s2) as Hi2%reachable_inv by
      (etransitivity; [exact Hreach|]; eapply ipc_run_rtc, ipc_run_app; eassumption).
    pose proof (inv_permits s2 Hi2) as Hp. destruct Hd2 as (_ & Hs2 & _).
    assert (holders s2 = ∅) as Hh.
    { apply map_empty. intros id. apply map_lookup_filter_None. right. intros t Ht. rewrite Ht2 in Ht. unfold holds. cbn.
      rewrite (Hfin id t Ht). intros []. }
    unfold pending in Hp. rewrite (inv_awaited s2 Hi2), Hh in Hp by (right; by rewrite Hs2, Hs1, Hsh).
    rewrite map_size_empty, size_empty in Hp. lia.
Qed.

(** ** Runs *)

(** Three peers: one leaves, one is being served, one waits for a thread;
    then a shutdown up to its wait. *)
Definition demo_labels : list Label :=
  [Poll; Accept; Register true; Spawn; Poll; Accept; Start 1; Register true; Return 1; Spawn; Release 1; Start 2;
   Finish 1; Poll; AcceptErr; Poll; SdCancel; Accept; Register true; Spawn; Break; SdAwait; SdDrain; SdTake].

Definition demo_state : Acc := default Acc_new (ipc_run demo_labels Acc_new).

Lemma demo_reachable : rtc ipc_steps Acc_new demo_state.
Proof. eapply (ipc_run_rtc demo_labels). vm_compute. reflexivity. Qed.

Lemma ipc_pumps_are_capped_witness :
  permits demo_state + size (holders demo_state) + size (pending demo_state) = MAX_IPC_PUMPS ∧
  permits demo_state = 14.
Proof.
  split; [|vm_compute; reflexivity].
  apply (ipc_pumps_are_capped demo_state demo_reachable).
Defined.

Lemma ipc_shutdown_unblocks_witness :
  accept_at demo_state = Ended ∧ phase_of demo_state 2 = Some Pumping ∧ 2 ∈ closed demo_state.
Proof.
  destruct (ipc_shutdown_unblocks demo_state demo_reachable) as (H1 & _ & H3); [vm_compute; exact I|].
  split; [exact H1|]. split; [vm_compute; reflexivity|].
  apply (H3 2 {| t_phase := Pumping; t_listed := true |}); [vm_compute; reflexivity|reflexivity|exact I].
Defined.

Lemma ipc_shutdown_drains_witness :
  ∃ ls s', ipc_run ls demo_state = Some s' ∧ owned s' = ∅ ∧ permits s' = MAX_IPC_PUMPS.
Proof.
  destruct (ipc_shutdown_drains demo_state demo_reachable) as (ls & s' & H1 & _ & H3 & H4 & _).
  - vm_compute. reflexivity.
  - vm_compute. reflexivity.
  - assert (map_Forall (λ _ t, t_listed t = true) (tasks demo_state)) as H
      by (apply (bool_decide_unpack _); vm_compute; exact I).
    intros id t Ht. exact (H id t Ht).
  - exists ls, s'. auto.
Defined.

(** A bare drop can miss a pump.  A connection whose accept is under way
    while [Drop] cancels, aborts and drains is listed and spawned after the
    drain, when the task set's lock is free: its socket is never shut down,
    and its pump stays in its read until the peer leaves. *)
Theorem drop_misses_a_late_accept :
  ∃ s id, rtc ipc_steps Acc_new s ∧ drop_at s = DropDrained ∧ accept_at s = Aborted ∧
    phase_of s id = Some Pumping ∧ id ∈ live s ∧ ¬ id ∈ closed s.
Proof.
  exists (default Acc_new (ipc_run [Poll; Accept; DropCancel; DropDrain; Register true; Spawn; AbortAccept; Start 1] Acc_new)), 1.
  split.
  - eapply (ipc_run_rtc [Poll; Accept; DropCancel; DropDrain; Register true; Spawn; AbortAccept; Start 1]).
    vm_compute. reflexivity.
  - split_and!; try (vm_compute; reflexivity); [by left|].
    apply (bool_decide_unpack _). vm_compute. exact I.
Qed.
