(* ===== verification/IpcPipe.v ===== *)
(** * The Windows IPC listener (crates/rsrpc-transport-ipc/src/windows.rs)

    The pipe name that is bound, and the life of the transport: the blocking
    accept loop, the bounded channel to the dispatch task, the blocking pump
    tasks, [shutdown] and [Drop].  They run on different threads; each is a
    sequence of atomic steps between the points where another thread can see
    or interrupt it, and a system state takes any enabled step.  Blocking
    tasks share a pool of [pool] threads.  A pump's connection is the
    [IpcFrame.Conn] of the Unix listener and [handle_stream] is the same
    function: here it is a read that ends when the peer leaves. *)

From stdpp Require Import base gmap list list_numbers strings sets fin_maps relations.
From S2P Require Import Prelude RStr.

Local Open Scope string_scope.
Local Open Scope nat_scope.
Local Open Scope list_scope.

(** ** The pipe name *)

Definition PIPE_BASE : string := "\\.\pipe\discord-ipc".

Definition pipe_path (tries : nat) : string := PIPE_BASE +:+ "-" +:+ u64_to_string (Z.of_nat tries).

Section CreatePipe.
Context {IoError : Type}.

(** The [interprocess] crate: why a name is not a pipe's, why a listener
    cannot be created on it. *)
Variables to_fs_name create_sync : string → option IoError.
Variable no_pipe_bound : IoError.

Inductive PipeError := Io (source : IoError) | IpcBind (attempts : nat) (source : IoError).

(** The loop of [create_pipe], from an index on. *)
Fixpoint create_pipe_from (indexes : list nat) : string + PipeError :=
  match indexes with
  | [] => inr (IpcBind 10 no_pipe_bound)
  | tries :: rest =>
      match to_fs_name (pipe_path tries) with
      | Some err => inr (Io err)
      | None =>
          match create_sync (pipe_path tries) with
          | None => inl (pipe_path tries)
          | Some err => if decide (tries = 9) then inr (IpcBind 10 err) else create_pipe_from rest
          end
      end
  end.

Definition create_pipe : string + PipeError := create_pipe_from (seq 0 10).

End CreatePipe.

Arguments PipeError : clear implicits.

(** ** State of the transport *)

Definition MAX_PUMPS : nat := 32.

(** The bound of the channel made in [bind]. *)
Definition STREAM_QUEUE : nat := 64.

(** A pump task: queued for a thread; inside [handle_stream]; past it; its
    permit returned; ready to be joined. *)
Inductive PumpPhase := Queued | Pumping | Returned | Released | Finished.

#[global] Instance PumpPhase_eq_dec : EqDecision PumpPhase.
Proof. solve_decision. Defined.

(** The accept loop: queued for a thread; before [set_nonblocking]; at the
    token check; at [accept]; in [blocking_send]; over, its listener and its
    sender dropped. *)
Inductive AcceptPhase := AQueued | Configuring | Checking | Accepting | Sending (id : nat) | AEnded.

(** The dispatch task: at the token's branch of [select!], where it also
    parks; past it, at the channel's; holding a stream; a permit taken,
    awaiting the set's lock; returned; aborted. *)
Inductive DispatchPhase :=
  | Selecting | Receiving | Got (id : nat) | Registered (id : nat) | DEnded | DAborted.

#[global] Instance AcceptPhase_eq_dec : EqDecision AcceptPhase.
Proof. solve_decision. Defined.
#[global] Instance DispatchPhase_eq_dec : EqDecision DispatchPhase.
Proof. solve_decision. Defined.

(** [shutdown]: whether each loop was seen to end within its two seconds. *)
Inductive ShutPhase :=
  | Up | AwaitAccept | AwaitDispatch (a : bool) | Awaited (a d : bool) | Draining (a d : bool)
  | Down (a d : bool).

Record Pipe := {
  token : bool;
  accept_abort : bool;
  dispatch_abort : bool;
  accept_at : AcceptPhase;
  next_stream : nat;
  queue : list nat;
  dispatch_at : DispatchPhase;
  permits : nat;
  tasks : gmap nat PumpPhase;
  conns : gset nat;
  owned : gset nat;
  shut_at : ShutPhase;
  dropped : bool
}.

(** What [bind] starts. *)
Definition Pipe_new : Pipe := {|
  token := false; accept_abort := false; dispatch_abort := false; accept_at := AQueued;
  next_stream := 0; queue := []; dispatch_at := Selecting; permits := MAX_PUMPS; tasks := ∅;
  conns := ∅; owned := ∅; shut_at := Up; dropped := false |}.

Definition with_accept (a : AcceptPhase) (n : nat) (q : list nat) (s : Pipe) : Pipe :=
  {| token := token s; accept_abort := accept_abort s; dispatch_abort := dispatch_abort s;
     accept_at := a; next_stream := n; queue := q; dispatch_at := dispatch_at s;
     permits := permits s; tasks := tasks s; conns := conns s; owned := owned s;
     shut_at := shut_at s; dropped := dropped s |}.

Definition with_dispatch (d : DispatchPhase) (q : list nat) (p : nat) (s : Pipe) : Pipe :=
  {| token := token s; accept_abort := accept_abort s; dispatch_abort := dispatch_abort s;
     accept_at := accept_at s; next_stream := next_stream s; queue := q; dispatch_at := d;
     permits := p; tasks := tasks s; conns := conns s; owned := owned s;
     shut_at := shut_at s; dropped := dropped s |}.

(** The tasks of a set that [try_join_next] would not return yet. *)
Definition unfinished (ts : gmap nat PumpPhase) (ids : gset nat) : gset nat :=
  base.filter (λ id, ts !! id ≠ Some Finished) ids.

(** Under the set's lock: reap, then [spawn_blocking]. *)
Definition spawn (id : nat) (s : Pipe) : Pipe :=
  {| token := token s; accept_abort := accept_abort s; dispatch_abort := dispatch_abort s;
     accept_at := accept_at s; next_stream := next_stream s; queue := queue s;
     dispatch_at := Selecting; permits := permits s; tasks := <[id := Queued]> (tasks s);
     conns := {[id]} ∪ unfinished (tasks s) (conns s); owned := owned s;
     shut_at := shut_at s; dropped := dropped s |}.

Definition advance (id : nat) (to : PumpPhase) (release : bool) (s : Pipe) : Pipe :=
  {| token := token s; accept_abort := accept_abort s; dispatch_abort := dispatch_abort s;
     accept_at := accept_at s; next_stream := next_stream s; queue := queue s;
     dispatch_at := dispatch_at s; permits := if release then S (permits s) else permits s;
     tasks := <[id := to]> (tasks s); conns := conns s; owned := owned s;
     shut_at := shut_at s; dropped := dropped s |}.

Definition with_shut (p : ShutPhase) (c o : gset nat) (s : Pipe) : Pipe :=
  {| token := true; accept_abort := accept_abort s; dispatch_abort := dispatch_abort s;
     accept_at := accept_at s; next_stream := next_stream s; queue := queue s;
     dispatch_at := dispatch_at s; permits := permits s; tasks := tasks s; conns := c;
     owned := o; shut_at := p; dropped := dropped s |}.

(** [Drop]: cancel, then abort the tasks whose handles [shutdown] has not
    taken. *)
Definition drop_transport (s : Pipe) : Pipe :=
  {| token := true;
     accept_abort := accept_abort s || match shut_at s with Up => true | _ => false end;
     dispatch_abort :=
       dispatch_abort s || match shut_at s with Up | AwaitAccept => true | _ => false end;
     accept_at := accept_at s; next_stream := next_stream s; queue := queue s;
     dispatch_at := dispatch_at s; permits := permits s; tasks := tasks s; conns := conns s;
     owned := owned s; shut_at := shut_at s; dropped := true |}.

(** ** Steps *)

Inductive Label :=
  | AStart | ASet (ok : bool) | ACheck | AAccept | AWouldBlock | AAcceptErr | ASend | AAbort
  | DPoll | DPark | DRecv | DTake | DRefuse | DSpawn | DAbort
  | PStart (id : nat) | PReturn (id : nat) | PRelease (id : nat) | PFinish (id : nat) | PAbort (id : nat)
  | SdCancel | SdAccept (joined : bool) | SdDispatch (joined : bool) | SdTake | SdJoin (id : nat) | SdDown
  | DropTransport.

(** How many tasks are in a phase that satisfies [P]. *)
Definition count (P : PumpPhase → bool) (ts : gmap nat PumpPhase) : nat :=
  size (base.filter (λ kv, P kv.2 = true) ts).

(** A permit is held from the dispatch to the end of the closure, a thread
    from the start of the closure to the end of the task. *)
Definition holds (p : PumpPhase) : bool :=
  match p with Queued | Pumping | Returned => true | _ => false end.
Definition runs (p : PumpPhase) : bool :=
  match p with Pumping | Returned | Released => true | _ => false end.

Definition accept_runs (a : AcceptPhase) : nat :=
  match a with AQueued | AEnded => 0 | _ => 1 end.

(** Blocking threads in use. *)
Definition busy (s : Pipe) : nat := count runs (tasks s) + accept_runs (accept_at s).

Definition rx_open (d : DispatchPhase) : bool :=
  match d with DEnded | DAborted => false | _ => true end.

Section Steps.
Variable pool : nat.

(** [accept_loop].  [blocking_send] waits while the channel is full and
    fails when its receiver is gone. *)
Definition accept_step (l : Label) (s : Pipe) : option Pipe :=
  let goto a := Some (with_accept a (next_stream s) (queue s) s) in
  match l, accept_at s with
  | AStart, AQueued => if decide (busy s < pool) then goto Configuring else None
  | ASet ok, Configuring => goto (if ok then Checking else AEnded)
  | ACheck, Checking => goto (if token s then AEnded else Accepting)
  | AAccept, Accepting =>
      Some (with_accept (Sending (next_stream s)) (S (next_stream s)) (queue s) s)
  | AWouldBlock, Accepting => goto Checking
  | AAcceptErr, Accepting => goto AEnded
  | ASend, Sending id =>
      if rx_open (dispatch_at s) then
        if decide (length (queue s) < STREAM_QUEUE)
        then Some (with_accept Checking (next_stream s) (queue s ++ [id]) s)
        else None
      else goto AEnded
  | AAbort, AQueued => if accept_abort s then goto AEnded else None
  | _, _ => None
  end.

(** [dispatch_loop].  The task can be aborted where it awaits; its end drops
    the receiver and the streams still in the channel. *)
Definition dispatch_step (l : Label) (s : Pipe) : option Pipe :=
  let goto d := Some (with_dispatch d (queue s) (permits s) s) in
  let stop d p := Some (with_dispatch d [] p s) in
  match l, dispatch_at s with
  | DPoll, Selecting => if token s then stop DEnded (permits s) else goto Receiving
  | DPark, Receiving => goto Selecting
  | DRecv, Receiving =>
      match queue s with
      | id :: rest => Some (with_dispatch (Got id) rest (permits s) s)
      | [] => if decide (accept_at s = AEnded) then stop DEnded (permits s) else None
      end
  | DRefuse, Got _ => if decide (permits s = 0) then goto Selecting else None
  | DTake, Got id =>
      if decide (permits s = 0) then None
      else Some (with_dispatch (Registered id) (queue s) (pred (permits s)) s)
  | DSpawn, Registered id => Some (spawn id s)
  | DAbort, Selecting => if dispatch_abort s then stop DAborted (permits s) else None
  | DAbort, Registered _ => if dispatch_abort s then stop DAborted (S (permits s)) else None
  | _, _ => None
  end.

Definition is_down (p : ShutPhase) : bool := match p with Down _ _ => true | _ => false end.

(** Nobody holds the transport any more. *)
Definition gone (s : Pipe) : bool := is_down (shut_at s) || dropped s.

(** The closure given to [spawn_blocking], and the abort of one that has no
    thread yet: by [abort_all], or with the set that holds it. *)
Definition pump_step (l : Label) (s : Pipe) : option Pipe :=
  let move id from to release :=
    if decide (tasks s !! id = Some from) then Some (advance id to release s) else None in
  match l with
  | PStart id => if decide (busy s < pool) then move id Queued Pumping false else None
  | PReturn id => move id Pumping Returned false
  | PRelease id => move id Returned Released true
  | PFinish id => move id Released Finished false
  | PAbort id =>
      if gone s && (bool_decide (id ∈ owned s) ||
                    negb (rx_open (dispatch_at s)) && bool_decide (id ∈ conns s))
      then move id Queued Finished true else None
  | _ => None
  end.

(** [shutdown], and [Drop], which can overtake it at any await. *)
Definition life_step (l : Label) (s : Pipe) : option Pipe :=
  if gone s then None else
  match l, shut_at s with
  | SdCancel, Up => Some (with_shut AwaitAccept (conns s) (owned s) s)
  | SdAccept joined, AwaitAccept =>
      if decide (joined = true → accept_at s = AEnded)
      then Some (with_shut (AwaitDispatch joined) (conns s) (owned s) s) else None
  | SdDispatch joined, AwaitDispatch a =>
      if decide (joined = true → dispatch_at s = DEnded)
      then Some (with_shut (Awaited a joined) (conns s) (owned s) s) else None
  | SdTake, Awaited a d => Some (with_shut (Draining a d) ∅ (conns s) s)
  | SdJoin id, Draining a d =>
      if bool_decide (id ∈ owned s) && bool_decide (tasks s !! id = Some Finished)
      then Some (with_shut (Draining a d) (conns s) (owned s ∖ {[id]}) s) else None
  | SdDown, Draining a d => Some (with_shut (Down a d) (conns s) (owned s) s)
  | DropTransport, _ => Some (drop_transport s)
  | _, _ => None
  end.

Definition pipe_step (l : Label) (s : Pipe) : option Pipe :=
  match l with
  | AStart | ASet _ | ACheck | AAccept | AWouldBlock | AAcceptErr | ASend | AAbort => accept_step l s
  | DPoll | DPark | DRecv | DTake | DRefuse | DSpawn | DAbort => dispatch_step l s
  | PStart _ | PReturn _ | PRelease _ | PFinish _ | PAbort _ => pump_step l s
  | _ => life_step l s
  end.

Definition pipe_steps (s s' : Pipe) : Prop := ∃ l, pipe_step l s = Some s'.

(** A run of given steps. *)
Fixpoint pipe_run (ls : list Label) (s : Pipe) : option Pipe :=
  match ls with
  | [] => Some s
  | l :: ls => match pipe_step l s with Some s' => pipe_run ls s' | None => None end
  end.

Lemma pipe_run_rtc ls s s' : pipe_run ls s = Some s' → rtc pipe_steps s s'.
Proof.
  revert s. induction ls as [|l ls IH]; intros s; cbn; [intros [= <-]; constructor|].
  destruct (pipe_step l s) eqn:E; [|done]. intros H. eapply rtc_l; [by exists l|]. auto.
Qed.

(** ** The invariant *)

Definition pending (d : DispatchPhase) : nat := match d with Registered _ => 1 | _ => 0 end.

(** The streams accepted and neither dropped nor given to a pump yet, oldest
    first. *)
Definition in_flight (s : Pipe) : list nat :=
  (match dispatch_at s with Got id | Registered id => [id] | _ => [] end) ++ queue s ++
  (match accept_at s with Sending id => [id] | _ => [] end).

Definition awaited_accept (p : ShutPhase) : bool :=
  match p with
  | AwaitDispatch a | Awaited a _ | Draining a _ | Down a _ => a
  | _ => false
  end.

Definition awaited_dispatch (p : ShutPhase) : bool :=
  match p with Awaited _ d | Draining _ d | Down _ d => d | _ => false end.

(** The task set has been taken over by [shutdown]. *)
Definition taken (p : ShutPhase) : bool := match p with Draining _ _ | Down _ _ => true | _ => false end.

(** They are the last ids given, in order, and no pump has one of them. *)
Definition ordered (next : nat) (flight : list nat) (ts : gmap nat PumpPhase) : Prop :=
  ∃ first, first ≤ next ∧ flight = seq first (next - first) ∧ ∀ id, is_Some (ts !! id) → id < first.

Record pipe_inv (s : Pipe) : Prop := {
  inv_permits : permits s + count holds (tasks s) + pending (dispatch_at s) = MAX_PUMPS;
  inv_threads : busy s ≤ pool;
  inv_queue : length (queue s) ≤ STREAM_QUEUE;
  inv_closed : rx_open (dispatch_at s) = false → queue s = [];
  inv_order : ordered (next_stream s) (in_flight s) (tasks s);
  inv_unstarted : accept_at s = AQueued ∨ accept_at s = Configuring → next_stream s = 0;
  inv_token : shut_at s ≠ Up ∨ dropped s = true → token s = true;
  inv_awaited_accept : awaited_accept (shut_at s) = true → accept_at s = AEnded;
  inv_awaited_dispatch : awaited_dispatch (shut_at s) = true → dispatch_at s = DEnded;
  inv_sets : conns s ∪ owned s ⊆ dom (tasks s);
  inv_tracked : ∀ id p, tasks s !! id = Some p → p ≠ Finished → id ∈ conns s ∪ owned s;
  inv_taken : taken (shut_at s) = true → awaited_dispatch (shut_at s) = true → conns s = ∅;
  inv_untaken : taken (shut_at s) = false → owned s = ∅
}.

Lemma count_insert P (ts : gmap nat PumpPhase) id from to :
  ts !! id = Some from →
  count P (<[id := to]> ts) + (if P from then 1 else 0) = count P ts + (if P to then 1 else 0).
Proof.
  intros Ht. unfold count. rewrite map_filter_insert. cbn.
  assert (∀ b, P from = b → base.filter (λ kv : nat * PumpPhase, P kv.2 = true) ts !! id =
    if b then Some from else None) as Hf.
  { intros [] E; [by apply map_lookup_filter_Some|].
    apply map_lookup_filter_None. right. intros p Hp. cbn. congruence. }
  specialize (Hf _ eq_refl). case_decide as Hto.
  - rewrite Hto, map_size_insert, Hf. destruct (P from); cbn; lia.
  - apply not_true_is_false in Hto. rewrite Hto, map_filter_delete, map_size_delete, Hf.
    destruct (P from); cbn; [|lia].
    assert (size (base.filter (λ kv : nat * PumpPhase, P kv.2 = true) ts) ≠ 0); [|lia].
    apply map_size_non_empty_iff. intros E. by rewrite E in Hf.
Qed.

Lemma count_new P (ts : gmap nat PumpPhase) id to :
  ts !! id = None → count P (<[id := to]> ts) = count P ts + (if P to then 1 else 0).
Proof.
  intros Ht. unfold count. destruct (P to) eqn:E.
  - rewrite map_filter_insert_True by done.
    rewrite map_size_insert_None by (apply map_lookup_filter_None; by left). lia.
  - rewrite map_filter_insert_not' by (cbn; congruence). lia.
Qed.

Lemma count_empty P : count P ∅ = 0.
Proof. unfold count. by rewrite map_filter_empty, map_size_empty. Qed.

Lemma Pipe_new_inv : pipe_inv Pipe_new.
Proof.
  constructor; cbn; rewrite ?count_empty; try done; try lia; try set_solver.
  - unfold busy. cbn. rewrite count_empty. lia.
  - exists 0. split_and!; [lia|done|]. intros id [? H]. by rewrite lookup_empty in H.
Qed.

(** *** The order of streams *)

Lemma ordered_push next flight ts : ordered next flight ts → ordered (S next) (flight ++ [next]) ts.
Proof.
  intros (first & Hle & -> & Hts). exists first. split_and!; [lia| |done].
  replace (S next - first) with (S (next - first)) by lia. rewrite seq_S. do 3 f_equal. lia.
Qed.

Lemma ordered_suffix next l1 l2 ts : ordered next (l1 ++ l2) ts → ordered next l2 ts.
Proof.
  revert l2. induction l1 as [|id l1 IH]; intros l2; [done|]. intros (first & Hle & E & Hts). cbn in E.
  destruct (next - first) as [|k] eqn:Ek; [done|]. injection E as -> E.
  apply IH. exists (S first). split_and!; [lia| |intros j Hj%Hts; lia]. rewrite E. f_equal. lia.
Qed.

Lemma ordered_spawn next id l ts p :
  ordered next (id :: l) ts → ts !! id = None ∧ ordered next l (<[id := p]> ts).
Proof.
  intros (first & Hle & E & Hts). destruct (next - first) as [|k] eqn:Ek; [done|]. injection E as -> E.
  split.
  - apply eq_None_not_Some. intros ?%Hts. lia.
  - exists (S first). split_and!; [lia|rewrite E; f_equal; lia|].
    intros j. destruct (decide (j = first)) as [->|]; [lia|]. rewrite lookup_insert_ne by done.
    intros ?%Hts. lia.
Qed.

Lemma ordered_advance next l ts id from to :
  ts !! id = Some from → ordered next l ts → ordered next l (<[id := to]> ts).
Proof.
  intros Ht (first & Hle & E & Hts). exists first. split_and!; [done..|]. intros j Hj. apply Hts.
  destruct (decide (j = id)) as [->|]; [eauto|]. by rewrite lookup_insert_ne in Hj.
Qed.

(** *** The accept loop *)

Lemma pipe_with_accept_inv a n q s :
  pipe_inv s → accept_at s ≠ AEnded → count runs (tasks s) + accept_runs a ≤ pool →
  length q ≤ STREAM_QUEUE → (rx_open (dispatch_at s) = false → q = []) →
  ordered n (in_flight (with_accept a n q s)) (tasks s) →
  (a = AQueued ∨ a = Configuring → n = 0) → pipe_inv (with_accept a n q s).
Proof.
  intros [Hp Hth Hq Hcl Hor Hun Htk Haa Had Hse Htr Hta Hut] Hne ? ? ? ? ?. constructor; try done.
  cbn. intros H'. by apply Haa in H'.
Qed.

Lemma pipe_accept_step_inv l s s' : accept_step l s = Some s' → pipe_inv s → pipe_inv s'.
Proof.
  intros E Hi. pose proof (inv_queue s Hi) as Hq. pose proof (inv_closed s Hi) as Hcl.
  pose proof (inv_order s Hi) as Hor. pose proof (inv_threads s Hi) as Hth.
  pose proof (inv_unstarted s Hi) as Hun. unfold busy, in_flight in Hor, Hth.
  destruct l, (accept_at s) eqn:Ea; cbn in E; rewrite ?Ea in *; try done; cbn in Hth, E;
    repeat match type of E with context [if ?b then _ else _] => destruct b eqn:? end; simplify_eq;
    apply pipe_with_accept_inv; rewrite ?Ea; cbn in *; try done; try lia; unfold in_flight; cbn;
    rewrite ?app_nil_r in *; auto; try naive_solver.
  - assert (busy s < pool) as Hb by done. unfold busy in Hb. rewrite Ea in Hb. cbn in Hb. lia.
  - rewrite app_assoc. by apply ordered_push.
  - rewrite length_app. cbn. lia.
  - congruence.
  - rewrite Hcl in * by done. rewrite app_nil_r in *. destruct (dispatch_at s); try done;
      by apply (ordered_suffix _ [id] []).
Qed.

(** *** The dispatch task *)

Lemma with_dispatch_inv d q p s :
  pipe_inv s → dispatch_at s ≠ DEnded → p + pending d = permits s + pending (dispatch_at s) →
  length q ≤ STREAM_QUEUE → (rx_open d = false → q = []) →
  ordered (next_stream s) (in_flight (with_dispatch d q p s)) (tasks s) →
  pipe_inv (with_dispatch d q p s).
Proof.
  intros [Hp Hth Hq Hcl Hor Hun Htk Haa Had Hse Htr Hta Hut] Hne ? ? ? ?. constructor; try done; cbn.
  - lia.
  - intros H'. by apply Had in H'.
Qed.

Lemma pipe_spawn_inv id s : pipe_inv s → dispatch_at s = Registered id → pipe_inv (spawn id s).
Proof.
  intros [Hp Hth Hq Hcl Hor Hun Htk Haa Had Hse Htr Hta Hut] Ed. unfold in_flight in Hor. rewrite Ed in *. cbn in *.
  destruct (ordered_spawn _ _ _ _ Queued Hor) as [Hnone Hor'].
  constructor; try done; cbn.
  - rewrite count_new by done. cbn. lia.
  - unfold busy in *. cbn. rewrite count_new by done. cbn. lia.
  - intros H'. by apply Had in H'.
  - rewrite dom_insert. unfold unfinished. set_solver.
  - intros j p. destruct (decide (j = id)) as [->|Hne]; [set_solver|].
    rewrite lookup_insert_ne by done. intros Hj Hp'. pose proof (Htr j p Hj Hp') as Hin.
    unfold unfinished. rewrite !elem_of_union, elem_of_filter in *. destruct Hin; [|auto]. left. right.
    split; [congruence|done].
  - intros _ H'. by apply Had in H'.
Qed.

Lemma dispatch_step_inv l s s' : dispatch_step l s = Some s' → pipe_inv s → pipe_inv s'.
Proof.
  intros E Hi. pose proof (inv_queue s Hi) as Hq. pose proof (inv_closed s Hi) as Hcl.
  pose proof (inv_order s Hi) as Hor. unfold in_flight in Hor.
  destruct l, (dispatch_at s) eqn:Ed; cbn in E; rewrite ?Ed in *; try done; cbn in Hor, E;
    repeat match type of E with
           | context [match queue s with [] => _ | _ :: _ => _ end] => destruct (queue s) eqn:?
           | context [if ?b then _ else _] => destruct b eqn:?
           end; simplify_eq;
    try (by apply pipe_spawn_inv);
    apply with_dispatch_inv; rewrite ?Ed; cbn in *; try done; try lia; unfold in_flight; cbn;
    first [done | exact (ordered_suffix _ _ _ _ Hor) | exact (ordered_suffix _ [_] _ _ Hor)
          | exact (ordered_suffix _ (queue s) _ _ (ordered_suffix _ [_] _ _ Hor))].
Qed.

(** *** The pumps *)

Lemma pipe_advance_inv id from to (release : bool) s :
  pipe_inv s → tasks s !! id = Some from → from ≠ Finished → (holds to = true → holds from = true) →
  (if release then holds from && negb (holds to) else bool_decide (holds from = holds to)) = true →
  busy (advance id to release s) ≤ pool → pipe_inv (advance id to release s).
Proof.
  intros [Hp Hth Hq Hcl Hor Hun Htk Haa Had Hse Htr Hta Hut] Ht Hfi Hho Hrel Hb. constructor; try done; cbn.
  - pose proof (count_insert holds (tasks s) id from to Ht) as Hc.
    destruct release, (holds from), (holds to); cbn in *; try done; lia.
  - by eapply ordered_advance.
  - rewrite dom_insert_lookup by eauto. done.
  - intros j p. destruct (decide (j = id)) as [->|Hne].
    + rewrite lookup_insert_eq. intros [= ->] Hp'. apply (Htr id from Ht). by intros ->.
    + rewrite lookup_insert_ne by done. apply Htr.
Qed.

Lemma pipe_pump_step_inv l s s' : pump_step l s = Some s' → pipe_inv s → pipe_inv s'.
Proof.
  intros E Hi. pose proof (inv_threads s Hi) as Hth. unfold pump_step in E.
  assert (∀ id from to, tasks s !! id = Some from →
    busy (advance id to true s) + (if runs from then 1 else 0) = busy s + (if runs to then 1 else 0) ∧
    busy (advance id to false s) + (if runs from then 1 else 0) = busy s + (if runs to then 1 else 0)) as Hb.
  { intros id from to Ht. unfold busy. cbn. pose proof (count_insert runs _ id from to Ht). lia. }
  destruct l; try done; repeat case_decide; repeat case_match; simplify_eq;
    match goal with H : tasks s !! ?id = Some ?from |- pipe_inv (advance _ ?to _ _) =>
      pose proof (Hb id from to H) as [? ?]; eapply pipe_advance_inv; cbn in *; try done; lia end.
Qed.

(** *** Shutdown and drop *)

Lemma pipe_with_shut_inv p c o s :
  pipe_inv s → c ∪ o ⊆ conns s ∪ owned s →
  (∀ id, id ∈ conns s ∪ owned s → tasks s !! id ≠ Some Finished → id ∈ c ∪ o) →
  (taken p = true → c = ∅ ∨ awaited_dispatch p = false ∨ taken (shut_at s) = true ∧ awaited_dispatch (shut_at s) = true ∧ c = conns s) →
  (taken p = false → o = ∅) →
  (awaited_accept p = true → awaited_accept (shut_at s) = true ∨ accept_at s = AEnded) →
  (awaited_dispatch p = true → awaited_dispatch (shut_at s) = true ∨ dispatch_at s = DEnded) →
  pipe_inv (with_shut p c o s).
Proof.
  intros [Hp Hth Hq Hcl Hor Hun Htk Haa Had Hse Htr Hta Hut] Hco Hin Hc Ho Ha Hd. constructor; try done; cbn.
  - intros H'. destruct (Ha H'); auto.
  - intros H'. destruct (Hd H'); auto.
  - set_solver.
  - intros id q Hq' Hne. apply Hin; [by eapply Htr|congruence].
  - intros H1 H2. destruct (Hc H1) as [?|[?|(? & ? & ->)]]; [done|congruence|]. by apply Hta.
Qed.

Lemma drop_inv s : pipe_inv s → pipe_inv (drop_transport s).
Proof. intros []. by constructor. Qed.

Lemma pipe_life_step_inv l s s' : life_step l s = Some s' → pipe_inv s → pipe_inv s'.
Proof.
  unfold life_step. intros E Hi. pose proof (inv_untaken s Hi) as Hut. destruct (gone s); [done|].
  destruct l, (shut_at s) eqn:Es; try done; repeat case_decide; repeat case_match; simplify_eq;
    try (by apply drop_inv); apply pipe_with_shut_inv; rewrite ?Es; cbn; try done; auto; try set_solver.
  all: destruct d; auto.
Qed.

Lemma pipe_step_inv l s s' : pipe_step l s = Some s' → pipe_inv s → pipe_inv s'.
Proof.
  destruct l; cbn [pipe_step]; eauto using pipe_accept_step_inv, dispatch_step_inv, pipe_pump_step_inv, pipe_life_step_inv.
Qed.

Lemma pipe_reachable_inv s : rtc pipe_steps Pipe_new s → pipe_inv s.
Proof.
  intros Hr. assert (pipe_inv Pipe_new) as Hi by apply Pipe_new_inv. induction Hr as [|s1 s2 s3 [l Hl]]; [done|].
  eauto using pipe_step_inv.
Qed.

(** ** The cap, the channel and the pool *)

(** Under any interleaving of accepts, dispatches, pumps, shutdown and
    drop, the permits left and the streams that hold one add up to the cap of
    thirty-two, the channel holds at most sixty-four streams, no more blocking
    threads are used than the pool has, and the streams in flight are the
    latest accepted ones, in the order of their accepts, none of them with a
    pump yet. *)
Theorem pipe_pumps_are_capped (s : Pipe) :
  rtc pipe_steps Pipe_new s →
  permits s + count holds (tasks s) + pending (dispatch_at s) = MAX_PUMPS ∧
  length (queue s) ≤ STREAM_QUEUE ∧ busy s ≤ pool ∧ ordered (next_stream s) (in_flight s) (tasks s).
Proof. intros [Hp Hth Hq _ Hor _ _ _ _ _ _ _ _]%pipe_reachable_inv. done. Qed.

(** ** Both loops stop *)

(** A step of one of the two loops. *)
Definition loop_label (l : Label) : bool :=
  match l with
  | AStart | ASet _ | ACheck | AAccept | AWouldBlock | AAcceptErr | ASend | AAbort
  | DPoll | DPark | DRecv | DTake | DRefuse | DSpawn | DAbort => true
  | _ => false
  end.

(** Steps left to each loop once the token is cancelled. *)
Definition accept_left (a : AcceptPhase) : nat :=
  match a with AEnded => 0 | Checking => 1 | Sending _ | Configuring => 2 | Accepting | AQueued => 3 end.

Definition dispatch_left (d : DispatchPhase) : nat :=
  match d with DEnded | DAborted => 0 | Selecting => 1 | Registered _ => 2 | Got _ => 3 | Receiving => 4 end.

Definition steps_left (s : Pipe) : nat := accept_left (accept_at s) + dispatch_left (dispatch_at s).

Lemma loop_step_decreases l s s' :
  pipe_step l s = Some s' → token s = true →
  token s' = true ∧ steps_left s' + (if loop_label l then 1 else 0) ≤ steps_left s.
Proof.
  intros E Htk. unfold steps_left. destruct l; cbn [pipe_step] in E;
    unfold accept_step, dispatch_step, pump_step, life_step in E; rewrite ?Htk in E;
    repeat case_decide; repeat case_match; simplify_eq; cbn in *; rewrite ?Htk in *;
    repeat match goal with H : accept_at s = _ |- _ => rewrite H | H : dispatch_at s = _ |- _ => rewrite H end;
    cbn; split; (done || lia).
Qed.

Lemma loop_steps_bounded ls s s' :
  pipe_run ls s = Some s' → token s = true →
  token s' = true ∧ steps_left s' + length (base.filter (λ l, loop_label l = true) ls) ≤ steps_left s.
Proof.
  revert s. induction ls as [|l ls IH]; intros s; cbn [pipe_run]; [intros [= ->]; cbn; intros; split; [done|lia]|].
  destruct (pipe_step l s) as [s1|] eqn:E; [|done]. intros Hr Htk.
  destruct (loop_step_decreases l s s1 E Htk) as [Htk1 Hd]. destruct (IH s1 Hr Htk1) as [? ?]. split; [done|].
  rewrite filter_cons. case_decide as Hl; [rewrite Hl in Hd|apply not_true_is_false in Hl; rewrite Hl in Hd];
    cbn; lia.
Qed.

(** As long as the dispatch task is not over, it can take a step. *)
Lemma dispatch_enabled s :
  rx_open (dispatch_at s) = true → ∃ l s', loop_label l = true ∧ pipe_step l s = Some s'.
Proof.
  intros Ho. destruct (dispatch_at s) as [| |id|id| |] eqn:Ed; try done.
  - exists DPoll. cbn. rewrite Ed. destruct (token s); eauto.
  - exists DPark. cbn. rewrite Ed. eauto.
  - destruct (decide (permits s = 0)) as [Hp|Hp]; [exists DRefuse|exists DTake]; cbn; rewrite Ed.
    + rewrite decide_True by done. eauto.
    + rewrite decide_False by done. eauto.
  - exists DSpawn. cbn. rewrite Ed. eauto.
Qed.

Lemma loops_enabled s :
  pipe_inv s → 0 < pool → steps_left s ≠ 0 → ∃ l s', loop_label l = true ∧ pipe_step l s = Some s'.
Proof.
  intros Hi Hpool Hne. destruct (rx_open (dispatch_at s)) eqn:Ho; [by apply dispatch_enabled|].
  assert (dispatch_left (dispatch_at s) = 0) as Hd by by destruct (dispatch_at s).
  unfold steps_left in Hne. rewrite Hd in Hne. destruct (accept_at s) eqn:Ea; try done.
  - exists AStart. cbn. rewrite Ea. rewrite decide_True; [eauto|]. unfold busy. rewrite Ea. cbn.
    destruct (inv_order s Hi) as (first & Hle & _ & Hts). rewrite (inv_unstarted s Hi) in Hle by auto.
    assert (tasks s = ∅) as ->; [|rewrite count_empty; lia].
    apply map_empty. intros id. apply eq_None_not_Some. intros ?%Hts. lia.
  - exists (ASet true). cbn. rewrite Ea. eauto.
  - exists ACheck. cbn. rewrite Ea. eauto.
  - exists AWouldBlock. cbn. rewrite Ea. eauto.
  - exists ASend. cbn. rewrite Ea, Ho. eauto.
Qed.

(** C38: A cancelled transport stops: from any reachable state whose token is
    cancelled, and whatever else happens meanwhile, the accept loop and the
    dispatch task take at most seven more steps together, and until both are
    over one of them can take a step, a full channel or a spent cap
    included. *)
Theorem pipe_loops_stop (s : Pipe) (ls : list Label) (s' : Pipe) :
  0 < pool → rtc pipe_steps Pipe_new s → token s = true → pipe_run ls s = Some s' →
  length (base.filter (λ l, loop_label l = true) ls) ≤ 7 ∧
  (accept_at s' = AEnded ∧ rx_open (dispatch_at s') = false ∨
   ∃ l s'', loop_label l = true ∧ pipe_step l s' = Some s'').
Proof.
  intros Hpool Hr Htk Hrun. destruct (loop_steps_bounded ls s s' Hrun Htk) as [_ Hle]. split.
  - assert (steps_left s ≤ 7); [|lia]. unfold steps_left. destruct (accept_at s), (dispatch_at s); cbn; lia.
  - destruct (decide (steps_left s' = 0)) as [Hz|Hz].
    + left. unfold steps_left in Hz. destruct (accept_at s'), (dispatch_at s'); cbn in *; done || lia.
    + right. apply loops_enabled; [|done..]. apply pipe_reachable_inv.
      etransitivity; [exact Hr|]. by eapply pipe_run_rtc.
Qed.

(** ** What a graceful shutdown holds *)

(** Both loops were seen to end and the set was taken. *)
Definition settled (p : ShutPhase) : bool := taken p && awaited_accept p && awaited_dispatch p.

Lemma settled_step l s s' :
  pipe_step l s = Some s' → pipe_inv s → settled (shut_at s) = true →
  settled (shut_at s') = true ∧ next_stream s' = next_stream s.
Proof.
  intros E Hi Hs. unfold settled in Hs. apply andb_prop in Hs as [[Ht Ha]%andb_prop Hd].
  pose proof (inv_awaited_accept s Hi Ha) as Ea. pose proof (inv_awaited_dispatch s Hi Hd) as Ed.
  unfold settled. destruct l; cbn [pipe_step] in E;
    unfold accept_step, dispatch_step, pump_step, life_step in E; rewrite ?Ea, ?Ed in E; try done;
    destruct (shut_at s) eqn:Es; try done; repeat case_decide; repeat case_match; simplify_eq; cbn in *;
    rewrite ?Es; cbn; by rewrite ?Ha, ?Hd.
Qed.

Lemma settled_run ls s s' :
  pipe_run ls s = Some s' → pipe_inv s → settled (shut_at s) = true →
  settled (shut_at s') = true ∧ next_stream s' = next_stream s ∧ pipe_inv s'.
Proof.
  revert s. induction ls as [|l ls IH]; intros s; cbn [pipe_run]; [by intros [= ->]|].
  destruct (pipe_step l s) as [s1|] eqn:E; [|done]. intros Hr Hi Hs.
  destruct (settled_step l s s1 E Hi Hs) as [Hs1 <-]. eauto using pipe_step_inv.
Qed.

(** A graceful shutdown that saw both loops end holds every pump: no
    stream is in flight, none will be accepted, and each pump that is not
    over is in the set [shutdown] took, where it is joined or aborted; the
    permits not back yet are theirs. *)
Theorem pipe_shutdown_holds_every_pump (s : Pipe) (ls : list Label) (s' : Pipe) :
  rtc pipe_steps Pipe_new s → shut_at s = Draining true true → pipe_run ls s = Some s' →
  in_flight s' = [] ∧ next_stream s' = next_stream s ∧ conns s' = ∅ ∧
  permits s' + count holds (tasks s') = MAX_PUMPS ∧
  ∀ id p, tasks s' !! id = Some p → p ≠ Finished → id ∈ owned s'.
Proof.
  intros Hi%pipe_reachable_inv Hs Hr.
  destruct (settled_run ls s s' Hr Hi) as (Hs' & Hn & Hi'); [by rewrite Hs|].
  unfold settled in Hs'. apply andb_prop in Hs' as [[Ht Ha]%andb_prop Hd].
  pose proof (inv_awaited_accept s' Hi' Ha) as Ea. pose proof (inv_awaited_dispatch s' Hi' Hd) as Ed.
  pose proof (inv_taken s' Hi' Ht Hd) as Hc. pose proof (inv_permits s' Hi') as Hp. rewrite Ed in Hp.
  split_and!; [|done..| |].
  - unfold in_flight. rewrite Ea, Ed, (inv_closed s' Hi'); [done|by rewrite Ed].
  - cbn in Hp. lia.
  - intros id p Hid Hne. pose proof (inv_tracked s' Hi' id p Hid Hne) as H. rewrite Hc in H. set_solver.
Qed.

End Steps.

(** ** The cap against the pool *)

(** The blocking threads of the command line's runtime. *)
Definition MAX_BLOCKING_THREADS : nat := 32.

(** One stream from its accept to its pump task. *)
Definition dispatch_one : list Label := [ACheck; AAccept; ASend; DPoll; DRecv; DTake; DSpawn].

Definition flood : list Label :=
  [AStart; ASet true] ++ mjoin (replicate MAX_PUMPS dispatch_one) ++ (PStart <$> seq 0 31).

(** The cap does not keep the pool from starving.  The accept loop has a
    blocking thread of its own, so of the thirty-two pumps that are let in at
    most thirty-one ever run beside it, and thirty-one peers that stay
    connected leave the next pump, with its permit, and every other blocking
    task without a thread. *)
Theorem pump_cap_starves_pool :
  (∀ s, rtc (pipe_steps MAX_BLOCKING_THREADS) Pipe_new s → accept_runs (accept_at s) = 1 →
    count runs (tasks s) < MAX_PUMPS) ∧
  ∃ s, rtc (pipe_steps MAX_BLOCKING_THREADS) Pipe_new s ∧ permits s = 0 ∧
    busy s = MAX_BLOCKING_THREADS ∧ tasks s !! 31 = Some Queued ∧
    pipe_step MAX_BLOCKING_THREADS (PStart 31) s = None.
Proof.
  split.
  - intros s Hi%pipe_reachable_inv Ha. pose proof (inv_threads _ s Hi) as H. unfold busy in H. rewrite Ha in H.
    unfold MAX_BLOCKING_THREADS, MAX_PUMPS in *. lia.
  - exists (default Pipe_new (pipe_run MAX_BLOCKING_THREADS flood Pipe_new)). split.
    + apply (pipe_run_rtc _ flood). vm_compute. reflexivity.
    + split_and!; vm_compute; reflexivity.
Qed.

(** ** The pipe name that is bound *)

Section CreatePipeProps.
Context {IoError : Type}.
Variables to_fs_name create_sync : string → option IoError.
Variable no_pipe_bound : IoError.

Lemma create_pipe_from_spec start n :
  (∀ p, to_fs_name p = None) → start + S n = 10 →
  match create_pipe_from to_fs_name create_sync no_pipe_bound (seq start (S n)) with
  | inl path => ∃ k, start ≤ k < 10 ∧ path = pipe_path k ∧ create_sync path = None ∧
      ∀ m, start ≤ m < k → is_Some (create_sync (pipe_path m))
  | inr err => (∀ m, start ≤ m < 10 → is_Some (create_sync (pipe_path m))) ∧
      ∃ e, create_sync (pipe_path 9) = Some e ∧ err = IpcBind 10 e
  end.
Proof.
  intros Hn. revert start. induction n as [|n IH]; intros start Hs; rewrite <- cons_seq; cbn [create_pipe_from]; rewrite Hn;
    destruct (create_sync (pipe_path start)) as [e|] eqn:He.
  - assert (start = 9) as -> by lia. rewrite decide_True by done. split; [|eauto].
    intros m ?. assert (m = 9) as -> by lia. eauto.
  - exists start. split_and!; [lia..|done|done|]. intros m ?. lia.
  - rewrite decide_False by lia. specialize (IH (S start) ltac:(lia)).
    assert (∀ m, start ≤ m → m = start ∨ S start ≤ m) as Hm by lia.
    destruct (create_pipe_from _ _ _ _) as [path|err].
    + destruct IH as (k & Hk & -> & Hf & Hall). exists k. split_and!; [lia..|done|done|].
      intros m Hm'. destruct (Hm m) as [-> |?]; [lia|eauto|]. apply Hall. lia.
    + destruct IH as [Hall He']. split; [|done]. intros m Hm'. destruct (Hm m) as [-> |?]; [lia|eauto|]. apply Hall. lia.
  - exists start. split_and!; [lia..|done|done|]. intros m ?. lia.
Qed.

(** The transport binds the first of the ten pipe names on which a
    listener can be created, and when there is none it fails with the last
    name's error: the error after the loop is never returned. *)
Theorem create_pipe_first_free :
  (∀ p, to_fs_name p = None) →
  match create_pipe to_fs_name create_sync no_pipe_bound with
  | inl path => ∃ n, n < 10 ∧ path = pipe_path n ∧ create_sync path = None ∧
      ∀ m, m < n → is_Some (create_sync (pipe_path m))
  | inr err => (∀ m, m < 10 → is_Some (create_sync (pipe_path m))) ∧
      ∃ e, create_sync (pipe_path 9) = Some e ∧ err = IpcBind 10 e
  end.
Proof.
  intros Hn. pose proof (create_pipe_from_spec 0 9 Hn eq_refl) as H. unfold create_pipe.
  destruct (create_pipe_from _ _ _ _) as [path|err].
  - destruct H as (k & Hk & Hp & Hf & Hall). exists k. split_and!; [lia|done..|]. intros m ?. apply Hall. lia.
  - destruct H as [Hall He]. split; [|done]. intros m ?. apply Hall. lia.
Qed.

End CreatePipeProps.

(** ** Runs *)

(** Two names taken. *)
Lemma create_pipe_first_free_witness :
  let taken p := if bool_decide (p ∈ [pipe_path 0; pipe_path 1]) then Some tt else None in
  (∀ p : string, (λ _, None : option unit) p = None) ∧
  create_pipe (λ _, None) taken tt = inl (PIPE_BASE +:+ "-2") ∧
  ∃ n, n < 10 ∧ PIPE_BASE +:+ "-2" = pipe_path n.
Proof.
  intros taken. split; [done|]. split; [vm_compute; reflexivity|].
  pose proof (create_pipe_first_free (λ _, None) taken tt (λ _, eq_refl)) as H.
  change (create_pipe (λ _, None) taken tt) with (@inl string (PipeError unit) (PIPE_BASE +:+ "-2")) in H.
  destruct H as (n & Hn & Hp & _). eauto.
Defined.

(** Three peers: one leaves, one is served, one waits for the pool's last
    thread; then a shutdown with a stream on its way. *)
Definition demo_labels : list Label :=
  [AStart; ASet true] ++ mjoin (replicate 3 dispatch_one) ++
  [PStart 0; PStart 1; ACheck; AWouldBlock; PReturn 0; PRelease 0; DPoll; ACheck; AAccept; SdCancel; ASend].

Definition demo_rest : list Label := [PFinish 0; ACheck; DRecv; DTake; DSpawn; DPoll].

Definition demo_state : Pipe := default Pipe_new (pipe_run 3 demo_labels Pipe_new).

Definition demo_drain : Pipe :=
  default Pipe_new (pipe_run 3 (demo_rest ++ [SdAccept true; SdDispatch true; SdTake]) demo_state).

Lemma pipe_demo_reachable : rtc (pipe_steps 3) Pipe_new demo_state.
Proof. apply (pipe_run_rtc _ demo_labels). vm_compute. reflexivity. Qed.

Lemma drain_reachable : rtc (pipe_steps 3) Pipe_new demo_drain.
Proof.
  etransitivity; [exact pipe_demo_reachable|].
  apply (pipe_run_rtc _ (demo_rest ++ [SdAccept true; SdDispatch true; SdTake])). vm_compute. reflexivity.
Qed.

Lemma pipe_pumps_are_capped_witness :
  permits demo_state + count holds (tasks demo_state) + pending (dispatch_at demo_state) = MAX_PUMPS ∧
  permits demo_state = 30 ∧ queue demo_state = [3].
Proof.
  split; [|by vm_compute].
  destruct (pipe_pumps_are_capped 3 demo_state pipe_demo_reachable) as [H _]. exact H.
Defined.

Lemma pipe_loops_stop_witness :
  accept_at demo_drain = AEnded ∧ rx_open (dispatch_at demo_drain) = false ∨
  ∃ l s'', loop_label l = true ∧ pipe_step 3 l demo_drain = Some s''.
Proof.
  apply (pipe_loops_stop 3 demo_state (demo_rest ++ [SdAccept true; SdDispatch true; SdTake]) demo_drain).
  - lia.
  - exact pipe_demo_reachable.
  - vm_compute. reflexivity.
  - vm_compute. reflexivity.
Defined.

Lemma pipe_shutdown_holds_every_pump_witness :
  1 ∈ owned demo_drain ∧ tasks demo_drain !! 1 = Some Pumping.
Proof.
  split; [|vm_compute; reflexivity].
  destruct (pipe_shutdown_holds_every_pump 3 demo_drain [] demo_drain) as (_ & _ & _ & _ & H).
  - exact drain_reachable.
  - vm_compute. reflexivity.
  - reflexivity.
  - apply (H 1 Pumping); [vm_compute; reflexivity|done].
Defined.

(** A peer that never leaves outlives the shutdown. *)
Example silent_peer_outlives_shutdown :
  ∃ s, rtc (pipe_steps 3) Pipe_new s ∧ shut_at s = Down true true ∧ tasks s !! 1 = Some Pumping.
Proof.
  exists (default Pipe_new (pipe_run 3 [SdDown] demo_drain)). split; [|by vm_compute].
  etransitivity; [exact drain_reachable|]. apply (pipe_run_rtc _ [SdDown]). vm_compute. reflexivity.
Qed.
