(* ===== verification/Ports.v ===== *)
(** * Ports: configurations and the walks that bind them

    The bridge's and the game transport's configurations
    (crates/rsrpc-bridge/src/config.rs, crates/rsrpc-transport-ws/src/config.rs),
    what the daemon makes of its own ([ws_transport_config],
    [bridge_config_for] of crates/rsrpc-core/src/daemon.rs), and the walks
    over a port range in [Bridge::bind] and [WsTransport::bind].  Which ports
    can be bound while some are held is the operating system's. *)

From stdpp Require Import base gmap strings list list_numbers sets.
From Stdlib Require Import Ascii.
From S2P Require Import Prelude RStr Ids Consumers StateFile WsServer StateFile Daemon.

Local Open Scope string_scope.
Local Open Scope Z_scope.
Local Open Scope list_scope.

(** ** Configurations *)

Definition U16_MAX : Z := 65535.

(** [WsTransportConfig]. *)
Record WsTransportConfig := {
  wt_port_start : Z;
  wt_port_end : Z;
  wt_set_activity : bool;
  wt_secondary_events : bool;
  wt_event_queue : nat;
  wt_max_connections : nat;
  wt_per_client_queue : nat;
  wt_max_message_size : option Z;
  wt_max_frame_size : option Z
}.

Definition DEFAULT_EVENT_QUEUE : nat := 64%nat.
Definition DEFAULT_MAX_CONNECTIONS : nat := 32%nat.
Definition DEFAULT_PER_CLIENT_QUEUE : nat := 8%nat.

(** [WsTransportConfig::new]. *)
Definition WsTransportConfig_new (port_start port_end : Z) : WsTransportConfig := {|
  wt_port_start := port_start; wt_port_end := port_end;
  wt_set_activity := true; wt_secondary_events := true;
  wt_event_queue := DEFAULT_EVENT_QUEUE; wt_max_connections := DEFAULT_MAX_CONNECTIONS;
  wt_per_client_queue := DEFAULT_PER_CLIENT_QUEUE;
  wt_max_message_size := max_message_size ServerConfig_default;
  wt_max_frame_size := max_frame_size ServerConfig_default |}.

(** The server configuration [WsTransport::bind] builds for every port. *)
Definition ws_server_config (c : WsTransportConfig) : ServerConfig := {|
  max_connections := wt_max_connections c; event_queue := wt_event_queue c;
  per_client_queue := wt_per_client_queue c;
  max_message_size := wt_max_message_size c; max_frame_size := wt_max_frame_size c;
  keepalive_interval := keepalive_interval ServerConfig_default;
  idle_timeout := idle_timeout ServerConfig_default |}.

(** [ws_transport_config]: the flags gate their own command classes. *)
Definition ws_transport_config (config : RPCConfig) : WsTransportConfig :=
  let c := WsTransportConfig_new (ws_port_start config) (ws_port_end config) in
  {| wt_port_start := wt_port_start c; wt_port_end := wt_port_end c;
     wt_set_activity := enable_websocket_connector config;
     wt_secondary_events := enable_secondary_events config;
     wt_event_queue := wt_event_queue c; wt_max_connections := wt_max_connections c;
     wt_per_client_queue := wt_per_client_queue c;
     wt_max_message_size := wt_max_message_size c; wt_max_frame_size := wt_max_frame_size c |}.

(** [ServerBounds]. *)
Record ServerBounds := {
  sb_max_connections : option nat;
  sb_event_queue : option nat;
  sb_per_client_queue : option nat;
  sb_max_message_size : option Z;
  sb_max_frame_size : option Z
}.

(** [ServerBounds::apply]: unset fields keep the builder's. *)
Definition bounds_apply (b : ServerBounds) (c : ServerConfig) : ServerConfig := {|
  max_connections := default (max_connections c) (sb_max_connections b);
  event_queue := default (event_queue c) (sb_event_queue b);
  per_client_queue := default (per_client_queue c) (sb_per_client_queue b);
  max_message_size := match sb_max_message_size b with Some n => Some n | None => max_message_size c end;
  max_frame_size := match sb_max_frame_size b with Some n => Some n | None => max_frame_size c end;
  keepalive_interval := keepalive_interval c;
  idle_timeout := idle_timeout c |}.

(** [BridgeConfig]; durations in seconds. *)
Record BridgeConfig := {
  bc_json_port_start : Z;
  bc_json_port_end : Z;
  bc_msgpack_port_start : Z;
  bc_msgpack_port_end : Z;
  bc_app_version : string;
  bc_state_dir : option string;
  bc_ws_port : option Z;
  bc_ipc_path : option string;
  bc_allowed_origins : list string;
  bc_persist_interval : Z;
  bc_refresh_interval : Z;
  bc_max_connections : option nat;
  bc_event_queue : option nat;
  bc_per_client_queue : option nat;
  bc_max_message_size : option Z;
  bc_max_frame_size : option Z
}.

(** [BridgeConfig::server_bounds]. *)
Definition server_bounds (c : BridgeConfig) : ServerBounds := {|
  sb_max_connections := bc_max_connections c; sb_event_queue := bc_event_queue c;
  sb_per_client_queue := bc_per_client_queue c;
  sb_max_message_size := bc_max_message_size c; sb_max_frame_size := bc_max_frame_size c |}.

(** The default ranges. *)
Definition DEFAULT_JSON_PORT_START : Z := 1337.
Definition DEFAULT_JSON_PORT_END : Z := 1347.
Definition DEFAULT_MSGPACK_PORT_START : Z := 1338.
Definition DEFAULT_MSGPACK_PORT_END : Z := 1348.

(** [BridgeConfig::new]. *)
Definition BridgeConfig_new (version : string) (json_start json_end msgpack_start msgpack_end : Z)
    : BridgeConfig := {|
  bc_json_port_start := json_start; bc_json_port_end := json_end;
  bc_msgpack_port_start := msgpack_start; bc_msgpack_port_end := msgpack_end;
  bc_app_version := version; bc_state_dir := None; bc_ws_port := None; bc_ipc_path := None;
  bc_allowed_origins := []; bc_persist_interval := DEFAULT_PERSIST_INTERVAL;
  bc_refresh_interval := DEFAULT_REFRESH_INTERVAL;
  bc_max_connections := None; bc_event_queue := None; bc_per_client_queue := None;
  bc_max_message_size := None; bc_max_frame_size := None |}.

(** [bridge_config_for]. *)
Definition bridge_config_for (version temp_dir : string) (config : RPCConfig) (ws_port : option Z)
    (ipc_path : option string) : BridgeConfig :=
  let c := BridgeConfig_new version (cfg_port config) (bridge_port_end config)
             (cfg_msgpack_port config) (Z.min U16_MAX (cfg_msgpack_port config + 10)) in
  {| bc_json_port_start := bc_json_port_start c; bc_json_port_end := bc_json_port_end c;
     bc_msgpack_port_start := bc_msgpack_port_start c; bc_msgpack_port_end := bc_msgpack_port_end c;
     bc_app_version := cfg_app_version config;
     bc_state_dir := if cfg_state_file config then Some temp_dir else None;
     bc_ws_port := ws_port; bc_ipc_path := ipc_path;
     bc_allowed_origins := map normalize_origin (bridge_allowed_origins config);
     bc_persist_interval := bc_persist_interval c; bc_refresh_interval := bc_refresh_interval c;
     bc_max_connections := bc_max_connections c; bc_event_queue := bc_event_queue c;
     bc_per_client_queue := bc_per_client_queue c;
     bc_max_message_size := bc_max_message_size c; bc_max_frame_size := bc_max_frame_size c |}.

(** ** Errors *)

Inductive PortError :=
  | InvalidConfig (what : string)
  | BridgeBind (name : string) (first last : Z)
  | WsBind (first last : Z)
  | WsExhausted (first last : Z).

(** ** The walks *)

(** What binding a port answers: the port held now, or no luck. *)
Inductive BindTry := PortBound (actual : Z) | PortErr | LaunchErr.

Section Walks.
(** The answer for a port while others are held by this process. *)
Context (os : gset Z → Z → BindTry).

(** [start..=end]. *)
Definition port_range (first last : Z) : list Z := seqZ first (last - first + 1).

(** The loop of [bind_range]. *)
Fixpoint walk_range (held : gset Z) (skip : option Z) (bounds : ServerBounds) (ports : list Z)
    : PortError + option Z :=
  match ports with
  | [] => inr None
  | port :: ports =>
      if bool_decide (Some port = skip) then walk_range held skip bounds ports
      else match build (bounds_apply bounds ServerConfig_default) with
           | inl _ => inl (InvalidConfig "bridge server bounds must be non-zero")
           | inr _ =>
               match os held port with
               | PortBound actual => inr (Some actual)
               | PortErr | LaunchErr => walk_range held skip bounds ports
               end
           end
  end.

(** [bind_range]. *)
Definition bind_range (held : gset Z) (first last : Z) (skip : option Z) (name : string)
    (bounds : ServerBounds) : PortError + Z :=
  let last := Z.max last first in
  match walk_range held skip bounds (port_range first last) with
  | inl e => inl e
  | inr (Some actual) => inr actual
  | inr None => inl (BridgeBind name first last)
  end.

(** The ports of [Bridge::bind]. *)
Definition bridge_bind (c : BridgeConfig) : PortError + Z * Z :=
  if bc_persist_interval c =? 0 then inl (InvalidConfig "persist_interval must be non-zero")
  else if bc_refresh_interval c =? 0 then inl (InvalidConfig "refresh_interval must be non-zero")
  else match bind_range ∅ (bc_json_port_start c) (bc_json_port_end c) None "json" (server_bounds c) with
       | inl e => inl e
       | inr json_port =>
           let skip := if bc_msgpack_port_start c =? json_port then Some json_port else None in
           match bind_range {[json_port]} (bc_msgpack_port_start c) (bc_msgpack_port_end c) skip
                   "msgpack" (server_bounds c) with
           | inl e => inl e
           | inr msgpack_port => inr (json_port, msgpack_port)
           end
       end.

(** The loop of [WsTransport::bind]: the bound port, or whether a bind
    error was seen. *)
Fixpoint ws_walk (c : WsTransportConfig) (failed : bool) (ports : list Z) : PortError + (Z + bool) :=
  match ports with
  | [] => inr (inr failed)
  | port :: ports =>
      match build (ws_server_config c) with
      | inl _ => inl (InvalidConfig "rsrpc-ws bounds must be non-zero")
      | inr _ =>
          match os ∅ port with
          | PortBound actual => inr (inl actual)
          | PortErr => ws_walk c true ports
          | LaunchErr => ws_walk c failed ports
          end
      end
  end.

(** The port of [WsTransport::bind]. *)
Definition ws_bind (c : WsTransportConfig) : PortError + Z :=
  if decide (wt_event_queue c = 0%nat) then inl (InvalidConfig "event_queue must be non-zero")
  else if decide (wt_max_connections c = 0%nat) then inl (InvalidConfig "max_connections must be non-zero")
  else if decide (wt_per_client_queue c = 0%nat) then inl (InvalidConfig "per_client_queue must be non-zero")
  else match ws_walk c false (port_range (wt_port_start c) (wt_port_end c)) with
       | inl e => inl e
       | inr (inl port) => inr port
       | inr (inr true) => inl (WsBind (wt_port_start c) (wt_port_end c))
       | inr (inr false) => inl (WsExhausted (wt_port_start c) (wt_port_end c))
       end.

(** ** What the walks find *)

(** A port that is held cannot be bound again, and a port above zero is
    bound as asked. *)
Record os_ok : Prop := {
  os_held : ∀ held p, p ∈ held → ∀ q, os held p ≠ PortBound q;
  os_fresh : ∀ held p q, os held p = PortBound q → q ∉ held;
  os_named : ∀ held p q, os held p = PortBound q → p ≠ 0 → q = p
}.

Definition bindable (held : gset Z) (port : Z) : option Z :=
  match os held port with PortBound actual => Some actual | _ => None end.

Section Bounded.
Context (held : gset Z) (bounds : ServerBounds).
Hypothesis Hbuild : ∃ sc, build (bounds_apply bounds ServerConfig_default) = inr sc.

Lemma walk_range_first ports : walk_range held None bounds ports = inr (find_map (bindable held) ports).
Proof.
  destruct Hbuild as [sc Hb]. induction ports as [|p ports IH]; [done|]. cbn [walk_range find_map].
  rewrite bool_decide_false, Hb by done. unfold bindable at 1. by destruct (os held p).
Qed.

(** Skipping a port that is held changes nothing. *)
Lemma walk_range_skip skip ports :
  os_ok → skip ∈ held → walk_range held (Some skip) bounds ports = walk_range held None bounds ports.
Proof.
  destruct Hbuild as [sc Hb]. intros Hos Hs. induction ports as [|p ports IH]; [done|].
  cbn [walk_range]. rewrite (bool_decide_false (Some p = None)) by done.
  case_bool_decide as E; [|by rewrite IH]. injection E as ->. rewrite Hb.
  destruct (os held skip) eqn:Eo; [|done..]. by destruct (os_held Hos held skip Hs actual).
Qed.
End Bounded.

(** The bridge binds the first free port of each range, and never the
    same one twice.  With non-zero cadences and bounds, the JSON port is the
    first of its range the system grants; the MessagePack port the first of
    its own that is granted while the JSON port is held, so the two differ,
    and skipping the JSON port at the start of the range loses nothing; it
    fails, naming the range, exactly when one of them has no port left. *)
Theorem bridge_binds_first_free (c : BridgeConfig) :
  os_ok → bc_persist_interval c ≠ 0 → bc_refresh_interval c ≠ 0 →
  (∃ sc, build (bounds_apply (server_bounds c) ServerConfig_default) = inr sc) →
  let range first last := port_range first (Z.max last first) in
  let json := range (bc_json_port_start c) (bc_json_port_end c) in
  let msgpack := range (bc_msgpack_port_start c) (bc_msgpack_port_end c) in
  match bridge_bind c with
  | inr (j, m) => find_map (bindable ∅) json = Some j ∧ find_map (bindable {[j]}) msgpack = Some m ∧ j ≠ m
  | inl (BridgeBind name first last) =>
      name = "json" ∧ find_map (bindable ∅) json = None ∨
      name = "msgpack" ∧ ∃ j, find_map (bindable ∅) json = Some j ∧ find_map (bindable {[j]}) msgpack = None
  | inl _ => False
  end.
Proof.
  intros Hos Hp Hr [sc Hb]. cbv zeta. unfold bridge_bind.
  rewrite (proj2 (Z.eqb_neq _ _) Hp), (proj2 (Z.eqb_neq _ _) Hr). unfold bind_range.
  rewrite walk_range_first by eauto. destruct (find_map (bindable ∅) _) as [j|] eqn:Ej; [|by left].
  assert (∀ ports, walk_range {[j]} (if bc_msgpack_port_start c =? j then Some j else None)
    (server_bounds c) ports = inr (find_map (bindable {[j]}) ports)) as Hw.
  { intros ports. case_match; [rewrite walk_range_skip by (eauto || set_solver)|];
      apply walk_range_first; eauto. }
  rewrite Hw. destruct (find_map (bindable {[j]}) _) as [m|] eqn:Em; [|right; eauto].
  split_and!; [done..|]. intros <-. apply find_map_Some in Em as (p & _ & E).
  unfold bindable in E. destruct (os {[j]} p) eqn:Eo; [|done..]. injection E as ->.
  apply (os_fresh Hos) in Eo. set_solver.
Qed.

Lemma ws_walk_spec c failed ports :
  (∃ sc, build (ws_server_config c) = inr sc) →
  match ws_walk c failed ports with
  | inr (inl p) => find_map (bindable ∅) ports = Some p
  | inr (inr true) =>
      find_map (bindable ∅) ports = None ∧ (failed = true ∨ ∃ p, p ∈ ports ∧ os ∅ p = PortErr)
  | inr (inr false) => failed = false ∧ ∀ p, p ∈ ports → os ∅ p = LaunchErr
  | inl _ => False
  end.
Proof.
  intros [sc Hsc]. revert failed.
  induction ports as [|p ports IH]; intros failed; cbn [ws_walk find_map].
  { destruct failed; (split; [done|]); [by left|]. intros p. rewrite elem_of_nil. done. }
  assert (∀ b, os ∅ p = b → bindable ∅ p = match b with PortBound q => Some q | _ => None end) as Hb.
  { by intros b <-. }
  rewrite Hsc. destruct (os ∅ p) eqn:Eo; rewrite (Hb _ eq_refl); [done|..].
  - specialize (IH true). destruct (ws_walk c true ports) as [|[q|[]]]; [done|done| |by destruct IH].
    destruct IH as [Hn _]. split; [done|]. right. exists p. split; [by left|done].
  - specialize (IH failed). destruct (ws_walk c failed ports) as [|[q|[]]]; [done|done|..].
    + destruct IH as [Hn [?|(q & ? & ?)]]; (split; [done|]); [by left|right].
      exists q. split; [by right|done].
    + destruct IH as [Hf Hall]. split; [done|]. intros q [->|Hq]%elem_of_cons; auto.
Qed.

(** The game transport binds the first port of its range the system
    grants, and its error says why it could not: an unusable bound before
    any port is tried, a bind error when some port was refused, and an
    exhausted range only when it is empty or no server could be launched on
    any of its ports. *)
Theorem ws_binds_first_free (c : WsTransportConfig) :
  let range := port_range (wt_port_start c) (wt_port_end c) in
  match ws_bind c with
  | inr p => find_map (bindable ∅) range = Some p
  | inl (InvalidConfig _) =>
      wt_event_queue c = 0%nat ∨ wt_max_connections c = 0%nat ∨ wt_per_client_queue c = 0%nat
  | inl (WsBind first last) =>
      find_map (bindable ∅) range = None ∧ ∃ p, p ∈ range ∧ os ∅ p = PortErr
  | inl (WsExhausted first last) => ∀ p, p ∈ range → os ∅ p = LaunchErr
  | inl _ => False
  end.
Proof.
  cbv zeta. unfold ws_bind. do 3 (case_decide; [auto|]).
  assert (∃ sc, build (ws_server_config c) = inr sc) as Hsc
    by (unfold build, ws_server_config; cbn; repeat case_decide; eauto || done).
  pose proof (ws_walk_spec c false (port_range (wt_port_start c) (wt_port_end c)) Hsc) as Hw.
  destruct (ws_walk c false _) as [|[p|[]]]; [done|done| |by destruct Hw].
  destruct Hw as [Hn [?|Hp]]; [done|]. by split.
Qed.
End Walks.

(** Everything is free but port 1337. *)
Definition demo_os (held : gset Z) (p : Z) : BindTry :=
  if decide (p ∈ held ∨ p = 1337 ∨ p = 0) then PortErr else PortBound p.

Lemma demo_os_ok : os_ok demo_os.
Proof.
  unfold demo_os. constructor.
  - intros held p Hp q. rewrite decide_True by auto. done.
  - intros held p q. case_decide as E; [done|]. intros [= <-]. tauto.
  - intros held p q. case_decide; [done|]. by intros [= <-].
Qed.

Lemma bridge_binds_first_free_witness :
  bridge_bind demo_os (BridgeConfig_new "0" 1337 1347 1338 1348) = inr (1338, 1339) ∧ 1338 ≠ 1339.
Proof.
  pose proof (bridge_binds_first_free demo_os (BridgeConfig_new "0" 1337 1347 1338 1348) demo_os_ok) as H.
  assert (bridge_bind demo_os (BridgeConfig_new "0" 1337 1347 1338 1348) = inr (1338, 1339)) as E
    by (vm_compute; reflexivity).
  rewrite E in H. split; [exact E|]. apply H; [done|done|]. eexists. vm_compute. reflexivity.
Defined.
