(* ===== verification/Boot.v ===== *)
(** * Booting the daemon (cli/src/main.rs, crates/rsrpc-core/src: daemon.rs, database.rs)

    From the command line to the configuration, the database the daemon
    starts with and the validators that seed its hourly refresh, the staged
    overrides, and the one-shot diagnostics.  What the network answers, what
    the disk holds and what the user's arguments are (clap parses them) are
    inputs; serde's two decodes of a database body are parameters. *)

From stdpp Require Import base gmap strings list sets.
From Stdlib Require Import Ascii.
From S2P Require Import Prelude RStr Text HashMaps Json Ids ScanNames Bundle BundleProps Steam AppIdMemo Exclusions Scan Runtime RuntimeProps Db Refresh Io Update StdPath SteamFs Daemon Overrides.

Local Open Scope string_scope.
Local Open Scope nat_scope.
Local Open Scope list_scope.

(** ** Arguments *)

Definition DEFAULT_DB_URL : string := "https://discord.com/api/v9/applications/detectable".
Definition DEFAULT_EXCLUSIONS_URL : string :=
  "https://discord.com/api/v9/games/detectable/exclusions".

Record Args := {
  a_detectable_file : option string;
  a_no_process_scan : bool;
  a_no_proc_events : bool;
  a_debug : bool;
  a_bridge_port : Z;
  a_bridge_port_end : Z;
  a_msgpack_port : Z;
  a_ws_port_start : Z;
  a_ws_port_end : Z;
  a_scan_interval_secs : Z;
  a_db_url : option string;
  a_enable_db_update : bool;
  a_exclusions_url : option string;
  a_overrides_file : option string;
  a_overrides_dir : option string;
  a_ignore_ids : option string;
  a_state_file : bool;
  a_bridge_allowed_origins : option string;
  a_list_detected : bool;
  a_list_database : bool;
  a_check_update : bool;
  a_update : bool;
  a_yes : bool;
  a_rollback : bool;
  a_auto_update : bool
}.

(** No flag and no variable set. *)
Definition Args_default : Args := {|
  a_detectable_file := None; a_no_process_scan := false; a_no_proc_events := false; a_debug := false;
  a_bridge_port := 1337; a_bridge_port_end := 1347; a_msgpack_port := 1338; a_ws_port_start := 6463;
  a_ws_port_end := 6472; a_scan_interval_secs := 5; a_db_url := None; a_enable_db_update := false;
  a_exclusions_url := None; a_overrides_file := None; a_overrides_dir := None; a_ignore_ids := None;
  a_state_file := false; a_bridge_allowed_origins := None; a_list_detected := false;
  a_list_database := false; a_check_update := false; a_update := false; a_yes := false;
  a_rollback := false; a_auto_update := false |}.

(** [parse_csv_list]. *)
Definition parse_csv_list (input : option string) : list string :=
  base.filter (λ id, str_empty id = false) (map trim (split ","%char (default "" input))).

(** [build_daemon_config]; [version] is the crate's. *)
Definition build_daemon_config (version : string) (args : Args) : RPCConfig :=
  let or_default (given : option string) (url : string) :=
    match given with
    | Some url => Some url
    | None => if a_enable_db_update args then Some url else None
    end in
  let d := RPCConfig_default version in
  {| enable_process_scanner := negb (a_no_process_scan args);
     enable_proc_events := negb (a_no_proc_events args);
     enable_ipc_connector := enable_ipc_connector d;
     enable_websocket_connector := enable_websocket_connector d;
     enable_secondary_events := enable_secondary_events d;
     cfg_port := a_bridge_port args; bridge_port_end := a_bridge_port_end args;
     cfg_msgpack_port := a_msgpack_port args; ws_port_start := a_ws_port_start args;
     ws_port_end := a_ws_port_end args; scan_interval_secs := a_scan_interval_secs args;
     db_url := or_default (a_db_url args) DEFAULT_DB_URL;
     enable_db_update := a_enable_db_update args;
     initial_db_etag := initial_db_etag d; initial_db_content_hash := initial_db_content_hash d;
     ignored_ids := parse_csv_list (a_ignore_ids args);
     exclusions_url :=
       match or_default (a_exclusions_url args) DEFAULT_EXCLUSIONS_URL with
       | Some url => if str_empty (trim url) then None else Some url
       | None => None
       end;
     cfg_app_version := version; cfg_state_file := a_state_file args;
     bridge_allowed_origins := parse_csv_list (a_bridge_allowed_origins args) |}.

(** The two seeds of the hourly refresh. *)
Definition with_seeds (etag : option string) (hash : option (Z * Z)) (c : RPCConfig) : RPCConfig :=
  {| enable_process_scanner := enable_process_scanner c; enable_proc_events := enable_proc_events c;
     enable_ipc_connector := enable_ipc_connector c;
     enable_websocket_connector := enable_websocket_connector c;
     enable_secondary_events := enable_secondary_events c; cfg_port := cfg_port c;
     bridge_port_end := bridge_port_end c; cfg_msgpack_port := cfg_msgpack_port c;
     ws_port_start := ws_port_start c; ws_port_end := ws_port_end c;
     scan_interval_secs := scan_interval_secs c; db_url := db_url c;
     enable_db_update := enable_db_update c; initial_db_etag := etag; initial_db_content_hash := hash;
     ignored_ids := ignored_ids c; exclusions_url := exclusions_url c;
     cfg_app_version := cfg_app_version c; cfg_state_file := cfg_state_file c;
     bridge_allowed_origins := bridge_allowed_origins c |}.

(** ** The database *)

Inductive LoadError := UnreadableFile (path : string) | BadDatabase (broken : option string).

Section Load.
Context `{Serde, SipHash}.
(** [serde_json::from_str] of a body: into entries, and into objects. *)
Context (decode : string → option (list DetectableActivity)).
Context (objects : string → option (list (list (string * Value)))).
(** [BUNDLED_DETECTABLE], and what a URL answers: a tag and a body. *)
Context (bundled : string).
Context (fetch : string → option (string * option string)).
Context (disk : Disk).

(** [parse_body]. *)
Definition parse_body (body : string) : LoadError + (list DetectableActivity * string) :=
  match parse_database (decode body) (objects body) with
  | inl parsed => inr parsed
  | inr broken => inl (BadDatabase broken)
  end.

(** [database::load_file]. *)
Definition load_db_file (path : string) : LoadError + list DetectableActivity :=
  match read_text disk path with
  | None => inl (UnreadableFile path)
  | Some body => match parse_body body with inl e => inl e | inr (parsed, _) => inr parsed end
  end.

(** [load_bundled]. *)
Definition load_bundled : LoadError + list DetectableActivity :=
  match parse_body bundled with inl e => inl e | inr (parsed, _) => inr parsed end.

(** [Daemon::from_json_str], [from_file], [from_bundled]. *)
Definition from_json_str (body : string) (config : RPCConfig) : LoadError + Daemon :=
  match parse_body body with inl e => inl e | inr (parsed, _) => inr (from_parsed parsed config) end.
Definition from_file (path : string) (config : RPCConfig) : LoadError + Daemon :=
  match load_db_file path with inl e => inl e | inr parsed => inr (from_parsed parsed config) end.
Definition from_bundled (config : RPCConfig) : LoadError + Daemon :=
  match load_bundled with inl e => inl e | inr parsed => inr (from_parsed parsed config) end.

Definition labelled (label : string) (r : LoadError + Daemon) : LoadError + (Daemon * string) :=
  match r with inl e => inl e | inr dm => inr (dm, label) end.

(** [daemon_from_fetched]. *)
Definition daemon_from_fetched (body : string) (config : RPCConfig) : LoadError + (Daemon * string) :=
  match parse_body body with
  | inr (parsed, shape) =>
      let config := with_seeds (initial_db_etag config) (Some (content_hashes body parsed)) config in
      let label := if String.eqb shape "direct" then "fetched-direct" else "fetched-trimmed" in
      inr (from_parsed parsed config, label)
  | inl _ =>
      labelled "bundled-fallback"
        (from_bundled (with_seeds None (initial_db_content_hash config) config))
  end.

(** The fetch of [load_daemon], with its fallback. *)
Definition daemon_from_url (url : string) (config : RPCConfig) : LoadError + (Daemon * string) :=
  match fetch url with
  | Some (body, etag) =>
      daemon_from_fetched body (with_seeds etag (initial_db_content_hash config) config)
  | None => labelled "bundled-fallback" (from_bundled config)
  end.

(** [load_daemon]. *)
Definition load_daemon (args : Args) (config : RPCConfig) : LoadError + (Daemon * string) :=
  if a_no_process_scan args then labelled "empty" (from_json_str "[]" config)
  else match a_detectable_file args with
       | Some file => labelled "file" (from_file file config)
       | None =>
           match a_db_url args with
           | Some url => daemon_from_url url config
           | None =>
               if a_enable_db_update args then daemon_from_url DEFAULT_DB_URL config
               else labelled "bundled" (from_bundled config)
           end
       end.

(** [load_staged_overrides]: a file that cannot be read counts as empty. *)
Definition load_staged_overrides (decode_one : string → option DetectableActivity) (env : Env) (args : Args)
    : list DetectableActivity :=
  let overrides_path := default (default_file_path env) (a_overrides_file args) in
  let overrides_dir := default (default_dir_path env) (a_overrides_dir args) in
  default [] (load_file decode decode_one disk overrides_path) ++
  load_dir decode decode_one disk overrides_dir.

(** ** The refresh thread's start (daemon.rs, runtime.rs) *)

(** [RefreshConfig]. *)
Record RefreshConfig := {
  rc_db_url : option string;
  rc_enable : bool;
  rc_etag : option string;
  rc_content_hash : option (Z * Z);
  rc_exclusions_url : option string
}.

Definition refresh_config (c : RPCConfig) : RefreshConfig := {|
  rc_db_url := db_url c; rc_enable := enable_db_update c; rc_etag := initial_db_etag c;
  rc_content_hash := initial_db_content_hash c; rc_exclusions_url := exclusions_url c |}.

(** What the refresh thread starts from, when it is started. *)
Definition refresh_start `{AhoCorasick} (rc : RefreshConfig) (b : DetectablesBundle) : option RefreshState :=
  if rc_enable rc && bool_decide (is_Some (rc_db_url rc)) then
    Some {| rf_etag := rc_etag rc; rf_content_hash := fst <$> rc_content_hash rc;
            rf_trimmed_hash := snd <$> rc_content_hash rc; rf_bundle := b |}
  else None.
End Load.

(** ** Diagnostics *)

Record DetectedGame := { dg_id : string; dg_name : string; dg_pid : option Z }.

Definition detected_game (hit : ScannedHit) : DetectedGame :=
  {| dg_id := se_id (hit_entry hit); dg_name := se_name (hit_entry hit); dg_pid := Some (hit_pid hit) |}.

Section Detect.
Context `{AhoCorasick, Regex, CaseTables, HashOrder}.
Context (platform : Platform).
(** [fetch_exclusions]. *)
Context (fetch_exclusions : string → option Exclusions).

(** The exclusions of a one-shot scan: fetched when updates are on, none
    when that fails. *)
Definition once_exclusions (c : RPCConfig) : Exclusions :=
  if enable_db_update c then
    default exclusions_default (exclusions_url c ≫= fetch_exclusions)
  else exclusions_default.

(** [detect_once]: [steam_dirs] is what discovery found, [processes] what the
    listing gave. *)
Definition detect_once (mc : Machine) (steam_dirs : gmap string string) (processes : option (list Exec))
    (dm : Overrides.Daemon) : ScanError + list DetectedGame :=
  let srv := {| ss_exclusions := once_exclusions (dm_config dm); ss_steam_dirs := steam_dirs |} in
  let b := initial_bundle platform (dm_detectable dm) (dm_staged dm) in
  match (scan_for_processes platform mc srv b false processes ∅).1 with
  | inr e => inl e
  | inl (found, _) =>
      inr (map detected_game (apply_ignore_list found (list_to_set (ignored_ids (dm_config dm)) : gset string)))
  end.
End Detect.

(** [cmd_list_detected], the lines printed. *)
Definition detected_line (game : DetectedGame) : string :=
  match dg_pid game with
  | Some pid => dg_name game +:+ " (id " +:+ dg_id game +:+ ") pid " +:+ u64_to_string pid
  | None => dg_name game +:+ " (id " +:+ dg_id game +:+ ")"
  end.

Definition cmd_list_detected (found : list DetectedGame) : list string :=
  match found with
  | [] => ["No games detected (overrides and ignore-list apply here too)."]
  | _ => map detected_line found
  end.

(** [cmd_list_database], the lines printed. *)
Definition cmd_list_database (entries : list DetectableSummary) : list string :=
  let executables := foldr (λ e n, sum_executables e + n) 0 entries in
  let n := length entries in
  [u64_to_string (Z.of_nat n) +:+ " database entries, " +:+ u64_to_string (Z.of_nat executables) +:+ " executables"] ++
  map (λ e, sum_name e +:+ " (" +:+ sum_id e +:+ ")") (take 10 entries) ++
  (if decide (10 < n) then ["... and " +:+ u64_to_string (Z.of_nat (n - 10)) +:+ " more"] else []).

(** ** The entry point *)

Section Main.
Context `{Semver, Sha256, Minisign, OtaSerde, Serde}.

Inductive UpdateEnd :=
  | UpRollback (e : RollbackEnd)
  | UpCheck (o : option CheckOutcome)
  | UpStage (o : option (StageError + Version))
  | UpReexec.

(** [update_command]: [None] boots on.  The staged update is applied before
    every command but the rollback. *)
Definition update_command (arch os : string) (current : Version) (applied : bool) (line : option string)
    (exe : option Path) (dir : Path) (args : Args) : prog (option UpdateEnd) :=
  (if a_rollback args then
     e <- cmd_rollback applied exe dir; Ret (Some (UpRollback e))
   else
     booted <- apply_pending_on_boot applied exe dir current;
     match booted with
     | Reexec => Ret (Some UpReexec)
     | Continue =>
         if a_check_update args then o <- check arch os current; Ret (Some (UpCheck o))
         else if a_update args then
           o <- cmd_stage arch os current (a_yes args) line exe dir; Ret (Some (UpStage o))
         else Ret None
     end)%prog.
End Main.

(** How the daemon part of [async_main] ends, once no update command did:
    with an error, printed lines, or a daemon to run. *)
Inductive MainEnd :=
  | BootFailed (e : LoadError)
  | ScanFailed (e : ScanError)
  | Printed (lines : list string)
  | Serves (dm : Overrides.Daemon).

Definition main_daemon (loaded : LoadError + (Overrides.Daemon * string)) (staged : list DetectableActivity)
    (detect : Overrides.Daemon → ScanError + list DetectedGame) (args : Args) : MainEnd :=
  match loaded with
  | inl e => BootFailed e
  | inr (dm, _) =>
      let dm := append_detectables staged dm in
      if a_list_detected args then
        match detect dm with inl e => ScanFailed e | inr found => Printed (cmd_list_detected found) end
      else if a_list_database args then Printed (cmd_list_database (summarize (dm_detectable dm)))
      else Serves dm
  end.
