(* ===== verification/BootProps.v ===== *)
(** * What booting gives

    Which database each source label names and when boot fails; that the
    validators the refresh thread starts from describe the database that is
    running; that the one-shot scan shows what the daemon would publish; and
    that comma-separated lists read back. *)

From stdpp Require Import base gmap strings list sets.
From Stdlib Require Import Ascii.
From S2P Require Import Prelude RStr Text HashMaps Json Cmd Ids ScanNames Bundle BundleProps Steam AppIdMemo Exclusions Scan Runtime RuntimeProps Db Refresh StdPath SteamFs Daemon Overrides Boot.

Local Open Scope string_scope.
Local Open Scope nat_scope.
Local Open Scope list_scope.

(** ** Lists of ids *)

Lemma split_join c (ws : list (list ascii)) :
  Forall (λ w, c ∉ w) ws → split_l c (join_l [c] ws) = match ws with [] => [[]] | _ => ws end.
Proof.
  induction 1 as [|w ws Hw Hws IH]; [done|]. destruct ws as [|v ws].
  - cbn [join_l]. by apply split_l_none.
  - change (join_l [c] (w :: v :: ws)) with (w ++ c :: join_l [c] (v :: ws)).
    by rewrite split_l_sep, IH, split_l_none.
Qed.

(** A list of ids survives the command line: ids that are not blank, have
    no space around them and no comma inside come back from [--ignore-ids]
    and [--bridge-allowed-origins] as they were given, in order. *)
Theorem csv_list_roundtrip (ids : list string) :
  Forall (λ id, trim id = id ∧ id ≠ "" ∧ ","%char ∉ chars id) ids →
  parse_csv_list (Some (of_chars (join_l [","%char] (map chars ids)))) = ids.
Proof.
  intros H. unfold parse_csv_list, split. cbn [from_option id]. rewrite chars_of_chars, split_join
    by (apply Forall_map; eapply Forall_impl; [exact H|]; cbn; tauto).
  destruct ids as [|id0 ids']; [vm_compute; reflexivity|]. remember (id0 :: ids') as ids eqn:E.
  replace (match map chars ids with [] => [[]] | _ => map chars ids end) with (map chars ids) by by rewrite E.
  clear E. rewrite !map_map.
  induction H as [|id ids (Ht & Hne & _) _ IH]; [done|]. cbn [map]. rewrite of_chars_chars, Ht, filter_cons, IH.
  rewrite decide_True; [done|]. by destruct id.
Qed.

Lemma csv_list_roundtrip_witness :
  parse_csv_list (Some "111,222,33 3") = ["111"; "222"; "33 3"].
Proof.
  apply (csv_list_roundtrip ["111"; "222"; "33 3"]).
  repeat constructor; try (vm_compute; reflexivity); try discriminate;
    intros Hin%list_elem_of_In; vm_compute in Hin; repeat destruct Hin as [Hin|Hin]; discriminate || contradiction.
Defined.

(** ** The database *)

Section Load.
Context `{Serde, SipHash}.
Context (decode : string → option (list DetectableActivity)).
Context (objects : string → option (list (list (string * Value)))).
Context (bundled : string).
Context (fetch : string → option (string * option string)).
Context (disk : Disk).

Abbreviation parse_body := (parse_body decode objects).
Abbreviation load_daemon := (load_daemon decode objects bundled fetch disk).

(** Where a database came from, by its label. *)
Definition loaded_from (args : Args) (dm : Overrides.Daemon) (label : string) : Prop :=
  label = "empty" ∧ a_no_process_scan args = true ∧
    (∃ shape, parse_body "[]" = inr (dm_detectable dm, shape)) ∨
  label = "file" ∧ (∃ file, a_detectable_file args = Some file ∧
    load_db_file decode objects disk file = inr (dm_detectable dm)) ∨
  (label = "bundled" ∨ label = "bundled-fallback") ∧
    load_bundled decode objects bundled = inr (dm_detectable dm) ∨
  (label = "fetched-direct" ∨ label = "fetched-trimmed") ∧
    (∃ url body etag shape, fetch url = Some (body, etag) ∧ parse_body body = inr (dm_detectable dm, shape) ∧
      (label = "fetched-direct" ↔ shape = "direct")).

Definition load_failed (args : Args) (e : LoadError) : Prop :=
  a_no_process_scan args = true ∧ parse_body "[]" = inl e ∨
  (∃ file, a_detectable_file args = Some file ∧ load_db_file decode objects disk file = inl e) ∨
  load_bundled decode objects bundled = inl e.

Lemma from_bundled_cases label config args :
  label = "bundled" ∨ label = "bundled-fallback" →
  match labelled label (from_bundled decode objects bundled config) with
  | inl e => load_failed args e
  | inr (dm, label) => loaded_from args dm label
  end.
Proof.
  intros Hl. unfold from_bundled. destruct (load_bundled _ _ _) as [e|parsed] eqn:E; cbn.
  - by right; right.
  - right; right; left. by split.
Qed.

Lemma daemon_from_url_cases url config args :
  match daemon_from_url decode objects bundled fetch url config with
  | inl e => load_failed args e
  | inr (dm, label) => loaded_from args dm label
  end.
Proof.
  unfold daemon_from_url. destruct (fetch url) as [[body etag]|] eqn:Ef; [|apply from_bundled_cases; auto].
  unfold daemon_from_fetched. destruct (parse_body body) as [e|[parsed shape]] eqn:Ep;
    [apply from_bundled_cases; auto|].
  right; right; right. destruct (String.eqb_spec shape "direct") as [->|Hne].
  - split; [auto|]. by exists url, body, etag, "direct".
  - split; [auto|]. exists url, body, etag, shape. split_and!; [done..|]. by split.
Qed.

(** Boot never depends on the network.  Whatever the server answers,
    loading fails only on an unreadable or unusable file the user named, or
    on a broken bundled snapshot; otherwise the label printed at boot tells
    where the running database came from: nothing, the file, the snapshot,
    or a body that was fetched and decoded in the shape the label names. *)
Theorem boot_is_labelled (args : Args) (config : RPCConfig) :
  match load_daemon args config with
  | inl e => load_failed args e
  | inr (dm, label) => loaded_from args dm label
  end.
Proof.
  unfold load_daemon. destruct (a_no_process_scan args) eqn:En.
  - unfold from_json_str. destruct (parse_body "[]") as [e|[parsed shape]] eqn:Ep; cbn; [by left|].
    left. split_and!; eauto.
  - destruct (a_detectable_file args) as [file|] eqn:Ef.
    + unfold from_file. destruct (load_db_file _ _ _ file) as [e|parsed] eqn:El; cbn.
      * right; left. eauto.
      * right; left. split; [done|]. eauto.
    + destruct (a_db_url args) as [url|]; [apply daemon_from_url_cases|].
      destruct (a_enable_db_update args); [apply daemon_from_url_cases|apply from_bundled_cases; auto].
Qed.

(** The seeds of a fetched database, or none. *)
Definition seeded (dm : Overrides.Daemon) : Prop :=
  let c := dm_config dm in
  initial_db_etag c = None ∧ initial_db_content_hash c = None ∨
  ∃ url body etag shape, fetch url = Some (body, etag) ∧ parse_body body = inr (dm_detectable dm, shape) ∧
    initial_db_etag c = etag ∧ initial_db_content_hash c = Some (content_hashes body (dm_detectable dm)).

Lemma labelled_unseeded label config dm l :
  initial_db_etag config = None → initial_db_content_hash config = None →
  labelled label (from_bundled decode objects bundled config) = inr (dm, l) → seeded dm.
Proof.
  intros He Hh. unfold from_bundled. destruct (load_bundled _ _ _) as [|parsed]; cbn; [done|].
  intros [= <- <-]. by left.
Qed.

Lemma from_url_seeded url config dm l :
  initial_db_etag config = None → initial_db_content_hash config = None →
  daemon_from_url decode objects bundled fetch url config = inr (dm, l) → seeded dm.
Proof.
  intros He Hh. unfold daemon_from_url.
  destruct (fetch url) as [[body etag]|] eqn:Ef; [|by apply labelled_unseeded].
  unfold daemon_from_fetched. destruct (parse_body body) as [e|[parsed shape]] eqn:Ep;
    [by apply labelled_unseeded|].
  intros [= <- <-]. right. exists url, body, etag, shape. done.
Qed.

Lemma load_daemon_seeded version args dm l :
  load_daemon args (build_daemon_config version args) = inr (dm, l) → seeded dm.
Proof.
  unfold load_daemon. destruct (a_no_process_scan args).
  { unfold from_json_str. destruct (parse_body "[]") as [|[]]; cbn; [done|]. intros [= <- _]. by left. }
  destruct (a_detectable_file args) as [file|].
  { unfold from_file. destruct (load_db_file _ _ _ file); cbn; [done|]. intros [= <- _]. by left. }
  destruct (a_db_url args) as [url|]; [by apply from_url_seeded|].
  destruct (a_enable_db_update args); [by apply from_url_seeded|by apply labelled_unseeded].
Qed.

(** What a body decodes to. *)
Definition decoded (body : string) : option (list DetectableActivity) :=
  match parse_body body with inr (parsed, _) => Some parsed | inl _ => None end.

(** C21: The first hourly check starts from the truth.  Whatever source boot
    used, when the scanner's generation was built from the loaded database,
    the tag and hashes the refresh thread starts with describe that very
    database: they are absent, or the tag is the one that came with the
    fetched body the running entries were decoded from.  So a body that
    was refused and replaced by the snapshot leaves no tag behind, and if
    the server serves the booted body again nothing is rebuilt. *)
Theorem boot_seeds_describe_database `{AhoCorasick} platform version args dm label staged s :
  load_daemon args (build_daemon_config version args) = inr (dm, label) →
  is_Some (build_bundle platform (map from_activity (dm_detectable dm)) (map from_owned staged)) →
  refresh_start (refresh_config (dm_config dm)) (initial_bundle platform (dm_detectable dm) staged) = Some s →
  (∃ served, (∀ etag body, (etag, body) ∈ served → ∃ url, fetch url = Some (body, etag)) ∧
     validators_ok decoded served s) ∧
  (rf_etag s = None ∧ rf_content_hash s = None ∨
   ∃ url body etag shape, fetch url = Some (body, etag) ∧
     parse_body body = inr (dm_detectable dm, shape) ∧ rf_etag s = etag ∧
     ∀ parse etag', rf_bundle (refresh_round platform parse (Some (Body etag' body)) s) = rf_bundle s).
Proof.
  intros Hl%load_daemon_seeded [b Hb]. unfold refresh_start, initial_bundle. rewrite Hb. cbn [from_option id].
  destruct (_ && _); [|done]. intros [= <-]. unfold validators_ok, refresh_config. cbn.
  destruct Hl as [[He Hh]|(url & body & etag & shape & Hf & Hp & He & Hh)]; rewrite He, Hh; cbn.
  - split; [|by left]. exists []. split; [by intros ? ? ?%elem_of_nil|by left].
  - split; [|right].
    + exists [(etag, body)]. split; [intros e b' [= -> ->]%list_elem_of_singleton; by exists url|].
      right. exists body, body, etag, (dm_detectable dm), (dm_detectable dm).
      unfold decoded. rewrite Hp. split_and!; [by left|done|by left|done..|].
      destruct (build_bundle_lists _ _ _ _ Hb) as [-> _]. apply map_ext. intros a. by rewrite from_owned_activity.
    + exists url, body, etag, shape. split_and!; [done..|]. intros parse etag'.
      unfold refresh_round, fetch_detectable_etag. cbn. by rewrite Z.eqb_refl.
Qed.
End Load.

(** ** The one-shot scan *)

Section Detect.
Context `{AhoCorasick, Regex, CaseTables, HashOrder}.
Context (platform : Platform).
Context (fetch_exclusions : string → option Exclusions).

Lemma send_each_fits evs c :
  ec_open c = true → length (ec_queue c) + length evs ≤ SNAPSHOT_EVENT_CAP →
  send_each evs c = (DeliveryComplete, {| ec_queue := ec_queue c ++ evs; ec_open := true |}).
Proof.
  revert c. induction evs as [|ev evs IH]; intros [q o]; cbn [ec_open ec_queue]; intros -> Hlen;
    cbn [send_each]; [by rewrite app_nil_r|].
  unfold ev_send_checked. cbn [ec_open ec_queue negb length] in *. rewrite decide_False by lia.
  rewrite IH; [cbn; by rewrite <- app_assoc|done|]. cbn. rewrite length_app. cbn. lia.
Qed.

(** What the diagnostics list is what running publishes.  On the same
    process table, Steam directories and exclusions, the first tick of the
    scan loop sends one detection for each game the one-shot scan lists, in
    its order, with the same id, name and pid, and nothing else (up to the
    event queue's bound); and when the one-shot scan fails, the tick sends
    nothing. *)
Theorem listed_is_published mc steam_dirs processes (dm : Overrides.Daemon) base live :
  let srv := {| ss_exclusions := once_exclusions fetch_exclusions (dm_config dm); ss_steam_dirs := steam_dirs |} in
  let b := initial_bundle platform (dm_detectable dm) (dm_staged dm) in
  let result := (scan_for_processes platform mc srv b false processes ∅).1 in
  let loop := ScanLoop_new {| ec_queue := []; ec_open := true |} in
  let sent := ec_queue (sl_chan (scan_tick result (list_to_set (ignored_ids (dm_config dm))) base live loop).2) in
  match detect_once platform fetch_exclusions mc steam_dirs processes dm with
  | inl _ => sent = []
  | inr games => length games ≤ SNAPSHOT_EVENT_CAP →
      ∃ hits, sent = map EvDetected hits ∧ map detected_game hits = games
  end.
Proof.
  cbv zeta. unfold detect_once. destruct (scan_for_processes _ _ _ _ _ _ _).1 as [[found obs]|e]; [|done].
  rewrite length_map. set (ignored := list_to_set _ : gset string). intros Hlen.
  exists (apply_ignore_list found ignored). split; [|done]. unfold scan_tick, ScanLoop_new. cbv zeta.
  set (hits := apply_ignore_list found ignored) in *. cbn [sl_last sl_dirty sl_chan].
  rewrite orb_false_r. case_bool_decide as Hc.
  - unfold advance_snapshot_lane. rewrite deliver_tick. unfold tick_events.
    destruct hits as [|hit hits'] eqn:Eh; [by destruct Hc|]. cbn [removed_slots].
    change (base.filter _ []) with (@nil (string * Z)). cbn [fmap list_fmap]. rewrite app_nil_l, app_nil_r.
    rewrite send_each_fits; [done|done|]. cbn in *. rewrite length_map. lia.
  - destruct hits as [|hit hits']; [done|].
    assert (slot_of hit ∈ []) as Hin; [|by apply elem_of_nil in Hin].
    rewrite <- Hc, sort_slots_perm. by left.
Qed.
End Detect.

(** ** A boot *)

Module BootDemo.
Import RefreshDemo NaiveAc.
#[export] Existing Instance demo_serde.

Definition decode (body : string) : option (list DetectableActivity) :=
  if String.eqb body "db" then Some [NaiveAc.game] else if String.eqb body "[]" then Some [] else None.
Definition objects (body : string) : option (list (list (string * Value))) := None.
Definition fetch (url : string) : option (string * option string) :=
  if String.eqb url DEFAULT_DB_URL then Some ("db", Some "tag") else Some ("<html>", Some "other").

(** [--enable-db-update]. *)
Definition updating : Args := {|
  a_detectable_file := None; a_no_process_scan := false; a_no_proc_events := false; a_debug := false;
  a_bridge_port := 1337; a_bridge_port_end := 1347; a_msgpack_port := 1338; a_ws_port_start := 6463;
  a_ws_port_end := 6472; a_scan_interval_secs := 5; a_db_url := None; a_enable_db_update := true;
  a_exclusions_url := None; a_overrides_file := None; a_overrides_dir := None; a_ignore_ids := None;
  a_state_file := false; a_bridge_allowed_origins := None; a_list_detected := false;
  a_list_database := false; a_check_update := false; a_update := false; a_yes := false;
  a_rollback := false; a_auto_update := false |}.

Definition booted : Overrides.Daemon :=
  from_parsed [NaiveAc.game] (with_seeds (Some "tag") (Some (content_hashes "db" [NaiveAc.game]))
    (build_daemon_config "0" updating)).

Definition started : RefreshState := {|
  rf_etag := Some "tag"; rf_content_hash := Some (body_hash "db");
  rf_trimmed_hash := Some (canonical_content_hash [NaiveAc.game]);
  rf_bundle := initial_bundle PLinux [NaiveAc.game] [] |}.
End BootDemo.
Import RefreshDemo NaiveAc BootDemo.

Lemma boot_seeds_describe_database_witness :
  load_daemon BootDemo.decode BootDemo.objects "[]" BootDemo.fetch overrides_disk BootDemo.updating
    (build_daemon_config "0" BootDemo.updating) = inr (BootDemo.booted, "fetched-direct") ∧
  ∃ served, validators_ok (decoded BootDemo.decode BootDemo.objects) served BootDemo.started.
Proof.
  assert (load_daemon BootDemo.decode BootDemo.objects "[]" BootDemo.fetch overrides_disk BootDemo.updating
    (build_daemon_config "0" BootDemo.updating) = inr (BootDemo.booted, "fetched-direct")) as E
    by (vm_compute; reflexivity).
  split; [exact E|].
  destruct (boot_seeds_describe_database BootDemo.decode BootDemo.objects "[]" BootDemo.fetch overrides_disk
    PLinux "0" BootDemo.updating BootDemo.booted "fetched-direct" [] BootDemo.started E) as [(served & _ & Hv) _].
  - eexists. vm_compute. reflexivity.
  - vm_compute. reflexivity.
  - exists served. exact Hv.
Defined.
